(* ===== verification/_CoqProject ===== *)
-Q . S2P
Prelude.v
Store.v
Slab.v
VecMap.v
StoreSpec.v
Wheel.v
WheelInv.v
WheelOps.v
WheelScan.v
WheelSpec.v
TidLedger.v
ExecLog.v
Tls.v
Executor.v
ExecInv.v
ExecOps.v
ExecTick.v
ExecSpec.v
ExecWake.v
ExecSuspend.v
Framework.v
Contracts.v
Interrupt.v
BlockOn.v
Runtime.v
UtilityLog.v
ReactorLog.v
Readiness.v
ResourceSlab.v
Reactor.v
ReactorInv.v
ReactorOps.v
ReactorSpec.v
ReactorLogSpec.v
ReactorIoLog.v
ReactorIoSpec.v
ReactorTimerLog.v
ReactorData.v
ReactorSyscallLog.v
ReactorContracts.v
ReactorIoContract.v
Sleep.v
SleepSpec.v
SleepTasks.v
NetIo.v
TaskLog.v
Composed.v
ComposedSpec.v
EndToEnd.v
NetInv.v
NetSpec.v
NetTasks.v
NetAddr.v
BlockingPool.v
Fs.v
Interval.v
Timeout.v
Waiter.v
WaiterSpec.v
WaiterPool.v
Semaphore.v
SemInv.v
SemSpec.v
AsyncMutex.v
Notify.v
NotifySpec.v
Channel.v
Mpsc.v
MpscInv.v
MpscStep.v
MpscSpec.v
Unbounded.v
Oneshot.v
Multi.v
Macro.v
DrainPool.v
Watch.v
WatchSpec.v
Broadcast.v
BroadcastSpec.v
