(* ===== verification/Prelude.v ===== *)
(** * Lion: a verification development for the Lion asynchronous runtime

    Lion is an asynchronous runtime in Rust: an executor that polls tasks, a
    reactor that parks the thread on timers and I/O, and utilities (sleep,
    semaphore, mutex, notify, channels) that suspend a task and wake it.  Part of
    the code is verified with Verus; the code that glues these kernels to real
    wakers, locks and futures is trusted there.  This development models both, and
    states what the whole promises.

    ** Parts and files

    - [Prelude]: machine integers ([wrap64], [is_u64]), vectors ([vec_pop],
      [swap_remove]), sums of lengths, the replay of a log ([LogTrace]), tactics.
    - [Store], [Slab], [VecMap], [StoreSpec]: the two offset-addressed tables,
      [lion-slab/src/slab.rs] and [lion-timer-wheel/src/vec_map.rs].  [Store] is the
      class of what a client of such a table relies on; both tables are instances,
      and [StoreSpec] shows that a run of operations agrees with a finite map.
    - [Wheel], [WheelInv], [WheelOps], [WheelScan], [WheelSpec]: the hierarchical timer wheel, [lion-timer-wheel/src/wheel.rs].
      [Wheel] holds the data and every operation; the next files prove the slot
      arithmetic ([WheelInv]), the effect of each edit on the source's invariant [full_wf], the
      loops of [advance_to] and each public operation, and the ring scan.  [WheelSpec]
      has an abstract timer queue (a finite map from ids to deadlines) and the
      refinement of the wheel to it.
    - [TidLedger], [ExecLog], [Tls], [Executor]: the data of the executor,
      [lion-executor/src], and the log vocabulary of [lion-executor-spec].
      [Executor.tick] composes [wake_deferred], [pop_injection], [poll_loop] and
      [park] as [executor/tick.rs] does.  User futures and the reactor are the
      class [Executor.Env].
    - [ExecInv], [ExecOps], [ExecTick], [ExecSpec], [ExecWake]: the data invariant
      and the log invariants E1 to E9 of [lion-executor/src/proof/invariants.rs]
      hold in every reachable state; polling is fair; a wake is not lost.
    - [Framework], [Contracts], [ReactorContracts]: the framework of [lion-framework-spec],
      modules whose states are logs with contracts of bounded liveness, and its two
      instances in [lion-executor-spec], [lion-reactor-spec] and [lion-liveness].  The ticks of
      the modelled executor are rounds of its module, and so are the parks of the reactor
      while it serves timers.  [ReactorSyscallLog] has the invariants about I/O as the
      module asks for them, anchored at the system's calls, and [ReactorIoContract] the
      contract for I/O.
    - [Interrupt]: what other threads do to a parked executor, the interrupt handle of
      [lion-reactor/src/types/interrupt_handle.rs] with the cross-thread queue and the
      injection channel, each access a step of an interleaving.
    - [BlockOn]: the main future of [block_on], [lion-utility/src/task.rs], and the decision
      of [park] to block.
    - [Runtime], [Multi]: a process with any number of runtimes and threads.  [Runtime] has
      the thread-locals that [lion-executor/src/lib.rs], [tls.rs] and [waker.rs] share, and each
      runtime is an executor of [ExecSpec.reachable]; [Multi] is the facade,
      [lion/src/multi.rs] and the builder of [lion/src/lib.rs], whose workers wait for a
      [Oneshot], and a runtime nested in another one with [block_in_place].
    - [TaskLog], [Composed], [ComposedSpec]: the composed system of [lion-liveness].
      [TaskLog] is the log of one task ([utilities/spec], [utilities/invariants]), with the
      template of a contract of [utilities/contracts/pass_waker.rs]; [Composed]
      is the state of [composed/spec] with the conditions that a round of executor, reactor
      and tasks keeps, over the rounds of [Contracts] and [ReactorContracts].
    - [ComposedSpec.ComposedRun], [EndToEnd]: a run of the modelled executor and reactor that meets these
      conditions; and the assumptions on the environment with the end-to-end theorem,
      [composed/spec/assumptions.rs] and [composed/proof/assumption_satisfiable.rs].
    - [ExecSuspend], [SleepTasks], [NetTasks]: a task that is not queued is armed in the
      world behind [Executor.Env], for any world that keeps [SuspendLaws]; the world of
      [SleepTasks] is the modelled reactor, with tasks that await the sleeps of a plan one
      after the other, and the one of [NetTasks] is the system of [NetSpec], with tasks that
      poll an operation of a socket.
    - [ReactorLog], [Readiness], [ResourceSlab], [Reactor]: the reactor, [lion-reactor/src],
      over the wheel and the slab, with the log of [lion-reactor-spec] and the handle's
      cache of one deregistration.  The system ([mio], the clock) answers through
      arguments of the operations.
    - [ReactorInv], [ReactorOps], [ReactorSpec], [ReactorLogSpec]: the data invariant,
      each operation, the refinement of the reactor to an abstract timer and I/O
      [service], and what its log says of registrations.
    - [ReactorIoLog], [ReactorIoSpec], [ReactorTimerLog], over [Prelude.LogTrace]: the
      invariants of the reactor's log about cycles and I/O resources, which hold in every
      run, and the two about timers that hold unless a timer is deregistered: what the
      handle's cache does to a deregistration breaks them, for every timer and any run.
    - [ReactorData]: the contract under which the operations of the reactor are verified,
      [lion-reactor/src/invariants/data_inv.rs] and [spec/predicates.rs]: views of the
      table, the invariant that ties table, wheel and log, and what each operation
      requires and ensures.
    - [Sleep], [SleepSpec], [Interval], [Timeout]: instants and durations ([Interval.Instant]),
      [lion-reactor/src/types/time.rs], and [lion-utility/src/time].  [SleepSpec] is the
      system of any number of sleeps and other clients over one reactor, proved against
      [ReactorSpec.service] only.  [Timeout.Future] is the class of a wrapped future,
      [Timeout.FutureLaws] what it must respect; sleeps and timeouts are instances.
    - [NetIo], [NetInv], [NetSpec]: the sockets of [lion-utility/src/net].  [NetIo] has the
      I/O kernel with its log and the glue of streams, listeners and datagram sockets over
      the reactor and its readiness flags; [NetInv] the common shape of the polls;
      [NetSpec] the system of any number of sockets, the reactor, and an operating system
      with edge-triggered events, and says which steps of the code lose one ([NetSpec.loses]).
    - [NetAddr]: names and addresses, [net/addr.rs], the connection of a stream from the
      name on, and the socket builder, [net/tcp/socket.rs].
    - [BlockingPool]: join handles, [lion-executor/src/types/join_handle.rs], and the
      threads of [lion-executor/src/blocking.rs], interleaved between critical sections;
      the closures act on a world that they share, and running one and completing its
      join handle are two steps.
    - [Fs]: the futures of [lion-utility/src/fs/mod.rs] over the pool; the world is the
      files.
    - [Macro]: the attributes of [lion-macro/src/lib.rs], and the builder of [lion/src/lib.rs].
    - [UtilityLog], [Waiter], [WaiterSpec]: the log of [lion-utility-spec] with its
      two invariants, and the waiter kernel of [lion-utility/src/sync/waiter], with its module and
      contract, [sync/waiter/liveness.rs] ([WaiterSpec.WaiterContract]).
    - [WaiterPool], [Semaphore], [SemInv], [SemSpec], [AsyncMutex],
      [Notify], [NotifySpec]: the synchronization primitives over the waiter kernel.
      [WaiterPool] is what [semaphore.rs] and [notify.rs] have in common: kernel,
      wakers, futures and the flags they share with the pool, as an explicit store.
      Each primitive is a transition function over all the futures, permits and
      guards of one instance; reading a flag before taking the lock and the critical
      section under it are separate steps, so that runs are interleavings of threads.
    - [Channel], [Mpsc], [MpscInv], [MpscStep], [MpscSpec]: the data kernel of the
      channels and the bounded channel of [sync/mpsc.rs], with its [Send], [Reserve]
      and [Recv] futures.
    - [Unbounded], [Oneshot]: the unbounded channel of [sync/mpsc.rs] and the one-value
      channel of [sync/oneshot.rs].
    - [DrainPool], [Watch], [WatchSpec], [Broadcast], [BroadcastSpec]: the channels of
      [sync/watch.rs] and [sync/broadcast.rs], over the pool of waiters that both
      drain as a whole.

    ** What the theorems show

    - Stores and wheel: functional correctness against finite maps; the wheel
      returns a due timer if and only if one is due, and [next_deadline] is the
      minimum of the deadlines.
    - Executor: the invariants of every reachable state, the order and the bound of
      the polls of a tick, the life cycle of a task id, and the liveness facts with
      explicit bounds: a queued task is polled, and so is a task that was woken, whatever
      ran on the thread before.  Over
      the reactor: no sleeping task is stranded, and each one finishes once the clock
      stays past its deadlines, or a poll panicked because the timer ids are used up; over sockets, each task finishes once its data arrives.
    - Contracts: every contract of the executor holds of its module without an assumption
      on the environment, the timer contract of the reactor holds while the clock
      advances, and the code runs in the rounds that these modules describe, except for
      a reactor that serves I/O ([io_calls_leave_module]).
    - Composed system: from the conditions on rounds alone, a task in a wake queue and a
      task in the injection schedule are polled, within stated numbers of rounds; under the
      assumptions on the environment a task is polled until it is ready, within the number
      of rounds that the source computes.  A run of the code meets these conditions, and
      two kinds of runs do not: a task that waits twice on a resource, and a task that
      is spawned late.
    - Threads: the executor does not sleep over a wake from another thread and receives it
      without waiting; in a process, each runtime that has its thread to itself is an
      executor, wakers reach their tasks from any thread, spawns go round the runtimes,
      and the workers end when they are told to.  A runtime that is nested in place leaves
      the one around it alone.
    - Reactor: any run of calls answers as the service does; a park polls once, no
      longer than to the first deadline, and wakes exactly the due timers.  Of the
      invariants R1 to R17 that [lion-reactor/src/invariants] asks of the log, all but R5
      and R16 hold in every run, and these two in the runs that deregister no timer.  In any
      order of its operations the reactor keeps the contract they are verified under.
    - Time: a sleep is never late and never early, and leaks no timer; intervals do not
      drift while their deadlines fit; a timeout suspends only with a live timer.
    - Sockets: while a poll is suspended, either a call would find nothing or the system
      owes an event, which wakes the task, or the code cleared the flag too early
      ([NetSpec.missed]); the reactor's I/O resources are
      those of the open sockets.  What the system promises is the guard
      [NetSpec.op_allowed] of the runs.  A connection gives its resource to the stream that
      it returns, or back, and stands for the first address that was not refused at once.
    - Blocking pool: an unpark is not lost, so a closure that is queued to a live
      thread runs, if no closure before it panics, completes its join handle and wakes the
      task that waits for it.  A file operation makes its call once, after its first poll,
      and returns its answer, if its closure is at a thread that lives on.
    - Synchronization: permits, notifications and values are conserved over every
      interleaving; at most one mutex guard is alive; a registered waker is dropped
      only by its own future or in the step that wakes it; a parked waiter is woken after at
      most as many signals as wait before it, and one; when senders wait, free
      slots are matched by senders already woken.  Channels deliver in order, each value
      once, and a broadcast says exactly how much a slow receiver missed.
    - Defects: [stale_poll_unregistered], [held_back_deregistration_unlogged],
      [pass_waker_template_fails], [handle_breaks_contract], [connect_one_address],
      [main_arguments_ignored], [std_duration_truncates], [interval_overflow], [watch_wait_for_race],
      [short_read_ignores_eof], [end_of_file_missed], [shared_socket_wakes_one], [panicked_worker_strands],
      [spawn_not_announced], [main_wake_ignored], [second_runtime_clobbers],
      [io_calls_leave_module], [second_wait_not_aligned], [late_spawn_breaks_schedule],
      [broadcast_counts_senders] and [cached_min_never_set] exhibit
      where the code does not do what it says.
    - Every loop ends: the theorems named [never_stuck], [drains] and [all] give a
      result, and so do the delivery theorems of the channels, by saying that every
      action whose guard holds goes through.

    ** Bounds and fuel

    Loops over ranges are folds.  Recursion with fuel is given what the source's
    own measure allows: [drain_pending] the length of the pending vector, [poll_while]
    what is left of the event interval, [deliver] and [wake_tx_loop] one more than
    the queue length, [wake_expired_loop] one more than the timers in the wheel,
    [wake_loop] one more than the queue length, [recv_loop], [poll_loop] and
    [changed_loop] one more than the stored wake hints.  Counters that
    can wrap use [wrap64]; a theorem that needs a counter not to wrap says so (waiter
    ids by the length of the run, permits by the permits added).

    ** What is not modelled

    The operating system, [mio], the real clock and the futures of the user are
    parameters.  So are the parsers and the resolver of the standard library, what a call
    on files answers, and the descriptors of sockets.  Not modelled: the rest of the facade
    [lion], which re-exports; [init_global_ctx] and
    [create_raw_task_waker] of [waker.rs], which nothing reads; the proofs of the Verus
    crates ([lion-reactor/src/proof], and the hand-written logs of [composed/proof] in
    [lion-liveness]), whose place the proofs here take; [lion-benchmark], which holds applications.  What the tasks of several runtimes share is in the world of each.
    Memory is not modelled below the level of vectors and shared flags: a stored waker
    is the id of the task that it wakes, and dropping it has no effect.  The atomics of
    the source are sequentially consistent here. *)

From Stdlib Require Export ZArith Lia.
From stdpp Require Export base list gmap.

(** ** Machine integers

    [u64] values are integers in [0, 2^64); the operations of the source that
    can wrap are written with [wrap64]. *)

Declare Scope lion_scope.
Delimit Scope lion_scope with lion.

Definition two64 : Z := 18446744073709551616.
Definition u64_max : Z := 18446744073709551615.
Definition is_u64 (z : Z) : Prop := (0 ≤ z < two64)%Z.
Definition wrap64 (z : Z) : Z := (z mod two64)%Z.

Lemma wrap64_id z : is_u64 z → wrap64 z = z.
Proof. intros H. unfold wrap64. apply Z.mod_small, H. Qed.

Lemma wrap64_range z : is_u64 (wrap64 z).
Proof. apply Z.mod_pos_bound. done. Qed.

(** A nonnegative number keeps its value when it is cast to [u8], if it fits. *)
Definition as_u8 (n : nat) : nat := n `mod` 256.

Lemma as_u8_id n : n < 256 → as_u8 n = n.
Proof. intros. unfold as_u8. by apply Nat.mod_small. Qed.

(** ** Tactics *)

(** Case analysis on every [match]/[if] of the goal, with equations. *)
Ltac step_match :=
  match goal with
  | |- context [match ?x with _ => _ end] => destruct x eqn:?
  end.

(** Turn boolean comparisons of integers into propositions. *)
Ltac to_prop :=
  repeat match goal with
  | H : (_ <? _)%Z = true |- _ => apply Z.ltb_lt in H
  | H : (_ <? _)%Z = false |- _ => apply Z.ltb_ge in H
  | H : (_ <=? _)%Z = true |- _ => apply Z.leb_le in H
  | H : (_ <=? _)%Z = false |- _ => apply Z.leb_gt in H
  | H : (_ =? _)%Z = true |- _ => apply Z.eqb_eq in H
  | H : (_ =? _)%Z = false |- _ => apply Z.eqb_neq in H
  | H : (_ <? _)%nat = true |- _ => apply Nat.ltb_lt in H
  | H : (_ <? _)%nat = false |- _ => apply Nat.ltb_ge in H
  | H : (_ <=? _)%nat = true |- _ => apply Nat.leb_le in H
  | H : (_ <=? _)%nat = false |- _ => apply Nat.leb_gt in H
  | H : (_ =? _)%nat = true |- _ => apply Nat.eqb_eq in H
  | H : (_ =? _)%nat = false |- _ => apply Nat.eqb_neq in H
  | H : (_ && _) = true |- _ => apply andb_true_iff in H; destruct H
  | H : negb _ = true |- _ => apply negb_true_iff in H
  | H : negb _ = false |- _ => apply negb_false_iff in H
  end.

(** Case analysis on integer comparisons of the goal. *)
Ltac case_cmp :=
  match goal with
  | |- context [(?a <? ?b)%Z] => destruct (Z.ltb_spec a b)
  | |- context [(?a <=? ?b)%Z] => destruct (Z.leb_spec a b)
  | |- context [(?a =? ?b)%Z] => destruct (Z.eqb_spec a b)
  | |- context [(?a <? ?b)%nat] => destruct (Nat.ltb_spec a b)
  | |- context [(?a <=? ?b)%nat] => destruct (Nat.leb_spec a b)
  | |- context [(?a =? ?b)%nat] => destruct (Nat.eqb_spec a b)
  end.

(** Closed range conditions. *)
Ltac u64 := unfold is_u64, two64, u64_max in *; lia.

(** ** Vectors

    A Rust [Vec<T>] is a list.  [vec_pop] takes the last element,
    [swap_remove] replaces the element at [i] by the last one. *)

Section vec.
Context {A : Type}.
Implicit Types (l : list A) (i : nat).

Definition vec_pop (l : list A) : option (A * list A) :=
  match last l with
  | Some x => Some (x, take (length l - 1) l)
  | None => None
  end.

Definition swap_remove (i : nat) (l : list A) : list A :=
  match last l with
  | Some x => take (length l - 1) (<[i := x]> l)
  | None => l
  end.

Lemma vec_pop_snoc l x : vec_pop (l ++ [x]) = Some (x, l).
Proof.
  unfold vec_pop. rewrite last_snoc, length_app. simpl.
  rewrite Nat.add_sub. by rewrite take_app_length.
Qed.

Lemma vec_pop_inv l x l' : vec_pop l = Some (x, l') → l = l' ++ [x].
Proof.
  destruct l as [|y k _] using rev_ind; [done|].
  rewrite vec_pop_snoc. by intros [= -> ->].
Qed.

Lemma vec_pop_None l : vec_pop l = None → l = [].
Proof.
  destruct l as [|y k _] using rev_ind; [done|]. by rewrite vec_pop_snoc.
Qed.

Lemma vec_pop_length l x l' : vec_pop l = Some (x, l') → length l = S (length l').
Proof. intros ->%vec_pop_inv. rewrite length_app. simpl. lia. Qed.

Lemma resize_grow l n x : length l ≤ n → resize n x l = l ++ replicate (n - length l) x.
Proof. intros. by rewrite resize_spec, take_ge. Qed.

Lemma take_pred_snoc l x : take (length (l ++ [x]) - 1) (l ++ [x]) = l.
Proof. rewrite length_app. simpl. rewrite Nat.add_sub. by rewrite take_app_length. Qed.

Lemma swap_remove_snoc_lt i l x :
  i < length l → swap_remove i (l ++ [x]) = <[i := x]> l.
Proof.
  intros Hi. unfold swap_remove. rewrite last_snoc, insert_app_l by done.
  rewrite length_app. simpl. rewrite Nat.add_sub.
  rewrite <- (length_insert l i x) at 1. by rewrite take_app_length.
Qed.

(** Element at [i] after [swap_remove] of a list with last element [x]. *)
Lemma lookup_swap_remove i j l x :
  i < length l →
  swap_remove i (l ++ [x]) !! j = if decide (i = j) then Some x else l !! j.
Proof.
  intros Hi. rewrite swap_remove_snoc_lt by done.
  rewrite list_lookup_insert. repeat case_decide; naive_solver lia.
Qed.
End vec.

(** A filter that every element satisfies. *)
Lemma list_filter_id {A} (P : A → Prop) `{∀ x, Decision (P x)} (l : list A) :
  (∀ x, x ∈ l → P x) → filter P l = l.
Proof.
  induction l as [|x l IH]; intros Hall; [done|].
  rewrite filter_cons, decide_True by (apply Hall; by left).
  rewrite IH; [done|]. intros y Hy. apply Hall. by right.
Qed.

(** Sums of lengths, used to count the members of a bucket array. *)
Section sum_len.
Context {A : Type}.
Implicit Types (ls : list (list A)).

Definition sum_len (ls : list (list A)) : nat := sum_list_with length ls.

Lemma sum_len_insert ls i l l' :
  ls !! i = Some l → sum_len (<[i := l']> ls) + length l = sum_len ls + length l'.
Proof.
  revert i. unfold sum_len. induction ls as [|k ls IH]; intros [|i] Hi; simplify_eq/=.
  - lia.
  - specialize (IH i Hi). lia.
Qed.

Lemma sum_len_zero ls : sum_len ls = 0 ↔ ∀ i l, ls !! i = Some l → l = [].
Proof.
  unfold sum_len. induction ls as [|k ls IH]; simpl.
  - split; [|done]. intros _ i l. by rewrite lookup_nil.
  - split.
    + intros H [|i] l Hi; simpl in Hi; simplify_eq.
      * apply nil_length_inv. lia.
      * apply (proj1 IH) with i; [lia|done].
    + intros H. rewrite (H 0 k) by done. simpl. apply IH.
      intros i l Hi. by apply (H (S i)).
Qed.

Lemma sum_len_lower ls i l : ls !! i = Some l → length l ≤ sum_len ls.
Proof.
  revert i. unfold sum_len. induction ls as [|k ls IH]; intros [|i] Hi; simplify_eq/=.
  - lia.
  - specialize (IH i Hi). lia.
Qed.
End sum_len.

(** ** Optional minima *)

Definition min_opt (o : option Z) (d : Z) : Z :=
  match o with Some b => Z.min b d | None => d end.

(** ** Replaying a log

    A log determines a state by replaying it, [replay], and a log is [traced] when
    each event is one that is expected in the state before it, given the events that
    follow.  Both compose over [++], and give the state at every position. *)

Module LogTrace.
Section trace.
Context {S E : Type} (step : S → E → S) (expected : S → E → list E → Prop).
Implicit Types (s : S) (e : E) (l seg : list E) (i : nat).

Definition replay s l : S := foldl step s l.

Fixpoint traced s l : Prop :=
  match l with
  | [] => True
  | e :: l' => expected s e l' ∧ traced (step s e) l'
  end.

(** The state before position [i]. *)
Definition state_at s l i : S := replay s (take i l).

Lemma replay_app s l seg : replay s (l ++ seg) = replay (replay s l) seg.
Proof. apply foldl_app. Qed.

Lemma state_at_S s l i e : l !! i = Some e → state_at s l (Datatypes.S i) = step (state_at s l i) e.
Proof. intros Hi. unfold state_at. by rewrite (take_S_r l i e Hi), replay_app. Qed.

Lemma state_at_end s l : state_at s l (length l) = replay s l.
Proof. unfold state_at. by rewrite firstn_all. Qed.

Lemma traced_at s l i e :
  traced s l → l !! i = Some e → expected (state_at s l i) e (drop (Datatypes.S i) l).
Proof.
  revert s i. induction l as [|x l IH]; intros s [|i]; simpl; [done|done|..]; intros [He Hl] Hi.
  - by injection Hi as <-.
  - by apply (IH (step s x)).
Qed.

Hypothesis expected_more : ∀ s e l seg, expected s e l → expected s e (l ++ seg).

Lemma traced_app s l seg : traced s l → traced (replay s l) seg → traced s (l ++ seg).
Proof.
  revert s. induction l as [|e l IH]; intros s; simpl; [done|]. intros [He Hl] Hs.
  split; [by apply expected_more|by apply IH].
Qed.

End trace.

End LogTrace.

Create HintDb lion discriminated.
#[export] Hint Resolve wrap64_range : lion.
