(* ===== verification/Store.v ===== *)
(** * Store: the key/value interface of the two offset-indexed containers

    [lion_slab::Slab] and [lion_timer_wheel::vec_map::VecMap] both keep a vector
    of optional values and the key of its first cell.  The class [Store] is what
    they promise to their clients (the timer wheel, the resource slab of the
    reactor, the task slab of the executor); the clients' theorems use only
    [StoreLaws].  [cell] and its lemmas are the representation facts that both
    implementations share. *)

From S2P Require Import Prelude.

(** ** The interface *)

Class Store (F : Type → Type) := {
  st_empty : ∀ {V}, F V;
  st_get : ∀ {V}, F V → Z → option V;
  st_insert : ∀ {V}, F V → Z → V → F V;
  st_remove : ∀ {V}, F V → Z → option V * F V;
}.

Class StoreLaws (F : Type → Type) `{!Store F} := {
  st_get_empty : ∀ V k, st_get (st_empty : F V) k = None;
  st_get_insert : ∀ V (m : F V) k v k',
    st_get (st_insert m k v) k' = if decide (k = k') then Some v else st_get m k';
  st_remove_result : ∀ V (m : F V) k, (st_remove m k).1 = st_get m k;
  st_get_remove : ∀ V (m : F V) k k',
    st_get (st_remove m k).2 k' = if decide (k = k') then None else st_get m k';
}.

#[global] Arguments st_empty : simpl never.
#[global] Arguments st_get : simpl never.
#[global] Arguments st_insert : simpl never.
#[global] Arguments st_remove : simpl never.

(** [delete m k] drops the returned value, as the callers that ignore it do. *)
Definition st_delete `{Store F} {V} (m : F V) (k : Z) : F V := (st_remove m k).2.

Section laws.
Context `{StoreLaws F}.
Context {V : Type}.
Implicit Types (m : F V).

Lemma st_get_insert_eq m k v : st_get (st_insert m k v) k = Some v.
Proof. rewrite st_get_insert. by case_decide. Qed.

Lemma st_get_insert_ne m k v k' : k ≠ k' → st_get (st_insert m k v) k' = st_get m k'.
Proof. intros. rewrite st_get_insert. by case_decide. Qed.

Lemma st_get_delete m k k' :
  st_get (st_delete m k) k' = if decide (k = k') then None else st_get m k'.
Proof. apply st_get_remove. Qed.

Lemma st_get_delete_eq m k : st_get (st_delete m k) k = None.
Proof. rewrite st_get_delete. by case_decide. Qed.

Lemma st_get_delete_ne m k k' : k ≠ k' → st_get (st_delete m k) k' = st_get m k'.
Proof. intros. rewrite st_get_delete. by case_decide. Qed.
End laws.

(** A store represents a finite map when they agree on every key. *)
Definition represents `{Store F} {V} (m : F V) (g : gmap Z V) : Prop :=
  ∀ k, st_get m k = g !! k.

Section represents.
Context `{StoreLaws F}.
Context {V : Type}.
Implicit Types (m : F V) (g : gmap Z V).

Lemma represents_empty : represents (st_empty : F V) ∅.
Proof. intros k. by rewrite st_get_empty, lookup_empty. Qed.

Lemma represents_insert m g k v :
  represents m g → represents (st_insert m k v) (<[k := v]> g).
Proof. intros Hm k'. by rewrite st_get_insert, lookup_insert, Hm. Qed.

Lemma represents_delete m g k :
  represents m g → represents (st_delete m k) (base.delete k g).
Proof. intros Hm k'. by rewrite st_get_delete, lookup_delete, Hm. Qed.

Lemma represents_inj m g1 g2 : represents m g1 → represents m g2 → g1 = g2.
Proof. intros H1 H2. apply map_eq. intros k. by rewrite <- H1, <- H2. Qed.
End represents.

#[export] Hint Resolve represents_empty represents_insert represents_delete : lion.

(** ** The shared representation *)

Section cell.
Context {V : Type}.
Implicit Types (inner : list (option V)) (offset key k : Z).

(** The value at key [k] of a vector whose first cell has key [offset]. *)
Definition cell inner offset k : option V :=
  if (k <? offset)%Z then None else mjoin (inner !! Z.to_nat (k - offset)).

Lemma cell_nil offset k : cell [] offset k = None.
Proof. unfold cell. case_cmp; [done|]. by rewrite lookup_nil. Qed.

Lemma cell_prepend inner offset key k :
  (key < offset)%Z →
  cell (replicate (Z.to_nat (offset - key)) None ++ inner) key k = cell inner offset k.
Proof.
  intros Hlt. unfold cell. repeat case_cmp; try lia; [done| |].
  - rewrite lookup_app_l by (rewrite length_replicate; lia).
    rewrite lookup_replicate_2 by lia. done.
  - rewrite lookup_app_r by (rewrite length_replicate; lia).
    rewrite length_replicate. do 2 f_equal. lia.
Qed.

Lemma cell_append inner n offset k :
  cell (inner ++ replicate n None) offset k = cell inner offset k.
Proof.
  unfold cell. case_cmp; [done|].
  destruct (decide (Z.to_nat (k - offset) < length inner)).
  - by rewrite lookup_app_l.
  - rewrite lookup_app_r by lia. rewrite (lookup_ge_None_2 inner) by lia. simpl.
    destruct (replicate n None !! _) as [o|] eqn:E; [|done].
    apply lookup_replicate in E as [-> _]. done.
Qed.

Lemma cell_update inner offset key o k :
  (offset ≤ key)%Z → Z.to_nat (key - offset) < length inner →
  cell (<[Z.to_nat (key - offset) := o]> inner) offset k =
    if decide (key = k) then o else cell inner offset k.
Proof.
  intros Hle Hlen. unfold cell. case_cmp; [case_decide; [lia|done]|].
  rewrite list_lookup_insert. case_decide as Hd; case_decide; try done; lia.
Qed.

Lemma cell_Some inner offset k v :
  cell inner offset k = Some v ↔
    (offset ≤ k)%Z ∧ inner !! Z.to_nat (k - offset) = Some (Some v).
Proof.
  unfold cell. case_cmp; [split; [done|lia]|].
  destruct (inner !! _) as [[w|]|]; simpl; naive_solver lia.
Qed.
End cell.
