(* ===== verification/Slab.v ===== *)
(** * Slab: the slab of [lion-slab/src/slab.rs]

    An offset-indexed vector of optional values, keyed by the monotone ids of the
    runtime (resource ids, task ids). *)

From S2P Require Import Prelude Store.

Module Slab.

Record Slab (V : Type) := mkSlab { inner : list (option V); offset : Z }.
Arguments mkSlab {V} _ _.
Arguments inner {V} _.
Arguments offset {V} _.

(** [slice::rotate_right]: the last [n] elements move to the front. *)
Definition rotate_right {A} (n : nat) (l : list A) : list A :=
  drop (length l - n) l ++ take (length l - n) l.

Section ops.
Context {V : Type}.
Implicit Types (s : Slab V).

Definition new : Slab V := mkSlab [] 0.

(** Prepend [offset - key] empty cells and move the offset to [key]. *)
Definition grow_front s (key : Z) : Slab V :=
  let extra := Z.to_nat (offset s - key) in
  let old_len := length (inner s) in
  mkSlab (rotate_right extra (resize (old_len + extra) None (inner s))) key.

(** Grow with empty cells until index [rel] is in bounds. *)
Definition ensure_slot s (rel : Z) : Slab V :=
  let idx := Z.to_nat rel in
  if length (inner s) <=? idx
  then mkSlab (resize (idx + 1) None (inner s)) (offset s)
  else s.

Definition set_slot s (rel : Z) (value : V) : Slab V :=
  mkSlab (<[Z.to_nat rel := Some value]> (inner s)) (offset s).

Definition insert s (key : Z) (value : V) : Slab V :=
  let s1 :=
    if length (inner s) =? 0 then mkSlab (inner s) key
    else if (key <? offset s)%Z then grow_front s key
    else s in
  let rel := (key - offset s1)%Z in
  set_slot (ensure_slot s1 rel) rel value.

Definition get s (key : Z) : option V :=
  if (key <? offset s)%Z then None
  else
    let diff := (key - offset s)%Z in
    if (Z.of_nat (length (inner s)) <=? diff)%Z then None
    else mjoin (inner s !! Z.to_nat diff).

(** [get_mut] hands out a mutable reference: the value and the way to write it back. *)
Definition get_mut s (key : Z) : option (V * (V → Slab V)) :=
  if (key <? offset s)%Z then None
  else
    let diff := (key - offset s)%Z in
    if (Z.of_nat (length (inner s)) <=? diff)%Z then None
    else
      match mjoin (inner s !! Z.to_nat diff) with
      | Some v => Some (v, λ v', mkSlab (<[Z.to_nat diff := Some v']> (inner s)) (offset s))
      | None => None
      end.

Definition take_at s (idx : nat) : option V * Slab V :=
  (mjoin (inner s !! idx), mkSlab (<[idx := None]> (inner s)) (offset s)).

Definition remove s (key : Z) : option V * Slab V :=
  if (key <? offset s)%Z then (None, s)
  else
    let diff := (key - offset s)%Z in
    if (Z.of_nat (length (inner s)) <=? diff)%Z then (None, s)
    else take_at s (Z.to_nat diff).

End ops.

(** ** Lemmas *)

Section lemmas.
Context {V : Type}.
Implicit Types (s : Slab V).

Lemma rotate_right_app {A} (l k : list A) : rotate_right (length k) (l ++ k) = k ++ l.
Proof.
  unfold rotate_right. rewrite length_app, Nat.add_sub.
  by rewrite drop_app_length, take_app_length.
Qed.

Lemma slab_get_cell s k : get s k = cell (inner s) (offset s) k.
Proof.
  unfold get, cell. repeat case_cmp; try done.
  by rewrite lookup_ge_None_2 by lia.
Qed.

Lemma grow_front_inner s key :
  grow_front s key =
    mkSlab (replicate (Z.to_nat (offset s - key)) None ++ inner s) key.
Proof.
  unfold grow_front. f_equal. rewrite resize_grow by lia.
  replace (length (inner s) + Z.to_nat (offset s - key) - length (inner s))
    with (Z.to_nat (offset s - key)) by lia.
  rewrite <- (length_replicate (Z.to_nat (offset s - key)) (@None V)) at 1.
  apply rotate_right_app.
Qed.

Lemma slab_get_grow_front s key k :
  (key < offset s)%Z → get (grow_front s key) k = get s k.
Proof. intros. rewrite grow_front_inner, !slab_get_cell. by apply cell_prepend. Qed.

Lemma slab_get_ensure_slot s rel k : get (ensure_slot s rel) k = get s k.
Proof.
  unfold ensure_slot. case_cmp; [|done].
  rewrite !slab_get_cell. simpl. rewrite resize_grow by lia. apply cell_append.
Qed.

Lemma slab_ensure_slot_length s rel : Z.to_nat rel < length (inner (ensure_slot s rel)).
Proof. unfold ensure_slot. case_cmp; simpl; [rewrite length_resize|]; lia. Qed.

Lemma slab_ensure_slot_offset s rel : offset (ensure_slot s rel) = offset s.
Proof. unfold ensure_slot. by case_cmp. Qed.

Lemma slab_get_set_slot s rel v k :
  (0 ≤ rel)%Z → Z.to_nat rel < length (inner s) →
  get (set_slot s rel v) k = if decide (offset s + rel = k)%Z then Some v else get s k.
Proof.
  intros Hrel Hlen. rewrite !slab_get_cell. unfold set_slot. simpl.
  replace rel with (offset s + rel - offset s)%Z at 1 by lia.
  rewrite cell_update; [done|lia|]. by replace (offset s + rel - offset s)%Z with rel by lia.
Qed.

Lemma slab_get_insert_aux s rel v k :
  (0 ≤ rel)%Z →
  get (set_slot (ensure_slot s rel) rel v) k =
    if decide (offset s + rel = k)%Z then Some v else get s k.
Proof.
  intros. rewrite slab_get_set_slot by (done || apply slab_ensure_slot_length).
  by rewrite slab_ensure_slot_offset, slab_get_ensure_slot.
Qed.

Lemma slab_get_insert s key v k :
  get (insert s key v) k = if decide (key = k) then Some v else get s k.
Proof.
  unfold insert.
  destruct (Nat.eqb_spec (length (inner s)) 0); [|destruct (Z.ltb_spec key (offset s))].
  - rewrite slab_get_insert_aux by (simpl; lia). simpl.
    replace (key + (key - key))%Z with key by lia. case_decide; [done|].
    destruct s as [[|] o]; [|done]. rewrite !slab_get_cell; simpl. by rewrite !cell_nil.
  - rewrite slab_get_insert_aux by (simpl; lia). simpl.
    replace (key + (key - key))%Z with key by lia. by rewrite slab_get_grow_front.
  - rewrite slab_get_insert_aux by lia. by replace (offset s + (key - offset s))%Z with key by lia.
Qed.

Lemma slab_remove_result s key : (remove s key).1 = get s key.
Proof. unfold remove, get. by repeat case_cmp. Qed.

Lemma slab_get_remove s key k :
  get (remove s key).2 k = if decide (key = k) then None else get s k.
Proof.
  unfold remove. case_cmp; [|case_cmp]; simpl.
  - case_decide; [subst|done]. rewrite slab_get_cell. unfold cell. case_cmp; [done|lia].
  - case_decide; [subst|done]. rewrite slab_get_cell. unfold cell. case_cmp; [done|].
    by rewrite lookup_ge_None_2 by lia.
  - rewrite !slab_get_cell. simpl. apply cell_update; lia.
Qed.

Lemma get_mut_get s key : fst <$> get_mut s key = get s key.
Proof. unfold get_mut, get. repeat case_cmp; try done. by destruct (mjoin _). Qed.

(** Writing through the reference changes the value at the key, and nothing else. *)
Lemma get_mut_write s key v w v' k :
  get_mut s key = Some (v, w) →
  get (w v') k = if decide (key = k) then Some v' else get s k.
Proof.
  unfold get_mut. repeat case_cmp; try done.
  destruct (mjoin _) eqn:E; [|done]. intros [= <- <-].
  rewrite !slab_get_cell. simpl. apply cell_update; lia.
Qed.

End lemmas.

#[global] Instance slab_store : Store Slab := {
  st_empty V := new;
  st_get V := get;
  st_insert V := insert;
  st_remove V := remove;
}.

#[global] Instance slab_laws : StoreLaws Slab.
Proof.
  split; intros V; cbv [st_empty st_get st_insert st_remove].
  - intros k. rewrite slab_get_cell. apply cell_nil.
  - apply slab_get_insert.
  - apply slab_remove_result.
  - apply slab_get_remove.
Qed.

End Slab.
