(* ===== verification/VecMap.v ===== *)
(** * VecMap: the map of [lion-timer-wheel/src/vec_map.rs]

    The same representation as [Slab], plus a counter of the occupied cells that
    makes [is_empty] constant time.  [count_wf] couples the counter to the cells. *)

From S2P Require Import Prelude Store.

Module VecMap.

Record VecMap (V : Type) := mkVecMap {
  inner : list (option V);
  offset : Z;
  count : nat;
}.
Arguments mkVecMap {V} _ _ _.
Arguments inner {V} _.
Arguments offset {V} _.
Arguments count {V} _.

Section ops.
Context {V : Type}.
Implicit Types (m : VecMap V).

Definition new : VecMap V := mkVecMap [] 0 0.

Definition grow_front m (key : Z) : VecMap V :=
  let extra := Z.to_nat (offset m - key) in
  let new_inner := resize extra None [] in
  mkVecMap (new_inner ++ inner m) key (count m).

Definition ensure_slot m (rel : Z) : VecMap V :=
  let idx := Z.to_nat rel in
  if length (inner m) <=? idx
  then mkVecMap (resize (idx + 1) None (inner m)) (offset m) (count m)
  else m.

Definition set_slot m (rel : Z) (value : V) : VecMap V :=
  let idx := Z.to_nat rel in
  let c := match mjoin (inner m !! idx) with
           | None => count m + 1
           | Some _ => count m
           end in
  mkVecMap (<[idx := Some value]> (inner m)) (offset m) c.

Definition take_at m (rel : Z) : option V * VecMap V :=
  let idx := Z.to_nat rel in
  let result := mjoin (inner m !! idx) in
  let c := match result with Some _ => count m - 1 | None => count m end in
  (result, mkVecMap (<[idx := None]> (inner m)) (offset m) c).

Definition insert m (key : Z) (value : V) : VecMap V :=
  let m1 :=
    if length (inner m) =? 0 then mkVecMap (inner m) key (count m)
    else if (key <? offset m)%Z then grow_front m key
    else m in
  let rel := (key - offset m1)%Z in
  set_slot (ensure_slot m1 rel) rel value.

Definition get m (key : Z) : option V :=
  if (key <? offset m)%Z then None
  else
    let diff := (key - offset m)%Z in
    if (Z.of_nat (length (inner m)) <=? diff)%Z then None
    else mjoin (inner m !! Z.to_nat diff).

Definition remove m (key : Z) : option V * VecMap V :=
  if (key <? offset m)%Z then (None, m)
  else
    let diff := (key - offset m)%Z in
    if (Z.of_nat (length (inner m)) <=? diff)%Z then (None, m)
    else take_at m diff.

Definition contains_key m (key : Z) : bool :=
  if (key <? offset m)%Z then false
  else
    let diff := (key - offset m)%Z in
    if (Z.of_nat (length (inner m)) <=? diff)%Z then false
    else bool_decide (is_Some (mjoin (inner m !! Z.to_nat diff))).

Definition is_empty m : bool := count m =? 0.

(** The number of occupied cells, and the invariant that ties [count] to it. *)
Fixpoint occupancy (l : list (option V)) : nat :=
  match l with
  | [] => 0
  | Some _ :: l' => S (occupancy l')
  | None :: l' => occupancy l'
  end.

Definition count_wf m : Prop :=
  count m = occupancy (inner m) ∧
  (offset m + Z.of_nat (length (inner m)) ≤ u64_max + 1)%Z.

End ops.

(** ** Occupancy *)

Section occupancy.
Context {V : Type}.
Implicit Types (l : list (option V)) (m : VecMap V).

Definition cell_weight (o : option V) : nat := match o with Some _ => 1 | None => 0 end.

Lemma occupancy_app l k : occupancy (l ++ k) = occupancy l + occupancy k.
Proof. induction l as [|[v|] l IH]; simpl; lia. Qed.

Lemma occupancy_none n : occupancy (replicate n (@None V)) = 0.
Proof. induction n; done. Qed.

Lemma occupancy_insert l i o o' :
  l !! i = Some o →
  occupancy (<[i := o']> l) + cell_weight o = occupancy l + cell_weight o'.
Proof.
  revert i. induction l as [|[v|] l IH]; intros [|i] Hi; simplify_eq/=;
    try specialize (IH _ Hi); destruct o'; simpl in *; lia.
Qed.

Lemma occupancy_zero l : occupancy l = 0 ↔ ∀ i v, l !! i ≠ Some (Some v).
Proof.
  induction l as [|[v|] l IH]; simpl.
  - split; [|done]. intros _ i v. by rewrite lookup_nil.
  - split; [done|]. intros H. by destruct (H 0 v).
  - rewrite IH. split.
    + intros H [|i] v; simpl; [done|]. apply H.
    + intros H i v. apply (H (S i) v).
Qed.

End occupancy.

(** ** Lookups *)

Section lemmas.
Context {V : Type}.
Implicit Types (m : VecMap V).

Lemma vm_get_cell m k : get m k = cell (inner m) (offset m) k.
Proof.
  unfold get, cell. repeat case_cmp; try done.
  by rewrite lookup_ge_None_2 by lia.
Qed.

Lemma vm_get_grow_front m key k :
  (key < offset m)%Z → get (grow_front m key) k = get m k.
Proof.
  intros. rewrite !vm_get_cell. unfold grow_front. simpl. rewrite resize_grow by (simpl; lia).
  simpl. rewrite Nat.sub_0_r. by apply cell_prepend.
Qed.

Lemma vm_get_ensure_slot m rel k : get (ensure_slot m rel) k = get m k.
Proof.
  unfold ensure_slot. case_cmp; [|done].
  rewrite !vm_get_cell. simpl. rewrite resize_grow by lia. apply cell_append.
Qed.

Lemma vm_ensure_slot_length m rel : Z.to_nat rel < length (inner (ensure_slot m rel)).
Proof. unfold ensure_slot. case_cmp; simpl; [rewrite length_resize|]; lia. Qed.

Lemma vm_ensure_slot_offset m rel : offset (ensure_slot m rel) = offset m.
Proof. unfold ensure_slot. by case_cmp. Qed.

Lemma vm_get_set_slot m rel v k :
  (0 ≤ rel)%Z → Z.to_nat rel < length (inner m) →
  get (set_slot m rel v) k = if decide (offset m + rel = k)%Z then Some v else get m k.
Proof.
  intros Hrel Hlen. rewrite !vm_get_cell. unfold set_slot. simpl.
  replace rel with (offset m + rel - offset m)%Z at 1 by lia.
  rewrite cell_update; [done|lia|]. by replace (offset m + rel - offset m)%Z with rel by lia.
Qed.

Lemma vm_get_insert_aux m rel v k :
  (0 ≤ rel)%Z →
  get (set_slot (ensure_slot m rel) rel v) k =
    if decide (offset m + rel = k)%Z then Some v else get m k.
Proof.
  intros. rewrite vm_get_set_slot by (done || apply vm_ensure_slot_length).
  by rewrite vm_ensure_slot_offset, vm_get_ensure_slot.
Qed.

Lemma vm_get_insert m key v k :
  get (insert m key v) k = if decide (key = k) then Some v else get m k.
Proof.
  unfold insert.
  destruct (Nat.eqb_spec (length (inner m)) 0); [|destruct (Z.ltb_spec key (offset m))].
  - rewrite vm_get_insert_aux by (simpl; lia). simpl.
    replace (key + (key - key))%Z with key by lia. case_decide; [done|].
    destruct m as [[|] o c]; [|done]. rewrite !vm_get_cell; simpl. by rewrite !cell_nil.
  - rewrite vm_get_insert_aux by (simpl; lia). simpl.
    replace (key + (key - key))%Z with key by lia. by rewrite vm_get_grow_front.
  - rewrite vm_get_insert_aux by lia. by replace (offset m + (key - offset m))%Z with key by lia.
Qed.

Lemma vm_remove_result m key : (remove m key).1 = get m key.
Proof. unfold remove, get. by repeat case_cmp. Qed.

Lemma vm_get_remove m key k :
  get (remove m key).2 k = if decide (key = k) then None else get m k.
Proof.
  unfold remove. case_cmp; [|case_cmp]; simpl.
  - case_decide; [subst|done]. rewrite vm_get_cell. unfold cell. case_cmp; [done|lia].
  - case_decide; [subst|done]. rewrite vm_get_cell. unfold cell. case_cmp; [done|].
    by rewrite lookup_ge_None_2 by lia.
  - rewrite !vm_get_cell. simpl. apply cell_update; lia.
Qed.

Lemma contains_key_get m key : contains_key m key = bool_decide (is_Some (get m key)).
Proof. unfold contains_key, get. by repeat case_cmp. Qed.

(** ** The occupancy counter *)

Lemma set_slot_count_wf m rel v :
  Z.to_nat rel < length (inner m) → count_wf m → count_wf (set_slot m rel v).
Proof.
  unfold count_wf, set_slot. simpl. intros [o Ho]%lookup_lt_is_Some_2 [Hc Hlen].
  pose proof (occupancy_insert _ _ _ (Some v) Ho) as Hocc.
  rewrite length_insert, Ho. destruct o; simpl in *; split; lia.
Qed.

Lemma ensure_slot_count_wf m rel :
  (offset m + rel ≤ u64_max)%Z → (0 ≤ rel)%Z → count_wf m → count_wf (ensure_slot m rel).
Proof.
  unfold count_wf, ensure_slot. intros Hrel Hpos [Hc Hlen]. case_cmp; [|done]. simpl.
  rewrite length_resize, resize_grow by lia.
  rewrite occupancy_app, occupancy_none. split; lia.
Qed.

Lemma new_count_wf : count_wf (@new V).
Proof. split; done. Qed.

Lemma insert_count_wf m key v : is_u64 key → count_wf m → count_wf (insert m key v).
Proof.
  unfold is_u64, two64. intros Hk Hm. unfold insert.
  apply set_slot_count_wf; [apply vm_ensure_slot_length|].
  destruct (Nat.eqb_spec (length (inner m)) 0); [|destruct (Z.ltb_spec key (offset m))];
    (apply ensure_slot_count_wf; [simpl; unfold u64_max; lia|simpl; lia|]); try done;
    destruct Hm as [Hc Hlen]; unfold count_wf; simpl.
  - unfold u64_max in *. split; [done|lia].
  - rewrite resize_grow by (simpl; lia). simpl.
    rewrite occupancy_app, occupancy_none, length_app, length_replicate. split; lia.
Qed.

Lemma remove_count_wf m key : count_wf m → count_wf (remove m key).2.
Proof.
  unfold remove, count_wf. intros [Hc Hlen]. case_cmp; [done|]. case_cmp; [done|]. simpl.
  destruct (lookup_lt_is_Some_2 (inner m) (Z.to_nat (key - offset m))) as [o Ho]; [lia|].
  pose proof (occupancy_insert _ _ _ None Ho) as Hocc.
  rewrite length_insert, Ho. destruct o; simpl in *; split; lia.
Qed.

Lemma is_empty_get m : count_wf m → is_empty m = true ↔ ∀ k, get m k = None.
Proof.
  unfold is_empty, count_wf. intros [-> _]. rewrite Nat.eqb_eq, occupancy_zero. split.
  - intros H k. destruct (get m k) as [v|] eqn:E; [|done].
    rewrite vm_get_cell in E. apply cell_Some in E as [_ E]. by destruct (H _ _ E).
  - intros H i v Hi. specialize (H (offset m + Z.of_nat i)%Z).
    rewrite vm_get_cell in H. apply eq_None_not_Some in H. apply H. exists v.
    apply cell_Some. split; [lia|].
    by replace (Z.to_nat (offset m + Z.of_nat i - offset m)) with i by lia.
Qed.

End lemmas.

#[global] Instance vec_map_store : Store VecMap := {
  st_empty V := new;
  st_get V := get;
  st_insert V := insert;
  st_remove V := remove;
}.

#[global] Instance vec_map_laws : StoreLaws VecMap.
Proof.
  split; intros V; cbv [st_empty st_get st_insert st_remove].
  - intros k. rewrite vm_get_cell. apply cell_nil.
  - apply vm_get_insert.
  - apply vm_remove_result.
  - apply vm_get_remove.
Qed.

(** The counter invariant, in the vocabulary of the interface. *)
Lemma st_insert_count_wf {V} (m : VecMap V) k v :
  is_u64 k → count_wf m → count_wf (st_insert m k v).
Proof. apply insert_count_wf. Qed.

Lemma st_delete_count_wf {V} (m : VecMap V) k : count_wf m → count_wf (st_delete m k).
Proof. apply remove_count_wf. Qed.

Lemma is_empty_spec {V} (m : VecMap V) :
  count_wf m → is_empty m = true ↔ ∀ k, st_get m k = None.
Proof. apply is_empty_get. Qed.

Lemma contains_key_spec {V} (m : VecMap V) k :
  contains_key m k = bool_decide (is_Some (st_get m k)).
Proof. apply contains_key_get. Qed.

#[global] Hint Resolve new_count_wf st_insert_count_wf st_delete_count_wf : lion.

End VecMap.
