(* ===== verification/StoreSpec.v ===== *)
(** * StoreSpec: the two stores refine finite maps

    Runs of insertions and removals on a store that satisfies [StoreLaws] agree
    with the same run on a [gmap]; the theorems instantiate this for [Slab] and
    for [VecMap], whose counter is moreover the size of the map. *)

From S2P Require Import Prelude Store Slab VecMap.

(** ** Runs *)

Inductive sop (V : Type) := Put (k : Z) (v : V) | Del (k : Z).
Arguments Put {V} _ _.
Arguments Del {V} _.

Definition srun `{Store F} {V} (m : F V) (os : list (sop V)) : F V :=
  foldl (λ m o, match o with Put k v => st_insert m k v | Del k => st_delete m k end) m os.

Definition mrun {V} (g : gmap Z V) (os : list (sop V)) : gmap Z V :=
  foldl (λ g o, match o with Put k v => <[k := v]> g | Del k => base.delete k g end) g os.

Lemma srun_represents `{StoreLaws F} {V} (os : list (sop V)) (m : F V) g :
  represents m g → represents (srun m os) (mrun g os).
Proof.
  revert m g. induction os as [|[k v|k] os IH]; intros m g Hm; simpl; [done|..];
    apply IH; eauto with lion.
Qed.

(** ** The counter of [VecMap] *)

Section size.
Context {V : Type}.
Implicit Types (l : list (option V)) (off : Z).

(** The map that a vector of cells stands for. *)
Fixpoint cells_map l (off : Z) : gmap Z V :=
  match l with
  | [] => ∅
  | Some v :: l' => <[off := v]> (cells_map l' (off + 1))
  | None :: l' => cells_map l' (off + 1)
  end.

Lemma cells_map_below l off k : (k < off)%Z → cells_map l off !! k = None.
Proof.
  revert off. induction l as [|[v|] l IH]; intros off Hk; simpl; [done|..].
  - rewrite lookup_insert_ne by lia. apply IH. lia.
  - apply IH. lia.
Qed.

Lemma cells_map_lookup l off k : cells_map l off !! k = cell l off k.
Proof.
  unfold cell. destruct (Z.ltb_spec k off) as [Hlt|Hge]; [by apply cells_map_below|].
  revert off Hge. induction l as [|o l IH]; intros off Hge; simpl.
  - by rewrite lookup_empty.
  - destruct (decide (k = off)) as [->|Hne].
    + rewrite Z.sub_diag. simpl. destruct o as [v|]; [by rewrite lookup_insert_eq|].
      apply cells_map_below. lia.
    + replace (Z.to_nat (k - off)) with (S (Z.to_nat (k - (off + 1)))) by lia. simpl.
      rewrite <- IH by lia. destruct o; [|done]. by rewrite lookup_insert_ne.
Qed.

Lemma cells_map_size l off : VecMap.occupancy l = size (cells_map l off).
Proof.
  revert off. induction l as [|[v|] l IH]; intros off; simpl; [by rewrite map_size_empty|..].
  - rewrite map_size_insert_None by (apply cells_map_below; lia). by rewrite <- IH.
  - apply IH.
Qed.

Lemma count_size (m : VecMap.VecMap V) g :
  VecMap.count_wf m → represents m g → VecMap.count m = size g.
Proof.
  intros [-> _] Hm. rewrite (cells_map_size _ (VecMap.offset m)). f_equal.
  apply map_eq. intros k. rewrite cells_map_lookup, <- Hm.
  symmetry. apply VecMap.vm_get_cell.
Qed.
End size.

Definition u64_keys {V} (os : list (sop V)) : Prop :=
  Forall (λ o, match o with Put k _ => is_u64 k | Del _ => True end) os.

Lemma srun_count_wf {V} (os : list (sop V)) (m : VecMap.VecMap V) :
  u64_keys os → VecMap.count_wf m → VecMap.count_wf (srun m os).
Proof.
  revert m. induction os as [|o os IH]; intros m Hk Hm; [done|].
  inversion Hk as [|? ? Ho Hos]; subst. apply IH; [done|].
  destruct o; eauto with lion.
Qed.

(** ** Properties *)

(** [Slab]: after any sequence of [insert]s and [remove]s on a new slab,
    [get] answers as the finite map on which the same sequence was run (growth at
    the front and at the back included); [remove] returns the value that was
    stored, and writing through [get_mut] replaces the value of that key only. *)
Theorem slab_refines_map {V} (os : list (sop V)) k :
  let s := srun Slab.new os in
  let g := mrun ∅ os in
  Slab.get s k = g !! k ∧ (Slab.remove s k).1 = g !! k ∧
  match Slab.get_mut s k with
  | Some (v, write) =>
      g !! k = Some v ∧ ∀ v' k', Slab.get (write v') k' = <[k := v']> g !! k'
  | None => g !! k = None
  end.
Proof.
  intros s g. assert (Hr : represents s g).
  { apply srun_represents. exact (represents_empty (F := Slab.Slab)). }
  split; [apply Hr|]. split; [etrans; [apply Slab.slab_remove_result|apply Hr]|].
  pose proof (Slab.get_mut_get s k) as Hg. change (Slab.get s k) with (st_get s k) in Hg.
  rewrite Hr in Hg. destruct (Slab.get_mut s k) as [[v write]|] eqn:E; simpl in Hg; [|done].
  split; [done|]. intros v' k'. rewrite (Slab.get_mut_write _ _ _ _ _ _ E), lookup_insert.
  case_decide; [done|]. apply Hr.
Qed.

(** [VecMap]: after any sequence of [insert]s (of [u64] keys) and [remove]s
    on a new map, [get] and [contains_key] answer as the finite map does, the
    counter is its size, and [is_empty] tells whether it is empty. *)
Theorem vec_map_refines_map {V} (os : list (sop V)) :
  u64_keys os →
  let m := srun VecMap.new os in
  let g := mrun ∅ os in
  (∀ k, VecMap.get m k = g !! k ∧ VecMap.contains_key m k = bool_decide (is_Some (g !! k))) ∧
  VecMap.count m = size g ∧ (VecMap.is_empty m = true ↔ g = ∅).
Proof.
  intros Hk m g. assert (Hr : represents m g).
  { apply srun_represents. exact (represents_empty (F := VecMap.VecMap)). }
  assert (Hc : VecMap.count_wf m) by (apply srun_count_wf; [done|apply VecMap.new_count_wf]).
  split; [|split].
  - intros k. split; [apply Hr|]. rewrite VecMap.contains_key_spec. by rewrite Hr.
  - by apply count_size.
  - rewrite VecMap.is_empty_spec by done. split.
    + intros H. apply map_eq. intros k. by rewrite lookup_empty, <- Hr.
    + intros Hg k. by rewrite Hr, Hg, lookup_empty.
Qed.

Lemma vec_map_refines_map_witness :
  VecMap.count (srun VecMap.new [Put 9 1; Put 7 2; Put 9 3; Del 7])%Z = 1 ∧
  VecMap.get (srun VecMap.new [Put 9 1; Put 7 2; Put 9 3; Del 7])%Z 9 = Some 3%Z.
Proof.
  destruct (vec_map_refines_map [Put 9 1; Put 7 2; Put 9 3; Del 7]%Z) as (H & Hc & _).
  - repeat constructor; simpl; u64.
  - split; [rewrite Hc; reflexivity|]. destruct (H 9%Z) as [-> _]. reflexivity.
Defined.
