(* ===== verification/Wheel.v ===== *)
(** * Wheel: the hierarchical timer wheel of [lion-timer-wheel/src/wheel.rs]

    Four levels of 256 slots; a timer with [delta = deadline - elapsed] lives at
    the level of its magnitude, in the slot named by eight bits of its deadline.
    This file holds the data, every operation, and the well-formedness predicates
    of the source.  The loops of the source run over index ranges that are known
    when the loop starts, so they are folds; [drain_pending] pops a vector and
    recurses on its length.

    Indices into the vectors ([usize], and the [u8]/[u64] copies kept in
    [WheelPos]) are naturals; the casts to [u8] are written with [as_u8].
    Deadlines, the clock and timer ids are [u64] values in [Z].  Rust's
    [levels[l][s]] panics out of range; [slot_at] returns the empty vector there,
    and [structural_wf] with [level_slot_bounds] exclude the case. *)

From S2P Require Import Prelude Store VecMap.

Module Wheel.

Definition WHEEL_BITS : Z := 8.
Definition WHEEL_SIZE : nat := 256.
Definition NUM_LEVELS : nat := 4.

(** [helpers.rs]: [u64::wrapping_sub]. *)
Definition wrapping_sub_u64 (a b : Z) : Z := wrap64 (a - b).

Record WheelPos := mkPos { level : nat; slot : nat; idx : nat }.

Record TimerWheel := mkWheel {
  levels : list (list (list Z));
  elapsed : Z;
  pending : list Z;
  cached_min : option Z;
  deadlines : VecMap.VecMap Z;
  positions : VecMap.VecMap WheelPos;
  level_counts : list nat;
}.

Implicit Types (w : TimerWheel) (rid deadline now : Z).

(** Field assignments ([self.f = x]). *)
Definition set_levels w x :=
  mkWheel x (elapsed w) (pending w) (cached_min w) (deadlines w) (positions w) (level_counts w).
Definition set_elapsed w x :=
  mkWheel (levels w) x (pending w) (cached_min w) (deadlines w) (positions w) (level_counts w).
Definition set_pending w x :=
  mkWheel (levels w) (elapsed w) x (cached_min w) (deadlines w) (positions w) (level_counts w).
Definition set_cached_min w x :=
  mkWheel (levels w) (elapsed w) (pending w) x (deadlines w) (positions w) (level_counts w).
Definition set_deadlines w x :=
  mkWheel (levels w) (elapsed w) (pending w) (cached_min w) x (positions w) (level_counts w).
Definition set_positions w x :=
  mkWheel (levels w) (elapsed w) (pending w) (cached_min w) (deadlines w) x (level_counts w).
Definition set_level_counts w x :=
  mkWheel (levels w) (elapsed w) (pending w) (cached_min w) (deadlines w) (positions w) x.

(** [self.levels[l][s]], read and updated in place. *)
Definition slot_at w (l s : nat) : list Z := default [] (levels w !! l ≫= λ lv, lv !! s).
Definition slot_update w (l s : nat) (f : list Z → list Z) : TimerWheel :=
  set_levels w (alter (alter f s) l (levels w)).
Definition count_update w (l : nat) (f : nat → nat) : TimerWheel :=
  set_level_counts w (alter f l (level_counts w)).

(** ** Construction *)

Definition new : TimerWheel :=
  mkWheel (replicate NUM_LEVELS (replicate WHEEL_SIZE [])) 0 [] None
    VecMap.new VecMap.new (replicate NUM_LEVELS 0).

(** ** The slot leaves: each keeps the per-level counter in step *)

Definition slot_push w (l s : nat) rid : TimerWheel :=
  count_update (slot_update w l s (λ v, v ++ [rid])) l (λ c, c + 1).

Definition slot_swap_remove w (l s i : nat) : TimerWheel :=
  slot_update (count_update w l (λ c, c - 1)) l s (swap_remove i).

Definition slot_pop w (l s : nat) : TimerWheel :=
  slot_update (count_update w l (λ c, c - 1)) l s (λ v, take (length v - 1) v).

Definition slot_drain w (l s : nat) : list Z * TimerWheel :=
  let v := slot_at w l s in
  (v, slot_update (count_update w l (λ c, c - length v)) l s (λ _, [])).

(** ** Placement *)

Definition level_slot (deadline elapsed : Z) : nat * nat :=
  let delta := wrapping_sub_u64 deadline elapsed in
  let '(lv, shift) :=
    if (delta <? 256)%Z then (0, 0%Z)
    else if (delta <? 65536)%Z then (1, 8%Z)
    else if (delta <? 16777216)%Z then (2, 16%Z)
    else (3, 24%Z) in
  let slot_masked := Z.land (Z.shiftr deadline shift) 255 in
  (lv, Z.to_nat slot_masked).

Definition invalidate_min w deadline : TimerWheel :=
  match cached_min w with
  | Some m => if (deadline <=? m)%Z then set_cached_min w None else w
  | None => w
  end.

Definition wheel_remove_inner w rid : TimerWheel :=
  let '(opos, positions') := st_remove (positions w) rid in
  let w := set_positions w positions' in
  match opos with
  | None => w
  | Some pos =>
      if (level pos <? NUM_LEVELS) && (slot pos <? WHEEL_SIZE) then
        let slot_vec := slot_at w (level pos) (slot pos) in
        let slot_len := length slot_vec in
        if 0 <? slot_len then
          let last_i := slot_len - 1 in
          if idx pos <=? last_i then
            if idx pos <? last_i then
              let swapped_rid := default 0%Z (slot_vec !! last_i) in
              let w1 := slot_swap_remove w (level pos) (slot pos) (idx pos) in
              set_positions w1
                (st_insert (positions w1) swapped_rid (mkPos (level pos) (slot pos) (idx pos)))
            else slot_pop w (level pos) (slot pos)
          else w
        else w
      else w
  end.

Definition wheel_insert_inner w rid deadline (elapsed_for_slot : Z) : TimerWheel :=
  let '(l, s) := level_slot deadline elapsed_for_slot in
  let i := length (slot_at w l s) in
  let w1 := slot_push w l s rid in
  set_positions w1 (st_insert (positions w1) rid (mkPos (as_u8 l) (as_u8 s) i)).

(** ** Insertion and removal *)

Definition insert w rid deadline : TimerWheel :=
  let w1 :=
    match st_get (deadlines w) rid with
    | Some old_deadline => invalidate_min w old_deadline
    | None => w
    end in
  let w2 := wheel_remove_inner w1 rid in
  let w3 := set_deadlines w2 (st_insert (deadlines w2) rid deadline) in
  let '(l, s) := level_slot deadline (elapsed w3) in
  let i := length (slot_at w3 l s) in
  let w4 := slot_push w3 l s rid in
  let w5 := set_positions w4 (st_insert (positions w4) rid (mkPos (as_u8 l) (as_u8 s) i)) in
  match cached_min w5 with
  | Some m => if (deadline <? m)%Z then set_cached_min w5 (Some deadline) else w5
  | None => w5
  end.

Definition remove w rid : TimerWheel :=
  if VecMap.contains_key (deadlines w) rid then
    let deadline := default 0%Z (st_get (deadlines w) rid) in
    let w1 := invalidate_min w deadline in
    let w2 := wheel_remove_inner w1 rid in
    set_deadlines w2 (st_delete (deadlines w2) rid)
  else w.

(** ** Advancing the clock *)

(** One member of a drained slot: expired timers move to [pending], the others
    cascade to the place that their remaining distance to [now] names. *)
Definition drain_entry now w rid : TimerWheel :=
  if VecMap.contains_key (deadlines w) rid then
    let deadline := default 0%Z (st_get (deadlines w) rid) in
    if (deadline <=? now)%Z then
      let w1 := set_positions w (st_delete (positions w) rid) in
      set_pending w1 (pending w1 ++ [rid])
    else wheel_insert_inner w rid deadline now
  else w.

Definition drain_slot now (l : nat) w (s : nat) : TimerWheel :=
  let '(slot_vec, w1) := slot_drain w l s in
  foldl (drain_entry now) w1 slot_vec.

(** The slots that the clock passes at level [l] between [elapsed] and [now]. *)
Definition slots_to_drain (elapsed now : Z) (l : nat) : nat :=
  let shift := (Z.of_nat l * WHEEL_BITS)%Z in
  let diff := (Z.shiftr now shift - Z.shiftr elapsed shift)%Z in
  if (diff <? Z.of_nat WHEEL_SIZE)%Z then Z.to_nat diff else WHEEL_SIZE.

Definition old_slot (elapsed : Z) (l : nat) : nat :=
  Z.to_nat (Z.land (Z.shiftr elapsed (Z.of_nat l * WHEEL_BITS)) (Z.of_nat WHEEL_SIZE - 1)).

Definition drain_level (elapsed now : Z) (l : nat) w : TimerWheel :=
  foldl (drain_slot now l) w
    ((λ i, (old_slot elapsed l + i) `mod` WHEEL_SIZE) <$> seq 1 (slots_to_drain elapsed now l)).

(** The level loop: it stops at the first level the clock does not leave. *)
Fixpoint advance_levels (n l : nat) (elapsed now : Z) w : TimerWheel :=
  match n with
  | 0 => w
  | S n' =>
      let shift := (Z.of_nat l * WHEEL_BITS)%Z in
      if (Z.shiftr elapsed shift =? Z.shiftr now shift)%Z then w
      else advance_levels n' (S l) elapsed now (drain_level elapsed now l w)
  end.

Definition advance_to w now : TimerWheel :=
  set_elapsed (advance_levels NUM_LEVELS 0 (elapsed w) now w) now.

(** ** Expiry *)

Fixpoint drain_pending (n : nat) now w : option Z * TimerWheel :=
  match n with
  | 0 => (None, w)
  | S n' =>
      match vec_pop (pending w) with
      | None => (None, w)
      | Some (rid, p) =>
          let w := set_pending w p in
          if VecMap.contains_key (deadlines w) rid then
            let deadline := default 0%Z (st_get (deadlines w) rid) in
            if (deadline <=? now)%Z then
              let w1 := invalidate_min w deadline in
              let w2 := set_deadlines w1 (st_delete (deadlines w1) rid) in
              let w3 := set_positions w2 (st_delete (positions w2) rid) in
              (Some rid, w3)
            else drain_pending n' now w
          else drain_pending n' now w
      end
  end.

Definition try_pop_expired w now : option Z * TimerWheel :=
  match drain_pending (length (pending w)) now w with
  | (Some rid, w1) => (Some rid, w1)
  | (None, w1) =>
      let w2 := if (elapsed w1 <? now)%Z then advance_to w1 now else w1 in
      drain_pending (length (pending w2)) now w2
  end.

(** ** The earliest deadline *)

Definition merge_min (best : option Z) (d : Z) : option Z :=
  match best with
  | None => Some d
  | Some b => if (d <? b)%Z then Some d else Some b
  end.

(** The member scan of [scan_level_min]: [have]/[best] as an option. *)
Definition scan_members w (slot_vec : list Z) : option Z :=
  foldl (λ best rid,
    match st_get (deadlines w) rid with
    | Some d => match best with
                | None => Some d
                | Some b => if (d <? b)%Z then Some d else best
                end
    | None => best
    end) None slot_vec.

(** The ring scan from offset [o], [n] offsets left. *)
Fixpoint scan_offsets w (l : nat) (bound : option Z) (n : nat) (o : Z) : option Z :=
  match n with
  | 0 => None
  | S n' =>
      let shift := (Z.of_nat l * WHEEL_BITS)%Z in
      let e := elapsed w in
      let cur := Z.land (Z.shiftr e shift) 255 in
      let s := Z.to_nat ((cur + o) mod 256) in
      match slot_at w l s with
      | [] => scan_offsets w l bound n' (o + 1)
      | (rid0 :: _) as slot_vec =>
          if match bound with
             | Some b => (Z.shiftr b shift <? Z.shiftr e shift + o)%Z
             | None => false
             end
          then None
          else
            match (if l =? 0 then st_get (deadlines w) rid0 else None) with
            | Some d0 => Some d0
            | None =>
                match scan_members w slot_vec with
                | Some best => Some best
                | None => scan_offsets w l bound n' (o + 1)
                end
            end
      end
  end.

Definition scan_level_min w (l : nat) (bound : option Z) : option Z :=
  if default 0 (level_counts w !! l) =? 0 then None
  else scan_offsets w l bound 256 1.

Definition scan_level3_min w : option Z :=
  if default 0 (level_counts w !! 3) =? 0 then None
  else
    foldl (λ best s,
      foldl (λ best rid,
        match st_get (deadlines w) rid with
        | Some d => merge_min best d
        | None => best
        end) best (slot_at w 3 s)) None (seq 0 WHEEL_SIZE).

Definition merge_opt (best c : option Z) : option Z :=
  match c with Some d => merge_min best d | None => best end.

Definition scan_wheel_min w : option Z :=
  let pbest :=
    foldl (λ best rid,
      match st_get (deadlines w) rid with
      | Some d => merge_min best d
      | None => best
      end) None (pending w) in
  match pbest with
  | Some pb => Some pb
  | None =>
      let c0 := scan_level_min w 0 None in
      let c1 := scan_level_min w 1 c0 in
      let c2 := scan_level_min w 2 c0 in
      let c3 := scan_level3_min w in
      merge_opt (merge_opt (merge_opt (merge_opt None c0) c1) c2) c3
  end.

Definition is_empty w : bool := VecMap.is_empty (deadlines w).

Definition next_deadline w : option Z :=
  if is_empty w then None
  else match cached_min w with
       | Some d => Some d
       | None => scan_wheel_min w
       end.

Definition get_deadline w rid : option Z := st_get (deadlines w) rid.

(** ** The well-formedness predicates of the source *)

Abbreviation dl w rid := (st_get (deadlines w) rid).
Abbreviation pos w rid := (st_get (positions w) rid).

Definition shift_of (l : nat) : Z := (Z.of_nat l * WHEEL_BITS)%Z.

Definition structural_wf w : Prop :=
  length (levels w) = NUM_LEVELS ∧
  ∀ l lv, levels w !! l = Some lv → length lv = WHEEL_SIZE.

Definition level_counts_wf w : Prop :=
  length (level_counts w) = NUM_LEVELS ∧
  ∀ l lv, levels w !! l = Some lv → level_counts w !! l = Some (sum_len lv).

Definition cached_min_valid w : Prop :=
  match cached_min w with
  | Some m => (∃ k, dl w k = Some m) ∧ (∀ k d, dl w k = Some d → (m ≤ d)%Z)
  | None => True
  end.

Definition dl_pos_consistent w : Prop :=
  (∀ rid, is_Some (dl w rid) → is_Some (pos w rid) ∨ rid ∈ pending w) ∧
  (∀ rid, is_Some (pos w rid) → is_Some (dl w rid)).

Definition pos_levels_consistent w : Prop :=
  (∀ rid p, pos w rid = Some p → rid ∉ pending w →
     level p < NUM_LEVELS ∧ slot p < WHEEL_SIZE ∧
     slot_at w (level p) (slot p) !! idx p = Some rid) ∧
  (∀ l s i rid, slot_at w l s !! i = Some rid → is_Some (pos w rid)) ∧
  (∀ l s i rid p, slot_at w l s !! i = Some rid → pos w rid = Some p →
     rid ∉ pending w → p = mkPos l s i).

Definition position_ahead w : Prop :=
  ∀ rid p d, pos w rid = Some p → rid ∉ pending w → dl w rid = Some d →
    (Z.shiftr d (shift_of (level p)) > Z.shiftr (elapsed w) (shift_of (level p)))%Z.

Definition pending_expired w : Prop :=
  ∀ rid d, rid ∈ pending w → dl w rid = Some d → (d ≤ elapsed w)%Z.

Definition pending_positions_disjoint w : Prop :=
  ∀ rid, rid ∈ pending w → pos w rid = None.

Definition slot_matches_deadline w : Prop :=
  ∀ rid p d, pos w rid = Some p → rid ∉ pending w → dl w rid = Some d →
    slot p = Z.to_nat (Z.land (Z.shiftr d (shift_of (level p))) 255).

Definition level_band w : Prop :=
  ∀ rid p d, pos w rid = Some p → rid ∉ pending w → dl w rid = Some d →
    level p < 3 → (d - elapsed w < Z.shiftl 1 (shift_of (level p + 1)))%Z.

Definition wf w : Prop :=
  structural_wf w ∧ cached_min_valid w ∧ VecMap.count_wf (deadlines w) ∧ level_counts_wf w.

Definition full_wf w : Prop :=
  wf w ∧ dl_pos_consistent w ∧ pos_levels_consistent w ∧ position_ahead w ∧
  pending_expired w ∧ pending_positions_disjoint w ∧ slot_matches_deadline w ∧ level_band w.

(** The machine types: the clock, the ids and the deadlines are [u64]. *)
Definition typed w : Prop :=
  is_u64 (elapsed w) ∧ ∀ rid d, dl w rid = Some d → is_u64 rid ∧ is_u64 d.

(** The abstract timer queue: the map from ids to deadlines. *)
Definition queue w (q : gmap Z Z) : Prop := represents (deadlines w) q.

End Wheel.
