(* ===== verification/WheelInv.v ===== *)
(** * WheelInv: the invariant of the timer wheel and its primitive steps

    [ginv ok e w fl] is the well-formedness of the source's [full_wf], made
    parametric so that it also holds in the middle of an operation: the ids of
    [fl] are in flight (taken out of their slot, not yet placed again), [e] is
    the clock value that bounds the pending timers, and [ok l s d] is what is
    known of a timer with deadline [d] in slot [s] of level [l].  Every operation
    is a sequence of the primitive steps proved here.  The integer facts come first. *)

From S2P Require Import Prelude Store VecMap Wheel.
Import Wheel.

(** ** The integer facts behind the wheel

    Shifts by a level are divisions by a power of 256, masks are remainders.
    [level_slot_spec] says where a deadline is placed, [slot_covered] that the
    slots drained between two clock values contain every timer the clock passed,
    [ring_distance] and [ring_slot] that ring order is deadline order. *)

Section arith.
Local Open Scope Z_scope.

(** The width of one slot of level [l]. *)
Definition tick (l : nat) : Z := 2 ^ shift_of l.

Lemma tick_pos l : 0 < tick l.
Proof. unfold tick, shift_of, WHEEL_BITS. lia. Qed.

Lemma tick_0 : tick 0 = 1. Proof. reflexivity. Qed.
Lemma tick_1 : tick 1 = 256. Proof. reflexivity. Qed.
Lemma tick_2 : tick 2 = 65536. Proof. reflexivity. Qed.
Lemma tick_3 : tick 3 = 16777216. Proof. reflexivity. Qed.

Lemma shiftr_tick d l : Z.shiftr d (shift_of l) = d / tick l.
Proof. apply Z.shiftr_div_pow2. unfold shift_of, WHEEL_BITS. lia. Qed.

Lemma land_255 z : Z.land z 255 = z mod 256.
Proof. apply (Z.land_ones z 8). lia. Qed.

Lemma tick_succ l : tick (S l) = 256 * tick l.
Proof.
  unfold tick, shift_of, WHEEL_BITS.
  replace (Z.of_nat (S l) * 8) with (8 + Z.of_nat l * 8) by lia.
  rewrite Z.pow_add_r by lia. done.
Qed.

Lemma shiftl_band l : Z.shiftl 1 (shift_of (l + 1)) = 256 * tick l.
Proof.
  rewrite Z.shiftl_mul_pow2 by (unfold shift_of, WHEEL_BITS; lia).
  fold (tick (l + 1)). rewrite Nat.add_1_r, tick_succ. lia.
Qed.

Lemma div_succ_level d l : d / tick (S l) = (d / tick l) / 256.
Proof.
  pose proof (tick_pos l). rewrite tick_succ, Z.mul_comm. symmetry. apply Z.div_div; lia.
Qed.

(** The levels above one that the clock does not leave are not left either. *)
Lemma same_above e now l l' :
  (l ≤ l')%nat → e / tick l = now / tick l → e / tick l' = now / tick l'.
Proof. induction 1 as [|l' Hle IH]; [done|]. intros He. by rewrite !div_succ_level, IH. Qed.

Lemma div_mono a b l : a ≤ b → a / tick l ≤ b / tick l.
Proof. intros. apply Z.div_le_mono; [apply tick_pos|done]. Qed.

Lemma div_lt_inv a b l : a / tick l < b / tick l → a < b.
Proof.
  intros H. destruct (Z.lt_ge_cases a b) as [|Hge]; [done|].
  pose proof (div_mono _ _ l Hge). lia.
Qed.

(** ** Placement *)

Lemma level_slot_bounds d e : let '(l, s) := level_slot d e in (l < NUM_LEVELS ∧ s < WHEEL_SIZE)%nat.
Proof.
  unfold level_slot. repeat case_cmp; rewrite land_255; unfold NUM_LEVELS, WHEEL_SIZE;
    match goal with |- context [Z.to_nat ?x] => assert (0 ≤ x < 256) by (apply Z.mod_pos_bound; lia) end;
    split; lia.
Qed.

Lemma level_slot_spec d e l s :
  is_u64 d → is_u64 e → e ≤ d → level_slot d e = (l, s) →
  (l < 4)%nat ∧ (s < 256)%nat ∧
  s = Z.to_nat ((d / tick l) mod 256) ∧
  ((0 < l)%nat → tick l ≤ d - e) ∧
  ((l < 3)%nat → d - e < 256 * tick l).
Proof.
  unfold is_u64. intros Hd He Hle. unfold level_slot, wrapping_sub_u64.
  rewrite wrap64_id by (unfold is_u64; lia).
  repeat case_cmp; intros [= <- <-]; rewrite land_255;
    match goal with
    | |- context [Z.shiftr d ?k] =>
        first [ change k with (shift_of 0) | change k with (shift_of 1)
              | change k with (shift_of 2) | change k with (shift_of 3) ]
    end; rewrite shiftr_tick, ?tick_0, ?tick_1, ?tick_2, ?tick_3;
    match goal with |- context [Z.to_nat (?x mod 256)] =>
      pose proof (Z.mod_pos_bound x 256 ltac:(lia)) end;
    repeat split; lia.
Qed.

(** A timer placed relative to [e] is ahead of [e] at its level. *)
Lemma level_slot_ahead d e l s :
  is_u64 d → is_u64 e → e < d → level_slot d e = (l, s) → e / tick l < d / tick l.
Proof.
  intros Hd He Hlt Hls.
  destruct (level_slot_spec d e l s) as (_ & _ & _ & Hbig & _); [done..|lia|done|].
  destruct l as [|l].
  - by rewrite tick_0, !Z.div_1_r.
  - pose proof (tick_pos (S l)). specialize (Hbig ltac:(lia)).
    apply Z.lt_le_trans with ((e + 1 * tick (S l)) / tick (S l)).
    + rewrite Z.div_add by lia. lia.
    + apply Z.div_le_mono; lia.
Qed.

(** ** The slots passed by the clock *)

Lemma old_slot_mod e l : old_slot e l = Z.to_nat ((e / tick l) mod 256).
Proof.
  unfold old_slot. fold (shift_of l). rewrite shiftr_tick.
  change (Z.of_nat WHEEL_SIZE - 1) with 255. by rewrite land_255.
Qed.

Lemma slots_to_drain_eq e now l :
  slots_to_drain e now l = Z.to_nat (Z.min (now / tick l - e / tick l) 256).
Proof.
  unfold slots_to_drain. fold (shift_of l). rewrite !shiftr_tick.
  change (Z.of_nat WHEEL_SIZE) with 256. case_cmp; [f_equal; lia|].
  rewrite Z.min_r by lia. done.
Qed.

(** Every timer that the clock passed at level [l] lies in a drained slot. *)
Lemma slot_covered e now d l :
  0 ≤ e → e / tick l < d / tick l → d / tick l ≤ now / tick l →
  Z.to_nat ((d / tick l) mod 256) ∈
    (λ i, ((old_slot e l + i) `mod` WHEEL_SIZE)%nat) <$> seq 1 (slots_to_drain e now l).
Proof.
  intros He Hlt Hle. rewrite old_slot_mod, slots_to_drain_eq.
  assert (0 ≤ e / tick l) by (apply Z.div_pos; [done|apply tick_pos]).
  set (a := e / tick l) in *. set (b := d / tick l) in *. set (c := now / tick l) in *.
  apply list_elem_of_fmap. exists (Z.to_nat ((b - a - 1) mod 256 + 1)). split.
  - apply Nat2Z.inj. unfold WHEEL_SIZE.
    pose proof (Z.mod_pos_bound (b - a - 1) 256 ltac:(lia)).
    pose proof (Z.mod_pos_bound a 256 ltac:(lia)).
    pose proof (Z.mod_pos_bound b 256 ltac:(lia)).
    rewrite Nat2Z.inj_mod, Nat2Z.inj_add, !Z2Nat.id by lia.
    change (Z.of_nat 256) with 256.
    replace (a mod 256 + ((b - a - 1) mod 256 + 1))
      with (a mod 256 + (b - a - 1) mod 256 + 1) by lia.
    rewrite <- Z.add_mod_idemp_l, <- Z.add_mod by lia.
    rewrite Z.add_mod_idemp_l by lia. f_equal. lia.
  - apply elem_of_seq.
    pose proof (Z.mod_le (b - a - 1) 256 ltac:(lia) ltac:(lia)).
    pose proof (Z.mod_pos_bound (b - a - 1) 256 ltac:(lia)). lia.
Qed.

Lemma drained_slots_bound e now l s :
  s ∈ (λ i, ((old_slot e l + i) `mod` WHEEL_SIZE)%nat) <$> seq 1 (slots_to_drain e now l) →
  (s < WHEEL_SIZE)%nat.
Proof. intros (i & -> & _)%list_elem_of_fmap. by apply Nat.mod_upper_bound. Qed.

(** ** Ring order *)

Lemma ring_distance e d l :
  e / tick l < d / tick l → d - e < 256 * tick l →
  1 ≤ d / tick l - e / tick l ≤ 256.
Proof.
  intros Hlt Hband. split; [lia|]. pose proof (tick_pos l).
  enough (d / tick l ≤ e / tick l + 256) by lia.
  rewrite <- Z.div_add by lia. apply Z.div_le_mono; lia.
Qed.

(** The slot of a timer names its ring distance. *)
Lemma ring_slot e d l o :
  1 ≤ d / tick l - e / tick l ≤ 256 → 1 ≤ o ≤ 256 →
  Z.to_nat ((d / tick l) mod 256) = Z.to_nat (((e / tick l) mod 256 + o) mod 256) →
  d / tick l - e / tick l = o.
Proof.
  intros Hd Ho Heq. set (a := e / tick l) in *. set (b := d / tick l) in *.
  apply Z2Nat.inj in Heq; [|apply Z.mod_pos_bound; lia..].
  rewrite Z.add_mod_idemp_l in Heq by lia.
  Z.to_euclidean_division_equations. lia.
Qed.

Lemma ring_slot_distance e d l :
  Z.to_nat ((d / tick l) mod 256) =
  Z.to_nat (((e / tick l) mod 256 + (d / tick l - e / tick l)) mod 256).
Proof. rewrite Z.add_mod_idemp_l by lia. do 2 f_equal. lia. Qed.

End arith.

Section slots.
Implicit Types (w : TimerWheel).

Definition in_range (l s : nat) : Prop := l < NUM_LEVELS ∧ s < WHEEL_SIZE.

Lemma slot_at_update w l s f l' s' :
  structural_wf w → in_range l s →
  slot_at (slot_update w l s f) l' s' =
    if decide (l = l' ∧ s = s') then f (slot_at w l s) else slot_at w l' s'.
Proof.
  intros [Hlen Hlv] [Hl Hs]. unfold slot_at. simpl.
  destruct (lookup_lt_is_Some_2 (levels w) l) as [lv Hlvl]; [lia|].
  destruct (lookup_lt_is_Some_2 lv s) as [v Hv]; [rewrite (Hlv _ _ Hlvl); done|].
  destruct (decide (l = l')) as [<-|Hne].
  - rewrite list_lookup_alter, decide_True, Hlvl by done. simpl.
    destruct (decide (s = s')) as [<-|Hne'].
    + rewrite list_lookup_alter, !decide_True, Hv by done. done.
    + rewrite list_lookup_alter_ne, decide_False by naive_solver. done.
  - rewrite list_lookup_alter_ne, decide_False by naive_solver. done.
Qed.

Lemma slot_at_update_eq w l s f :
  structural_wf w → in_range l s → slot_at (slot_update w l s f) l s = f (slot_at w l s).
Proof. intros. by rewrite slot_at_update, decide_True. Qed.

Lemma slot_at_update_ne w l s f l' s' :
  structural_wf w → in_range l s → ¬ (l = l' ∧ s = s') →
  slot_at (slot_update w l s f) l' s' = slot_at w l' s'.
Proof. intros. by rewrite slot_at_update, decide_False. Qed.

Lemma slot_update_structural w l s f : structural_wf w → structural_wf (slot_update w l s f).
Proof.
  intros [Hlen Hlv]. split; simpl; [by rewrite length_alter|].
  intros l' lv. rewrite list_lookup_alter. case_decide as Hd.
  - intros (lv0 & Hl0 & ->)%fmap_Some. rewrite length_alter. by apply (Hlv l).
  - apply Hlv.
Qed.

Lemma slot_at_lookup_range w l s i rid :
  structural_wf w → slot_at w l s !! i = Some rid → in_range l s.
Proof.
  intros [Hlen Hlv]. unfold slot_at, in_range.
  destruct (levels w !! l) as [lv|] eqn:El; simpl; [|by rewrite lookup_nil].
  destruct (lv !! s) as [v|] eqn:Es; simpl; [|by rewrite lookup_nil].
  intros _. apply lookup_lt_Some in Es. rewrite (Hlv _ _ El) in Es.
  apply lookup_lt_Some in El. lia.
Qed.

(** The counter of a level whose slot is edited stays in step. *)
Lemma edit_counts w l s f g :
  structural_wf w → level_counts_wf w → in_range l s →
  (∀ c, length (slot_at w l s) ≤ c →
     g c + length (slot_at w l s) = c + length (f (slot_at w l s))) →
  level_counts_wf (count_update (slot_update w l s f) l g).
Proof.
  intros [Hlen Hlv] [Hclen Hc] [Hl Hs] Hg. split; simpl; [by rewrite length_alter|].
  intros l' lv. unfold slot_at in Hg. rewrite !list_lookup_alter. case_decide as Hd; [|apply Hc].
  intros (lv0 & Hl0 & ->)%fmap_Some. subst l'.
  pose proof (Hc _ _ Hl0) as Hc0. rewrite Hc0. simpl. f_equal.
  destruct (lookup_lt_is_Some_2 lv0 s) as [v Hv]; [rewrite (Hlv _ _ Hl0); done|].
  rewrite Hl0 in Hg. simpl in Hg. rewrite Hv in Hg. simpl in Hg.
  specialize (Hg _ (sum_len_lower _ _ _ Hv)).
  assert (alter f s lv0 = <[s := f v]> lv0) as ->.
  { apply list_eq. intros i. rewrite list_lookup_alter, list_lookup_insert.
    pose proof (lookup_lt_Some _ _ _ Hv).
    repeat case_decide; subst; rewrite ?Hv; naive_solver. }
  pose proof (sum_len_insert lv0 s v (f v) Hv). lia.
Qed.
End slots.

(** ** The invariant *)

Record ginv (ok : nat → nat → Z → Prop) (e : Z) (w : TimerWheel) (fl : list Z) : Prop := {
  gi_struct : structural_wf w;
  gi_counts : level_counts_wf w;
  gi_occ : VecMap.count_wf (deadlines w);
  gi_typed : ∀ rid d, dl w rid = Some d → is_u64 rid ∧ is_u64 d;
  gi_nodup : NoDup fl;
  gi_pos : ∀ rid p, rid ∉ fl → pos w rid = Some p →
    slot_at w (level p) (slot p) !! idx p = Some rid;
  gi_slot : ∀ l s i rid, slot_at w l s !! i = Some rid →
    rid ∉ fl ∧ pos w rid = Some (mkPos l s i);
  gi_dl : ∀ rid, rid ∉ fl → is_Some (dl w rid) → is_Some (pos w rid) ∨ rid ∈ pending w;
  gi_key : ∀ rid, rid ∉ fl → is_Some (pos w rid) → is_Some (dl w rid);
  gi_disj : ∀ rid, rid ∈ pending w → pos w rid = None;
  gi_fl : ∀ rid, rid ∈ fl → rid ∉ pending w;
  gi_pend : ∀ rid d, rid ∈ pending w → dl w rid = Some d → (d ≤ e)%Z;
  gi_ok : ∀ rid p d, rid ∉ fl → pos w rid = Some p → dl w rid = Some d →
    ok (level p) (slot p) d;
}.

(** What [full_wf] says of a placed timer, relative to a clock value. *)
Definition placed (e : Z) (l s : nat) (d : Z) : Prop :=
  (e / tick l < d / tick l)%Z ∧ s = Z.to_nat ((d / tick l) mod 256) ∧
  (l < 3 → (d - e < 256 * tick l)%Z).

Lemma placed_level_slot d e l s :
  is_u64 d → is_u64 e → (e < d)%Z → level_slot d e = (l, s) → placed e l s d.
Proof.
  intros Hd He Hlt Hls. pose proof (level_slot_ahead d e l s Hd He Hlt Hls).
  destruct (level_slot_spec d e l s) as (_ & _ & Hs & _ & Hb); [done..|lia|done|].
  split; [done|]. split; [done|]. done.
Qed.

(** The source's predicate is the parametric one with no id in flight. *)
Lemma full_wf_ginv w :
  full_wf w ∧ typed w ↔
  ginv (placed (elapsed w)) (elapsed w) w [] ∧ cached_min_valid w ∧ is_u64 (elapsed w).
Proof.
  split.
  - intros [((Hst & Hmin & Hocc & Hcnt) & [Hd1 Hd2] & (Hp1 & Hp2 & Hp3) & Hah & Hpe & Hdis & Hsl & Hba)
      [He Hty]]. split; [|done].
    assert (Hnp : ∀ rid, is_Some (pos w rid) → rid ∉ pending w).
    { intros rid [p Hp] Hin. rewrite (Hdis rid Hin) in Hp. done. }
    split; try done.
    + constructor.
    + intros rid p _ Hp. apply Hp1; eauto.
    + intros l s i rid Hl. split; [apply not_elem_of_nil|].
      destruct (Hp2 _ _ _ _ Hl) as [p Hp]. rewrite Hp. f_equal. eauto.
    + intros rid _. apply Hd1.
    + intros rid _. apply Hd2.
    + by intros rid ?%not_elem_of_nil.
    + intros rid p d _ Hp Hd. assert (Hn : rid ∉ pending w) by eauto.
      specialize (Hah _ _ _ Hp Hn Hd). specialize (Hsl _ _ _ Hp Hn Hd).
      specialize (Hba _ _ _ Hp Hn Hd).
      rewrite !shiftr_tick in Hah. rewrite shiftr_tick, land_255 in Hsl.
      rewrite shiftl_band in Hba. split; [lia|done].
  - intros [H [Hmin He]]. destruct H. split.
    2: { split; done. }
    assert (∀ rid : Z, rid ∉ []) as Hnil by (intros; apply not_elem_of_nil).
    split; [done|]. split; [split; eauto|]. split.
    { split; [|split].
      - intros rid p Hp Hn. pose proof (gi_pos0 _ _ (Hnil _) Hp) as Hs.
        pose proof (slot_at_lookup_range _ _ _ _ _ gi_struct0 Hs) as []. done.
      - intros l s i rid Hs. apply gi_slot0 in Hs as [_ ->]. done.
      - intros l s i rid p Hs Hp Hn. apply gi_slot0 in Hs as [_ Hs]. congruence. }
    split; [|split; [|split; [|split]]]; try done;
      intros rid p d Hp Hn Hd; destruct (gi_ok0 _ _ _ (Hnil _) Hp Hd) as (Ha & Hs & Hb).
    + rewrite !shiftr_tick. lia.
    + by rewrite shiftr_tick, land_255.
    + rewrite shiftl_band. apply Hb.
Qed.

Lemma ginv_weaken (ok ok' : nat → nat → Z → Prop) e w fl :
  (∀ rid l s i d, pos w rid = Some (mkPos l s i) → dl w rid = Some d → ok l s d → ok' l s d) →
  ginv ok e w fl → ginv ok' e w fl.
Proof.
  intros Hok []. split; try done. intros rid [l s i] d Hr Hp Hd.
  eapply Hok; [done..|]. by apply (gi_ok0 rid (mkPos l s i)).
Qed.

(** Pending timers only get older. *)
Lemma ginv_clock ok e e' w fl : (e ≤ e')%Z → ginv ok e w fl → ginv ok e' w fl.
Proof. intros He []. split; try done. intros rid d Hr Hd. specialize (gi_pend0 rid d Hr Hd). lia. Qed.

(** [elapsed] and [cached_min] are not read by the invariant. *)
Lemma ginv_set_elapsed ok e w fl now : ginv ok e w fl → ginv ok e (set_elapsed w now) fl.
Proof. intros []. by split. Qed.

Lemma ginv_set_cached_min ok e w fl m : ginv ok e w fl → ginv ok e (set_cached_min w m) fl.
Proof. intros []. by split. Qed.

(** ** Primitive steps *)

Section steps.
Context (ok : nat → nat → Z → Prop) (e : Z).
Implicit Types (w : TimerWheel) (rid d : Z) (fl : list Z).

(** An id in flight is placed at the end of a slot. *)
Definition place w rid (l s : nat) : TimerWheel :=
  let w1 := slot_push w l s rid in
  set_positions w1 (st_insert (positions w1) rid (mkPos l s (length (slot_at w l s)))).

Lemma ginv_place w rid d l s fl :
  ginv ok e w (rid :: fl) → in_range l s → dl w rid = Some d → ok l s d →
  ginv ok e (place w rid l s) fl.
Proof.
  intros H Hr Hd Hok. destruct H.
  assert (Hat : ∀ l' s', slot_at (place w rid l s) l' s' =
    if decide (l = l' ∧ s = s') then slot_at w l s ++ [rid] else slot_at w l' s').
  { intros. by apply (slot_at_update w l s). }
  assert (Hpos : ∀ k, pos (place w rid l s) k =
    if decide (rid = k) then Some (mkPos l s (length (slot_at w l s))) else pos w k).
  { intros k. apply st_get_insert. }
  apply NoDup_cons in gi_nodup0 as [Hnin Hnd].
  assert (Hnp : rid ∉ pending w) by (apply gi_fl0; set_solver).
  split; try done.
  - by apply slot_update_structural.
  - apply (edit_counts w l s); try done. intros c Hc. rewrite length_app. simpl. lia.
  - intros k p Hk. rewrite Hpos, Hat. case_decide as Hrk.
    + intros [= <-]. simpl. rewrite decide_True by done. subst.
      by rewrite lookup_app_r, Nat.sub_diag by done.
    + intros Hp. specialize (gi_pos0 k p ltac:(set_solver) Hp). case_decide as Hls; [|done].
      destruct Hls as [-> ->]. by apply lookup_app_l_Some.
  - intros l' s' i k. rewrite Hpos, Hat. intros Hk.
    assert ((slot_at w l' s' !! i = Some k) ∨ (l' = l ∧ s' = s ∧ i = length (slot_at w l s) ∧ k = rid))
      as [Hin|(-> & -> & -> & ->)].
    { case_decide as Hls; [destruct Hls as [-> ->]|by left].
      apply lookup_app_Some in Hk as [Hk|[Hle Hk]]; [by left|right].
      apply list_lookup_singleton_Some in Hk as [? <-]. repeat split; lia. }
    + apply gi_slot0 in Hin as [Hnf Hp]. rewrite decide_False by set_solver. set_solver.
    + by rewrite decide_True by done.
  - intros k Hk Hdk. rewrite Hpos. case_decide; [by left; eauto|].
    apply gi_dl0; [set_solver|done].
  - intros k Hk. rewrite Hpos. case_decide; [subst; eauto|]. apply gi_key0; set_solver.
  - intros k Hk. rewrite Hpos. rewrite decide_False by set_solver. by apply gi_disj0.
  - intros k Hk. apply gi_fl0. set_solver.
  - intros k p d' Hk. rewrite Hpos. case_decide.
    + intros [= <-] Hd'. subst. change (dl w k = Some d') in Hd'. simpl. congruence.
    + intros Hp Hd'. apply (gi_ok0 k); [set_solver|done..].
Qed.

(** An expired id in flight moves to the pending list. *)
Lemma ginv_expire w rid d fl :
  ginv ok e w (rid :: fl) → dl w rid = Some d → (d ≤ e)%Z →
  let w1 := set_positions w (st_delete (positions w) rid) in
  ginv ok e (set_pending w1 (pending w1 ++ [rid])) fl.
Proof.
  intros H Hd Hle w1. destruct H.
  assert (Hpos : ∀ k, pos w1 k = if decide (rid = k) then None else pos w k).
  { intros k. apply st_get_delete. }
  apply NoDup_cons in gi_nodup0 as [Hnin Hnd].
  split; try done; simpl.
  - intros k p Hk. rewrite Hpos. case_decide; [done|]. apply gi_pos0. set_solver.
  - intros l s i k Hk. apply gi_slot0 in Hk as [Hnf Hp].
    rewrite Hpos, decide_False by set_solver. set_solver.
  - intros k Hk Hdk. rewrite Hpos. case_decide; [right; set_solver|].
    destruct (gi_dl0 k); set_solver.
  - intros k Hk. rewrite Hpos. case_decide; [by intros []|]. apply gi_key0. set_solver.
  - intros k [Hk|Hk]%elem_of_app; rewrite Hpos; case_decide; try done; [by apply gi_disj0|].
    set_solver.
  - intros k Hk [Hk'|Hk']%elem_of_app; [|set_solver]. revert Hk'. apply gi_fl0. set_solver.
  - intros k d' [Hk|Hk]%elem_of_app Hd'; [by eapply gi_pend0|].
    apply list_elem_of_singleton in Hk. subst.
    assert (d = d') by (change (dl w rid = Some d') in Hd'; congruence). by subst.
  - intros k p d' Hk. rewrite Hpos. case_decide; [done|]. apply gi_ok0. set_solver.
Qed.

(** Draining a slot puts its members in flight. *)
Lemma ginv_drain w l s :
  ginv ok e w [] → in_range l s →
  ginv (λ l' s' d, ok l' s' d ∧ ¬ (l = l' ∧ s = s')) e (slot_drain w l s).2 (slot_at w l s).
Proof.
  intros H Hr. destruct H. unfold slot_drain. simpl.
  set (w1 := slot_update _ _ _ _).
  assert (Hat : ∀ l' s', slot_at w1 l' s' =
    if decide (l = l' ∧ s = s') then [] else slot_at w l' s').
  { intros. by apply (slot_at_update w l s (λ _, [])). }
  assert (Hin : ∀ k, k ∈ slot_at w l s ↔ ∃ i, pos w k = Some (mkPos l s i)).
  { intros k. split.
    - intros [i Hi]%list_elem_of_lookup. apply gi_slot0 in Hi as [_ Hi]. eauto.
    - intros [i Hi]. apply gi_pos0 in Hi; [|apply not_elem_of_nil].
      by apply list_elem_of_lookup_2 in Hi. }
  assert (Hnil : ∀ k : Z, k ∉ @nil Z) by (intros; apply not_elem_of_nil).
  split; try done; eauto.
  - by apply slot_update_structural.
  - apply (edit_counts w l s (λ _, []) (λ c, c - length (slot_at w l s))); try done.
    intros c Hc. simpl. lia.
  - apply NoDup_alt. intros i j k Hi Hj.
    apply gi_slot0 in Hi as [_ Hi]. apply gi_slot0 in Hj as [_ Hj]. congruence.
  - intros k [l' s' i] Hk Hp. rewrite Hat. simpl. specialize (gi_pos0 _ _ (Hnil _) Hp). simpl in *.
    case_decide as Hd; [|done]. destruct Hd as [-> ->]. set_solver.
  - intros l' s' i k. rewrite Hat. case_decide as Hd; [by rewrite lookup_nil|].
    intros Hk. apply gi_slot0 in Hk as [_ Hk]. split; [|done].
    rewrite Hin. intros [j Hj]. apply Hd. by simplify_eq.
  - intros k [i Hk]%Hin Hp. apply gi_disj0 in Hp. congruence.
  - intros k [l' s' i] d Hk Hp Hd. split; [by apply (gi_ok0 k (mkPos l' s' i))|].
    intros [-> ->]. apply Hk, Hin. eauto.
Qed.

(** The id is unlinked from its slot: only its own placement changes, up to the
    index that the swap gives to the last member of the slot. *)
Lemma ginv_unlink w rid p :
  ginv ok e w [] → pos w rid = Some p →
  let v := slot_at w (level p) (slot p) in
  let w0 := set_positions w (st_delete (positions w) rid) in
  wheel_remove_inner w rid =
    if idx p <? length v - 1 then
      let w1 := slot_swap_remove w0 (level p) (slot p) (idx p) in
      set_positions w1 (st_insert (positions w1) (default 0%Z (last v)) p)
    else slot_pop w0 (level p) (slot p).
Proof.
  intros H Hp v w0. pose proof (gi_pos _ _ _ _ H rid p (not_elem_of_nil _) Hp) as Hi.
  destruct (slot_at_lookup_range _ _ _ _ _ (gi_struct _ _ _ _ H) Hi) as [Hl Hs].
  apply lookup_lt_Some in Hi. unfold wheel_remove_inner.
  rewrite (surjective_pairing (st_remove _ _)), st_remove_result, Hp.
  fold (st_delete (positions w) rid). fold w0.
  change (slot_at w0 _ _) with v. fold v in Hi.
  destruct (Nat.ltb_spec (level p) NUM_LEVELS); [|lia].
  destruct (Nat.ltb_spec (slot p) WHEEL_SIZE); [|lia]. simpl.
  destruct (length v) eqn:El; [lia|]. simpl. rewrite Nat.sub_0_r.
  destruct (Nat.leb_spec (idx p) n); [|lia].
  destruct (Nat.ltb_spec (idx p) n); [|done].
  rewrite last_lookup, El. simpl. destruct p; done.
Qed.
(** The level and the slot of a position. *)
Definition place_of (p : WheelPos) : nat * nat := (level p, slot p).

(** A change that takes [rid] out of the slots and keeps every other timer in
    its slot, possibly at another index. *)
Lemma ginv_relink w w' rid :
  ginv ok e w [] → rid ∉ pending w →
  structural_wf w' → level_counts_wf w' →
  deadlines w' = deadlines w → pending w' = pending w →
  pos w' rid = None →
  (∀ l s i k, slot_at w' l s !! i = Some k → k ≠ rid ∧ pos w' k = Some (mkPos l s i)) →
  (∀ k p, k ≠ rid → pos w' k = Some p → slot_at w' (level p) (slot p) !! idx p = Some k) →
  (∀ k, k ≠ rid → place_of <$> pos w' k = place_of <$> pos w k) →
  ginv ok e w' [rid].
Proof.
  intros H Hnp Hst Hc Hdl Hpe Hrid Hslot Hpos Hsame. destruct H.
  assert (Hnil : ∀ k : Z, k ∉ @nil Z) by (intros; apply not_elem_of_nil).
  assert (Hiff : ∀ k, k ≠ rid → is_Some (pos w' k) ↔ is_Some (pos w k)).
  { intros k Hk. specialize (Hsame k Hk).
    rewrite <- (fmap_is_Some place_of (pos w' k)), Hsame, fmap_is_Some. done. }
  split; rewrite ?Hdl, ?Hpe; try done.
  - apply NoDup_singleton.
  - intros k p Hk. apply Hpos. set_solver.
  - intros l s i k Hk. apply Hslot in Hk as []. set_solver.
  - intros k Hk. rewrite Hiff by set_solver. by apply gi_dl0.
  - intros k Hk. rewrite Hiff by set_solver. by apply gi_key0.
  - intros k Hk. destruct (decide (k = rid)) as [->|Hne]; [done|].
    apply eq_None_not_Some. rewrite Hiff by done. rewrite gi_disj0 by done. by intros [].
  - set_solver.
  - intros k p d Hk Hp Hd. specialize (Hsame k ltac:(set_solver)).
    rewrite Hp in Hsame. symmetry in Hsame. apply fmap_Some in Hsame as (p' & Ep & Heq).
    injection Heq as -> ->. by apply (gi_ok0 k).
Qed.

(** The slot of the removed id after the swap. *)
Lemma ginv_swap w rid l s i v0 x :
  ginv ok e w [] → rid ∉ pending w → pos w rid = Some (mkPos l s i) →
  slot_at w l s = v0 ++ [x] → i < length v0 →
  let w1 := slot_swap_remove (set_positions w (st_delete (positions w) rid)) l s i in
  ginv ok e (set_positions w1 (st_insert (positions w1) x (mkPos l s i))) [rid].
Proof.
  intros H Hnp Hp Hv Hi w1. pose proof H as []. set (w' := set_positions _ _).
  assert (Hri : v0 !! i = Some rid).
  { specialize (gi_pos0 rid _ (not_elem_of_nil _) Hp). simpl in gi_pos0.
    by rewrite Hv, lookup_app_l in gi_pos0. }
  assert (Hr : in_range l s).
  { apply (slot_at_lookup_range w l s i rid); [done|]. by rewrite Hv, lookup_app_l. }
  assert (Hx : pos w x = Some (mkPos l s (length v0))).
  { apply gi_slot0. rewrite Hv. by apply list_lookup_middle. }
  assert (Hxr : x ≠ rid) by (intros ->; simplify_eq; lia).
  assert (Hat : ∀ l' s', slot_at w' l' s' =
    if decide (l = l' ∧ s = s') then <[i := x]> v0 else slot_at w l' s').
  { intros l' s'. etrans; [by apply (slot_at_update w l s (swap_remove i))|].
    case_decide; [|done]. by rewrite Hv, swap_remove_snoc_lt. }
  assert (Hpos : ∀ k, pos w' k = if decide (x = k) then Some (mkPos l s i)
    else if decide (rid = k) then None else pos w k).
  { intros k. etrans; [apply st_get_insert|]. case_decide; [done|]. apply st_get_delete. }
  apply (ginv_relink w); try done.
  - by apply slot_update_structural.
  - apply (edit_counts w l s (swap_remove i)); try done. intros c Hc.
    rewrite Hv in *. rewrite swap_remove_snoc_lt, length_insert, length_app in * by done.
    simpl in *. lia.
  - by rewrite Hpos, decide_False, decide_True.
  - intros l' s' j k. rewrite Hpos, Hat. case_decide as Hls.
    + destruct Hls as [-> ->]. rewrite list_lookup_insert. case_decide as Hij.
      * destruct Hij as [<- _]. intros [= <-]. by rewrite decide_True.
      * intros Hk. assert (pos w k = Some (mkPos l' s' j)) as Hpk.
        { apply gi_slot0. rewrite Hv. by apply lookup_app_l_Some. }
        assert (j < length v0) by by eapply lookup_lt_Some.
        assert (k ≠ rid) by (intros ->; naive_solver). split; [done|].
        rewrite decide_False, decide_False; [done..|]. intros ->. simplify_eq. lia.
    + intros Hk. apply gi_slot0 in Hk as [_ Hk].
      assert (k ≠ rid) by (intros ->; naive_solver). split; [done|].
      rewrite decide_False, decide_False; [done..|]. intros ->. naive_solver.
  - intros k [l' s' j] Hk. rewrite Hpos, Hat. case_decide as Hxk.
    + intros [= <- <- <-]. simpl. rewrite decide_True by done.
      rewrite list_lookup_insert_eq by done. by subst.
    + rewrite decide_False by done. intros Hpk. simpl.
      pose proof (gi_pos0 k _ (not_elem_of_nil _) Hpk) as Hs. simpl in Hs.
      case_decide as Hls; [|done]. destruct Hls as [<- <-].
      rewrite Hv in Hs. apply lookup_app_Some in Hs as [Hs|[Hle Hs]].
      * rewrite list_lookup_insert_ne; [done|]. intros ->. simplify_eq.
      * by apply list_lookup_singleton_Some in Hs as [_ <-].
  - intros k Hk. rewrite Hpos. case_decide; subst; [by rewrite Hx|].
    by rewrite decide_False.
Qed.

Lemma ginv_pop w rid l s v0 :
  ginv ok e w [] → rid ∉ pending w → pos w rid = Some (mkPos l s (length v0)) →
  slot_at w l s = v0 ++ [rid] →
  ginv ok e (slot_pop (set_positions w (st_delete (positions w) rid)) l s) [rid].
Proof.
  intros H Hnp Hp Hv. pose proof H as []. set (w' := slot_pop _ _ _).
  assert (Hr : in_range l s).
  { apply (slot_at_lookup_range w l s (length v0) rid); [done|].
    rewrite Hv. by apply list_lookup_middle. }
  assert (Hat : ∀ l' s', slot_at w' l' s' =
    if decide (l = l' ∧ s = s') then v0 else slot_at w l' s').
  { intros l' s'. etrans; [by apply (slot_at_update w l s (λ v, take (length v - 1) v))|].
    case_decide; [|done]. by rewrite Hv, take_pred_snoc. }
  assert (Hpos : ∀ k, pos w' k = if decide (rid = k) then None else pos w k).
  { intros k. apply st_get_delete. }
  apply (ginv_relink w); try done.
  - by apply slot_update_structural.
  - apply (edit_counts w l s (λ v, take (length v - 1) v)); try done. intros c Hc.
    rewrite Hv in *. rewrite take_pred_snoc, length_app in *. simpl in *. lia.
  - by rewrite Hpos, decide_True.
  - intros l' s' j k. rewrite Hpos, Hat. intros Hk.
    assert (pos w k = Some (mkPos l' s' j) ∧ (l = l' ∧ s = s' → j < length v0)) as [Hpk Hj].
    { case_decide as Hls.
      - destruct Hls as [<- <-]. pose proof (lookup_lt_Some _ _ _ Hk). split; [|done].
        apply gi_slot0. rewrite Hv. by apply lookup_app_l_Some.
      - apply gi_slot0 in Hk as [_ Hk]. naive_solver. }
    assert (k ≠ rid) by (intros ->; simplify_eq; naive_solver lia).
    by rewrite decide_False.
  - intros k [l' s' j] Hk. rewrite Hpos, Hat, decide_False by done. intros Hpk. simpl.
    pose proof (gi_pos0 k _ (not_elem_of_nil _) Hpk) as Hs. simpl in Hs.
    case_decide as Hls; [|done]. destruct Hls as [<- <-].
    rewrite Hv in Hs. apply lookup_app_Some in Hs as [Hs|[Hle Hs]]; [done|].
    apply list_lookup_singleton_Some in Hs as [_ <-]. done.
  - intros k Hk. by rewrite Hpos, decide_False.
Qed.

(** [wheel_remove_inner] puts the id in flight, whatever its placement was. *)
Lemma ginv_remove_inner w rid :
  ginv ok e w [] → rid ∉ pending w →
  ginv ok e (wheel_remove_inner w rid) [rid] ∧ pos (wheel_remove_inner w rid) rid = None.
Proof.
  intros H Hnp. destruct (pos w rid) as [[l s i]|] eqn:Hp.
  - rewrite (ginv_unlink w rid _ H Hp). simpl.
    pose proof (gi_pos _ _ _ _ H rid _ (not_elem_of_nil _) Hp) as Hi. simpl in Hi.
    destruct (slot_at w l s) as [|x v0 _] eqn:Hv using rev_ind; [by rewrite lookup_nil in Hi|].
    rewrite length_app, last_snoc. simpl. rewrite Nat.add_sub.
    apply lookup_app_Some in Hi as [Hi|[Hle Hi]].
    + pose proof (lookup_lt_Some _ _ _ Hi). destruct (Nat.ltb_spec i (length v0)); [|lia].
      assert (HG := ginv_swap w rid l s i v0 x H Hnp Hp Hv ltac:(done)). split; [done|].
      assert (pos w x = Some (mkPos l s (length v0))) as Hx.
      { apply (gi_slot _ _ _ _ H). rewrite Hv. by apply list_lookup_middle. }
      etrans; [apply st_get_insert_ne; intros ->; simplify_eq; lia|]. apply st_get_delete_eq.
    + apply list_lookup_singleton_Some in Hi as [Hi ->].
      assert (i = length v0) as -> by lia. rewrite Nat.ltb_irrefl.
      split; [by eapply ginv_pop|]. apply st_get_delete_eq.
  - unfold wheel_remove_inner. rewrite (surjective_pairing (st_remove _ _)), st_remove_result, Hp.
    fold (st_delete (positions w) rid). split; [|apply st_get_delete_eq].
    assert (Hpos : ∀ k, pos (set_positions w (st_delete (positions w) rid)) k = pos w k).
    { intros k. etrans; [apply st_get_delete|]. case_decide; congruence. }
    pose proof H as []. apply (ginv_relink w); try done.
    + by rewrite Hpos.
    + intros l s i k Hk. rewrite Hpos. apply gi_slot0 in Hk as [_ Hk].
      split; [congruence|done].
    + intros k p Hk. rewrite Hpos. apply gi_pos0, not_elem_of_nil.
    + intros k Hk. by rewrite Hpos.
Qed.

(** The remaining fields are not touched. *)
Lemma remove_inner_frame w rid :
  let w' := wheel_remove_inner w rid in
  deadlines w' = deadlines w ∧ pending w' = pending w ∧
  elapsed w' = elapsed w ∧ cached_min w' = cached_min w.
Proof.
  unfold wheel_remove_inner. destruct (st_remove (positions w) rid) as [[p|] ps]; [|done].
  by repeat case_match.
Qed.

Lemma ginv_set_deadline w rid d :
  ginv ok e w [rid] → is_u64 rid → is_u64 d →
  ginv ok e (set_deadlines w (st_insert (deadlines w) rid d)) [rid].
Proof.
  intros [] Hr Hd. set (w' := set_deadlines _ _).
  assert (Hdl : ∀ k, dl w' k = if decide (rid = k) then Some d else dl w k).
  { intros k. apply st_get_insert. }
  assert (Hne : ∀ k, k ∉ [rid] → dl w' k = dl w k).
  { intros k Hk. rewrite Hdl, decide_False; [done|]. set_solver. }
  split; try done.
  - by apply VecMap.st_insert_count_wf.
  - intros k d'. rewrite Hdl. case_decide; [|apply gi_typed0]. by intros [= <-]; subst.
  - intros k Hk. rewrite Hne by done. by apply gi_dl0.
  - intros k Hk. rewrite Hne by done. by apply gi_key0.
  - intros k d' Hk. rewrite Hne; [by apply gi_pend0|]. intros ?. by apply (gi_fl0 k).
  - intros k p d' Hk Hp. rewrite Hne by done. by apply gi_ok0.
Qed.

Lemma ginv_delete_deadline w rid :
  ginv ok e w [rid] → pos w rid = None →
  ginv ok e (set_deadlines w (st_delete (deadlines w) rid)) [].
Proof.
  intros [] Hrid. set (w' := set_deadlines _ _).
  assert (Hdl : ∀ k, dl w' k = if decide (rid = k) then None else dl w k).
  { intros k. apply st_get_delete. }
  split; try done.
  - by apply VecMap.st_delete_count_wf.
  - intros k d'. rewrite Hdl. case_decide; [done|apply gi_typed0].
  - constructor.
  - intros k p _ Hp. apply gi_pos0; [|done]. intros ->%list_elem_of_singleton.
    change (pos w rid = Some p) in Hp. congruence.
  - intros l s i k Hk. apply gi_slot0 in Hk as [_ Hk]. split; [apply not_elem_of_nil|done].
  - intros k _. rewrite Hdl. case_decide; [by intros []|]. apply gi_dl0. set_solver.
  - intros k _ Hk. rewrite Hdl. case_decide as Hrk.
    { destruct Hk as [p Hk]. change (pos w k = Some p) in Hk. congruence. }
    apply gi_key0; [set_solver|done].
  - by intros k ?%not_elem_of_nil.
  - intros k d' Hk. rewrite Hdl. case_decide; [done|]. by apply gi_pend0.
  - intros k p d' _ Hp. rewrite Hdl. case_decide; [done|]. apply gi_ok0; [set_solver|done].
Qed.
End steps.
