(* ===== verification/WheelOps.v ===== *)
(** * WheelOps: what the operations of the timer wheel do to the timer queue

    [insert], [remove] and [try_pop_expired] preserve the source's [full_wf] and
    act on the map from ids to deadlines as the abstract operations do.  The
    operations are compositions of the primitive steps of [WheelInv]; the lemmas
    here follow that composition.  The loops of [advance_to] come first. *)

From S2P Require Import Prelude Store VecMap Wheel WheelInv.
Import Wheel.

(** ** Moving the clock

    [advance_to] drains, level by level, the slots that the clock passes.  The
    loop invariants are instances of [ginv]: [sweeping] inside the slot loop of a
    level, [swept] between levels.  A timer that is not yet ahead of the new
    clock is ahead of the old one and lies in a slot that is still to be drained. *)

(** Two wheels that differ only in where their timers are placed. *)
Definition same_timers (w w' : TimerWheel) : Prop :=
  deadlines w' = deadlines w ∧ elapsed w' = elapsed w ∧ cached_min w' = cached_min w.

#[global] Instance same_timers_preorder : PreOrder same_timers.
Proof.
  split; [done|]. intros w1 w2 w3 (H1 & H2 & H3) (H4 & H5 & H6).
  split; [congruence|]. split; congruence.
Qed.

(** ** One member of a drained slot *)

Section entry.
Context (ok : nat → nat → Z → Prop) (now : Z).
Context (Hnow : is_u64 now) (Hok : ∀ l s d, placed now l s d → ok l s d).

Lemma insert_inner_place w rid d e l s :
  level_slot d e = (l, s) → wheel_insert_inner w rid d e = place w rid l s.
Proof.
  intros Hls. unfold wheel_insert_inner. rewrite Hls.
  pose proof (level_slot_bounds d e) as Hb. rewrite Hls in Hb.
  unfold NUM_LEVELS, WHEEL_SIZE in Hb. by rewrite !as_u8_id by lia.
Qed.

Lemma drain_entry_timers w rid : same_timers w (drain_entry now w rid).
Proof.
  unfold drain_entry, wheel_insert_inner. case_match; [|done].
  case_match; [done|]. by destruct (level_slot _ _).
Qed.

Lemma drain_entry_ginv w rid fl :
  ginv ok now w (rid :: fl) → is_Some (dl w rid) → ginv ok now (drain_entry now w rid) fl.
Proof.
  intros H [d Hd]. unfold drain_entry. rewrite VecMap.contains_key_spec, Hd.
  rewrite bool_decide_true by done. simpl. case_cmp; [by apply ginv_expire with d|].
  destruct (level_slot d now) as [l s] eqn:Hls. rewrite (insert_inner_place _ _ _ _ _ _ Hls).
  destruct (gi_typed _ _ _ _ H _ _ Hd) as [_ Hud].
  pose proof (level_slot_bounds d now) as Hb. rewrite Hls in Hb.
  apply ginv_place with d; try done. apply Hok, placed_level_slot; done.
Qed.

Lemma drain_entries_ginv w fl :
  ginv ok now w fl → Forall (λ rid, is_Some (dl w rid)) fl →
  ginv ok now (foldl (drain_entry now) w fl) [] ∧ same_timers w (foldl (drain_entry now) w fl).
Proof.
  revert w. induction fl as [|rid fl IH]; intros w H Hfl; [done|]. simpl.
  inversion Hfl as [|? ? Hrid Hfl']; subst.
  pose proof (drain_entry_timers w rid) as Hst.
  destruct (IH (drain_entry now w rid)) as [HG HS].
  - by apply drain_entry_ginv.
  - destruct Hst as (-> & _). done.
  - split; [done|by etrans].
Qed.

Lemma drain_slot_ginv (ok0 : nat → nat → Z → Prop) l w s :
  (∀ l' s' d, ok0 l' s' d ∧ ¬ (l = l' ∧ s = s') → ok l' s' d) →
  ginv ok0 now w [] → in_range l s →
  ginv ok now (drain_slot now l w s) [] ∧ same_timers w (drain_slot now l w s).
Proof.
  intros Hok0 H Hr. unfold drain_slot.
  pose proof (ginv_drain ok0 now w l s H Hr) as HD.
  rewrite (surjective_pairing (slot_drain w l s)). change (slot_drain w l s).1 with (slot_at w l s).
  apply (ginv_weaken _ ok) in HD; [|eauto].
  apply drain_entries_ginv in HD; [done|].
  apply Forall_forall. intros rid [i Hi]%list_elem_of_lookup.
  apply (gi_slot _ _ _ _ H) in Hi as [_ Hp].
  apply (gi_key _ _ _ _ H); [apply not_elem_of_nil|]. by rewrite Hp.
Qed.
End entry.

(** ** The slot loop and the level loop *)

Section advance.
Context (e now : Z).
Context (Hnow : is_u64 now) (He : (0 ≤ e ≤ now)%Z).

(** Level [l] is being drained, the slots of [rest] remain. *)
Definition sweeping (l : nat) (rest : list nat) (l' s' : nat) (d : Z) : Prop :=
  s' = Z.to_nat ((d / tick l') mod 256) ∧ (l' < 3 → (d - now < 256 * tick l')%Z) ∧
  ((now / tick l' < d / tick l')%Z ∨
   ((e / tick l' < d / tick l')%Z ∧ (l < l' ∨ l' = l ∧ s' ∈ rest))).

(** The levels below [l] have been drained. *)
Definition swept (l : nat) (l' s' : nat) (d : Z) : Prop :=
  s' = Z.to_nat ((d / tick l') mod 256) ∧ (l' < 3 → (d - now < 256 * tick l')%Z) ∧
  ((now / tick l' < d / tick l')%Z ∨ ((e / tick l' < d / tick l')%Z ∧ l ≤ l')).

Lemma placed_sweeping l rest l' s' d : placed now l' s' d → sweeping l rest l' s' d.
Proof. intros (? & ? & ?). split; [done|]. split; [done|]. by left. Qed.

Lemma drain_slots_ginv l rest w :
  l < NUM_LEVELS → Forall (λ s, s < WHEEL_SIZE) rest →
  ginv (sweeping l rest) now w [] →
  let w' := foldl (drain_slot now l) w rest in
  ginv (sweeping l []) now w' [] ∧ same_timers w w'.
Proof.
  intros Hl. revert w. induction rest as [|s rest IH]; intros w Hrest H; [done|]. simpl.
  inversion Hrest as [|? ? Hs Hrest']; subst.
  destruct (drain_slot_ginv (sweeping l rest) now Hnow (λ l' s' d, placed_sweeping l rest l' s' d)
    (sweeping l (s :: rest)) l w s) as [HG HS]; [|done|done|].
  { intros l' s' d [(Hsl & Hb & Hah) Hne]. split; [done|]. split; [done|].
    destruct Hah as [?|[? [?|[-> Hin]]]]; [by left|right; eauto|].
    right. split; [done|]. right. split; [done|]. set_solver. }
  destruct (IH _ Hrest' HG). split; [done|by etrans].
Qed.

Lemma drain_level_ginv l w :
  l < NUM_LEVELS → ginv (swept l) now w [] →
  let w' := drain_level e now l w in
  ginv (swept (S l)) now w' [] ∧ same_timers w w'.
Proof.
  intros Hl H. unfold drain_level. set (rest := fmap _ _).
  destruct (drain_slots_ginv l rest w Hl) as [HG HS].
  - apply Forall_forall. intros s. apply drained_slots_bound.
  - eapply ginv_weaken, H. intros rid l' s' i d _ _ (Hs & Hb & Hah).
    split; [done|]. split; [done|].
    destruct (Z.lt_ge_cases (now / tick l') (d / tick l')); [by left|].
    destruct Hah as [?|[Hah Hle]]; [lia|]. right. split; [done|].
    destruct (decide (l' = l)) as [->|]; [right|left; lia]. split; [done|]. subst s'.
    apply slot_covered; [lia|done|lia].
  - split; [|done]. eapply ginv_weaken, HG. intros rid l' s' i d _ _ (Hs & Hb & Hah).
    split; [done|]. split; [done|].
    destruct Hah as [?|[? [?|[_ Hin]]]]; [by left|right|by apply not_elem_of_nil in Hin].
    split; [done|lia].
Qed.

Lemma advance_levels_ginv n l w :
  n + l = NUM_LEVELS → ginv (swept l) now w [] →
  let w' := advance_levels n l e now w in
  ginv (placed now) now w' [] ∧ same_timers w w'.
Proof.
  revert l w. induction n as [|n IH]; intros l w Hn H; simpl.
  - split; [|done]. split; try apply H.
    intros rid p d Hr Hp Hd.
    destruct (gi_ok _ _ _ _ H rid p d Hr Hp Hd) as (Hs & Hb & Hah).
    pose proof (gi_pos _ _ _ _ H rid p Hr Hp) as Hat.
    apply slot_at_lookup_range in Hat as [Hlv _]; [|apply H].
    destruct Hah as [?|[_ Hle]]; [done|lia].
  - fold (shift_of l). rewrite !shiftr_tick.
    destruct (Z.eqb_spec (e / tick l) (now / tick l)) as [Heq|_].
    + split; [|done]. eapply ginv_weaken, H.
      intros rid l' s' i d _ _ (Hs & Hb & Hah). split; [|done].
      destruct Hah as [?|[? Hle]]; [done|]. by rewrite <- (same_above e now l l').
    + destruct (drain_level_ginv l w ltac:(lia) H) as [HG HS].
      destruct (IH (S l) _ ltac:(lia) HG). split; [done|by etrans].
Qed.

Lemma placed_swept l' s' d : placed e l' s' d → swept 0 l' s' d.
Proof.
  intros (Hah & Hs & Hb). split; [done|]. split; [intros Hl; specialize (Hb Hl); lia|].
  right. split; [done|lia].
Qed.
End advance.

Lemma advance_to_ginv w now :
  ginv (placed (elapsed w)) (elapsed w) w [] → is_u64 (elapsed w) → is_u64 now →
  (elapsed w ≤ now)%Z →
  let w' := advance_to w now in
  ginv (placed now) now w' [] ∧ deadlines w' = deadlines w ∧ cached_min w' = cached_min w.
Proof.
  intros H He Hnow Hle. unfold advance_to.
  pose proof (conj (proj1 He) Hle) as Hle0.
  destruct (advance_levels_ginv (elapsed w) now Hnow Hle0 NUM_LEVELS 0 w)
    as [HG HS]; [done| |].
  - eapply ginv_weaken, ginv_clock, H; [|done]. intros. by apply placed_swept.
  - split; [by apply ginv_set_elapsed|]. destruct HS as (? & _ & ?). done.
Qed.

(** Timers that are due at the new clock have become pending. *)
Lemma ginv_placed_pending now w rid d :
  ginv (placed now) now w [] → dl w rid = Some d → (d ≤ now)%Z → rid ∈ pending w.
Proof.
  intros H Hd Hle.
  destruct (gi_dl _ _ _ _ H rid (not_elem_of_nil _)) as [[p Hp]|]; [by rewrite Hd| |done].
  destruct (gi_ok _ _ _ _ H rid p d (not_elem_of_nil _) Hp Hd) as (Hah & _).
  apply div_lt_inv in Hah. lia.
Qed.

(** ** The operations *)

(** The invariant between operations. *)
Definition wheel_ok (w : TimerWheel) : Prop := full_wf w ∧ typed w.

Definition winv (w : TimerWheel) : Prop :=
  ginv (placed (elapsed w)) (elapsed w) w [] ∧ cached_min_valid w ∧ is_u64 (elapsed w).

Lemma wheel_ok_winv w : wheel_ok w ↔ winv w.
Proof. apply full_wf_ginv. Qed.

(** ** The cached minimum *)

Lemma invalidate_min_eq w d : ∃ m, invalidate_min w d = set_cached_min w m.
Proof.
  unfold invalidate_min. destruct (cached_min w) as [m|] eqn:E.
  - case_match; [by exists None|]. exists (Some m). rewrite <- E. by destruct w.
  - exists None. rewrite <- E. by destruct w.
Qed.

(** What survives the invalidation is the minimum without [rid]. *)
Definition min_without (w : TimerWheel) (rid : Z) (c : option Z) : Prop :=
  ∀ m, c = Some m →
    (∃ k, k ≠ rid ∧ dl w k = Some m) ∧ ∀ k d, k ≠ rid → dl w k = Some d → (m ≤ d)%Z.

Lemma invalidate_min_valid w rid d :
  cached_min_valid w → dl w rid = Some d →
  min_without w rid (cached_min (invalidate_min w d)).
Proof.
  unfold cached_min_valid, invalidate_min. intros Hm Hd m'.
  destruct (cached_min w) as [m|] eqn:E; [|by rewrite E].
  destruct Hm as [[k Hk] Hlow]. case_cmp; simpl; [done|].
  rewrite E. intros [= <-]. split; [|naive_solver].
  exists k. split; [|done]. intros ->. simplify_eq. lia.
Qed.

Lemma min_without_absent w rid :
  cached_min_valid w → dl w rid = None → min_without w rid (cached_min w).
Proof.
  unfold cached_min_valid. intros Hm Hd m E. rewrite E in Hm. destruct Hm as [[k Hk] Hlow].
  split; [|naive_solver]. exists k. split; [congruence|done].
Qed.

(** ** Insertion *)

(** The wheel just before the new timer is placed. *)
Definition unlinked (w : TimerWheel) (rid : Z) : TimerWheel :=
  wheel_remove_inner
    (match dl w rid with Some d => invalidate_min w d | None => w end) rid.

Lemma insert_eq w rid d l s :
  level_slot d (elapsed (unlinked w rid)) = (l, s) →
  insert w rid d =
    let w3 := set_deadlines (unlinked w rid) (st_insert (deadlines (unlinked w rid)) rid d) in
    set_cached_min (place w3 rid l s)
      (match cached_min (unlinked w rid) with
       | Some m => Some (if (d <? m)%Z then d else m)
       | None => None
       end).
Proof.
  intros Hls. unfold insert. fold (unlinked w rid). cbv zeta.
  change (elapsed (set_deadlines ?a ?b)) with (elapsed a). rewrite Hls.
  pose proof (level_slot_bounds d (elapsed (unlinked w rid))) as Hb. rewrite Hls in Hb.
  unfold NUM_LEVELS, WHEEL_SIZE in Hb. rewrite !as_u8_id by lia.
  unfold place. cbn -[slot_at]. destruct (cached_min (unlinked w rid)) as [m|] eqn:E.
  - case_match; [done|]. unfold set_cached_min. simpl. by rewrite <- E.
  - unfold set_cached_min. simpl. by rewrite <- E.
Qed.

Lemma unlinked_spec w rid :
  winv w → rid ∉ pending w →
  let u := unlinked w rid in
  ginv (placed (elapsed w)) (elapsed w) u [rid] ∧ pos u rid = None ∧
  deadlines u = deadlines w ∧ pending u = pending w ∧ elapsed u = elapsed w ∧
  min_without w rid (cached_min u).
Proof.
  intros (H & Hmin & He) Hnp u. unfold u, unlinked.
  set (w0 := match dl w rid with Some d => invalidate_min w d | None => w end).
  assert (min_without w rid (cached_min w0) ∧ ∃ m, w0 = set_cached_min w m) as [Hm [m Heq]].
  { unfold w0. destruct (dl w rid) as [d|] eqn:E.
    - split; [by apply invalidate_min_valid|apply invalidate_min_eq].
    - split; [by apply min_without_absent|]. exists (cached_min w). by destruct w. }
  destruct (remove_inner_frame w0 rid) as (Hd & Hp & Hel & Hc).
  destruct (ginv_remove_inner (placed (elapsed w)) (elapsed w) w0 rid) as [HG HN].
  - rewrite Heq. by apply ginv_set_cached_min.
  - by rewrite Heq.
  - rewrite Hd, Hp, Hel, Hc. rewrite Heq at 3 4 5. done.
Qed.

Lemma insert_winv w rid d :
  winv w → rid ∉ pending w → is_u64 rid → is_u64 d → (elapsed w < d)%Z →
  let w' := insert w rid d in
  winv w' ∧ pending w' = pending w ∧ elapsed w' = elapsed w ∧
  (∀ k, dl w' k = if decide (rid = k) then Some d else dl w k).
Proof.
  intros Hw Hnp Hr Hd Hlt. destruct (unlinked_spec w rid Hw Hnp) as (HG & HN & Hdl & Hp & Hel & Hm).
  destruct (level_slot d (elapsed (unlinked w rid))) as [l s] eqn:Hls.
  rewrite (insert_eq _ _ _ _ _ Hls). cbv zeta.
  set (w3 := set_deadlines _ _). set (c := match cached_min _ with Some _ => _ | None => _ end).
  assert (Hdl3 : ∀ k, dl w3 k = if decide (rid = k) then Some d else dl w k).
  { intros k. etrans; [apply st_get_insert|]. by rewrite Hdl. }
  simpl. split; [|done].
  assert (He3 : elapsed w3 = elapsed w) by done. split; [|split].
  - simpl. rewrite Hel.
    apply ginv_set_cached_min, ginv_place with d.
    + apply ginv_set_deadline; done.
    + pose proof (level_slot_bounds d (elapsed (unlinked w rid))) as Hb. by rewrite Hls in Hb.
    + rewrite Hdl3. by rewrite decide_True.
    + rewrite Hel in Hls. apply placed_level_slot; [done|apply Hw|done..].
  - assert (Hwit : ∀ m, c = Some m → (∃ k, dl w3 k = Some m) ∧
      (∀ k d', dl w3 k = Some d' → (m ≤ d')%Z)).
    { unfold c. destruct (cached_min (unlinked w rid)) as [m|]; [|done].
      intros m' [= <-]. destruct (Hm m eq_refl) as [(k & Hne & Hk) Hlow]. split.
      - case_cmp; [exists rid|exists k]; rewrite Hdl3; by case_decide.
      - intros k' d'. rewrite Hdl3. case_decide as Hk'.
        + intros [= <-]. case_cmp; lia.
        + intros Hd'. specialize (Hlow k' d' ltac:(done) Hd'). case_cmp; lia. }
    unfold cached_min_valid. cbn [cached_min set_cached_min].
    destruct c as [m|]; [|done]. by apply Hwit.
  - change (is_u64 (elapsed w3)). rewrite He3. apply Hw.
Qed.

(** ** Removal *)

Lemma remove_winv w rid :
  winv w → rid ∉ pending w →
  let w' := remove w rid in
  winv w' ∧ pending w' = pending w ∧ elapsed w' = elapsed w ∧
  (∀ k, dl w' k = if decide (rid = k) then None else dl w k).
Proof.
  intros Hw Hnp. unfold remove. rewrite VecMap.contains_key_spec.
  destruct (dl w rid) as [d|] eqn:Hd.
  2: { rewrite bool_decide_false by (by intros []). simpl. split; [done|]. repeat split.
       intros k. case_decide; congruence. }
  rewrite bool_decide_true by done. cbv zeta. cbn [default from_option id].
  destruct (unlinked_spec w rid Hw Hnp) as (HG & HN & Hdl & Hp & Hel & Hm).
  assert (Hu : wheel_remove_inner (invalidate_min w d) rid = unlinked w rid).
  { unfold unlinked. by rewrite Hd. }
  rewrite Hu. set (u := unlinked w rid) in *.
  assert (Hdl' : ∀ k, dl (set_deadlines u (st_delete (deadlines u) rid)) k =
    if decide (rid = k) then None else dl w k).
  { intros k. etrans; [apply st_get_delete|]. by rewrite Hdl. }
  simpl. split; [|done]. split; [|split].
  - simpl. rewrite Hel. by apply ginv_delete_deadline.
  - unfold cached_min_valid. cbn [cached_min set_deadlines].
    destruct (cached_min u) as [m|]; [|done].
    destruct (Hm m eq_refl) as [(k & Hne & Hk) Hlow]. split.
    + exists k. rewrite Hdl'. by rewrite decide_False.
    + intros k' d'. rewrite Hdl'. case_decide; [done|]. by apply Hlow.
  - simpl. rewrite Hel. apply Hw.
Qed.

(** ** The pending list *)

Lemma ginv_pop_stale ok e w p rid :
  ginv ok e w [] → pending w = p ++ [rid] → dl w rid = None → ginv ok e (set_pending w p) [].
Proof.
  intros [] Hp Hd.
  assert (Hsub : ∀ k, k ∈ p → k ∈ pending w) by (intros; rewrite Hp; set_solver).
  split; try done; simpl.
  - intros k Hk [d Hdk]. change (dl w k = Some d) in Hdk.
    destruct (gi_dl k Hk) as [?|Hin]; [by rewrite Hdk|by left|right].
    rewrite Hp in Hin. apply elem_of_app in Hin as [?|Hin]; [done|].
    apply list_elem_of_singleton in Hin. congruence.
  - intros k Hk. by apply gi_disj, Hsub.
  - by intros k ?%not_elem_of_nil.
  - intros k d Hk. by apply gi_pend, Hsub.
Qed.

Lemma ginv_delete ok e w rid :
  ginv ok e w [] → pos w rid = None →
  ginv ok e (set_positions (set_deadlines w (st_delete (deadlines w) rid))
    (st_delete (positions w) rid)) [].
Proof.
  intros [] Hn. set (w' := set_positions _ _).
  assert (Hpos : ∀ k, pos w' k = pos w k).
  { intros k. etrans; [apply st_get_delete|]. case_decide; congruence. }
  assert (Hdl : ∀ k, dl w' k = if decide (rid = k) then None else dl w k).
  { intros k. apply st_get_delete. }
  split; try done.
  - by apply VecMap.st_delete_count_wf.
  - intros k d. rewrite Hdl. case_decide; [done|apply gi_typed].
  - intros k p. rewrite Hpos. apply gi_pos.
  - intros l s i k. rewrite Hpos. apply gi_slot.
  - intros k Hk. rewrite Hdl, Hpos. case_decide; [by intros []|by apply gi_dl].
  - intros k Hk. rewrite Hdl, Hpos. case_decide; [subst; rewrite Hn; by intros []|by apply gi_key].
  - intros k. rewrite Hpos. apply gi_disj.
  - intros k d Hk. rewrite Hdl. case_decide; [done|by apply gi_pend].
  - intros k p d Hk. rewrite Hpos, Hdl. case_decide; [done|by apply gi_ok].
Qed.

(** The result of popping pending timers. *)
Definition popped (w : TimerWheel) (now : Z) (r : option Z) (w' : TimerWheel) : Prop :=
  winv w' ∧ elapsed w' = elapsed w ∧
  match r with
  | Some rid => (∃ d, dl w rid = Some d ∧ (d ≤ now)%Z) ∧
                ∀ k, dl w' k = if decide (rid = k) then None else dl w k
  | None => pending w' = [] ∧ ∀ k, dl w' k = dl w k
  end.

Lemma drain_pending_winv n now w :
  winv w → n = length (pending w) → (elapsed w ≤ now)%Z →
  let '(r, w') := drain_pending n now w in popped w now r w'.
Proof.
  revert w. induction n as [|n IH]; intros w Hw Hn Hle; simpl.
  - split; [done|]. split; [done|]. split; [|done]. by apply nil_length_inv.
  - destruct (vec_pop (pending w)) as [[rid p]|] eqn:Hpop;
      [|apply vec_pop_None in Hpop; by rewrite Hpop in Hn].
    pose proof (vec_pop_length _ _ _ Hpop) as Hlen. apply vec_pop_inv in Hpop.
    rewrite VecMap.contains_key_spec. simpl (deadlines _).
    destruct Hw as (HG & Hmin & He).
    destruct (dl w rid) as [d|] eqn:Hd; [rewrite bool_decide_true by done|
      rewrite bool_decide_false by (by intros [])].
    + simpl. assert (Hin : rid ∈ pending w) by (rewrite Hpop; set_solver).
      pose proof (gi_pend _ _ _ _ HG rid d Hin Hd) as Hde.
      destruct (Z.leb_spec d now); [|lia].
      destruct (invalidate_min_eq (set_pending w p) d) as [m Hm]. rewrite Hm. simpl.
      set (w' := set_positions _ _).
      assert (Hdl' : ∀ k, dl w' k = if decide (rid = k) then None else dl w k).
      { intros k. apply st_get_delete. }
      split; [|split; [done|split; [by exists d|done]]]. split; [|split]; [|..|done].
      * pose proof (gi_disj _ _ _ _ HG rid Hin) as Hn0.
        pose proof (ginv_delete _ _ _ rid HG Hn0) as HG1.
        assert (Hdr : dl (set_positions (set_deadlines w (st_delete (deadlines w) rid))
          (st_delete (positions w) rid)) rid = None) by apply st_get_delete_eq.
        pose proof (ginv_pop_stale _ _ _ p rid HG1 Hpop Hdr) as HG2.
        by apply (ginv_set_cached_min _ _ _ _ m) in HG2.
      * pose proof (invalidate_min_valid (set_pending w p) rid d Hmin Hd) as Hmw.
        rewrite Hm in Hmw. unfold cached_min_valid. simpl in *. destruct m as [m|]; [|done].
        destruct (Hmw m eq_refl) as [(k & Hne & Hk) Hlow]. split.
        -- exists k. rewrite Hdl', decide_False by done. done.
        -- intros k' d'. rewrite Hdl'. case_decide; [done|]. by apply Hlow.
    + assert (Hw' : winv (set_pending w p)).
      { split; [by eapply ginv_pop_stale|done]. }
      specialize (IH (set_pending w p) Hw' ltac:(simpl; lia) Hle).
      by destruct (drain_pending n now (set_pending w p)) as [r w'].
Qed.

(** ** Expiry *)

Lemma advance_winv w now :
  winv w → is_u64 now → (elapsed w ≤ now)%Z →
  winv (advance_to w now) ∧ elapsed (advance_to w now) = now ∧
  deadlines (advance_to w now) = deadlines w.
Proof.
  intros (HG & Hmin & He) Hnow Hle.
  destruct (advance_to_ginv w now HG He Hnow Hle) as (HG' & Hd & Hc).
  split; [|done]. split; [done|]. split; [|done].
  unfold cached_min_valid in *. by rewrite Hc, Hd.
Qed.

Lemma try_pop_winv w now :
  winv w → is_u64 now → (elapsed w ≤ now)%Z →
  let '(r, w') := try_pop_expired w now in
  winv w' ∧ (elapsed w ≤ elapsed w' ≤ now)%Z ∧
  match r with
  | Some rid => (∃ d, dl w rid = Some d ∧ (d ≤ now)%Z) ∧
                ∀ k, dl w' k = if decide (rid = k) then None else dl w k
  | None => pending w' = [] ∧ elapsed w' = now ∧ (∀ k, dl w' k = dl w k) ∧
            ∀ k d, dl w k = Some d → (now < d)%Z
  end.
Proof.
  intros Hw Hnow Hle. unfold try_pop_expired.
  pose proof (drain_pending_winv _ now w Hw eq_refl Hle) as H1.
  destruct (drain_pending _ now w) as [[rid|] w1].
  { destruct H1 as (Hw1 & He1 & Hr). split; [done|]. split; [lia|done]. }
  destruct H1 as (Hw1 & He1 & Hp1 & Hd1).
  set (w2 := if (elapsed w1 <? now)%Z then advance_to w1 now else w1).
  assert (H2 : winv w2 ∧ elapsed w2 = now ∧ deadlines w2 = deadlines w1).
  { unfold w2. case_cmp; [apply advance_winv; [done..|lia]|].
    split; [done|]. split; [lia|done]. }
  destruct H2 as (Hw2 & He2 & Hd2).
  pose proof (drain_pending_winv _ now w2 Hw2 eq_refl ltac:(lia)) as H3.
  destruct (drain_pending _ now w2) as [[rid|] w3]; destruct H3 as (Hw3 & He3 & Hr).
  - rewrite Hd2 in Hr. split; [done|]. split; [lia|]. destruct Hr as [(d & Hd & Hdn) Hr].
    split; [exists d; by rewrite <- Hd1|]. intros k. by rewrite Hr, Hd1.
  - destruct Hr as [Hp3 Hd3]. split; [done|]. split; [lia|]. split; [done|]. split; [lia|].
    assert (Hdl : ∀ k, dl w3 k = dl w k) by (intros; by rewrite Hd3, Hd2, Hd1).
    split; [done|]. intros k d Hd. rewrite <- Hdl in Hd.
    destruct (Z.lt_ge_cases now d) as [|Hge]; [done|].
    destruct Hw3 as (HG & _). rewrite He3, He2 in HG.
    pose proof (ginv_placed_pending _ _ _ _ HG Hd Hge) as Hin. rewrite Hp3 in Hin.
    by apply not_elem_of_nil in Hin.
Qed.

(** ** Construction *)

Lemma new_winv : winv new.
Proof.
  assert (Hat : ∀ l s i rid, slot_at new l s !! i ≠ Some rid).
  { intros l s i rid Hl. assert (in_range l s) as [Hlv Hs].
    { eapply slot_at_lookup_range, Hl. split; [done|].
      intros l' lv Hlv. apply lookup_replicate in Hlv as [-> _]. apply length_replicate. }
    unfold slot_at, new in Hl. cbn [levels] in Hl.
    rewrite lookup_replicate_2 in Hl by done. cbn [mbind option_bind] in Hl.
    rewrite lookup_replicate_2 in Hl by done. simpl in Hl. by rewrite lookup_nil in Hl. }
  assert (Hdl : ∀ k, dl new k = None) by exact (st_get_empty (F := VecMap.VecMap) Z).
  assert (Hpos : ∀ k, pos new k = None) by exact (st_get_empty (F := VecMap.VecMap) WheelPos).
  split; [|split; [done|by split]]. split.
  - split; [done|]. intros l lv Hl. apply lookup_replicate in Hl as [-> _].
    apply length_replicate.
  - split; [done|]. intros l lv Hl. apply lookup_replicate in Hl as [-> Hl].
    change (level_counts new) with (replicate NUM_LEVELS 0). by rewrite lookup_replicate_2.
  - apply VecMap.new_count_wf.
  - intros k d. by rewrite Hdl.
  - constructor.
  - intros k p _. by rewrite Hpos.
  - intros l s i k Hk. by apply Hat in Hk.
  - intros k _. rewrite Hdl. by intros [].
  - intros k _. rewrite Hpos. by intros [].
  - by intros k ?%not_elem_of_nil.
  - by intros k ?%not_elem_of_nil.
  - by intros k d ?%not_elem_of_nil.
  - intros k p d _. by rewrite Hpos.
Qed.
