(* ===== verification/WheelScan.v ===== *)
(** * WheelScan: the earliest deadline

    [next_deadline] reads the cached minimum or scans the wheel.  The scan of a
    level walks its ring from the slot after the clock: ring order is deadline
    order, so the first occupied slot holds the minimum of the level, and a level
    whose first occupied slot lies beyond the bound is not scanned at all. *)

From S2P Require Import Prelude Store VecMap Wheel WheelInv WheelOps.
Import Wheel.

(** ** Minima of predicates *)

(** [r] is the least element of [P], or [P] is empty. *)
Definition is_min (r : option Z) (P : Z → Prop) : Prop :=
  match r with
  | Some m => P m ∧ ∀ d, P d → (m ≤ d)%Z
  | None => ∀ d, ¬ P d
  end.

Lemma is_min_equiv r (P Q : Z → Prop) : (∀ d, P d ↔ Q d) → is_min r P → is_min r Q.
Proof. intros HPQ. destruct r as [m|]; simpl; setoid_rewrite HPQ; done. Qed.

Lemma is_min_merge_min r P d :
  is_min r P → is_min (merge_min r d) (λ x, P x ∨ x = d).
Proof.
  destruct r as [m|]; simpl.
  - intros [Hm Hlow]. case_cmp; simpl; (split; [naive_solver|]); intros x [Hx|Hx]; try lia;
      specialize (Hlow x Hx); lia.
  - intros Hno. split; [by right|]. intros x [Hx|Hx]; [by destruct (Hno x)|lia].
Qed.

(** The scans are folds that merge the deadlines of a list of ids. *)
Lemma is_min_fold (f : Z → option Z) (g : option Z → Z → option Z) l :
  (∀ b rid, g b rid = match f rid with Some d => merge_min b d | None => b end) →
  ∀ b P, is_min b P →
  is_min (foldl g b l) (λ d, P d ∨ ∃ rid, rid ∈ l ∧ f rid = Some d).
Proof.
  intros Hg. induction l as [|rid l IH]; intros b P Hb; simpl.
  - eapply is_min_equiv, Hb. intros d. split; [by left|].
    intros [?|(r & []%not_elem_of_nil & _)]. done.
  - rewrite Hg. destruct (f rid) as [d0|] eqn:E.
    + eapply is_min_equiv, IH, is_min_merge_min, Hb. intros d. simpl.
      setoid_rewrite elem_of_cons. naive_solver.
    + eapply is_min_equiv, IH, Hb. intros d. simpl. setoid_rewrite elem_of_cons. naive_solver.
Qed.

(** ** Members of a level *)

Section scan.
Context (w : TimerWheel) (Hw : winv w).

Definition member (l : nat) (d : Z) : Prop :=
  ∃ s rid, rid ∈ slot_at w l s ∧ dl w rid = Some d.

(** The member of a slot has a deadline placed there. *)
Lemma slot_member l s rid :
  rid ∈ slot_at w l s → ∃ d, dl w rid = Some d ∧ placed (elapsed w) l s d ∧ in_range l s.
Proof.
  destruct Hw as (HG & _). intros [i Hi]%list_elem_of_lookup.
  pose proof (gi_slot _ _ _ _ HG _ _ _ _ Hi) as [_ Hp].
  destruct (gi_key _ _ _ _ HG rid (not_elem_of_nil _)) as [d Hd]; [by rewrite Hp|].
  exists d. split; [done|]. split.
  - apply (gi_ok _ _ _ _ HG rid _ d (not_elem_of_nil _) Hp Hd).
  - by eapply slot_at_lookup_range; [apply HG|].
Qed.

Lemma count_zero l : default 0 (level_counts w !! l) = 0 → ∀ d, ¬ member l d.
Proof.
  intros Hc d (s & rid & Hin & Hd). destruct Hw as (HG & _).
  destruct (gi_counts _ _ _ _ HG) as [_ Hcnt]. unfold slot_at in Hin.
  destruct (levels w !! l) as [lv|] eqn:El; simpl in Hin; [|by apply not_elem_of_nil in Hin].
  rewrite (Hcnt _ _ El) in Hc. simpl in Hc. rewrite sum_len_zero in Hc.
  destruct (lv !! s) as [v|] eqn:Es; simpl in Hin; [|by apply not_elem_of_nil in Hin].
  rewrite (Hc _ _ Es) in Hin. by apply not_elem_of_nil in Hin.
Qed.

(** The ring distance of a deadline from the clock. *)
Definition dist (l : nat) (d : Z) : Z := (d / tick l - elapsed w / tick l)%Z.

Definition ring_at (l : nat) (o : Z) : nat :=
  Z.to_nat ((Z.land (Z.shiftr (elapsed w) (shift_of l)) 255 + o) mod 256).

Lemma member_dist l s rid d :
  l < 3 → rid ∈ slot_at w l s → dl w rid = Some d →
  (1 ≤ dist l d ≤ 256)%Z ∧ s = ring_at l (dist l d).
Proof.
  intros Hl Hin Hd. destruct (slot_member _ _ _ Hin) as (d' & Hd' & (Hah & Hs & Hb) & _).
  simplify_eq. specialize (Hb Hl). split; [by apply ring_distance|].
  unfold ring_at. rewrite shiftr_tick, land_255. apply ring_slot_distance.
Qed.

Lemma ring_at_dist l o rid d :
  l < 3 → (1 ≤ o ≤ 256)%Z → rid ∈ slot_at w l (ring_at l o) → dl w rid = Some d → dist l d = o.
Proof.
  intros Hl Ho Hin Hd. destruct (member_dist _ _ _ _ Hl Hin Hd) as [Hdist Hs].
  unfold dist in *. apply (ring_slot _ _ l); [done..|].
  unfold ring_at in Hs. rewrite shiftr_tick, land_255 in Hs. rewrite Hs.
  apply ring_slot_distance.
Qed.

Lemma dist_lt l d d' : (dist l d < dist l d')%Z → (d < d')%Z.
Proof. unfold dist. intros H. apply (div_lt_inv d d' l). lia. Qed.

Lemma scan_members_min l s :
  is_min (scan_members w (slot_at w l s))
    (λ d, ∃ rid, rid ∈ slot_at w l s ∧ dl w rid = Some d).
Proof.
  eapply is_min_equiv, (is_min_fold (λ rid, dl w rid)) with (P := λ _, False); [naive_solver|..].
  - intros [b|] rid; simpl; by repeat case_match.
  - by intros d [].
Qed.

(** What the scan of a level reports. *)
Definition level_min (l : nat) (bound r : option Z) : Prop :=
  match r with
  | Some m => member l m ∧ ∀ d, member l d → (m ≤ d)%Z
  | None => ∀ d, member l d → ∃ b, bound = Some b ∧ (b < d)%Z
  end.

(** At level 0 the members of a slot share their deadline. *)
Lemma level0_same s rid rid' d d' :
  rid ∈ slot_at w 0 s → rid' ∈ slot_at w 0 s → dl w rid = Some d → dl w rid' = Some d' → d = d'.
Proof.
  intros Hr Hr' Hd Hd'.
  destruct (member_dist 0 s rid d ltac:(lia) Hr Hd) as [Hdist Hs].
  rewrite Hs in Hr'. pose proof (ring_at_dist 0 _ rid' d' ltac:(lia) Hdist Hr' Hd') as Heq.
  unfold dist in Heq. rewrite tick_0, !Z.div_1_r in Heq. lia.
Qed.

Lemma scan_offsets_min l bound n o :
  l < 3 → (1 ≤ o)%Z → (Z.of_nat n + o = 257)%Z →
  (∀ d, member l d → (o ≤ dist l d)%Z) →
  level_min l bound (scan_offsets w l bound n o).
Proof.
  intros Hl. revert o. induction n as [|n IH]; intros o Ho Hn Hall; simpl.
  - intros d Hm. specialize (Hall d Hm). destruct Hm as (s & rid & Hin & Hd).
    destruct (member_dist _ _ _ _ Hl Hin Hd). lia.
  - fold (shift_of l). fold (ring_at l o).
    destruct (slot_at w l (ring_at l o)) as [|rid0 v] eqn:Hv.
    { apply IH; [lia..|]. intros d Hm. specialize (Hall d Hm).
      destruct (decide (dist l d = o)) as [Heq|]; [|lia].
      destruct Hm as (s & rid & Hin & Hd).
      destruct (member_dist _ _ _ _ Hl Hin Hd) as [_ ->].
      rewrite Heq, Hv in Hin. by apply not_elem_of_nil in Hin. }
    rewrite <- Hv. assert (Hin0 : rid0 ∈ slot_at w l (ring_at l o)) by (rewrite Hv; set_solver).
    destruct (slot_member _ _ _ Hin0) as (d0 & Hd0 & _).
    assert (Hfirst : ∀ m, (∃ rid, rid ∈ slot_at w l (ring_at l o) ∧ dl w rid = Some m) →
      (∀ rid d, rid ∈ slot_at w l (ring_at l o) → dl w rid = Some d → (m ≤ d)%Z) →
      level_min l bound (Some m)).
    { intros m (rid & Hin & Hm) Hlow. split; [by exists (ring_at l o), rid|].
      intros d Hmem. specialize (Hall d Hmem).
      destruct (decide (dist l d = o)) as [Heq|Hne].
      - destruct Hmem as (s & rid' & Hin' & Hd').
        destruct (member_dist _ _ _ _ Hl Hin' Hd') as [_ Hs]. rewrite Heq in Hs. subst s.
        by eapply Hlow.
      - enough (m < d)%Z by lia. apply (dist_lt l).
        rewrite (ring_at_dist l o rid m); [lia|done|lia|done..]. }
    destruct (match bound with Some b => _ | None => _ end) eqn:Hbd.
    { destruct bound as [b|]; [|done]. apply Z.ltb_lt in Hbd. rewrite !shiftr_tick in Hbd.
      intros d Hmem. specialize (Hall d Hmem). exists b. split; [done|].
      apply (div_lt_inv b d l). unfold dist in Hall. lia. }
    destruct (Nat.eqb_spec l 0) as [->|Hl0].
    + rewrite Hd0. apply Hfirst; [by exists rid0|]. intros rid d Hin Hd.
      by rewrite (level0_same _ _ _ _ _ Hin0 Hin Hd0 Hd).
    + pose proof (scan_members_min l (ring_at l o)) as Hmin.
      destruct (scan_members w _) as [best|]; simpl in Hmin.
      * destruct Hmin as [Hex Hlow]. apply Hfirst; [done|]. intros rid d Hin Hd. apply Hlow. eauto.
      * destruct (Hmin d0). eauto.
Qed.

Lemma scan_level_min_spec l bound : l < 3 → level_min l bound (scan_level_min w l bound).
Proof.
  intros Hl. unfold scan_level_min. destruct (Nat.eqb_spec (default 0 (level_counts w !! l)) 0).
  - intros d Hm. by apply count_zero in Hm.
  - apply scan_offsets_min; [done|lia..|]. intros d (s & rid & Hin & Hd).
    by apply (member_dist _ _ _ _ Hl Hin Hd).
Qed.

Lemma scan_level3_min_spec : is_min (scan_level3_min w) (member 3).
Proof.
  unfold scan_level3_min. destruct (Nat.eqb_spec (default 0 (level_counts w !! 3)) 0) as [Hc|_].
  { intros d. by apply count_zero. }
  assert (Hgen : ∀ ss b P, is_min b P →
    is_min (foldl (λ best s, foldl (λ best rid,
      match dl w rid with Some d => merge_min best d | None => best end) best (slot_at w 3 s)) b ss)
      (λ d, P d ∨ ∃ s rid, s ∈ ss ∧ rid ∈ slot_at w 3 s ∧ dl w rid = Some d)).
  { induction ss as [|s ss IH]; intros b P Hb; simpl.
    - eapply is_min_equiv, Hb. intros d. split; [by left|].
      intros [?|(? & ? & Hin & _)]; [done|]. by apply not_elem_of_nil in Hin.
    - eapply is_min_equiv, IH, (is_min_fold (λ rid, dl w rid)), Hb; [|done].
      intros d. simpl. setoid_rewrite elem_of_cons. naive_solver. }
  eapply is_min_equiv, (Hgen _ None (λ _, False)); [|by intros d []].
  intros d. split.
  - intros [[]|(s & rid & _ & Hin & Hd)]. by exists s, rid.
  - intros (s & rid & Hin & Hd). right. exists s, rid. split; [|done].
    destruct (slot_member _ _ _ Hin) as (_ & _ & _ & [_ Hs]). apply elem_of_seq. lia.
Qed.

(** ** The whole wheel *)

(** Every timer is pending or a member of one of the four levels. *)
Lemma timer_cases d :
  (∃ k, dl w k = Some d) ↔
  (∃ rid, rid ∈ pending w ∧ dl w rid = Some d) ∨ ∃ l, l < 4 ∧ member l d.
Proof.
  split; [|unfold member; naive_solver]. intros [k Hk]. destruct Hw as (HG & _).
  destruct (gi_dl _ _ _ _ HG k (not_elem_of_nil _)) as [[p Hp]|Hin]; [by rewrite Hk| |].
  - right. pose proof (gi_pos _ _ _ _ HG k p (not_elem_of_nil _) Hp) as Hat.
    exists (level p). split.
    + by apply slot_at_lookup_range in Hat as [? _]; [|apply HG].
    + exists (slot p), k. split; [by eapply list_elem_of_lookup_2|done].
  - left. eauto.
Qed.

(** Merging the report of a level: members that the bound hid are not minimal. *)
Lemma is_min_merge_opt b c P l bound :
  is_min b P → level_min l bound c → (∀ b0, bound = Some b0 → P b0) →
  is_min (merge_opt b c) (λ d, P d ∨ member l d).
Proof.
  intros Hb Hc HP. destruct c as [m|]; simpl in *.
  - destruct Hc as [Hm Hlow]. pose proof (is_min_merge_min b P m Hb) as Hmm.
    destruct (merge_min b m) as [r|]; simpl in *; [|naive_solver].
    destruct Hmm as [Hr Hr']. split; [naive_solver|]. intros d [Hd|Hd]; [by apply Hr'; left|].
    specialize (Hlow d Hd). specialize (Hr' m (or_intror eq_refl)). lia.
  - destruct b as [r|]; simpl in *.
    + split; [by left; apply Hb|]. intros d [Hd|Hd]; [by apply Hb|].
      destruct (Hc d Hd) as (b0 & Hb0 & Hlt). apply HP, Hb in Hb0. lia.
    + intros d [Hd|Hd]; [by apply (Hb d)|].
      destruct (Hc d Hd) as (b0 & Hb0 & _). by apply HP, Hb in Hb0.
Qed.

Lemma scan_wheel_min_spec : is_min (scan_wheel_min w) (λ d, ∃ k, dl w k = Some d).
Proof.
  unfold scan_wheel_min. set (pb := foldl _ None (pending w)).
  assert (Hpb : is_min pb (λ d, ∃ rid, rid ∈ pending w ∧ dl w rid = Some d)).
  { eapply is_min_equiv, (is_min_fold (λ rid, dl w rid)) with (P := λ _, False);
      [naive_solver|done|by intros d []]. }
  destruct pb as [m|].
  - destruct Hpb as [(rid & Hin & Hd) Hlow]. split; [eauto|].
    intros d [(rid' & Hin' & Hd')|(l & Hl & s & rid' & Hin' & Hd')]%timer_cases; [eauto|].
    destruct (slot_member _ _ _ Hin') as (d' & Hd'' & (Hah & _) & _). simplify_eq.
    destruct Hw as (HG & _). pose proof (gi_pend _ _ _ _ HG rid m Hin Hd).
    apply div_lt_inv in Hah. lia.
  - pose proof (scan_level_min_spec 0 None ltac:(lia)) as H0.
    set (c0 := scan_level_min w 0 None) in *.
    pose proof (scan_level_min_spec 1 c0 ltac:(lia)) as H1.
    pose proof (scan_level_min_spec 2 c0 ltac:(lia)) as H2.
    pose proof scan_level3_min_spec as H3.
    assert (H3' : level_min 3 None (scan_level3_min w)).
    { destruct (scan_level3_min w); [done|]. intros d Hd. by apply H3 in Hd. }
    assert (Hc0 : ∀ b0, c0 = Some b0 → member 0 b0) by (by intros b0 Heq; rewrite Heq in H0; apply H0).
    assert (M : is_min None (λ _ : Z, False)) by (by intros d []).
    apply (is_min_merge_opt _ _ _ _ _) with (1 := M) in H0; [|done].
    apply (is_min_merge_opt _ _ _ _ _) with (1 := H0) in H1; [|by intros; right; apply Hc0].
    apply (is_min_merge_opt _ _ _ _ _) with (1 := H1) in H2; [|by intros; left; right; apply Hc0].
    apply (is_min_merge_opt _ _ _ _ _) with (1 := H2) in H3'; [|done].
    eapply is_min_equiv, H3'.
    intros d. rewrite timer_cases. split.
    + intros [[[[[]|Hm]|Hm]|Hm]|Hm]; right; [exists 0|exists 1|exists 2|exists 3]; (split; [lia|done]).
    + intros [(rid & Hin & Hd)|(l & Hl & Hm)]; [destruct (Hpb d); eauto|].
      destruct l as [|[|[|[|l]]]]; tauto || lia.
Qed.
End scan.
