(* ===== verification/WheelSpec.v ===== *)
(** * WheelSpec: the timer wheel refines a map from ids to deadlines

    The abstract timer queue is a finite map with a clock ([tq]); [qstep] is the
    relation between its states, the operations of the wheel's interface and
    their answers.  The theorems say that each operation of the wheel keeps the
    source's [full_wf] and is such a step, and that every run of the wheel from
    [new] is a run of the abstract queue. *)

From S2P Require Import Prelude Store VecMap Wheel WheelInv WheelOps WheelScan.
Import Wheel.

(** ** The operations as a transition system *)

(** The abstract queue: deadlines and clock. *)
Record tq := mkTq { tq_map : gmap Z Z; tq_clock : Z }.

Inductive wop :=
  | OpInsert (rid deadline : Z)
  | OpRemove (rid : Z)
  | OpPop (now : Z)
  | OpNext.

Inductive qstep : tq → wop → option Z → tq → Prop :=
  | q_insert q c rid d :
      (c < d)%Z → qstep (mkTq q c) (OpInsert rid d) None (mkTq (<[rid := d]> q) c)
  | q_remove q c rid : qstep (mkTq q c) (OpRemove rid) None (mkTq (base.delete rid q) c)
  | q_pop q c now rid d c' :
      q !! rid = Some d → (d ≤ now)%Z → (c ≤ c' ≤ now)%Z →
      qstep (mkTq q c) (OpPop now) (Some rid) (mkTq (base.delete rid q) c')
  | q_pop_none q c now :
      (c ≤ now)%Z → (∀ k d, q !! k = Some d → (now < d)%Z) →
      qstep (mkTq q c) (OpPop now) None (mkTq q now)
  | q_next q c r :
      is_min r (λ d, ∃ k, q !! k = Some d) → qstep (mkTq q c) OpNext r (mkTq q c).

(** The wheel's answer and next state. *)
Definition wstep (w : TimerWheel) (o : wop) : option Z * TimerWheel :=
  match o with
  | OpInsert rid d => (None, insert w rid d)
  | OpRemove rid => (None, remove w rid)
  | OpPop now => try_pop_expired w now
  | OpNext => (next_deadline w, w)
  end.

(** The caller's side of the contract: machine types, and timers are changed
    only when the last pop found nothing more to expire. *)
Definition op_allowed (w : TimerWheel) (o : wop) : Prop :=
  match o with
  | OpInsert rid d => is_u64 rid ∧ is_u64 d ∧ (elapsed w < d)%Z ∧ pending w = []
  | OpRemove rid => pending w = []
  | OpPop now => is_u64 now ∧ (elapsed w ≤ now)%Z
  | OpNext => True
  end.

Fixpoint wrun (w : TimerWheel) (os : list wop) : list (option Z) * TimerWheel :=
  match os with
  | [] => ([], w)
  | o :: os' =>
      let '(r, w1) := wstep w o in
      let '(rs, w2) := wrun w1 os' in (r :: rs, w2)
  end.

Fixpoint run_allowed (w : TimerWheel) (os : list wop) : Prop :=
  match os with
  | [] => True
  | o :: os' => op_allowed w o ∧ run_allowed (wstep w o).2 os'
  end.

Inductive qrun : tq → list wop → list (option Z) → tq → Prop :=
  | qrun_nil t : qrun t [] [] t
  | qrun_cons t o r t' os rs t'' :
      qstep t o r t' → qrun t' os rs t'' → qrun t (o :: os) (r :: rs) t''.

(** The simulation relation. *)
Definition simulates (w : TimerWheel) (t : tq) : Prop :=
  wheel_ok w ∧ queue w (tq_map t) ∧ elapsed w = tq_clock t.

(** ** The operations against the abstract map *)

Lemma new_queue : queue new ∅.
Proof.
  intros k. etrans; [exact (st_get_empty (F := VecMap.VecMap) Z k)|]. by rewrite lookup_empty.
Qed.

Lemma new_ok : wheel_ok new.
Proof. apply wheel_ok_winv, new_winv. Qed.

Lemma queue_insert w w' q rid d :
  queue w q → (∀ k, dl w' k = if decide (rid = k) then Some d else dl w k) →
  queue w' (<[rid := d]> q).
Proof. intros Hq Hd k. by rewrite Hd, lookup_insert, Hq. Qed.

Lemma queue_delete w w' q rid :
  queue w q → (∀ k, dl w' k = if decide (rid = k) then None else dl w k) →
  queue w' (base.delete rid q).
Proof. intros Hq Hd k. by rewrite Hd, lookup_delete, Hq. Qed.

Lemma empty_pending (w : TimerWheel) rid : pending w = [] → rid ∉ pending w.
Proof. intros ->. apply not_elem_of_nil. Qed.

Lemma next_deadline_min w : winv w → is_min (next_deadline w) (λ d, ∃ k, dl w k = Some d).
Proof.
  intros Hw. pose proof Hw as (HG & Hmin & _). unfold next_deadline, is_empty.
  pose proof (VecMap.is_empty_spec (deadlines w) (gi_occ _ _ _ _ HG)) as He.
  destruct (VecMap.is_empty (deadlines w)).
  - intros d [k Hk]. rewrite (proj1 He eq_refl k) in Hk. done.
  - unfold cached_min_valid in Hmin. destruct (cached_min w) as [m|].
    + destruct Hmin. split; [done|]. intros d [k Hk]. eauto.
    + by apply scan_wheel_min_spec.
Qed.

Lemma wstep_simulates w t o :
  simulates w t → op_allowed w o →
  ∃ t', qstep t o (wstep w o).1 t' ∧ simulates (wstep w o).2 t'.
Proof.
  destruct t as [q c]. unfold simulates. simpl. setoid_rewrite wheel_ok_winv.
  intros (Hw & Hq & <-). destruct o as [rid d|rid|now|]; simpl.
  - intros (Hr & Hd & Hlt & Hp). eexists. split; [by constructor|]. simpl.
    destruct (insert_winv w rid d Hw (empty_pending _ _ Hp) Hr Hd Hlt) as (Hw' & _ & He' & Hdl).
    split; [done|]. split; [by eapply queue_insert|done].
  - intros Hp. eexists. split; [by constructor|]. simpl.
    destruct (remove_winv w rid Hw (empty_pending _ _ Hp)) as (Hw' & _ & He' & Hdl).
    split; [done|]. split; [by eapply queue_delete|done].
  - intros (Hn & Hle). pose proof (try_pop_winv w now Hw Hn Hle) as Hpop.
    destruct (try_pop_expired w now) as [[rid|] w']; simpl.
    + destruct Hpop as (Hw' & He' & (d & Hd & Hdn) & Hdl). rewrite Hq in Hd.
      eexists. split; [by eapply q_pop|]. simpl.
      split; [done|]. split; [by eapply queue_delete|done].
    + destruct Hpop as (Hw' & _ & _ & He' & Hdl & Hmin).
      eexists. split; [apply q_pop_none; [done|]|]; simpl.
      * intros k d Hk. rewrite <- Hq in Hk. by eapply Hmin.
      * split; [done|]. split; [|done]. intros k. by rewrite Hdl.
  - intros _. eexists. split; [apply q_next|]; simpl; [|done].
    eapply is_min_equiv, next_deadline_min, Hw. intros d. by setoid_rewrite Hq.
Qed.

(** ** The cached minimum is never set *)

Lemma invalidate_min_None w d : cached_min w = None → cached_min (invalidate_min w d) = None.
Proof. unfold invalidate_min. intros H. by rewrite H. Qed.

Lemma remove_inner_min w rid : cached_min (wheel_remove_inner w rid) = cached_min w.
Proof. apply remove_inner_frame. Qed.

Lemma drain_pending_None n now w :
  cached_min w = None → cached_min (drain_pending n now w).2 = None.
Proof.
  revert w. induction n as [|n IH]; intros w Hc; simpl; [done|].
  destruct (vec_pop _) as [[rid p]|]; [|done]. case_match; [|by apply IH].
  case_match; [|by apply IH]. simpl. by apply invalidate_min_None.
Qed.

Lemma drain_slots_min now l ss w :
  cached_min (foldl (drain_slot now l) w ss) = cached_min w.
Proof.
  revert w. induction ss as [|s ss IH]; intros w; simpl; [done|]. rewrite IH.
  unfold drain_slot. simpl.
  assert (H : ∀ v w0, cached_min (foldl (drain_entry now) w0 v) = cached_min w0).
  { induction v as [|rid v IHv]; intros w0; simpl; [done|]. rewrite IHv.
    apply WheelOps.drain_entry_timers. }
  by rewrite H.
Qed.

Lemma advance_levels_min n l e now w : cached_min (advance_levels n l e now w) = cached_min w.
Proof.
  revert l w. induction n as [|n IH]; intros l w; simpl; [done|].
  case_match; [done|]. rewrite IH. apply drain_slots_min.
Qed.

Lemma insert_None w rid d : cached_min w = None → cached_min (insert w rid d) = None.
Proof.
  intros Hc. unfold insert.
  destruct (level_slot _ _) as [l s]. cbn [cached_min set_positions slot_push count_update
    set_level_counts slot_update set_levels set_deadlines].
  assert (H : cached_min (wheel_remove_inner
    (match dl w rid with Some d0 => invalidate_min w d0 | None => w end) rid) = None).
  { rewrite remove_inner_min. case_match; [by apply invalidate_min_None|done]. }
  rewrite H. cbn. by rewrite H.
Qed.

Lemma wstep_None w o : cached_min w = None → cached_min (wstep w o).2 = None.
Proof.
  intros Hc. destruct o as [rid d|rid|now|]; simpl.
  - by apply insert_None.
  - unfold remove. case_match; [|done]. simpl. rewrite remove_inner_min.
    by apply invalidate_min_None.
  - unfold try_pop_expired. pose proof (drain_pending_None (length (pending w)) now w Hc) as H1.
    destruct (drain_pending _ now w) as [[rid|] w1]; [done|]. simpl in H1.
    apply drain_pending_None. case_match; [|done].
    etrans; [apply advance_levels_min|done].
  - done.
Qed.

(** ** Properties *)

(** [TimerWheel::insert]: on a well-formed wheel with an empty pending list
    and a deadline after the clock, inserting (or re-inserting, which moves the
    timer) keeps the wheel well formed, leaves the clock and the pending list
    alone and sets exactly the deadline of [rid]. *)
Theorem insert_correct w q rid d :
  wheel_ok w → pending w = [] → is_u64 rid → is_u64 d → (elapsed w < d)%Z → queue w q →
  let w' := insert w rid d in
  wheel_ok w' ∧ pending w' = [] ∧ elapsed w' = elapsed w ∧ queue w' (<[rid := d]> q).
Proof.
  rewrite wheel_ok_winv. intros Hw Hp Hr Hd Hlt Hq w'. rewrite wheel_ok_winv.
  destruct (insert_winv w rid d Hw (empty_pending _ _ Hp) Hr Hd Hlt) as (Hw' & Hp' & He' & Hdl).
  unfold w'. rewrite Hp'. split; [done|]. split; [done|]. split; [done|by eapply queue_insert].
Qed.

(** [TimerWheel::remove]: on a well-formed wheel with an empty pending list,
    removing keeps the wheel well formed and deletes exactly [rid]; removing an
    absent timer changes no deadline. *)
Theorem remove_correct w q rid :
  wheel_ok w → pending w = [] → queue w q →
  let w' := remove w rid in
  wheel_ok w' ∧ pending w' = [] ∧ elapsed w' = elapsed w ∧ queue w' (base.delete rid q).
Proof.
  rewrite wheel_ok_winv. intros Hw Hp Hq w'. rewrite wheel_ok_winv.
  destruct (remove_winv w rid Hw (empty_pending _ _ Hp)) as (Hw' & Hp' & He' & Hdl).
  unfold w'. rewrite Hp'. split; [done|]. split; [done|]. split; [done|by eapply queue_delete].
Qed.

(** [TimerWheel::try_pop_expired]: a returned id is a timer whose deadline
    has passed, and exactly it is removed; when nothing is returned no timer is
    due, no deadline changed, and the clock has reached [now] with an empty
    pending list.  The clock never moves back nor past [now]. *)
Theorem try_pop_expired_correct w q now :
  wheel_ok w → is_u64 now → (elapsed w ≤ now)%Z → queue w q →
  let '(r, w') := try_pop_expired w now in
  wheel_ok w' ∧ (elapsed w ≤ elapsed w' ≤ now)%Z ∧
  match r with
  | Some rid => (∃ d, q !! rid = Some d ∧ (d ≤ now)%Z) ∧ queue w' (base.delete rid q)
  | None => (∀ k d, q !! k = Some d → (now < d)%Z) ∧ queue w' q ∧
            pending w' = [] ∧ elapsed w' = now
  end.
Proof.
  rewrite wheel_ok_winv. intros Hw Hn Hle Hq. pose proof (try_pop_winv w now Hw Hn Hle) as H.
  destruct (try_pop_expired w now) as [[rid|] w']; rewrite wheel_ok_winv.
  - destruct H as (Hw' & He & (d & Hd & Hdn) & Hdl). rewrite Hq in Hd.
    split; [done|]. split; [done|]. split; [by exists d|by eapply queue_delete].
  - destruct H as (Hw' & He & Hp & He' & Hdl & Hmin).
    split; [done|]. split; [done|]. split; [intros k d; rewrite <- Hq; apply Hmin|].
    split; [|done]. intros k. by rewrite Hdl.
Qed.

(** C36. [TimerWheel::next_deadline] on a well-formed wheel is the least deadline
    of the timers, and [None] exactly when there is no timer: the ring scan with
    its per-level bounds misses nothing. *)
Theorem next_deadline_correct w q :
  wheel_ok w → queue w q →
  match next_deadline w with
  | Some d => (∃ k, q !! k = Some d) ∧ ∀ k d', q !! k = Some d' → (d ≤ d')%Z
  | None => q = ∅
  end.
Proof.
  rewrite wheel_ok_winv. intros Hw Hq. pose proof (next_deadline_min w Hw) as Hm.
  destruct (next_deadline w) as [d|]; simpl in Hm.
  - destruct Hm as [[k Hk] Hlow]. rewrite Hq in Hk. split; [eauto|].
    intros k' d' Hk'. rewrite <- Hq in Hk'. eauto.
  - apply map_eq. intros k. rewrite lookup_empty, <- Hq.
    destruct (dl w k) as [d|] eqn:E; [|done]. destruct (Hm d). eauto.
Qed.

(** C7. Every run of the wheel's operations from [new], under the callers'
    contract, is a run of the abstract timer queue with the same answers: the
    hierarchical wheel refines a map with a clock. *)
Theorem wheel_refines_queue os :
  run_allowed new os →
  ∃ t', qrun (mkTq ∅ 0) os (wrun new os).1 t' ∧ simulates (wrun new os).2 t'.
Proof.
  assert (Hgen : ∀ w t, simulates w t → run_allowed w os →
    ∃ t', qrun t os (wrun w os).1 t' ∧ simulates (wrun w os).2 t').
  { induction os as [|o os IH]; intros w t Hs; simpl.
    - intros _. exists t. split; [constructor|done].
    - intros [Ho Hos]. destruct (wstep_simulates w t o Hs Ho) as (t1 & Hq & Hs1).
      destruct (wstep w o) as [r w1]. destruct (IH w1 t1 Hs1 Hos) as (t2 & Hr & Hs2).
      simpl in *. destruct (wrun w1 os) as [rs w2]. exists t2. split; [by econstructor|done]. }
  apply Hgen. split; [rewrite wheel_ok_winv; apply new_winv|]. split; [|done].
  apply new_queue.
Qed.

(** No sequence of operations, allowed or not, ever fills [cached_min]: it
    is [None] in [new], and every assignment of the source needs it to be [Some]
    already or clears it.  So [next_deadline] never takes its fast path and each
    call on a non-empty wheel is a scan. *)
Theorem cached_min_never_set os :
  let w := (wrun new os).2 in
  cached_min w = None ∧ next_deadline w = if is_empty w then None else scan_wheel_min w.
Proof.
  assert (Hgen : ∀ w, cached_min w = None → cached_min (wrun w os).2 = None).
  { induction os as [|o os IH]; intros w Hc; simpl; [done|].
    pose proof (wstep_None w o Hc) as H1. destruct (wstep w o) as [r w1]. simpl in H1.
    specialize (IH w1 H1). by destruct (wrun w1 os). }
  intros w. assert (Hc : cached_min w = None) by by apply Hgen.
  split; [done|]. unfold next_deadline. by rewrite Hc.
Qed.

(** [TimerWheel::advance_to] keeps the wheel well formed, moves the clock
    to [now], changes no deadline, and afterwards every timer that is due is in
    the pending list. *)
Theorem advance_to_correct w now :
  wheel_ok w → is_u64 now → (elapsed w ≤ now)%Z →
  let w' := advance_to w now in
  wheel_ok w' ∧ elapsed w' = now ∧ deadlines w' = deadlines w ∧
  ∀ rid d, dl w rid = Some d → (d ≤ now)%Z → rid ∈ pending w'.
Proof.
  rewrite wheel_ok_winv. intros Hw Hn Hle w'. rewrite wheel_ok_winv.
  destruct (advance_winv w now Hw Hn Hle) as (Hw' & He & Hd).
  split; [done|]. split; [done|]. split; [done|].
  intros rid d Hrd Hdn. destruct Hw' as (HG & _). rewrite He in HG.
  rewrite <- Hd in Hrd. by apply (WheelOps.ginv_placed_pending _ _ _ _ HG Hrd).
Qed.

(** ** Witnesses: a wheel with one timer at each of two levels *)

Definition sample : TimerWheel := insert (insert new 7 300) 9 40.

Lemma sample_ok : wheel_ok sample ∧ pending sample = [].
Proof.
  assert (H1 : winv (insert new 7 300)).
  { apply insert_winv; [apply new_winv|apply not_elem_of_nil|u64|u64|simpl; lia]. }
  assert (Hp : pending (insert new 7 300) = []) by reflexivity.
  split; [|reflexivity]. apply wheel_ok_winv.
  apply insert_winv; [done|rewrite Hp; apply not_elem_of_nil|u64|u64|].
  vm_compute. done.
Qed.

Lemma sample_queue : queue sample (<[9 := 40]> (<[7 := 300]> ∅))%Z.
Proof.
  apply queue_insert with (insert new 7 300); [apply queue_insert with new; [apply new_queue|]|].
  - apply insert_winv; [apply new_winv|apply not_elem_of_nil|u64|u64|simpl; lia].
  - apply insert_winv; [|apply not_elem_of_nil|u64|u64|vm_compute; done].
    apply insert_winv; [apply new_winv|apply not_elem_of_nil|u64|u64|simpl; lia].
Qed.

Lemma insert_correct_witness : queue (insert sample 7 70000) (<[7 := 70000]> (<[9 := 40]> (<[7 := 300]> ∅)))%Z.
Proof.
  apply (insert_correct sample (<[9 := 40]> (<[7 := 300]> ∅))%Z 7 70000);
    [apply sample_ok|apply sample_ok|u64|u64|vm_compute; done|apply sample_queue].
Defined.

Lemma remove_correct_witness : queue (remove sample 9) (base.delete 9 (<[9 := 40]> (<[7 := 300]> ∅)))%Z.
Proof.
  apply (remove_correct sample (<[9 := 40]> (<[7 := 300]> ∅))%Z 9);
    [apply sample_ok|apply sample_ok|apply sample_queue].
Defined.

Lemma try_pop_expired_correct_witness :
  (try_pop_expired sample 50).1 = Some 9%Z ∧ wheel_ok (try_pop_expired sample 50).2.
Proof.
  split; [vm_compute; reflexivity|].
  assert (H := try_pop_expired_correct sample _ 50 (proj1 sample_ok)
    ltac:(u64) ltac:(vm_compute; done) sample_queue).
  destruct (try_pop_expired sample 50) as [r w']. exact (proj1 H).
Defined.

Lemma next_deadline_correct_witness :
  next_deadline sample = Some 40%Z ∧
  match next_deadline sample with
  | Some d => (∃ k, (<[9 := 40]> (<[7 := 300]> (∅ : gmap Z Z)))%Z !! k = Some d) ∧
              ∀ k d', (<[9 := 40]> (<[7 := 300]> (∅ : gmap Z Z)))%Z !! k = Some d' → (d ≤ d')%Z
  | None => (<[9 := 40]> (<[7 := 300]> (∅ : gmap Z Z)))%Z = ∅
  end.
Proof.
  split; [vm_compute; reflexivity|].
  exact (next_deadline_correct sample _ (proj1 sample_ok) sample_queue).
Defined.

Definition sample_run : list wop :=
  [OpInsert 7 300; OpInsert 9 40; OpNext; OpPop 50; OpPop 60; OpRemove 7; OpNext]%Z.

Lemma wheel_refines_queue_witness :
  (wrun new sample_run).1 = [None; None; Some 40; Some 9; None; None; None]%Z ∧
  ∃ t', qrun (mkTq ∅ 0) sample_run (wrun new sample_run).1 t' ∧ simulates (wrun new sample_run).2 t'.
Proof.
  split; [vm_compute; reflexivity|].
  apply (wheel_refines_queue sample_run). vm_compute.
  repeat match goal with |- _ ∧ _ => split end; done.
Defined.

Lemma advance_to_correct_witness :
  (9 ∈ pending (advance_to sample 45))%Z ∧ wheel_ok (advance_to sample 45).
Proof.
  assert (H := advance_to_correct sample 45 (proj1 sample_ok)
    ltac:(u64) ltac:(vm_compute; done)).
  split; [|exact (proj1 H)]. destruct H as (_ & _ & _ & H).
  apply (H 9 40)%Z; [vm_compute; reflexivity|lia].
Defined.
