(* ===== verification/TidLedger.v ===== *)
(** * TidLedger: the bit set of [lion-executor/src/collections/tid_ledger.rs]

    One bit per task id, packed in 64-bit words; [mark] grows the vector of words
    one zero word at a time until the word of the id exists. *)

From S2P Require Import Prelude.

Module TidLedger.

Definition new : list Z := [].

Definition contains (words : list Z) (tid : Z) : bool :=
  let w64 := (tid / 64)%Z in
  if (Z.of_nat (length words) <=? w64)%Z then false
  else
    let bit := Z.land (Z.shiftr (default 0%Z (words !! Z.to_nat w64)) (tid mod 64)) 1 in
    (bit =? 1)%Z.

(** [while words.len() <= w64 { words.push(0) }]; [fuel] bounds the iterations. *)
Fixpoint grow (fuel : nat) (words : list Z) (w64 : Z) : list Z :=
  match fuel with
  | 0 => words
  | S fuel' =>
      if (Z.of_nat (length words) <=? w64)%Z then grow fuel' (words ++ [0%Z]) w64 else words
  end.

Definition mark (words : list Z) (tid : Z) : list Z :=
  let w64 := (tid / 64)%Z in
  let b := (tid mod 64)%Z in
  let words := grow (Z.to_nat (w64 + 1 - Z.of_nat (length words))) words w64 in
  let w := Z.to_nat w64 in
  let word := default 0%Z (words !! w) in
  let updated := Z.lor word (Z.shiftl 1 b) in
  <[w := updated]> words.

(** Every word is a 64-bit value. *)
Definition words_ok (words : list Z) : Prop := Forall is_u64 words.

(** ** Lemmas *)

Lemma grow_eq fuel words w64 :
  (w64 + 1 - Z.of_nat (length words) ≤ Z.of_nat fuel)%Z →
  grow fuel words w64 = words ++ replicate (Z.to_nat (w64 + 1 - Z.of_nat (length words))) 0%Z.
Proof.
  revert words. induction fuel as [|fuel IH]; intros words Hf; simpl.
  - replace (Z.to_nat _) with 0 by lia. by rewrite app_nil_r.
  - case_cmp.
    + rewrite IH by (rewrite length_app; simpl; lia). rewrite length_app. simpl.
      rewrite <- app_assoc. f_equal.
      replace (Z.to_nat (w64 + 1 - Z.of_nat (length words)))
        with (S (Z.to_nat (w64 + 1 - Z.of_nat (length words + 1)))) by lia. done.
    + replace (Z.to_nat _) with 0 by lia. by rewrite app_nil_r.
Qed.

(** The word at an index that may not exist yet. *)
Definition word_at (words : list Z) (w : nat) : Z := default 0%Z (words !! w).

Lemma word_at_grow fuel words w64 w :
  (w64 + 1 - Z.of_nat (length words) ≤ Z.of_nat fuel)%Z →
  word_at (grow fuel words w64) w = word_at words w.
Proof.
  intros Hf. unfold word_at. rewrite grow_eq by done.
  destruct (decide (w < length words)).
  - by rewrite lookup_app_l.
  - rewrite lookup_app_r, (lookup_ge_None_2 words) by lia. simpl.
    destruct (replicate _ _ !! _) as [x|] eqn:E; [|done].
    apply lookup_replicate in E as [-> _]. done.
Qed.

Lemma testbit_land_1 z b : (0 ≤ b)%Z → (Z.land (Z.shiftr z b) 1 =? 1)%Z = Z.testbit z b.
Proof.
  intros Hb. change (Z.land (Z.shiftr z b) 1) with (Z.land (Z.shiftr z b) (Z.ones 1)).
  rewrite Z.land_ones by lia. change (2 ^ 1)%Z with 2%Z.
  rewrite <- Z.bit0_mod, Z.shiftr_spec, Z.add_0_l by lia. by destruct (Z.testbit z b).
Qed.

(** A bit of a missing word is clear, so the bounds test of [contains] is exact. *)
Lemma contains_testbit words tid :
  (0 ≤ tid)%Z →
  contains words tid = Z.testbit (word_at words (Z.to_nat (tid / 64))) (tid mod 64).
Proof.
  intros Ht. unfold contains, word_at. cbv zeta.
  pose proof (Z.mod_pos_bound tid 64 ltac:(lia)).
  assert (0 ≤ tid / 64)%Z by (apply Z.div_pos; lia).
  case_cmp; [|apply testbit_land_1; lia].
  rewrite lookup_ge_None_2 by lia. by rewrite Z.testbit_0_l.
Qed.

Lemma mark_word words tid w :
  (0 ≤ tid)%Z →
  word_at (mark words tid) w =
    if decide (w = Z.to_nat (tid / 64))
    then Z.lor (word_at words w) (Z.shiftl 1 (tid mod 64)) else word_at words w.
Proof.
  intros Ht. assert (0 ≤ tid / 64)%Z by (apply Z.div_pos; lia).
  unfold mark. cbv zeta. unfold word_at at 1. rewrite list_lookup_insert.
  assert (Hf : ∀ n : Z, (n ≤ Z.of_nat (Z.to_nat n))%Z) by lia.
  case_decide as Hd; case_decide as Hw; try done.
  - simpl. subst w. change (default 0%Z (?l !! ?i)) with (word_at l i). by rewrite word_at_grow.
  - by destruct Hd.
  - destruct Hd. split; [done|]. subst w. rewrite grow_eq by apply Hf.
    rewrite length_app, length_replicate. lia.
  - by apply word_at_grow.
Qed.

Lemma contains_new tid : (0 ≤ tid)%Z → contains new tid = false.
Proof. intros. rewrite contains_testbit by done. apply Z.testbit_0_l. Qed.

Lemma contains_mark words tid t :
  (0 ≤ tid)%Z → (0 ≤ t)%Z →
  contains (mark words tid) t = bool_decide (t = tid) || contains words t.
Proof.
  intros Htid Ht. rewrite !contains_testbit, mark_word by done.
  pose proof (Z.mod_pos_bound tid 64 ltac:(lia)). pose proof (Z.mod_pos_bound t 64 ltac:(lia)).
  assert (0 ≤ tid / 64)%Z by (apply Z.div_pos; lia).
  assert (0 ≤ t / 64)%Z by (apply Z.div_pos; lia).
  case_decide as Hw; case_bool_decide as Hb; simpl; try done.
  - subst. rewrite Z.lor_spec, Z.shiftl_spec, Z.sub_diag by lia. apply orb_true_r.
  - rewrite Z.lor_spec, Z.shiftl_spec by lia.
    replace (Z.testbit 1 (t mod 64 - tid mod 64)) with false; [by rewrite orb_false_r|].
    symmetry. assert (t mod 64 ≠ tid mod 64)%Z.
    { intros Heq. apply Hb. rewrite (Z.div_mod t 64), (Z.div_mod tid 64) by lia. lia. }
    destruct (Z.lt_ge_cases (t mod 64 - tid mod 64) 0); [by apply Z.testbit_neg_r|].
    apply Z.bits_above_log2; simpl; lia.
  - subst. done.
Qed.

Lemma mark_words_ok words tid : is_u64 tid → words_ok words → words_ok (mark words tid).
Proof.
  intros Ht Hw. apply Forall_lookup. intros w z Hz.
  assert (Hwa : word_at (mark words tid) w = z) by (unfold word_at; by rewrite Hz).
  assert (Hok : is_u64 (word_at words w)).
  { unfold word_at. destruct (words !! w) as [x|] eqn:E; [|simpl; u64].
    by eapply (Forall_lookup_1 _ _ _ _ Hw). }
  rewrite mark_word in Hwa by u64. case_decide; [|by subst z]. subst z.
  pose proof (Z.mod_pos_bound tid 64 ltac:(lia)).
  assert (0 ≤ Z.lor (word_at words w) (Z.shiftl 1 (tid mod 64)))%Z.
  { apply Z.lor_nonneg. split; [apply Hok|]. apply Z.shiftl_nonneg. lia. }
  split; [done|]. change two64 with (2 ^ 64)%Z.
  destruct (decide (Z.lor (word_at words w) (Z.shiftl 1 (tid mod 64)) = 0)%Z) as [->|]; [done|].
  apply Z.log2_lt_pow2; [lia|]. rewrite Z.log2_lor; [|apply Hok|apply Z.shiftl_nonneg; lia].
  apply Z.max_lub_lt.
  - destruct (decide (word_at words w = 0)%Z) as [->|]; [done|].
    apply Z.log2_lt_pow2; [destruct Hok; lia|apply Hok].
  - rewrite Z.log2_shiftl by lia. simpl. lia.
Qed.

End TidLedger.
