(* ===== verification/ExecLog.v ===== *)
(** * ExecLog: the event log of the executor and its specification

    The vocabulary of [lion-executor-spec]: the events that the executor records,
    the FIFO queue that a log denotes, and the nine invariants E1-E9 of
    [lion-executor/src/proof/invariants.rs].  Task ids are [u64] values in [Z];
    positions in a log are naturals. *)

From S2P Require Import Prelude.

Module ExecLog.

(** ** Events *)

Inductive PollResult := Ready | Pending | Invalid.
Inductive DrainSource := ReactorWake | TaskWake | Deferred.

(** [None] begins the call, [Some tt] ends it. *)
Inductive InboundCall := Tick (result : option unit).

Inductive OutboundCall :=
  | PollTask (task_id : Z) (task : option Z) (result : PollResult)
  | Drain (source : DrainSource) (task_ids : list Z)
  | Park
  | PopInjection (task : option Z).

Inductive ExecutorEvent :=
  | Inbound (c : InboundCall)
  | Outbound (c : OutboundCall).

#[global] Instance poll_result_eq : EqDecision PollResult.
Proof. solve_decision. Defined.
#[global] Instance drain_source_eq : EqDecision DrainSource.
Proof. solve_decision. Defined.
#[global] Instance inbound_eq : EqDecision InboundCall.
Proof. solve_decision. Defined.
#[global] Instance outbound_eq : EqDecision OutboundCall.
Proof. solve_decision. Defined.
#[global] Instance executor_event_eq : EqDecision ExecutorEvent.
Proof. solve_decision. Defined.

Definition Log := list ExecutorEvent.
Implicit Types (l : list ExecutorEvent) (e : ExecutorEvent) (i j k : nat) (tid : Z).

Definition is_tick_begin e : bool :=
  match e with Inbound (Tick None) => true | _ => false end.
Definition is_tick_end e : bool :=
  match e with Inbound (Tick (Some _)) => true | _ => false end.
Definition is_poll_task e : bool :=
  match e with Outbound (PollTask _ _ _) => true | _ => false end.
Definition is_park e : bool :=
  match e with Outbound Park => true | _ => false end.
Definition is_pop_injection e : bool :=
  match e with Outbound (PopInjection _) => true | _ => false end.
Definition is_drain_of (source : DrainSource) e : bool :=
  match e with Outbound (Drain s _) => bool_decide (s = source) | _ => false end.

(** A predicate of the event at a position. *)
Definition at_pos (p : ExecutorEvent → bool) l i : Prop := ∃ e, l !! i = Some e ∧ p e = true.

Abbreviation is_tick_begin_at := (at_pos is_tick_begin).
Abbreviation is_tick_end_at := (at_pos is_tick_end).
Abbreviation is_poll_task_at := (at_pos is_poll_task).
Abbreviation is_park_at := (at_pos is_park).
Abbreviation is_pop_injection_at := (at_pos is_pop_injection).
Abbreviation is_drain_of_at s := (at_pos (is_drain_of s)).

Definition no_tick_begin_between l (start finish : nat) : Prop :=
  ∀ k, start < k ≤ finish → ¬ is_tick_begin_at l k.
Definition no_tick_end_between l (start finish : nat) : Prop :=
  ∀ k, start < k < finish → ¬ is_tick_end_at l k.

(** ** The FIFO queue that a log denotes *)

Fixpoint remove_first_occurrence (s : list Z) tid : list Z :=
  match s with
  | [] => []
  | x :: s' => if decide (x = tid) then s' else x :: remove_first_occurrence s' tid
  end.

Definition fifo_step (q : list Z) e : list Z :=
  match e with
  | Outbound (PopInjection (Some t)) => q ++ [t]
  | Outbound (Drain _ tids) => q ++ tids
  | Outbound (PollTask tid _ _) => remove_first_occurrence q tid
  | _ => q
  end.

(** The queue just before position [i]. *)
Fixpoint fifo_queue_at l i : list Z :=
  match i with
  | 0 => []
  | S i' =>
      let prev_queue := fifo_queue_at l i' in
      match l !! i' with Some e => fifo_step prev_queue e | None => prev_queue end
  end.

Definition is_fifo_head_at l i tid : Prop := head (fifo_queue_at l i) = Some tid.

Definition fifo_queue_matches l (queue : list Z) : Prop := fifo_queue_at l (length l) = queue.

(** ** Histories *)

Definition tid_was_injected_before l i tid : Prop :=
  ∃ j, j < i ∧ l !! j = Some (Outbound (PopInjection (Some tid))).

Definition tid_returned_ready_before l i tid : Prop :=
  ∃ j t, j < i ∧ l !! j = Some (Outbound (PollTask tid t Ready)).

Definition tid_is_invalid l i tid : Prop :=
  tid_returned_ready_before l i tid ∨ ¬ tid_was_injected_before l i tid.

Definition tid_unique l tid : Prop :=
  ∀ i j, l !! i = Some (Outbound (PopInjection (Some tid))) →
    l !! j = Some (Outbound (PopInjection (Some tid))) → i = j.

(** [PollTask] events in a log (a segment of a log). *)
Definition count_poll_tasks l : nat := length (filter (λ e, is_poll_task e = true) l).

(** ** The invariants *)

(** E1. *)
Definition inv_park_drain_reactor_wake l : Prop :=
  ∀ i, is_park_at l i →
    ∃ j, i < j ∧ is_drain_of_at ReactorWake l j ∧ no_tick_end_between l i j.

(** E2. *)
Definition inv_tick_polls_if_runnable l : Prop :=
  ∀ i, is_tick_begin_at l i → fifo_queue_at l i ≠ [] →
    ∃ j, i < j ∧ is_poll_task_at l j ∧ no_tick_end_between l i j.

(** E3. *)
Definition inv_poll_within_tick l : Prop :=
  ∀ i, is_poll_task_at l i →
    ∃ tb, tb < i ∧ is_tick_begin_at l tb ∧ no_tick_begin_between l tb i.

(** E4. *)
Definition inv_valid_task_polling l : Prop :=
  ∀ i tid t r, l !! i = Some (Outbound (PollTask tid t r)) →
    tid_was_injected_before l i tid ∧ (r = Invalid ↔ tid_is_invalid l i tid).

(** E5-E8: what every completed tick contains. *)
Definition tick_contains (p : ExecutorEvent → bool) l : Prop :=
  ∀ i, is_tick_end_at l i → ∃ q, q < i ∧ at_pos p l q ∧ no_tick_begin_between l q i.

Definition inv_tick_has_park l : Prop := tick_contains is_park l.
Definition inv_tick_has_pop_injection l : Prop := tick_contains is_pop_injection l.
Definition inv_tick_has_drain_deferred l : Prop := tick_contains (is_drain_of Deferred) l.
Definition inv_tick_has_drain_task_wake l : Prop := tick_contains (is_drain_of TaskWake) l.

(** E9. *)
Definition inv_fifo_task_selection l : Prop :=
  ∀ i tid t r, l !! i = Some (Outbound (PollTask tid t r)) → is_fifo_head_at l i tid.

Definition structural_inv l : Prop :=
  inv_park_drain_reactor_wake l ∧ inv_tick_has_park l ∧ inv_tick_has_pop_injection l ∧
  inv_tick_has_drain_deferred l ∧ inv_tick_has_drain_task_wake l.

Definition semantic_inv l : Prop :=
  inv_tick_polls_if_runnable l ∧ inv_poll_within_tick l ∧
  inv_valid_task_polling l ∧ inv_fifo_task_selection l.

Definition executor_inv l : Prop := structural_inv l ∧ semantic_inv l.

(** The data invariant of the local queue. *)
Definition all_queue_tids_injected l (queue : list Z) : Prop :=
  ∀ tid, tid ∈ queue → tid_was_injected_before l (length l) tid.

(** ** Extending a log *)

Lemma fifo_queue_at_app l l' i : i ≤ length l → fifo_queue_at (l ++ l') i = fifo_queue_at l i.
Proof.
  induction i as [|i IH]; intros Hi; simpl; [done|].
  rewrite IH by lia. by rewrite lookup_app_l by lia.
Qed.

Definition fifo l : list Z := fifo_queue_at l (length l).

Lemma fifo_snoc l e : fifo (l ++ [e]) = fifo_step (fifo l) e.
Proof.
  unfold fifo. rewrite length_app, Nat.add_1_r. simpl.
  rewrite list_lookup_middle by done. by rewrite fifo_queue_at_app.
Qed.

Lemma injected_app l l' tid :
  tid_was_injected_before (l ++ l') (length l) tid ↔ tid_was_injected_before l (length l) tid.
Proof.
  split; intros (j & Hj & Hl); exists j; (split; [done|]).
  - by rewrite lookup_app_l in Hl.
  - by rewrite lookup_app_l.
Qed.

Lemma ready_app l l' tid :
  tid_returned_ready_before (l ++ l') (length l) tid ↔
  tid_returned_ready_before l (length l) tid.
Proof.
  split; intros (j & t & Hj & Hl); exists j, t; (split; [done|]).
  - by rewrite lookup_app_l in Hl.
  - by rewrite lookup_app_l.
Qed.

Lemma injected_snoc l e tid :
  tid_was_injected_before (l ++ [e]) (length (l ++ [e])) tid ↔
  tid_was_injected_before l (length l) tid ∨ e = Outbound (PopInjection (Some tid)).
Proof.
  rewrite length_app. simpl. split.
  - intros (j & Hj & Hl). apply lookup_app_Some in Hl as [Hl|[Hle Hl]].
    + left. exists j. split; [by eapply lookup_lt_Some|done].
    + right. apply list_lookup_singleton_Some in Hl. naive_solver.
  - intros [(j & Hj & Hl)| ->].
    + exists j. split; [lia|]. by rewrite lookup_app_l.
    + exists (length l). split; [lia|]. by rewrite list_lookup_middle.
Qed.

Lemma ready_snoc l e tid :
  tid_returned_ready_before (l ++ [e]) (length (l ++ [e])) tid ↔
  tid_returned_ready_before l (length l) tid ∨ ∃ t, e = Outbound (PollTask tid t Ready).
Proof.
  rewrite length_app. simpl. split.
  - intros (j & t & Hj & Hl). apply lookup_app_Some in Hl as [Hl|[Hle Hl]].
    + left. exists j, t. split; [by eapply lookup_lt_Some|done].
    + right. apply list_lookup_singleton_Some in Hl. naive_solver.
  - intros [(j & t & Hj & Hl)|[t ->]].
    + exists j, t. split; [lia|]. by rewrite lookup_app_l.
    + exists (length l), t. split; [lia|]. by rewrite list_lookup_middle.
Qed.

(** Both histories are decidable: the log is finite. *)
Lemma ready_dec l tid :
  tid_returned_ready_before l (length l) tid ∨ ¬ tid_returned_ready_before l (length l) tid.
Proof.
  induction l as [|e l IH] using rev_ind.
  - right. intros (j & t & Hj & _). simpl in Hj. lia.
  - rewrite ready_snoc. destruct IH as [?|Hno]; [by left; left|].
    destruct e as [c|[k t []| | |]]; try (right; intros [?|[? ?]]; done).
    destruct (decide (k = tid)) as [->|]; [left; right; by exists t|].
    right. intros [?|[? ?]]; [done|]. congruence.
Qed.

Lemma injected_before_app l l' i tid :
  i ≤ length l → tid_was_injected_before (l ++ l') i tid ↔ tid_was_injected_before l i tid.
Proof.
  intros Hi. split; intros (j & Hj & Hl); exists j; (split; [done|]).
  - by rewrite lookup_app_l in Hl by lia.
  - by rewrite lookup_app_l by lia.
Qed.

Lemma ready_before_app l l' i tid :
  i ≤ length l → tid_returned_ready_before (l ++ l') i tid ↔ tid_returned_ready_before l i tid.
Proof.
  intros Hi. split; intros (j & t & Hj & Hl); exists j, t; (split; [done|]).
  - by rewrite lookup_app_l in Hl by lia.
  - by rewrite lookup_app_l by lia.
Qed.

Lemma unique_snoc l e :
  (∀ tid, tid_unique l tid) →
  (∀ tid, e = Outbound (PopInjection (Some tid)) → ¬ tid_was_injected_before l (length l) tid) →
  ∀ tid, tid_unique (l ++ [e]) tid.
Proof.
  intros Hu He tid i j Hi Hj.
  assert (Hno : ∀ k, l !! k = Some (Outbound (PopInjection (Some tid))) →
    e ≠ Outbound (PopInjection (Some tid))).
  { intros k Hk Heq. apply (He tid Heq). exists k. split; [by eapply lookup_lt_Some|done]. }
  apply lookup_app_Some in Hi as [Hi|[Hli Hi]]; apply lookup_app_Some in Hj as [Hj|[Hlj Hj]].
  - by eapply Hu.
  - apply list_lookup_singleton_Some in Hj as [_ Hj]. by destruct (Hno i Hi).
  - apply list_lookup_singleton_Some in Hi as [_ Hi]. by destruct (Hno j Hj).
  - apply list_lookup_singleton_Some in Hi as [Hi _].
    apply list_lookup_singleton_Some in Hj as [Hj _]. lia.
Qed.

(** ** The per-event invariants E4 and E9, by appending one event *)

Definition poll_valid l tid (r : PollResult) : Prop :=
  tid_was_injected_before l (length l) tid ∧
  (r = Invalid ↔ tid_is_invalid l (length l) tid) ∧ head (fifo l) = Some tid.

(** E4 and E9 together. *)
Definition polls_valid l : Prop := inv_valid_task_polling l ∧ inv_fifo_task_selection l.

Lemma polls_valid_snoc l e :
  polls_valid l →
  (∀ tid t r, e = Outbound (PollTask tid t r) → poll_valid l tid r) →
  polls_valid (l ++ [e]).
Proof.
  intros [H4 H9] He. split; intros i tid t r Hl;
    apply lookup_app_Some in Hl as [Hl|[Hle Hl]].
  - pose proof (lookup_lt_Some _ _ _ Hl). unfold tid_is_invalid.
    rewrite !injected_before_app, !ready_before_app by lia. by apply (H4 i tid t r).
  - apply list_lookup_singleton_Some in Hl as [Hi ->].
    destruct (He tid t r eq_refl) as (Hin & Hinv & _).
    assert (i = length l) as -> by lia. unfold tid_is_invalid.
    by rewrite !injected_before_app, !ready_before_app by lia.
  - pose proof (lookup_lt_Some _ _ _ Hl). unfold is_fifo_head_at.
    rewrite fifo_queue_at_app by lia. by apply (H9 i tid t r).
  - apply list_lookup_singleton_Some in Hl as [Hi ->].
    destruct (He tid t r eq_refl) as (_ & _ & Hh).
    assert (i = length l) as -> by lia. unfold is_fifo_head_at. by rewrite fifo_queue_at_app.
Qed.

Lemma polls_valid_nil : polls_valid [].
Proof. split; intros i tid t r; by rewrite lookup_nil. Qed.

End ExecLog.
