(* ===== verification/Tls.v ===== *)
(** * Tls: the wake queues of [lion-executor/src/tls.rs]

    The thread-local state through which wakers reach the executor: three ready
    queues, the notification flags that deduplicate wakes, the current task and
    the cross-thread queue with its interrupt.  Also the waker's dispatch of
    [lion-executor/src/types/waker.rs]. *)

From S2P Require Import Prelude.

Module Tls.

Record Tls := mkTls {
  reactor_ready_queue : list Z;
  task_ready_queue : list Z;
  defer_queue : list Z;
  current_task : option Z;
  task_notified : list bool;
  block_on_yielded : bool;
  cross_thread : list Z;
  interrupted : bool;
}.

Inductive WakeSource := Reactor | Task.

Implicit Types (t : Tls) (task_id : Z).

Definition init : Tls := mkTls [] [] [] None [] false [] false.

Definition set_reactor_ready t x :=
  mkTls x (task_ready_queue t) (defer_queue t) (current_task t) (task_notified t)
    (block_on_yielded t) (cross_thread t) (interrupted t).
Definition set_task_ready t x :=
  mkTls (reactor_ready_queue t) x (defer_queue t) (current_task t) (task_notified t)
    (block_on_yielded t) (cross_thread t) (interrupted t).
Definition set_deferred t x :=
  mkTls (reactor_ready_queue t) (task_ready_queue t) x (current_task t) (task_notified t)
    (block_on_yielded t) (cross_thread t) (interrupted t).
Definition set_current t x :=
  mkTls (reactor_ready_queue t) (task_ready_queue t) (defer_queue t) x (task_notified t)
    (block_on_yielded t) (cross_thread t) (interrupted t).
Definition set_flags t x :=
  mkTls (reactor_ready_queue t) (task_ready_queue t) (defer_queue t) (current_task t) x
    (block_on_yielded t) (cross_thread t) (interrupted t).
Definition set_block_on_yielded t x :=
  mkTls (reactor_ready_queue t) (task_ready_queue t) (defer_queue t) (current_task t)
    (task_notified t) x (cross_thread t) (interrupted t).
Definition set_cross t x :=
  mkTls (reactor_ready_queue t) (task_ready_queue t) (defer_queue t) (current_task t)
    (task_notified t) (block_on_yielded t) x (interrupted t).
Definition set_interrupted t x :=
  mkTls (reactor_ready_queue t) (task_ready_queue t) (defer_queue t) (current_task t)
    (task_notified t) (block_on_yielded t) (cross_thread t) x.

Definition take_block_on_yielded t : bool * Tls :=
  (block_on_yielded t, set_block_on_yielded t false).

(** The flag of the id is set; [false] when it was set already.  The id of
    [block_on] is exempt. *)
Definition set_notified t task_id : bool * Tls :=
  if (task_id =? u64_max)%Z then (true, t)
  else
    let idx := Z.to_nat task_id in
    let v := if length (task_notified t) <=? idx
             then resize (idx + 1) false (task_notified t) else task_notified t in
    if default false (v !! idx) then (false, set_flags t v)
    else (true, set_flags t (<[idx := true]> v)).

Definition clear_notified t task_id : Tls :=
  let idx := Z.to_nat task_id in
  if idx <? length (task_notified t) then set_flags t (<[idx := false]> (task_notified t)) else t.

Definition push_reactor_ready t task_id : Tls :=
  let '(fresh, t') := set_notified t task_id in
  if fresh then set_reactor_ready t' (reactor_ready_queue t' ++ [task_id]) else t'.

Definition push_task_ready t task_id : Tls :=
  let '(fresh, t') := set_notified t task_id in
  if fresh then set_task_ready t' (task_ready_queue t' ++ [task_id]) else t'.

Definition push_deferred t task_id : Tls := set_deferred t (defer_queue t ++ [task_id]).

Definition take_reactor_ready t : list Z * Tls := (reactor_ready_queue t, set_reactor_ready t []).
Definition take_task_ready t : list Z * Tls := (task_ready_queue t, set_task_ready t []).
Definition take_deferred t : list Z * Tls := (defer_queue t, set_deferred t []).

Definition set_current_task t task_id : Tls := set_current t (Some task_id).
Definition clear_current_task t : Tls := set_current t None.

(** [None]: the call panics outside a task. *)
Definition defer_current t : option Tls :=
  match current_task t with
  | Some task_id =>
      let t1 := if (task_id =? u64_max)%Z then set_block_on_yielded t true else t in
      Some (push_deferred t1 task_id)
  | None => None
  end.

Definition non_empty (q : list Z) : bool := match q with [] => false | _ => true end.
Definition has_deferred t : bool := non_empty (defer_queue t).
Definition has_reactor_ready t : bool := non_empty (reactor_ready_queue t).
Definition has_task_ready t : bool := non_empty (task_ready_queue t).

(** [while let Ok(tid) = queue.receiver.try_recv()]. *)
Definition drain_cross_thread t : Tls :=
  foldl push_task_ready (set_cross t []) (cross_thread t).

(** [set_cross_thread_ctx] with a new queue and a new interrupt: what [Runtime::with_config]
    does to the thread it runs on.  The other thread-locals keep what they had. *)
Definition set_cross_thread_ctx t : Tls := set_interrupted (set_cross t []) false.

Definition reset_interrupt t : Tls := set_interrupted t false.

(** [ExecutorWaker::wake_impl]; [same_thread] tells whether the waker is invoked
    on the executor's thread. *)
Definition wake_impl (same_thread defer : bool) (source : WakeSource) task_id t : Tls :=
  if same_thread then
    if defer then push_deferred t task_id
    else match source with
         | Reactor => push_reactor_ready t task_id
         | Task => push_task_ready t task_id
         end
  else set_interrupted (set_cross t (cross_thread t ++ [task_id])) true.

(** ** The flags *)

Definition notified t task_id : bool := default false (task_notified t !! Z.to_nat task_id).

(** The ids that the wake queues hold. *)
Definition queued t : list Z :=
  reactor_ready_queue t ++ task_ready_queue t ++ defer_queue t ++ cross_thread t.

Lemma lookup_grown (v : list bool) n i :
  default false ((if length v <=? n then resize (n + 1) false v else v) !! i) =
  default false (v !! i).
Proof.
  case_cmp; [|done]. rewrite resize_grow by lia.
  destruct (decide (i < length v)); [by rewrite lookup_app_l|].
  rewrite lookup_app_r, (lookup_ge_None_2 v) by lia. simpl.
  destruct (replicate _ _ !! _) as [b|] eqn:E; [|done]. by apply lookup_replicate in E as [-> _].
Qed.

Lemma grown_length (v : list bool) n : n < length (if length v <=? n then resize (n + 1) false v else v).
Proof. case_cmp; [rewrite length_resize|]; lia. Qed.

(** [set_notified] sets one flag and answers whether it was clear. *)
Lemma set_notified_spec t task_id :
  is_u64 task_id →
  let '(fresh, t') := set_notified t task_id in
  (∃ v, t' = set_flags t v) ∧
  (∀ k, (0 ≤ k)%Z → notified t' k = (bool_decide (k = task_id ∧ task_id ≠ u64_max)) || notified t k) ∧
  (fresh = true ↔ task_id = u64_max ∨ notified t task_id = false).
Proof.
  intros Hu. unfold set_notified. destruct (Z.eqb_spec task_id u64_max) as [->|Hne].
  - split; [exists (task_notified t); by destruct t|]. split; [|by split; [left|]].
    intros k _. by rewrite bool_decide_false by tauto.
  - set (v := if length (task_notified t) <=? Z.to_nat task_id
      then resize (Z.to_nat task_id + 1) false (task_notified t) else task_notified t).
    assert (Hv : ∀ i, default false (v !! i) = default false (task_notified t !! i))
      by (intros; apply lookup_grown).
    assert (Hlen : Z.to_nat task_id < length v) by apply grown_length.
    rewrite Hv. fold (notified t task_id). destruct (notified t task_id) eqn:En.
    + split; [by eexists|]. split; [|naive_solver].
      intros k Hk. unfold notified at 1. simpl. rewrite Hv. fold (notified t k).
      case_bool_decide as Hd; [|done]. destruct Hd as [-> _]. by rewrite En.
    + split; [by eexists|]. split; [|naive_solver].
      intros k Hk. unfold notified at 1. simpl. rewrite list_lookup_insert.
      case_decide as Hd; case_bool_decide as Hb.
      * done.
      * destruct Hd as [Heq _]. destruct Hb. split; [|done].
        destruct Hu. apply Z2Nat.inj; lia.
      * destruct Hd. destruct Hb as [-> _]. done.
      * simpl. apply Hv.
Qed.

Lemma clear_notified_spec t task_id k :
  (0 ≤ task_id)%Z → (0 ≤ k)%Z →
  notified (clear_notified t task_id) k = negb (bool_decide (k = task_id)) && notified t k.
Proof.
  intros Ht Hk. unfold clear_notified. case_cmp; unfold notified; simpl.
  - rewrite list_lookup_insert. case_decide as Hd; case_bool_decide as Hb; simpl; try done.
    + destruct Hd as [Heq _]. apply Z2Nat.inj in Heq; [|lia..]. by destruct Hb.
    + destruct Hd. by subst.
  - case_bool_decide as Hb; simpl; [|done]. subst. by rewrite lookup_ge_None_2 by lia.
Qed.

End Tls.
