(* ===== verification/Executor.v ===== *)
(** * Executor: the scheduler of [lion-executor/src/executor]

    One definition per operation of the executor: [pop_injection], [next_task],
    [poll_task], [wake_deferred], [park], [poll_loop], [tick], and the loop of
    [Runtime::block_on].  The state record holds the fields of [Executor] (the log
    included), the thread-local wake queues, the task id counter of the handle,
    and a [world]: the reactor with everything that the user's futures share.

    User futures and the reactor are reached through the class [Env]: a poll or a
    park returns the wakes and spawns that happened meanwhile, wakes from other
    threads included.  The channel of spawned tasks is the list of the tasks sent
    and not yet received.  [log] is the ghost log of the source. *)

From S2P Require Import Prelude Store Slab TidLedger ExecLog Tls.
Import ExecLog.

Module Executor.

(** What happens to the executor's queues while other code runs.  Task ids are
    [u64]: the id of a wake is read modulo 2^64. *)
Inductive external (F : Type) :=
  | Wake (same_thread defer : bool) (source : Tls.WakeSource) (tid : Z)
  | Spawn (future : F).
Arguments Wake {F} _ _ _ _.
Arguments Spawn {F} _.

(** A future may also defer itself ([tls::defer_current]). *)
Inductive effect (F : Type) :=
  | Ext (x : external F)
  | DeferCurrent.
Arguments Ext {F} _.
Arguments DeferCurrent {F}.

(** The user's futures [F] and the reactor with the state they share [W]. *)
Class Env (F W : Type) := {
  future_poll : Z → F → W → bool * F * W * list (effect F);
  reactor_flush_pending_deregister : W → W;
  reactor_park : Z → W → W * list (external F);
}.

Record Task (F : Type) := mkTask { id : Z; future : F }.
Arguments mkTask {F} _ _.
Arguments id {F} _.
Arguments future {F} _.

Record Executor (F W : Type) := mkExecutor {
  task_slab : Slab.Slab (Task F);
  local_queue : list Z;
  injection_queue : list (Task F);
  event_interval : nat;
  log : list ExecutorEvent;
  ledger : list Z;
  world : W;
  tls : Tls.Tls;
  task_id_counter : Z;
}.
Arguments mkExecutor {F W} _ _ _ _ _ _ _ _ _.
Arguments task_slab {F W} _.
Arguments local_queue {F W} _.
Arguments injection_queue {F W} _.
Arguments event_interval {F W} _.
Arguments log {F W} _.
Arguments ledger {F W} _.
Arguments world {F W} _.
Arguments tls {F W} _.
Arguments task_id_counter {F W} _.

Section ops.
Context {F W : Type} `{!Env F W}.
Implicit Types (s : Executor F W) (task_id tid : Z).

Definition set_slab s x := mkExecutor x (local_queue s) (injection_queue s) (event_interval s)
  (log s) (ledger s) (world s) (tls s) (task_id_counter s).
Definition set_queue s x := mkExecutor (task_slab s) x (injection_queue s) (event_interval s)
  (log s) (ledger s) (world s) (tls s) (task_id_counter s).
Definition set_injection s x := mkExecutor (task_slab s) (local_queue s) x (event_interval s)
  (log s) (ledger s) (world s) (tls s) (task_id_counter s).
Definition record s e := mkExecutor (task_slab s) (local_queue s) (injection_queue s)
  (event_interval s) (log s ++ [e]) (ledger s) (world s) (tls s) (task_id_counter s).
Definition set_ledger s x := mkExecutor (task_slab s) (local_queue s) (injection_queue s)
  (event_interval s) (log s) x (world s) (tls s) (task_id_counter s).
Definition set_world s (x : W) := mkExecutor (task_slab s) (local_queue s) (injection_queue s)
  (event_interval s) (log s) (ledger s) x (tls s) (task_id_counter s).
Definition set_tls s x := mkExecutor (task_slab s) (local_queue s) (injection_queue s)
  (event_interval s) (log s) (ledger s) (world s) x (task_id_counter s).
Definition set_counter s x := mkExecutor (task_slab s) (local_queue s) (injection_queue s)
  (event_interval s) (log s) (ledger s) (world s) (tls s) x.

(** [Executor::new] on a thread with the thread-locals [t], with the handle's counter
    starting at 1. *)
Definition new_on (t : Tls.Tls) (reactor : W) (interval : nat) : Executor F W :=
  mkExecutor Slab.new [] [] interval [] TidLedger.new reactor (Tls.set_cross_thread_ctx t) 1.

(** On a new thread. *)
Definition new (reactor : W) (interval : nat) : Executor F W := new_on Tls.init reactor interval.

(** ** The outside *)

(** [InnerHandle::spawn]: a fresh id, the task is sent, the reactor interrupted. *)
Definition spawn s (f : F) : Executor F W :=
  let task_id := task_id_counter s in
  let s1 := set_counter s (wrap64 (task_id + 1)) in
  let s2 := set_injection s1 (injection_queue s1 ++ [mkTask task_id f]) in
  set_tls s2 (Tls.set_interrupted (tls s2) true).

Definition run_external s (x : external F) : Executor F W :=
  match x with
  | Wake same defer source tid => set_tls s (Tls.wake_impl same defer source (wrap64 tid) (tls s))
  | Spawn f => spawn s f
  end.

(** [defer_current] cannot panic here: effects run while a task is current. *)
Definition run_effect s (x : effect F) : Executor F W :=
  match x with
  | Ext y => run_external s y
  | DeferCurrent =>
      match Tls.defer_current (tls s) with Some t => set_tls s t | None => s end
  end.

(** ** Tasks *)

(** [poll_future_raw]: the future runs with its id as the current task. *)
Definition poll_future_raw s task_id (t : Task F) : PollResult * Task F * Executor F W :=
  let s1 := set_tls s (Tls.set_current_task (tls s) task_id) in
  let '(ready, f, w, effs) := future_poll task_id (future t) (world s1) in
  let s2 := foldl run_effect (set_world s1 w) effs in
  let s3 := set_tls s2 (Tls.clear_current_task (tls s2)) in
  (if ready then Ready else Pending, mkTask (id t) f, s3).

Definition poll_task_action s task_id (t : Task F) : PollResult * Task F * Executor F W :=
  let '(result, task_back, s1) := poll_future_raw s task_id t in
  (result, task_back, record s1 (Outbound (PollTask task_id (Some (id task_back)) result))).

Definition poll_task_invalid_action s task_id : Executor F W :=
  record s (Outbound (PollTask task_id None Invalid)).

Definition poll_task s task_id : Executor F W :=
  let s0 := set_tls s (Tls.clear_notified (tls s) task_id) in
  match Slab.remove (task_slab s0) task_id with
  | (Some task, slab') =>
      let '(result, task_back, s1) := poll_task_action (set_slab s0 slab') task_id task in
      match result with
      | Ready => s1
      | _ => set_slab s1 (Slab.insert (task_slab s1) task_id task_back)
      end
  | (None, slab') => poll_task_invalid_action (set_slab s0 slab') task_id
  end.

(** ** Injection *)

(** One receive; an id that the ledger knows is dropped and recorded as an empty
    pop. *)
Definition pop_injection_action s : option (Task F) * Executor F W :=
  match injection_queue s with
  | [] => (None, record s (Outbound (PopInjection None)))
  | task :: rest =>
      let s1 := set_injection s rest in
      if TidLedger.contains (ledger s1) (id task)
      then (None, record s1 (Outbound (PopInjection None)))
      else
        let s2 := set_ledger s1 (TidLedger.mark (ledger s1) (id task)) in
        (Some task, record s2 (Outbound (PopInjection (Some (id task)))))
  end.

(** The accepted task enters the slab and the local queue. *)
Definition accept s (task : Task F) : Executor F W :=
  let s1 := set_slab s (Slab.insert (task_slab s) (id task) task) in
  set_queue s1 (local_queue s1 ++ [id task]).

Fixpoint pop_injection_loop (fuel : nat) s : Executor F W :=
  match fuel with
  | 0 => s
  | S fuel' =>
      match pop_injection_action s with
      | (Some task, s1) => pop_injection_loop fuel' (accept s1 task)
      | (None, s1) => s1
      end
  end.

(** The channel holds what was sent, so one more receive than its length ends the
    loop. *)
Definition pop_injection s : Executor F W :=
  match pop_injection_action s with
  | (Some task, s1) =>
      let s2 := accept s1 task in pop_injection_loop (S (length (injection_queue s2))) s2
  | (None, s1) => s1
  end.

(** ** Drains *)

Definition filter_and_enqueue s (ids : list Z) : list Z * Executor F W :=
  foldl (λ '(kept, s) t,
    if TidLedger.contains (ledger s) t
    then (kept ++ [t], set_queue s (local_queue s ++ [t]))
    else (kept, s)) ([], s) ids.

Definition drain_task_ready_into_local s : Executor F W :=
  let t := Tls.drain_cross_thread (tls s) in
  let '(ids, t') := Tls.take_task_ready t in
  let '(kept, s1) := filter_and_enqueue (set_tls s t') ids in
  record s1 (Outbound (Drain TaskWake kept)).

Definition drain_reactor_ready_into_local s : Executor F W :=
  let '(ids, t') := Tls.take_reactor_ready (tls s) in
  let '(kept, s1) := filter_and_enqueue (set_tls s t') ids in
  record s1 (Outbound (Drain ReactorWake kept)).

Definition drain_deferred_into_local s : Executor F W :=
  let '(ids, t') := Tls.take_deferred (tls s) in
  let '(kept, s1) := filter_and_enqueue (set_tls s t') ids in
  record s1 (Outbound (Drain Deferred kept)).

Definition wake_deferred s : Executor F W := drain_deferred_into_local s.

(** ** Task selection *)

Definition pop_front s : option (Z * Executor F W) :=
  match local_queue s with
  | [] => None
  | x :: q => Some (x, set_queue s q)
  end.

Definition next_task s : option Z * Executor F W :=
  match pop_front s with
  | Some (task_id, s1) => (Some task_id, s1)
  | None =>
      let s1 := drain_reactor_ready_into_local s in
      let s2 := drain_task_ready_into_local s1 in
      match pop_front s2 with
      | Some (task_id, s3) => (Some task_id, s3)
      | None =>
          match pop_injection_action s2 with
          | (Some task, s3) =>
              let s4 := accept s3 task in
              match pop_front s4 with
              | Some (task_id, s5) => (Some task_id, s5)
              | None => (None, s4)
              end
          | (None, s3) => (None, s3)
          end
      end
  end.

(** ** Parking *)

(** Milliseconds of [Duration::from_millis(100)] and [Duration::zero()]. *)
Definition park_timeout (require_timeout : bool) : Z := if require_timeout then 100%Z else 0%Z.

Definition park_action s (require_timeout : bool) : Executor F W :=
  let w := reactor_flush_pending_deregister (world s) in
  let '(w', exts) := reactor_park (park_timeout require_timeout) w in
  record (foldl run_external (set_world s w') exts) (Outbound Park).

Definition park s : Executor F W :=
  let has_deferred := Tls.has_deferred (tls s) in
  let has_reactor_ready := Tls.has_reactor_ready (tls s) in
  let s1 := set_tls s (Tls.drain_cross_thread (Tls.reset_interrupt (tls s))) in
  let has_task_ready := Tls.has_task_ready (tls s1) in
  let has_local_tasks := 0 <? length (local_queue s1) in
  let '(block_on_yielded, t2) := Tls.take_block_on_yielded (tls s1) in
  let s2 := set_tls s1 t2 in
  let require_timeout :=
    negb block_on_yielded && negb has_deferred && negb has_reactor_ready &&
    negb has_task_ready && negb has_local_tasks in
  let s3 := park_action s2 require_timeout in
  let s4 := drain_reactor_ready_into_local s3 in
  drain_task_ready_into_local s4.

(** ** The tick *)

(** [while count < event_interval]. *)
Fixpoint poll_while (fuel : nat) (interval count : nat) s : nat * Executor F W :=
  match fuel with
  | 0 => (count, s)
  | S fuel' =>
      if count <? interval then
        match next_task s with
        | (Some task_id, s1) => poll_while fuel' interval (count + 1) (poll_task s1 task_id)
        | (None, s1) => (count, s1)
        end
      else (count, s)
  end.

Definition poll_loop (interval count : nat) s : nat * Executor F W :=
  if interval <=? count then (count, s)
  else
    match next_task s with
    | (Some task_id, s1) =>
        poll_while (interval - (count + 1)) interval (count + 1) (poll_task s1 task_id)
    | (None, s1) => (count, s1)
    end.

Definition tick s : Executor F W :=
  let interval := event_interval s in
  let s1 := record s (Inbound (Tick None)) in
  let s2 := wake_deferred s1 in
  let s3 := pop_injection s2 in
  let '(count, s4) := poll_loop interval 0 s3 in
  let s5 := park s4 in
  let '(_, s6) := poll_loop interval count s5 in
  record s6 (Inbound (Tick (Some tt))).

(** ** [Runtime::block_on] *)

(** One poll of the main future, under the id [u64::MAX]. *)
Definition poll_main s (f : F) : bool * F * Executor F W :=
  let s1 := set_tls s (Tls.set_current_task (tls s) u64_max) in
  let '(ready, f', w, effs) := future_poll u64_max f (world s1) in
  let s2 := foldl run_effect (set_world s1 w) effs in
  (ready, f', set_tls s2 (Tls.clear_current_task (tls s2))).

(** The loop, for at most [fuel] polls of the main future; [None] if it is not
    ready by then. *)
Fixpoint block_on (fuel : nat) s (f : F) : option (Executor F W) :=
  match fuel with
  | 0 => None
  | S fuel' =>
      match poll_main s f with
      | (true, _, s1) => Some s1
      | (false, f', s1) => block_on fuel' (tick s1) f'
      end
  end.

End ops.

End Executor.
