(* ===== verification/ExecInv.v ===== *)
(** * ExecInv: the data invariant of the executor

    [dinv s q] ties the executor's state to its log: the queue [q] is the FIFO
    queue that the log denotes, the ledger is the set of injected ids, the slab
    holds the tasks injected and not finished, and every poll of the log is valid.
    [q] is the local queue, except between taking a task from it and polling it. *)

From S2P Require Import Prelude Store Slab TidLedger ExecLog Tls Executor.
Import ExecLog Executor.

Abbreviation injected l tid := (tid_was_injected_before l (length l) tid).
Abbreviation finished l tid := (tid_returned_ready_before l (length l) tid).

Section inv.
Context {F W : Type} `{!Env F W}.
Implicit Types (s : Executor F W) (q : list Z) (tid : Z).

Definition tls_typed (t : Tls.Tls) : Prop := Forall is_u64 (Tls.queued t).

Record dinv s q : Prop := {
  di_fifo : fifo (log s) = q;
  di_inj : ∀ tid, tid ∈ q → injected (log s) tid;
  di_ledger : ∀ tid, (0 ≤ tid)%Z →
    TidLedger.contains (ledger s) tid = true ↔ injected (log s) tid;
  di_slab : ∀ tid, is_Some (st_get (task_slab s) tid) ↔
    injected (log s) tid ∧ ¬ finished (log s) tid;
  di_ids : ∀ tid t, st_get (task_slab s) tid = Some t → id t = tid;
  di_polls : polls_valid (log s);
  di_unique : ∀ tid, tid_unique (log s) tid;
  di_range : ∀ tid, injected (log s) tid → is_u64 tid;
  di_tls : tls_typed (tls s);
  di_chan : Forall (λ t, is_u64 (id t)) (injection_queue s);
  di_counter : is_u64 (task_id_counter s);
}.

(** The invariant between operations. *)
Definition data_inv s : Prop := dinv s (local_queue s).

(** ** The outside: wakes and spawns *)

Lemma set_notified_frame t tid :
  let t' := (Tls.set_notified t tid).2 in
  Tls.reactor_ready_queue t' = Tls.reactor_ready_queue t ∧
  Tls.task_ready_queue t' = Tls.task_ready_queue t ∧
  Tls.defer_queue t' = Tls.defer_queue t ∧ Tls.cross_thread t' = Tls.cross_thread t ∧
  Tls.current_task t' = Tls.current_task t.
Proof. unfold Tls.set_notified. by repeat case_match. Qed.

Lemma queued_typed t :
  tls_typed t ↔
  Forall is_u64 (Tls.reactor_ready_queue t) ∧ Forall is_u64 (Tls.task_ready_queue t) ∧
  Forall is_u64 (Tls.defer_queue t) ∧ Forall is_u64 (Tls.cross_thread t).
Proof. unfold tls_typed, Tls.queued. by rewrite !Forall_app. Qed.

Lemma push_task_ready_typed t tid :
  is_u64 tid → tls_typed t → tls_typed (Tls.push_task_ready t tid).
Proof.
  rewrite !queued_typed. intros Ht (? & ? & ? & ?). unfold Tls.push_task_ready.
  pose proof (set_notified_frame t tid) as Hf. destruct (Tls.set_notified t tid) as [fresh t'].
  simpl in Hf. destruct Hf as (Hr & Hk & Hd & Hc & _). destruct fresh; simpl; rewrite ?Hr, ?Hk, ?Hd, ?Hc; [|done].
  rewrite Forall_app, Forall_singleton. done.
Qed.

Lemma push_reactor_ready_typed t tid :
  is_u64 tid → tls_typed t → tls_typed (Tls.push_reactor_ready t tid).
Proof.
  rewrite !queued_typed. intros Ht (? & ? & ? & ?). unfold Tls.push_reactor_ready.
  pose proof (set_notified_frame t tid) as Hf. destruct (Tls.set_notified t tid) as [fresh t'].
  simpl in Hf. destruct Hf as (Hr & Hk & Hd & Hc & _). destruct fresh; simpl; rewrite ?Hr, ?Hk, ?Hd, ?Hc; [|done].
  rewrite Forall_app, Forall_singleton. done.
Qed.

Lemma push_deferred_typed t tid :
  is_u64 tid → tls_typed t → tls_typed (Tls.push_deferred t tid).
Proof.
  rewrite !queued_typed. intros Ht (? & ? & ? & ?). simpl.
  rewrite Forall_app, Forall_singleton. done.
Qed.

Lemma wake_impl_typed same defer source tid t :
  is_u64 tid → tls_typed t → tls_typed (Tls.wake_impl same defer source tid t).
Proof.
  intros Ht Ht'. unfold Tls.wake_impl. destruct same.
  - destruct defer; [by apply push_deferred_typed|].
    destruct source; [by apply push_reactor_ready_typed|by apply push_task_ready_typed].
  - revert Ht'. rewrite !queued_typed. intros (? & ? & ? & ?). simpl.
    rewrite Forall_app, Forall_singleton. done.
Qed.

Lemma drain_cross_typed t : tls_typed t → tls_typed (Tls.drain_cross_thread t).
Proof.
  intros Ht. unfold Tls.drain_cross_thread.
  assert (Hgen : ∀ ids t0, Forall is_u64 ids → tls_typed t0 →
    tls_typed (foldl Tls.push_task_ready t0 ids)).
  { induction ids as [|i ids IH]; intros t0 Hids Ht0; [done|]. simpl.
    inversion Hids; subst. apply IH; [done|]. by apply push_task_ready_typed. }
  rewrite queued_typed in Ht. apply Hgen; [apply Ht|].
  rewrite queued_typed. simpl. naive_solver.
Qed.

(** The fields that wakes and spawns leave alone. *)
Definition same_core s s' : Prop :=
  task_slab s' = task_slab s ∧ local_queue s' = local_queue s ∧ log s' = log s ∧
  ledger s' = ledger s ∧ event_interval s' = event_interval s ∧ world s' = world s.

(** The typing of what they change. *)
Definition outer_typed s : Prop :=
  tls_typed (tls s) ∧ Forall (λ t, is_u64 (id t)) (injection_queue s) ∧
  is_u64 (task_id_counter s).

Lemma run_external_core s x : same_core s (run_external s x).
Proof. by destruct x. Qed.

Lemma run_effect_core s x : same_core s (run_effect s x).
Proof. destruct x as [x|]; [apply run_external_core|]. simpl. by case_match. Qed.

#[global] Instance same_core_preorder : PreOrder same_core.
Proof.
  split; [done|]. intros s1 s2 s3 (A1 & A2 & A3 & A4 & A5 & A6) (B1 & B2 & B3 & B4 & B5 & B6).
  repeat split; congruence.
Qed.

Lemma run_external_typed s x : outer_typed s → outer_typed (run_external s x).
Proof.
  intros (Ht & Hc & Hn). destruct x as [same defer source tid|f]; simpl.
  - split; [|done]. apply wake_impl_typed; [apply wrap64_range|done].
  - split; [by rewrite queued_typed in *|]. split; [|apply wrap64_range]. simpl.
    by rewrite Forall_app, Forall_singleton.
Qed.

(** A current task has a [u64] id. *)
Definition current_typed s : Prop := ∀ tid, Tls.current_task (tls s) = Some tid → is_u64 tid.

Lemma wake_impl_current same defer source tid t :
  Tls.current_task (Tls.wake_impl same defer source tid t) = Tls.current_task t.
Proof.
  unfold Tls.wake_impl, Tls.push_reactor_ready, Tls.push_task_ready.
  pose proof (set_notified_frame t tid) as Hf.
  destruct (Tls.set_notified t tid) as [[] t']; repeat case_match; simpl in *; naive_solver.
Qed.

Lemma run_effect_current s x :
  Tls.current_task (tls (run_effect s x)) = Tls.current_task (tls s).
Proof.
  destruct x as [[same defer source tid|f]|]; simpl; [apply wake_impl_current|done|].
  unfold Tls.defer_current. destruct (Tls.current_task (tls s)) eqn:E; [|done].
  simpl. by case_match.
Qed.

Lemma run_effect_typed s x : current_typed s → outer_typed s → outer_typed (run_effect s x).
Proof.
  intros Hcur Ho. destruct x as [x|]; [by apply run_external_typed|]. simpl.
  unfold Tls.defer_current. destruct (Tls.current_task (tls s)) as [tid|] eqn:E; [|done].
  destruct Ho as (Ht & Hc & Hn). split; [|done]. simpl. apply push_deferred_typed; [by apply Hcur|].
  case_match; [|done]. by rewrite queued_typed in *.
Qed.

Lemma run_effects_ok s xs :
  current_typed s → outer_typed s →
  same_core s (foldl run_effect s xs) ∧ outer_typed (foldl run_effect s xs).
Proof.
  revert s. induction xs as [|x xs IH]; intros s Hc Ho; [done|]. simpl.
  destruct (IH (run_effect s x)) as [HC HT].
  - intros tid. rewrite run_effect_current. apply Hc.
  - by apply run_effect_typed.
  - split; [|done]. etrans; [apply run_effect_core|done].
Qed.

Lemma run_externals_ok s xs :
  outer_typed s → same_core s (foldl run_external s xs) ∧ outer_typed (foldl run_external s xs).
Proof.
  revert s. induction xs as [|x xs IH]; intros s Ho; [done|]. simpl.
  destruct (IH (run_external s x)) as [HC HT]; [by apply run_external_typed|].
  split; [|done]. etrans; [apply run_external_core|done].
Qed.

(** ** The invariant and the log *)

Lemma dinv_outer s s' q :
  dinv s q → task_slab s' = task_slab s → log s' = log s → ledger s' = ledger s →
  outer_typed s' → dinv s' q.
Proof.
  intros [] Hs Hl Hd (? & ? & ?). split; rewrite ?Hs, ?Hl, ?Hd; done.
Qed.

Lemma dinv_typed s q : dinv s q → outer_typed s.
Proof. intros []. done. Qed.

(** Events that inject nothing and poll nothing. *)
Definition neutral e : bool :=
  match e with
  | Outbound (PopInjection (Some _)) | Outbound (PollTask _ _ _) => false
  | _ => true
  end.

Lemma dinv_record s q e :
  dinv s q → neutral e = true → (∀ tid, tid ∈ fifo_step q e → tid ∈ q ∨ injected (log s) tid) →
  dinv (record s e) (fifo_step q e).
Proof.
  intros [] Hn Hq.
  assert (Hi : ∀ tid, injected (log s ++ [e]) tid ↔ injected (log s) tid).
  { intros tid. rewrite injected_snoc. split; [|by left]. intros [?| ->]; [done|]. done. }
  assert (Hf : ∀ tid, finished (log s ++ [e]) tid ↔ finished (log s) tid).
  { intros tid. rewrite ready_snoc. split; [|by left]. intros [?|[t ->]]; [done|]. done. }
  split; simpl; try done.
  - by rewrite fifo_snoc, di_fifo0.
  - intros tid Ht. rewrite Hi. destruct (Hq tid Ht); [by apply di_inj0|done].
  - intros tid Ht. rewrite Hi. by apply di_ledger0.
  - intros tid. rewrite Hi, Hf. apply di_slab0.
  - apply polls_valid_snoc; [done|]. by intros tid t r ->.
  - apply unique_snoc; [done|]. by intros tid ->.
  - intros tid. rewrite Hi. apply di_range0.
Qed.
End inv.
