(* ===== verification/ExecOps.v ===== *)
(** * ExecOps: the operations of the executor keep the data invariant

    For each operation: the invariant afterwards, the events it records, and what
    it does to the local queue. *)

From S2P Require Import Prelude Store Slab TidLedger ExecLog Tls Executor ExecInv.
Import ExecLog Executor.

Section ops.
Context {F W : Type} `{!Env F W}.
Implicit Types (s : Executor F W) (q : list Z) (tid : Z).

(** ** Drains *)

Definition known s : list Z → list Z := filter (λ t, TidLedger.contains (ledger s) t = true).

Lemma filter_and_enqueue_eq s ids :
  filter_and_enqueue s ids = (known s ids, set_queue s (local_queue s ++ known s ids)).
Proof.
  unfold filter_and_enqueue.
  assert (Hgen : ∀ kept, foldl (λ '(kept, s) t,
      if TidLedger.contains (ledger s) t
      then (kept ++ [t], set_queue s (local_queue s ++ [t])) else (kept, s))
      (kept, set_queue s (local_queue s ++ kept)) ids =
    (kept ++ known s ids, set_queue s (local_queue s ++ kept ++ known s ids))).
  { unfold known. induction ids as [|t ids IH]; intros kept; simpl.
    - by rewrite app_nil_r.
    - rewrite filter_cons. destruct (TidLedger.contains (ledger s) t) eqn:E.
      + rewrite decide_True by done.
        change (set_queue (set_queue s ?a) ?b) with (set_queue s b).
        rewrite <- (app_assoc _ kept). rewrite (IH (kept ++ [t])). by rewrite <- !app_assoc.
      + rewrite decide_False by done. apply IH. }
  specialize (Hgen []). rewrite app_nil_r in Hgen. simpl in Hgen.
  etrans; [|apply Hgen]. f_equal. f_equal. by destruct s.
Qed.

Definition drain_with s (t : Tls.Tls) (ids : list Z) (source : DrainSource) : Executor F W :=
  let '(kept, s1) := filter_and_enqueue (set_tls s t) ids in
  record s1 (Outbound (Drain source kept)).

Lemma drain_with_tls s t ids source : tls (drain_with s t ids source) = t.
Proof. unfold drain_with. by rewrite filter_and_enqueue_eq. Qed.

(** What a drain does. *)
Definition drained s s' (source : DrainSource) : Prop :=
  ∃ kept, log s' = log s ++ [Outbound (Drain source kept)] ∧
    local_queue s' = local_queue s ++ kept ∧ event_interval s' = event_interval s ∧
    injection_queue s' = injection_queue s ∧ world s' = world s.

Lemma drain_with_ok s t ids source :
  data_inv s → tls_typed t → Forall is_u64 ids →
  data_inv (drain_with s t ids source) ∧ drained s (drain_with s t ids source) source.
Proof.
  intros H Ht Hids. unfold drain_with. rewrite filter_and_enqueue_eq.
  change (known (set_tls s t) ids) with (known s ids).
  split; [|by exists (known s ids)].
  set (s1 := set_queue (set_tls s t) _).
  assert (H1 : dinv s1 (local_queue s)).
  { apply (dinv_outer s); try done. destruct (dinv_typed _ _ H) as (_ & ? & ?). done. }
  apply (dinv_record s1 _ (Outbound (Drain source (known s ids)))) in H1; [done|done|].
  simpl. intros tid [?|Hin]%elem_of_app; [by left|right].
  apply list_elem_of_filter in Hin as [Hc Hin]. apply (di_ledger _ _ H); [|done].
  rewrite Forall_forall in Hids. by destruct (Hids _ Hin).
Qed.

Lemma drain_deferred_ok s :
  data_inv s →
  data_inv (drain_deferred_into_local s) ∧ drained s (drain_deferred_into_local s) Deferred.
Proof.
  intros H. pose proof (di_tls _ _ H) as Ht. rewrite queued_typed in Ht.
  apply (drain_with_ok s (Tls.set_deferred (tls s) []) (Tls.defer_queue (tls s)) Deferred);
    [done| |naive_solver].
  rewrite queued_typed. simpl. naive_solver.
Qed.

Lemma drain_reactor_ok s :
  data_inv s →
  data_inv (drain_reactor_ready_into_local s) ∧
  drained s (drain_reactor_ready_into_local s) ReactorWake.
Proof.
  intros H. pose proof (di_tls _ _ H) as Ht. rewrite queued_typed in Ht.
  apply (drain_with_ok s (Tls.set_reactor_ready (tls s) [])
    (Tls.reactor_ready_queue (tls s)) ReactorWake); [done| |naive_solver].
  rewrite queued_typed. simpl. naive_solver.
Qed.

Lemma drain_task_ok s :
  data_inv s →
  data_inv (drain_task_ready_into_local s) ∧ drained s (drain_task_ready_into_local s) TaskWake.
Proof.
  intros H. pose proof (drain_cross_typed _ (di_tls _ _ H)) as Ht.
  set (t := Tls.drain_cross_thread (tls s)) in *. rewrite queued_typed in Ht.
  apply (drain_with_ok s (Tls.set_task_ready t []) (Tls.task_ready_queue t) TaskWake);
    [done| |naive_solver].
  rewrite queued_typed. simpl. naive_solver.
Qed.

(** ** Injection *)

Lemma dinv_inject s q task rest :
  dinv s q → injection_queue s = task :: rest →
  TidLedger.contains (ledger s) (id task) = false →
  local_queue s = q →
  data_inv (accept (record (set_ledger (set_injection s rest)
    (TidLedger.mark (ledger s) (id task))) (Outbound (PopInjection (Some (id task))))) task).
Proof.
  intros [] Hinj Hc Hq. set (e := Outbound (PopInjection (Some (id task)))).
  rewrite Hinj in di_chan. inversion di_chan as [|? ? Hid Hrest]; subst.
  pose proof (proj1 Hid) as Hid0.
  assert (Hnew : ¬ injected (log s) (id task)).
  { intros Hin. apply di_ledger in Hin; [congruence|done]. }
  assert (Hnf : ¬ finished (log s) (id task)).
  { intros (j & t & Hj & Hl). apply Hnew. destruct di_polls as [H4 _].
    destruct (H4 _ _ _ _ Hl) as [(k & Hk & Hl') _]. exists k. split; [lia|done]. }
  assert (Hi : ∀ tid, injected (log s ++ [e]) tid ↔ injected (log s) tid ∨ tid = id task).
  { intros tid. rewrite injected_snoc. unfold e. naive_solver. }
  assert (Hf : ∀ tid, finished (log s ++ [e]) tid ↔ finished (log s) tid).
  { intros tid. rewrite ready_snoc. unfold e. naive_solver. }
  unfold data_inv. split; simpl; try done.
  - by rewrite fifo_snoc, Hq.
  - intros tid Ht. rewrite Hi. rewrite Hq in Ht. apply elem_of_app in Ht as [Ht|Ht]; [left; by apply di_inj|].
    right. by apply list_elem_of_singleton in Ht.
  - intros tid Ht. rewrite Hi, TidLedger.contains_mark by done.
    rewrite orb_true_iff, bool_decide_eq_true, di_ledger by done. tauto.
  - intros tid. rewrite Hi, Hf.
    change (Slab.insert (task_slab s) (id task) task) with (st_insert (task_slab s) (id task) task).
    rewrite st_get_insert. case_decide as Hd.
    + subst. split; [|by eauto]. intros _. split; [by right|done].
    + rewrite di_slab. naive_solver.
  - intros tid t.
    change (Slab.insert (task_slab s) (id task) task) with (st_insert (task_slab s) (id task) task).
    rewrite st_get_insert. case_decide; [by intros [= <-]|apply di_ids].
  - apply polls_valid_snoc; done.
  - apply unique_snoc; [done|]. unfold e. by intros tid [= <-].
  - intros tid. rewrite Hi. intros [?| ->]; [by apply di_range|done].
Qed.

(** The two outcomes of one receive. *)
Definition popped_none s s' : Prop :=
  log s' = log s ++ [Outbound (PopInjection None)] ∧ local_queue s' = local_queue s ∧
  event_interval s' = event_interval s ∧ tls s' = tls s ∧ world s' = world s.

Definition popped_some s s' tid : Prop :=
  log s' = log s ++ [Outbound (PopInjection (Some tid))] ∧
  local_queue s' = local_queue s ++ [tid] ∧ event_interval s' = event_interval s ∧
  tls s' = tls s ∧ world s' = world s.

Lemma pop_injection_action_ok s :
  data_inv s →
  match pop_injection_action s with
  | (None, s1) => data_inv s1 ∧ popped_none s s1
  | (Some task, s1) => data_inv (accept s1 task) ∧ popped_some s (accept s1 task) (id task) ∧
      length (injection_queue s) = S (length (injection_queue (accept s1 task)))
  end.
Proof.
  intros H. unfold pop_injection_action.
  destruct (injection_queue s) as [|task rest] eqn:Hinj.
  { split; [|done]. unfold data_inv in *.
    apply (dinv_record s _ (Outbound (PopInjection None))) in H; [done|done|]. by left. }
  simpl. destruct (TidLedger.contains (ledger s) (id task)) eqn:Hc.
  - split; [|done]. unfold data_inv in *. set (s1 := set_injection s rest).
    assert (H1 : dinv s1 (local_queue s)).
    { apply (dinv_outer s); try done. destruct (dinv_typed _ _ H) as (? & Hch & ?).
      rewrite Hinj in Hch. inversion Hch; subst. done. }
    apply (dinv_record s1 _ (Outbound (PopInjection None))) in H1; [done|done|]. by left.
  - split; [|done]. by eapply dinv_inject.
Qed.

(** A segment of the log in which every event satisfies [p]. *)
Definition log_extends s s' (p : ExecutorEvent → bool) : Prop :=
  ∃ seg, log s' = log s ++ seg ∧ Forall (λ e, p e = true) seg.

Lemma log_extends_refl s p : log_extends s s p.
Proof. exists []. by rewrite app_nil_r. Qed.

Lemma log_extends_trans s1 s2 s3 p :
  log_extends s1 s2 p → log_extends s2 s3 p → log_extends s1 s3 p.
Proof.
  intros (g1 & H1 & F1) (g2 & H2 & F2). exists (g1 ++ g2).
  rewrite H2, H1, app_assoc. split; [done|]. by apply Forall_app.
Qed.

Lemma log_extends_one s s' e (p : ExecutorEvent → bool) :
  log s' = log s ++ [e] → p e = true → log_extends s s' p.
Proof. intros Hl Hp. exists [e]. split; [done|]. by apply Forall_singleton. Qed.

Lemma log_extends_weaken s s' (p p' : ExecutorEvent → bool) :
  (∀ e, p e = true → p' e = true) → log_extends s s' p → log_extends s s' p'.
Proof. intros Hp (g & Hg & Hf). exists g. split; [done|]. by eapply Forall_impl. Qed.

(** [grows s s']: the local queue keeps its front, the interval is the same. *)
Definition grows s s' : Prop :=
  local_queue s `prefix_of` local_queue s' ∧ event_interval s' = event_interval s.

#[global] Instance grows_preorder : PreOrder grows.
Proof.
  split; [done|]. intros s1 s2 s3 [H1 H2] [H3 H4]. split; [by etrans|congruence].
Qed.

Lemma drained_grows s s' source : drained s s' source → grows s s'.
Proof. intros (k & _ & Hq & Hi & _). split; [rewrite Hq; by apply prefix_app_r|done]. Qed.

Lemma popped_some_grows s s' tid : popped_some s s' tid → grows s s'.
Proof. intros (_ & Hq & Hi & _). split; [rewrite Hq; by apply prefix_app_r|done]. Qed.

Lemma popped_none_grows s s' : popped_none s s' → grows s s'.
Proof. intros (_ & Hq & Hi & _). split; [by rewrite Hq|done]. Qed.

Lemma pop_injection_loop_ok fuel s :
  data_inv s →
  let s' := pop_injection_loop fuel s in
  data_inv s' ∧ log_extends s s' is_pop_injection ∧ grows s s'.
Proof.
  revert s. induction fuel as [|fuel IH]; intros s H; simpl.
  { split; [done|]. split; [apply log_extends_refl|done]. }
  pose proof (pop_injection_action_ok s H) as Hp.
  destruct (pop_injection_action s) as [[task|] s1].
  - destruct Hp as (H1 & Hs & _). destruct (IH _ H1) as (H2 & Hl & Hg). split; [done|]. split.
    + eapply log_extends_trans; [|done]. by eapply log_extends_one; [apply Hs|].
    + etrans; [by eapply popped_some_grows|done].
  - destruct Hp as (H1 & Hs). split; [done|]. split; [|by apply popped_none_grows].
    by eapply log_extends_one; [apply Hs|].
Qed.

Lemma pop_injection_unfold s :
  pop_injection s =
  pop_injection_loop
    (match pop_injection_action s with
     | (Some task, s1) => S (S (length (injection_queue (accept s1 task))))
     | _ => 1
     end) s.
Proof.
  unfold pop_injection. simpl. by destruct (pop_injection_action s) as [[task|] s1] eqn:E; simpl; rewrite E.
Qed.

Lemma pop_injection_ok s :
  data_inv s →
  let s' := pop_injection s in
  data_inv s' ∧ log_extends s s' is_pop_injection ∧ grows s s' ∧ log s' ≠ log s.
Proof.
  intros H. cbv zeta. rewrite pop_injection_unfold.
  destruct (pop_injection_loop_ok (match pop_injection_action s with
     | (Some task, s1) => S (S (length (injection_queue (accept s1 task)))) | _ => 1 end) s H)
    as (H1 & Hl & Hg). split; [done|]. split; [done|]. split; [done|].
  pose proof (pop_injection_action_ok s H) as Hp.
  destruct (pop_injection_action s) as [[task|] s1] eqn:E.
  - destruct Hp as (H1' & Hs & _). cbn [pop_injection_loop]. rewrite E.
    destruct (pop_injection_loop_ok (S (length (injection_queue (accept s1 task)))) _ H1')
      as (_ & (g & Hg' & _) & _).
    cbn [pop_injection_loop] in Hg'. rewrite Hg'. destruct Hs as (-> & _). rewrite <- app_assoc.
    intros Heq. rewrite <- (app_nil_r (log s)) in Heq at 2. by apply app_inv_head in Heq.
  - simpl. rewrite E. destruct Hp as (_ & (-> & _)).
    intros Heq. rewrite <- (app_nil_r (log s)) in Heq at 2. by apply app_inv_head in Heq.
Qed.
End ops.
