(* ===== verification/ExecTick.v ===== *)
(** * ExecTick: task selection, polling, parking and the tick

    [next_task] hands out the head of the FIFO queue, [poll_task] records a valid
    poll of it; the poll loop polls the front of the local queue in order, at most
    [event_interval] tasks per tick; [park] drains the reactor's and the tasks'
    wakes right after parking.  [tick_shape] collects the events of a tick. *)

From S2P Require Import Prelude Store Slab TidLedger ExecLog Tls Executor ExecInv ExecOps.
Import ExecLog Executor.

Section tick.
Context {F W : Type} `{!Env F W}.
Implicit Types (s : Executor F W) (q : list Z) (tid : Z).

(** Events of task selection: drains and pops. *)
Definition quiet (e : ExecutorEvent) : bool :=
  match e with Outbound (Drain _ _) | Outbound (PopInjection _) => true | _ => false end.

(** Events between the begin and the end of a tick, parking excepted. *)
Definition working (e : ExecutorEvent) : bool :=
  match e with Inbound _ | Outbound Park => false | _ => true end.

Lemma dinv_set_queue s q x : dinv s q → dinv (set_queue s x) q.
Proof. intros H. by apply (dinv_outer s); try done; destruct (dinv_typed _ _ H) as (? & ? & ?). Qed.

Lemma drained_log s s' source : drained s s' source → log_extends s s' quiet.
Proof. intros (k & Hl & _). by eapply log_extends_one. Qed.

Lemma next_task_ok s :
  data_inv s →
  match next_task s with
  | (Some tid, s1) =>
      dinv s1 (tid :: local_queue s1) ∧ log_extends s s1 quiet ∧
      event_interval s1 = event_interval s ∧
      ∀ x q, local_queue s = x :: q → tid = x ∧ local_queue s1 = q ∧ log s1 = log s
  | (None, s1) =>
      data_inv s1 ∧ log_extends s s1 quiet ∧ grows s s1 ∧ local_queue s = []
  end.
Proof.
  intros H. unfold next_task, pop_front at 1.
  destruct (local_queue s) as [|x q] eqn:Eq.
  2: { split; [unfold data_inv in H; rewrite Eq in H; by apply dinv_set_queue|].
       split; [by exists []; rewrite app_nil_r|]. split; [done|]. naive_solver. }
  destruct (drain_reactor_ok s H) as [H1 D1].
  set (s1 := drain_reactor_ready_into_local s) in *.
  destruct (drain_task_ok s1 H1) as [H2 D2].
  set (s2 := drain_task_ready_into_local s1) in *.
  assert (L2 : log_extends s s2 quiet) by (eapply log_extends_trans; eapply drained_log; done).
  assert (G2 : grows s s2) by (etrans; eapply drained_grows; done).
  unfold pop_front at 1. destruct (local_queue s2) as [|x q] eqn:Eq2.
  2: { split; [unfold data_inv in H2; rewrite Eq2 in H2; by apply dinv_set_queue|].
       split; [done|]. split; [apply G2|done]. }
  pose proof (pop_injection_action_ok s2 H2) as Hp.
  destruct (pop_injection_action s2) as [[task|] s3].
  - destruct Hp as (H3 & (Hl & Hq & Hi & _) & _). unfold pop_front.
    rewrite Eq2 in Hq. rewrite Hq. unfold data_inv in H3. rewrite Hq in H3.
    split; [by apply dinv_set_queue|].
    split; [|split; [etrans; [exact Hi|apply G2]|done]].
    eapply log_extends_trans; [exact L2|]. by eapply log_extends_one.
  - destruct Hp as (H3 & Hn). split; [done|]. split; [|split; [|done]].
    + eapply log_extends_trans; [exact L2|]. eapply log_extends_one; [apply Hn|done].
    + etrans; [exact G2|by apply popped_none_grows].
Qed.

(** ** Polling *)

Lemma dinv_poll s s' tid q t r :
  dinv s (tid :: q) → outer_typed s' →
  log s' = log s ++ [Outbound (PollTask tid t r)] → ledger s' = ledger s →
  (r = Invalid ↔ st_get (task_slab s) tid = None) →
  (∀ k, is_Some (st_get (task_slab s') k) ↔
     is_Some (st_get (task_slab s) k) ∧ (k = tid → r ≠ Ready)) →
  (∀ k t', st_get (task_slab s') k = Some t' → id t' = k) →
  dinv s' q.
Proof.
  intros [] (Ht & Hc & Hn) Hl Hld Hr Hslab Hids.
  assert (Hin : injected (log s) tid) by (apply di_inj; set_solver).
  assert (Hi : ∀ k, injected (log s') k ↔ injected (log s) k).
  { intros k. rewrite Hl, injected_snoc. naive_solver. }
  assert (Hf : ∀ k, finished (log s') k ↔ finished (log s) k ∨ (k = tid ∧ r = Ready)).
  { intros k. rewrite Hl, ready_snoc. naive_solver. }
  split; try done.
  - rewrite Hl, fifo_snoc, di_fifo. simpl. by rewrite decide_True.
  - intros k Hk. rewrite Hi. apply di_inj. set_solver.
  - intros k Hk. rewrite Hi, Hld. by apply di_ledger.
  - intros k. rewrite Hslab, Hi, Hf, di_slab. naive_solver.
  - rewrite Hl. apply polls_valid_snoc; [done|]. intros ? ? ? [= <- <- <-].
    split; [done|]. split; [|by rewrite di_fifo].
    rewrite Hr, eq_None_not_Some, di_slab. unfold tid_is_invalid.
    destruct (ready_dec (log s) tid); tauto.
  - rewrite Hl. by apply unique_snoc.
  - intros k. rewrite Hi. apply di_range.
Qed.
Lemma poll_future_frame s tid t :
  is_u64 tid → outer_typed s →
  let '(r, t', s') := poll_future_raw s tid t in
  (r = Ready ∨ r = Pending) ∧ id t' = id t ∧ outer_typed s' ∧
  task_slab s' = task_slab s ∧ local_queue s' = local_queue s ∧ log s' = log s ∧
  ledger s' = ledger s ∧ event_interval s' = event_interval s.
Proof.
  intros Ht Ho. unfold poll_future_raw.
  destruct (future_poll tid (future t) _) as [[[ready f] w] effs].
  set (s1 := set_world (set_tls s (Tls.set_current_task (tls s) tid)) w).
  assert (Ho1 : outer_typed s1).
  { destruct Ho as (Hq & ? & ?). split; [|done]. rewrite queued_typed in *. done. }
  destruct (run_effects_ok s1 effs) as [(C1 & C2 & C3 & C4 & C5 & _) (T1 & T2 & T3)]; [|done|].
  { intros k. simpl. by intros [= <-]. }
  simpl. split; [destruct ready; auto|]. split; [done|].
  split; [split; [by rewrite queued_typed in *|done]|].
  rewrite C1, C2, C3, C4, C5. done.
Qed.

(** The poll of the task taken from the head of the queue. *)
Lemma poll_task_ok s tid :
  dinv s (tid :: local_queue s) →
  let s' := poll_task s tid in
  data_inv s' ∧ (∃ t r, log s' = log s ++ [Outbound (PollTask tid t r)]) ∧
  local_queue s' = local_queue s ∧ event_interval s' = event_interval s.
Proof.
  intros H. assert (Hu : is_u64 tid).
  { apply (di_range _ _ H), (di_inj _ _ H). set_solver. }
  unfold poll_task. set (s0 := set_tls s (Tls.clear_notified (tls s) tid)).
  assert (Ho0 : outer_typed s0).
  { destruct (dinv_typed _ _ H) as (Hq & ? & ?). split; [|done]. simpl.
    unfold Tls.clear_notified. case_match; [|done]. by rewrite queued_typed in *. }
  change (Slab.remove (task_slab s0) tid) with (st_remove (task_slab s) tid).
  rewrite (surjective_pairing (st_remove (task_slab s) tid)), st_remove_result.
  fold (st_delete (task_slab s) tid).
  destruct (st_get (task_slab s) tid) as [task|] eqn:Eg.
  - unfold poll_task_action.
    pose proof (poll_future_frame (set_slab s0 (st_delete (task_slab s) tid)) tid task Hu Ho0) as Hf.
    destruct (poll_future_raw _ tid task) as [[r t'] s1].
    destruct Hf as (Hr & Hid & Ho1 & C1 & C2 & C3 & C4 & C5). simpl in C1, C2, C3, C4, C5.
    pose proof (di_ids _ _ H _ _ Eg) as Hidt.
    set (e := Outbound (PollTask tid (Some (id t')) r)).
    assert (Hdel : ∀ k t0, st_get (st_delete (task_slab s) tid) k = Some t0 → id t0 = k).
    { intros k t0. rewrite st_get_delete. case_decide; [done|]. apply (di_ids _ _ H). }
    destruct r; [| |naive_solver].
    + split; [|split; [exists (Some (id t')), Ready; simpl; by rewrite C3|done]].
      unfold data_inv. simpl. rewrite C2.
      eapply (dinv_poll s _ tid _ (Some (id t')) Ready H); simpl; rewrite ?C1, ?C3, ?C4; try done.
      * by rewrite Eg.
      * intros k. rewrite st_get_delete. case_decide as Hk; [|naive_solver].
        split; [by intros []|]. intros [_ Hk']. by destruct Hk'.
    + split; [|split; [exists (Some (id t')), Pending; simpl; by rewrite C3|done]].
      unfold data_inv. simpl. rewrite C2. rewrite C1.
      change (Slab.insert ?a ?b ?c) with (st_insert a b c).
      eapply (dinv_poll s _ tid _ (Some (id t')) Pending H); simpl; rewrite ?C3, ?C4; try done.
      * by rewrite Eg.
      * intros k. rewrite st_get_insert, st_get_delete. case_decide as Hk; [subst k|naive_solver].
        rewrite Eg. split; [by eauto|by eauto].
      * intros k t0. rewrite st_get_insert. case_decide; [|apply Hdel].
        intros [= <-]. congruence.
  - split; [|split; [by exists None, Invalid|done]]. unfold data_inv.
    eapply (dinv_poll s _ tid _ None Invalid H); simpl; try done.
    + intros k. rewrite st_get_delete. case_decide as Hk; [subst; rewrite Eg|naive_solver].
      split; [by intros []|by intros [[] _]].
    + intros k t0. rewrite st_get_delete. case_decide; [done|]. apply (di_ids _ _ H).
Qed.
(** ** The poll loop *)

(** The ids polled by a segment of the log, in order. *)
Definition polls (l : list ExecutorEvent) : list Z :=
  omap (λ e, match e with Outbound (PollTask tid _ _) => Some tid | _ => None end) l.

Lemma polls_app l1 l2 : polls (l1 ++ l2) = polls l1 ++ polls l2.
Proof. apply omap_app. Qed.

Lemma polls_quiet l : Forall (λ e, quiet e = true) l → polls l = [].
Proof. induction 1 as [|e l He Hl IH]; [done|]. simpl. by destruct e as [|[]]. Qed.

Lemma quiet_working e : quiet e = true → working e = true.
Proof. by destruct e as [|[]]. Qed.

(** A run of the poll loop from count [c] to [c'], with interval [n]. *)
Record looped (n c c' : nat) s s' : Prop := {
  lo_inv : data_inv s';
  lo_interval : event_interval s' = event_interval s;
  lo_log : ∃ seg, log s' = log s ++ seg ∧ Forall (λ e, working e = true) seg ∧
    length (polls seg) = c' - c ∧ take (n - c) (local_queue s) `prefix_of` polls seg;
  lo_count : c ≤ c' ≤ n;
  lo_queue : drop (n - c) (local_queue s) `prefix_of` local_queue s';
  lo_full : n - c ≤ length (local_queue s) → c' = n;
}.

Lemma looped_stop n c s s1 :
  data_inv s1 → log_extends s s1 quiet → event_interval s1 = event_interval s → c ≤ n →
  drop (n - c) (local_queue s) `prefix_of` local_queue s1 →
  take (n - c) (local_queue s) = [] → (n - c ≤ length (local_queue s) → c = n) →
  looped n c c s s1.
Proof.
  intros H1 (g & Hg & Hf) Hi Hc Hd Ht Hfull. split; try done.
  exists g. rewrite (polls_quiet g Hf), Ht, Nat.sub_diag. split; [done|].
  split; [|done]. eapply Forall_impl; [exact Hf|]. apply quiet_working.
Qed.

Lemma looped_step n c c' s s1 s' tid :
  data_inv s → dinv s1 (tid :: local_queue s1) → log_extends s s1 quiet →
  event_interval s1 = event_interval s →
  (∀ x q, local_queue s = x :: q → tid = x ∧ local_queue s1 = q ∧ log s1 = log s) →
  c < n → looped n (c + 1) c' (poll_task s1 tid) s' → looped n c c' s s'.
Proof.
  intros H H1 (g & Hg & Hf) Hi Hhead Hc [].
  destruct (poll_task_ok s1 tid H1) as (_ & (t & r & Hl) & Hq & Hi').
  rewrite Hq in *. destruct lo_log0 as (seg & Hseg & Hw & Hlen & Hpre).
  split; [done|congruence| |lia|..].
  - exists (g ++ Outbound (PollTask tid t r) :: seg).
    rewrite Hseg, Hl, Hg, <- !app_assoc. split; [done|]. split.
    { apply Forall_app. split; [eapply Forall_impl; [exact Hf|]; apply quiet_working|].
      by constructor. }
    rewrite polls_app, (polls_quiet g Hf). simpl. split; [lia|].
    destruct (local_queue s) as [|x q] eqn:Eq; [rewrite take_nil; apply prefix_nil|].
    destruct (Hhead x q eq_refl) as (-> & Hq1 & _). rewrite Hq1 in Hpre.
    replace (n - c) with (S (n - (c + 1))) by lia. by apply prefix_cons.
  - destruct (local_queue s) as [|x q] eqn:Eq; [rewrite drop_nil; apply prefix_nil|].
    destruct (Hhead x q eq_refl) as (-> & Hq1 & _). rewrite Hq1 in lo_queue0.
    by replace (n - c) with (S (n - (c + 1))) by lia.
  - destruct (local_queue s) as [|x q] eqn:Eq; [simpl; lia|].
    destruct (Hhead x q eq_refl) as (-> & Hq1 & _). rewrite Hq1 in lo_full0.
    simpl. intros. apply lo_full0. lia.
Qed.

Lemma poll_while_ok fuel n c s :
  data_inv s → c ≤ n → n - c ≤ fuel →
  let '(c', s') := poll_while fuel n c s in looped n c c' s s'.
Proof.
  revert c s. induction fuel as [|fuel IH]; intros c s H Hc Hf; simpl.
  - apply looped_stop; [done|apply log_extends_refl|done|done|..]; replace (n - c) with 0 by lia;
      [done|done|lia].
  - destruct (Nat.ltb_spec c n) as [Hlt|Hge].
    + pose proof (next_task_ok s H) as Hn. destruct (next_task s) as [[tid|] s1].
      * destruct Hn as (H1 & Hl & Hi & Hhead).
        destruct (poll_task_ok s1 tid H1) as (H2 & _).
        specialize (IH (c + 1) (poll_task s1 tid) H2 ltac:(lia) ltac:(lia)).
        destruct (poll_while fuel n (c + 1) (poll_task s1 tid)) as [c' s'].
        by eapply looped_step.
      * destruct Hn as (H1 & Hl & [_ Hi] & Hq).
        apply looped_stop; rewrite ?Hq, ?drop_nil, ?take_nil; try done; [apply prefix_nil|].
        simpl. lia.
    + apply looped_stop; [done|apply log_extends_refl|done|done|..]; replace (n - c) with 0 by lia;
        [done|done|lia].
Qed.

Lemma poll_loop_eq n c s : poll_loop n c s = poll_while (n - c) n c s.
Proof.
  unfold poll_loop. destruct (Nat.leb_spec n c).
  - by replace (n - c) with 0 by lia.
  - replace (n - c) with (S (n - (c + 1))) by lia. simpl.
    destruct (Nat.ltb_spec c n); [|lia]. by destruct (next_task s) as [[tid|] s1].
Qed.

Lemma poll_loop_ok n c s :
  data_inv s → c ≤ n → let '(c', s') := poll_loop n c s in looped n c c' s s'.
Proof. intros H Hc. rewrite poll_loop_eq. by apply poll_while_ok. Qed.

(** ** Parking *)

Lemma park_action_ok s b :
  data_inv s →
  data_inv (park_action s b) ∧ log (park_action s b) = log s ++ [Outbound Park] ∧
  local_queue (park_action s b) = local_queue s ∧
  event_interval (park_action s b) = event_interval s.
Proof.
  intros H. unfold park_action.
  destruct (reactor_park (park_timeout b) _) as [w exts].
  destruct (run_externals_ok (set_world s w) exts) as [(C1 & C2 & C3 & C4 & C5 & _) Ho].
  { destruct (dinv_typed _ _ H) as (? & ? & ?). done. }
  set (s1 := foldl run_external (set_world s w) exts) in *. simpl in C1, C2, C3, C4, C5.
  split; [|simpl; rewrite C3; done]. unfold data_inv. simpl. rewrite C2.
  assert (H1 : dinv s1 (local_queue s)) by by apply (dinv_outer s).
  apply (dinv_record s1 _ (Outbound Park)) in H1; [done|done|]. by left.
Qed.

Lemma park_ok s :
  data_inv s →
  data_inv (park s) ∧ grows s (park s) ∧
  ∃ r t, log (park s) =
    log s ++ [Outbound Park; Outbound (Drain ReactorWake r); Outbound (Drain TaskWake t)].
Proof.
  intros H. unfold park. simpl. set (t1 := Tls.drain_cross_thread _).
  set (s2 := set_tls (set_tls s t1) _).
  assert (H2 : data_inv s2).
  { apply (dinv_outer s); try done. destruct (dinv_typed _ _ H) as (Ht & ? & ?).
    split; [|done]. simpl. apply queued_typed. simpl.
    assert (Htt : tls_typed t1); [|by rewrite queued_typed in Htt].
    apply drain_cross_typed. by rewrite queued_typed in *. }
  match goal with |- context [park_action s2 ?b] => set (b0 := b) end.
  destruct (park_action_ok s2 b0 H2) as (H3 & L3 & Q3 & I3).
  set (s3 := park_action s2 b0) in *.
  destruct (drain_reactor_ok s3 H3) as [H4 D4]. set (s4 := drain_reactor_ready_into_local s3) in *.
  destruct (drain_task_ok s4 H4) as [H5 D5]. split; [done|]. split.
  - assert (G : grows s s3) by (split; [by rewrite Q3|done]).
    etrans; [exact G|]. etrans; eapply drained_grows; done.
  - destruct D4 as (r & L4 & _). destruct D5 as (t & L5 & _). exists r, t.
    rewrite L5, L4, L3. by rewrite <- !app_assoc.
Qed.
End tick.
