(* ===== verification/ExecSpec.v ===== *)
(** * ExecSpec: what the executor promises

    A tick keeps the data invariant and the nine log invariants E1-E9 of the
    source, polls at most [event_interval] tasks, and polls the front of the local
    queue in order, so that every queued task is polled after finitely many
    ticks.  [pop_injection] empties the channel when ids are fresh. *)

From S2P Require Import Prelude Store Slab TidLedger ExecLog Tls Executor ExecInv ExecOps ExecTick.
Import ExecLog Executor.

(** ** The events of a tick *)

Section extend.
Implicit Types (l body : list ExecutorEvent).

Definition tick_events body : list ExecutorEvent :=
  Inbound (Tick None) :: body ++ [Inbound (Tick (Some tt))].

Definition inner (e : ExecutorEvent) : bool := match e with Inbound _ => false | _ => true end.

Lemma tick_lookup l body i e :
  (l ++ tick_events body) !! i = Some e →
  l !! i = Some e ∨ (i = length l ∧ e = Inbound (Tick None)) ∨
  (∃ j, i = length l + S j ∧ body !! j = Some e) ∨
  (i = length l + S (length body) ∧ e = Inbound (Tick (Some tt))).
Proof.
  unfold tick_events. intros [Hl|[Hle Hl]]%lookup_app_Some; [by left|right].
  destruct (i - length l) as [|j] eqn:Ej; simpl in Hl; [left; split; [lia|congruence]|right].
  apply lookup_app_Some in Hl as [Hl|[Hle' Hl]].
  - left. exists j. split; [lia|done].
  - right. apply list_lookup_singleton_Some in Hl as [Hj <-]. split; [lia|done].
Qed.

Lemma tick_lookup_old l body i e : l !! i = Some e → (l ++ tick_events body) !! i = Some e.
Proof. apply lookup_app_l_Some. Qed.

Lemma tick_lookup_body l body j e :
  body !! j = Some e → (l ++ tick_events body) !! (length l + S j) = Some e.
Proof.
  intros Hj. rewrite lookup_app_r by lia.
  replace (length l + S j - length l) with (S j) by lia. simpl. by apply lookup_app_l_Some.
Qed.

(** A window that lies in the old log is unchanged. *)
Lemma no_begin_old l l' a b :
  b < length l → no_tick_begin_between l a b → no_tick_begin_between (l ++ l') a b.
Proof.
  intros Hb H k Hk (e & He & Hp). apply (H k Hk). exists e.
  by rewrite lookup_app_l in He by lia.
Qed.

Lemma no_end_old l l' a b :
  b < length l → no_tick_end_between l a b → no_tick_end_between (l ++ l') a b.
Proof.
  intros Hb H k Hk (e & He & Hp). apply (H k Hk). exists e.
  by rewrite lookup_app_l in He by lia.
Qed.

Lemma at_pos_lt p l i : at_pos p l i → i < length l.
Proof. intros (e & He & _). by eapply lookup_lt_Some. Qed.

Lemma at_pos_old p l l' i : at_pos p l i → at_pos p (l ++ l') i.
Proof. intros (e & He & Hp). exists e. by rewrite lookup_app_l by (by eapply lookup_lt_Some). Qed.

Context (l body : list ExecutorEvent) (Hinner : Forall (λ e, inner e = true) body).

(** After the begin event of the tick there is no other begin in it. *)
Lemma no_begin_in_tick a b : length l ≤ a → no_tick_begin_between (l ++ tick_events body) a b.
Proof.
  intros Ha k Hk (e & He & Hp).
  apply tick_lookup in He as [He|[[He _]|[(j & _ & He)|[_ ->]]]]; [|lia| |done].
  - apply lookup_lt_Some in He. lia.
  - rewrite Forall_lookup in Hinner. apply Hinner in He. by destruct e.
Qed.

Lemma no_end_in_tick a b :
  length l ≤ a → b ≤ length l + S (length body) →
  no_tick_end_between (l ++ tick_events body) a b.
Proof.
  intros Ha Hb k Hk (e & He & Hp).
  apply tick_lookup in He as [He|[[He _]|[(j & _ & He)|[He ->]]]]; [|lia| |lia].
  - apply lookup_lt_Some in He. lia.
  - rewrite Forall_lookup in Hinner. apply Hinner in He. by destruct e.
Qed.

Lemma tick_contains_extend p :
  tick_contains p l → (∃ j e, body !! j = Some e ∧ p e = true) →
  tick_contains p (l ++ tick_events body).
Proof.
  intros H (j & e & Hj & Hp) i (e' & Hi & He').
  apply tick_lookup in Hi as [Hi|[[-> ->]|[(j' & -> & Hi)|[-> _]]]].
  - destruct (H i) as (q & Hq & Hat & Hno); [by exists e'|].
    exists q. split; [done|]. split; [by apply at_pos_old|].
    apply no_begin_old; [by eapply lookup_lt_Some|done].
  - done.
  - rewrite Forall_lookup in Hinner. apply Hinner in Hi. by destruct e'.
  - exists (length l + S j). pose proof (lookup_lt_Some _ _ _ Hj). split; [lia|]. split.
    + exists e. split; [by apply tick_lookup_body|done].
    + apply no_begin_in_tick. lia.
Qed.

Lemma park_extend :
  inv_park_drain_reactor_wake l →
  (∀ j, body !! j = Some (Outbound Park) → ∃ r, body !! S j = Some (Outbound (Drain ReactorWake r))) →
  inv_park_drain_reactor_wake (l ++ tick_events body).
Proof.
  intros H Hpark i (e & Hi & He).
  apply tick_lookup in Hi as [Hi|[[-> ->]|[(j & -> & Hi)|[-> ->]]]]; [|done| |done].
  - destruct (H i) as (j & Hj & Hat & Hno); [by exists e|].
    exists j. split; [done|]. split; [by apply at_pos_old|].
    apply no_end_old; [by eapply at_pos_lt|done].
  - destruct e as [|[| | |]]; try done. destruct (Hpark j Hi) as [r Hr].
    pose proof (lookup_lt_Some _ _ _ Hr).
    exists (length l + S (S j)). split; [lia|]. split.
    + eexists. split; [by apply tick_lookup_body|]. by apply bool_decide_true.
    + apply no_end_in_tick; lia.
Qed.

Lemma polls_extend :
  inv_tick_polls_if_runnable l →
  (fifo l ≠ [] → ∃ j e, body !! j = Some e ∧ is_poll_task e = true) →
  inv_tick_polls_if_runnable (l ++ tick_events body).
Proof.
  intros H Hrun i (e & Hi & He).
  apply tick_lookup in Hi as [Hi|[[-> ->]|[(j & -> & Hi)|[-> ->]]]].
  - pose proof (lookup_lt_Some _ _ _ Hi). rewrite fifo_queue_at_app by lia. intros Hq.
    destruct (H i) as (j & Hj & Hat & Hno); [by exists e|done|].
    exists j. split; [done|]. split; [by apply at_pos_old|].
    apply no_end_old; [by eapply at_pos_lt|done].
  - rewrite fifo_queue_at_app by lia. intros Hq. destruct (Hrun Hq) as (j & e & Hj & Hp).
    pose proof (lookup_lt_Some _ _ _ Hj).
    exists (length l + S j). split; [lia|]. split.
    + exists e. split; [by apply tick_lookup_body|done].
    + apply no_end_in_tick; lia.
  - rewrite Forall_lookup in Hinner. apply Hinner in Hi. by destruct e.
  - done.
Qed.

Lemma within_extend : inv_poll_within_tick l → inv_poll_within_tick (l ++ tick_events body).
Proof.
  intros H i (e & Hi & He).
  apply tick_lookup in Hi as [Hi|[[-> ->]|[(j & -> & Hi)|[-> ->]]]]; [|done| |done].
  - destruct (H i) as (tb & Htb & Hat & Hno); [by exists e|].
    exists tb. split; [done|]. split; [by apply at_pos_old|].
    apply no_begin_old; [by eapply lookup_lt_Some|done].
  - exists (length l). split; [lia|]. split; [|apply no_begin_in_tick; lia].
    exists (Inbound (Tick None)). split; [|done]. by apply list_lookup_middle.
Qed.
End extend.

Section spec.
Context {F W : Type} `{!Env F W}.
Implicit Types (s : Executor F W) (tid : Z).

(** The events of a tick, between its begin and its end. *)
Definition tick_body (d : list Z) (pops work1 : list ExecutorEvent) (r t : list Z)
    (work2 : list ExecutorEvent) : list ExecutorEvent :=
  Outbound (Drain Deferred d) :: pops ++ work1 ++
  Outbound Park :: Outbound (Drain ReactorWake r) :: Outbound (Drain TaskWake t) :: work2.

Lemma tick_ok s :
  data_inv s →
  ∃ d pops work1 r t work2,
    log (tick s) = log s ++ tick_events (tick_body d pops work1 r t work2) ∧
    data_inv (tick s) ∧ event_interval (tick s) = event_interval s ∧
    pops ≠ [] ∧ Forall (λ e, is_pop_injection e = true) pops ∧
    Forall (λ e, working e = true) work1 ∧ Forall (λ e, working e = true) work2 ∧
    length (polls (work1 ++ work2)) ≤ event_interval s ∧
    take (event_interval s) (local_queue s) `prefix_of` polls (work1 ++ work2) ∧
    drop (event_interval s) (local_queue s) `prefix_of` local_queue (tick s).
Proof.
  intros H. unfold tick. set (n := event_interval s).
  set (s1 := record s (Inbound (Tick None))).
  assert (H1 : data_inv s1).
  { unfold data_inv in *. apply (dinv_record s _ (Inbound (Tick None))) in H; [done|done|by left]. }
  destruct (drain_deferred_ok s1 H1) as [H2 D2]. change (drain_deferred_into_local s1) with (wake_deferred s1) in *.
  set (s2 := wake_deferred s1) in *.
  destruct (pop_injection_ok s2 H2) as (H3 & (pops & L3 & P3) & G3 & N3).
  set (s3 := pop_injection s2) in *.
  pose proof (poll_loop_ok n 0 s3 H3 ltac:(lia)) as Hl1.
  destruct (poll_loop n 0 s3) as [c s4]. destruct Hl1.
  destruct (park_ok s4 lo_inv) as (H5 & G5 & (r & t & L5)). set (s5 := park s4) in *.
  pose proof (poll_loop_ok n c s5 H5 ltac:(lia)) as Hl2.
  destruct (poll_loop n c s5) as [c' s6]. destruct Hl2.
  destruct lo_log as (w1 & L4 & F1 & N1 & T1). destruct lo_log0 as (w2 & L6 & F2 & N2 & T2).
  destruct D2 as (d & L2 & Q2 & I2 & _).
  exists d, pops, w1, r, t, w2.
  assert (Hq3 : local_queue s `prefix_of` local_queue s3).
  { destruct G3 as [G3 _]. rewrite Q2 in G3. etrans; [|exact G3]. by apply prefix_app_r. }
  split; [|split; [|split; [|split; [|split; [done|split; [done|split; [done|split; [|split]]]]]]]].
  - simpl. rewrite L6, L5, L4, L3, L2. simpl. unfold tick_events, tick_body.
    by repeat (simpl; rewrite <- ?app_assoc).
  - unfold data_inv in *.
    apply (dinv_record s6 _ (Inbound (Tick (Some tt)))) in lo_inv0; [done|done|by left].
  - simpl. destruct G3 as [_ I3]. destruct G5 as [_ I5].
    change (event_interval s1) with n in I2. congruence.
  - intros ->. rewrite app_nil_r in L3. done.
  - rewrite polls_app, length_app. lia.
  - rewrite polls_app. apply prefix_app_r. rewrite Nat.sub_0_r in T1. etrans; [|exact T1].
    destruct Hq3 as [k ->]. rewrite take_app. by apply prefix_app_r.
  - simpl. destruct (Nat.le_gt_cases n (length (local_queue s))) as [Hle|Hlt].
    + assert (c = n) as ->.
      { apply lo_full. apply prefix_length in Hq3. lia. }
      rewrite Nat.sub_diag, drop_0 in lo_queue0. rewrite Nat.sub_0_r in lo_queue.
      etrans; [|exact lo_queue0]. destruct G5 as [G5 _]. etrans; [|exact G5].
      etrans; [|exact lo_queue]. destruct Hq3 as [k ->]. rewrite drop_app_le by lia.
      by apply prefix_app_r.
    + rewrite drop_ge by lia. apply prefix_nil.
Qed.

Lemma tick_body_inner d pops work1 r t work2 :
  Forall (λ e, is_pop_injection e = true) pops → Forall (λ e, working e = true) work1 →
  Forall (λ e, working e = true) work2 →
  Forall (λ e, inner e = true) (tick_body d pops work1 r t work2).
Proof.
  intros Hp H1 H2. unfold tick_body. constructor; [done|].
  assert (Hw : ∀ w, Forall (λ e, working e = true) w → Forall (λ e, inner e = true) w).
  { intros w Hw. eapply Forall_impl; [exact Hw|]. by intros []. }
  repeat rewrite ?Forall_app, ?Forall_cons. repeat split; auto.
  eapply Forall_impl; [exact Hp|]. by intros [].
Qed.

(** Parking occurs once in a tick, and the reactor drain follows it. *)
Lemma tick_body_park d pops work1 r t work2 j :
  Forall (λ e, is_pop_injection e = true) pops → Forall (λ e, working e = true) work1 →
  Forall (λ e, working e = true) work2 →
  tick_body d pops work1 r t work2 !! j = Some (Outbound Park) →
  ∃ r', tick_body d pops work1 r t work2 !! S j = Some (Outbound (Drain ReactorWake r')).
Proof.
  intros Hp H1 H2. rewrite Forall_lookup in Hp, H1, H2. unfold tick_body.
  destruct j as [|j]; simpl; [done|]. rewrite !lookup_app.
  destruct (pops !! j) as [e|] eqn:E1; [intros [= ->]; by apply Hp in E1|].
  apply lookup_ge_None in E1. rewrite (lookup_ge_None_2 pops (S j)) by lia.
  replace (S j - length pops) with (S (j - length pops)) by lia.
  destruct (work1 !! _) as [e|] eqn:E2; [intros [= ->]; by apply H1 in E2|].
  apply lookup_ge_None in E2. rewrite (lookup_ge_None_2 work1) by lia.
  replace (S (j - length pops) - length work1) with (S (j - length pops - length work1)) by lia.
  destruct (j - length pops - length work1) as [|[|[|m]]]; simpl; try done; [by exists r|].
  intros Hm. by apply H2 in Hm.
Qed.

Lemma polls_lookup l tid :
  tid ∈ polls l → ∃ j t r, l !! j = Some (Outbound (PollTask tid t r)).
Proof.
  unfold polls. rewrite list_elem_of_omap. intros (e & He & Heq).
  apply list_elem_of_lookup in He as [j Hj].
  destruct e as [|[k t r| | |]]; simplify_eq. by exists j, t, r.
Qed.

Lemma tick_body_polls d pops work1 r t work2 :
  Forall (λ e, is_pop_injection e = true) pops →
  polls (tick_body d pops work1 r t work2) = polls (work1 ++ work2).
Proof.
  intros Hp. unfold tick_body. simpl. rewrite !polls_app. simpl.
  rewrite (polls_quiet pops); [done|]. eapply Forall_impl; [exact Hp|]. by intros [|[]].
Qed.

(** The invariants E1-E9 over one tick. *)
Lemma tick_executor_inv_lemma s :
  data_inv s → executor_inv (log s) → 0 < event_interval s → executor_inv (log (tick s)).
Proof.
  intros H ((I1 & I5 & I6 & I7 & I8) & (I2 & I3 & _)) Hn.
  destruct (tick_ok s H) as (d & pops & w1 & r & t & w2 & Hl & H' & _ & Hne & Fp & F1 & F2 & _ & Ht & _).
  pose proof (tick_body_inner d pops w1 r t w2 Fp F1 F2) as Hin.
  set (body := tick_body d pops w1 r t w2) in *. destruct (di_polls _ _ H') as [I4 I9].
  rewrite Hl in *.
  assert (Hlast : ∀ e, e ∈ body → ∃ j, body !! j = Some e) by (intros; by apply list_elem_of_lookup).
  assert (Hc : ∀ p e, p e = true → e ∈ body → ∃ j e, body !! j = Some e ∧ p e = true).
  { intros p e Hp [j Hj]%Hlast. eauto. }
  split; [|split; [|split; [|split; [|done]]]].
  - split; [apply park_extend; [done..|]; intros j; by apply tick_body_park|].
    split; [|split; [|split]]; apply tick_contains_extend; try done.
    + apply (Hc is_park (Outbound Park)); [done|]. unfold body, tick_body. set_solver.
    + destruct pops as [|e pops']; [done|]. inversion Fp; subst.
      apply (Hc is_pop_injection e); [done|]. unfold body, tick_body. set_solver.
    + apply (Hc _ (Outbound (Drain Deferred d))); [by apply bool_decide_true|].
      unfold body, tick_body. set_solver.
    + apply (Hc _ (Outbound (Drain TaskWake t))); [by apply bool_decide_true|].
      unfold body, tick_body. set_solver.
  - apply polls_extend; [done..|]. intros Hq. rewrite (di_fifo _ _ H) in Hq.
    destruct (local_queue s) as [|x q]; [done|].
    destruct (polls_lookup body x) as (j & t' & r' & Hj).
    + unfold body. rewrite tick_body_polls by done. eapply elem_of_prefix; [|exact Ht].
      destruct (event_interval s); [lia|]. simpl. set_solver.
    + by exists j, (Outbound (PollTask x t' r')).
  - by apply within_extend.
  - done.
Qed.

(** ** Reachable states *)

(** An executor starts on a thread whose thread-locals may hold anything, for example
    what an earlier runtime left there.  Between ticks, wakers are invoked, tasks are
    spawned and [block_on] polls its main future. *)
Inductive reachable (reactor : W) (n : nat) : Executor F W → Prop :=
  | r_new t : tls_typed t → reachable reactor n (new_on t reactor n)
  | r_external s x : reachable reactor n s → reachable reactor n (run_external s x)
  | r_main s f : reachable reactor n s → reachable reactor n (poll_main s f).2
  | r_tick s : reachable reactor n s → reachable reactor n (tick s).

Lemma init_typed : tls_typed Tls.init.
Proof. constructor. Qed.

Lemma r_init reactor n : reachable reactor n (new reactor n).
Proof. apply r_new, init_typed. Qed.

Lemma new_data_inv t reactor n : tls_typed t → data_inv (new_on t reactor n : Executor F W).
Proof.
  intros Hty.
  assert (Hi : ∀ tid, ¬ injected (@nil ExecutorEvent) tid) by (intros tid (j & Hj & _); simpl in Hj; lia).
  split; simpl; try done.
  - by intros tid ?%not_elem_of_nil.
  - intros tid Ht. rewrite TidLedger.contains_new by done. split; [done|]. by intros ?%Hi.
  - intros tid. change (Slab.new : Slab.Slab (Task F)) with (st_empty : Slab.Slab (Task F)).
    rewrite st_get_empty. split; [by intros []|]. by intros [?%Hi _].
  - intros tid tk. change (Slab.new : Slab.Slab (Task F)) with (st_empty : Slab.Slab (Task F)).
    by rewrite st_get_empty.
  - by intros tid ?%Hi.
  - rewrite queued_typed in *. simpl. naive_solver.
Qed.

Lemma new_executor_inv : executor_inv [].
Proof.
  assert (H : ∀ p i, ¬ at_pos p [] i) by (intros p i (e & He & _); by rewrite lookup_nil in He).
  split; [|split; [|split; [|exact polls_valid_nil]]].
  - split; [by intros i ?%H|]. repeat split; by intros i ?%H.
  - by intros i ?%H.
  - by intros i ?%H.
Qed.

Lemma run_external_inv s x : data_inv s → data_inv (run_external s x) ∧
  log (run_external s x) = log s ∧ event_interval (run_external s x) = event_interval s.
Proof.
  intros H. destruct (run_external_core s x) as (C1 & C2 & C3 & C4 & C5 & _).
  split; [|done]. unfold data_inv. rewrite C2. apply (dinv_outer s); try done.
  apply run_external_typed, (dinv_typed _ _ H).
Qed.

Lemma poll_main_inv s f : data_inv s → data_inv (poll_main s f).2 ∧
  log (poll_main s f).2 = log s ∧ event_interval (poll_main s f).2 = event_interval s.
Proof.
  intros H. unfold poll_main. simpl.
  destruct (future_poll u64_max f (world s)) as [[[ready f'] w] effs]. simpl.
  set (s1 := set_world (set_tls s (Tls.set_current_task (tls s) u64_max)) w).
  destruct (run_effects_ok s1 effs) as [(C1 & C2 & C3 & C4 & C5 & _) (T1 & T2 & T3)].
  - intros k. simpl. intros [= <-]. u64.
  - destruct (dinv_typed _ _ H) as (Hq & ? & ?). split; [|done]. by rewrite queued_typed in *.
  - split; [|done]. unfold data_inv. simpl. rewrite C2. apply (dinv_outer s); try done.
Qed.

Lemma reachable_inv reactor n s :
  0 < n → reachable reactor n s →
  data_inv s ∧ executor_inv (log s) ∧ event_interval s = n.
Proof.
  intros Hn. induction 1 as [t Ht|s x _ (H & I & E)|s f _ (H & I & E)|s _ (H & I & E)].
  - split; [by apply new_data_inv|]. split; [apply new_executor_inv|done].
  - destruct (run_external_inv s x H) as (H' & -> & ->). done.
  - destruct (poll_main_inv s f H) as (H' & -> & ->). done.
  - split; [|split; [|]].
    + by destruct (tick_ok s H) as (? & ? & ? & ? & ? & ? & _ & ? & _).
    + apply tick_executor_inv_lemma; [done..|lia].
    + destruct (tick_ok s H) as (? & ? & ? & ? & ? & ? & _ & _ & -> & _). done.
Qed.

Fixpoint ticks (m : nat) s : Executor F W :=
  match m with 0 => s | S m' => ticks m' (tick s) end.

(** [tid] is polled in the part of the log of [s'] that is new since [s]. *)
Definition polled_since s s' tid : Prop :=
  ∃ i t r, length (log s) ≤ i ∧ log s' !! i = Some (Outbound (PollTask tid t r)).

Lemma tick_log_app s : data_inv s → ∃ seg, log (tick s) = log s ++ seg.
Proof. intros H. destruct (tick_ok s H) as (? & ? & ? & ? & ? & ? & -> & _). by eexists. Qed.

Lemma ticks_log_app m s : data_inv s → ∃ seg, log (ticks m s) = log s ++ seg.
Proof.
  revert s. induction m as [|m IH]; intros s H; simpl; [by exists []; rewrite app_nil_r|].
  destruct (tick_ok s H) as (? & ? & ? & ? & ? & ? & Hl & H' & _).
  destruct (IH _ H') as [seg ->]. rewrite Hl, <- app_assoc. by eexists.
Qed.

Lemma ticks_poll m k s tid :
  k < m * event_interval s → data_inv s → local_queue s !! k = Some tid →
  polled_since s (ticks m s) tid.
Proof.
  revert k s. induction m as [|m IH]; intros k s Hk H Hq; [lia|]. simpl.
  destruct (tick_ok s H) as (d & pops & w1 & r & t & w2 & Hl & H' & Hi & _ & Fp & _ & _ & _ & Ht & Hd).
  destruct (ticks_log_app m _ H') as [seg Hseg].
  destruct (decide (k < event_interval s)) as [Hlt|Hge].
  - assert (Hin : tid ∈ take (event_interval s) (local_queue s)).
    { apply list_elem_of_lookup. exists k. by rewrite lookup_take_lt. }
    pose proof (elem_of_prefix _ _ _ Hin Ht) as Hp.
    rewrite <- (tick_body_polls d pops w1 r t w2) in Hp by done.
    apply polls_lookup in Hp as (j & t' & r' & Hj).
    exists (length (log s) + S j), t', r'. split; [lia|].
    rewrite Hseg, Hl. apply lookup_app_l_Some. by apply tick_lookup_body.
  - assert (Hq' : local_queue (tick s) !! (k - event_interval s) = Some tid).
    { eapply prefix_lookup_Some; [|exact Hd]. rewrite lookup_drop.
      by replace (event_interval s + (k - event_interval s)) with k by lia. }
    destruct (IH (k - event_interval s) (tick s)) as (i & t' & r' & Hi' & Hp);
      [rewrite Hi; lia|done..|].
    exists i, t', r'. split; [|done]. rewrite Hl, length_app in Hi'. lia.
Qed.

(** Fresh ids: those of the channel are distinct and below the counter, and so
    are those already injected. *)
Definition fresh s : Prop :=
  NoDup (id <$> injection_queue s) ∧
  (∀ tid, tid ∈ id <$> injection_queue s → ¬ injected (log s) tid ∧ (tid < task_id_counter s)%Z) ∧
  (∀ tid, injected (log s) tid → (tid < task_id_counter s)%Z).

Lemma spawn_fresh s f : fresh s → (0 ≤ task_id_counter s < u64_max)%Z → fresh (spawn s f).
Proof.
  intros (Hnd & Hch & Hin) Hc.
  assert (Hw : wrap64 (task_id_counter s + 1) = (task_id_counter s + 1)%Z).
  { apply wrap64_id. u64. }
  split; [|split]; simpl; rewrite ?fmap_app, ?Hw; simpl.
  - apply NoDup_app. split; [done|]. split; [|apply NoDup_singleton].
    intros tid Ht. apply Hch in Ht as [_ Ht]. intros ->%list_elem_of_singleton. lia.
  - intros tid [Ht|Ht]%elem_of_app.
    + apply Hch in Ht as [? ?]. split; [done|lia].
    + apply list_elem_of_singleton in Ht as ->. split; [|lia]. intros Hi. apply Hin in Hi. lia.
  - intros tid Ht. apply Hin in Ht. lia.
Qed.

Lemma fresh_not_known s task rest :
  data_inv s → injection_queue s = task :: rest → ¬ injected (log s) (id task) →
  TidLedger.contains (ledger s) (id task) = false.
Proof.
  intros H Einj Hfr. destruct (TidLedger.contains _ _) eqn:Ec; [|done]. destruct Hfr.
  pose proof (di_chan _ _ H) as Hch. rewrite Einj in Hch. inversion Hch as [|? ? Hu]; subst.
  apply (di_ledger _ _ H); [apply Hu|done].
Qed.

Lemma pop_injection_loop_fresh fuel s :
  data_inv s → NoDup (id <$> injection_queue s) →
  (∀ tid, tid ∈ id <$> injection_queue s → ¬ injected (log s) tid) →
  length (injection_queue s) < fuel →
  let s' := pop_injection_loop fuel s in
  let ids := id <$> injection_queue s in
  injection_queue s' = [] ∧ local_queue s' = local_queue s ++ ids ∧
  log s' = log s ++ ((λ i, Outbound (PopInjection (Some i))) <$> ids) ++
           [Outbound (PopInjection None)].
Proof.
  revert s. induction fuel as [|fuel IH]; intros s H Hnd Hfr Hlen; [lia|]. simpl.
  pose proof (pop_injection_action_ok s H) as Hp. unfold pop_injection_action in *.
  destruct (injection_queue s) as [|task rest] eqn:Einj.
  { simpl. by rewrite app_nil_r. }
  simpl in Hnd, Hfr, Hlen. apply NoDup_cons in Hnd as [Hnin Hnd].
  simpl in Hp |- *. rewrite (fresh_not_known s task rest) in * by (done || apply Hfr; set_solver).
  destruct Hp as (H1 & _). specialize (IH _ H1). simpl in IH.
  destruct IH as (I1 & I2 & I3); [done| |lia|].
  - intros tid Ht Hi. apply injected_snoc in Hi as [Hi|Hi].
    + apply (Hfr tid); [set_solver|done].
    + injection Hi as <-. done.
  - split; [done|]. rewrite I2, I3, <- !app_assoc. done.
Qed.

(** ** Properties *)

(** C1. Every reachable state of the executor, from [Executor::new] on any thread through
    ticks, wakes, spawns and polls of [block_on]'s main future, satisfies the data
    invariant (the local queue is the FIFO queue of the log, the ledger is the set
    of injected ids, the slab holds exactly the tasks injected and not finished)
    and the nine log invariants E1-E9 of the source. *)
Theorem executor_inv_reachable reactor n s :
  0 < n → reachable reactor n s → data_inv s ∧ executor_inv (log s).
Proof. intros Hn Hs. by destruct (reachable_inv reactor n s Hn Hs) as (? & ? & _). Qed.

(** One [tick] records the source's shape of events: the deferred drain, the
    pops, the polls, one park followed by the reactor and the task drains, the
    remaining polls; it polls at most [event_interval] tasks, starting with the
    tasks at the front of the local queue in their order, and those it does not
    reach stay at the front. *)
Theorem tick_polls_front s :
  data_inv s →
  ∃ body, log (tick s) = log s ++ tick_events body ∧
    length (polls body) ≤ event_interval s ∧
    take (event_interval s) (local_queue s) `prefix_of` polls body ∧
    drop (event_interval s) (local_queue s) `prefix_of` local_queue (tick s).
Proof.
  intros H.
  destruct (tick_ok s H) as (d & pops & w1 & r & t & w2 & Hl & _ & _ & _ & Fp & _ & _ & Hlen & Ht & Hd).
  exists (tick_body d pops w1 r t w2). by rewrite tick_body_polls.
Qed.

(** Bounded waiting: a task at index [k] of the local queue is polled within
    [k / event_interval + 1] ticks, whatever the futures and the reactor do. *)
Theorem queued_task_polled s k tid :
  data_inv s → 0 < event_interval s → local_queue s !! k = Some tid →
  polled_since s (ticks (k / event_interval s + 1) s) tid.
Proof.
  intros H Hn Hq. apply (ticks_poll _ k); [|done..].
  pose proof (Nat.div_mod k (event_interval s) ltac:(lia)).
  pose proof (Nat.mod_upper_bound k (event_interval s) ltac:(lia)). lia.
Qed.

(** [pop_injection]: when the ids of the channel are fresh, as the monotone
    counter of [spawn] makes them, the drain ends with an empty channel and every
    spawned task is accepted, in the order of the sends. *)
Theorem pop_injection_drains s :
  data_inv s → fresh s →
  let s' := pop_injection s in
  let ids := id <$> injection_queue s in
  injection_queue s' = [] ∧ local_queue s' = local_queue s ++ ids ∧
  log s' = log s ++ ((λ i, Outbound (PopInjection (Some i))) <$> ids) ++
           [Outbound (PopInjection None)].
Proof.
  intros H (Hnd & Hfr & _). cbv zeta. rewrite pop_injection_unfold.
  apply pop_injection_loop_fresh; [done..|by intros tid [? _]%Hfr|].
  unfold pop_injection_action.
  destruct (injection_queue s) as [|task rest] eqn:Einj; [simpl; lia|]. simpl.
  rewrite (fresh_not_known s task rest); [simpl; lia|done..|].
  apply Hfr. set_solver.
Qed.

(** Task lifecycle: in a reachable state every id was injected at most once,
    and after a poll that returned [Ready] every later poll of the id is the
    [Invalid] poll of a missing task: no future runs again after it finished. *)
Theorem task_lifecycle reactor n s tid i j t t' r :
  0 < n → reachable reactor n s →
  tid_unique (log s) tid ∧
  (log s !! i = Some (Outbound (PollTask tid t Ready)) → i < j →
   log s !! j = Some (Outbound (PollTask tid t' r)) → r = Invalid).
Proof.
  intros Hn Hs. destruct (reachable_inv reactor n s Hn Hs) as (H & _).
  split; [apply (di_unique _ _ H)|]. intros Hi Hij Hj.
  destruct (di_polls _ _ H) as [H4 _]. apply (H4 j tid t' r Hj). left. by exists i, t.
Qed.

(** [Runtime::block_on] runs the executor through reachable states only:
    whenever it returns, the invariants hold, and running it with more fuel gives
    the same result. *)
Theorem block_on_inv reactor n fuel s f s' :
  0 < n → reachable reactor n s → block_on fuel s f = Some s' →
  reachable reactor n s' ∧ data_inv s' ∧ executor_inv (log s') ∧
  ∀ fuel', fuel ≤ fuel' → block_on fuel' s f = Some s'.
Proof.
  intros Hn Hs Hb. assert (Hr : reachable reactor n s' ∧
    ∀ fuel', fuel ≤ fuel' → block_on fuel' s f = Some s').
  { revert s f Hs Hb. induction fuel as [|fuel IH]; intros s f Hs Hb; [done|]. simpl in Hb.
    pose proof (r_main reactor n s f Hs) as Hm.
    destruct (poll_main s f) as [[[] f'] s1] eqn:Em; simpl in Hm.
    - injection Hb as <-. split; [done|]. intros [|fuel'] Hf; [lia|]. simpl. by rewrite Em.
    - destruct (IH (tick s1) f') as [Hr Hfuel]; [by constructor|done|]. split; [done|].
      intros [|fuel'] Hf; [lia|]. simpl. rewrite Em. apply Hfuel. lia. }
  destruct Hr as [Hr Hf]. split; [done|].
  destruct (reachable_inv reactor n s' Hn Hr) as (? & ? & _). done.
Qed.

End spec.

(** [TidLedger]: after marking any ids, [contains] is membership among the
    marked ids, and every word is still a 64-bit value. *)
Theorem ledger_is_set (ids : list Z) t :
  Forall is_u64 ids → is_u64 t →
  let ledger := foldl TidLedger.mark TidLedger.new ids in
  TidLedger.contains ledger t = bool_decide (t ∈ ids) ∧ TidLedger.words_ok ledger.
Proof.
  intros Hids Ht. induction ids as [|i ids IH] using rev_ind.
  - simpl. rewrite TidLedger.contains_new by apply Ht. split; [done|constructor].
  - apply Forall_app in Hids as [Hids Hi]. inversion Hi as [|? ? Hui _]; subst.
    destruct (IH Hids) as [IH1 IH2].
    rewrite foldl_app. simpl. split; [|by apply TidLedger.mark_words_ok].
    rewrite TidLedger.contains_mark, IH1 by (apply Ht || apply Hui).
    repeat case_bool_decide; simpl; set_solver.
Qed.

Lemma ledger_is_set_witness :
  TidLedger.contains (foldl TidLedger.mark TidLedger.new [3; 64; 200]%Z) 64%Z = true.
Proof.
  destruct (ledger_is_set [3; 64; 200]%Z 64%Z) as [H _]; [repeat constructor; u64|u64|].
  rewrite H. by apply bool_decide_true; set_solver.
Defined.

(** ** Witnesses: futures that keep a waker and never finish *)

#[global] Instance idle_env : Env unit (list Z) := {
  future_poll tid f w := (false, f, tid :: w, []);
  reactor_flush_pending_deregister w := w;
  reactor_park _ w := (w, []);
}.

(** A main future that is ready when it is polled a second time. *)
#[global] Instance twice_env : Env bool unit := {
  future_poll tid f w := (f, true, w, if f then [] else [Ext (Spawn false)]);
  reactor_flush_pending_deregister w := w;
  reactor_park _ w := (w, []);
}.

Definition idle_state : Executor unit (list Z) :=
  run_external (tick (run_external (new [] 2) (Spawn tt))) (Spawn tt).

Lemma idle_reachable : reachable [] 2 idle_state.
Proof. apply r_external, r_tick, r_external, r_init. Qed.

Lemma executor_inv_reachable_witness : executor_inv (log idle_state).
Proof. apply (executor_inv_reachable [] 2 idle_state); [lia|apply idle_reachable]. Defined.

Lemma idle_data_inv : data_inv idle_state.
Proof. by destruct (reachable_inv [] 2 idle_state ltac:(lia) idle_reachable). Qed.

Lemma tick_polls_front_witness :
  ∃ body, log (tick idle_state) = log idle_state ++ tick_events body ∧ length (polls body) ≤ 2.
Proof.
  destruct (tick_polls_front idle_state idle_data_inv) as (body & H & Hlen & _).
  exists body. split; [exact H|exact Hlen].
Defined.

(** A state whose local queue holds two tasks: two wakes were drained. *)
Definition busy_state : Executor unit (list Z) :=
  let s := tick (run_external (run_external (run_external (new [] 1) (Spawn tt)) (Spawn tt))
    (Spawn tt)) in
  tick (run_external (run_external s (Wake true true Tls.Task 1)) (Wake true false Tls.Task 1)).

Lemma busy_data_inv : data_inv busy_state.
Proof.
  assert (H : reachable [] 1 busy_state).
  { apply r_tick, r_external, r_external, r_tick, r_external, r_external, r_external, r_init. }
  by destruct (reachable_inv [] 1 busy_state ltac:(lia) H).
Qed.

Lemma queued_task_polled_witness : polled_since busy_state (ticks 3 busy_state) 1.
Proof.
  apply (queued_task_polled busy_state 2 1);
    [apply busy_data_inv|vm_compute; lia|vm_compute; reflexivity].
Defined.

Lemma pop_injection_drains_witness :
  injection_queue (pop_injection (run_external (run_external
    (new [] 2 : Executor unit (list Z)) (Spawn tt)) (Spawn tt))) = [].
Proof.
  set (s := run_external (run_external (new [] 2 : Executor unit (list Z)) (Spawn tt)) (Spawn tt)).
  assert (H : reachable [] 2 s) by apply r_external, r_external, r_init.
  apply (pop_injection_drains s); [by destruct (reachable_inv [] 2 s ltac:(lia) H)|].
  unfold s. simpl. apply spawn_fresh; [apply spawn_fresh|]; [|vm_compute; split; congruence..].
  split; [constructor|]. split; [by intros tid ?%not_elem_of_nil|].
  intros tid (j & Hj & _). simpl in Hj. lia.
Defined.

Definition finished_state : Executor bool unit := tick (run_external (new tt 2) (Spawn true)).

Lemma task_lifecycle_witness :
  log finished_state !! 4 = Some (Outbound (PollTask 1 (Some 1%Z) Ready)) ∧
  tid_unique (log finished_state) 1.
Proof.
  split; [vm_compute; reflexivity|].
  apply (task_lifecycle tt 2 finished_state 1 0 0 None None Ready);
    [lia|apply r_tick, r_external, r_init].
Defined.

Lemma block_on_inv_witness :
  ∃ s', block_on 2 (new tt 1 : Executor bool unit) false = Some s' ∧ data_inv s'.
Proof.
  eexists. split; [reflexivity|].
  apply (block_on_inv tt 1 2 (new tt 1 : Executor bool unit) false);
    [lia|apply r_init|reflexivity].
Defined.
