(* ===== verification/ExecWake.v ===== *)
(** * ExecWake: no wake of a task is lost

    Wakes are deduplicated by the notification flags and drained into the local
    queue.  [tls_ok] says that the flag of a task that was injected is set only while an
    entry of a queue justifies it; every operation keeps it.  A task that is woken, on
    any thread and through any queue, is therefore polled after finitely many ticks.
    Nothing is asked of the wakers: a stale one, of a finished task or of a runtime that
    the thread ran before, may set the flag of an id that is not yet in use, and this
    delays no task, because a task is queued when it is injected. *)

From S2P Require Import Prelude Store Slab TidLedger ExecLog Tls Executor.
From S2P Require Import ExecInv ExecOps ExecTick ExecSpec.
Import ExecLog Executor.

(** ** The flags and the queues *)

Section tls.
Implicit Types (t : Tls.Tls) (I : Z → Prop) (q : list Z) (tid k : Z).

Definition ready_of t : list Z := Tls.reactor_ready_queue t ++ Tls.task_ready_queue t.

(** [I] holds of the ids that were injected. *)
Definition tls_ok I t q : Prop :=
  ∀ k, is_u64 k → k ≠ u64_max → I k → Tls.notified t k = true → k ∈ ready_of t ∨ k ∈ q.

Lemma elem_of_queued t k :
  k ∈ Tls.queued t ↔ k ∈ ready_of t ∨ k ∈ Tls.defer_queue t ∨ k ∈ Tls.cross_thread t.
Proof. unfold Tls.queued, ready_of. rewrite !elem_of_app. tauto. Qed.

(** New ids are injected into the queue. *)
Lemma tls_ok_mono I I' t q q' :
  (∀ k, I' k → I k ∨ k ∈ q') → (∀ k, k ∈ q → k ∈ q') → tls_ok I t q → tls_ok I' t q'.
Proof.
  intros HI Hq H k Hu Hne Hk Hn. destruct (HI k Hk) as [Hi|?]; [|by right].
  destruct (H k Hu Hne Hi Hn); auto.
Qed.

(** Changes that touch neither the flags nor the ready queues. *)
Lemma tls_ok_frame I t t' q :
  Tls.task_notified t' = Tls.task_notified t → ready_of t' = ready_of t →
  tls_ok I t q → tls_ok I t' q.
Proof. intros Hn Hr H k. unfold Tls.notified. rewrite Hn, Hr. apply H. Qed.

(** A push of a ready queue, as the two pushes do it after [set_notified]. *)
Definition pushed t tid t' : Prop :=
  (∀ k, k ∈ ready_of t → k ∈ ready_of t') ∧
  (∀ k, k ∈ ready_of t' → k ∈ ready_of t ∨ k = tid) ∧
  Tls.defer_queue t' = Tls.defer_queue t ∧ Tls.cross_thread t' = Tls.cross_thread t ∧
  (∀ k, (0 ≤ k)%Z → Tls.notified t' k =
     bool_decide (k = tid ∧ tid ≠ u64_max) || Tls.notified t k) ∧
  (tid = u64_max ∨ Tls.notified t tid = false → tid ∈ ready_of t').

Lemma push_task_pushed t tid : is_u64 tid → pushed t tid (Tls.push_task_ready t tid).
Proof.
  intros Hu. pose proof (Tls.set_notified_spec t tid Hu) as Hs.
  pose proof (set_notified_frame t tid) as Hf. unfold Tls.push_task_ready.
  destruct (Tls.set_notified t tid) as [fresh t1]. simpl in Hf.
  destruct Hs as (_ & Hn & Hfr). destruct Hf as (Hr & Ht & Hd & Hc & _).
  unfold pushed, ready_of. destruct fresh; simpl; rewrite Hr, Ht.
  - split; [set_solver|]. split; [set_solver|]. split; [done|]. split; [done|].
    split; [apply Hn|]. set_solver.
  - split; [done|]. split; [by left|]. split; [done|]. split; [done|].
    split; [apply Hn|]. intros ?%Hfr. done.
Qed.

Lemma push_reactor_pushed t tid : is_u64 tid → pushed t tid (Tls.push_reactor_ready t tid).
Proof.
  intros Hu. pose proof (Tls.set_notified_spec t tid Hu) as Hs.
  pose proof (set_notified_frame t tid) as Hf. unfold Tls.push_reactor_ready.
  destruct (Tls.set_notified t tid) as [fresh t1]. simpl in Hf.
  destruct Hs as (_ & Hn & Hfr). destruct Hf as (Hr & Ht & Hd & Hc & _).
  unfold pushed, ready_of. destruct fresh; simpl; rewrite Hr, Ht.
  - split; [set_solver|]. split; [set_solver|]. split; [done|]. split; [done|].
    split; [apply Hn|]. set_solver.
  - split; [done|]. split; [by left|]. split; [done|]. split; [done|].
    split; [apply Hn|]. intros ?%Hfr. done.
Qed.

Lemma pushed_ok I t tid t' q :
  is_u64 tid → pushed t tid t' → tls_ok I t q →
  tls_ok I t' q ∧ (tid ≠ u64_max → I tid → tid ∈ ready_of t' ∨ tid ∈ q).
Proof.
  intros Hu (P1 & _ & _ & _ & P5 & P6) H.
  assert (Hin : tid ≠ u64_max → I tid → tid ∈ ready_of t' ∨ tid ∈ q).
  { intros Hne Hi. destruct (Tls.notified t tid) eqn:En; [|left; by apply P6; right].
    destruct (H tid Hu Hne Hi En); [left; by apply P1|by right]. }
  split; [|done]. intros k Hku Hne Hi. rewrite P5 by apply Hku. case_bool_decide as Hb; simpl.
  - intros _. destruct Hb as [-> _]. by apply Hin.
  - intros Hn. destruct (H k Hku Hne Hi Hn); [left; by apply P1|by right].
Qed.

(** The queues only grow under wakes. *)
Definition wakes_grow t t' : Prop :=
  (∀ k, k ∈ ready_of t → k ∈ ready_of t') ∧
  (∀ k, k ∈ Tls.defer_queue t → k ∈ Tls.defer_queue t') ∧
  (∀ k, k ∈ Tls.cross_thread t → k ∈ Tls.cross_thread t').

#[global] Instance wakes_grow_preorder : PreOrder wakes_grow.
Proof.
  split; [done|]. intros t1 t2 t3 (A1 & A2 & A3) (B1 & B2 & B3). unfold wakes_grow. auto 10.
Qed.

Lemma pushed_grow t tid t' : pushed t tid t' → wakes_grow t t'.
Proof. intros (P1 & _ & P3 & P4 & _). unfold wakes_grow. by rewrite P3, P4. Qed.

Lemma wake_impl_ok I same defer source tid t q :
  is_u64 tid → tls_ok I t q →
  let t' := Tls.wake_impl same defer source tid t in
  tls_ok I t' q ∧ wakes_grow t t' ∧
  (tid ≠ u64_max → I tid → tid ∈ Tls.queued t' ∨ tid ∈ q).
Proof.
  intros Hu H. unfold Tls.wake_impl. setoid_rewrite elem_of_queued. destruct same.
  - destruct defer; [|destruct source].
    + split; [by apply (tls_ok_frame I t)|]. split; [unfold wakes_grow; simpl; set_solver|simpl; set_solver].
    + pose proof (push_reactor_pushed t tid Hu) as Hp.
      destruct (pushed_ok I _ _ _ _ Hu Hp H). split; [done|].
      split; [by eapply pushed_grow|naive_solver].
    + pose proof (push_task_pushed t tid Hu) as Hp.
      destruct (pushed_ok I _ _ _ _ Hu Hp H). split; [done|].
      split; [by eapply pushed_grow|naive_solver].
  - split; [by apply (tls_ok_frame I t)|]. split; [unfold wakes_grow; simpl; set_solver|simpl; set_solver].
Qed.

(** The cross-thread queue is emptied into the task queue. *)
Lemma drain_cross_ok I t q :
  Forall is_u64 (Tls.cross_thread t) → tls_ok I t q →
  let t' := Tls.drain_cross_thread t in
  tls_ok I t' q ∧ (∀ k, k ∈ ready_of t → k ∈ ready_of t') ∧
  Tls.defer_queue t' = Tls.defer_queue t ∧ Tls.cross_thread t' = [] ∧
  (∀ k, k ≠ u64_max → I k → k ∈ Tls.cross_thread t → k ∈ ready_of t' ∨ k ∈ q).
Proof.
  intros Hu H. unfold Tls.drain_cross_thread.
  assert (Hgen : ∀ ids t0, Forall is_u64 ids → tls_ok I t0 q →
    let t' := foldl Tls.push_task_ready t0 ids in
    tls_ok I t' q ∧ (∀ k, k ∈ ready_of t0 → k ∈ ready_of t') ∧
    Tls.defer_queue t' = Tls.defer_queue t0 ∧ Tls.cross_thread t' = Tls.cross_thread t0 ∧
    (∀ k, k ≠ u64_max → I k → k ∈ ids → k ∈ ready_of t' ∨ k ∈ q)).
  { induction ids as [|i ids IH]; intros t0 Hids H0; simpl.
    - split; [done|]. split; [done|]. split; [done|]. split; [done|].
      by intros k _ _ ?%not_elem_of_nil.
    - inversion Hids as [|? ? Hui Hids']; subst.
      pose proof (push_task_pushed t0 i Hui) as Hp.
      destruct (pushed_ok I _ _ _ _ Hui Hp H0) as [H1 Hin].
      destruct (IH _ Hids' H1) as (I1 & I2 & I3 & I4 & I5).
      destruct Hp as (P1 & _ & P3 & P4 & _). rewrite I3, I4.
      split; [done|]. split; [auto|]. split; [done|]. split; [done|].
      intros k Hne Hi [->|Hk]%elem_of_cons; [|by apply I5]. destruct (Hin Hne Hi); auto. }
  destruct (Hgen (Tls.cross_thread t) (Tls.set_cross t [])) as (I1 & I2 & I3 & I4 & I5); [done| |done].
  by apply (tls_ok_frame I t).
Qed.

Lemma clear_notified_ok I t tid q :
  is_u64 tid → tls_ok I t (tid :: q) → tls_ok I (Tls.clear_notified t tid) q.
Proof.
  intros Hu H.
  assert (Hr : ready_of (Tls.clear_notified t tid) = ready_of t) by (unfold Tls.clear_notified; by case_match).
  intros k Hk Hne Hi. rewrite Tls.clear_notified_spec by (apply Hu || apply Hk).
  case_bool_decide; simpl; [done|]. intros Hn. rewrite Hr.
  destruct (H k Hk Hne Hi Hn) as [?|?]; [by left|right]. set_solver.
Qed.
End tls.

(** ** The executor's operations *)

Section wake.
Context {F W : Type} `{!Env F W}.
Implicit Types (s : Executor F W) (q : list Z) (tid k : Z).

Definition wake_inv s q : Prop := tls_ok (λ k, injected (log s) k) (tls s) q.

(** A task that waits in a ready queue, in the cross-thread queue or in [q]. *)
Definition waits s q k : Prop :=
  k ∈ ready_of (tls s) ∨ k ∈ Tls.cross_thread (tls s) ∨ k ∈ q.

Lemma injected_mono l seg k : injected l k → injected (l ++ seg) k.
Proof. intros (j & Hj & Hl). exists j. rewrite length_app. split; [lia|]. by apply lookup_app_l_Some. Qed.

(** The wakes of a list of effects, and those of the outside. *)
Lemma run_effect_wake I s x q :
  current_typed s → tls_ok I (tls s) q →
  tls_ok I (tls (run_effect s x)) q ∧ wakes_grow (tls s) (tls (run_effect s x)).
Proof.
  intros Hcur H. destruct x as [[same defer source k|f]|]; simpl.
  - by destruct (wake_impl_ok I same defer source (wrap64 k) (tls s) q) as (? & ? & _);
      [apply wrap64_range|..].
  - split; [|done]. by apply (tls_ok_frame _ (tls s)).
  - unfold Tls.defer_current. destruct (Tls.current_task (tls s)); [|done]. simpl. split.
    + apply (tls_ok_frame _ (tls s)); [by case_match..|done].
    + unfold wakes_grow. case_match; simpl; set_solver.
Qed.

Lemma run_effects_wake I xs s q :
  current_typed s → tls_ok I (tls s) q →
  let s' := foldl run_effect s xs in
  tls_ok I (tls s') q ∧ wakes_grow (tls s) (tls s').
Proof.
  revert s. induction xs as [|x xs IH]; intros s Hcur H; simpl; [done|].
  destruct (run_effect_wake I s x q Hcur H) as [H1 G1]. destruct (IH (run_effect s x)) as [H2 G2].
  - intros tid. rewrite run_effect_current. apply Hcur.
  - done.
  - split; [done|by etrans].
Qed.

Lemma run_external_wake I s x q :
  tls_ok I (tls s) q →
  tls_ok I (tls (run_external s x)) q ∧ wakes_grow (tls s) (tls (run_external s x)).
Proof.
  intros H. destruct x as [same defer source k|f]; simpl.
  - by destruct (wake_impl_ok I same defer source (wrap64 k) (tls s) q) as (? & ? & _);
      [apply wrap64_range|..].
  - split; [|done]. by apply (tls_ok_frame _ (tls s)).
Qed.

Lemma run_externals_wake I xs s q :
  tls_ok I (tls s) q →
  let s' := foldl run_external s xs in
  tls_ok I (tls s') q ∧ wakes_grow (tls s) (tls s').
Proof.
  revert s. induction xs as [|x xs IH]; intros s H; simpl; [done|].
  destruct (run_external_wake I s x q H) as [H1 G1]. destruct (IH _ H1) as [H2 G2].
  split; [done|by etrans].
Qed.

(** What an operation that polls nothing does for the waiting tasks. *)
Definition keeps s q s' q' : Prop :=
  ∀ k, k ≠ u64_max → injected (log s) k → waits s q k → waits s' q' k.

Lemma drain_with_wake s t ids source :
  data_inv s → tls_ok (λ k, injected (log s) k) t (local_queue s ++ ids) → Forall is_u64 ids →
  let s' := drain_with s t ids source in
  wake_inv s' (local_queue s') ∧ tls s' = t ∧
  ∀ k, injected (log s) k → k ∈ local_queue s ++ ids → k ∈ local_queue s'.
Proof.
  intros H Ht Hids. unfold drain_with. rewrite filter_and_enqueue_eq. cbv zeta. simpl.
  change (known (set_tls s t) ids) with (known s ids).
  assert (Hq : ∀ k, injected (log s) k → k ∈ local_queue s ++ ids → k ∈ local_queue s ++ known s ids).
  { intros k Hinj [?|Hk]%elem_of_app; apply elem_of_app; [by left|right].
    apply list_elem_of_filter. split; [|done]. apply (di_ledger _ _ H); [|done].
    rewrite Forall_forall in Hids. apply (Hids k Hk). }
  split; [|done]. intros k Hu Hne Hi Hn. simpl in Hi. apply injected_snoc in Hi as [Hi|?]; [|done].
  destruct (Ht k Hu Hne Hi Hn); auto.
Qed.

Lemma drain_reactor_eq s :
  drain_reactor_ready_into_local s = drain_with s (Tls.set_reactor_ready (tls s) [])
    (Tls.reactor_ready_queue (tls s)) ReactorWake.
Proof. done. Qed.

Lemma drain_deferred_eq s :
  drain_deferred_into_local s = drain_with s (Tls.set_deferred (tls s) [])
    (Tls.defer_queue (tls s)) Deferred.
Proof. done. Qed.

Lemma drain_task_eq s :
  let t := Tls.drain_cross_thread (tls s) in
  drain_task_ready_into_local s =
  drain_with s (Tls.set_task_ready t []) (Tls.task_ready_queue t) TaskWake.
Proof. done. Qed.

Lemma drain_reactor_wake s :
  data_inv s → wake_inv s (local_queue s) →
  let s' := drain_reactor_ready_into_local s in
  wake_inv s' (local_queue s') ∧ keeps s (local_queue s) s' (local_queue s') ∧
  Tls.reactor_ready_queue (tls s') = [] ∧
  Tls.task_ready_queue (tls s') = Tls.task_ready_queue (tls s).
Proof.
  intros H Hw. cbv zeta. rewrite drain_reactor_eq.
  pose proof (di_tls _ _ H) as Hty. rewrite queued_typed in Hty.
  destruct (drain_with_wake s (Tls.set_reactor_ready (tls s) [])
    (Tls.reactor_ready_queue (tls s)) ReactorWake H) as (Hw' & Ht & Hq); [|apply Hty|].
  - intros k Hu Hne Hi Hn. destruct (Hw k Hu Hne Hi Hn) as [Hk|Hk]; [|set_solver].
    unfold ready_of in *. simpl. set_solver.
  - split; [done|]. split; [|by rewrite Ht].
    intros k Hne Hi Hk. unfold waits. rewrite Ht. unfold waits, ready_of in *. simpl.
    specialize (Hq k Hi). set_solver.
Qed.

Lemma drain_deferred_wake s :
  data_inv s → wake_inv s (local_queue s) →
  let s' := drain_deferred_into_local s in
  wake_inv s' (local_queue s') ∧ keeps s (local_queue s) s' (local_queue s') ∧
  Tls.cross_thread (tls s') = Tls.cross_thread (tls s) ∧
  (∀ k, injected (log s) k → k ∈ Tls.defer_queue (tls s) → k ∈ local_queue s').
Proof.
  intros H Hw. cbv zeta. rewrite drain_deferred_eq.
  pose proof (di_tls _ _ H) as Hty. rewrite queued_typed in Hty.
  destruct (drain_with_wake s (Tls.set_deferred (tls s) [])
    (Tls.defer_queue (tls s)) Deferred H) as (Hw' & Ht & Hq); [|apply Hty|].
  - intros k Hu Hne Hi Hn. destruct (Hw k Hu Hne Hi Hn) as [Hk|Hk]; [|set_solver]. by left.
  - split; [done|]. split; [|split; [by rewrite Ht|]].
    + intros k Hne Hi Hk. unfold waits. rewrite Ht. unfold waits in Hk.
      destruct Hk as [?|[?|?]]; [by left|by right; left|right; right]. apply Hq; set_solver.
    + intros k Hi Hk. apply Hq; set_solver.
Qed.

Lemma drain_cross_reactor t :
  Tls.reactor_ready_queue (Tls.drain_cross_thread t) = Tls.reactor_ready_queue t.
Proof.
  unfold Tls.drain_cross_thread.
  assert (Hgen : ∀ ids t, Tls.reactor_ready_queue (foldl Tls.push_task_ready t ids) =
    Tls.reactor_ready_queue t).
  { clear t. induction ids as [|i ids IH]; intros t; simpl; [done|]. rewrite IH.
    unfold Tls.push_task_ready. pose proof (set_notified_frame t i) as (Hf & _).
    destruct (Tls.set_notified t i) as [[] t']; done. }
  by rewrite Hgen.
Qed.

Lemma drain_task_wake s :
  data_inv s → wake_inv s (local_queue s) →
  let s' := drain_task_ready_into_local s in
  wake_inv s' (local_queue s') ∧ keeps s (local_queue s) s' (local_queue s') ∧
  (Tls.reactor_ready_queue (tls s) = [] → ready_of (tls s') = []) ∧
  Tls.cross_thread (tls s') = [].
Proof.
  intros H Hw. cbv zeta. rewrite drain_task_eq.
  pose proof (drain_cross_typed _ (di_tls _ _ H)) as Hty.
  pose proof (di_tls _ _ H) as Hty0. rewrite queued_typed in Hty, Hty0.
  destruct (drain_cross_ok _ _ _ (proj2 (proj2 (proj2 Hty0))) Hw) as (Hok & Hr & Hd & Hc & Hx).
  pose proof (drain_cross_reactor (tls s)) as Hrr.
  set (t := Tls.drain_cross_thread (tls s)) in *.
  destruct (drain_with_wake s (Tls.set_task_ready t []) (Tls.task_ready_queue t) TaskWake H)
    as (Hw' & Ht & Hq); [|apply Hty|].
  - intros k Hu Hne Hi Hn. destruct (Hok k Hu Hne Hi Hn) as [Hk|Hk]; [|set_solver].
    unfold ready_of in *. simpl. set_solver.
  - split; [done|].
    assert (Hmove : ∀ k, injected (log s) k → k ∈ ready_of t ∨ k ∈ local_queue s →
      let s' := drain_with s (Tls.set_task_ready t []) (Tls.task_ready_queue t) TaskWake in
      waits s' (local_queue s') k).
    { intros k Hi Hk. unfold waits. cbv zeta. rewrite Ht. unfold ready_of in *. simpl.
      specialize (Hq k Hi). set_solver. }
    split; [|split].
    + intros k Hne Hi [Hk|[Hk|Hk]]; apply Hmove; auto.
    + intros Hnil. rewrite Ht. unfold ready_of. simpl. by rewrite Hrr, Hnil.
    + by rewrite Ht.
Qed.

(** The clock of the log moves, the wake queues do not. *)
Lemma extend_wake s s' seg q q' :
  log s' = log s ++ seg → tls s' = tls s → (∀ k, k ∈ q → k ∈ q') →
  (∀ k, injected (log s') k → injected (log s) k ∨ k ∈ q') →
  wake_inv s q → wake_inv s' q' ∧ keeps s q s' q'.
Proof.
  intros Hl Ht Hq Hnew H. split.
  - unfold wake_inv. rewrite Ht. by eapply tls_ok_mono; [..|exact H].
  - intros k _ _. unfold waits. rewrite Ht. intros [?|[?|?]]; auto.
Qed.

Lemma keeps_trans s1 q1 s2 q2 s3 q3 seg :
  log s2 = log s1 ++ seg → keeps s1 q1 s2 q2 → keeps s2 q2 s3 q3 → keeps s1 q1 s3 q3.
Proof.
  intros Hl H1 H2 k Hne Hi Hk. apply H2; [done| |by apply H1].
  rewrite Hl. by apply injected_mono.
Qed.

(** Waiting tasks are kept or polled. *)
Definition progress s s' : Prop :=
  ∃ seg, log s' = log s ++ seg ∧
    ∀ k, k ≠ u64_max → injected (log s) k → waits s (local_queue s) k →
      waits s' (local_queue s') k ∨ k ∈ polls seg.

#[local] Instance progress_preorder : PreOrder progress.
Proof.
  split.
  - intros s. exists []. rewrite app_nil_r. split; [done|]. auto.
  - intros s1 s2 s3 (g1 & L1 & P1) (g2 & L2 & P2). exists (g1 ++ g2).
    rewrite L2, L1, app_assoc. split; [done|]. intros k Hne Hi Hk.
    rewrite polls_app, elem_of_app. destruct (P1 k Hne Hi Hk) as [Hk2|?]; [|auto].
    destruct (P2 k Hne) as [?|?]; [|done|auto..].
    rewrite L1. by apply injected_mono.
Qed.

Lemma keeps_progress s s' seg :
  log s' = log s ++ seg → keeps s (local_queue s) s' (local_queue s') → progress s s'.
Proof. intros Hl Hk. exists seg. split; [done|]. auto. Qed.

Lemma drained_progress s s' source :
  drained s s' source → keeps s (local_queue s) s' (local_queue s') → progress s s'.
Proof. intros (k & Hl & _). by eapply keeps_progress. Qed.

Lemma pop_injection_action_wake s :
  data_inv s → wake_inv s (local_queue s) →
  match pop_injection_action s with
  | (Some task, s1) => wake_inv (accept s1 task) (local_queue (accept s1 task)) ∧
                       progress s (accept s1 task)
  | (None, s1) => wake_inv s1 (local_queue s1) ∧ progress s s1
  end.
Proof.
  intros H Hw. pose proof (pop_injection_action_ok s H) as Hp.
  destruct (pop_injection_action s) as [[task|] s1].
  - destruct Hp as (_ & (Hl & Hq & _ & Ht & Hwd) & _).
    destruct (extend_wake s (accept s1 task) _ (local_queue s) (local_queue (accept s1 task))
      Hl Ht) as [? ?]; [rewrite Hq; set_solver| |done|split; [done|by eapply keeps_progress]].
    intros k. rewrite Hl, injected_snoc, Hq. intros [?|[= <-]]; [by left|right; set_solver].
  - destruct Hp as (_ & (Hl & Hq & _ & Ht & Hwd)).
    destruct (extend_wake s s1 _ (local_queue s) (local_queue s1) Hl Ht) as [? ?];
      [by rewrite Hq| |done|split; [done|by eapply keeps_progress]].
    intros k. rewrite Hl, injected_snoc. intros [?|?]; [by left|done].
Qed.

Lemma pop_injection_loop_wake fuel s :
  data_inv s → wake_inv s (local_queue s) →
  let s' := pop_injection_loop fuel s in wake_inv s' (local_queue s') ∧ progress s s'.
Proof.
  revert s. induction fuel as [|fuel IH]; intros s H Hw; simpl; [done|].
  pose proof (pop_injection_action_ok s H) as Hp.
  pose proof (pop_injection_action_wake s H Hw) as Hpw.
  destruct (pop_injection_action s) as [[task|] s1]; [|done].
  destruct Hp as (H1 & _). destruct Hpw as [Hw1 Hp1]. destruct (IH _ H1 Hw1) as [Hw2 Hp2].
  split; [done|by etrans].
Qed.

Lemma next_task_wake s :
  data_inv s → wake_inv s (local_queue s) →
  match next_task s with
  | (Some tid, s1) => wake_inv s1 (tid :: local_queue s1) ∧
      keeps s (local_queue s) s1 (tid :: local_queue s1)
  | (None, s1) => wake_inv s1 (local_queue s1) ∧ progress s s1
  end.
Proof.
  intros H Hw. unfold next_task, pop_front at 1.
  destruct (local_queue s) as [|x q] eqn:Eq; [|split; [exact Hw|by intros k _ _]].
  rewrite <- Eq in *.
  destruct (drain_reactor_ok s H) as [H1 D1].
  destruct (drain_reactor_wake s H Hw) as (W1 & K1 & _).
  set (s1 := drain_reactor_ready_into_local s) in *.
  destruct (drain_task_ok s1 H1) as [H2 D2].
  destruct (drain_task_wake s1 H1 W1) as (W2 & K2 & _).
  set (s2 := drain_task_ready_into_local s1) in *.
  assert (K : keeps s (local_queue s) s2 (local_queue s2)).
  { destruct D1 as (g & L1 & _). by eapply keeps_trans. }
  assert (P : progress s s2) by (etrans; eapply drained_progress; done).
  unfold pop_front at 1. destruct (local_queue s2) as [|x q] eqn:Eq2;
    [|split; [exact W2|exact K]].
  pose proof (pop_injection_action_ok s2 H2) as Hp. rewrite <- Eq2 in W2.
  pose proof (pop_injection_action_wake s2 H2 W2) as Hpw.
  destruct (pop_injection_action s2) as [[task|] s3].
  - destruct Hp as (_ & (Hl & Hq & _) & _). destruct Hpw as [W3 (g & Lg & P3)].
    unfold pop_front. rewrite Eq2, app_nil_l in Hq. rewrite Hq. rewrite Hq in W3.
    split; [done|]. intros k Hne Hi Hk. destruct P as (g' & Lg' & P).
    destruct (P k Hne Hi Hk) as [Hk2|Hk2].
    + destruct (P3 k Hne) as [Hk3|Hk3].
      * rewrite Lg'. by apply injected_mono.
      * by rewrite Eq2 in *.
      * rewrite Hq in Hk3. done.
      * rewrite Hl in Lg. apply app_inv_head in Lg. subst g. by apply not_elem_of_nil in Hk3.
    + destruct D1 as (d1 & L1 & _). destruct D2 as (d2 & L2 & _).
      rewrite L2, L1, <- app_assoc in Lg'. apply app_inv_head in Lg'. subst g'.
      by apply not_elem_of_nil in Hk2.
  - destruct Hpw as [W3 P3]. split; [done|by etrans].
Qed.
(** ** Polling *)

Lemma poll_future_wake I s tid t q :
  tls_ok I (tls s) q → is_u64 tid →
  let '(_, _, s') := poll_future_raw s tid t in
  tls_ok I (tls s') q ∧ wakes_grow (tls s) (tls s').
Proof.
  intros H Hu. unfold poll_future_raw.
  destruct (future_poll tid (future t) _) as [[[ready f] w] effs].
  set (s1 := set_world (set_tls s (Tls.set_current_task (tls s) tid)) w).
  destruct (run_effects_wake I effs s1 q) as [H2 G2].
  - intros k. simpl. by intros [= <-].
  - by apply (tls_ok_frame _ (tls s)).
  - split; [by apply (tls_ok_frame _ (tls (foldl run_effect s1 effs)))|exact G2].
Qed.

Lemma poll_task_wake s tid :
  dinv s (tid :: local_queue s) → wake_inv s (tid :: local_queue s) →
  let s' := poll_task s tid in
  wake_inv s' (local_queue s') ∧
  ∀ k, waits s (tid :: local_queue s) k → waits s' (local_queue s') k ∨ k = tid.
Proof.
  intros H Hok. destruct (poll_task_ok s tid H) as (_ & (t & r & Hl) & Hq & _).
  assert (Hu : is_u64 tid) by (apply (di_range _ _ H), (di_inj _ _ H); set_solver).
  assert (Hr : ready_of (Tls.clear_notified (tls s) tid) = ready_of (tls s) ∧
    Tls.cross_thread (Tls.clear_notified (tls s) tid) = Tls.cross_thread (tls s)).
  { unfold Tls.clear_notified. by case_match. }
  destruct Hr as (Hr & Hc). pose proof (clear_notified_ok _ _ _ _ Hu Hok) as Hok0.
  enough (Hmain : tls_ok (λ k, injected (log s) k) (tls (poll_task s tid)) (local_queue s) ∧
    wakes_grow (Tls.clear_notified (tls s) tid) (tls (poll_task s tid))).
  { destruct Hmain as (M2 & (G1 & _ & G3)). simpl. rewrite Hq. split.
    - unfold wake_inv. eapply tls_ok_mono; [|done|exact M2].
      intros k. rewrite Hl, injected_snoc. intros [?|?]; [by left|done].
    - intros k. unfold waits. rewrite Hr in G1. rewrite Hc in G3.
      intros [?|[?|[->|?]%elem_of_cons]]; auto. }
  clear Hl Hq Hr Hc. unfold poll_task.
  set (s0 := set_tls s (Tls.clear_notified (tls s) tid)) in *.
  destruct (Slab.remove (task_slab s0) tid) as [[task|] slab'] eqn:Er; [|done].
  unfold poll_task_action.
  pose proof (poll_future_wake (λ k, injected (log s) k) (set_slab s0 slab') tid task (local_queue s) Hok0 Hu) as Hf.
  destruct (poll_future_raw _ tid task) as [[r' t'] s1]. by destruct r'.
Qed.

Lemma selected_progress s s1 tid :
  data_inv s → dinv s1 (tid :: local_queue s1) → log_extends s s1 quiet →
  keeps s (local_queue s) s1 (tid :: local_queue s1) → wake_inv s1 (tid :: local_queue s1) →
  progress s (poll_task s1 tid).
Proof.
  intros H H1 (g & Hg & _) Hk W1. destruct (poll_task_wake s1 tid H1 W1) as [_ HP].
  destruct (poll_task_ok s1 tid H1) as (_ & (t & r & Hl) & _).
  exists (g ++ [Outbound (PollTask tid t r)]). rewrite Hl, Hg, <- app_assoc. split; [done|].
  intros k Hne Hi Hks. destruct (HP k (Hk k Hne Hi Hks)) as [?| ->]; [by left|right].
  rewrite polls_app, elem_of_app. right. simpl. set_solver.
Qed.

Lemma poll_while_wake fuel n c s :
  data_inv s → wake_inv s (local_queue s) →
  let '(_, s') := poll_while fuel n c s in wake_inv s' (local_queue s') ∧ progress s s'.
Proof.
  revert c s. induction fuel as [|fuel IH]; intros c s H Hw; simpl; [done|].
  destruct (Nat.ltb_spec c n); [|done].
  pose proof (next_task_ok s H) as Hn. pose proof (next_task_wake s H Hw) as Hnw.
  destruct (next_task s) as [[tid|] s1]; [|done].
  destruct Hn as (H1 & Hl & _). destruct Hnw as [W1 K1].
  destruct (poll_task_ok s1 tid H1) as (H2 & _). destruct (poll_task_wake s1 tid H1 W1) as [W2 _].
  specialize (IH (c + 1) _ H2 W2). destruct (poll_while fuel n (c + 1) _) as [c' s'].
  destruct IH as [W3 P3]. split; [done|]. etrans; [|exact P3]. by eapply selected_progress.
Qed.

(** ** Parking *)

Lemma park_action_wake s b :
  data_inv s → wake_inv s (local_queue s) →
  wake_inv (park_action s b) (local_queue (park_action s b)) ∧ progress s (park_action s b).
Proof.
  intros H Hok. destruct (park_action_ok s b H) as (_ & Hl & Hq & _).
  rewrite Hq. unfold park_action in *.
  destruct (reactor_park (park_timeout b) _) as [w exts].
  destruct (run_externals_wake (λ k, injected (log s) k) exts (set_world s w) (local_queue s) Hok) as [H2 G2].
  split.
  - unfold wake_inv. eapply tls_ok_mono; [|done|exact H2].
    intros k. rewrite Hl, injected_snoc. intros [?|?]; [by left|done].
  - eapply keeps_progress; [exact Hl|]. rewrite Hq. intros k _ _. unfold waits. simpl.
    destruct G2 as (G1 & _ & G3). intros [?|[?|?]]; auto.
Qed.

Lemma park_wake s :
  data_inv s → wake_inv s (local_queue s) →
  wake_inv (park s) (local_queue (park s)) ∧ progress s (park s) ∧
  ready_of (tls (park s)) = [] ∧ Tls.cross_thread (tls (park s)) = [].
Proof.
  intros H Hok. unfold park. cbn [Tls.take_block_on_yielded].
  set (t1 := Tls.drain_cross_thread (Tls.reset_interrupt (tls s))).
  set (s2 := set_tls (set_tls s t1) (Tls.set_block_on_yielded (tls (set_tls s t1)) false)).
  pose proof (di_tls _ _ H) as Hty. rewrite queued_typed in Hty.
  assert (Hok0 : tls_ok (λ k, injected (log s) k) (Tls.reset_interrupt (tls s)) (local_queue s)).
  { by apply (tls_ok_frame _ (tls s)). }
  destruct (drain_cross_ok _ (Tls.reset_interrupt (tls s)) _ (proj2 (proj2 (proj2 Hty))) Hok0)
    as (T1 & T2 & _ & _ & T5). fold t1 in T1, T2, T5.
  assert (W2 : wake_inv s2 (local_queue s2)) by by apply (tls_ok_frame _ t1).
  assert (P2 : progress s s2).
  { apply keeps_progress with []; [by rewrite app_nil_r|].
    intros k Hne Hi [Hk|[Hk|Hk]]; unfold waits; [by left; apply T2| |by right; right].
    destruct (T5 k Hne Hi Hk); [by left|by right; right]. }
  assert (H2 : data_inv s2).
  { apply (dinv_outer s); try done. destruct (dinv_typed _ _ H) as (Ht & ? & ?).
    split; [|done]. simpl. apply queued_typed. simpl.
    assert (Htt : tls_typed t1); [|by rewrite queued_typed in Htt].
    apply drain_cross_typed. by rewrite queued_typed in *. }
  match goal with |- context [park_action s2 ?b] => set (b0 := b) end.
  destruct (park_action_ok s2 b0 H2) as (H3 & _).
  destruct (park_action_wake s2 b0 H2 W2) as [W3 P3]. set (s3 := park_action s2 b0) in *.
  destruct (drain_reactor_ok s3 H3) as [H4 D4].
  destruct (drain_reactor_wake s3 H3 W3) as (W4 & K4 & R4 & _).
  set (s4 := drain_reactor_ready_into_local s3) in *.
  destruct (drain_task_ok s4 H4) as [H5 D5].
  destruct (drain_task_wake s4 H4 W4) as (W5 & K5 & R5 & C5).
  split; [done|]. split; [|by split; [apply R5|]].
  etrans; [exact P2|]. etrans; [exact P3|]. etrans; eapply drained_progress; done.
Qed.

(** ** The tick *)

Lemma looped_local n c c' s s' k :
  looped n c c' s s' → k ∈ local_queue s →
  ∃ seg, log s' = log s ++ seg ∧ (k ∈ local_queue s' ∨ k ∈ polls seg).
Proof.
  intros [] Hk. destruct lo_log as (seg & Hseg & _ & _ & Ht). exists seg. split; [done|].
  rewrite <- (take_drop (n - c) (local_queue s)) in Hk. apply elem_of_app in Hk as [Hk|Hk].
  - right. by eapply elem_of_prefix.
  - left. by eapply elem_of_prefix.
Qed.

Lemma progress_log s s' : progress s s' → ∃ seg, log s' = log s ++ seg.
Proof. intros (g & Hg & _). eauto. Qed.

Lemma tick_wake s :
  data_inv s → wake_inv s (local_queue s) →
  wake_inv (tick s) (local_queue (tick s)) ∧
  ∃ seg, log (tick s) = log s ++ seg ∧
    ∀ k, k ≠ u64_max → injected (log s) k → k ∈ Tls.queued (tls s) ∨ k ∈ local_queue s →
      k ∈ local_queue (tick s) ∨ k ∈ polls seg.
Proof.
  intros H Hw. unfold tick. set (n := event_interval s).
  set (s1 := record s (Inbound (Tick None))).
  assert (H1 : data_inv s1).
  { unfold data_inv in *. apply (dinv_record s _ (Inbound (Tick None))) in H; [done|done|by left]. }
  destruct (extend_wake s s1 [Inbound (Tick None)] (local_queue s) (local_queue s1)) as [W1 K1];
    [done..|intros k; simpl; rewrite injected_snoc; naive_solver|done|].
  destruct (drain_deferred_ok s1 H1) as [H2 D2].
  destruct (drain_deferred_wake s1 H1 W1) as (W2 & K2 & C2 & F2).
  change (drain_deferred_into_local s1) with (wake_deferred s1) in *.
  set (s2 := wake_deferred s1) in *.
  destruct (pop_injection_ok s2 H2) as (H3 & _).
  assert (HP3 : wake_inv (pop_injection s2) (local_queue (pop_injection s2)) ∧
    progress s2 (pop_injection s2)).
  { rewrite pop_injection_unfold. by apply pop_injection_loop_wake. }
  destruct HP3 as [W3 P3]. set (s3 := pop_injection s2) in *.
  pose proof (poll_loop_ok n 0 s3 H3 ltac:(lia)) as Hl4. rewrite poll_loop_eq in *.
  pose proof (poll_while_wake (n - 0) n 0 s3 H3 W3) as Hw4.
  destruct (poll_while (n - 0) n 0 s3) as [c s4]. destruct Hw4 as [W4 P4].
  pose proof (lo_inv _ _ _ _ _ Hl4) as H4. pose proof (lo_count _ _ _ _ _ Hl4) as Hc4.
  destruct (park_ok s4 H4) as (H5 & _). destruct (park_wake s4 H4 W4) as (W5 & P5 & R5 & C5).
  set (s5 := park s4) in *.
  pose proof (poll_loop_ok n c s5 H5 ltac:(lia)) as Hl6. rewrite poll_loop_eq in *.
  pose proof (poll_while_wake (n - c) n c s5 H5 W5) as Hw6.
  destruct (poll_while (n - c) n c s5) as [c' s6]. destruct Hw6 as [W6 P6].
  set (s7 := record s6 (Inbound (Tick (Some tt)))).
  destruct (extend_wake s6 s7 [Inbound (Tick (Some tt))] (local_queue s6) (local_queue s7))
    as [W7 _]; [done..|intros k; simpl; rewrite injected_snoc; naive_solver|done|]. split; [done|].
  assert (P25 : progress s2 s5) by (etrans; [exact P3|]; etrans; [exact P4|exact P5]).
  destruct P25 as (g & Lg & Pg). destruct (progress_log _ _ P6) as [g' Lg'].
  destruct D2 as (d & L2 & _).
  exists (Inbound (Tick None) :: Outbound (Drain Deferred d) :: g ++ g' ++ [Inbound (Tick (Some tt))]).
  split. { simpl. rewrite Lg', Lg, L2. simpl. by repeat (simpl; rewrite <- ?app_assoc). }
  intros k Hne Hi Hk.
  assert (Hi1 : injected (log s1) k) by exact (proj2 (injected_snoc (log s) _ k) (or_introl Hi)).
  assert (Hk2 : waits s2 (local_queue s2) k).
  { rewrite elem_of_queued in Hk. destruct Hk as [[Hk|[Hk|Hk]]|Hk].
    - apply K2; [done|exact Hi1|by left].
    - right. right. by apply F2; [exact Hi1|].
    - right. left. by rewrite C2.
    - apply K2; [done|exact Hi1|by right; right]. }
  assert (Hi2 : injected (log s2) k).
  { rewrite L2. by apply injected_mono. }
  change (polls (Inbound (Tick None) :: Outbound (Drain Deferred d) :: ?x)) with (polls x).
  rewrite !polls_app, !elem_of_app.
  destruct (Pg k Hne Hi2 Hk2) as [Hk5|Hk5]; [|by right; left].
  assert (Hin5 : k ∈ local_queue s5).
  { destruct Hk5 as [Hk5|[Hk5|Hk5]]; [rewrite R5 in Hk5|rewrite C5 in Hk5|done];
      by apply not_elem_of_nil in Hk5. }
  destruct (looped_local _ _ _ _ _ k Hl6 Hin5) as (g2 & Lg2 & [?|?]); [by left|right; right; left].
  rewrite Lg' in Lg2. apply app_inv_head in Lg2. by subst g2.
Qed.
(** ** Reachable states *)

Lemma run_external_wake_inv s x :
  wake_inv s (local_queue s) → wake_inv (run_external s x) (local_queue (run_external s x)).
Proof.
  intros Hok. destruct (run_external_core s x) as (_ & C2 & C3 & _).
  unfold wake_inv. rewrite C2, C3. by apply run_external_wake.
Qed.

Lemma poll_main_wake_inv s f :
  data_inv s → wake_inv s (local_queue s) →
  wake_inv (poll_main s f).2 (local_queue (poll_main s f).2).
Proof.
  intros H Hw.
  pose proof (poll_future_wake (λ k, injected (log s) k) s u64_max (mkTask 0 f) (local_queue s) Hw ltac:(u64)) as Hp.
  destruct (poll_main_inv s f H) as (_ & Hl & _).
  unfold poll_future_raw in Hp. unfold poll_main, wake_inv in *. simpl in *.
  destruct (future_poll u64_max f (world s)) as [[[ready f'] w] effs]. simpl in *.
  destruct Hp as [Hp _]. rewrite Hl. set (s1 := set_world (set_tls s (Tls.set_current_task (tls s) u64_max)) w) in *.
  replace (local_queue (foldl run_effect s1 effs)) with (local_queue s); [exact Hp|].
  symmetry. destruct (run_effects_ok s1 effs) as [(_ & C2 & _) _]; [|apply dinv_typed with (q := local_queue s)|done].
  - intros k. simpl. intros [= <-]. u64.
  - apply (dinv_outer s); try done. destruct (dinv_typed _ _ H) as (Hq & ? & ?).
    split; [|done]. by rewrite queued_typed in *.
Qed.

Lemma reachable_wake_inv reactor n s :
  reachable reactor n s → data_inv s ∧ wake_inv s (local_queue s) ∧ event_interval s = n.
Proof.
  induction 1 as [t Ht|s x _ (H & I & E)|s f _ (H & I & E)|s _ (H & I & E)].
  - split; [by apply new_data_inv|]. split; [|done]. by intros k _ _ (j & Hj & _); simpl in Hj; lia.
  - destruct (run_external_inv s x H) as (H' & _ & ->).
    split; [done|]. split; [|done]. by apply run_external_wake_inv.
  - destruct (poll_main_inv s f H) as (H' & _ & ->).
    split; [done|]. split; [|done]. by apply poll_main_wake_inv.
  - destruct (tick_ok s H) as (? & ? & ? & ? & ? & ? & _ & H' & -> & _).
    split; [done|]. split; [|done]. by apply tick_wake.
Qed.

(** A task in any queue is polled after finitely many ticks. *)
Lemma queued_polled s k :
  data_inv s → wake_inv s (local_queue s) → 0 < event_interval s → k ≠ u64_max →
  injected (log s) k → k ∈ Tls.queued (tls s) ∨ k ∈ local_queue s →
  ∃ m, polled_since s (ticks m s) k.
Proof.
  intros H Hw Hn Hne Hi Hk.
  destruct (tick_wake s H Hw) as (_ & seg & Hseg & Hp).
  destruct (tick_ok s H) as (? & ? & ? & ? & ? & ? & _ & H2 & I2 & _).
  destruct (Hp k Hne Hi Hk) as [[j Hj]%list_elem_of_lookup|Hpolled].
  - exists (S (S j)). simpl.
    destruct (ticks_poll (S j) j (tick s) k) as (i & t & r & Hle & Hl); [|done..|].
    { rewrite I2. nia. }
    exists i, t, r. split; [|done]. rewrite Hseg, length_app in Hle. lia.
  - exists 1. simpl. apply polls_lookup in Hpolled as (j & t & r & Hj).
    exists (length (log s) + j), t, r. split; [lia|]. rewrite Hseg.
    rewrite lookup_app_r by lia. by replace (length (log s) + j - length (log s)) with j by lia.
Qed.

(** C2. No lost wakeup: in every reachable state, whatever ran on the thread before,
    when a waker of an injected task is invoked, on the executor's thread or on
    another, deferred or not, the task is polled after finitely many ticks. *)
Theorem wake_not_lost reactor n s same defer source k :
  0 < n → reachable reactor n s → k ≠ u64_max → injected (log s) k →
  ∃ m, polled_since s (ticks m (run_external s (Wake same defer source k))) k.
Proof.
  intros Hn Hs Hne Hk. destruct (reachable_wake_inv reactor n s Hs) as (H & Hw & Hi).
  assert (Hu : is_u64 k) by by apply (di_range _ _ H).
  set (s1 := run_external s (Wake same defer source k)).
  destruct (run_external_inv s (Wake same defer source k) H) as (H1 & L1 & I1). fold s1 in H1, L1, I1.
  destruct (wake_impl_ok _ same defer source k (tls s) (local_queue s) Hu Hw) as (T1 & _ & Hin).
  pose proof (run_external_wake_inv s (Wake same defer source k) Hw) as W1. fold s1 in W1.
  assert (Hk1 : k ∈ Tls.queued (tls s1) ∨ k ∈ local_queue s1).
  { unfold s1. simpl. rewrite wrap64_id by done. by apply Hin. }
  assert (Hi1 : injected (log s1) k) by by rewrite L1.
  destruct (queued_polled s1 k H1 W1 ltac:(rewrite I1, Hi; lia) Hne Hi1 Hk1) as (m & i & t & r & Hle & Hl).
  exists m, i, t, r. by rewrite L1 in Hle.
Qed.
End wake.

(** ** A witness: a wake from another thread, on a thread that ran a runtime before *)

Lemma wake_not_lost_witness :
  let s := tick (spawn (new_on (Tls.push_task_ready Tls.init 1) [] 2) tt) in
  ∃ m, polled_since s (ticks m (run_external s (Wake false false Tls.Task 1))) 1.
Proof.
  intros s. apply (wake_not_lost [] 2 s false false Tls.Task 1).
  - lia.
  - apply r_tick, (r_external _ _ _ (Spawn tt)), r_new.
    apply push_task_ready_typed; [u64|apply init_typed].
  - done.
  - exists 2. split; [vm_compute; lia|vm_compute; reflexivity].
Defined.
