(* ===== verification/ExecSuspend.v ===== *)
(** * ExecSuspend: what suspends a task

    [ExecWake] says that a task that is woken is polled.  Here the other half: a task
    that is neither finished nor waiting in a queue has a source in the world that
    will wake it.  [SuspendLaws] states what the executor relies on: a poll that is
    pending leaves its task [armed] or woken, only an event of the world that wakes a
    task disarms it, and a task that is [ripe] in [n] parks is ready at its next poll
    once they are made.  The results hold for any such world; [SleepTasks] gives the one
    of the reactor. *)

From S2P Require Import Prelude Store Slab TidLedger ExecLog Tls Executor.
From S2P Require Import ExecInv ExecOps ExecTick ExecSpec ExecWake.
Import ExecLog Executor.

(** The wakes of task [k] among what a poll or a park returns. *)
Definition wakes_task {F} (xs : list (external F)) (k : Z) : Prop :=
  ∃ same defer source j, Wake same defer source j ∈ xs ∧ wrap64 j = k.
Definition externals {F} (effs : list (effect F)) : list (external F) :=
  omap (λ e, match e with Ext x => Some x | DeferCurrent => None end) effs.

Class SuspendLaws (F W : Type) `{!Env F W} (ok : W → Prop) (armed : W → Z → Prop)
    (ripe : nat → W → Z → Prop) := {
  suspend_poll : ∀ tid f w ready f' w' effs,
    ok w → is_u64 tid → future_poll tid f w = (ready, f', w', effs) →
    ok w' ∧ (ready = false → armed w' tid ∨ wakes_task (externals effs) tid) ∧
    (ripe 0 w tid → ready = true) ∧ (∀ n k, ripe n w k → ripe n w' k) ∧
    ∀ k, k ≠ tid → armed w k → armed w' k ∨ wakes_task (externals effs) k;
  suspend_due : ∀ w k, ok w → ripe 0 w k → ¬ armed w k;
  suspend_park : ∀ ms w w' exts,
    ok w → (0 ≤ ms)%Z → reactor_park ms (reactor_flush_pending_deregister w) = (w', exts) →
    ok w' ∧ (∀ n k, ripe n w k → ripe (pred n) w' k) ∧
    ∀ k, armed w k → armed w' k ∨ wakes_task exts k;
}.

Section suspend.
Context {F W : Type} `{!Env F W}.
Context (ok : W → Prop) (armed : W → Z → Prop) (ripe : nat → W → Z → Prop).
Context `{!SuspendLaws F W ok armed ripe}.
Implicit Types (s : Executor F W) (q : list Z) (tid k : Z).

Definition awake s q k : Prop := waits s q k ∨ k ∈ Tls.defer_queue (tls s).

Definition suspend_inv s q : Prop :=
  ok (world s) ∧
  ∀ k, k ≠ u64_max → injected (log s) k → ¬ finished (log s) k → awake s q k ∨ armed (world s) k.

Definition never_pending (seg : list ExecutorEvent) k : Prop :=
  ∀ t, Outbound (PollTask k t Pending) ∉ seg.

(** The tasks come no later, or with a park in between one park sooner. *)
Definition riper w w' : Prop := ∀ n k, ripe n w k → ∃ m, m ≤ n ∧ ripe m w' k.
Definition sooner w w' : Prop := ∀ n k, ripe n w k → ∃ m, m ≤ pred n ∧ ripe m w' k.

Lemma riper_eq w w' : (∀ n k, ripe n w k → ripe n w' k) → riper w w'.
Proof. intros H n k Hk. exists n. auto. Qed.

Lemma riper_trans w1 w2 w3 : riper w1 w2 → riper w2 w3 → riper w1 w3.
Proof.
  intros H1 H2 n k Hk. destruct (H1 n k Hk) as (m & ? & Hm). destruct (H2 m k Hm) as (j & ? & ?).
  exists j. split; [lia|done].
Qed.

Lemma riper_zero w w' k : riper w w' → ripe 0 w k → ripe 0 w' k.
Proof. intros H Hk. destruct (H 0 k Hk) as (m & ? & Hm). by replace 0 with m by lia. Qed.

Lemma sooner_riper w w' : sooner w w' → riper w w'.
Proof. intros H n k Hk. destruct (H n k Hk) as (m & ? & ?). exists m. split; [lia|done]. Qed.

Lemma sooner_trans w1 w2 w3 w4 : riper w1 w2 → sooner w2 w3 → riper w3 w4 → sooner w1 w4.
Proof.
  intros H1 H2 H3 n k Hk. destruct (H1 n k Hk) as (m & ? & Hm). destruct (H2 m k Hm) as (j & ? & Hj).
  destruct (H3 j k Hj) as (i & ? & ?). exists i. split; [lia|done].
Qed.

(** An operation keeps the invariant, and gives no pending poll of a task that is due. *)
Definition moves s q s' q' : Prop :=
  ∃ seg, log s' = log s ++ seg ∧
    (suspend_inv s q → suspend_inv s' q' ∧
       riper (world s) (world s') ∧ ∀ k, ripe 0 (world s) k → never_pending seg k).

Lemma moves_refl s q : moves s q s q.
Proof.
  exists []. rewrite app_nil_r. split; [done|]. intros H. split; [done|]. split; [by apply riper_eq|].
  by intros k Hk t ?%not_elem_of_nil.
Qed.

Lemma moves_trans s1 q1 s2 q2 s3 q3 : moves s1 q1 s2 q2 → moves s2 q2 s3 q3 → moves s1 q1 s3 q3.
Proof.
  intros (g1 & L1 & M1) (g2 & L2 & M2). exists (g1 ++ g2). rewrite L2, L1, app_assoc. split; [done|].
  intros H1. destruct (M1 H1) as (H2 & R1 & D1). destruct (M2 H2) as (H3 & R2 & D2). split; [done|].
  split; [by eapply riper_trans|]. intros k Hk t [?|?]%elem_of_app; [by eapply D1|].
  eapply D2; [by eapply riper_zero|done].
Qed.

(** ** Operations that poll nothing *)

Definition is_poll (e : ExecutorEvent) : bool := match e with Outbound (PollTask _ _ _) => true | _ => false end.

Definition calm s q s' q' : Prop :=
  ∃ seg, log s' = log s ++ seg ∧ Forall (λ e, is_poll e = false) seg ∧ world s' = world s ∧
    ∀ k, k ≠ u64_max → injected (log s') k → (injected (log s) k → awake s q k) → awake s' q' k.

Lemma calm_trans s1 q1 s2 q2 s3 q3 : calm s1 q1 s2 q2 → calm s2 q2 s3 q3 → calm s1 q1 s3 q3.
Proof.
  intros (g1 & L1 & N1 & W1 & A1) (g2 & L2 & N2 & W2 & A2). exists (g1 ++ g2).
  rewrite L2, L1, app_assoc, W2, W1. split; [done|]. split; [by apply Forall_app|]. split; [done|].
  intros k Hne Hi Hk. apply A2; [done|by rewrite L2, L1, <- app_assoc in *|].
  intros Hi2. apply A1; [done|exact Hi2|exact Hk].
Qed.

Lemma finished_calm l seg k :
  Forall (λ e, is_poll e = false) seg → finished (l ++ seg) k → finished l k.
Proof.
  intros Hs (j & t & Hj & Hl). apply lookup_app_Some in Hl as [Hl|[Hle Hl]].
  - exists j, t. split; [by eapply lookup_lt_Some|done].
  - rewrite Forall_lookup in Hs. by apply Hs in Hl.
Qed.

Lemma injected_dec s q k : dinv s q → is_u64 k → injected (log s) k ∨ ¬ injected (log s) k.
Proof.
  intros H [Hk _]. rewrite <- (di_ledger _ _ H k Hk). destruct (TidLedger.contains _ _); [by left|by right].
Qed.

Lemma calm_moves s q s' q' q0 q0' :
  dinv s q0 → dinv s' q0' → calm s q s' q' → moves s q s' q'.
Proof.
  intros H H' (seg & Hl & Hp & Hw & Ha). exists seg. split; [done|]. intros [Hok Hs]. rewrite Hw. split; [split|split; [by apply riper_eq|]].
  - by rewrite Hw.
  - intros k Hne Hi Hf. rewrite Hw.
    assert (Hf0 : ¬ finished (log s) k).
    { intros (j & t & Hj & Hlj). apply Hf. exists j, t. rewrite Hl, length_app. split; [lia|].
      by apply lookup_app_l_Some. }
    destruct (injected_dec s q0 k H (di_range _ _ H' k Hi)) as [Hi0|Hn].
    + destruct (Hs k Hne Hi0 Hf0) as [Haw|?]; [|by right]. left. by apply Ha.
    + left. apply Ha; [done..|]. by intros.
  - intros k Hk t Ht. rewrite Forall_forall in Hp. by apply Hp in Ht.
Qed.

(** From what the operation keeps of the waiting tasks. *)
Lemma keeps_calm s q s' q' e :
  log s' = log s ++ [e] → is_poll e = false → world s' = world s →
  keeps s q s' q' → (∀ k, injected (log s) k → k ∈ Tls.defer_queue (tls s) → awake s' q' k) →
  (∀ k, e = Outbound (PopInjection (Some k)) → k ∈ q') → calm s q s' q'.
Proof.
  intros Hl He Hw Hk Hd Hn. exists [e]. split; [done|]. split; [by repeat constructor|]. split; [done|].
  intros k Hne Hi Ha. rewrite Hl in Hi. apply injected_snoc in Hi as [Hi|Hi].
  - destruct (Ha Hi) as [Hwt|Hdf]; [left; by apply Hk|by apply Hd].
  - left. right. right. by apply Hn.
Qed.

Lemma drain_reactor_calm s :
  data_inv s → wake_inv s (local_queue s) →
  calm s (local_queue s) (drain_reactor_ready_into_local s) (local_queue (drain_reactor_ready_into_local s)).
Proof.
  intros H Hw. destruct (drain_reactor_ok s H) as [_ (d & L & _ & _ & _ & Hwd)].
  destruct (drain_reactor_wake s H Hw) as (_ & K & _).
  eapply keeps_calm; [exact L|done|done|exact K| |done].
  intros k _ Hk. right. by rewrite drain_reactor_eq, drain_with_tls.
Qed.

Lemma drain_task_calm s :
  data_inv s → wake_inv s (local_queue s) →
  calm s (local_queue s) (drain_task_ready_into_local s) (local_queue (drain_task_ready_into_local s)).
Proof.
  intros H Hw. destruct (drain_task_ok s H) as [_ (d & L & _ & _ & _ & Hwd)].
  destruct (drain_task_wake s H Hw) as (_ & K & _).
  eapply keeps_calm; [exact L|done|done|exact K| |done].
  intros k _ Hk. right. rewrite drain_task_eq, drain_with_tls. simpl.
  pose proof (di_tls _ _ H) as Hty. rewrite queued_typed in Hty.
  by destruct (drain_cross_ok _ _ _ (proj2 (proj2 (proj2 Hty))) Hw) as (_ & _ & -> & _).
Qed.

Lemma drain_deferred_calm s :
  data_inv s → wake_inv s (local_queue s) →
  calm s (local_queue s) (drain_deferred_into_local s) (local_queue (drain_deferred_into_local s)).
Proof.
  intros H Hw. destruct (drain_deferred_ok s H) as [_ (d & L & _ & _ & _ & Hwd)].
  destruct (drain_deferred_wake s H Hw) as (_ & K & _ & Hd).
  eapply keeps_calm; [exact L|done|done|exact K| |done].
  intros k Hne Hk. left. right. right. by apply Hd.
Qed.

Lemma pop_action_calm s :
  data_inv s →
  match pop_injection_action s with
  | (Some task, s1) => calm s (local_queue s) (accept s1 task) (local_queue (accept s1 task))
  | (None, s1) => calm s (local_queue s) s1 (local_queue s1)
  end.
Proof.
  intros H. pose proof (pop_injection_action_ok s H) as Hp.
  destruct (pop_injection_action s) as [[task|] s1].
  - destruct Hp as (_ & (Hl & Hq & _ & Ht & Hw) & _). eapply keeps_calm; [exact Hl|done|done|..].
    + intros k _ _. unfold waits. rewrite Ht, Hq, elem_of_app. tauto.
    + intros k _ Hk. right. by rewrite Ht.
    + intros k [= <-]. rewrite Hq. apply elem_of_app. right. by apply list_elem_of_singleton.
  - destruct Hp as (_ & (Hl & Hq & _ & Ht & Hw)). eapply keeps_calm; [exact Hl|done|done|..|done].
    + intros k _ _. unfold waits. by rewrite Ht, Hq.
    + intros k _ Hk. right. by rewrite Ht.
Qed.

Lemma calm_refl s q : calm s q s q.
Proof. exists []. rewrite app_nil_r. split; [done|]. split; [constructor|]. split; [done|]. auto. Qed.

Lemma pop_loop_calm fuel s :
  data_inv s → calm s (local_queue s) (pop_injection_loop fuel s) (local_queue (pop_injection_loop fuel s)).
Proof.
  revert s. induction fuel as [|fuel IH]; intros s H; simpl; [apply calm_refl|].
  pose proof (pop_injection_action_ok s H) as Hp. pose proof (pop_action_calm s H) as Hc.
  destruct (pop_injection_action s) as [[task|] s1]; [|done].
  eapply calm_trans; [exact Hc|]. apply IH, Hp.
Qed.

Lemma next_task_calm s :
  data_inv s → wake_inv s (local_queue s) →
  match next_task s with
  | (Some tid, s1) => calm s (local_queue s) s1 (tid :: local_queue s1)
  | (None, s1) => calm s (local_queue s) s1 (local_queue s1)
  end.
Proof.
  intros H Hw. unfold next_task, pop_front at 1.
  destruct (local_queue s) as [|x q] eqn:Eq; [|exact (calm_refl s (x :: q))]. rewrite <- Eq in *.
  destruct (drain_reactor_ok s H) as [H1 _]. destruct (drain_reactor_wake s H Hw) as (W1 & _).
  pose proof (drain_reactor_calm s H Hw) as C1. set (s1 := drain_reactor_ready_into_local s) in *.
  destruct (drain_task_ok s1 H1) as [H2 _]. destruct (drain_task_wake s1 H1 W1) as (W2 & _).
  pose proof (calm_trans _ _ _ _ _ _ C1 (drain_task_calm s1 H1 W1)) as C2.
  set (s2 := drain_task_ready_into_local s1) in *.
  unfold pop_front at 1. destruct (local_queue s2) as [|x q] eqn:Eq2; [|exact C2].
  pose proof (pop_injection_action_ok s2 H2) as Hp. rewrite <- Eq2 in C2, W2.
  pose proof (pop_action_calm s2 H2) as Hc.
  destruct (pop_injection_action s2) as [[task|] s3]; [|by eapply calm_trans].
  destruct Hp as (_ & (_ & Hq & _) & _). rewrite Eq2 in Hq. unfold pop_front. rewrite Hq. simpl.
  rewrite Hq in Hc. eapply calm_trans; [exact C2|exact Hc].
Qed.

(** ** Polling *)

Lemma awake_grow s s' q k : wakes_grow (tls s) (tls s') → awake s q k → awake s' q k.
Proof. intros (G1 & G2 & G3). unfold awake, waits. naive_solver. Qed.

Lemma awake_queued s q k : k ∈ Tls.queued (tls s) ∨ k ∈ q → awake s q k.
Proof. rewrite elem_of_queued. unfold awake, waits. tauto. Qed.

Lemma run_effects_awake I xs s q k :
  current_typed s → tls_ok I (tls s) q → k ≠ u64_max → I k → wakes_task (externals xs) k →
  awake (foldl run_effect s xs) q k.
Proof.
  revert s. induction xs as [|x xs IH]; intros s Hcur H Hne HI (same & defer & source & j & Hin & Hj).
  { by apply not_elem_of_nil in Hin. }
  destruct (run_effect_wake I s x q Hcur H) as [H1 G1]. simpl.
  assert (Hcur1 : current_typed (run_effect s x)) by (intros tid; rewrite run_effect_current; apply Hcur).
  apply list_elem_of_omap in Hin as (e & He & Hx). apply elem_of_cons in He as [->|He].
  - destruct x as [y|]; simplify_eq/=. eapply awake_grow; [by apply (run_effects_wake I xs _ q)|].
    apply awake_queued. simpl.
    destruct (wake_impl_ok I same defer source (wrap64 j) (tls s) q) as (_ & _ & Hq);
      [apply wrap64_range|done|by apply Hq].
  - apply IH; [done..|]. exists same, defer, source, j. split; [|done].
    apply list_elem_of_omap. by exists e.
Qed.

(** What one poll of a future does to the queues and the world. *)
Lemma poll_future_awake s tid t q ready f' w' effs :
  outer_typed s → wake_inv s q → is_u64 tid →
  future_poll tid (future t) (world s) = (ready, f', w', effs) →
  let '(r, _, s') := poll_future_raw s tid t in
  r = (if ready then Ready else Pending) ∧ world s' = w' ∧
  (∀ k, awake s q k → awake s' q k) ∧
  (∀ k, k ≠ u64_max → injected (log s) k → wakes_task (externals effs) k → awake s' q k).
Proof.
  intros Ho H Hu Ef. pose proof (poll_future_wake _ s tid t q H Hu) as Hgrow.
  unfold poll_future_raw in *. simpl in *. rewrite Ef in *. destruct Hgrow as [_ G].
  set (s1 := set_world (set_tls s (Tls.set_current_task (tls s) tid)) w') in *.
  assert (Hcur : current_typed s1) by (intros k; simpl; by intros [= <-]).
  destruct (run_effects_ok s1 effs Hcur) as [(_ & _ & _ & _ & _ & C6) _].
  { destruct Ho as (Hq & ? & ?). split; [|done]. by rewrite queued_typed in *. }
  split; [done|]. split; [exact C6|]. split.
  - intros k. by apply awake_grow.
  - intros k Hne Hi Hwk. unfold awake, waits. simpl.
    change (awake (foldl run_effect s1 effs) q k).
    by apply (run_effects_awake (λ k, injected (log s) k) effs s1 q k).
Qed.

Lemma finished_poll l tid t r k :
  finished (l ++ [Outbound (PollTask tid t r)]) k ↔ finished l k ∨ k = tid ∧ r = Ready.
Proof.
  rewrite ready_snoc. split.
  - intros [?|[t' [= -> -> ->]]]; auto.
  - intros [?|[-> ->]]; [by left|right]. by exists t.
Qed.

Lemma poll_task_moves s tid :
  dinv s (tid :: local_queue s) → wake_inv s (tid :: local_queue s) →
  moves s (tid :: local_queue s) (poll_task s tid) (local_queue (poll_task s tid)).
Proof.
  intros H Hw. destruct (poll_task_ok s tid H) as (_ & _ & Hq & _).
  assert (Hinj : injected (log s) tid) by (apply (di_inj _ _ H); set_solver).
  assert (Hu : is_u64 tid) by by apply (di_range _ _ H).
  rewrite Hq. unfold poll_task.
  set (s0 := set_tls s (Tls.clear_notified (tls s) tid)).
  assert (Hr : ready_of (tls s0) = ready_of (tls s) ∧ Tls.cross_thread (tls s0) = Tls.cross_thread (tls s) ∧
    Tls.defer_queue (tls s0) = Tls.defer_queue (tls s) ∧ Tls.queued (tls s0) = Tls.queued (tls s)).
  { simpl. unfold Tls.clear_notified. by case_match. }
  destruct Hr as (Hr & Hc & Hd & Hqd).
  assert (Haw0 : ∀ k, k ≠ tid → awake s (tid :: local_queue s) k → awake s0 (local_queue s) k).
  { intros k Hne. unfold awake, waits. rewrite Hr, Hc, Hd, elem_of_cons. tauto. }
  assert (Hok0 : wake_inv s0 (local_queue s)) by by apply clear_notified_ok.
  assert (Hgone : st_get (task_slab s) tid = None → ¬ ¬ finished (log s) tid).
  { intros Hn Hf. destruct (proj2 (di_slab _ _ H tid) (conj Hinj Hf)) as [t Ht]. congruence. }
  pose proof (surjective_pairing (st_remove (task_slab s) tid)) as Hrm. rewrite st_remove_result in Hrm.
  change (Slab.remove (task_slab s0) tid) with (st_remove (task_slab s) tid). rewrite Hrm.
  destruct (st_get (task_slab s) tid) as [task|] eqn:Eg.
  - unfold poll_task_action. set (s1 := set_slab s0 _).
    destruct (future_poll tid (future task) (world s)) as [[[ready f'] w'] effs] eqn:Ef.
    assert (Ho : outer_typed s1).
    { destruct (dinv_typed _ _ H) as (? & ? & ?). split; [|done]. unfold tls_typed. simpl in *. by rewrite Hqd. }
    pose proof (poll_future_awake s1 tid task (local_queue s) ready f' w' effs Ho Hok0 Hu Ef) as Hp.
    pose proof (poll_future_frame s1 tid task Hu Ho) as Hf.
    destruct (poll_future_raw s1 tid task) as [[r t'] s2].
    destruct Hp as (-> & Hw2 & Hgrow & Hwoken). destruct Hf as (_ & _ & _ & _ & _ & Hl2 & _). simpl in Hl2.
    set (e := Outbound (PollTask tid (Some (id t')) (if ready then Ready else Pending))).
    assert (Hmain : suspend_inv s (tid :: local_queue s) →
      suspend_inv (record s2 e) (local_queue s) ∧
      riper (world s) (world (record s2 e)) ∧ ∀ k, ripe 0 (world s) k → never_pending [e] k).
    { intros [Hokw Hs]. destruct (suspend_poll _ _ _ _ _ _ _ Hokw Hu Ef) as (Hok' & Hpend & Hdue & Hripe & Hother).
      split; [split|split; [apply riper_eq; intros n k Hk; simpl; rewrite Hw2; by apply Hripe|]].
      - simpl. by rewrite Hw2.
      - intros k Hne. simpl. rewrite Hl2. unfold e. rewrite injected_snoc. intros [Hi|?]; [|done].
        rewrite finished_poll. intros Hnf. rewrite Hw2.
        destruct (decide (k = tid)) as [->|Hkt].
        + destruct ready; [naive_solver|]. destruct (Hpend eq_refl) as [?|Hwk]; [by right|left].
          exact (Hwoken tid Hne Hi Hwk).
        + destruct (Hs k Hne Hi) as [Haw|Har]; [naive_solver| |].
          * left. exact (Hgrow k (Haw0 k Hkt Haw)).
          * destruct (Hother k Hkt Har) as [?|Hwk]; [by right|left]. exact (Hwoken k Hne Hi Hwk).
      - intros k Hk t Ht%list_elem_of_singleton.
        unfold e in Ht. injection Ht as -> _ Hpn. rewrite (Hdue Hk) in Hpn. done. }
    exists [e]. destruct ready; (split; [simpl; by rewrite Hl2|exact Hmain]).
  - set (e := Outbound (PollTask tid None Invalid)).
    exists [e]. split; [done|]. intros [Hokw Hs]. split; [split; [done|]|split; [by apply riper_eq|]].
    + intros k Hne. simpl. unfold e. rewrite injected_snoc. intros [Hi|?]; [|done].
      rewrite finished_poll. intros Hnf. destruct (decide (k = tid)) as [->|Hkt]; [naive_solver|].
      destruct (Hs k Hne Hi) as [Haw|Har]; [naive_solver|left; exact (Haw0 k Hkt Haw)|by right].
    + by intros k Hk t Ht%list_elem_of_singleton.
Qed.

Lemma poll_while_moves fuel n c s :
  data_inv s → wake_inv s (local_queue s) →
  let '(_, s') := poll_while fuel n c s in moves s (local_queue s) s' (local_queue s').
Proof.
  revert c s. induction fuel as [|fuel IH]; intros c s H Hw; simpl; [apply moves_refl|].
  destruct (Nat.ltb_spec c n); [|apply moves_refl].
  pose proof (next_task_ok s H) as Hn. pose proof (next_task_wake s H Hw) as Hnw.
  pose proof (next_task_calm s H Hw) as Hc.
  destruct (next_task s) as [[tid|] s1].
  - destruct Hn as (H1 & _). destruct Hnw as [W1 _].
    destruct (poll_task_ok s1 tid H1) as (H2 & _). destruct (poll_task_wake s1 tid H1 W1) as [W2 _].
    specialize (IH (c + 1) _ H2 W2). destruct (poll_while fuel n (c + 1) _) as [c' s'].
    eapply moves_trans; [eapply calm_moves; [exact H|exact H1|exact Hc]|].
    eapply moves_trans; [by apply poll_task_moves|exact IH].
  - destruct Hn as (H1 & _). eapply calm_moves; [exact H|exact H1|exact Hc].
Qed.

(** ** Parking *)

Lemma run_externals_awake I xs s q k :
  tls_ok I (tls s) q → k ≠ u64_max → I k → wakes_task xs k → awake (foldl run_external s xs) q k.
Proof.
  revert s. induction xs as [|x xs IH]; intros s H Hne HI (same & defer & source & j & Hin & Hj).
  { by apply not_elem_of_nil in Hin. }
  destruct (run_external_wake I s x q H) as [H1 G1].
  simpl. apply elem_of_cons in Hin as [<-|Hin].
  - destruct (run_externals_wake I xs _ q H1) as [_ G2]. eapply awake_grow; [exact G2|].
    apply awake_queued. simpl.
    destruct (wake_impl_ok I same defer source (wrap64 j) (tls s) q) as (_ & _ & Hq);
      [apply wrap64_range|done|]. rewrite Hj in *. by apply Hq.
  - apply IH; [done|done|done|]. by exists same, defer, source, j.
Qed.

Lemma park_action_moves s b :
  data_inv s → wake_inv s (local_queue s) →
  moves s (local_queue s) (park_action s b) (local_queue (park_action s b)).
Proof.
  intros H Hok. destruct (park_action_ok s b H) as (_ & Hl & Hq & _). rewrite Hq.
  unfold park_action in *. destruct (reactor_park (park_timeout b) _) as [w exts] eqn:Er.
  assert (Ho : outer_typed (set_world s w)) by (by destruct (dinv_typed _ _ H) as (? & ? & ?)).
  destruct (run_externals_ok (set_world s w) exts Ho) as [(_ & _ & _ & _ & _ & C6) _].
  destruct (run_externals_wake (λ k, injected (log s) k) exts (set_world s w) (local_queue s) Hok) as [_ G].
  exists [Outbound Park]. split; [exact Hl|]. intros [Hokw Hs].
  destruct (suspend_park (park_timeout b) _ _ _ Hokw ltac:(by destruct b) Er) as (Hok' & Hripe & Harm).
  split; [split|split; [intros j k Hk; exists (pred j); simpl; rewrite C6; split; [lia|by apply Hripe]|]].
  - simpl. by rewrite C6.
  - intros k Hne. rewrite Hl, injected_snoc. intros [Hi|?]; [|done]. intros Hnf.
    simpl. rewrite C6. simpl. destruct (Hs k Hne Hi) as [Haw|Har].
    + intros (j & t & Hj & Hlj). apply Hnf. exists j, t. rewrite length_app.
      split; [lia|]. by apply lookup_app_l_Some.
    + left. exact (awake_grow (set_world s w) (foldl run_external (set_world s w) exts) _ _ G Haw).
    + destruct (Harm k Har) as [?|Hwk]; [by right|left].
      exact (run_externals_awake (λ k, injected (log s) k) exts (set_world s w) (local_queue s) k Hok Hne Hi Hwk).
  - by intros k Hk t ?%list_elem_of_singleton.
Qed.

Lemma park_action_sooner s b q :
  data_inv s → suspend_inv s q → sooner (world s) (world (park_action s b)).
Proof.
  intros H [Hokw _] j k Hk. unfold park_action.
  destruct (reactor_park (park_timeout b) _) as [w exts] eqn:Er.
  assert (Ho : outer_typed (set_world s w)) by (by destruct (dinv_typed _ _ H) as (? & ? & ?)).
  destruct (run_externals_ok (set_world s w) exts Ho) as [(_ & _ & _ & _ & _ & C6) _].
  destruct (suspend_park (park_timeout b) _ _ _ Hokw ltac:(by destruct b) Er) as (_ & Hripe & _).
  exists (pred j). simpl. rewrite C6. split; [lia|by apply Hripe].
Qed.

Lemma park_moves s :
  data_inv s → wake_inv s (local_queue s) →
  moves s (local_queue s) (park s) (local_queue (park s)) ∧
  (suspend_inv s (local_queue s) → sooner (world s) (world (park s))).
Proof.
  intros H Hok. unfold park. cbn [Tls.take_block_on_yielded].
  set (t1 := Tls.drain_cross_thread (Tls.reset_interrupt (tls s))).
  set (s2 := set_tls (set_tls s t1) (Tls.set_block_on_yielded (tls (set_tls s t1)) false)).
  pose proof (di_tls _ _ H) as Hty. rewrite queued_typed in Hty.
  assert (Hok0 : tls_ok (λ k, injected (log s) k) (Tls.reset_interrupt (tls s)) (local_queue s)).
  { by apply (tls_ok_frame _ (tls s)). }
  destruct (drain_cross_ok _ (Tls.reset_interrupt (tls s)) _ (proj2 (proj2 (proj2 Hty))) Hok0)
    as (T1 & T2 & T3 & _ & T5). fold t1 in T1, T2, T3, T5.
  assert (W2 : wake_inv s2 (local_queue s2)) by by apply (tls_ok_frame _ t1).
  assert (C2 : calm s (local_queue s) s2 (local_queue s2)).
  { exists []. rewrite app_nil_r. split; [done|]. split; [constructor|]. split; [done|].
    intros k Hne Hi Ha. destruct (Ha Hi) as [[Hk|[Hk|Hk]]|Hk].
    - left. left. by apply T2.
    - destruct (T5 k Hne Hi Hk) as [?|?]; [by left; left|by left; right; right].
    - left. by right; right.
    - right. simpl. by rewrite T3. }
  assert (H2 : data_inv s2).
  { apply (dinv_outer s); try done. destruct (dinv_typed _ _ H) as (Ht & ? & ?).
    split; [|done]. simpl. apply queued_typed. simpl.
    assert (Htt : tls_typed t1); [|by rewrite queued_typed in Htt].
    apply drain_cross_typed. by rewrite queued_typed in *. }
  match goal with |- context [park_action s2 ?b] => set (b0 := b) end.
  destruct (park_action_ok s2 b0 H2) as (H3 & _).
  destruct (park_action_wake s2 b0 H2 W2) as [W3 _].
  pose proof (park_action_moves s2 b0 H2 W2) as M3. set (s3 := park_action s2 b0) in *.
  destruct (drain_reactor_ok s3 H3) as [H4 (d4 & _ & _ & _ & _ & D4)].
  destruct (drain_reactor_wake s3 H3 W3) as (W4 & _).
  pose proof (drain_reactor_calm s3 H3 W3) as C4.
  set (s4 := drain_reactor_ready_into_local s3) in *.
  destruct (drain_task_ok s4 H4) as [H5 (d5 & _ & _ & _ & _ & D5)]. pose proof (drain_task_calm s4 H4 W4) as C5.
  split; [|intros [Hokw Hs]; rewrite D5, D4; eapply (park_action_sooner s2); [done|]].
  2: { pose proof (calm_moves _ _ _ _ _ _ H H2 C2) as (? & _ & M). by apply M. }
  eapply moves_trans; [eapply calm_moves; [exact H|exact H2|exact C2]|]. eapply moves_trans; [exact M3|].
  eapply calm_moves; [exact H3|exact H5|]. by eapply calm_trans.
Qed.

(** ** The tick *)

Lemma tick_moves s :
  data_inv s → wake_inv s (local_queue s) →
  moves s (local_queue s) (tick s) (local_queue (tick s)) ∧
  (suspend_inv s (local_queue s) → sooner (world s) (world (tick s))).
Proof.
  intros H Hw. unfold tick. set (n := event_interval s).
  set (s1 := record s (Inbound (Tick None))).
  assert (H1 : data_inv s1).
  { unfold data_inv in *. apply (dinv_record s _ (Inbound (Tick None))) in H; [done|done|by left]. }
  destruct (extend_wake s s1 [Inbound (Tick None)] (local_queue s) (local_queue s1)) as [W1 K1];
    [done..|intros k; simpl; rewrite injected_snoc; naive_solver|done|].
  assert (C1 : calm s (local_queue s) s1 (local_queue s1)).
  { eapply keeps_calm; try done. intros k _ Hk. by right. }
  destruct (drain_deferred_ok s1 H1) as [H2 _].
  destruct (drain_deferred_wake s1 H1 W1) as (W2 & _).
  pose proof (calm_trans _ _ _ _ _ _ C1 (drain_deferred_calm s1 H1 W1)) as C2.
  change (drain_deferred_into_local s1) with (wake_deferred s1) in *.
  set (s2 := wake_deferred s1) in *.
  destruct (pop_injection_ok s2 H2) as (H3 & _).
  assert (HP3 : wake_inv (pop_injection s2) (local_queue (pop_injection s2)) ∧
    calm s2 (local_queue s2) (pop_injection s2) (local_queue (pop_injection s2))).
  { rewrite pop_injection_unfold. split; [by apply pop_injection_loop_wake|by apply pop_loop_calm]. }
  destruct HP3 as [W3 C3]. pose proof (calm_trans _ _ _ _ _ _ C2 C3) as C. set (s3 := pop_injection s2) in *.
  pose proof (poll_loop_ok n 0 s3 H3 ltac:(lia)) as Hl4. rewrite poll_loop_eq in *.
  pose proof (poll_while_wake (n - 0) n 0 s3 H3 W3) as Hw4.
  pose proof (poll_while_moves (n - 0) n 0 s3 H3 W3) as M4.
  destruct (poll_while (n - 0) n 0 s3) as [c s4]. destruct Hw4 as [W4 _].
  pose proof (lo_inv _ _ _ _ _ Hl4) as H4. pose proof (lo_count _ _ _ _ _ Hl4) as Hc4.
  destruct (park_ok s4 H4) as (H5 & _). destruct (park_wake s4 H4 W4) as (W5 & _).
  destruct (park_moves s4 H4 W4) as [M5 R5]. set (s5 := park s4) in *.
  pose proof (poll_loop_ok n c s5 H5 ltac:(lia)) as Hl6. rewrite poll_loop_eq in *.
  pose proof (poll_while_moves (n - c) n c s5 H5 W5) as M6.
  destruct (poll_while (n - c) n c s5) as [c' s6]. pose proof (lo_inv _ _ _ _ _ Hl6) as H6.
  set (s7 := record s6 (Inbound (Tick (Some tt)))).
  pose proof (calm_moves _ _ _ _ _ _ H H3 C) as M3.
  pose proof (moves_trans _ _ _ _ _ _ M3 M4) as M34.
  assert (M67 : moves s6 (local_queue s6) s7 (local_queue s7)).
  { exists [Inbound (Tick (Some tt))]. split; [done|]. intros [Hokw Hs]. split; [split; [done|]|split; [by apply riper_eq|]].
    - intros k Hne. simpl. rewrite injected_snoc. intros [Hi|?]; [|done]. intros Hnf.
      apply (Hs k Hne Hi). intros (j & t & Hj & Hlj). apply Hnf. exists j, t. rewrite length_app.
      split; [lia|]. by apply lookup_app_l_Some.
    - by intros k Hk t ?%list_elem_of_singleton. }
  pose proof (moves_trans _ _ _ _ _ _ M6 M67) as M57. split.
  - eapply moves_trans; [exact M34|]. eapply moves_trans; [exact M5|exact M57].
  - intros Hs. destruct M34 as (? & _ & M34). destruct (M34 Hs) as (Hs4 & Hr4 & _).
    destruct M5 as (? & _ & M5). destruct (M5 Hs4) as (Hs5 & _ & _).
    destruct M57 as (? & _ & M57). destruct (M57 Hs5) as (_ & Hr7 & _).
    eapply sooner_trans; [exact Hr4|by apply R5|exact Hr7].
Qed.

(** ** Reachable states *)

Lemma poll_main_raw s f : (poll_main s f).2 = (poll_future_raw s u64_max (mkTask 0 f)).2.
Proof.
  unfold poll_main, poll_future_raw. simpl. by destruct (future_poll u64_max f (world s)) as [[[? ?] ?] ?].
Qed.

Lemma poll_main_moves s f :
  data_inv s → wake_inv s (local_queue s) →
  moves s (local_queue s) (poll_main s f).2 (local_queue (poll_main s f).2).
Proof.
  intros H Hw. pose proof (dinv_typed _ _ H) as Ho.
  destruct (future_poll u64_max f (world s)) as [[[ready f'] w'] effs] eqn:Ef.
  pose proof (poll_future_awake s u64_max (mkTask 0 f) (local_queue s) ready f' w' effs Ho Hw
    ltac:(u64) Ef) as Hp.
  pose proof (poll_future_frame s u64_max (mkTask 0 f) ltac:(u64) Ho) as Hf.
  rewrite poll_main_raw. destruct (poll_future_raw s u64_max (mkTask 0 f)) as [[r t'] s']. simpl.
  destruct Hp as (_ & Hw' & Hgrow & Hwoken). destruct Hf as (_ & _ & _ & _ & Hq & Hl & _).
  exists []. rewrite Hl, Hq, app_nil_r. split; [done|]. intros [Hok Hs].
  destruct (suspend_poll u64_max f (world s) ready f' w' effs Hok ltac:(u64) Ef) as (Hok' & _ & _ & Hripe & Harm).
  rewrite <- Hw' in *. split; [split; [done|]|split; [by apply riper_eq|]].
  - intros k Hne. rewrite Hl. intros Hi Hnf. destruct (Hs k Hne Hi Hnf) as [Haw|Har]; [left; by apply Hgrow|].
    destruct (Harm k Hne Har) as [?|Hwk]; [by right|left; by apply Hwoken].
  - by intros k Hk t ?%not_elem_of_nil.
Qed.

Lemma external_moves s x :
  data_inv s → wake_inv s (local_queue s) →
  moves s (local_queue s) (run_external s x) (local_queue (run_external s x)).
Proof.
  intros H Hok. destruct (run_external_inv s x H) as (H' & Hl & _).
  destruct (run_external_core s x) as (_ & Hq & _ & _ & _ & Hw).
  destruct (run_external_wake _ s x (local_queue s) Hok) as [_ G].
  eapply calm_moves; [exact H|exact H'|]. exists []. rewrite Hl, Hq, app_nil_r.
  split; [done|]. split; [constructor|]. split; [done|]. intros k _ Hi Ha. by eapply awake_grow, Ha.
Qed.

Lemma reachable_suspend_inv reactor n s :
  ok reactor → reachable reactor n s → suspend_inv s (local_queue s).
Proof.
  intros Hok. induction 1 as [t Ht|s x Hs IH|s f Hs IH|s Hs IH].
  - split; [done|]. intros k _ (j & Hj & _). simpl in Hj. lia.
  - destruct (reachable_wake_inv reactor n s Hs) as (H & Hw & _).
    destruct (external_moves s x H Hw) as (seg & _ & M). by apply M.
  - destruct (reachable_wake_inv reactor n s Hs) as (H & Hw & _).
    destruct (poll_main_moves s f H Hw) as (seg & _ & M). by apply M.
  - destruct (reachable_wake_inv reactor n s Hs) as (H & Hw & _).
    destruct (tick_moves s H Hw) as [(seg & _ & M) _]. by apply M.
Qed.

Lemma ticks_moves m s :
  data_inv s → wake_inv s (local_queue s) →
  moves s (local_queue s) (ticks m s) (local_queue (ticks m s)).
Proof.
  revert s. induction m as [|m IH]; intros s H Hw; simpl; [apply moves_refl|].
  destruct (tick_ok s H) as (? & ? & ? & ? & ? & ? & _ & H' & _ & _).
  eapply moves_trans; [by apply tick_moves|]. apply IH; [done|by apply tick_wake].
Qed.

Lemma finished_dec l k : finished l k ∨ ¬ finished l k.
Proof.
  induction l as [|e l IH] using rev_ind; [right; intros (j & _ & Hj & _); simpl in Hj; lia|].
  destruct IH as [IH|IH]; [left; apply ready_snoc; by left|].
  assert (Hd : (∃ t, e = Outbound (PollTask k t Ready)) ∨ ¬ ∃ t, e = Outbound (PollTask k t Ready)).
  { destruct e as [c|[tid t []| | |]]; try (right; by intros [? ?]).
    destruct (decide (tid = k)) as [->|Hne]; [left; by exists t|right; by intros [? [= ? ?]]]. }
  destruct Hd as [Hd|Hd]; [left; apply ready_snoc; by right|right]. rewrite ready_snoc. tauto.
Qed.

(** A poll of an injected task that is not pending means that it is finished. *)
Lemma polled_finished s q i k t r :
  dinv s q → injected (log s) k → log s !! i = Some (Outbound (PollTask k t r)) → r ≠ Pending →
  finished (log s) k.
Proof.
  intros H _ Hl Hr. pose proof (lookup_lt_Some _ _ _ Hl) as Hlt.
  destruct r; [by exists i, t|done|].
  destruct (proj1 (di_polls _ _ H) i k t Invalid Hl) as [Hinj Hinv].
  destruct (proj1 Hinv eq_refl) as [(j & t' & Hj & Hlj)|Hn]; [|by destruct Hn].
  exists j, t'. split; [lia|done].
Qed.

(** No task is stranded.  In every reachable state, each task that was injected
    and is not finished waits in a queue of the executor, or the world holds a
    source that will wake it. *)
Lemma task_never_stranded reactor n s k :
  ok reactor → reachable reactor n s →
  k ≠ u64_max → injected (log s) k → ¬ finished (log s) k →
  k ∈ Tls.queued (tls s) ∨ k ∈ local_queue s ∨ armed (world s) k.
Proof.
  intros Hok Hs Hne Hi Hf. destruct (reachable_suspend_inv reactor n s Hok Hs) as [_ Ha].
  rewrite elem_of_queued. destruct (Ha k Hne Hi Hf) as [[[?|[?|?]]|?]|?]; tauto.
Qed.

(** A task that is due finishes. *)
Lemma due_finishes reactor n s k :
  0 < n → ok reactor → reachable reactor n s →
  k ≠ u64_max → injected (log s) k → ripe 0 (world s) k →
  ∃ m, finished (log (ticks m s)) k.
Proof.
  intros Hn Hok Hs Hne Hi Hd.
  destruct (reachable_wake_inv reactor n s Hs) as (H & Hw & Hint).
  pose proof (reachable_suspend_inv reactor n s Hok Hs) as Hsus. pose proof Hsus as [Hokw Ha].
  destruct (finished_dec (log s) k) as [Hf|Hf]; [by exists 0|].
  assert (Hq : k ∈ Tls.queued (tls s) ∨ k ∈ local_queue s).
  { rewrite elem_of_queued. destruct (Ha k Hne Hi Hf) as [[[?|[?|?]]|?]|Har]; try tauto.
    by destruct (suspend_due _ _ Hokw Hd). }
  destruct (queued_polled s k H Hw ltac:(lia) Hne Hi Hq) as (m & i & t & r & Hle & Hl).
  exists m. destruct (ticks_moves m s H Hw) as (seg & Hseg & M).
  destruct (M Hsus) as (_ & _ & Hnp). pose proof (Hnp k Hd) as Hnp'.
  assert (Hm : data_inv (ticks m s)).
  { clear -H. revert s H. induction m as [|m IH]; intros s H; simpl; [done|].
    destruct (tick_ok s H) as (? & ? & ? & ? & ? & ? & _ & H' & _). by apply IH. }
  apply (polled_finished _ _ i k t r Hm); [|done|].
  - destruct Hi as (j & Hj & Hlj). exists j. rewrite Hseg, length_app. split; [lia|]. by apply lookup_app_l_Some.
  - intros ->. apply (Hnp' t). rewrite Hseg, lookup_app_r in Hl by done. by eapply list_elem_of_lookup_2.
Qed.

Lemma tick_injected s k : data_inv s → injected (log s) k → injected (log (tick s)) k.
Proof.
  intros H (j & Hj & Hlj). destruct (tick_ok s H) as (? & ? & ? & ? & ? & ? & Hseg & _). exists j.
  rewrite Hseg, length_app. split; [lia|]. by apply lookup_app_l_Some.
Qed.

(** A task whose wake-up time comes finishes: if it will be due in [j] parks, then
    from every reachable state it returns ready after finitely many ticks, whatever
    the other tasks do in the meantime. *)
Lemma ripe_task_finishes reactor n s j k :
  0 < n → ok reactor → reachable reactor n s →
  k ≠ u64_max → injected (log s) k → ripe j (world s) k →
  ∃ m, finished (log (ticks m s)) k.
Proof.
  intros Hn Hok Hs Hne Hi Hk. revert s Hs Hi Hk.
  induction j as [j IH] using lt_wf_ind. intros s Hs Hi Hk. destruct j as [|j]; [by eapply due_finishes|].
  destruct (reachable_wake_inv reactor n s Hs) as (H & Hw & _).
  pose proof (reachable_suspend_inv reactor n s Hok Hs) as Hsus.
  destruct (tick_moves s H Hw) as [_ Hd]. destruct (Hd Hsus _ _ Hk) as (i & Hle & Hi').
  destruct (IH i ltac:(simpl in Hle; lia) (tick s)) as [m Hm]; [by apply r_tick|by apply tick_injected|done|].
  by exists (S m).
Qed.

End suspend.
