(* ===== verification/Framework.v ===== *)
(** * Framework: contracts of modules that run for ever

    The specification framework of [lion-framework-spec]: a module is a well-formedness
    predicate on its states (its logs) and the relation of one round; a contract promises a
    response to everything that it accepted, within a number of rounds; the invariants of a
    log are of two shapes, safety at a position and a response to a position. *)

From S2P Require Import Prelude.

Module Framework.

(** [module_spec.rs] *)
Record ModuleSpec (L : Type) := mkModuleSpec {
  well_formed : L → Prop;
  progress : L → L → Prop;
}.
Arguments mkModuleSpec {L} _ _.
Arguments well_formed {L} _ _.
Arguments progress {L} _ _ _.

(** [async_contract.rs] *)
Record AsyncContract (L T : Type) := mkContract {
  acceptance : L → T → Prop;
  fulfillment : L → T → Prop;
  assumption : L → T → Prop;
}.
Arguments mkContract {L T} _ _ _.
Arguments acceptance {L T} _ _ _.
Arguments fulfillment {L T} _ _ _.
Arguments assumption {L T} _ _ _.

(** [action_safety.rs] *)
Record ActionSafety (L : Type) := mkActionSafety {
  action : L → nat → Prop;
  validity : L → nat → Prop;
}.
Arguments mkActionSafety {L} _ _.
Arguments action {L} _ _ _.
Arguments validity {L} _ _ _.

Definition action_safety_satisfied {L} (p : ActionSafety L) (l : L) : Prop :=
  ∀ i, action p l i → validity p l i.

(** [local_liveness.rs] *)
Record LocalLiveness (L : Type) := mkLocalLiveness {
  trigger : L → nat → Prop;
  response : L → nat → nat → Prop;
  timely : L → nat → nat → Prop;
}.
Arguments mkLocalLiveness {L} _ _ _.
Arguments trigger {L} _ _ _.
Arguments response {L} _ _ _ _.
Arguments timely {L} _ _ _ _.

Definition local_liveness_satisfied {L} (p : LocalLiveness L) (l : L) : Prop :=
  ∀ i, trigger p l i → ∃ j, i < j ∧ response p l i j ∧ timely p l i j.

Section traces.
Context {L T : Type}.
Implicit Types (l x y : L) (t : T) (P : L → L → Prop) (env : L → T → Prop) (trace : list L).

Definition is_valid_trace P trace : Prop :=
  1 ≤ length trace ∧ ∀ i x y, trace !! i = Some x → trace !! S i = Some y → P x y.

Definition env_holds_along trace env t : Prop := ∀ i x, trace !! i = Some x → env x t.

Definition progress_n P l l' (n : nat) : Prop :=
  ∃ trace, length trace = S n ∧ head trace = Some l ∧ last trace = Some l' ∧ is_valid_trace P trace.

Definition env_progress_n P l l' (n : nat) env t : Prop :=
  ∃ trace, length trace = S n ∧ head trace = Some l ∧ last trace = Some l' ∧
    is_valid_trace P trace ∧ env_holds_along trace env t.

Definition progress_preserves_wf (ms : ModuleSpec L) : Prop :=
  ∀ l l', well_formed ms l → progress ms l l' → well_formed ms l'.

Definition ensures_response_within l t (ms : ModuleSpec L) (ac : AsyncContract L T) (n : nat) : Prop :=
  ∀ l', progress_n (progress ms) l l' n → fulfillment ac l' t.
Definition ensures_response l t ms (ac : AsyncContract L T) : Prop :=
  ∃ n, ensures_response_within l t ms ac n.

Definition bounded_liveness_without_arrival ms (ac : AsyncContract L T) : Prop :=
  progress_preserves_wf ms ∧
  ∀ t l, well_formed ms l → acceptance ac l t → assumption ac l t → ensures_response l t ms ac.

Definition env_response_within_trace l t ms (ac : AsyncContract L T) env (n : nat) : Prop :=
  ∀ l', env_progress_n (progress ms) l l' n env t → fulfillment ac l' t.

Definition bounded_liveness_env_without_arrival ms (ac : AsyncContract L T) env : Prop :=
  progress_preserves_wf ms ∧
  ∀ t l, well_formed ms l → acceptance ac l t → env l t → ∃ n, env_response_within_trace l t ms ac env n.

(** ** Traces as runs *)

Lemma valid_trace_cons P x trace :
  is_valid_trace P (x :: trace) ↔ trace = [] ∨ ∃ y, head trace = Some y ∧ P x y ∧ is_valid_trace P trace.
Proof.
  split.
  - intros [_ H]. destruct trace as [|y tr]; [by left|right]. exists y. split; [done|]. split; [by apply (H 0)|].
    split; [simpl; lia|]. intros i. apply (H (S i)).
  - intros [->|(y & Hy & HP & Hl & H)]; (split; [simpl; lia|]).
    + intros [|i]; simpl; [done|]. intros. by destruct i.
    + intros [|i] x' y'; simpl; [|apply H]. intros [= <-]. destruct trace; [done|]. simpl in *. congruence.
Qed.

(** A trace of [n] rounds is a run of [n] steps. *)
Lemma progress_n_nsteps P l l' n : progress_n P l l' n ↔ nsteps P n l l'.
Proof.
  revert l. induction n as [|n IH]; intros l; split.
  - intros (trace & Hn & Hh & Hl & _). destruct trace as [|x [|]]; simplify_eq/=. constructor.
  - intros H. inversion H; subst. exists [l']. split; [done|]. split; [done|]. split; [done|].
    apply valid_trace_cons. by left.
  - intros (trace & Hn & Hh & Hl & Hv). destruct trace as [|x tr]; simplify_eq/=.
    apply valid_trace_cons in Hv as [->|(y & Hy & HP & Hv)]; [done|].
    eapply nsteps_l; [exact HP|]. apply IH. exists tr. split; [done|]. split; [done|]. split; [|done].
    by destruct tr.
  - intros H. inversion H as [|? ? y ? HP Hs]; subst. apply IH in Hs as (tr & Hn & Hh & Hl & Hv).
    exists (l :: tr). split; [simpl; lia|]. split; [done|]. split; [by destruct tr|].
    apply valid_trace_cons. right. by exists y.
Qed.

Lemma env_progress_n_progress P l l' n env t : env_progress_n P l l' n env t → progress_n P l l' n.
Proof. intros (trace & ? & ? & ? & ? & _). by exists trace. Qed.

(** Its states are in the environment on both sides of each step. *)
Lemma env_progress_n_nsteps P l l' n env t :
  env_progress_n P l l' n env t → nsteps (λ x y, P x y ∧ env x t ∧ env y t) n l l'.
Proof.
  revert l. induction n as [|n IH]; intros l (trace & Hn & Hh & Hl & Hv & He).
  - destruct trace as [|x [|]]; simplify_eq/=. constructor.
  - destruct trace as [|x tr]; simplify_eq/=. pose proof Hv as [->|(y & Hy & HP & Hv')]%valid_trace_cons; [done|].
    assert (Hty : tr !! 0 = Some y) by by rewrite <- head_lookup.
    eapply nsteps_l; [split; [exact HP|split; [by apply (He 0)|by apply (He 1)]]|].
    apply IH. exists tr. split; [done|]. split; [done|]. split; [by destruct tr|]. split; [done|].
    intros i z Hz. by apply (He (S i)).
Qed.

(** [env_progress_n_gives_env_at_start], [env_progress_n_gives_env_at_end] *)
Lemma env_progress_n_ends P l l' n env t : env_progress_n P l l' n env t → env l t ∧ env l' t.
Proof.
  intros (trace & _ & Hh & Hl & _ & He). split.
  - apply (He 0). by rewrite <- head_lookup.
  - rewrite last_lookup in Hl. by eapply He.
Qed.

(** [env_progress_n_weaken] *)
Lemma env_progress_n_weaken P l l' n env env' t :
  (∀ x, env x t → env' x t) → env_progress_n P l l' n env t → env_progress_n P l l' n env' t.
Proof.
  intros Hw (trace & ? & ? & ? & ? & He). exists trace.
  do 4 (split; [done|]). intros i x Hx. by eapply Hw, He.
Qed.

(** [env_progress_n_step], at the front. *)
Lemma env_progress_n_cons P l x l' n env t :
  env l t → P l x → env_progress_n P x l' n env t → env_progress_n P l l' (S n) env t.
Proof.
  intros He HP (trace & Hn & Hh & Hl & Hv & Ha). exists (l :: trace).
  split; [simpl; lia|]. split; [done|]. split; [by destruct trace|]. split.
  - apply valid_trace_cons. right. by exists x.
  - intros [|i] y; simpl; [by intros [= <-]|apply Ha].
Qed.

(** [env_good_trace_exists]: an environment that some round always keeps is kept for ever. *)
Lemma env_good_trace_exists P l env t n :
  env l t → (∀ x, env x t → ∃ y, P x y ∧ env y t) → ∃ l', env_progress_n P l l' n env t.
Proof.
  intros Hl Hstep. revert l Hl. induction n as [|n IH]; intros l Hl.
  - exists l, [l]. split; [done|]. split; [done|]. split; [done|]. split; [apply valid_trace_cons; by left|].
    intros [|i] x; simpl; [by intros [= <-]|by destruct i].
  - destruct (Hstep l Hl) as (x & HP & Hx). destruct (IH x Hx) as [l' H]. exists l'. by eapply env_progress_n_cons.
Qed.

(** Well-formedness along a run. *)
Lemma nsteps_preserves_wf ms n l l' :
  progress_preserves_wf ms → well_formed ms l → nsteps (progress ms) n l l' → well_formed ms l'.
Proof. intros Hw Hl. induction 1; eauto. Qed.

(** A contract that holds in all runs holds in those where the environment behaves. *)
Lemma bounded_liveness_env ms (ac : AsyncContract L T) env :
  (∀ l t, env l t → assumption ac l t) →
  bounded_liveness_without_arrival ms ac → bounded_liveness_env_without_arrival ms ac env.
Proof.
  intros Ha [Hw H]. split; [done|]. intros t l Hl Hac He.
  destruct (H t l Hl Hac (Ha _ _ He)) as [n Hn]. exists n. intros l' Hp. by apply Hn, (env_progress_n_progress _ _ _ _ env t).
Qed.
End traces.

End Framework.
