(* ===== verification/Contracts.v ===== *)
(** * Contracts: the executor as a module with bounded liveness

    [lion-liveness/src/executor] states the executor as a module of the framework: its
    states are logs, and a round appends the events of one tick that keep the invariants.
    Here the ticks of the modelled code are shown to be such rounds, and the contracts of
    [lion-executor-spec/src/contracts] to hold of the module: what is taken from the
    injection queue or from one of the wake queues is polled within as many rounds as
    there are tasks in the local queue, whatever else arrives.  The sources leave these
    contracts open, and prove the one on the local queue under a bound on its length that
    turns out not to be needed. *)

From S2P Require Import Prelude Store Slab TidLedger ExecLog Tls Executor.
From S2P Require Import ExecInv ExecOps ExecTick ExecSpec Framework.
Import ExecLog Executor Framework.

Module Contracts.
Implicit Types (l : list ExecutorEvent) (e : ExecutorEvent) (i j k : nat) (tid : Z).

(** ** The invariants as templates *)

Definition park_drain_reactor_wake : LocalLiveness Log :=
  mkLocalLiveness (λ l i, is_park_at l i) (λ l _ j, is_drain_of_at ReactorWake l j)
    (λ l i j, no_tick_end_between l i j).

Definition tick_polls_if_runnable : LocalLiveness Log :=
  mkLocalLiveness (λ l i, is_tick_begin_at l i ∧ 0 < length (fifo_queue_at l i))
    (λ l _ j, is_poll_task_at l j) (λ l i j, no_tick_end_between l i j).

Definition fifo_task_selection : ActionSafety Log :=
  mkActionSafety (λ l i, is_poll_task_at l i)
    (λ l i, ∀ tid t r, l !! i = Some (Outbound (PollTask tid t r)) → is_fifo_head_at l i tid).

Definition valid_task_polling : ActionSafety Log :=
  mkActionSafety (λ l i, is_poll_task_at l i)
    (λ l i, ∀ tid t r, l !! i = Some (Outbound (PollTask tid t r)) →
       tid_was_injected_before l i tid ∧ (r = Invalid ↔ tid_is_invalid l i tid)).

Definition poll_within_tick : ActionSafety Log :=
  mkActionSafety (λ l i, is_poll_task_at l i)
    (λ l i, ∃ tb, tb < i ∧ is_tick_begin_at l tb ∧ no_tick_begin_between l tb i).

(** [tick_has_park], [tick_has_pop_injection], [tick_has_drain_deferred],
    [tick_has_drain_task_wake]. *)
Definition tick_has (p : ExecutorEvent → bool) : ActionSafety Log :=
  mkActionSafety (λ l i, is_tick_end_at l i)
    (λ l i, ∃ q, q < i ∧ at_pos p l q ∧ no_tick_begin_between l q i).

Definition executor_local_liveness_inv l : Prop :=
  local_liveness_satisfied park_drain_reactor_wake l ∧ local_liveness_satisfied tick_polls_if_runnable l.

Definition executor_action_safety_inv l : Prop :=
  action_safety_satisfied fifo_task_selection l ∧ action_safety_satisfied valid_task_polling l ∧
  action_safety_satisfied (tick_has is_park) l ∧ action_safety_satisfied (tick_has is_pop_injection) l ∧
  action_safety_satisfied (tick_has (is_drain_of Deferred)) l ∧
  action_safety_satisfied (tick_has (is_drain_of TaskWake)) l.

Definition module_inv l : Prop := executor_local_liveness_inv l ∧ executor_action_safety_inv l.

(** ** The module *)

Definition is_complete_tick_cycle l (start finish : nat) : Prop :=
  start < finish ∧ finish ≤ length l ∧ is_tick_begin_at l start ∧ is_tick_end_at l (finish - 1) ∧
  ∀ k, start < k < finish - 1 → ¬ is_tick_begin_at l k ∧ ¬ is_tick_end_at l k.

Definition executor_progress l l' : Prop :=
  length l < length l' ∧ l `prefix_of` l' ∧ is_complete_tick_cycle l' (length l) (length l') ∧ module_inv l'.

Definition executor_module_spec : ModuleSpec Log := mkModuleSpec module_inv executor_progress.

(** ** The contracts *)

Definition has_poll_task_for_id_after l tid (start : nat) : Prop :=
  ∃ i t r, start ≤ i ∧ l !! i = Some (Outbound (PollTask tid t r)).
Definition has_drain_with_task_id_after l (source : DrainSource) tid (start : nat) : Prop :=
  ∃ i ids, start ≤ i ∧ l !! i = Some (Outbound (Drain source ids)) ∧ tid ∈ ids.
Definition has_injection_after l tid (start : nat) : Prop :=
  ∃ i, start ≤ i ∧ l !! i = Some (Outbound (PopInjection (Some tid))).

Definition bounded_injection_poll (l_start : Log) : AsyncContract Log Z :=
  mkContract (λ l tid, has_injection_after l tid (length l_start))
    (λ l tid, has_poll_task_for_id_after l tid (length l_start)) (λ l tid, tid_unique l tid).

Definition bounded_drain_poll (l_start : Log) (source : DrainSource) : AsyncContract Log Z :=
  mkContract (λ l tid, has_drain_with_task_id_after l source tid (length l_start))
    (λ l tid, has_poll_task_for_id_after l tid (length l_start)) (λ l tid, tid_unique l tid).

Definition bounded_reactor_wake_poll (l_start : Log) := bounded_drain_poll l_start ReactorWake.
Definition bounded_task_wake_poll (l_start : Log) := bounded_drain_poll l_start TaskWake.
Definition bounded_deferred_poll (l_start : Log) := bounded_drain_poll l_start Deferred.

Definition tid_in_fifo_queue_at l i tid : Prop := tid ∈ fifo_queue_at l i.

Definition drain_contract (anchor : Log) : AsyncContract Log Z :=
  mkContract (λ l tid, l = anchor ∧ tid_in_fifo_queue_at anchor (length anchor) tid)
    (λ l tid, has_poll_task_for_id_after l tid (length anchor)) (λ _ _, True).

Definition queue_bound_at l (b : nat) : Prop :=
  ∀ i, i ≤ length l → length (fifo_queue_at l i) ≤ b.
Definition queue_length_bounded_single l : Prop := ∃ b, queue_bound_at l b.

(** ** The templates and the invariants E1-E9 *)

Lemma is_poll_at l i : is_poll_task_at l i ↔ ∃ tid t r, l !! i = Some (Outbound (PollTask tid t r)).
Proof.
  split; [intros (e & Hl & He); destruct e as [|[]]; simplify_eq/=; eauto|].
  intros (tid & t & r & Hl). by eexists.
Qed.

Lemma module_inv_spec l :
  module_inv l ∧ action_safety_satisfied poll_within_tick l ↔ executor_inv l.
Proof.
  unfold module_inv, executor_local_liveness_inv, executor_action_safety_inv, executor_inv, structural_inv, semantic_inv.
  assert (Hf : action_safety_satisfied fifo_task_selection l ↔ inv_fifo_task_selection l).
  { split; [intros H i tid t r Hl; eapply H; [apply is_poll_at; eauto|done]|]. intros H i _ tid t r. apply H. }
  assert (Hv : action_safety_satisfied valid_task_polling l ↔ inv_valid_task_polling l).
  { split; [intros H i tid t r Hl; eapply H; [apply is_poll_at; eauto|done]|]. intros H i _ tid t r. apply H. }
  assert (Ht : local_liveness_satisfied tick_polls_if_runnable l ↔ inv_tick_polls_if_runnable l).
  { split; intros H i; [intros Hb Hq; apply H; split; [done|]; by destruct (fifo_queue_at l i); simpl; [|lia]|].
    intros [Hb Hq]. apply H; [done|]. by destruct (fifo_queue_at l i); [simpl in Hq; lia|]. }
  rewrite Hf, Hv, Ht. unfold inv_park_drain_reactor_wake, inv_poll_within_tick, inv_tick_has_park,
    inv_tick_has_pop_injection, inv_tick_has_drain_deferred, inv_tick_has_drain_task_wake, tick_contains,
    local_liveness_satisfied, action_safety_satisfied. simpl. tauto.
Qed.

(** ** A round brings every queued task forward *)

Lemma prefix_poll_after l l' tid (start : nat) :
  l `prefix_of` l' → has_poll_task_for_id_after l tid start → has_poll_task_for_id_after l' tid start.
Proof. intros [seg ->] (i & t & r & Hi & Hl). exists i, t, r. split; [done|]. by apply lookup_app_l_Some. Qed.

(** Polls take the head, and the other events do not touch what is queued. *)
Lemma segment_advances l seg tid k :
  action_safety_satisfied fifo_task_selection (l ++ seg) → fifo l !! k = Some tid →
  has_poll_task_for_id_after (l ++ seg) tid (length l) ∨
  count_poll_tasks seg ≤ k ∧ fifo (l ++ seg) !! (k - count_poll_tasks seg) = Some tid.
Proof.
  intros Hs Hk. induction seg as [|e seg IH] using rev_ind.
  - right. rewrite app_nil_r. unfold count_poll_tasks. simpl. by rewrite Nat.sub_0_r; split; [lia|].
  - assert (Hs' : action_safety_satisfied fifo_task_selection (l ++ seg)).
    { intros i Hp tid' t r Hl.
      assert (Hl' : (l ++ seg ++ [e]) !! i = Some (Outbound (PollTask tid' t r))) by (rewrite app_assoc; by apply lookup_app_l_Some).
      specialize (Hs i (proj2 (is_poll_at _ _) (ex_intro _ _ (ex_intro _ _ (ex_intro _ _ Hl')))) _ _ _ Hl').
      unfold is_fifo_head_at in *. rewrite app_assoc, fifo_queue_at_app in Hs; [done|].
      apply lookup_lt_Some in Hl. lia. }
    specialize (IH Hs'). rewrite app_assoc. destruct IH as [IH|[Hc Hf]].
    { left. eapply prefix_poll_after; [|exact IH]. by eexists. }
    unfold count_poll_tasks in *. rewrite filter_app, length_app, fifo_snoc. simpl.
    destruct e as [c|[tid' t r|src ids| |[t|]]]; simpl; rewrite ?Nat.add_0_r.
    + by right.
    + assert (Hl' : (l ++ seg ++ [Outbound (PollTask tid' t r)]) !! length (l ++ seg) = Some (Outbound (PollTask tid' t r))).
      { rewrite app_assoc. by apply list_lookup_middle. }
      pose proof (Hs _ (proj2 (is_poll_at _ _) (ex_intro _ _ (ex_intro _ _ (ex_intro _ _ Hl')))) _ _ _ Hl') as Hh.
      unfold is_fifo_head_at in Hh. rewrite app_assoc, fifo_queue_at_app in Hh by done. fold (fifo (l ++ seg)) in Hh.
      destruct (fifo (l ++ seg)) as [|x q] eqn:Eq; simplify_eq/=. rewrite decide_True by done.
      destruct (k - length (filter (λ e, is_poll_task e = true) seg)) as [|d] eqn:Ed.
      * left. simplify_eq/=. exists (length (l ++ seg)), t, r. rewrite length_app at 1. split; [lia|].
        by rewrite <- app_assoc.
      * right. simpl in Hf. split; [lia|]. by replace (k - _) with d by lia.
    + right. split; [done|]. by apply lookup_app_l_Some.
    + by right.
    + right. split; [done|]. by apply lookup_app_l_Some.
    + by right.
Qed.

(** A round polls if anything is queued. *)
Lemma progress_polls l l' :
  executor_progress l l' → fifo l ≠ [] → ∃ seg, l' = l ++ seg ∧ 0 < count_poll_tasks seg.
Proof.
  intros (Hlen & [seg ->] & (_ & _ & Hb & He & _) & [_ Ht] & _) Hq. exists seg. split; [done|].
  destruct (Ht (length l)) as (j & Hj & Hp & Hn).
  { split; [done|]. rewrite fifo_queue_at_app by done. fold (fifo l). by destruct (fifo l); simpl; [|lia]. }
  apply is_poll_at in Hp as (tid & t & r & Hp).
  unfold count_poll_tasks. rewrite lookup_app_r in Hp by lia.
  assert (Hin : Outbound (PollTask tid t r) ∈ filter (λ e, is_poll_task e = true) seg).
  { apply list_elem_of_filter. split; [done|]. by eapply list_elem_of_lookup_2. }
  destruct (filter _ seg); [by apply not_elem_of_nil in Hin|simpl; lia].
Qed.

Lemma round_advances l l' tid k :
  executor_progress l l' → fifo l !! k = Some tid →
  has_poll_task_for_id_after l' tid (length l) ∨ ∃ k', k' < k ∧ fifo l' !! k' = Some tid.
Proof.
  intros Hp Hk. destruct (progress_polls _ _ Hp) as (seg & -> & Hc); [by intros E; rewrite E in Hk|].
  destruct Hp as (_ & _ & _ & _ & Hf & _).
  destruct (segment_advances l seg tid k Hf Hk) as [?|[? Hk']]; [by left|right].
  eexists. split; [|exact Hk']. lia.
Qed.

Lemma rounds_prefix n l l' : nsteps executor_progress n l l' → l `prefix_of` l'.
Proof. induction 1 as [|n l1 l2 l3 (_ & Hp & _) _ IH]; [done|]. by etrans. Qed.

(** A task at index [k] is polled within [k + 1] rounds. *)
Lemma rounds_poll n l l' tid k :
  nsteps executor_progress n l l' → k < n → fifo l !! k = Some tid →
  has_poll_task_for_id_after l' tid (length l).
Proof.
  revert l k. induction n as [|n IH]; intros l k Hs Hk Hl; [lia|].
  inversion Hs as [|? ? l1 ? Hp Hs']; subst.
  destruct (round_advances _ _ _ _ Hp Hl) as [H|(k' & Hk' & Hl')].
  - eapply prefix_poll_after; [by eapply rounds_prefix|done].
  - destruct (IH l1 k' Hs' ltac:(lia) Hl') as (i & t & r & Hi & Hl2). exists i, t, r. split; [|done].
    destruct Hp as (? & _). lia.
Qed.

(** What a drain or an injection put into the queue is there until it is polled. *)
Lemma queued_or_polled l tid i e :
  l !! i = Some e → (∀ q, tid ∈ fifo_step q e) →
  (∃ j t r, i < j ∧ l !! j = Some (Outbound (PollTask tid t r))) ∨ tid ∈ fifo l.
Proof.
  intros Hi He. unfold fifo.
  assert (H : ∀ n, i < n ≤ length l →
    (∃ j t r, i < j ∧ l !! j = Some (Outbound (PollTask tid t r))) ∨ tid ∈ fifo_queue_at l n).
  { induction n as [|n IH]; intros Hn; [lia|]. simpl. destruct (decide (n = i)) as [->|Hne]; [rewrite Hi; by right|].
    destruct (IH ltac:(lia)) as [?|Hq]; [by left|].
    destruct (l !! n) as [[c|[tid' t r|src ids| |[t|]]]|] eqn:En; simpl; try (by right).
    - destruct (decide (tid' = tid)) as [->|Hd]; [left; exists n, t, r; split; [lia|done]|right].
      clear -Hq Hd. induction (fifo_queue_at l n) as [|x q IHq]; simpl; [done|].
      apply elem_of_cons in Hq as [<-|Hq]; [rewrite decide_False by done; by left|].
      destruct (decide _); [done|]. right. by apply IHq.
    - right. apply elem_of_app. by left.
    - right. apply elem_of_app. by left. }
  apply H. apply lookup_lt_Some in Hi. lia.
Qed.

Lemma progress_keeps_inv : progress_preserves_wf executor_module_spec.
Proof. by intros l l' _ (_ & _ & _ & ?). Qed.

(** Whatever entered the queue at a position is polled after it, within as many rounds as
    there are tasks queued. *)
Lemma entered_polled (l_start l : Log) tid i e :
  length l_start ≤ i → l !! i = Some e → (∀ q, tid ∈ fifo_step q e) →
  ∃ n, ∀ l', progress_n executor_progress l l' n → has_poll_task_for_id_after l' tid (length l_start).
Proof.
  intros Hle Hi He. exists (length (fifo l)). intros l' Hn%progress_n_nsteps.
  destruct (queued_or_polled l tid i e Hi He) as [(j & t & r & Hj & Hl)|[k Hk]%list_elem_of_lookup].
  - eapply prefix_poll_after; [by eapply rounds_prefix|]. exists j, t, r. split; [lia|done].
  - destruct (rounds_poll _ _ _ _ _ Hn (lookup_lt_Some _ _ _ Hk) Hk) as (j & t & r & Hj & Hl).
    exists j, t, r. split; [|done]. apply lookup_lt_Some in Hi. lia.
Qed.

Lemma queue_bounded l : queue_length_bounded_single l.
Proof.
  assert (H : ∀ n, ∃ b, ∀ i, i ≤ n → length (fifo_queue_at l i) ≤ b).
  { induction n as [|n [b Hb]]; [exists 0; intros i ?; by replace i with 0 by lia|].
    exists (b `max` length (fifo_queue_at l (S n))). intros i Hi.
    destruct (decide (i = S n)) as [->|]; [lia|]. specialize (Hb i ltac:(lia)). lia. }
  apply H.
Qed.

(** ** The code as a module *)

Section code.
Context {F W : Type} `{!Env F W}.
Implicit Types (s : Executor F W).

(** [n] ticks, and before and after each whatever happens between ticks. *)
Inductive rounds : nat → Executor F W → Executor F W → Prop :=
  | rounds_done s : rounds 0 s s
  | rounds_external n s x s' : rounds n (run_external s x) s' → rounds n s s'
  | rounds_main n s f s' : rounds n (poll_main s f).2 s' → rounds n s s'
  | rounds_tick n s s' : rounds n (tick s) s' → rounds (S n) s s'.

(** One tick appends a complete cycle. *)
Lemma tick_cycle s :
  data_inv s → executor_inv (log (tick s)) → executor_progress (log s) (log (tick s)).
Proof.
  intros H Hi. destruct (tick_ok s H) as (d & pops & w1 & r & t & w2 & Hl & _ & _ & _ & Fp & F1 & F2 & _).
  apply module_inv_spec in Hi as [Hi _].
  pose proof (tick_body_inner d pops w1 r t w2 Fp F1 F2) as Hin.
  set (body := tick_body d pops w1 r t w2) in *.
  assert (Hlen : length (log (tick s)) = length (log s) + S (S (length body))).
  { rewrite Hl, length_app. unfold tick_events. simpl. rewrite length_app. simpl. lia. }
  split; [lia|]. split; [rewrite Hl; by eexists|]. split; [|done].
  split; [lia|]. split; [done|]. split; [|split].
  - exists (Inbound (Tick None)). split; [|done]. rewrite Hl. by apply list_lookup_middle.
  - exists (Inbound (Tick (Some tt))). split; [|done]. rewrite Hlen, Hl, lookup_app_r by lia.
    unfold tick_events. replace (_ - _ - _) with (S (length body)) by lia. simpl. by apply list_lookup_middle.
  - assert (Hb : ∀ k e, length (log s) < k < length (log (tick s)) - 1 → log (tick s) !! k = Some e → inner e = true).
    { intros k e Hk He. rewrite Hl in He.
      apply tick_lookup in He as [He|[[-> _]|[(j & -> & He)|[-> _]]]]; [|lia| |lia].
      - apply lookup_lt_Some in He. lia.
      - rewrite Forall_lookup in Hin. by eapply Hin. }
    intros k Hk. split; intros (e & He & Hp); specialize (Hb k e Hk He); destruct e as [[[]]|]; done.
Qed.

Lemma rounds_run k reactor n s s' :
  0 < n → reachable reactor n s → rounds k s s' →
  reachable reactor n s' ∧ nsteps executor_progress k (log s) (log s').
Proof.
  intros Hn Hs Hr. induction Hr as [s|k s x s' _ IH|k s f s' _ IH|k s s' _ IH].
  - split; [done|constructor].
  - destruct (reachable_inv reactor n s Hn Hs) as (H & _).
    destruct (run_external_inv s x H) as (_ & <- & _). by apply IH, r_external.
  - destruct (reachable_inv reactor n s Hn Hs) as (H & _).
    destruct (poll_main_inv s f H) as (_ & <- & _). by apply IH, r_main.
  - destruct (reachable_inv reactor n s Hn Hs) as (H & _).
    destruct (reachable_inv reactor n (tick s) Hn (r_tick _ _ _ Hs)) as (_ & Hi & _).
    destruct (IH (r_tick _ _ _ Hs)) as [H1 H2]. split; [done|]. eapply nsteps_l; [by apply tick_cycle|done].
Qed.

(** C4. The executor implements its module.  From every reachable state, the log is
    well-formed, and [k] ticks with anything between them are [k] rounds of the module,
    on every state of which the invariants hold. *)
Theorem executor_implements_module k reactor n s s' :
  0 < n → reachable reactor n s → rounds k s s' →
  well_formed executor_module_spec (log s) ∧
  progress_n (progress executor_module_spec) (log s) (log s') k.
Proof.
  intros Hn Hs Hr. split.
  - destruct (reachable_inv reactor n s Hn Hs) as (_ & Hi & _). by apply module_inv_spec in Hi as [? _].
  - apply progress_n_nsteps. by apply (rounds_run k reactor n).
Qed.

(** A task is handed to the scheduler: it is taken from the injection queue or drained
    from a wake queue. *)
Definition hands_over e tid : Prop :=
  e = Outbound (PopInjection (Some tid)) ∨ ∃ source ids, e = Outbound (Drain source ids) ∧ tid ∈ ids.

Lemma hands_over_queued e tid q : hands_over e tid → tid ∈ fifo_step q e.
Proof. intros [->|(src & ids & -> & Hin)]; simpl; apply elem_of_app; right; [by apply list_elem_of_singleton|done]. Qed.

(** In the executor of the code, a task that was handed to the scheduler is polled
    within as many ticks as the local queue is long, whatever is spawned, woken and
    polled between them, and whatever else these ticks hand over. *)
Theorem handed_over_polled k reactor n s s' tid i e :
  0 < n → reachable reactor n s → log s !! i = Some e → hands_over e tid →
  length (local_queue s) ≤ k → rounds k s s' →
  ∃ j t r, i < j ∧ log s' !! j = Some (Outbound (PollTask tid t r)).
Proof.
  intros Hn Hs Hi He Hk Hr. destruct (reachable_inv reactor n s Hn Hs) as (Hd & _).
  destruct (rounds_run k reactor n s s' Hn Hs Hr) as [_ Hp].
  destruct (queued_or_polled (log s) tid i e Hi) as [(j & t & r & Hj & Hl)|[m Hm]%list_elem_of_lookup].
  - intros q. by apply hands_over_queued.
  - exists j, t, r. split; [done|]. destruct (rounds_prefix _ _ _ Hp) as [seg ->]. by apply lookup_app_l_Some.
  - assert (Hm' : m < k).
    { pose proof (di_fifo _ _ Hd) as Hq. apply lookup_lt_Some in Hm. unfold fifo_queue_matches, fifo in *. rewrite Hq in Hm. lia. }
    destruct (rounds_poll _ _ _ _ _ Hp Hm' Hm) as (j & t & r & Hj & Hl).
    exists j, t, r. split; [|done]. apply lookup_lt_Some in Hi. lia.
Qed.
End code.

(** C27. The contracts of the executor.  Of the injection queue, of each wake queue and of
    the local queue: what entered it is polled within a number of rounds, whatever else
    arrives.  No environment is assumed, in particular no bound on the length of the local
    queue; with any such bound the contract of the local queue holds in the form in which
    the other modules use it. *)
Theorem executor_contracts (l_start : Log) :
  bounded_liveness_without_arrival executor_module_spec (bounded_injection_poll l_start) ∧
  bounded_liveness_without_arrival executor_module_spec (bounded_reactor_wake_poll l_start) ∧
  bounded_liveness_without_arrival executor_module_spec (bounded_task_wake_poll l_start) ∧
  bounded_liveness_without_arrival executor_module_spec (bounded_deferred_poll l_start) ∧
  bounded_liveness_without_arrival executor_module_spec (drain_contract l_start) ∧
  ∀ b, bounded_liveness_env_without_arrival executor_module_spec (drain_contract l_start) (λ l _, queue_bound_at l b).
Proof.
  assert (Hdrain : ∀ source, bounded_liveness_without_arrival executor_module_spec (bounded_drain_poll l_start source)).
  { intros source. split; [apply progress_keeps_inv|]. intros tid l _ (i & ids & Hi & Hl & Hin) _.
    apply (entered_polled l_start l tid i _ Hi Hl). intros q. apply hands_over_queued. right. by eexists _, _. }
  assert (Hqueue : bounded_liveness_without_arrival executor_module_spec (drain_contract l_start)).
  { split; [apply progress_keeps_inv|]. intros tid l _ [-> [m Hm]%list_elem_of_lookup] _.
    exists (length (fifo l_start)). intros l' Hp%progress_n_nsteps.
    eapply rounds_poll; [done| |exact Hm]. by eapply lookup_lt_Some. }
  split; [|split; [|split; [|split; [|split]]]]; try apply Hdrain; [|done|].
  - split; [apply progress_keeps_inv|]. intros tid l _ (i & Hi & Hl) _.
    apply (entered_polled l_start l tid i _ Hi Hl). intros q. apply hands_over_queued. by left.
  - intros b. by apply bounded_liveness_env.
Qed.

(** ** Witnesses *)

(** The executor of [ExecSpec] with one task, and a spawn between two ticks. *)
Lemma idle_rounds : rounds 2 idle_state (tick (run_external (tick idle_state) (Spawn tt))).
Proof. apply rounds_tick, (rounds_external _ _ (Spawn tt)), rounds_tick, rounds_done. Qed.

Lemma executor_implements_module_witness :
  progress_n (progress executor_module_spec) (log idle_state)
    (log (tick (run_external (tick idle_state) (Spawn tt)))) 2.
Proof. apply (executor_implements_module 2 [] 2 idle_state); [lia|apply idle_reachable|apply idle_rounds]. Defined.

(** Three entries wait, of which a drain appended the last; a task is spawned while it waits. *)
Lemma busy_reachable : reachable [] 1 busy_state.
Proof. apply r_tick, r_external, r_external, r_tick, r_external, r_external, r_external, r_init. Qed.

Lemma busy_rounds :
  rounds 3 busy_state (tick (tick (run_external (tick busy_state) (Spawn tt)))).
Proof. apply rounds_tick, (rounds_external _ _ (Spawn tt)). do 2 apply rounds_tick. apply rounds_done. Qed.

Lemma handed_over_polled_witness :
  ∃ j t r, 17 < j ∧
    log (tick (tick (run_external (tick busy_state) (Spawn tt)))) !! j = Some (Outbound (PollTask 1 t r)).
Proof.
  apply (handed_over_polled 3 [] 1 busy_state _ 1 17 (Outbound (Drain TaskWake [1%Z]))).
  - lia.
  - apply busy_reachable.
  - vm_compute. reflexivity.
  - right. exists TaskWake, [1%Z]. split; [reflexivity|left].
  - vm_compute. lia.
  - apply busy_rounds.
Defined.

End Contracts.
