(* ===== verification/Interrupt.v ===== *)
(** * Interrupt: reaching a parked executor from another thread

    A waker that is used on another thread pushes the id of its task to the executor's
    cross-thread queue and wakes the reactor through its [InterruptHandle]; a spawn sends
    the task and does the same ([lion-executor/src/types/waker.rs], [handle.rs], [tls.rs],
    [lion-reactor/src/types/interrupt_handle.rs]).  The handle writes to the reactor's
    [mio::Waker] only when its flag was clear, and the executor clears the flag when it
    parks.  This file interleaves any number of such threads with the executor's thread,
    one access of the shared state at a time. *)

From S2P Require Import Prelude.

Module Interrupt.

(** [event]: the [mio::Waker] was woken and no poll has reported it yet. *)
Record InterruptHandle := mkHandle { event : bool; notified : bool }.

Definition handle_new : InterruptHandle := mkHandle false false.

(** The two accesses of [InterruptHandleInner::wake]: the swap, and the call of
    [mio::Waker::wake] when the flag was clear. *)
Definition swap (h : InterruptHandle) : bool * InterruptHandle := (notified h, mkHandle (event h) true).
Definition waker_wake (h : InterruptHandle) : InterruptHandle := mkHandle true (notified h).
Definition reset (h : InterruptHandle) : InterruptHandle := mkHandle (event h) false.

(** What a thread has for the executor: the id of a task to wake, or a new task. *)
Inductive message := Tid (tid : Z) | NewTask (task : Z).

(** A thread between its push and the end of [wake]. *)
Inductive pc := Swapping | Waking.

(** Where the executor's thread is: in its ticks; in [next_task] with its queues and the
    cross-thread queue found empty, about to look at the injection queue; done with the
    poll loop; in [reset_and_drain_cross_thread_action] after the reset; in the poll of
    the reactor.  The flags: the loop ended because there was nothing left to run, the
    poll may block. *)
Inductive phase :=
  | Working
  | Popping
  | Leaving (idle : bool)
  | Draining (idle : bool)
  | Parked (blocking : bool).

Record state := mkState {
  cross_queue : list Z;
  injection_queue : list Z;
  handle : InterruptHandle;
  threads : gmap nat pc;
  executor : phase;
  received : list Z;
  accepted : list Z;
}.

Definition init : state := mkState [] [] handle_new ∅ Working [] [].

Implicit Types (s : state) (p : nat) (tid : Z).

Definition set_cross s q := mkState q (injection_queue s) (handle s) (threads s) (executor s) (received s) (accepted s).
Definition set_injection s q := mkState (cross_queue s) q (handle s) (threads s) (executor s) (received s) (accepted s).
Definition set_handle s h := mkState (cross_queue s) (injection_queue s) h (threads s) (executor s) (received s) (accepted s).
Definition set_threads s m := mkState (cross_queue s) (injection_queue s) (handle s) m (executor s) (received s) (accepted s).
Definition set_executor s e := mkState (cross_queue s) (injection_queue s) (handle s) (threads s) e (received s) (accepted s).

(** ** The other threads *)

(** [CrossThreadQueue::push], or the [send] of [InnerHandle::spawn]. *)
Definition push s p (m : message) : state :=
  let s1 := match m with
            | Tid tid => set_cross s (cross_queue s ++ [tid])
            | NewTask task => set_injection s (injection_queue s ++ [task])
            end in
  set_threads s1 (<[p := Swapping]> (threads s1)).

(** [InterruptHandleInner::wake], one access. *)
Definition wake_step s p : option state :=
  c ← threads s !! p;
  match c with
  | Swapping =>
      let '(was, h) := swap (handle s) in
      let s1 := set_handle s h in
      Some (set_threads s1 (if was then delete p (threads s1) else <[p := Waking]> (threads s1)))
  | Waking =>
      let s1 := set_handle s (waker_wake (handle s)) in
      Some (set_threads s1 (delete p (threads s1)))
  end.

(** ** The executor's thread *)

(** One successful [try_recv] of [drain_cross_thread]. *)
Definition receive s : option state :=
  match cross_queue s with
  | tid :: q => Some (mkState q (injection_queue s) (handle s) (threads s) (executor s) (received s ++ [tid]) (accepted s))
  | [] => None
  end.

(** One successful [try_recv] of [pop_injection_action]. *)
Definition accept s : option state :=
  match injection_queue s with
  | t :: q => Some (mkState (cross_queue s) q (handle s) (threads s) (executor s) (received s) (accepted s ++ [t]))
  | [] => None
  end.

(** The poll of the reactor returns and reports the event, if there is one. *)
Definition poll_returns s : state :=
  set_executor (set_handle s (mkHandle false (notified (handle s)))) Working.

(** What the executor's thread does next on its own; [None] while its poll blocks. *)
Definition executor_step s : option state :=
  match executor s with
  | Working =>
      match receive s with Some s1 => Some s1 | None => Some (set_executor s Popping) end
  | Popping =>
      match accept s with
      | Some s1 => Some (set_executor s1 Working)
      | None => Some (set_executor s (Leaving true))
      end
  | Leaving idle => Some (set_executor (set_handle s (reset (handle s))) (Draining idle))
  | Draining idle =>
      match receive s with
      | Some s1 => Some (set_executor s1 (Draining false))
      | None => Some (set_executor s (Parked idle))
      end
  | Parked blocking => if event (handle s) || negb blocking then Some (poll_returns s) else None
  end.

(** Besides: a tick looks at the injection queue first, a poll loop may end at the event
    interval, and a poll of the reactor ends at a timer, at an event of another resource
    or after 100 milliseconds. *)
Inductive op :=
  | Push (p : nat) (m : message)
  | WakeStep (p : nat)
  | Execute
  | Accept
  | EndLoop
  | Timeout.

Definition step s (o : op) : option state :=
  match o with
  | Push p m => if threads s !! p then None else Some (push s p m)
  | WakeStep p => wake_step s p
  | Execute => executor_step s
  | Accept => if executor s is Working then accept s else None
  | EndLoop => if executor s is Working then Some (set_executor s (Leaving false)) else None
  | Timeout => if executor s is Parked _ then Some (poll_returns s) else None
  end.

Inductive reach : state → Prop :=
  | reach_init : reach init
  | reach_step s o s' : reach s → step s o = Some s' → reach s'.

Fixpoint iterate (n : nat) (f : state → option state) s : option state :=
  match n with 0 => Some s | S n' => s1 ← f s; iterate n' f s1 end.

(** ** The invariant *)

(** The flag was reset in this round. *)
Definition after_reset s : bool := match executor s with Draining _ | Parked _ => true | _ => false end.

Record inv s : Prop := {
  (** A flag set since the reset has its event, or a thread about to send it. *)
  inv_notified : after_reset s = true → notified (handle s) = true →
    event (handle s) = true ∨ ∃ p, threads s !! p = Some Waking;
  (** An id pushed since the queue was found empty has set the flag, or is about to. *)
  inv_pushed b : executor s = Parked b → cross_queue s ≠ [] →
    notified (handle s) = true ∨ ∃ p, threads s !! p = Some Swapping;
}.

Lemma inv_init : inv init.
Proof. by split. Qed.

Lemma inv_push s p m : threads s !! p = None → inv s → inv (push s p m).
Proof.
  intros Hp [H1 H2].
  assert (Hlive : ∀ q c, threads s !! q = Some c → <[p := Swapping]> (threads s) !! q = Some c).
  { intros q c Hq. rewrite lookup_insert_ne; [done|congruence]. }
  assert (H1' : after_reset s = true → notified (handle s) = true →
    event (handle s) = true ∨ ∃ q, <[p := Swapping]> (threads s) !! q = Some Waking).
  { intros Ha Hn. destruct (H1 Ha Hn) as [?|[q Hq]]; [by left|right]. exists q. auto. }
  destruct m; split; simpl; try exact H1'.
  - intros b _ _. right. exists p. apply lookup_insert_eq.
  - intros b Hb Hc. destruct (H2 b Hb Hc) as [?|[q Hq]]; [by left|right]. exists q. auto.
Qed.

Lemma inv_wake_step s p s' : wake_step s p = Some s' → inv s → inv s'.
Proof.
  unfold wake_step. intros (c & Hp & Hs)%bind_Some [H1 H2]. destruct c; simpl in Hs.
  - destruct (notified (handle s)) eqn:En; simplify_eq; split; simpl.
    + intros Ha _. destruct (H1 Ha eq_refl) as [?|[q Hq]]; [by left|right]. exists q.
      rewrite lookup_delete_ne; [done|congruence].
    + intros. by left.
    + intros _ _. right. exists p. apply lookup_insert_eq.
    + intros. by left.
  - simplify_eq. split; simpl; [by left|]. intros b Hb Hc.
    destruct (H2 b Hb Hc) as [?|[q Hq]]; [by left|right]. exists q.
    rewrite lookup_delete_ne; [done|congruence].
Qed.

Lemma inv_executor_step s s' : executor_step s = Some s' → inv s → inv s'.
Proof.
  unfold executor_step, receive, accept. intros Hs [H1 H2]. unfold after_reset in H1.
  destruct (executor s) as [| |idle|idle|b] eqn:Ee; repeat (case_match; try done); simplify_eq;
    split; unfold after_reset; simpl; rewrite ?Ee; try done; auto.
Qed.

Lemma interrupt_inv s : reach s → inv s.
Proof.
  induction 1 as [|s o s' _ IH Hs]; [apply inv_init|]. destruct o as [p m|p| | | |]; simpl in Hs.
  - destruct (threads s !! p) eqn:Ep; simplify_eq. by apply inv_push.
  - by eapply inv_wake_step.
  - by eapply inv_executor_step.
  - unfold accept in Hs. destruct (executor s) eqn:Ee; [|done..]. destruct (injection_queue s); simplify_eq.
    by split.
  - destruct (executor s); simplify_eq. by split.
  - destruct (executor s); simplify_eq. by split.
Qed.

(** ** The theorems *)

(** While the poll may block over an id, its event is there or on its way. *)
Lemma event_comes s b :
  reach s → executor s = Parked b → cross_queue s ≠ [] →
  event (handle s) = true ∨
  ∃ p n s', n ≤ 2 ∧ iterate n (λ s, wake_step s p) s = Some s' ∧ event (handle s') = true ∧
    executor s' = Parked b.
Proof.
  intros Hs Hb Hc. destruct (interrupt_inv s Hs) as [H1 H2].
  assert (Ha : after_reset s = true) by (unfold after_reset; by rewrite Hb).
  assert (Hone : ∀ s0 p, threads s0 !! p = Some Waking → executor s0 = Parked b →
    ∃ s', wake_step s0 p = Some s' ∧ event (handle s') = true ∧ executor s' = Parked b).
  { intros s0 p Hp Hb0. unfold wake_step. rewrite Hp. eexists. by split. }
  destruct (notified (handle s)) eqn:En.
  - destruct (H1 Ha eq_refl) as [?|[p Hp]]; [by left|right].
    destruct (Hone s p Hp Hb) as (s' & Hs' & ? & ?). exists p, 1, s'. simpl. rewrite Hs'. split; [lia|done].
  - right. destruct (H2 b Hb Hc) as [?|[p Hp]]; [done|].
    set (s1 := set_threads (set_handle s (snd (swap (handle s)))) (<[p := Waking]> (threads s))).
    assert (Hs1 : wake_step s p = Some s1) by (unfold wake_step; rewrite Hp; simpl; by rewrite En).
    destruct (Hone s1 p) as (s' & Hs' & ? & ?); [apply lookup_insert_eq|done|].
    exists p, 2, s'. simpl. rewrite Hs1. simpl. rewrite Hs'. split; [lia|done].
Qed.

(** Receiving everything that is queued. *)
Lemma receives q s tid :
  executor s = Working ∨ (∃ b, executor s = Draining b) → cross_queue s = q → tid ∈ q →
  ∃ n s', n ≤ length q ∧ iterate n executor_step s = Some s' ∧ tid ∈ received s'.
Proof.
  revert s. induction q as [|t q IH]; intros s He Hq Hin; [by apply not_elem_of_nil in Hin|].
  assert (∃ s1, executor_step s = Some s1 ∧ (executor s1 = Working ∨ ∃ b, executor s1 = Draining b) ∧
    cross_queue s1 = q ∧ t ∈ received s1) as (s1 & H1 & He1 & Hq1 & Hr1).
  { destruct He as [He|[b He]]; unfold executor_step, receive; rewrite He, Hq; eexists; (split; [done|]); simpl.
    - split; [left; done|]. split; [done|]. apply elem_of_app. right. by apply list_elem_of_singleton.
    - split; [right; by eexists|]. split; [done|]. apply elem_of_app. right. by apply list_elem_of_singleton. }
  apply elem_of_cons in Hin as [->|Hin].
  - exists 1, s1. simpl. rewrite H1. split; [lia|done].
  - destruct (IH s1 He1 Hq1 Hin) as (n & s' & Hn & Hs' & ?). exists (S n), s'. simpl. rewrite H1.
    split; [lia|done].
Qed.

(** One step of the executor, and then the rest. *)
Lemma iterate_step n s s1 (P : state → Prop) m :
  executor_step s = Some s1 → (∃ k s', k ≤ n ∧ iterate k executor_step s1 = Some s' ∧ P s') → S n ≤ m →
  ∃ k s', k ≤ m ∧ iterate k executor_step s = Some s' ∧ P s'.
Proof.
  intros H1 (k & s' & Hk & Hs' & HP) Hm. exists (S k), s'. split; [lia|]. simpl. by rewrite H1.
Qed.

(** C5. The executor does not sleep over a wake from another thread.  In every
    interleaving, while the executor is in the poll of the reactor and the cross-thread
    queue holds an id, either the poll has an event to report, or a thread is in the
    middle of its wake, and that thread alone makes the event within two steps. *)
Theorem cross_wake_interrupts s b :
  reach s → executor s = Parked b → cross_queue s ≠ [] →
  event (handle s) = true ∨
  ∃ p n s', n ≤ 2 ∧ iterate n (λ s, wake_step s p) s = Some s' ∧ event (handle s') = true ∧
    executor s' = Parked b.
Proof. apply event_comes. Qed.

(** A wake from another thread is received without waiting.  When the threads that
    pushed are through with [wake], the executor receives every queued id by its own
    steps, none of which waits for a timer or for the 100 milliseconds of a park. *)
Theorem cross_wake_received s tid :
  reach s → tid ∈ cross_queue s → threads s = ∅ →
  ∃ n s', n ≤ length (cross_queue s) + 2 ∧ iterate n executor_step s = Some s' ∧ tid ∈ received s'.
Proof.
  intros Hs Hin Ht. assert (Hne : cross_queue s ≠ []) by (intros Hq; rewrite Hq in Hin; by apply not_elem_of_nil in Hin).
  destruct (executor s) as [| |b|b|b] eqn:He.
  - destruct (receives _ s tid (or_introl He) eq_refl Hin) as (n & s' & ? & ? & ?). exists n, s'. split; [lia|done].
  - destruct (injection_queue s) as [|t q] eqn:Ei.
    + eapply (iterate_step (length (cross_queue s) + 1) s (set_executor s (Leaving true))); [|..|lia].
      { unfold executor_step, accept. by rewrite He, Ei. }
      eapply (iterate_step (length (cross_queue s))); [done| |lia].
      apply receives; [right; by eexists|done|done].
    + eapply (iterate_step (length (cross_queue s))); [unfold executor_step, accept; by rewrite He, Ei| |lia].
      apply receives; [by left|done|done].
  - eapply (iterate_step (length (cross_queue s))); [unfold executor_step; by rewrite He| |lia].
    apply receives; [right; by eexists|done|done].
  - destruct (receives _ s tid (or_intror (ex_intro _ b He)) eq_refl Hin) as (n & s' & ? & ? & ?).
    exists n, s'. split; [lia|done].
  - eapply (iterate_step (length (cross_queue s)) s (poll_returns s)); [|..|lia].
    { unfold executor_step. rewrite He. replace (event (handle s)) with true; [done|]. symmetry.
      destruct (event_comes s b Hs He Hne) as [?|(p & [|n] & s' & _ & Hi & Hev & _)]; [done|..].
      - simpl in Hi. by simplify_eq.
      - simpl in Hi. unfold wake_step in Hi. by rewrite Ht, lookup_empty in Hi. }
    apply receives; [by left|done|done].
Qed.

(** ** A spawn that is not announced *)

Definition run (os : list op) : option state := foldl (λ r o, s ← r; step s o) (Some init) os.

Lemma run_reach os s : run os = Some s → reach s.
Proof.
  revert s. induction os as [|o os IH] using rev_ind; intros s; [intros [= <-]; apply reach_init|].
  unfold run. rewrite foldl_app. simpl. intros (s0 & H0 & Hs)%bind_Some. eapply reach_step; [by apply IH|exact Hs].
Qed.

(** A wake ends one park.  Its flag is set until the next, and the spawn, which comes
    between the last look at the injection queue and that park, finds it so. *)
Definition late_spawn : list op :=
  [Execute; Execute; Execute; Execute; Push 0 (Tid 7); WakeStep 0; WakeStep 0; Execute; Execute; Execute; Execute;
   Push 1 (NewTask 8); WakeStep 1; Execute; Execute].

(** A spawn from another thread may be slept over.  There is an interleaving after
    which a task is in the injection queue, the thread that spawned it is through with
    [wake], and the executor blocks in the poll with no event to end it: only a time-out
    makes it look at the queue. *)
Theorem spawn_not_announced :
  ∃ s task, reach s ∧ injection_queue s = [task] ∧ threads s = ∅ ∧
    executor s = Parked true ∧ executor_step s = None.
Proof.
  assert (Hr : ∃ s, run late_spawn = Some s) by (eexists; vm_compute; reflexivity).
  destruct Hr as [s Hr]. exists s, 8%Z. split; [by eapply run_reach|].
  vm_compute in Hr. injection Hr as <-. repeat split.
Qed.

(** ** Witnesses *)

Definition parked_push : list op := [Execute; Execute; Execute; Execute; Push 0 (Tid 7)].

Lemma cross_wake_interrupts_witness :
  ∃ s, run parked_push = Some s ∧ ∃ p n s', n ≤ 2 ∧ iterate n (λ s, wake_step s p) s = Some s' ∧ event (handle s') = true.
Proof.
  eexists. split; [vm_compute; reflexivity|].
  edestruct (cross_wake_interrupts) as [H|(p & n & s' & ? & ? & ? & _)].
  - apply (run_reach parked_push). vm_compute. reflexivity.
  - reflexivity.
  - discriminate.
  - discriminate H.
  - exists p, n, s'. split; [assumption|]. split; assumption.
Defined.

Lemma cross_wake_received_witness :
  ∃ s, run (parked_push ++ [WakeStep 0; WakeStep 0]) = Some s ∧
    ∃ n s', n ≤ 3 ∧ iterate n executor_step s = Some s' ∧ 7%Z ∈ received s'.
Proof.
  eexists. split; [vm_compute; reflexivity|]. edestruct cross_wake_received as (n & s' & Hn & Hs' & Hin).
  - apply (run_reach (parked_push ++ [WakeStep 0; WakeStep 0])). vm_compute. reflexivity.
  - apply list_elem_of_here.
  - vm_compute. reflexivity.
  - exists n, s'. split; [exact Hn|]. split; [exact Hs'|exact Hin].
Defined.

End Interrupt.
