(* ===== verification/BlockOn.v ===== *)
(** * BlockOn: the main future of [Runtime::block_on] and the park

    The main future is polled under the id [u64::MAX], once before each tick, and is not a
    task: a wake of it goes through the ready queues, from which the drains drop it
    because its id is not in the ledger.  [park] decides from these queues whether the
    reactor may block.  This file says what it decides: a main future that yields, as
    [lion-utility/src/task.rs] does, is polled again without waiting, while one that is
    woken during the poll loop waits for the end of the park. *)

From S2P Require Import Prelude Store Slab TidLedger ExecLog Tls Executor.
From S2P Require Import ExecInv ExecOps ExecTick ExecSpec ExecWake.
Import ExecLog Executor.

(** [YieldNow]: pending once, with the current task deferred. *)
Module YieldNow.
Record YieldNow := mkYield { yielded : bool }.
Definition yield_now : YieldNow := mkYield false.
Definition poll {F} (y : YieldNow) : bool * YieldNow * list (effect F) :=
  if yielded y then (true, y, []) else (false, mkYield true, [DeferCurrent]).
End YieldNow.

Section park.
Context {F W : Type} `{!Env F W}.
Implicit Types (s : Executor F W) (t : Tls.Tls).

(** ** The queues after a poll loop that had polls left *)

Definition drained_tls t : Prop :=
  Tls.reactor_ready_queue t = [] ∧ Tls.task_ready_queue t = [] ∧ Tls.cross_thread t = [].

Lemma drain_cross_empties t : Tls.cross_thread (Tls.drain_cross_thread t) = [].
Proof.
  unfold Tls.drain_cross_thread.
  assert (Hgen : ∀ ids t0, Tls.cross_thread (foldl Tls.push_task_ready t0 ids) = Tls.cross_thread t0).
  { induction ids as [|i ids IH]; intros t0; simpl; [done|]. rewrite IH. unfold Tls.push_task_ready.
    pose proof (set_notified_frame t0 i) as (_ & _ & _ & Hc & _). by destruct (Tls.set_notified t0 i) as [[] t1]. }
  by rewrite Hgen.
Qed.

Lemma next_task_none s s1 :
  next_task s = (None, s1) → local_queue s1 = [] ∧ drained_tls (tls s1).
Proof.
  unfold next_task, pop_front at 1. destruct (local_queue s); [|done].
  set (s2 := drain_task_ready_into_local (drain_reactor_ready_into_local s)).
  assert (Ht : drained_tls (tls s2)).
  { unfold s2. rewrite drain_task_eq, drain_with_tls, drain_reactor_eq, drain_with_tls.
    split; [simpl; by rewrite drain_cross_reactor|]. split; [done|]. apply drain_cross_empties. }
  unfold pop_front at 1. destruct (local_queue s2) as [|x q] eqn:Eq; [|done].
  unfold pop_injection_action. destruct (injection_queue s2) as [|task rest].
  - by intros [= <-].
  - simpl. destruct (TidLedger.contains _ _); [by intros [= <-]|].
    unfold accept, pop_front. simpl. by rewrite Eq.
Qed.

Lemma poll_while_short fuel n c s c' s' :
  poll_while fuel n c s = (c', s') → n - c ≤ fuel → c' < n → local_queue s' = [] ∧ drained_tls (tls s').
Proof.
  revert c s. induction fuel as [|fuel IH]; intros c s; simpl; [intros [= <- <-]; lia|].
  destruct (Nat.ltb_spec c n) as [Hlt|]; [|intros [= <- <-]; lia].
  destruct (next_task s) as [[tid|] s1] eqn:En; [intros; eapply IH; [done|lia|done]|].
  intros [= <- <-] _ _. by eapply next_task_none.
Qed.

(** What the executor's thread does between the start of a tick and its park. *)
Definition before_park s : nat * Executor F W :=
  poll_loop (event_interval s) 0 (pop_injection (wake_deferred (record s (Inbound (Tick None))))).

Lemma tick_before_park s :
  let '(count, s4) := before_park s in
  tick s = record (poll_loop (event_interval s) count (park s4)).2 (Inbound (Tick (Some tt))).
Proof.
  unfold before_park, tick. destruct (poll_loop _ 0 _) as [count s4].
  by destruct (poll_loop _ count _) as [c s6].
Qed.

(** [park] with the time-out that it chose. *)
Definition parks s (b : bool) : Prop :=
  ∃ s2, world s2 = world s ∧ log s2 = log s ∧
    park s = drain_task_ready_into_local (drain_reactor_ready_into_local (park_action s2 b)).

Lemma drain_cross_nil t : Tls.cross_thread t = [] → Tls.drain_cross_thread t = t.
Proof. intros H. unfold Tls.drain_cross_thread. rewrite H. destruct t. simpl in *. by subst. Qed.

(** A wake of the main future in the poll loop does not keep the park from blocking.
    When the loop ends because nothing is left to run, the reactor is parked with the
    time-out of 100 milliseconds unless something deferred itself: the id of the main
    future is not in the ready queues any more, whether or not it was woken. *)
Theorem main_wake_ignored s count s4 :
  before_park s = (count, s4) → count < event_interval s →
  Tls.block_on_yielded (tls s4) = false → Tls.defer_queue (tls s4) = [] →
  u64_max ∉ Tls.queued (tls s4) ∧ u64_max ∉ local_queue s4 ∧ parks s4 true.
Proof.
  intros Hb Hc Hy Hd. unfold before_park in Hb. rewrite poll_loop_eq in Hb.
  destruct (poll_while_short _ _ _ _ _ _ Hb ltac:(lia) Hc) as (Hq & Hr & Ht & Hx).
  split; [unfold Tls.queued; rewrite Hr, Ht, Hd, Hx; apply not_elem_of_nil|].
  split; [rewrite Hq; apply not_elem_of_nil|].
  unfold parks, park. rewrite (drain_cross_nil (Tls.reset_interrupt _) Hx).
  unfold Tls.has_deferred, Tls.has_reactor_ready, Tls.has_task_ready, Tls.take_block_on_yielded. simpl.
  rewrite Hd, Hr, Ht, Hq, Hy. simpl.
  match goal with |- context [park_action ?s2 true] => by exists s2 end.
Qed.

(** ** A yield *)

Definition yielded s : Prop := Tls.block_on_yielded (tls s) = true.

Lemma set_notified_yielded t tid :
  Tls.block_on_yielded (Tls.set_notified t tid).2 = Tls.block_on_yielded t.
Proof. unfold Tls.set_notified. by repeat case_match. Qed.

Lemma push_task_yielded t tid : Tls.block_on_yielded (Tls.push_task_ready t tid) = Tls.block_on_yielded t.
Proof.
  unfold Tls.push_task_ready. pose proof (set_notified_yielded t tid) as H.
  by destruct (Tls.set_notified t tid) as [[] t1].
Qed.

Lemma push_reactor_yielded t tid : Tls.block_on_yielded (Tls.push_reactor_ready t tid) = Tls.block_on_yielded t.
Proof.
  unfold Tls.push_reactor_ready. pose proof (set_notified_yielded t tid) as H.
  by destruct (Tls.set_notified t tid) as [[] t1].
Qed.

Lemma drain_cross_yielded t : Tls.block_on_yielded (Tls.drain_cross_thread t) = Tls.block_on_yielded t.
Proof.
  unfold Tls.drain_cross_thread.
  assert (Hgen : ∀ ids t0, Tls.block_on_yielded (foldl Tls.push_task_ready t0 ids) = Tls.block_on_yielded t0).
  { induction ids as [|i ids IH]; intros t0; simpl; [done|]. by rewrite IH, push_task_yielded. }
  by rewrite Hgen.
Qed.

Lemma run_effect_yielded s x : yielded s → yielded (run_effect s x).
Proof.
  unfold yielded. destruct x as [[same defer source tid|f]|]; simpl; [|done|].
  - unfold Tls.wake_impl. destruct same; [|done]. destruct defer; [done|].
    destruct source; by rewrite ?push_reactor_yielded, ?push_task_yielded.
  - unfold Tls.defer_current. destruct (Tls.current_task (tls s)); [|done]. simpl. by case_match.
Qed.

Lemma run_effects_yielded xs s : yielded s → yielded (foldl run_effect s xs).
Proof. revert s. induction xs; intros s H; simpl; [done|]. by apply IHxs, run_effect_yielded. Qed.

Lemma run_effects_current xs s :
  Tls.current_task (tls (foldl run_effect s xs)) = Tls.current_task (tls s).
Proof. revert s. induction xs; intros s; simpl; [done|]. by rewrite IHxs, run_effect_current. Qed.

Lemma poll_task_yielded s tid : yielded s → yielded (poll_task s tid).
Proof.
  intros H. unfold poll_task. set (s0 := set_tls s (Tls.clear_notified (tls s) tid)).
  assert (H0 : yielded s0) by (unfold yielded; simpl; unfold Tls.clear_notified; by case_match).
  destruct (Slab.remove (task_slab s0) tid) as [[task|] slab']; [|done].
  unfold poll_task_action, poll_future_raw.
  destruct (future_poll tid (future task) _) as [[[ready f] w] effs].
  assert (H2 : yielded (foldl run_effect (set_world (set_tls (set_slab s0 slab')
    (Tls.set_current_task (tls (set_slab s0 slab')) tid)) w) effs)) by by apply run_effects_yielded.
  by destruct ready.
Qed.

Lemma drain_task_yielded s : yielded s → yielded (drain_task_ready_into_local s).
Proof. intros H. unfold yielded. rewrite drain_task_eq, drain_with_tls. simpl. by rewrite drain_cross_yielded. Qed.

Lemma drain_reactor_yielded s : yielded s → yielded (drain_reactor_ready_into_local s).
Proof. intros H. unfold yielded. by rewrite drain_reactor_eq, drain_with_tls. Qed.

Lemma pop_action_tls s : tls (pop_injection_action s).2 = tls s.
Proof. unfold pop_injection_action. by repeat case_match. Qed.

Lemma pop_loop_tls fuel s : tls (pop_injection_loop fuel s) = tls s.
Proof.
  revert s. induction fuel as [|fuel IH]; intros s; simpl; [done|].
  pose proof (pop_action_tls s) as Ht. destruct (pop_injection_action s) as [[task|] s1]; simpl in Ht; [|done].
  by rewrite IH.
Qed.

Lemma next_task_yielded s : yielded s → yielded (next_task s).2.
Proof.
  intros H. unfold next_task, pop_front at 1. destruct (local_queue s); [|done].
  set (s2 := drain_task_ready_into_local (drain_reactor_ready_into_local s)).
  assert (H2 : yielded s2) by by apply drain_task_yielded, drain_reactor_yielded.
  unfold pop_front at 1. destruct (local_queue s2); [|done].
  pose proof (pop_action_tls s2) as Ht. destruct (pop_injection_action s2) as [[task|] s3]; simpl in Ht.
  - unfold pop_front, yielded. simpl. destruct (local_queue s3 ++ [id task]); simpl; by rewrite Ht.
  - unfold yielded. simpl. by rewrite Ht.
Qed.

Lemma poll_while_yielded fuel n c s : yielded s → yielded (poll_while fuel n c s).2.
Proof.
  revert c s. induction fuel as [|fuel IH]; intros c s H; simpl; [done|]. case_match; [|done].
  pose proof (next_task_yielded s H) as Hn. destruct (next_task s) as [[tid|] s1]; [|done].
  by apply IH, poll_task_yielded.
Qed.

(** A main future that yields is not kept waiting: from the poll in which it defers
    itself, the next park does not block, whatever the tasks do in between. *)
Theorem yield_parks_without_waiting s f ready f' w effs :
  future_poll u64_max f (world s) = (ready, f', w, effs) → DeferCurrent ∈ effs →
  parks (before_park (poll_main s f).2).2 false.
Proof.
  intros Hp Hd. assert (Hy : yielded (poll_main s f).2).
  { unfold poll_main. simpl. rewrite Hp. simpl. unfold yielded. simpl.
    apply list_elem_of_split in Hd as (xs & ys & ->). rewrite foldl_app. simpl.
    apply run_effects_yielded. unfold yielded. simpl. unfold Tls.defer_current.
    set (s1 := foldl run_effect _ xs).
    assert (Hc : Tls.current_task (tls s1) = Some u64_max) by (unfold s1; by rewrite run_effects_current).
    by rewrite Hc. }
  set (s1 := (poll_main s f).2) in *.
  assert (Hy4 : yielded (before_park s1).2).
  { unfold before_park. rewrite poll_loop_eq. apply poll_while_yielded. unfold yielded.
    rewrite pop_injection_unfold, pop_loop_tls. unfold wake_deferred. by rewrite drain_deferred_eq, drain_with_tls. }
  unfold parks, park, Tls.take_block_on_yielded. simpl. rewrite drain_cross_yielded. simpl.
  unfold yielded in Hy4. rewrite Hy4. simpl.
  match goal with |- context [park_action ?s2 false] => by exists s2 end.
Qed.

End park.

(** ** Two runtimes that record their parks *)

(** A main future that spawns a task and waits for its result; the task yields once,
    then gives the result and wakes the main future.  Each park is recorded, with what it
    was told to wait at most and whether the result was there. *)
Inductive late_future := Main (spawned : bool) | Worker (y : YieldNow.YieldNow).
Record late_world := mkLate { result : bool; parked : list (Z * bool) }.

#[global] Instance late_env : Env late_future late_world := {
  future_poll tid f w :=
    match f with
    | Main spawned =>
        (result w, Main true, w, if spawned then [] else [Ext (Spawn (Worker YieldNow.yield_now))])
    | Worker y =>
        match YieldNow.poll y with
        | (true, y', effs) => (true, Worker y', mkLate true (parked w), effs ++ [Ext (Wake true false Tls.Task u64_max)])
        | (false, y', effs) => (false, Worker y', w, effs)
        end
    end;
  reactor_flush_pending_deregister w := w;
  reactor_park ms w := (mkLate (result w) (parked w ++ [(ms, result w)]), []);
}.

Definition late_start : Executor late_future late_world :=
  (poll_main (tick (poll_main (new (mkLate false []) 4) (Main false)).2) (Main true)).2.

(** The result is there, and its waker was used, when the second park starts; it waits
    for 100 milliseconds. *)
Lemma main_wake_ignored_witness :
  parks (before_park late_start).2 true ∧ result (world (before_park late_start).2) = true ∧
  ∃ s, block_on 3 (new (mkLate false []) 4) (Main false) = Some s ∧ parked (world s) = [(0, false); (100, true)]%Z.
Proof.
  split; [|split].
  - apply (main_wake_ignored late_start (before_park late_start).1 (before_park late_start).2).
    + vm_compute. reflexivity.
    + vm_compute. lia.
    + vm_compute. reflexivity.
    + vm_compute. reflexivity.
  - vm_compute. reflexivity.
  - eexists. split; vm_compute; reflexivity.
Defined.

(** A main future that only yields. *)
#[global] Instance yield_env : Env YieldNow.YieldNow (list Z) := {
  future_poll tid y w := let '(ready, y', effs) := YieldNow.poll y in (ready, y', w, effs);
  reactor_flush_pending_deregister w := w;
  reactor_park ms w := (w ++ [ms], []);
}.

Lemma yield_parks_without_waiting_witness :
  parks (before_park (poll_main (new [] 4 : Executor YieldNow.YieldNow (list Z)) YieldNow.yield_now).2).2 false ∧
  ∃ s, block_on 2 (new [] 4 : Executor YieldNow.YieldNow (list Z)) YieldNow.yield_now = Some s ∧ world s = [0%Z].
Proof.
  split.
  - eapply yield_parks_without_waiting; [vm_compute; reflexivity|]. apply list_elem_of_here.
  - eexists. split; vm_compute; reflexivity.
Defined.
