(* ===== verification/Runtime.v ===== *)
(** * Runtime: several runtimes in one process

    A [Runtime] of [lion-executor/src/lib.rs] is an executor on one thread.  What tasks,
    wakers and [spawn] find of it they find through thread-locals: [CURRENT_HANDLE],
    [CROSS_THREAD_CTX] ([tls.rs]), [CURRENT_REACTOR] ([lion-reactor/src/reactor/enter.rs]) and
    the wake queues of [Tls].  These belong to the thread: a later runtime on the same
    thread takes over what an earlier one left.  The cross-thread queue and the interrupt
    belong to the runtime, and wakers share them.

    A process has any number of threads and runtimes.  While no two runtimes share a
    thread, each runtime is an executor that [ExecSpec.reachable] describes, so that the
    theorems on the executor hold of it; [second_runtime_clobbers] is about two that do.
    State that the tasks of two runtimes share is not represented: it is in the world of
    each. *)

From S2P Require Import Prelude Store Slab TidLedger ExecLog Tls Executor.
From S2P Require Import ExecInv ExecOps ExecTick ExecSpec ExecWake.
Import ExecLog Executor.

Module Runtime.

(** [ExecutorWaker]; [queue] is the runtime whose queue and interrupt it shares. *)
Record ExecutorWaker := mkWaker {
  task_id : Z;
  source : Tls.WakeSource;
  defer : bool;
  queue : nat;
  executor_thread_id : nat;
}.

(** The thread-locals of one thread; [locals] are those of [Tls], whose cross-thread part
    is not used here. *)
Record Thread := mkThread {
  current_handle : option nat;
  cross_thread_ctx : option nat;
  current_reactor : option nat;
  locals : Tls.Tls;
}.

Definition new_thread : Thread := mkThread None None None Tls.init.

(** What the wakers of a runtime share with it. *)
Record Shared := mkShared { cross_queue : list Z; interrupted : bool }.

(** [RuntimeConfig] and [RuntimeBuilder]; [None]: the assertion fails. *)
Record RuntimeConfig := mkConfig { event_interval : nat }.
Definition default_config : RuntimeConfig := mkConfig 128.
Definition builder_event_interval (interval : nat) : option RuntimeConfig :=
  if 0 <? interval then Some (mkConfig interval) else None.

Record Runtime (F W : Type) := mkRuntime { executor : Executor F W; home : nat }.
Arguments mkRuntime {F W} _ _.
Arguments executor {F W} _.
Arguments home {F W} _.

Record process (F W : Type) := mkProcess {
  threads : gmap nat Thread;
  runtimes : gmap nat (Runtime F W);
  shared : gmap nat Shared;
  next_runtime : nat;
}.
Arguments mkProcess {F W} _ _ _ _.
Arguments threads {F W} _.
Arguments runtimes {F W} _.
Arguments shared {F W} _.
Arguments next_runtime {F W} _.

Section process.
Context {F W : Type} `{!Env F W}.
Implicit Types (p : process F W) (th r : nat) (s : Executor F W) (wk : ExecutorWaker) (f : F).

Definition init : process F W := mkProcess ∅ ∅ ∅ 0.

Definition thread p th : Thread := default new_thread (threads p !! th).
Definition set_thread p th (t : Thread) : process F W :=
  mkProcess (<[th := t]> (threads p)) (runtimes p) (shared p) (next_runtime p).

(** ** Creating and dropping a runtime *)

(** [Runtime::with_config] on thread [th]; [reactor] is the answer of [Reactor::new].  The
    new runtime takes over the thread-locals. *)
Definition with_config p th (reactor : option W) (config : RuntimeConfig) : option nat * process F W :=
  match reactor with
  | None => (None, p)
  | Some w =>
      let r := next_runtime p in
      let t := locals (thread p th) in
      (Some r,
       mkProcess (<[th := mkThread (Some r) (Some r) (Some r) t]> (threads p))
         (<[r := mkRuntime (new_on t w (event_interval config)) th]> (runtimes p))
         (<[r := mkShared [] false]> (shared p)) (S r))
  end.

(** [Runtime::drop] and the drop of its [ReactorGuard], on thread [th].  The wake queues of
    the thread stay. *)
Definition drop p th r : process F W :=
  mkProcess (<[th := mkThread None None None (locals (thread p th))]> (threads p))
    (delete r (runtimes p)) (shared p) (next_runtime p).

(** ** Wakers *)

(** [create_waker]; [None]: [get_cross_thread_ctx] panics. *)
Definition create_waker p th (tid : Z) (src : Tls.WakeSource) (d : bool) : option ExecutorWaker :=
  r ← cross_thread_ctx (thread p th); Some (mkWaker tid src d r th).

(** [ExecutorWaker::wake_impl] on thread [th]. *)
Definition wake p th wk : process F W :=
  if th =? executor_thread_id wk then
    let t := thread p th in
    set_thread p th (mkThread (current_handle t) (cross_thread_ctx t) (current_reactor t)
      (Tls.wake_impl true (defer wk) (source wk) (task_id wk) (locals t)))
  else
    match shared p !! queue wk with
    | Some sh =>
        mkProcess (threads p) (runtimes p)
          (<[queue wk := mkShared (cross_queue sh ++ [task_id wk]) true]> (shared p)) (next_runtime p)
    | None => p
    end.

(** ** Spawning *)

(** [ExecutorHandle::spawn]; a send to a runtime that was dropped fails silently. *)
Definition handle_spawn p r f : process F W :=
  match runtimes p !! r, shared p !! r with
  | Some rt, Some sh =>
      mkProcess (threads p) (<[r := mkRuntime (spawn (executor rt) f) (home rt)]> (runtimes p))
        (<[r := mkShared (cross_queue sh) true]> (shared p)) (next_runtime p)
  | _, _ => p
  end.

(** [spawn]; [None]: outside of a runtime's context it panics. *)
Definition spawn_here p th f : option (process F W) :=
  r ← current_handle (thread p th); Some (handle_spawn p r f).

(** ** Running *)

(** The thread-locals with the cross-thread queue that [drain_cross_thread] reads. *)
Definition attach (t : Tls.Tls) (sh : Shared) : Tls.Tls :=
  Tls.set_interrupted (Tls.set_cross t (cross_queue sh)) (interrupted sh).

(** The executor of [r] on thread [th].  Without the context of [r] its polls panic in
    [create_waker], or give their tasks the wakers of another runtime: [None]. *)
Definition load p th r : option (Executor F W) :=
  rt ← runtimes p !! r;
  c ← cross_thread_ctx (thread p th);
  sh ← shared p !! r;
  if c =? r then Some (set_tls (executor rt) (attach (locals (thread p th)) sh)) else None.

Definition save p th r s : process F W :=
  let t := thread p th in
  let h := default th (home <$> runtimes p !! r) in
  mkProcess
    (<[th := mkThread (current_handle t) (cross_thread_ctx t) (current_reactor t) (tls s)]> (threads p))
    (<[r := mkRuntime s h]> (runtimes p))
    (<[r := mkShared (Tls.cross_thread (tls s)) (Tls.interrupted (tls s))]> (shared p)) (next_runtime p).

Inductive op :=
  | Create (th : nat) (reactor : option W) (config : RuntimeConfig)
  | Drop (th r : nat)
  | PollMain (th r : nat) (f : F)
  | RunTick (th r : nat)
  | HandleSpawn (r : nat) (f : F)
  | SpawnHere (th : nat) (f : F)
  | WakeBy (th : nat) (wk : ExecutorWaker).

Definition step p (o : op) : option (process F W) :=
  match o with
  | Create th reactor config => Some (with_config p th reactor config).2
  | Drop th r => Some (drop p th r)
  | PollMain th r f => s ← load p th r; Some (save p th r (poll_main s f).2)
  | RunTick th r => s ← load p th r; Some (save p th r (tick s))
  | HandleSpawn r f => Some (handle_spawn p r f)
  | SpawnHere th f => spawn_here p th f
  | WakeBy th wk => Some (wake p th wk)
  end.

(** The rule, one live runtime to a thread: a runtime is created, by a builder, on a thread
    that has no live runtime, and is dropped and run on that thread.  The code does not
    enforce it.  Task ids are [u64]. *)
Definition allowed p (o : op) : Prop :=
  match o with
  | Create th _ config =>
      0 < event_interval config ∧ ∀ r rt, runtimes p !! r = Some rt → home rt ≠ th
  | Drop th r | PollMain th r _ | RunTick th r => ∃ rt, runtimes p !! r = Some rt ∧ home rt = th
  | WakeBy _ wk => is_u64 (task_id wk)
  | _ => True
  end.

Inductive preach : process F W → Prop :=
  | p_init : preach init
  | p_step p o p' : preach p → allowed p o → step p o = Some p' → preach p'.

(** ** Each runtime is an executor *)

Record pinv p : Prop := {
  pi_ctx r rt : runtimes p !! r = Some rt →
    let t := thread p (home rt) in
    r < next_runtime p ∧ current_handle t = Some r ∧ cross_thread_ctx t = Some r ∧
    current_reactor t = Some r ∧ is_Some (shared p !! r);
  pi_shared r : is_Some (shared p !! r) → r < next_runtime p;
  pi_typed th : tls_typed (locals (thread p th));
  pi_exec r rt : runtimes p !! r = Some rt →
    ∃ s reactor n, load p (home rt) r = Some s ∧ 0 < n ∧ reachable reactor n s;
}.

Lemma thread_insert p th t th' rts sh n :
  thread (mkProcess (<[th := t]> (threads p)) rts sh n) th' = if decide (th = th') then t else thread p th'.
Proof.
  unfold thread. simpl. destruct (decide (th = th')) as [->|].
  - by rewrite lookup_insert_eq.
  - by rewrite lookup_insert_ne.
Qed.

(** What [load] looks at. *)
Lemma load_same p p' th r :
  runtimes p' !! r = runtimes p !! r → thread p' th = thread p th → shared p' !! r = shared p !! r →
  load p' th r = load p th r.
Proof. intros Hr Ht Hs. unfold load. by rewrite Hr, Ht, Hs. Qed.

Lemma load_some p th r rt sh :
  runtimes p !! r = Some rt → cross_thread_ctx (thread p th) = Some r → shared p !! r = Some sh →
  load p th r = Some (set_tls (executor rt) (attach (locals (thread p th)) sh)).
Proof. intros Hr Hc Hs. unfold load. rewrite Hr, Hc, Hs. simpl. by rewrite Nat.eqb_refl. Qed.

Lemma attach_tls (t : Tls.Tls) : attach t (mkShared (Tls.cross_thread t) (Tls.interrupted t)) = t.
Proof. by destruct t. Qed.

Lemma attach_wake d src k (t : Tls.Tls) sh :
  attach (Tls.wake_impl true d src k t) sh = Tls.wake_impl true d src k (attach t sh).
Proof.
  destruct t. unfold Tls.wake_impl, Tls.push_task_ready, Tls.push_reactor_ready, Tls.set_notified.
  destruct d; [done|]. destruct src; simpl; repeat case_match; simplify_eq; done.
Qed.

(** Two runtimes do not share a thread. *)
Lemma one_to_a_thread p r r' rt rt' :
  pinv p → runtimes p !! r = Some rt → runtimes p !! r' = Some rt' → home rt = home rt' → r = r'.
Proof.
  intros H Hr Hr' Hh. destruct (pi_ctx _ H _ _ Hr) as (_ & _ & Hc & _).
  destruct (pi_ctx _ H _ _ Hr') as (_ & _ & Hc' & _). rewrite Hh in Hc. simpl in *. congruence.
Qed.

(** A step that leaves the other runtimes, their threads and what they share alone. *)
Lemma pinv_frame p p' (touched : option (nat * nat)) :
  pinv p → next_runtime p ≤ next_runtime p' →
  (∀ r, is_Some (shared p' !! r) → r < next_runtime p') →
  (∀ th, tls_typed (locals (thread p' th))) →
  (∀ r rt, runtimes p' !! r = Some rt → (∀ q, touched = Some q → r ≠ q.1) →
     runtimes p !! r = Some rt ∧ thread p' (home rt) = thread p (home rt) ∧ shared p' !! r = shared p !! r) →
  (∀ r th, touched = Some (r, th) → ∀ rt, runtimes p' !! r = Some rt → home rt = th ∧
     r < next_runtime p' ∧ is_Some (shared p' !! r) ∧
     (∃ t, thread p' th = mkThread (Some r) (Some r) (Some r) t) ∧
     ∃ s reactor n, load p' th r = Some s ∧ 0 < n ∧ reachable reactor n s) →
  pinv p'.
Proof.
  intros H Hn Hs Ht Hoth Htouch.
  assert (Hcase : ∀ r, (∃ th, touched = Some (r, th)) ∨ (∀ q, touched = Some q → r ≠ q.1)).
  { intros r. destruct touched as [[r0 th0]|]; [|right; by intros ? [=]].
    destruct (decide (r = r0)) as [->|]; [left; by exists th0|right; by intros q [= <-]]. }
  split; [|done|done|].
  - intros r rt Hr. destruct (Hcase r) as [[th Hq]|Hq].
    + destruct (Htouch r th Hq rt Hr) as (<- & ? & ? & (t & Ht0) & _). cbv zeta. by rewrite Ht0.
    + cbv zeta. destruct (Hoth r rt Hr Hq) as (Hr0 & -> & ->). destruct (pi_ctx _ H r rt Hr0) as (? & ?). split; [lia|done].
  - intros r rt Hr. destruct (Hcase r) as [[th Hq]|Hq].
    + destruct (Htouch r th Hq rt Hr) as (<- & _ & _ & _ & ?). done.
    + destruct (Hoth r rt Hr Hq) as (Hr0 & Hth & Hsh). rewrite (load_same p) by congruence. by apply H.
Qed.

Lemma pinv_init : pinv init.
Proof.
  split; simpl.
  - intros r rt. by rewrite lookup_empty.
  - intros r [x Hx]. by rewrite lookup_empty in Hx.
  - intros th. unfold thread. simpl. rewrite lookup_empty. apply init_typed.
  - intros r rt. by rewrite lookup_empty.
Qed.

Lemma typed_insert p th t rts sh n th' :
  pinv p → tls_typed (locals t) →
  tls_typed (locals (thread (mkProcess (<[th := t]> (threads p)) rts sh n : process F W) th')).
Proof. intros H Ht. rewrite thread_insert. destruct (decide (th = th')); [done|by apply H]. Qed.

Lemma pinv_create p th reactor config :
  pinv p → 0 < event_interval config → (∀ r rt, runtimes p !! r = Some rt → home rt ≠ th) →
  pinv (with_config p th reactor config).2.
Proof.
  intros H Hn Hfree. destruct reactor as [x|]; [simpl|done]. set (r0 := next_runtime p).
  set (t := locals (thread p th)).
  apply (pinv_frame p _ (Some (r0, th)) H); simpl; [lia|..].
  - intros r. destruct (decide (r = r0)) as [->|Hne]; [lia|]. rewrite lookup_insert_ne by done.
    intros Hr%(pi_shared _ H). lia.
  - intros th'. apply typed_insert; [done|]. apply (pi_typed _ H th).
  - intros r rt Hr Hq. specialize (Hq _ eq_refl). simpl in Hq. rewrite lookup_insert_ne in Hr by done.
    rewrite lookup_insert_ne by done. split; [done|]. split; [|done].
    rewrite thread_insert. by rewrite decide_False by (intros Heq; by apply (Hfree r rt)).
  - intros r th' [= <- <-] rt. rewrite lookup_insert_eq. intros [= <-]. split; [done|]. split; [lia|].
    split; [rewrite lookup_insert_eq; by eexists|]. split.
    + exists t. by rewrite thread_insert, decide_True.
    + exists (new_on t x (event_interval config)), x, (event_interval config). split; [|split; [done|]].
      * rewrite (load_some _ th r0 (mkRuntime (new_on t x (event_interval config)) th) (mkShared [] false)); simpl.
        -- by rewrite thread_insert, decide_True.
        -- by rewrite lookup_insert_eq.
        -- by rewrite thread_insert, decide_True.
        -- by rewrite lookup_insert_eq.
      * apply r_new, H.
Qed.

Lemma pinv_drop p th r rt :
  pinv p → runtimes p !! r = Some rt → home rt = th → pinv (drop p th r).
Proof.
  intros H Hr Hh. unfold drop. apply (pinv_frame p _ None H); simpl; [done|apply H|..|done].
  - intros th'. apply typed_insert; [done|]. apply (pi_typed _ H th).
  - intros r' rt' Hr' _. apply lookup_delete_Some in Hr' as [Hne Hr']. split; [done|]. split; [|done].
    rewrite thread_insert, decide_False; [done|]. intros Heq. apply Hne.
    eapply (one_to_a_thread p _ _ _ _ H Hr Hr'). congruence.
Qed.

(** A runtime that its own thread runs. *)
Lemma pinv_save p r rt s s' reactor n :
  pinv p → runtimes p !! r = Some rt → load p (home rt) r = Some s →
  0 < n → reachable reactor n s' → pinv (save p (home rt) r s') ∧ load (save p (home rt) r s') (home rt) r = Some s'.
Proof.
  intros H Hr Hl Hn Hs'. destruct (pi_ctx _ H _ _ Hr) as (Hlt & Hh & Hc & Hcr & Hsh).
  destruct (reachable_wake_inv reactor n s' Hs') as (Hd & _).
  assert (Hload : load (save p (home rt) r s') (home rt) r = Some s').
  { unfold save. rewrite Hr. simpl.
    rewrite (load_some _ _ r (mkRuntime s' (home rt)) (mkShared (Tls.cross_thread (tls s')) (Tls.interrupted (tls s')))); simpl.
    - rewrite thread_insert, decide_True by done. simpl. rewrite attach_tls. by destruct s'.
    - by rewrite lookup_insert_eq.
    - by rewrite thread_insert, decide_True.
    - by rewrite lookup_insert_eq. }
  split; [|done]. revert Hload. unfold save. rewrite Hr. simpl. intros Hload.
  apply (pinv_frame p _ (Some (r, home rt)) H); simpl; [done|..].
  - intros r'. destruct (decide (r' = r)) as [->|Hne]; [done|]. rewrite lookup_insert_ne by done. apply H.
  - intros th'. apply typed_insert; [done|]. apply (di_tls _ _ Hd).
  - intros r' rt' Hr' Hq. specialize (Hq _ eq_refl). simpl in Hq. rewrite lookup_insert_ne in Hr' by done.
    rewrite lookup_insert_ne by done. split; [done|]. split; [|done].
    rewrite thread_insert, decide_False; [done|]. intros Heq. apply Hq.
    symmetry. by eapply (one_to_a_thread p).
  - intros r' th' [= <- <-] rt'. rewrite lookup_insert_eq. intros [= <-]. split; [done|]. split; [done|].
    split; [rewrite lookup_insert_eq; by eexists|]. split.
    + exists (tls s'). rewrite thread_insert, decide_True by done. simpl in *. by rewrite Hh, Hc, Hcr.
    + by exists s', reactor, n.
Qed.

Lemma spawn_view p th r rt sh f s :
  pinv p → runtimes p !! r = Some rt → shared p !! r = Some sh → th = home rt → load p th r = Some s →
  load (handle_spawn p r f) th r = Some (run_external s (Spawn f)).
Proof.
  intros H Hr Hsh -> Hl. destruct (pi_ctx _ H _ _ Hr) as (_ & _ & Hc & _).
  rewrite (load_some p _ r rt sh) in Hl by done. injection Hl as <-. unfold handle_spawn. rewrite Hr, Hsh.
  rewrite (load_some _ _ r (mkRuntime (spawn (executor rt) f) (home rt)) (mkShared (cross_queue sh) true)); simpl.
  - done.
  - by rewrite lookup_insert_eq.
  - done.
  - by rewrite lookup_insert_eq.
Qed.

Lemma pinv_spawn p r f : pinv p → pinv (handle_spawn p r f).
Proof.
  intros H. pose proof (spawn_view p) as Hv. unfold handle_spawn in *.
  destruct (runtimes p !! r) as [rt|] eqn:Hr; [|done]. destruct (shared p !! r) as [sh|] eqn:Hsh; [|done].
  destruct (pi_ctx _ H _ _ Hr) as (Hlt & Hh & Hc & Hcr & _).
  destruct (pi_exec _ H _ _ Hr) as (s & x & n & Hl & Hn & Hs).
  specialize (Hv (home rt) r rt sh f s H Hr Hsh eq_refl Hl). rewrite Hr, Hsh in Hv.
  apply (pinv_frame p _ (Some (r, home rt)) H); simpl; [done|..].
  - intros r'. destruct (decide (r' = r)) as [->|Hne]; [done|]. rewrite lookup_insert_ne by done. apply H.
  - apply H.
  - intros r' rt' Hr' Hq. specialize (Hq _ eq_refl). simpl in Hq. rewrite lookup_insert_ne in Hr' by done.
    by rewrite lookup_insert_ne by done.
  - intros r' th' [= <- <-] rt'. rewrite lookup_insert_eq. intros [= <-]. split; [done|]. split; [done|].
    split; [rewrite lookup_insert_eq; by eexists|]. split.
    + exists (locals (thread p (home rt))). unfold thread in *. simpl in *.
      destruct (default new_thread (threads p !! home rt)). simpl in *. congruence.
    + exists (run_external s (Spawn f)), x, n. split; [exact Hv|]. split; [done|by apply r_external].
Qed.

(** A wake, as the runtime that its waker belongs to sees it. *)
Lemma wake_view p th wk rt s :
  pinv p → is_u64 (task_id wk) → runtimes p !! queue wk = Some rt → executor_thread_id wk = home rt →
  load p (home rt) (queue wk) = Some s →
  load (wake p th wk) (home rt) (queue wk) =
    Some (run_external s (Wake (th =? executor_thread_id wk) (defer wk) (source wk) (task_id wk))).
Proof.
  intros H Hu Hr He Hl. destruct (pi_ctx _ H _ _ Hr) as (_ & _ & Hc & _ & [sh Hsh]). unfold wake. rewrite He.
  rewrite (load_some p _ _ rt sh) in Hl by done. injection Hl as <-. simpl run_external. rewrite wrap64_id by done.
  destruct (Nat.eqb_spec th (home rt)) as [->|Hne].
  - rewrite (load_some _ _ _ rt sh); simpl; [|done|unfold set_thread; by rewrite thread_insert, decide_True|done].
    unfold set_thread. rewrite thread_insert, decide_True by done.
    exact (f_equal (λ t, Some (set_tls (executor rt) t)) (attach_wake _ _ _ _ sh)).
  - rewrite Hsh. rewrite (load_some _ _ _ rt (mkShared (cross_queue sh ++ [task_id wk]) true)); simpl.
    + reflexivity.
    + done.
    + done.
    + by rewrite lookup_insert_eq.
Qed.

(** A runtime that lives where a wake puts an id. *)
Lemma wake_reach p th wk r rt :
  pinv p → is_u64 (task_id wk) → runtimes p !! r = Some rt →
  ∃ s reactor n, load (wake p th wk) (home rt) r = Some s ∧ 0 < n ∧ reachable reactor n s.
Proof.
  intros H Hu Hr. destruct (pi_exec _ H _ _ Hr) as (s & x & n & Hl & Hn & Hs).
  destruct (pi_ctx _ H _ _ Hr) as (_ & _ & Hc & _ & [sh Hsh]).
  rewrite (load_some p _ r rt sh) in Hl by done. injection Hl as <-. unfold wake.
  destruct (Nat.eqb_spec th (executor_thread_id wk)) as [_|Hne].
  - destruct (decide (th = home rt)) as [->|Hth].
    + exists (run_external (set_tls (executor rt) (attach (locals (thread p (home rt))) sh))
        (Wake true (defer wk) (source wk) (task_id wk))), x, n.
      split; [|split; [done|by apply r_external]]. unfold set_thread.
      rewrite (load_some _ _ _ rt sh); simpl; [|done|by rewrite thread_insert, decide_True|done].
      rewrite thread_insert, decide_True by done.
      simpl run_external. rewrite wrap64_id by done.
      exact (f_equal (λ t, Some (set_tls (executor rt) t)) (attach_wake _ _ _ _ sh)).
    + exists (set_tls (executor rt) (attach (locals (thread p (home rt))) sh)), x, n.
      split; [|done]. unfold set_thread. by rewrite (load_some _ _ _ rt sh); simpl; rewrite ?thread_insert, ?decide_False.
  - destruct (shared p !! queue wk) as [sh'|] eqn:Hsh'.
    2: { eexists _, x, n. split; [by rewrite (load_some _ _ _ rt sh)|done]. }
    destruct (decide (queue wk = r)) as [<-|Hq].
    + replace sh' with sh by congruence.
      exists (run_external (set_tls (executor rt) (attach (locals (thread p (home rt))) sh))
        (Wake false (defer wk) (source wk) (task_id wk))), x, n.
      split; [|split; [done|by apply r_external]].
      rewrite (load_some _ _ _ rt (mkShared (cross_queue sh ++ [task_id wk]) true)); simpl;
        [|done|done|by rewrite lookup_insert_eq].
      simpl run_external. rewrite wrap64_id by done. reflexivity.
    + exists (set_tls (executor rt) (attach (locals (thread p (home rt))) sh)), x, n. split; [|done].
      by rewrite (load_some _ _ _ rt sh); simpl; rewrite ?lookup_insert_ne.
Qed.

Lemma wake_impl_local d src k (t : Tls.Tls) : is_u64 k → tls_typed t → tls_typed (Tls.wake_impl true d src k t).
Proof. apply wake_impl_typed. Qed.

Lemma pinv_wake p th wk : pinv p → is_u64 (task_id wk) → pinv (wake p th wk).
Proof.
  intros H Hu. pose proof (λ r rt, wake_reach p th wk r rt H Hu) as Hex.
  assert (Hrt : runtimes (wake p th wk) = runtimes p ∧ next_runtime (wake p th wk) = next_runtime p).
  { unfold wake. repeat case_match; done. }
  destruct Hrt as [Hrt Hn].
  assert (Hctx : ∀ th', current_handle (thread (wake p th wk) th') = current_handle (thread p th') ∧
    cross_thread_ctx (thread (wake p th wk) th') = cross_thread_ctx (thread p th') ∧
    current_reactor (thread (wake p th wk) th') = current_reactor (thread p th') ∧
    tls_typed (locals (thread (wake p th wk) th'))).
  { intros th'. unfold wake. destruct (th =? executor_thread_id wk); [|case_match; (split_and!; [done..|apply (pi_typed _ H)])].
    unfold set_thread. rewrite thread_insert. destruct (decide (th = th')) as [<-|];
      (split_and!; [done..|]); [apply wake_impl_typed; [done|]|]; apply (pi_typed _ H). }
  assert (Hsh : ∀ r, is_Some (shared (wake p th wk) !! r) ↔ is_Some (shared p !! r)).
  { intros r. unfold wake. destruct (th =? executor_thread_id wk); [done|].
    destruct (shared p !! queue wk) as [sh|] eqn:E; [simpl|done].
    destruct (decide (queue wk = r)) as [<-|]; [rewrite lookup_insert_eq, E; split; by eexists|by rewrite lookup_insert_ne]. }
  split.
  - intros r rt Hr. cbv zeta. destruct (Hctx (home rt)) as (-> & -> & -> & _). rewrite Hrt in Hr.
    destruct (pi_ctx _ H _ _ Hr) as (? & ? & ? & ? & ?). rewrite Hn, Hsh. done.
  - intros r. rewrite Hsh, Hn. apply H.
  - intros th'. apply Hctx.
  - intros r rt Hr. rewrite Hrt in Hr. by apply Hex.
Qed.

Lemma pinv_step p o p' : pinv p → allowed p o → step p o = Some p' → pinv p'.
Proof.
  intros H Ha Hs. destruct o as [th x config|th r|th r f|th r|r f|th f|th wk]; simpl in Ha, Hs.
  - injection Hs as <-. destruct Ha. by apply pinv_create.
  - injection Hs as <-. destruct Ha as (rt & Hr & Hh). by eapply pinv_drop.
  - apply bind_Some in Hs as (s & Hl & [= <-]). destruct Ha as (rt & Hr & <-).
    destruct (pi_exec _ H _ _ Hr) as (s0 & x & n & Hl0 & Hn & Hs0). rewrite Hl in Hl0. injection Hl0 as <-.
    eapply (pinv_save p r rt s _ x n H Hr Hl Hn). by apply r_main.
  - apply bind_Some in Hs as (s & Hl & [= <-]). destruct Ha as (rt & Hr & <-).
    destruct (pi_exec _ H _ _ Hr) as (s0 & x & n & Hl0 & Hn & Hs0). rewrite Hl in Hl0. injection Hl0 as <-.
    eapply (pinv_save p r rt s _ x n H Hr Hl Hn). by apply r_tick.
  - injection Hs as <-. by apply pinv_spawn.
  - unfold spawn_here in Hs. apply bind_Some in Hs as (r & _ & [= <-]). by apply pinv_spawn.
  - injection Hs as <-. by apply pinv_wake.
Qed.

Lemma preach_inv p : preach p → pinv p.
Proof. induction 1 as [|p o p' _ IH Ha Hs]; [apply pinv_init|by eapply pinv_step]. Qed.

(** ** The theorems *)

Fixpoint run_ticks (m : nat) p th r : option (process F W) :=
  match m with 0 => Some p | S m' => p1 ← step p (RunTick th r); run_ticks m' p1 th r end.

Lemma run_ticks_view m p r rt s :
  pinv p → runtimes p !! r = Some rt → load p (home rt) r = Some s →
  ∃ p', run_ticks m p (home rt) r = Some p' ∧ load p' (home rt) r = Some (ticks m s).
Proof.
  revert p rt s. induction m as [|m IH]; intros p rt s H Hr Hl; simpl; [by exists p|].
  rewrite Hl. simpl. destruct (pi_exec _ H _ _ Hr) as (s0 & x & n & Hl0 & Hn & Hs0).
  rewrite Hl in Hl0. injection Hl0 as <-.
  destruct (pinv_save p r rt s (tick s) x n H Hr Hl Hn ltac:(by apply r_tick)) as [H1 Hl1].
  apply (IH _ (mkRuntime (tick s) (home rt)) (tick s)); [done| |done].
  simpl. by rewrite Hr, lookup_insert_eq.
Qed.

(** C3. A runtime that has its thread to itself is an executor.  The process has any
    number of threads and runtimes and follows the rule of [allowed]: a thread creates a
    runtime only when it has no live one (earlier ones were dropped), and a runtime is run
    and dropped on the thread that created it.  Then each live runtime is after every step
    in a state that an executor reaches, a spawn on its thread goes to it, and the wakers made there are
    its own: neither panics.  Without the rule this is false ([second_runtime_clobbers]). *)
Theorem runtime_refines_executor p r rt :
  preach p → runtimes p !! r = Some rt →
  ∃ s reactor n, load p (home rt) r = Some s ∧ 0 < n ∧ reachable reactor n s ∧
    (∀ tid src d, create_waker p (home rt) tid src d = Some (mkWaker tid src d r (home rt))) ∧
    ∀ f, ∃ p', spawn_here p (home rt) f = Some p' ∧ load p' (home rt) r = Some (run_external s (Spawn f)).
Proof.
  intros H%preach_inv Hr. destruct (pi_exec _ H _ _ Hr) as (s & x & n & Hl & Hn & Hs).
  destruct (pi_ctx _ H _ _ Hr) as (_ & Hh & Hc & _ & [sh Hsh]). exists s, x, n. do 3 (split; [done|]). split.
  - intros tid src d. unfold create_waker. by rewrite Hc.
  - intros f. exists (handle_spawn p r f). split; [unfold spawn_here; by rewrite Hh|].
    by apply (spawn_view p _ r rt sh f s).
Qed.

(** C11. A wake reaches its task across threads and runtimes.  When a waker of a task of a
    live runtime is used on any thread of the process, the task is polled after finitely
    many ticks of that runtime. *)
Theorem wake_reaches_runtime p r rt s th wk :
  preach p → runtimes p !! r = Some rt → load p (home rt) r = Some s →
  queue wk = r → executor_thread_id wk = home rt →
  task_id wk ≠ u64_max → injected (log s) (task_id wk) →
  ∃ m p' s', run_ticks m (wake p th wk) (home rt) r = Some p' ∧ load p' (home rt) r = Some s' ∧
    polled_since s s' (task_id wk).
Proof.
  intros H%preach_inv Hr Hl <- He Hne Hi.
  destruct (pi_exec _ H _ _ Hr) as (s0 & x & n & Hl0 & Hn & Hs). rewrite Hl in Hl0. injection Hl0 as <-.
  destruct (reachable_wake_inv x n s Hs) as (Hd & _).
  pose proof (di_range _ _ Hd _ Hi) as Hu.
  pose proof (wake_view p th wk rt s H Hu Hr He Hl) as Hl1.
  set (s1 := run_external s (Wake _ (defer wk) (source wk) (task_id wk))) in Hl1.
  assert (Hs1 : reachable x n s1) by by apply r_external.
  destruct (reachable_wake_inv x n s1 Hs1) as (Hd1 & Hw1 & Hev).
  destruct (reachable_wake_inv x n s Hs) as (_ & Hw & _).
  destruct (run_external_core s (Wake (th =? executor_thread_id wk) (defer wk) (source wk) (task_id wk))) as (_ & Hq & Hlog & _).
  destruct (wake_impl_ok (λ k, injected (log s) k) (th =? executor_thread_id wk) (defer wk) (source wk) (task_id wk) (tls s) (local_queue s) Hu Hw)
    as (_ & _ & Hin).
  destruct (queued_polled s1 (task_id wk) Hd1 Hw1 ltac:(rewrite Hev; lia) Hne) as (m & i & t & rs & Hle & Hlk).
  { unfold s1. by rewrite Hlog. }
  { unfold s1. simpl. rewrite wrap64_id by done. by apply Hin. }
  destruct (run_ticks_view m (wake p th wk) (queue wk) rt s1) as (p' & Hp' & Hl'); [by apply pinv_wake| |done|].
  { unfold wake. repeat case_match; done. }
  exists m, p', (ticks m s1). split; [done|]. split; [done|]. exists i, t, rs. split; [|done].
  unfold s1 in Hle. by rewrite Hlog in Hle.
Qed.

(** A second runtime on a thread takes the context of the first.  While it lives, the
    wakers made on the thread belong to it; when it is dropped, a spawn on the thread and
    the making of a waker panic, although the first runtime is alive. *)
Theorem second_runtime_clobbers p r rt reactor config :
  preach p → runtimes p !! r = Some rt →
  let '(created, p1) := with_config p (home rt) (Some reactor) config in
  ∃ r2, created = Some r2 ∧ r2 ≠ r ∧
    (∀ tid src d, create_waker p1 (home rt) tid src d = Some (mkWaker tid src d r2 (home rt))) ∧
    let p2 := drop p1 (home rt) r2 in
    runtimes p2 !! r = Some rt ∧ load p2 (home rt) r = None ∧
    (∀ tid src d, create_waker p2 (home rt) tid src d = None) ∧ ∀ f, spawn_here p2 (home rt) f = None.
Proof.
  intros H%preach_inv Hr. destruct (pi_ctx _ H _ _ Hr) as (Hlt & _). simpl. exists (next_runtime p).
  split; [done|]. split; [lia|]. split.
  - intros tid src d. unfold create_waker. by rewrite thread_insert, decide_True.
  - assert (Ht : ∀ t, thread (drop (with_config p (home rt) (Some reactor) config).2 (home rt) t) (home rt) =
      mkThread None None None (locals (thread (with_config p (home rt) (Some reactor) config).2 (home rt)))).
    { intros t. unfold drop. by rewrite thread_insert, decide_True. }
    specialize (Ht (next_runtime p)). simpl in Ht. split.
    + simpl. rewrite lookup_delete_ne, lookup_insert_ne by lia. done.
    + split; [|split].
      * unfold load. match goal with |- mbind _ ?o = None => destruct o end; [|done]. cbn [mbind option_bind]. by rewrite Ht.
      * intros tid src d. unfold create_waker. by rewrite Ht.
      * intros f. unfold spawn_here. by rewrite Ht.
Qed.

End process.

(** ** Witnesses: two threads, and a thread that runs one runtime after another *)

Notation sample_process := (process unit (list Z)).

Definition run (os : list (@op unit (list Z))) : option sample_process :=
  foldl (λ p o, q ← p; step q o) (Some init) os.

Definition sample_ops : list (@op unit (list Z)) :=
  [Create 0 (Some []) default_config; Create 1 (Some []) default_config; HandleSpawn 0 tt; RunTick 0 0;
   Drop 0 0; Create 0 (Some []) default_config; SpawnHere 0 tt; RunTick 0 2].

Definition sample : sample_process := default init (run sample_ops).

Lemma preach_snoc os o (p p' : sample_process) :
  run os = Some p → preach p → allowed p o → run (os ++ [o]) = Some p' → preach p'.
Proof.
  intros Hr Hp Ha. unfold run in *. rewrite foldl_app. simpl. rewrite Hr. simpl. intros Hs. by eapply p_step.
Qed.

(** No runtime lives on the thread. *)
Definition free_thread (p : sample_process) (th : nat) : bool :=
  forallb (λ rt, negb (home rt.2 =? th)) (map_to_list (runtimes p)).

Lemma free_thread_spec p th : free_thread p th = true → ∀ r rt, runtimes p !! r = Some rt → home rt ≠ th.
Proof.
  unfold free_thread. rewrite forallb_forall. intros H r rt Hr Hh.
  specialize (H (r, rt)). rewrite <- list_elem_of_In, elem_of_map_to_list in H. specialize (H Hr).
  apply negb_true_iff, Nat.eqb_neq in H. done.
Qed.

Ltac allowed_tac :=
  match goal with
  | |- allowed _ (Create _ _ _) => split; [vm_compute; lia|apply free_thread_spec; vm_compute; reflexivity]
  | |- allowed _ (HandleSpawn _ _) => exact I
  | |- allowed _ (SpawnHere _ _) => exact I
  | |- allowed _ _ => eexists; split; [vm_compute; reflexivity|reflexivity]
  end.

Ltac run_tac :=
  repeat lazymatch goal with
  | |- preach (default init (run [])) => exact p_init
  | |- preach (default init (run ?os)) =>
      let o := eval cbv in (last os) in
      let pre := eval cbv in (take (pred (length os)) os) in
      lazymatch o with Some ?o =>
        change os with (pre ++ [o]); eapply (preach_snoc pre o (default init (run pre)));
        [vm_compute; reflexivity| |allowed_tac|vm_compute; reflexivity]
      end
  end.

Lemma sample_reach : preach sample.
Proof. unfold sample, sample_ops. run_tac. Qed.

Definition sample_runtime (r : nat) : Runtime unit (list Z) :=
  default (mkRuntime (new [] 1) 0) (runtimes sample !! r).

Lemma runtime_refines_executor_witness :
  ∃ s reactor n, load sample 0 2 = Some s ∧ 0 < n ∧ reachable reactor n s.
Proof.
  destruct (runtime_refines_executor sample 2 (sample_runtime 2)) as (s & x & n & H1 & H2 & H3 & _).
  - apply sample_reach.
  - vm_compute. reflexivity.
  - exists s, x, n. split; [exact H1|]. split; assumption.
Defined.

(** A waker of the runtime that took over thread 0, used on thread 1. *)
Lemma wake_reaches_runtime_witness :
  ∃ m p' s', run_ticks m (wake sample 1 (mkWaker 1 Tls.Task false 2 0)) 0 2 = Some p' ∧
    load p' 0 2 = Some s' ∧ ∃ s, load sample 0 2 = Some s ∧ polled_since s s' 1.
Proof.
  assert (Hl : ∃ s, load sample 0 2 = Some s) by (eexists; vm_compute; reflexivity).
  destruct Hl as [s Hl].
  destruct (wake_reaches_runtime sample 2 (sample_runtime 2) s 1 (mkWaker 1 Tls.Task false 2 0)) as (m & p' & s' & H1 & H2 & H3).
  - apply sample_reach.
  - vm_compute. reflexivity.
  - exact Hl.
  - reflexivity.
  - vm_compute. reflexivity.
  - discriminate.
  - vm_compute in Hl. injection Hl as <-. exists 2. split; [vm_compute; lia|vm_compute; reflexivity].
  - exists m, p', s'. split; [exact H1|]. split; [exact H2|]. exists s. split; [exact Hl|exact H3].
Defined.

Lemma second_runtime_clobbers_witness :
  let p2 := drop (with_config sample 0 (Some []) default_config).2 0 3 in
  runtimes p2 !! 2 = Some (sample_runtime 2) ∧ spawn_here p2 0 tt = None.
Proof.
  destruct (second_runtime_clobbers sample 2 (sample_runtime 2) [] default_config) as (r2 & H1 & _ & _ & H2 & _ & _ & H3).
  - apply sample_reach.
  - vm_compute. reflexivity.
  - assert (Hr : r2 = 3) by (vm_compute in H1; congruence). subst r2.
    split; [exact H2|exact (H3 tt)].
Defined.

End Runtime.
