(* ===== verification/UtilityLog.v ===== *)
(** * UtilityLog: the event log of the utilities and its two invariants

    The vocabulary of [lion-utility/lion-utility-spec]: a utility (a sleep, a
    semaphore, a channel) logs the calls it receives, bracketed by a begin and an
    end event, and what it does to its environment.  [utility_inv] is the source's
    well-formedness of such a log: a call that ends Pending armed a wake-up source
    for its own waker, and resource operations target active resources.  The
    lemmas say when appending one call, or one event, keeps it.

    [M] is the utility's method tag and [R] its result type. Wakers, deadlines
    and resource ids are integers. *)

From S2P Require Import Prelude.

Module UtilityLog.

(** ** Events ([generic/types.rs], [generic/events.rs]) *)

Inductive TickResult (R : Type) :=
  | Pending
  | Finished (r : R)
  | Ongoing (r : R).
Arguments Pending {R}.
Arguments Finished {R} r.
Arguments Ongoing {R} r.

Inductive IoResultView (T : Type) :=
  | Ok (t : T)
  | Err (code : Z).
Arguments Ok {T} t.
Arguments Err {T} code.

(** [None] begins the call, [Some r] ends it. *)
Inductive UtilityInbound (M R : Type) :=
  | Tick (waker : Z) (method : M) (result : option (TickResult R)).
Arguments Tick {M R} waker method result.

Inductive UtilityOutbound :=
  | PassWaker (waker : Z)
  | WakeWaker (waker : Z)
  | CancelWaker (waker : Z)
  | RegisterTimer (deadline waker : Z) (result : option Z)
  | DeregisterTimer (resource_id : Z) (result : bool)
  | RegisterIoResource (source : Z) (interest : bool * bool) (result : option (IoResultView Z))
  | DeregisterIoResource (resource_id : Z) (result : IoResultView unit)
  | SetIoWaker (resource_id : Z) (interest : bool * bool) (waker : Z) (result : IoResultView unit)
  | Defer.

Inductive UtilityEvent (M R : Type) :=
  | Inbound (c : UtilityInbound M R)
  | Outbound (c : UtilityOutbound).
Arguments Inbound {M R} c.
Arguments Outbound {M R} c.

Section log.
Context {M R : Type}.
Implicit Types (l seg mid : list (UtilityEvent M R)) (e : UtilityEvent M R).
Implicit Types (i j k b : nat) (w rt : Z).

Definition is_tick e : bool := match e with Inbound (Tick _ _ _) => true | _ => false end.
Definition is_tick_begin e : bool :=
  match e with Inbound (Tick _ _ None) => true | _ => false end.
Definition is_tick_end e : bool :=
  match e with Inbound (Tick _ _ (Some _)) => true | _ => false end.
Definition is_tick_end_finished e : bool :=
  match e with Inbound (Tick _ _ (Some (Finished _))) => true | _ => false end.
Definition is_tick_end_ongoing e : bool :=
  match e with Inbound (Tick _ _ (Some (Ongoing _))) => true | _ => false end.
Definition is_wake_waker e : bool :=
  match e with Outbound (WakeWaker _) => true | _ => false end.

(** Successful registrations, with the token they return. *)
Definition get_register_timer_token e : option Z :=
  match e with Outbound (RegisterTimer _ _ (Some rt)) => Some rt | _ => None end.
Definition get_register_io_token e : option Z :=
  match e with Outbound (RegisterIoResource _ _ (Some (Ok rt))) => Some rt | _ => None end.

(** The token of a resource operation: a deregistration or [SetIoWaker]. *)
Definition get_resource_token e : option Z :=
  match e with
  | Outbound (DeregisterTimer rt _) => Some rt
  | Outbound (DeregisterIoResource rt _) => Some rt
  | Outbound (SetIoWaker rt _ _ _) => Some rt
  | _ => None
  end.

Definition is_deregister_of e rt : bool :=
  match e with
  | Outbound (DeregisterTimer rt' _) => bool_decide (rt' = rt)
  | Outbound (DeregisterIoResource rt' _) => bool_decide (rt' = rt)
  | _ => false
  end.

(** ** Positions ([generic/log.rs]) *)

Definition at_pos (p : UtilityEvent M R → bool) l i : Prop := ∃ e, l !! i = Some e ∧ p e = true.

Definition complete_tick_cycle l b i : Prop :=
  at_pos is_tick_begin l b ∧ at_pos is_tick_end l i ∧ b < i ∧
  ∀ k, b < k < i → ¬ at_pos is_tick_begin l k ∧ ¬ at_pos is_tick_end l k.

Definition timer_deregistered_after_in_cycle l rt reg_idx finish : Prop :=
  ∃ k r, reg_idx < k < finish ∧ l !! k = Some (Outbound (DeregisterTimer rt r)).

Definition io_active_at l rid i : Prop :=
  (∃ j e, j < i ∧ l !! j = Some e ∧ get_register_io_token e = Some rid) ∧
  ¬ ∃ k r, k < i ∧ l !! k = Some (Outbound (DeregisterIoResource rid r)).

Definition passwaker_armed_in_cycle l w b i : Prop :=
  ∃ j, b < j < i ∧ l !! j = Some (Outbound (PassWaker w)).

Definition defer_in_cycle l b i : Prop :=
  ∃ j, b < j < i ∧ l !! j = Some (Outbound Defer).

Definition timer_armed_for_in_cycle l w b i : Prop :=
  ∃ j d rt, b < j < i ∧ l !! j = Some (Outbound (RegisterTimer d w (Some rt))) ∧
    ¬ timer_deregistered_after_in_cycle l rt j i.

Definition io_armed_for_in_cycle l w b i : Prop :=
  ∃ rid, io_active_at l rid i ∧
    ∃ j n r, b < j < i ∧ l !! j = Some (Outbound (SetIoWaker rid n w r)).

Definition active_wakeup_source_for l w b i : Prop :=
  passwaker_armed_in_cycle l w b i ∨ defer_in_cycle l b i ∨
  timer_armed_for_in_cycle l w b i ∨ io_armed_for_in_cycle l w b i.

Definition is_register_succ_of_token_at l j rt : Prop :=
  ∃ e, l !! j = Some e ∧ (get_register_timer_token e = Some rt ∨ get_register_io_token e = Some rt).

Definition is_dereg_of_token_at l k rt : Prop :=
  ∃ e, l !! k = Some e ∧ is_deregister_of e rt = true.

Definition token_active_before l rt i : Prop :=
  ∃ j, j < i ∧ is_register_succ_of_token_at l j rt ∧
    ¬ ∃ k, j < k < i ∧ is_dereg_of_token_at l k rt.

(** ** The invariants ([generic/invariants.rs]) *)

Definition wakeup_validity l i w : Prop :=
  ∃ b, complete_tick_cycle l b i ∧ active_wakeup_source_for l w b i.

Definition wakeup_guarantee l : Prop :=
  ∀ i w m, l !! i = Some (Inbound (Tick w m (Some Pending))) → wakeup_validity l i w.

Definition resource_ownership l : Prop :=
  ∀ i e rt, l !! i = Some e → get_resource_token e = Some rt → token_active_before l rt i.

Definition utility_inv l : Prop := wakeup_guarantee l ∧ resource_ownership l.

(** ** Extending a log *)

Lemma at_pos_app p l seg i : i < length l → at_pos p (l ++ seg) i ↔ at_pos p l i.
Proof. intros Hi. unfold at_pos. by rewrite lookup_app_l. Qed.

Lemma token_active_app l seg rt i :
  i ≤ length l → token_active_before l rt i ↔ token_active_before (l ++ seg) rt i.
Proof.
  intros Hi. unfold token_active_before, is_register_succ_of_token_at, is_dereg_of_token_at.
  split; intros (j & Hj & (e & He & Hr) & Hno).
  - exists j. split; [done|]. split; [exists e; by rewrite lookup_app_l by lia|].
    intros (k & Hk & e' & He' & Hd). rewrite lookup_app_l in He' by lia. apply Hno. by exists k; eauto.
  - exists j. rewrite lookup_app_l in He by lia. split; [done|]. split; [by exists e|].
    intros (k & Hk & e' & He' & Hd). apply Hno. exists k. split; [done|]. exists e'.
    by rewrite lookup_app_l by lia.
Qed.

Lemma complete_tick_cycle_app l seg b i :
  i < length l → complete_tick_cycle l b i → complete_tick_cycle (l ++ seg) b i.
Proof.
  intros Hi (Hb & He & Hlt & Hno). split; [rewrite at_pos_app; [done|lia]|].
  split; [by rewrite at_pos_app|]. split; [done|]. intros k Hk.
  rewrite !at_pos_app by lia. by apply Hno.
Qed.

Lemma wakeup_source_app l seg w b i :
  i ≤ length l → active_wakeup_source_for l w b i → active_wakeup_source_for (l ++ seg) w b i.
Proof.
  intros Hi [(j & Hj & He)|[(j & Hj & He)|[(j & d & rt & Hj & He & Hno)|(rid & [Hreg Hact] & Hset)]]].
  - left. exists j. by rewrite lookup_app_l by lia.
  - right; left. exists j. by rewrite lookup_app_l by lia.
  - right; right; left. exists j, d, rt. rewrite lookup_app_l by lia. split_and!; [lia..|done|].
    intros (k & r & Hk & Hk'). rewrite lookup_app_l in Hk' by lia. apply Hno. by exists k, r.
  - do 3 right. exists rid. split; [split|].
    + destruct Hreg as (j & e & Hj & He & Ht). exists j, e. by rewrite lookup_app_l by lia.
    + intros (k & r & Hk & Hk'). rewrite lookup_app_l in Hk' by lia. apply Hact. by exists k, r.
    + destruct Hset as (j & n & r & Hj & He). exists j, n, r. by rewrite lookup_app_l by lia.
Qed.

Lemma wakeup_validity_app l seg i w :
  i < length l → wakeup_validity l i w → wakeup_validity (l ++ seg) i w.
Proof.
  intros Hi (b & Hc & Hs). exists b. split; [by apply complete_tick_cycle_app|].
  apply wakeup_source_app; [lia|done].
Qed.

(** What the new part must satisfy. *)
Lemma utility_inv_app l seg :
  utility_inv l →
  (∀ j w m, seg !! j = Some (Inbound (Tick w m (Some Pending))) →
     wakeup_validity (l ++ seg) (length l + j) w) →
  (∀ j e rt, seg !! j = Some e → get_resource_token e = Some rt →
     token_active_before (l ++ seg) rt (length l + j)) →
  utility_inv (l ++ seg).
Proof.
  intros [Hw Hr] Hsw Hsr. split.
  - intros i w m Hi. apply lookup_app_Some in Hi as [Hi|[Hle Hi]].
    + apply wakeup_validity_app; [by eapply lookup_lt_Some|by eapply Hw].
    + replace i with (length l + (i - length l)) by lia. by eapply Hsw.
  - intros i e rt Hi Ht. apply lookup_app_Some in Hi as [Hi|[Hle Hi]].
    + apply token_active_app; [apply lookup_lt_Some in Hi; lia|by eapply Hr].
    + replace i with (length l + (i - length l)) by lia. by eapply Hsr.
Qed.

(** One event that is no call. *)
Lemma utility_inv_push l e :
  utility_inv l → is_tick e = false →
  (∀ rt, get_resource_token e = Some rt → token_active_before l rt (length l)) →
  utility_inv (l ++ [e]).
Proof.
  intros Hl He Hr. apply utility_inv_app; [done| |].
  - intros j w m Hj. apply list_lookup_singleton_Some in Hj as [_ ->]. done.
  - intros j e' rt Hj Ht. apply list_lookup_singleton_Some in Hj as [-> ->].
    rewrite Nat.add_0_r. apply token_active_app; [done|]. by apply Hr.
Qed.

(** One call: a begin event, outbound events, an end event. *)
Definition call (w : Z) (m : M) mid (r : TickResult R) : list (UtilityEvent M R) :=
  Inbound (Tick w m None) :: mid ++ [Inbound (Tick w m (Some r))].

Lemma call_lookup w m mid r j e :
  call w m mid r !! j = Some e →
  (j = 0 ∧ e = Inbound (Tick w m None)) ∨
  (∃ j', j = S j' ∧ mid !! j' = Some e) ∨
  (j = S (length mid) ∧ e = Inbound (Tick w m (Some r))).
Proof.
  unfold call. destruct j as [|j]; simpl; [intros [= <-]; by left|].
  intros [Hj|[Hle Hj]]%lookup_app_Some; [right; left; by exists j|].
  apply list_lookup_singleton_Some in Hj as [Hj <-]. right; right. split; [lia|done].
Qed.

Lemma call_cycle l w m mid r :
  Forall (λ e, is_tick e = false) mid →
  complete_tick_cycle (l ++ call w m mid r) (length l) (length l + S (length mid)).
Proof.
  intros Hmid. split_and!.
  - exists (Inbound (Tick w m None)). split; [|done]. by apply list_lookup_middle.
  - exists (Inbound (Tick w m (Some r))). split; [|done].
    rewrite lookup_app_r by lia. replace (_ - _) with (S (length mid)) by lia. simpl.
    by apply list_lookup_middle.
  - lia.
  - intros k Hk. assert (Hn : ∀ e, (l ++ call w m mid r) !! k = Some e → is_tick e = false).
    { intros e. rewrite lookup_app_r by lia. intros [[? _]|[(j' & Hj & He)|[? _]]]%call_lookup; [lia| |lia].
      rewrite Forall_lookup in Hmid. by eapply Hmid. }
    split; intros (e & He & Ht); apply Hn in He; by destruct e as [[? ? []]|].
Qed.

Lemma call_preserves l w m mid r :
  utility_inv l →
  Forall (λ e, is_tick e = false) mid →
  (r = Pending →
     active_wakeup_source_for (l ++ call w m mid r) w (length l) (length l + S (length mid))) →
  (∀ j e rt, mid !! j = Some e → get_resource_token e = Some rt →
     token_active_before (l ++ call w m mid r) rt (length l + S j)) →
  utility_inv (l ++ call w m mid r).
Proof.
  intros Hl Hmid Hsrc Hres. apply utility_inv_app; [done| |].
  - intros j w' m' Hj. apply call_lookup in Hj as [[-> Hj]|[(j' & -> & Hj)|[-> Hj]]]; [done| |].
    + rewrite Forall_lookup in Hmid. by apply Hmid in Hj.
    + simplify_eq. exists (length l). split; [by apply call_cycle|]. by apply Hsrc.
  - intros j e rt Hj Ht. apply call_lookup in Hj as [[-> ->]|[(j' & -> & Hj)|[-> ->]]]; [done| |done].
    by eapply Hres.
Qed.

Lemma utility_inv_nil : utility_inv [].
Proof. split; intros i; by rewrite lookup_nil. Qed.
End log.

End UtilityLog.
