(* ===== verification/ReactorLog.v ===== *)
(** * ReactorLog: the event log of the reactor

    The events of [lion-reactor-spec/src/events.rs] and the predicates of
    [lion-reactor-spec/src/log.rs] about timers and wakes.  A waker is the number
    of the task that it wakes; instants, durations and resource ids are integers. *)

From S2P Require Import Prelude.
From S2P Require Export UtilityLog.
Import UtilityLog.

Module ReactorLog.

Record IoEventView := mkIoEventView { resource_id : Z; readable : bool; writable : bool }.

(** [None] begins the call, [Some r] ends it. *)
Inductive InboundCall :=
  | InRegisterIoResource (source : Z) (interest : bool * bool) (result : option (IoResultView Z))
  | InDeregisterIoResource (resource_id : Z) (result : option (IoResultView unit))
  | SetWaker (resource_id : Z) (interest : bool * bool) (waker : Z)
      (result : option (IoResultView unit))
  | RegisterTimer (deadline waker : Z) (result : option (IoResultView Z))
  | DeregisterTimer (resource_id : Z) (result : bool)
  | Park (timeout : option Z) (result : option (IoResultView unit)).

Inductive OutboundCall :=
  | RegisterIoResource (source resource_id : Z) (interest : bool * bool) (result : IoResultView unit)
  | DeregisterIoResource (source resource_id : Z) (result : IoResultView unit)
  | PollEvents (timeout : option Z) (result : IoResultView nat)
  | IoEventReady (event : IoEventView)
  | GetCurrentTime (timestamp : Z)
  | WakeTask (waker source_rid : Z).

Inductive ReactorEvent :=
  | Inbound (c : InboundCall)
  | Outbound (c : OutboundCall).

Section log.
Implicit Types (e : ReactorEvent) (l seg : list ReactorEvent) (rid d w t : Z) (i j k : nat).

(** ** Events *)

(** The deadline, waker and id of a successful registration. *)
Definition succ_register_timer e : option (Z * Z * Z) :=
  match e with Inbound (RegisterTimer d w (Some (Ok rid))) => Some (d, w, rid) | _ => None end.

Definition succ_io_api_register e : option Z :=
  match e with Inbound (InRegisterIoResource _ _ (Some (Ok rid))) => Some rid | _ => None end.

(** The waker and the resource of a wake. *)
Definition wake_task e : option (Z * Z) :=
  match e with Outbound (WakeTask w rid) => Some (w, rid) | _ => None end.

Definition current_timestamp e : option Z :=
  match e with Outbound (GetCurrentTime t) => Some t | _ => None end.

(** A timer is retired by its deregistration and by its wake. *)
Definition timer_retired rid e : bool :=
  match e with
  | Inbound (DeregisterTimer rid' true) => bool_decide (rid' = rid)
  | Outbound (WakeTask _ rid') => bool_decide (rid' = rid)
  | _ => false
  end.

(** What a reader of the log sees happen: the wakes, in order. *)
Definition wakes l : list (Z * Z) := omap wake_task l.

(** ** Positions *)

Definition is_succ_register_timer_at l i d w rid : Prop :=
  l !! i ≫= succ_register_timer = Some (d, w, rid).

Definition timer_retired_at l rid j : Prop :=
  ∃ e, l !! j = Some e ∧ timer_retired rid e = true.

Definition timer_active_at l register_idx i : Prop :=
  ∃ d w rid, is_succ_register_timer_at l register_idx d w rid ∧ register_idx < i ∧
    ∀ j, register_idx < j < i → ¬ timer_retired_at l rid j.

(** Registered, still active at the end of the log. (A wake retires, so the
    source's further clause, that no wake follows, is part of activity.) *)
Definition timer_awaiting_wake l register_idx : Prop :=
  timer_active_at l register_idx (length l).

Definition has_timeout_point l register_idx : Prop :=
  ∃ timeout_idx t d w rid,
    is_succ_register_timer_at l register_idx d w rid ∧ register_idx < timeout_idx ∧
    l !! timeout_idx ≫= current_timestamp = Some t ∧ (d ≤ t)%Z ∧
    timer_active_at l register_idx timeout_idx.

Definition max_timestamp l : Z :=
  foldr (λ e m, match current_timestamp e with Some t => Z.max t m | None => m end) 0%Z l.

Definition no_prior_timer_registration l rid i : Prop :=
  ∀ k d w, k < i → is_succ_register_timer_at l k d w rid →
    ∃ j, k < j < i ∧ timer_retired_at l rid j.

(** ** The invariants about timers and wakes ([lion-reactor-spec/src/invariants]) *)

Definition timer_deadline_future l : Prop :=
  ∀ i d w rid, is_succ_register_timer_at l i d w rid → (max_timestamp (take i l) < d)%Z.

Definition timer_reg_uniqueness l : Prop :=
  ∀ i d w rid, is_succ_register_timer_at l i d w rid → no_prior_timer_registration l rid i.

Definition wake_has_registration l : Prop :=
  ∀ i w rid, l !! i ≫= wake_task = Some (w, rid) →
    (∃ j d w', j < i ∧ is_succ_register_timer_at l j d w' rid) ∨
    (∃ j, j < i ∧ l !! j ≫= succ_io_api_register = Some rid).

(** A wake of an active timer is a wake of the waker that was registered. *)
Definition timer_waker_validity l : Prop :=
  ∀ i w rid, l !! i ≫= wake_task = Some (w, rid) →
    (∃ j d w', j < i ∧ is_succ_register_timer_at l j d w' rid ∧ timer_active_at l j i) →
    ∃ j d, j < i ∧ is_succ_register_timer_at l j d w rid ∧ timer_active_at l j i.

(** What [wake_on_expired] says, as its own comment explains: no expired timer is
    left awaiting its wake. *)
Definition wake_on_expired l : Prop :=
  ∀ i, has_timeout_point l i → ¬ timer_awaiting_wake l i.

(** ** Lemmas *)

Lemma wakes_app l seg : wakes (l ++ seg) = wakes l ++ wakes seg.
Proof. apply omap_app. Qed.

Lemma max_timestamp_app l seg : max_timestamp (l ++ seg) = Z.max (max_timestamp l) (max_timestamp seg).
Proof.
  induction l as [|e l IH]; simpl.
  - unfold max_timestamp. induction seg as [|e seg IH]; simpl; [done|].
    destruct (current_timestamp e); lia.
  - destruct (current_timestamp e); lia.
Qed.

Lemma max_timestamp_none seg :
  (∀ e, e ∈ seg → current_timestamp e = None) → max_timestamp seg = 0%Z.
Proof.
  induction seg as [|e seg IH]; intros H; simpl; [done|].
  rewrite (H e) by left. apply IH. intros; apply H. by right.
Qed.

Lemma max_timestamp_nonneg l : (0 ≤ max_timestamp l)%Z.
Proof. induction l as [|e l IH]; simpl; [lia|]. destruct (current_timestamp e); lia. Qed.

(** A log read at a position of its prefix. *)
Lemma lookup_app_bind {B} (f : ReactorEvent → option B) l seg i x :
  (l ++ seg) !! i ≫= f = Some x ↔
    (l !! i ≫= f = Some x) ∨ (length l ≤ i ∧ seg !! (i - length l) ≫= f = Some x).
Proof.
  destruct (decide (i < length l)).
  - rewrite lookup_app_l by done. split; [by left|]. intros [?|[? _]]; [done|lia].
  - rewrite lookup_app_r by lia. rewrite (lookup_ge_None_2 l) by lia.
    split; [right; split; [lia|done]|]. by intros [?|[_ ?]].
Qed.

Lemma register_at_app l seg i d w rid :
  is_succ_register_timer_at l i d w rid → is_succ_register_timer_at (l ++ seg) i d w rid.
Proof. intros. apply lookup_app_bind. by left. Qed.

Lemma register_at_lt l i d w rid : is_succ_register_timer_at l i d w rid → i < length l.
Proof.
  unfold is_succ_register_timer_at. destruct (l !! i) eqn:E; [|done]. intros _.
  by eapply lookup_lt_Some.
Qed.

End log.

End ReactorLog.
