(* ===== verification/Readiness.v ===== *)
(** * Readiness: the readiness bytes of [lion-reactor/src/readiness.rs]

    A vector of bytes indexed by resource id; an access out of range reads as not
    ready and writes nothing. *)

From S2P Require Import Prelude.

Module Readiness.

Definition READABLE : Z := 1.
Definition WRITABLE : Z := 2.

(** [!m] on a byte. *)
Definition not_u8 (m : Z) : Z := Z.lxor m 255.

Section ops.
Implicit Types (v : list Z) (rid m : Z).

Definition init_readiness v rid : list Z :=
  let idx := Z.to_nat rid in
  let v1 := if length v <=? idx then resize (idx + 1) 0%Z v else v in
  <[idx := Z.lor READABLE WRITABLE]> v1.

Definition update v rid (f : Z → Z) : list Z :=
  let idx := Z.to_nat rid in
  if idx <? length v then <[idx := f (default 0%Z (v !! idx))]> v else v.

Definition mark_readable v rid : list Z := update v rid (λ b, Z.lor b READABLE).
Definition mark_writable v rid : list Z := update v rid (λ b, Z.lor b WRITABLE).
Definition clear_readable v rid : list Z := update v rid (λ b, Z.land b (not_u8 READABLE)).
Definition clear_writable v rid : list Z := update v rid (λ b, Z.land b (not_u8 WRITABLE)).

Definition test v rid m : bool :=
  let idx := Z.to_nat rid in
  (idx <? length v) && negb (Z.land (default 0%Z (v !! idx)) m =? 0)%Z.

Definition is_readable v rid : bool := test v rid READABLE.
Definition is_writable v rid : bool := test v rid WRITABLE.
End ops.

(** ** Lemmas *)

Section lemmas.
Implicit Types (v : list Z) (rid m n : Z).

Lemma length_update v rid f : length (update v rid f) = length v.
Proof. unfold update. case_cmp; [apply length_insert|done]. Qed.

Lemma update_lookup v rid rid' f :
  (0 ≤ rid)%Z → (0 ≤ rid')%Z →
  update v rid f !! Z.to_nat rid' =
    if decide (rid = rid') then f <$> v !! Z.to_nat rid' else v !! Z.to_nat rid'.
Proof.
  intros H1 H2. unfold update. case_decide as Hd; [subst|]; case_cmp; try done.
  - destruct (lookup_lt_is_Some_2 v (Z.to_nat rid')) as [b Hb]; [done|].
    rewrite Hb. simpl. by apply list_lookup_insert_eq.
  - by rewrite (lookup_ge_None_2 v) by lia.
  - apply list_lookup_insert_ne. lia.
Qed.

(** What a test reads after an update: the byte of the same resource changes. *)
Lemma test_update v rid rid' f m :
  (0 ≤ rid)%Z → (0 ≤ rid')%Z →
  test (update v rid f) rid' m =
    (Z.to_nat rid' <? length v) &&
    negb (Z.land ((if decide (rid = rid') then f else id) (default 0 (v !! Z.to_nat rid'))) m =? 0)%Z.
Proof.
  intros H1 H2. unfold test. rewrite length_update.
  destruct (Nat.ltb_spec (Z.to_nat rid') (length v)); [|done]. simpl.
  rewrite update_lookup by done. case_decide as Hd; [|done].
  by destruct (lookup_lt_is_Some_2 v (Z.to_nat rid')) as [b ->]; [lia|].
Qed.

End lemmas.

End Readiness.

(** ** Readiness as a map *)

Import Readiness.

Inductive rdop := Init (rid : Z) | Mark (write : bool) (rid : Z) | Clear (write : bool) (rid : Z).

Definition rd_step (v : list Z) (o : rdop) : list Z :=
  match o with
  | Init rid => init_readiness v rid
  | Mark false rid => mark_readable v rid
  | Mark true rid => mark_writable v rid
  | Clear false rid => clear_readable v rid
  | Clear true rid => clear_writable v rid
  end.

(** The reference: whether each initialised resource is readable and writable. *)
Definition rd_spec (g : gmap Z (bool * bool)) (o : rdop) : gmap Z (bool * bool) :=
  let put (write b : bool) (rw : bool * bool) := if write then (rw.1, b) else (b, rw.2) in
  match o with
  | Init rid => <[rid := (true, true)]> g
  | Mark write rid => alter (put write true) rid g
  | Clear write rid => alter (put write false) rid g
  end.

Definition rd_rid (o : rdop) : Z :=
  match o with Init rid => rid | Mark _ rid => rid | Clear _ rid => rid end.

Definition rd_byte (rw : bool * bool) : Z := ((if rw.1 then 1 else 0) + (if rw.2 then 2 else 0))%Z.

Lemma init_lookup v rid rid' b :
  (0 ≤ rid)%Z → (0 ≤ rid')%Z → rid ≠ rid' → v !! Z.to_nat rid' = Some b →
  init_readiness v rid !! Z.to_nat rid' = Some b.
Proof.
  intros H1 H2 Hne Hb. unfold init_readiness. rewrite list_lookup_insert_ne by lia.
  case_cmp; [|done]. rewrite lookup_resize; [done|apply lookup_lt_Some in Hb; lia|by eapply lookup_lt_Some].
Qed.

Lemma init_lookup_eq v rid : (0 ≤ rid)%Z → init_readiness v rid !! Z.to_nat rid = Some 3%Z.
Proof.
  intros H. unfold init_readiness. apply list_lookup_insert_eq.
  case_cmp; [rewrite length_resize|]; lia.
Qed.

Lemma rd_step_spec v g o :
  (0 ≤ rd_rid o)%Z →
  (∀ rid rw, (0 ≤ rid)%Z → g !! rid = Some rw → v !! Z.to_nat rid = Some (rd_byte rw)) →
  ∀ rid rw, (0 ≤ rid)%Z → rd_spec g o !! rid = Some rw → rd_step v o !! Z.to_nat rid = Some (rd_byte rw).
Proof.
  intros Ho Hv rid rw Hrid Hg. destruct o as [x|w x|w x]; simpl in *.
  - destruct (decide (x = rid)) as [->|Hne].
    + rewrite lookup_insert_eq in Hg. injection Hg as <-. by apply init_lookup_eq.
    + rewrite lookup_insert_ne in Hg by done. by apply init_lookup, Hv.
  - rewrite lookup_alter in Hg. destruct w; unfold mark_writable, mark_readable;
      rewrite update_lookup by done; (case_decide; [subst x|by apply Hv]);
      apply fmap_Some in Hg as ([[] []] & Hg & ->); by rewrite (Hv _ _ Hrid Hg).
  - rewrite lookup_alter in Hg. destruct w; unfold clear_writable, clear_readable;
      rewrite update_lookup by done; (case_decide; [subst x|by apply Hv]);
      apply fmap_Some in Hg as ([[] []] & Hg & ->); by rewrite (Hv _ _ Hrid Hg).
Qed.

(** After any sequence of initialisations, marks and clears, a resource that
    was initialised reads as readable and as writable exactly when the last
    operation on that bit was not a clear: the two bits, and the bytes of the
    resources, do not disturb one another, and growing the vector loses none. *)
Theorem readiness_bits_independent ops rid rw :
  Forall (λ o, 0 ≤ rd_rid o)%Z ops → (0 ≤ rid)%Z →
  foldl rd_spec ∅ ops !! rid = Some rw →
  (is_readable (foldl rd_step [] ops) rid, is_writable (foldl rd_step [] ops) rid) = rw.
Proof.
  intros Hops Hrid Hrw.
  assert (Hgen : ∀ v (g : gmap Z (bool * bool)),
    (∀ rid rw, (0 ≤ rid)%Z → g !! rid = Some rw → v !! Z.to_nat rid = Some (rd_byte rw)) →
    ∀ rid rw, (0 ≤ rid)%Z → foldl rd_spec g ops !! rid = Some rw →
      foldl rd_step v ops !! Z.to_nat rid = Some (rd_byte rw)).
  { clear Hrw. induction Hops as [|o ops Ho _ IH]; intros v g Hv; simpl; [done|].
    apply IH. by apply rd_step_spec. }
  assert (Hb : foldl rd_step [] ops !! Z.to_nat rid = Some (rd_byte rw)).
  { apply (Hgen [] ∅); [|done|done]. intros k b _. by rewrite lookup_empty. }
  unfold is_readable, is_writable, test. rewrite Hb.
  destruct (Nat.ltb_spec (Z.to_nat rid) (length (foldl rd_step [] ops)));
    [by destruct rw as [[] []]|]. apply lookup_lt_Some in Hb. lia.
Qed.

Definition sample_rdops : list rdop :=
  [Init 5; Clear false 5; Init 2; Clear true 2; Mark false 5; Clear true 5; Mark true 9]%Z.

Lemma readiness_bits_independent_witness :
  (is_readable (foldl rd_step [] sample_rdops) 5, is_writable (foldl rd_step [] sample_rdops) 5)
    = (true, false).
Proof.
  apply (readiness_bits_independent sample_rdops 5 (true, false));
    [repeat (constructor; [simpl; lia|]); constructor|lia|vm_compute; reflexivity].
Defined.
