(* ===== verification/ResourceSlab.v ===== *)
(** * ResourceSlab: the table of the reactor's resources

    [lion-reactor/src/resource_slot.rs], [resource_slot_wrapper.rs] and
    [resource_slab.rs]: a slab of timers and I/O resources keyed by resource id.
    The [unreachable!()] of an accessor used on the wrong kind of slot, and an
    [unwrap] of an absent slot, are [None]. *)

From S2P Require Import Prelude Store Slab.

Module ResourceSlab.

(** [log_index] is the ghost position of the registration in the log. *)
Record TimerEntry := mkTimerEntry { deadline : Z; resource_id : Z; log_index : nat }.

Inductive ResourceSlot :=
  | Timer (entry : TimerEntry) (waker : Z)
  | Io (read_waker write_waker : option Z).

(** ** Slots *)

Definition is_timer (s : ResourceSlot) : bool := match s with Timer _ _ => true | _ => false end.
Definition is_io (s : ResourceSlot) : bool := match s with Io _ _ => true | _ => false end.

Definition with_read_waker (s : ResourceSlot) (w : Z) : option ResourceSlot :=
  match s with Io _ write_waker => Some (Io (Some w) write_waker) | _ => None end.
Definition with_write_waker (s : ResourceSlot) (w : Z) : option ResourceSlot :=
  match s with Io read_waker _ => Some (Io read_waker (Some w)) | _ => None end.

Definition clone_timer_waker (s : ResourceSlot) : option Z :=
  match s with Timer _ w => Some w | _ => None end.
Definition clone_read_waker (s : ResourceSlot) : option (option Z) :=
  match s with Io r _ => Some r | _ => None end.
Definition clone_write_waker (s : ResourceSlot) : option (option Z) :=
  match s with Io _ w => Some w | _ => None end.

(** ** The table *)

Definition ResourceSlab : Type := Slab.Slab ResourceSlot.

Definition new : ResourceSlab := st_empty.

Section ops.
Implicit Types (m : ResourceSlab) (key waker : Z).

Definition p_insert_timer m key (entry : TimerEntry) waker : ResourceSlab :=
  st_insert m key (Timer entry waker).
Definition p_insert_io m key : ResourceSlab := st_insert m key (Io None None).

Definition p_remove m key : bool * ResourceSlab :=
  let '(result, m') := st_remove m key in (bool_decide (is_Some result), m').

Definition p_set_read_waker m key waker : option ResourceSlab :=
  let '(old, m1) := st_remove m key in
  old_wrapper ← old;
  new_wrapper ← with_read_waker old_wrapper waker;
  Some (st_insert m1 key new_wrapper).

Definition p_set_write_waker m key waker : option ResourceSlab :=
  let '(old, m1) := st_remove m key in
  old_wrapper ← old;
  new_wrapper ← with_write_waker old_wrapper waker;
  Some (st_insert m1 key new_wrapper).

Definition p_get_timer_waker m key : option Z :=
  match st_get m key with
  | Some wrapper => if is_timer wrapper then clone_timer_waker wrapper else None
  | None => None
  end.
Definition p_get_read_waker m key : option Z :=
  match st_get m key with
  | Some wrapper => if is_io wrapper then mjoin (clone_read_waker wrapper) else None
  | None => None
  end.
Definition p_get_write_waker m key : option Z :=
  match st_get m key with
  | Some wrapper => if is_io wrapper then mjoin (clone_write_waker wrapper) else None
  | None => None
  end.

(** The verified wrappers run the operations above; their bodies add proofs. *)
Definition v_insert_timer_slot m key (entry : TimerEntry) waker := p_insert_timer m key entry waker.
Definition v_insert_io_slot m key := p_insert_io m key.
Definition v_remove_timer_slot m key : ResourceSlab := (p_remove m key).2.
Definition v_remove_io_slot m key : ResourceSlab := (p_remove m key).2.
Definition v_set_read_waker m key waker := p_set_read_waker m key waker.
Definition v_set_write_waker m key waker := p_set_write_waker m key waker.
Definition v_take_timer_waker m key := p_get_timer_waker m key.
Definition v_get_read_waker m key := p_get_read_waker m key.
Definition v_get_write_waker m key := p_get_write_waker m key.

Definition contains m key : bool := bool_decide (is_Some (st_get m key)).

(** Replaces the waker of a timer in place; tells whether there is one. *)
Definition replace_timer_waker m key new_waker : bool * ResourceSlab :=
  match Slab.get_mut m key with
  | Some (Timer entry _, write) => (true, write (Timer entry new_waker))
  | _ => (false, m)
  end.
End ops.

(** ** What the operations do to the table *)

Section lemmas.
Implicit Types (m : ResourceSlab) (key k w : Z).

Lemma slab_get_new k : st_get new k = None.
Proof. apply st_get_empty. Qed.

Lemma get_insert_timer m key e w k :
  st_get (v_insert_timer_slot m key e w) k =
    if decide (key = k) then Some (Timer e w) else st_get m k.
Proof. apply st_get_insert. Qed.

Lemma get_insert_io m key k :
  st_get (v_insert_io_slot m key) k =
    if decide (key = k) then Some (Io None None) else st_get m k.
Proof. apply st_get_insert. Qed.

Lemma get_remove m key k :
  st_get (p_remove m key).2 k = if decide (key = k) then None else st_get m k.
Proof.
  unfold p_remove. pose proof (st_get_remove ResourceSlot m key k) as H.
  by destruct (st_remove m key).
Qed.

Lemma get_set_read m key w r o :
  st_get m key = Some (Io r o) →
  ∃ m', v_set_read_waker m key w = Some m' ∧
    ∀ k, st_get m' k = if decide (key = k) then Some (Io (Some w) o) else st_get m k.
Proof.
  intros Hk. unfold v_set_read_waker, p_set_read_waker.
  pose proof (st_remove_result ResourceSlot m key) as Hr.
  pose proof (st_get_remove ResourceSlot m key) as Hg.
  destruct (st_remove m key) as [old m1]. simpl in *. rewrite Hr, Hk. simpl.
  eexists. split; [done|]. intros k. rewrite st_get_insert, Hg. by case_decide.
Qed.

Lemma get_set_write m key w r o :
  st_get m key = Some (Io r o) →
  ∃ m', v_set_write_waker m key w = Some m' ∧
    ∀ k, st_get m' k = if decide (key = k) then Some (Io r (Some w)) else st_get m k.
Proof.
  intros Hk. unfold v_set_write_waker, p_set_write_waker.
  pose proof (st_remove_result ResourceSlot m key) as Hr.
  pose proof (st_get_remove ResourceSlot m key) as Hg.
  destruct (st_remove m key) as [old m1]. simpl in *. rewrite Hr, Hk. simpl.
  eexists. split; [done|]. intros k. rewrite st_get_insert, Hg. by case_decide.
Qed.

Lemma take_timer_waker_get m k :
  v_take_timer_waker m k =
    match st_get m k with Some (Timer _ w) => Some w | _ => None end.
Proof. unfold v_take_timer_waker, p_get_timer_waker. by destruct (st_get m k) as [[]|]. Qed.

Lemma get_read_waker_get m k :
  v_get_read_waker m k = match st_get m k with Some (Io r _) => r | _ => None end.
Proof. unfold v_get_read_waker, p_get_read_waker. by destruct (st_get m k) as [[|[] ]|]. Qed.

Lemma get_write_waker_get m k :
  v_get_write_waker m k = match st_get m k with Some (Io _ r) => r | _ => None end.
Proof. unfold v_get_write_waker, p_get_write_waker. by destruct (st_get m k) as [[|? []]|]. Qed.

Lemma replace_timer_waker_get m key w e w0 :
  st_get m key = Some (Timer e w0) →
  (replace_timer_waker m key w).1 = true ∧
  ∀ k, st_get (replace_timer_waker m key w).2 k =
    if decide (key = k) then Some (Timer e w) else st_get m k.
Proof.
  intros Hk. unfold replace_timer_waker. pose proof (Slab.get_mut_get m key) as Hg.
  change (st_get m key) with (Slab.get m key) in Hk. rewrite Hk in Hg.
  destruct (Slab.get_mut m key) as [[v write]|] eqn:E; [|done].
  injection Hg as ->. split; [done|]. intros k. simpl.
  by apply (Slab.get_mut_write m key _ write (Timer e w) k) in E.
Qed.

End lemmas.

End ResourceSlab.
