(* ===== verification/Reactor.v ===== *)
(** * Reactor: the reactor of [lion-reactor/src]

    Timers and I/O resources: [reactor/timer.rs], [register.rs], [waker.rs],
    [park.rs], [ext.rs], [alloc_verified.rs], and the handle of [handle.rs] through
    which the utilities call the reactor.  The record holds the fields of [Reactor]
    (the log included) and the two thread-locals of the crate, the cached clock of
    [handle.rs] and the readiness bytes of [readiness.rs].

    The operating system is an argument: the clock reading, the result of a
    registration, and the answer of the poll to the timeout it is given.  [None] is
    a panic of the source.  [free_rids] is left out: nothing is ever pushed to it. *)

From S2P Require Import Prelude Store Slab VecMap Wheel ReactorLog Readiness ResourceSlab.
Import UtilityLog ResourceSlab.

Module Reactor.

Record Reactor := mkReactor {
  next_resource_id : Z;
  wheel : Wheel.TimerWheel;
  resources : ResourceSlab;
  log : list ReactorLog.ReactorEvent;
  pending_deregister : option (Z * Z);
  cached_now : option Z;
  io_readiness : list Z;
}.

Inductive IoMode := Readable | Writable.

Record IoEvent := mkIoEvent {
  resource_id : Z; mode : IoMode; error : bool; read_closed : bool; write_closed : bool }.

(** What [mio] reports of one source. *)
Record MioEvent := mkMioEvent {
  token : Z; is_readable : bool; is_writable : bool;
  is_error : bool; is_read_closed : bool; is_write_closed : bool }.

Section ops.
Implicit Types (r : Reactor) (rid deadline waker now source : Z) (interest : bool * bool).

Definition set_next r x := mkReactor x (wheel r) (resources r) (log r) (pending_deregister r)
  (cached_now r) (io_readiness r).
Definition set_wheel r x := mkReactor (next_resource_id r) x (resources r) (log r)
  (pending_deregister r) (cached_now r) (io_readiness r).
Definition set_resources r x := mkReactor (next_resource_id r) (wheel r) x (log r)
  (pending_deregister r) (cached_now r) (io_readiness r).
Definition set_log r x := mkReactor (next_resource_id r) (wheel r) (resources r) x
  (pending_deregister r) (cached_now r) (io_readiness r).
Definition set_pending r x := mkReactor (next_resource_id r) (wheel r) (resources r) (log r) x
  (cached_now r) (io_readiness r).
Definition set_cached_now r x := mkReactor (next_resource_id r) (wheel r) (resources r) (log r)
  (pending_deregister r) x (io_readiness r).
Definition set_readiness r x := mkReactor (next_resource_id r) (wheel r) (resources r) (log r)
  (pending_deregister r) (cached_now r) x.

(** The log actions of [ext.rs]: each appends one event. *)
Definition record r (e : ReactorLog.ReactorEvent) : Reactor := set_log r (log r ++ [e]).
Definition inbound r c := record r (ReactorLog.Inbound c).
Definition outbound r c := record r (ReactorLog.Outbound c).

(** [Reactor::new]; the thread-locals are those of a fresh thread. *)
Definition new : Reactor := mkReactor 1 Wheel.new ResourceSlab.new [] None None [].

(** [IoError::resource_id_overflow], as an error code of its own. *)
Definition resource_id_overflow : Z := -1.

Definition alloc_resource_id r : IoResultView Z * Reactor :=
  if (u64_max <=? next_resource_id r)%Z then (Err resource_id_overflow, r)
  else
    let id := next_resource_id r in
    (Ok id, set_next r (next_resource_id r + 1)).

(** ** Timers *)

Definition register_timer r deadline waker : IoResultView Z * Reactor :=
  let r1 := inbound r (ReactorLog.RegisterTimer deadline waker None) in
  let '(result, r3) :=
    match alloc_resource_id r1 with
    | (Ok rid, r2) =>
        let entry := mkTimerEntry deadline rid (length (log r2)) in
        let r2 := set_resources r2 (v_insert_timer_slot (resources r2) rid entry waker) in
        (Ok rid, set_wheel r2 (Wheel.insert (wheel r2) rid deadline))
    | (Err e, r2) => (Err e, r2)
    end in
  (result, inbound r3 (ReactorLog.RegisterTimer deadline waker (Some result))).

(** Removing a timer from the wheel and from the table. *)
Definition drop_timer r rid : Reactor :=
  let r1 := set_wheel r (Wheel.remove (wheel r) rid) in
  set_resources r1 (v_remove_timer_slot (resources r1) rid).

Definition deregister_timer r rid : Reactor :=
  drop_timer (inbound r (ReactorLog.DeregisterTimer rid true)) rid.

Definition next_deadline r : option Z := Wheel.next_deadline (wheel r).

Definition flush_pending_deregister r : Reactor :=
  match pending_deregister r with
  | Some (rid, _) => drop_timer (set_pending r None) rid
  | None => r
  end.

(** ** I/O resources *)

(** [interest_to_mio]: what is passed to the system; [None] of both is readable. *)
Definition interest_to_mio interest : bool * bool :=
  match interest with
  | (true, true) => (true, true)
  | (true, false) => (true, false)
  | (false, true) => (false, true)
  | (false, false) => (true, false)
  end.

Definition encode_token_raw rid : Z := wrap64 rid.
Definition decode_token_raw raw : Z := wrap64 raw.

(** [register_io_source_action]: [os source token interest] is the system's answer. *)
Definition register_io_source_action r source rid interest
    (os : Z → Z → bool * bool → IoResultView unit) : IoResultView unit * Reactor :=
  let result := os source (encode_token_raw rid) (interest_to_mio interest) in
  (result, outbound r (ReactorLog.RegisterIoResource source rid interest result)).

Definition register_io_resource r source interest (os : Z → Z → bool * bool → IoResultView unit) :
    IoResultView Z * Reactor :=
  let r1 := inbound r (ReactorLog.InRegisterIoResource source interest None) in
  let '(result, r4) :=
    match alloc_resource_id r1 with
    | (Ok rid, r2) =>
        match register_io_source_action r2 source rid interest os with
        | (Ok _, r3) => (Ok rid, set_resources r3 (v_insert_io_slot (resources r3) rid))
        | (Err e, r3) => (Err e, r3)
        end
    | (Err e, r2) => (Err e, r2)
    end in
  (result, inbound r4 (ReactorLog.InRegisterIoResource source interest (Some result))).

Definition deregister_io_resource r rid source (os : Z → IoResultView unit) :
    IoResultView unit * Reactor :=
  let r1 := inbound r (ReactorLog.InDeregisterIoResource rid None) in
  let r2 := set_resources r1 (v_remove_io_slot (resources r1) rid) in
  let result := os source in
  let r3 := outbound r2 (ReactorLog.DeregisterIoResource source rid result) in
  (result, inbound r3 (ReactorLog.InDeregisterIoResource rid (Some result))).

Definition set_waker r rid interest waker : option Reactor :=
  let r1 := inbound r (ReactorLog.SetWaker rid interest waker None) in
  m1 ← (if interest.1 then v_set_read_waker (resources r1) rid waker else Some (resources r1));
  m2 ← (if interest.2 then v_set_write_waker m1 rid waker else Some m1);
  let r2 := set_resources r1 m2 in
  Some (inbound r2 (ReactorLog.SetWaker rid interest waker (Some (Ok tt)))).

(** ** Parking *)

(** [get_current_time_action]: the reading is clamped to the wheel's clock. *)
Definition get_current_time_action r (raw : Z) : Z * Reactor :=
  let now := if (Wheel.elapsed (wheel r) <=? raw)%Z then raw else Wheel.elapsed (wheel r) in
  let r1 := set_cached_now r (Some now) in
  (now, outbound r1 (ReactorLog.GetCurrentTime now)).

Definition collect_io_events (es : list MioEvent) : list IoEvent :=
  es ≫= λ e,
    let ev m := mkIoEvent (decode_token_raw (token e)) m (is_error e) (is_read_closed e)
      (is_write_closed e) in
    (if is_readable e then [ev Readable] else []) ++ (if is_writable e then [ev Writable] else []).

Definition poll_events_action r (timeout : option Z)
    (os : option Z → IoResultView (list MioEvent)) : IoResultView (list IoEvent) * Reactor :=
  let result := match os timeout with Ok es => Ok (collect_io_events es) | Err e => Err e end in
  let logged := match result with Ok evs => Ok (length evs) | Err e => Err e end in
  (result, outbound r (ReactorLog.PollEvents timeout logged)).

Definition wake_task_action r waker rid : Reactor := outbound r (ReactorLog.WakeTask waker rid).

Definition try_pop_expired_timer r now : option Z * Reactor :=
  let '(result, w) := Wheel.try_pop_expired (wheel r) now in (result, set_wheel r w).

Fixpoint wake_expired_loop (n : nat) r now : Reactor :=
  match n with
  | 0 => r
  | S n' =>
      match try_pop_expired_timer r now with
      | (None, r1) => r1
      | (Some rid, r1) =>
          match v_take_timer_waker (resources r1) rid with
          | Some waker =>
              let r2 := wake_task_action r1 waker rid in
              let r3 := set_resources r2 (v_remove_timer_slot (resources r2) rid) in
              wake_expired_loop n' r3 now
          | None => wake_expired_loop n' r1 now
          end
      end
  end.

Definition wake_expired_timers r now : Reactor :=
  wake_expired_loop (S (VecMap.count (Wheel.deadlines (wheel r)))) r now.

Definition io_event_view (e : IoEvent) : ReactorLog.IoEventView :=
  ReactorLog.mkIoEventView (resource_id e)
    (match mode e with Readable => true | Writable => false end)
    (match mode e with Readable => false | Writable => true end).

Definition process_io_event r (e : IoEvent) : Reactor :=
  let r1 := outbound r (ReactorLog.IoEventReady (io_event_view e)) in
  let rid := resource_id e in
  let '(r2, waker_opt) :=
    match mode e with
    | Readable => (set_readiness r1 (Readiness.mark_readable (io_readiness r1) rid),
                   v_get_read_waker (resources r1) rid)
    | Writable => (set_readiness r1 (Readiness.mark_writable (io_readiness r1) rid),
                   v_get_write_waker (resources r1) rid)
    end in
  match waker_opt with
  | Some waker => wake_task_action r2 waker rid
  | None => r2
  end.

Definition process_io_events r (es : list IoEvent) : Reactor := foldl process_io_event r es.

Definition effective_timeout (timeout deadline : option Z) now : option Z :=
  match timeout, deadline with
  | Some t, Some d =>
      if (d <=? now)%Z then Some 0%Z
      else
        let timer_ms := (d - now)%Z in
        if (timer_ms <? t)%Z then Some timer_ms else Some t
  | None, Some d => if (d <=? now)%Z then Some 0%Z else Some (d - now)%Z
  | t, None => t
  end.

Definition park r (timeout : option Z) (raw : Z) (os : option Z → IoResultView (list MioEvent)) :
    IoResultView unit * Reactor :=
  let r1 := inbound r (ReactorLog.Park timeout None) in
  let '(now, r2) := get_current_time_action r1 raw in
  let '(poll_result, r3) := poll_events_action r2 (effective_timeout timeout (next_deadline r2) now) os in
  let '(result, r4) :=
    match poll_result with
    | Ok io_events => (Ok tt, process_io_events (wake_expired_timers r3 now) io_events)
    | Err e => (Err e, wake_expired_timers r3 now)
    end in
  (result, inbound r4 (ReactorLog.Park timeout (Some result))).

(** How the executor parks ([park_action] of [lion-executor/src/executor/ext.rs]). *)
Definition flush_and_park r (timeout : option Z) (raw : Z)
    (os : option Z → IoResultView (list MioEvent)) : IoResultView unit * Reactor :=
  park (flush_pending_deregister r) timeout raw os.

(** ** The handle *)

(** [ReactorHandle::register_timer]: a deregistration held back is undone when the
    new timer has the same deadline, and carried out otherwise. *)
Definition handle_register_timer r deadline waker : IoResultView Z * Reactor :=
  match pending_deregister r with
  | Some (rid, old_deadline) =>
      let r1 := set_pending r None in
      if (old_deadline =? deadline)%Z && contains (resources r1) rid then
        (Ok rid, set_resources r1 (replace_timer_waker (resources r1) rid waker).2)
      else register_timer (drop_timer r1 rid) deadline waker
  | None => register_timer r deadline waker
  end.

(** [ReactorHandle::deregister_timer]: at most one deregistration is held back. *)
Definition handle_deregister_timer r rid : Reactor :=
  let r1 := flush_pending_deregister r in
  match Wheel.get_deadline (wheel r1) rid with
  | Some deadline => set_pending r1 (Some (rid, deadline))
  | None => deregister_timer r1 rid
  end.

End ops.

End Reactor.
