(* ===== verification/ReactorInv.v ===== *)
(** * ReactorInv: what the table, the wheel and the clock of the reactor agree on

    [rcore r T I] says that the table and the wheel of [r] hold exactly the timers
    [T] and the I/O resources [I]; [rinv] adds what holds between two calls: the
    wheel's pending list is empty and the three clocks (wheel, cache, log) agree.
    Each lemma is the effect of one internal step on these. *)

From S2P Require Import Prelude Store Slab StoreSpec VecMap Wheel WheelInv WheelOps WheelScan WheelSpec.
From S2P Require Import ReactorLog Readiness ResourceSlab Reactor.
Import UtilityLog ResourceSlab Reactor.

Definition timer_view (s : ResourceSlot) : option (Z * Z) :=
  match s with Timer e w => Some (deadline e, w) | Io _ _ => None end.
Definition io_view (s : ResourceSlot) : option (option Z * option Z) :=
  match s with Timer _ _ => None | Io a b => Some (a, b) end.

Record rcore (r : Reactor) (T : gmap Z (Z * Z)) (I : gmap Z (option Z * option Z)) : Prop := {
  rc_wheel : winv (wheel r);
  rc_queue : Wheel.queue (wheel r) (fst <$> T);
  rc_timers : ∀ k, st_get (resources r) k ≫= timer_view = T !! k;
  rc_ios : ∀ k, st_get (resources r) k ≫= io_view = I !! k;
  rc_ids : ∀ k, is_Some (st_get (resources r) k) → (1 ≤ k < next_resource_id r)%Z;
  rc_next : (1 ≤ next_resource_id r ≤ u64_max)%Z;
  rc_pending : ∀ p d, pending_deregister r = Some (p, d) →
    (1 ≤ p < next_resource_id r)%Z ∧ (st_get (resources r) p = None ∨ ∃ w, T !! p = Some (d, w));
}.

Record rinv (r : Reactor) (T : gmap Z (Z * Z)) (I : gmap Z (option Z * option Z)) : Prop := {
  ri_core : rcore r T I;
  ri_idle : Wheel.pending (wheel r) = [];
  ri_cached : default 0%Z (cached_now r) = Wheel.elapsed (wheel r);
  ri_logged : ReactorLog.max_timestamp (log r) = Wheel.elapsed (wheel r);
}.

Section inv.
Implicit Types (r : Reactor) (T : gmap Z (Z * Z)) (I : gmap Z (option Z * option Z)).
Implicit Types (rid d w now : Z).

(** ** Reading the table *)

Lemma slot_timer r T I k d w :
  rcore r T I → T !! k = Some (d, w) →
  ∃ e, st_get (resources r) k = Some (Timer e w) ∧ deadline e = d.
Proof.
  intros H Hk. rewrite <- (rc_timers _ _ _ H) in Hk.
  destruct (st_get (resources r) k) as [[e w'|]|]; simplify_eq/=; eauto.
Qed.

Lemma slot_io r T I k a b :
  rcore r T I → I !! k = Some (a, b) → st_get (resources r) k = Some (Io a b).
Proof.
  intros H Hk. rewrite <- (rc_ios _ _ _ H) in Hk.
  destruct (st_get (resources r) k) as [[|]|]; by simplify_eq/=.
Qed.

Lemma slot_none r T I k :
  rcore r T I → st_get (resources r) k = None ↔ T !! k = None ∧ I !! k = None.
Proof.
  intros H. rewrite <- (rc_timers _ _ _ H), <- (rc_ios _ _ _ H).
  destruct (st_get (resources r) k) as [[|]|]; naive_solver.
Qed.

Lemma live_id r T I k :
  rcore r T I → is_Some (T !! k) ∨ is_Some (I !! k) → (1 ≤ k < next_resource_id r)%Z.
Proof.
  intros H Hk. apply (rc_ids _ _ _ H).
  destruct (st_get (resources r) k) eqn:E; [done|].
  apply (slot_none _ _ _ _ H) in E as [E1 E2]. rewrite E1, E2 in Hk.
  by destruct Hk as [[]|[]].
Qed.

Lemma fresh_slot r T I :
  rcore r T I → st_get (resources r) (next_resource_id r) = None.
Proof.
  intros H. destruct (st_get _ _) eqn:E; [|done].
  pose proof (rc_ids _ _ _ H _ (mk_is_Some _ _ E)). lia.
Qed.

(** ** Steps that leave timers and resources alone *)

Lemma rcore_frame r r' T I :
  rcore r T I → wheel r' = wheel r → resources r' = resources r →
  next_resource_id r' = next_resource_id r → pending_deregister r' = pending_deregister r →
  rcore r' T I.
Proof. intros [] Hw Hr Hn Hp. split; rewrite ?Hw, ?Hr, ?Hn, ?Hp; done. Qed.

Lemma rcore_record r T I e : rcore r T I → rcore (record r e) T I.
Proof. intros H. by eapply rcore_frame. Qed.

Lemma rinv_record r T I e :
  ReactorLog.current_timestamp e = None → rinv r T I → rinv (record r e) T I.
Proof.
  intros He [H1 H2 H3 H4]. split; [by apply rcore_record|done..|].
  simpl. rewrite ReactorLog.max_timestamp_app, H4. simpl. rewrite He.
  destruct H1 as [(_ & _ & Hu) _ _ _ _ _ _]. u64.
Qed.

Lemma rcore_next r T I :
  rcore r T I → (next_resource_id r < u64_max)%Z →
  rcore (set_next r (next_resource_id r + 1)) T I.
Proof.
  intros [] Hlt. split; simpl; [done..| | |].
  - intros k Hk. specialize (rc_ids0 k Hk). lia.
  - lia.
  - intros p d Hp. specialize (rc_pending0 p d Hp) as [? ?]. split; [lia|done].
Qed.

Lemma rcore_no_pending r T I : rcore r T I → rcore (set_pending r None) T I.
Proof. intros []. by split. Qed.

(** ** Timers *)

Lemma rcore_drop_timer r T I rid :
  rcore r T I → Wheel.pending (wheel r) = [] → I !! rid = None →
  let r' := drop_timer r rid in
  rcore r' (base.delete rid T) I ∧ Wheel.pending (wheel r') = [] ∧
  Wheel.elapsed (wheel r') = Wheel.elapsed (wheel r).
Proof.
  intros H Hp Hio r'. pose proof H as [].
  destruct (remove_winv (wheel r) rid rc_wheel0 (empty_pending _ _ Hp)) as (Hw & Hp' & He & Hd).
  assert (Hg : ∀ k, st_get (resources r') k = if decide (rid = k) then None else st_get (resources r) k).
  { intros k. apply get_remove. }
  split; [|split; [by etrans|done]]. split; simpl.
  - done.
  - rewrite fmap_delete. by eapply queue_delete.
  - intros k. rewrite Hg, lookup_delete. case_decide; [done|apply rc_timers0].
  - intros k. rewrite Hg. case_decide as Hk; [subst; by rewrite Hio|apply rc_ios0].
  - intros k. rewrite Hg. case_decide; [by intros []|apply rc_ids0].
  - done.
  - intros p d Hpd. destruct (rc_pending0 p d Hpd) as [? Hor]. split; [done|].
    rewrite Hg. case_decide as Hk; [by left|]. destruct Hor as [?|[w Hw']]; [by left|right].
    exists w. by rewrite lookup_delete_ne.
Qed.

Lemma rinv_drop_timer r T I rid :
  rinv r T I → I !! rid = None → rinv (drop_timer r rid) (base.delete rid T) I.
Proof.
  intros [H1 H2 H3 H4] Hio. destruct (rcore_drop_timer r T I rid H1 H2 Hio) as (Hc & Hp & He).
  split; [done|done|by rewrite He|by rewrite He].
Qed.

(** Inserting the timer of a fresh id. *)
Lemma rinv_add_timer r T I e w :
  rinv r T I → let rid := ResourceSlab.resource_id e in let d := deadline e in
  st_get (resources r) rid = None → (1 ≤ rid < next_resource_id r)%Z → is_u64 d →
  (Wheel.elapsed (wheel r) < d)%Z → (∀ d', pending_deregister r ≠ Some (rid, d')) →
  let r1 := set_resources r (v_insert_timer_slot (resources r) rid e w) in
  rinv (set_wheel r1 (Wheel.insert (wheel r1) rid d)) (<[rid := (d, w)]> T) I.
Proof.
  intros [H H2 H3 H4] rid d Hs Hr Hu Hlt Hpd r1. pose proof H as [].
  assert (Hrid : is_u64 rid) by u64.
  destruct (insert_winv (wheel r) rid d rc_wheel0 (empty_pending _ _ H2) Hrid Hu Hlt)
    as (Hw & Hp & He & Hd).
  assert (Hg : ∀ k, st_get (resources r1) k =
    if decide (rid = k) then Some (Timer e w) else st_get (resources r) k).
  { intros k. apply get_insert_timer. }
  split; simpl; [|by rewrite Hp|by rewrite He|by rewrite He]. split; simpl.
  - done.
  - rewrite fmap_insert. by eapply queue_insert.
  - intros k. rewrite Hg, lookup_insert. by case_decide.
  - intros k. rewrite Hg. case_decide as Hk; [|done]. subst k. simpl.
    by apply (slot_none _ _ _ _ H) in Hs as [_ ->].
  - intros k. rewrite Hg. case_decide as Hk; [by subst|apply rc_ids0].
  - done.
  - intros p d' Hp'. destruct (rc_pending0 p d' Hp') as [? Hor]. split; [done|].
    assert (p ≠ rid) by (intros ->; by apply (Hpd d')).
    rewrite Hg, decide_False by done. by rewrite lookup_insert_ne.
Qed.

(** ** The expiry loop *)

(** One iteration that finds a timer: its wake is logged and its slot is freed. *)
Lemma rcore_pop r T I now :
  rcore r T I → is_u64 now → (Wheel.elapsed (wheel r) ≤ now)%Z →
  let '(result, r1) := try_pop_expired_timer r now in
  (Wheel.elapsed (wheel r1) ≤ now)%Z ∧
  match result with
  | Some rid => ∃ d w, T !! rid = Some (d, w) ∧ (d ≤ now)%Z ∧
      v_take_timer_waker (resources r1) rid = Some w ∧
      let r2 := wake_task_action r1 w rid in
      rcore (set_resources r2 (v_remove_timer_slot (resources r2) rid)) (base.delete rid T) I
  | None => rcore r1 T I ∧ Wheel.pending (wheel r1) = [] ∧ Wheel.elapsed (wheel r1) = now ∧
      ∀ k d w, T !! k = Some (d, w) → (now < d)%Z
  end.
Proof.
  intros H Hu Hle. pose proof H as []. unfold try_pop_expired_timer.
  pose proof (try_pop_winv (wheel r) now rc_wheel0 Hu Hle) as Hpop.
  destruct (Wheel.try_pop_expired (wheel r) now) as [[rid|] w1].
  - destruct Hpop as (Hw & He & (d & Hd & Hdn) & Hdl). split; [simpl; lia|].
    rewrite (rc_queue0 rid), lookup_fmap in Hd.
    destruct (T !! rid) as [[d' w]|] eqn:HT; [|done]. simpl in Hd. injection Hd as ->.
    exists d, w. split; [done|]. split; [done|].
    destruct (slot_timer _ _ _ _ _ _ H HT) as (e & He' & Hed). split.
    { rewrite take_timer_waker_get. simpl. by rewrite He'. }
    assert (Hg : ∀ k, st_get (v_remove_timer_slot (resources r) rid) k =
      if decide (rid = k) then None else st_get (resources r) k) by (intros; apply get_remove).
    split; simpl; [done|..|done|].
    + rewrite fmap_delete. by eapply queue_delete.
    + intros k. rewrite Hg, lookup_delete. case_decide; [done|apply rc_timers0].
    + intros k. rewrite Hg. case_decide as Hk; [|apply rc_ios0]. subst k.
      rewrite <- rc_ios0, He'. done.
    + intros k. rewrite Hg. case_decide; [by intros []|apply rc_ids0].
    + intros p d' Hpd. destruct (rc_pending0 p d' Hpd) as [? Hor]. split; [done|].
      rewrite Hg. case_decide as Hk; [by left|]. destruct Hor as [?|[w' Hw']]; [by left|right].
      exists w'. by rewrite lookup_delete_ne.
  - destruct Hpop as (Hw & He & Hp & He' & Hdl & Hmin). split; [simpl; lia|].
    split; [|split; [done|split; [done|]]].
    + split; simpl; try done. intros k. rewrite Hdl. apply rc_queue0.
    + intros k d w Hk. apply (Hmin k d). rewrite (rc_queue0 k), lookup_fmap, Hk. done.
Qed.

(** What the loop leaves: the timers still to come. *)
Definition not_due (now : Z) (T : gmap Z (Z * Z)) : gmap Z (Z * Z) :=
  filter (λ kv, (now < kv.2.1)%Z) T.

Lemma not_due_lookup now T k d w :
  not_due now T !! k = Some (d, w) ↔ T !! k = Some (d, w) ∧ (now < d)%Z.
Proof. unfold not_due. by rewrite map_lookup_filter_Some. Qed.

Lemma not_due_delete now T k d w :
  T !! k = Some (d, w) → (d ≤ now)%Z → not_due now (base.delete k T) = not_due now T.
Proof.
  intros Hk Hd. apply map_eq. intros j. apply option_eq. intros [d' w'].
  rewrite !not_due_lookup, lookup_delete_Some. split; [naive_solver|].
  intros [Hj Hlt]. split; [|done]. split; [|done]. intros ->. simplify_eq. lia.
Qed.

Lemma not_due_all now T : (∀ k d w, T !! k = Some (d, w) → (now < d)%Z) → not_due now T = T.
Proof.
  intros H. apply map_eq. intros j. apply option_eq. intros [d w].
  rewrite not_due_lookup. naive_solver.
Qed.

(** The wakes of the loop: every due timer once, and nothing else. *)
Definition due_wakes (now : Z) (T : gmap Z (Z * Z)) (ws : list (Z * Z)) : Prop :=
  NoDup (snd <$> ws) ∧ ∀ w rid, (w, rid) ∈ ws ↔ ∃ d, T !! rid = Some (d, w) ∧ (d ≤ now)%Z.

Definition wake_events (ws : list (Z * Z)) : list ReactorLog.ReactorEvent :=
  (λ x, ReactorLog.Outbound (ReactorLog.WakeTask x.1 x.2)) <$> ws.

Definition same_rest r r' : Prop :=
  next_resource_id r' = next_resource_id r ∧ pending_deregister r' = pending_deregister r ∧
  cached_now r' = cached_now r ∧ io_readiness r' = io_readiness r.

Lemma wake_expired_loop_spec n r T I now :
  rcore r T I → is_u64 now → (Wheel.elapsed (wheel r) ≤ now)%Z → size T < n →
  let r' := wake_expired_loop n r now in
  ∃ ws, log r' = log r ++ wake_events ws ∧ due_wakes now T ws ∧ rcore r' (not_due now T) I ∧
    Wheel.pending (wheel r') = [] ∧ Wheel.elapsed (wheel r') = now ∧ same_rest r r'.
Proof.
  revert r T. induction n as [|n IH]; intros r T H Hu Hle Hn; [lia|]. simpl.
  pose proof (rcore_pop r T I now H Hu Hle) as Hpop. unfold try_pop_expired_timer in *.
  destruct (Wheel.try_pop_expired (wheel r) now) as [[rid|] w1].
  - destruct Hpop as (He & d & w & HT & Hd & -> & Hc).
    set (r3 := set_resources _ _) in *.
    assert (Hsz : size (base.delete rid T) < n).
    { rewrite map_size_delete, HT. assert (size T ≠ 0); [|lia].
      intros Hz. apply map_size_empty_inv in Hz. by rewrite Hz in HT. }
    destruct (IH r3 _ Hc Hu He Hsz) as (ws & Hlog & [Hnd Hws] & Hcore & Hp & Hel & Hsame).
    exists ((w, rid) :: ws). split.
    { rewrite Hlog. simpl. by rewrite <- app_assoc. }
    split.
    { split.
      - rewrite fmap_cons. constructor; [|done]. simpl. intros ([w' rid'] & Heq & Hin)%list_elem_of_fmap.
        simpl in Heq. subst rid'. apply Hws in Hin as (d' & Hl & _). by rewrite lookup_delete_eq in Hl.
      - intros w' rid'. rewrite elem_of_cons, Hws. setoid_rewrite lookup_delete_Some.
        split; [naive_solver|]. intros (d' & Hl & Hd'). destruct (decide (rid = rid')); naive_solver. }
    split; [by rewrite (not_due_delete _ _ _ _ _ HT Hd) in Hcore|]. done.
  - destruct Hpop as (He & Hc & Hp & Hel & Hall). exists []. rewrite app_nil_r.
    split; [done|]. split; [|by rewrite not_due_all].
    split; [constructor|]. intros w rid. split; [by intros ?%not_elem_of_nil|].
    intros (d & Hd & Hle'). specialize (Hall _ _ _ Hd). lia.
Qed.

Lemma wheel_count r T I :
  rcore r T I → VecMap.count (Wheel.deadlines (wheel r)) = size T.
Proof.
  intros H. rewrite (count_size _ (fst <$> T)); [by rewrite map_size_fmap| |apply (rc_queue _ _ _ H)].
  apply (rc_wheel _ _ _ H).
Qed.

Lemma wake_expired_timers_spec r T I now :
  rcore r T I → is_u64 now → (Wheel.elapsed (wheel r) ≤ now)%Z →
  let r' := wake_expired_timers r now in
  ∃ ws, log r' = log r ++ wake_events ws ∧ due_wakes now T ws ∧ rcore r' (not_due now T) I ∧
    Wheel.pending (wheel r') = [] ∧ Wheel.elapsed (wheel r') = now ∧ same_rest r r'.
Proof.
  intros H Hu Hle. apply wake_expired_loop_spec; [done..|]. rewrite (wheel_count _ _ _ H). lia.
Qed.

End inv.
