(* ===== verification/ReactorOps.v ===== *)
(** * ReactorOps: what each call of the reactor does to its invariant *)

From S2P Require Import Prelude Store Slab VecMap Wheel WheelInv WheelOps WheelScan WheelSpec.
From S2P Require Import ReactorLog Readiness ResourceSlab Reactor ReactorInv.
Import UtilityLog ResourceSlab Reactor.

Section ops.
Implicit Types (r : Reactor) (T : gmap Z (Z * Z)) (I : gmap Z (option Z * option Z)).
Implicit Types (rid d w now source : Z) (interest : bool * bool).

(** ** Registering and deregistering timers *)

Lemma rinv_next r T I :
  rinv r T I → (next_resource_id r < u64_max)%Z →
  rinv (set_next r (next_resource_id r + 1)) T I.
Proof. intros [] ?. split; try done. by apply rcore_next. Qed.

Lemma register_timer_spec r T I d w :
  rinv r T I → pending_deregister r = None → is_u64 d → (Wheel.elapsed (wheel r) < d)%Z →
  let '(result, r') := register_timer r d w in
  let id := next_resource_id r in
  Wheel.elapsed (wheel r') = Wheel.elapsed (wheel r) ∧ pending_deregister r' = None ∧
  if (u64_max <=? id)%Z
  then result = Err resource_id_overflow ∧ rinv r' T I ∧ next_resource_id r' = id
  else result = Ok id ∧ rinv r' (<[id := (d, w)]> T) I ∧ next_resource_id r' = (id + 1)%Z ∧
       T !! id = None ∧ I !! id = None.
Proof.
  intros H Hp Hu Hlt. unfold register_timer, alloc_resource_id. simpl (next_resource_id (inbound _ _)).
  assert (H1 : rinv (inbound r (ReactorLog.RegisterTimer d w None)) T I) by by apply rinv_record.
  destruct (Z.leb_spec u64_max (next_resource_id r)) as [Hmax|Hmax]; simpl.
  - split; [done|]. split; [done|]. split; [done|]. split; [|done]. by apply rinv_record.
  - set (r2 := set_next _ _).
    assert (H2 : rinv r2 T I).
    { by apply (rinv_next _ _ _ H1). }
    assert (He : Wheel.elapsed (Wheel.insert (wheel r) (next_resource_id r) d) = Wheel.elapsed (wheel r)).
    { destruct H as [[Hw _ _ _ _ Hn _] Hi _ _].
      assert (Hr : is_u64 (next_resource_id r)) by u64.
      by destruct (insert_winv (wheel r) _ d Hw (empty_pending _ _ Hi) Hr Hu Hlt) as (_ & _ & ? & _). }
    pose proof (fresh_slot _ _ _ (ri_core _ _ _ H)) as Hs.
    split; [done|]. split; [done|]. split; [done|]. split; [|split; [done|]].
    + apply rinv_record; [done|].
      pose proof (rinv_add_timer r2 T I (mkTimerEntry d (next_resource_id r) (length (log r2))) w H2) as Ha.
      simpl in Ha. apply Ha; [done| |done..|].
      * pose proof (rc_next _ _ _ (ri_core _ _ _ H)). lia.
      * intros d'. unfold r2. simpl. by rewrite Hp.
    + by apply (slot_none _ _ _ _ (ri_core _ _ _ H)).
Qed.

(** The timers that the callers of the handle still hold: all but the one whose
    deregistration is held back. *)
Definition live r T : gmap Z (Z * Z) :=
  match pending_deregister r with Some (p, _) => base.delete p T | None => T end.

Lemma pending_not_io r T I p d :
  rcore r T I → pending_deregister r = Some (p, d) → I !! p = None.
Proof.
  intros H Hp. destruct (rc_pending _ _ _ H p d Hp) as [_ [Hs|[w Hw]]].
  - by apply (slot_none _ _ _ _ H) in Hs as [_ ?].
  - apply (slot_timer _ _ _ _ _ _ H) in Hw as (e & He & _). by rewrite <- (rc_ios _ _ _ H), He.
Qed.

Lemma rinv_no_pending r T I : rinv r T I → rinv (set_pending r None) T I.
Proof. intros []. split; try done. by apply rcore_no_pending. Qed.

Lemma flush_spec r T I :
  rinv r T I → let r' := flush_pending_deregister r in
  rinv r' (live r T) I ∧ pending_deregister r' = None ∧
  next_resource_id r' = next_resource_id r ∧ Wheel.elapsed (wheel r') = Wheel.elapsed (wheel r) ∧
  log r' = log r ∧ io_readiness r' = io_readiness r.
Proof.
  intros H. unfold flush_pending_deregister, live.
  destruct (pending_deregister r) as [[p d]|] eqn:Hp; [|done].
  pose proof (rinv_no_pending _ _ _ H) as H1.
  assert (Hio := pending_not_io _ _ _ _ _ (ri_core _ _ _ H) Hp).
  split; [by apply rinv_drop_timer|]. split; [done|]. split; [done|].
  by destruct (rcore_drop_timer _ _ _ p (ri_core _ _ _ H1) (ri_idle _ _ _ H1) Hio) as (_ & _ & ?).
Qed.

(** Undoing a held-back deregistration: the timer stays, with the new waker. *)
Lemma reuse_spec r T I p d w :
  rinv r T I → pending_deregister r = Some (p, d) → contains (resources r) p = true →
  let r1 := set_pending r None in
  rinv (set_resources r1 (replace_timer_waker (resources r1) p w).2) (<[p := (d, w)]> T) I.
Proof.
  intros H Hp Hc r1. apply bool_decide_eq_true_1 in Hc. destruct H as [H ? ? ?].
  destruct (rc_pending _ _ _ H p d Hp) as [Hr [Hs|[w0 Hw0]]]; [rewrite Hs in Hc; by destruct Hc|].
  destruct (slot_timer _ _ _ _ _ _ H Hw0) as (e & He & Hd).
  destruct (replace_timer_waker_get (resources r) p w e w0 He) as [_ Hg].
  split; try done. pose proof H as []. split; simpl; try done.
  - rewrite fmap_insert, insert_id; [done|]. by rewrite lookup_fmap, Hw0.
  - intros k. rewrite Hg, lookup_insert. case_decide; [simpl; by subst|done].
  - intros k. rewrite Hg. case_decide; [subst k; by rewrite <- rc_ios, He|done].
  - intros k. rewrite Hg. case_decide; [by subst|apply rc_ids].
Qed.

Lemma deregister_timer_spec r T I rid :
  rinv r T I → I !! rid = None → let r' := deregister_timer r rid in
  rinv r' (base.delete rid T) I ∧ Wheel.elapsed (wheel r') = Wheel.elapsed (wheel r).
Proof.
  intros H Hio. unfold deregister_timer.
  assert (H1 : rinv (inbound r (ReactorLog.DeregisterTimer rid true)) T I) by by apply rinv_record.
  split; [by apply rinv_drop_timer|].
  by destruct (rcore_drop_timer _ _ _ rid (ri_core _ _ _ H1) (ri_idle _ _ _ H1) Hio) as (_ & _ & ?).
Qed.

(** ** I/O resources *)

(** Only the I/O resources of the table change. *)
Lemma rinv_resources r m T I I' :
  rinv r T I →
  (∀ k, st_get m k ≫= timer_view = T !! k) → (∀ k, st_get m k ≫= io_view = I' !! k) →
  (∀ k, is_Some (st_get m k) → (1 ≤ k < next_resource_id r)%Z) →
  (∀ k, I !! k = None → st_get (resources r) k = None → (∀ d, pending_deregister r ≠ Some (k, d)) ∨ st_get m k = None) →
  rinv (set_resources r m) T I'.
Proof.
  intros [H ? ? ?] Ht Hi Hid Hk. split; try done. pose proof H as []. split; simpl; try done.
  intros p d Hp. destruct (rc_pending p d Hp) as [? [Hs|?]]; (split; [done|]); [|by right].
  left. destruct (Hk p) as [Hno|]; [by eapply pending_not_io|done|by destruct (Hno d)|done].
Qed.

Lemma insert_io_spec r T I rid :
  rinv r T I → st_get (resources r) rid = None → (1 ≤ rid < next_resource_id r)%Z →
  (∀ d, pending_deregister r ≠ Some (rid, d)) →
  rinv (set_resources r (v_insert_io_slot (resources r) rid)) T (<[rid := (None, None)]> I).
Proof.
  intros H Hs Hr Hp. pose proof (ri_core _ _ _ H) as Hc. pose proof Hc as [].
  eapply rinv_resources; [done|..]; intros k; rewrite get_insert_io.
  - case_decide as Hk; [|done]. subst k. symmetry. by apply (slot_none _ _ _ _ Hc) in Hs as [-> _].
  - rewrite lookup_insert. by case_decide.
  - case_decide; [by subst|apply rc_ids].
  - case_decide as Hk; [subst k; by left|by right].
Qed.

Lemma remove_io_spec r T I rid :
  rinv r T I → is_Some (I !! rid) →
  rinv (set_resources r (v_remove_io_slot (resources r) rid)) T (base.delete rid I).
Proof.
  intros H [[a b] Hio]. pose proof (ri_core _ _ _ H) as Hc. pose proof Hc as [].
  pose proof (slot_io _ _ _ _ _ _ Hc Hio) as Hs.
  eapply rinv_resources; [done|..]; intros k; unfold v_remove_io_slot; rewrite get_remove.
  - case_decide as Hk; [|done]. subst k. by rewrite <- rc_timers, Hs.
  - rewrite lookup_delete. by case_decide.
  - case_decide; [by intros []|apply rc_ids].
  - case_decide; [by right|by right].
Qed.

(** Overwriting a slot of an I/O resource. *)
Lemma rinv_put_io r m T I rid a b a' b' :
  rinv r T I → I !! rid = Some (a, b) →
  (∀ k, st_get m k = if decide (rid = k) then Some (Io a' b') else st_get (resources r) k) →
  rinv (set_resources r m) T (<[rid := (a', b')]> I).
Proof.
  intros H Hio Hm. pose proof (ri_core _ _ _ H) as Hc. pose proof Hc as [].
  pose proof (slot_io _ _ _ _ _ _ Hc Hio) as Hs.
  eapply rinv_resources; [done|..]; intros k; rewrite Hm.
  - case_decide as Hk; [|done]. subst k. by rewrite <- rc_timers, Hs.
  - rewrite lookup_insert. by case_decide.
  - case_decide; [subst; intros _; apply rc_ids; by rewrite Hs|apply rc_ids].
  - case_decide; [subst; by rewrite Hio|by right].
Qed.

(** What [set_waker] leaves in the slot. *)
Definition with_wakers interest w (ab : option Z * option Z) : option Z * option Z :=
  (if interest.1 then Some w else ab.1, if interest.2 then Some w else ab.2).

Lemma set_waker_spec r T I rid interest w ab :
  rinv r T I → I !! rid = Some ab →
  ∃ r', set_waker r rid interest w = Some r' ∧
    rinv r' T (<[rid := with_wakers interest w ab]> I) ∧
    next_resource_id r' = next_resource_id r ∧ pending_deregister r' = pending_deregister r ∧
    wheel r' = wheel r.
Proof.
  destruct ab as [a b]. destruct interest as [ri wi]. intros H Hio. unfold set_waker.
  set (r1 := inbound r _). assert (H1 : rinv r1 T I) by by apply rinv_record.
  pose proof (slot_io _ _ _ _ _ _ (ri_core _ _ _ H1) Hio) as Hs. simpl (fst _). simpl (snd _).
  assert (∃ m1, (if ri then v_set_read_waker (resources r1) rid w else Some (resources r1)) = Some m1 ∧
    ∀ k, st_get m1 k = if decide (rid = k) then Some (Io (if ri then Some w else a) b)
                       else st_get (resources r1) k) as (m1 & -> & Hm1).
  { destruct ri; [by eapply get_set_read|]. eexists. split; [done|]. intros k. case_decide; [by subst|done]. }
  cbn [mbind option_bind].
  assert (∃ m2, (if wi then v_set_write_waker m1 rid w else Some m1) = Some m2 ∧
    ∀ k, st_get m2 k = if decide (rid = k) then Some (Io (if ri then Some w else a) (if wi then Some w else b))
                       else st_get (resources r1) k) as (m2 & -> & Hm2).
  { assert (Hr : st_get m1 rid = Some (Io (if ri then Some w else a) b)) by by rewrite Hm1, decide_True.
    destruct wi; [|by eexists]. destruct (get_set_write _ _ w _ _ Hr) as (m2 & Hm2 & Hg).
    exists m2. split; [done|]. intros k. rewrite Hg, Hm1. by case_decide. }
  cbn [mbind option_bind].
  eexists. split; [done|]. split; [|done]. apply rinv_record; [done|]. by eapply rinv_put_io.
Qed.

(** ** Parking *)

Lemma effective_timeout_spec timeout deadline now (P : Z → Prop) :
  (∀ t, timeout = Some t → (0 ≤ t)%Z) → is_min deadline P →
  is_min (effective_timeout timeout deadline now)
    (λ t, timeout = Some t ∨ ∃ d, P d ∧ t = Z.max 0 (d - now)).
Proof.
  intros Ht Hm. unfold effective_timeout.
  destruct timeout as [t|], deadline as [d|]; simpl in *.
  - specialize (Ht t eq_refl). destruct Hm as [Hd Hlow].
    destruct (Z.leb_spec d now); [|destruct (Z.ltb_spec (d - now) t)]; simpl; (split; [|intros x [[= ->]|(d' & Hd' & ->)]; [|specialize (Hlow d' Hd')]; lia]).
    + right. exists d. split; [done|lia].
    + right. exists d. split; [done|lia].
    + by left.
  - specialize (Ht t eq_refl). split; [by left|]. intros x [[= ->]|(d' & Hd' & _)]; [lia|by destruct (Hm d')].
  - destruct Hm as [Hd Hlow].
    case_cmp; simpl; (split; [right; exists d; split; [done|lia]|
      intros x [?|(d' & Hd' & ->)]; [done|specialize (Hlow d' Hd'); lia]]).
  - intros x [?|(d' & Hd' & _)]; [done|by destruct (Hm d')].
Qed.

Lemma next_deadline_spec r T I :
  rcore r T I → is_min (next_deadline r) (λ d, ∃ k w, T !! k = Some (d, w)).
Proof.
  intros []. eapply is_min_equiv; [|by apply next_deadline_min]. intros d. simpl.
  split; intros [k Hk]; [rewrite (rc_queue k), lookup_fmap in Hk|].
  - destruct (T !! k) as [[d' w]|] eqn:E; simplify_eq/=. by exists k, w.
  - destruct Hk as [w Hk]. exists k. by rewrite (rc_queue k), lookup_fmap, Hk.
Qed.

(** The waker that an event of the system reaches. *)
Definition io_waker I (e : IoEvent) : option Z :=
  I !! resource_id e ≫= (match mode e with Readable => fst | Writable => snd end).

Definition io_events I (e : IoEvent) : list ReactorLog.ReactorEvent :=
  ReactorLog.Outbound (ReactorLog.IoEventReady (io_event_view e)) ::
  match io_waker I e with
  | Some w => [ReactorLog.Outbound (ReactorLog.WakeTask w (resource_id e))]
  | None => []
  end.

Lemma process_io_event_spec r T I e :
  rcore r T I → let r' := process_io_event r e in
  log r' = log r ++ io_events I e ∧ rcore r' T I ∧ wheel r' = wheel r ∧
  next_resource_id r' = next_resource_id r ∧ pending_deregister r' = pending_deregister r ∧
  cached_now r' = cached_now r.
Proof.
  intros H. unfold process_io_event, io_events, io_waker.
  destruct (mode e); simpl; rewrite ?get_read_waker_get, ?get_write_waker_get;
    rewrite <- (rc_ios _ _ _ H);
    (destruct (st_get (resources r) (resource_id e)) as [[|[x|] [y|]]|]; simpl);
    rewrite <- ?app_assoc; (split; [done|]); (split; [by eapply rcore_frame|done]).
Qed.

Lemma process_io_events_spec r T I es :
  rcore r T I → let r' := process_io_events r es in
  log r' = log r ++ (es ≫= io_events I) ∧ rcore r' T I ∧ wheel r' = wheel r ∧
  next_resource_id r' = next_resource_id r ∧ pending_deregister r' = pending_deregister r ∧
  cached_now r' = cached_now r.
Proof.
  revert r. induction es as [|e es IH]; intros r H; simpl; [by rewrite app_nil_r|].
  destruct (process_io_event_spec r T I e H) as (Hl & Hc & Hw & Hn & Hp & Hca).
  destruct (IH _ Hc) as (Hl' & Hc' & Hw' & Hn' & Hp' & Hca').
  unfold process_io_events in *. simpl.
  rewrite Hl', Hl, Hw', Hn', Hp', Hca', <- app_assoc. done.
Qed.

(** The whole cycle, as the events it logs. *)
Definition park_log timeout now (to : option Z) (ws : list (Z * Z)) I
    (answer : IoResultView (list MioEvent)) : list ReactorLog.ReactorEvent :=
  let n := match answer with Ok es => Ok (length (collect_io_events es)) | Err e => Err e end in
  [ReactorLog.Inbound (ReactorLog.Park timeout None);
   ReactorLog.Outbound (ReactorLog.GetCurrentTime now);
   ReactorLog.Outbound (ReactorLog.PollEvents to n)] ++
  wake_events ws ++
  match answer with Ok es => collect_io_events es ≫= io_events I | Err _ => [] end ++
  [ReactorLog.Inbound (ReactorLog.Park timeout
     (Some match answer with Ok _ => Ok tt | Err e => Err e end))].

Lemma current_timestamp_wakes ws : ReactorLog.max_timestamp (wake_events ws) = 0%Z.
Proof. apply ReactorLog.max_timestamp_none. by intros e ([? ?] & -> & _)%list_elem_of_fmap. Qed.

Lemma current_timestamp_io I es : ReactorLog.max_timestamp (es ≫= io_events I) = 0%Z.
Proof.
  apply ReactorLog.max_timestamp_none. intros e (ev & He & _)%list_elem_of_bind.
  unfold io_events in He. destruct (io_waker I ev); set_solver.
Qed.

Lemma reactor_park_spec r T I timeout raw os :
  rinv r T I → is_u64 raw → (∀ t, timeout = Some t → (0 ≤ t)%Z) →
  let '(result, r') := park r timeout raw os in
  let now := Z.max (Wheel.elapsed (wheel r)) raw in
  ∃ to ws,
    is_min to (λ t, timeout = Some t ∨ ∃ k d w, T !! k = Some (d, w) ∧ t = Z.max 0 (d - now)) ∧
    due_wakes now T ws ∧ log r' = log r ++ park_log timeout now to ws I (os to) ∧
    result = match os to with Ok _ => Ok tt | Err e => Err e end ∧
    rinv r' (not_due now T) I ∧ Wheel.elapsed (wheel r') = now ∧
    next_resource_id r' = next_resource_id r ∧ pending_deregister r' = pending_deregister r.
Proof.
  intros H Hu Ht. unfold park. set (r1 := inbound r _).
  assert (H1 : rinv r1 T I) by by apply rinv_record.
  unfold get_current_time_action. cbv zeta. simpl (wheel r1).
  set (now := if (_ <=? _)%Z then _ else _).
  assert (Hnow : now = Z.max (Wheel.elapsed (wheel r)) raw) by (unfold now; case_cmp; lia).
  assert (Hun : is_u64 now).
  { pose proof (rc_wheel _ _ _ (ri_core _ _ _ H)) as (_ & _ & ?). rewrite Hnow. u64. }
  set (r2 := outbound (set_cached_now r1 (Some now)) _). unfold poll_events_action.
  set (to := effective_timeout _ _ _). cbv zeta. set (r3 := outbound r2 _).
  assert (H3 : rcore r3 T I) by by eapply rcore_frame; [apply (ri_core _ _ _ H)|..].
  destruct (wake_expired_timers_spec r3 T I now H3 Hun) as (ws & Hl & Hd & Hc & Hp & He & Hn & Hpd & Hca & _).
  { simpl. lia. }
  set (r4 := wake_expired_timers r3 now) in *. rewrite <- Hnow.
  assert (Hto : is_min to (λ t, timeout = Some t ∨ ∃ k d w, T !! k = Some (d, w) ∧ t = Z.max 0 (d - now))).
  { assert (H2 : rcore r2 T I) by by eapply rcore_frame; [apply (ri_core _ _ _ H)|..].
    eapply is_min_equiv; [|exact (effective_timeout_spec _ _ now _ Ht (next_deadline_spec r2 T I H2))].
    intros t. simpl. naive_solver. }
  assert (Hlog3 : log r3 = log r ++ [ReactorLog.Inbound (ReactorLog.Park timeout None);
    ReactorLog.Outbound (ReactorLog.GetCurrentTime now);
    ReactorLog.Outbound (ReactorLog.PollEvents to
      match os to with Ok es => Ok (length (collect_io_events es)) | Err e => Err e end)]).
  { simpl. rewrite <- !app_assoc. by destruct (os to). }
  assert (Hmax : ReactorLog.max_timestamp (log r4) = now).
  { rewrite Hl, ReactorLog.max_timestamp_app, current_timestamp_wakes, Hlog3, ReactorLog.max_timestamp_app,
      (ri_logged _ _ _ H). simpl. pose proof (rc_wheel _ _ _ (ri_core _ _ _ H)) as (_ & _ & ?). u64. }
  destruct (os to) as [es|e] eqn:Eos.
  - destruct (process_io_events_spec r4 _ I (collect_io_events es) Hc) as (Hl5 & Hc5 & Hw5 & Hn5 & Hp5 & Hca5).
    set (r5 := process_io_events _ _) in *. exists to, ws. split; [done|]. split; [done|].
    rewrite Eos. split; [|split; [done|split; [apply rinv_record; [done|split]|]]].
    + simpl. rewrite Hl5, Hl, Hlog3. unfold park_log. by rewrite <- !app_assoc.
    + done.
    + by rewrite Hw5.
    + by rewrite Hw5, Hca5, Hca, He.
    + rewrite Hl5, ReactorLog.max_timestamp_app, current_timestamp_io, Hmax, Hw5, He. u64.
    + simpl. by rewrite Hw5, Hn5, Hp5.
  - exists to, ws. split; [done|]. split; [done|]. rewrite Eos.
    split; [|split; [done|split; [apply rinv_record; [done|split]|done]]]; [|done..| |].
    + simpl. rewrite Hl, Hlog3. unfold park_log. by rewrite <- !app_assoc.
    + by rewrite Hca, He.
    + by rewrite Hmax, He.
Qed.

End ops.
