(* ===== verification/ReactorSpec.v ===== *)
(** * ReactorSpec: the reactor as a timer and I/O service

    [service] is what the callers of the reactor rely on: which timers and I/O
    resources exist, with their wakers.  Deregistering removes at once; that the
    handle may hold one deregistration back, and undo it for a new timer with the
    same deadline, does not show.  [reactor_refines_service] says so for every run
    of calls, and what a parked thread is given: exactly the due timers wake, each
    once, and each event of the system wakes the waker of its resource. *)

From S2P Require Import Prelude Store Slab VecMap Wheel WheelInv WheelOps WheelScan WheelSpec.
From S2P Require Import ReactorLog Readiness ResourceSlab Reactor ReactorInv ReactorOps.
Import UtilityLog ResourceSlab Reactor.

(** ** Calls and answers *)

Inductive call :=
  | RegisterTimer (deadline waker : Z)
  | DeregisterTimer (rid : Z)
  | RegisterIo (source : Z) (interest : bool * bool) (os : Z → Z → bool * bool → IoResultView unit)
  | DeregisterIo (rid source : Z) (os : Z → IoResultView unit)
  | SetWaker (rid : Z) (interest : bool * bool) (waker : Z)
  | Park (timeout : option Z) (raw : Z) (os : option Z → IoResultView (list MioEvent)).

(** A parked thread observes the timeouts it polled with and the wakes. *)
Inductive answer :=
  | Id (result : IoResultView Z)
  | Done (result : IoResultView unit)
  | Parked (polls : list (option Z)) (wakes : list (Z * Z)) (result : IoResultView unit).

Definition poll_events (e : ReactorLog.ReactorEvent) : option (option Z) :=
  match e with ReactorLog.Outbound (ReactorLog.PollEvents t _) => Some t | _ => None end.

(** What a call adds to the log. *)
Definition new_events (r r' : Reactor) : list ReactorLog.ReactorEvent := drop (length (log r)) (log r').

(** One call, as the utilities and the executor make it; [None] is a panic. *)
Definition rstep (r : Reactor) (c : call) : option (answer * Reactor) :=
  match c with
  | RegisterTimer d w => let '(a, r') := handle_register_timer r d w in Some (Id a, r')
  | DeregisterTimer rid => Some (Done (Ok tt), handle_deregister_timer r rid)
  | RegisterIo source interest os =>
      let '(a, r') := register_io_resource r source interest os in Some (Id a, r')
  | DeregisterIo rid source os =>
      let '(a, r') := deregister_io_resource r rid source os in Some (Done a, r')
  | SetWaker rid interest w => r' ← set_waker r rid interest w; Some (Done (Ok tt), r')
  | Park timeout raw os =>
      let '(a, r') := flush_and_park r timeout raw os in
      Some (Parked (omap poll_events (new_events r r')) (ReactorLog.wakes (new_events r r')) a, r')
  end.

Fixpoint rrun (r : Reactor) (cs : list call) : option (list answer * Reactor) :=
  match cs with
  | [] => Some ([], r)
  | c :: cs' =>
      '(a, r1) ← rstep r c;
      '(rest, r2) ← rrun r1 cs';
      Some (a :: rest, r2)
  end.

(** ** The service *)

Record service := mkService {
  timers : gmap Z (Z * Z);
  ios : gmap Z (option Z * option Z);
  clock : Z;
  issued : Z;
  spare : option Z;
}.

(** [issued] is the next fresh id, and [spare] an id whose timer was deregistered
    and which the next registration may get again. *)

(** The wakes of a list of events of the system. *)
Definition io_wakes (I : gmap Z (option Z * option Z)) (es : list MioEvent) : list (Z * Z) :=
  collect_io_events es ≫= λ e, match io_waker I e with Some w => [(w, resource_id e)] | None => [] end.

(** The call sleeps until the first deadline, or as long as it was told. *)
Definition sleeps_for (T : gmap Z (Z * Z)) (timeout : option Z) (now : Z) (to : option Z) : Prop :=
  is_min to (λ t, timeout = Some t ∨ ∃ k d w, T !! k = Some (d, w) ∧ t = Z.max 0 (d - now)).

Inductive sstep : service → call → answer → service → Prop :=
  | S_register_timer T I c i sp d w :
      T !! i = None → I !! i = None → (i < u64_max)%Z →
      sstep (mkService T I c i sp) (RegisterTimer d w) (Id (Ok i))
        (mkService (<[i := (d, w)]> T) I c (i + 1) None)
  | S_register_again T I c i d w rid :
      T !! rid = None → I !! rid = None → (1 ≤ rid < i)%Z →
      sstep (mkService T I c i (Some rid)) (RegisterTimer d w) (Id (Ok rid))
        (mkService (<[rid := (d, w)]> T) I c i None)
  | S_timer_ids_exhausted T I c sp d w :
      sstep (mkService T I c u64_max sp) (RegisterTimer d w) (Id (Err resource_id_overflow))
        (mkService T I c u64_max None)
  | S_deregister_timer T I c i sp rid :
      sstep (mkService T I c i sp) (DeregisterTimer rid) (Done (Ok tt))
        (mkService (base.delete rid T) I c i ((λ _, rid) <$> T !! rid))
  | S_register_io T I c i sp source interest os :
      T !! i = None → I !! i = None → (i < u64_max)%Z →
      sstep (mkService T I c i sp) (RegisterIo source interest os)
        (Id match os source i (interest_to_mio interest) with Ok _ => Ok i | Err e => Err e end)
        (mkService T
          match os source i (interest_to_mio interest) with
          | Ok _ => <[i := (None, None)]> I
          | Err _ => I
          end c (i + 1) sp)
  | S_io_ids_exhausted T I c sp source interest os :
      sstep (mkService T I c u64_max sp) (RegisterIo source interest os) (Id (Err resource_id_overflow))
        (mkService T I c u64_max sp)
  | S_deregister_io T I c i sp rid source os :
      sstep (mkService T I c i sp) (DeregisterIo rid source os) (Done (os source))
        (mkService T (base.delete rid I) c i sp)
  | S_set_waker T I c i sp rid interest w ab :
      I !! rid = Some ab →
      sstep (mkService T I c i sp) (SetWaker rid interest w) (Done (Ok tt))
        (mkService T (<[rid := with_wakers interest w ab]> I) c i sp)
  | S_park T I c i sp timeout raw os to ws :
      let now := Z.max c raw in
      sleeps_for T timeout now to → due_wakes now T ws →
      sstep (mkService T I c i sp) (Park timeout raw os)
        (Parked [to] (ws ++ match os to with Ok es => io_wakes I es | Err _ => [] end)
          match os to with Ok _ => Ok tt | Err e => Err e end)
        (mkService (not_due now T) I now i None).

Inductive srun : service → list call → list answer → service → Prop :=
  | srun_nil t : srun t [] [] t
  | srun_cons t c a t1 cs rest t2 :
      sstep t c a t1 → srun t1 cs rest t2 → srun t (c :: cs) (a :: rest) t2.

(** What the callers see to: a deadline after the last clock reading, and ids of
    the right kind.  Readings and timeouts are machine words. *)
Definition call_allowed (t : service) (c : call) : Prop :=
  match c with
  | RegisterTimer d _ => is_u64 d ∧ (clock t < d)%Z
  | DeregisterTimer rid => ios t !! rid = None
  | RegisterIo _ _ _ => True
  | DeregisterIo rid _ _ => is_Some (ios t !! rid)
  | SetWaker rid _ _ => is_Some (ios t !! rid)
  | Park timeout raw _ => is_u64 raw ∧ ∀ d, timeout = Some d → (0 ≤ d)%Z
  end.

(** The whole run is allowed, whichever ids the service chose. *)
Inductive run_allowed : service → list call → Prop :=
  | run_allowed_nil t : run_allowed t []
  | run_allowed_cons t c cs :
      call_allowed t c → (∀ a t', sstep t c a t' → run_allowed t' cs) → run_allowed t (c :: cs).

(** The service that a reactor implements: its table, less the timer whose
    deregistration is held back. *)
Definition simulates (r : Reactor) (t : service) : Prop :=
  ∃ T, rinv r T (ios t) ∧
    t = mkService (live r T) (ios t) (Wheel.elapsed (wheel r)) (next_resource_id r)
          (fst <$> pending_deregister r).

(** ** One call *)

Section step.
Implicit Types (r : Reactor) (t : service) (T : gmap Z (Z * Z)) (I : gmap Z (option Z * option Z)).

Lemma simulates_intro r T I t :
  rinv r T I →
  t = mkService (live r T) I (Wheel.elapsed (wheel r)) (next_resource_id r)
        (fst <$> pending_deregister r) → simulates r t.
Proof. intros H ->. by exists T. Qed.

(** The service is a function of the reactor. *)
Lemma simulates_unique r t t' : simulates r t → simulates r t' → t = t'.
Proof.
  intros (T & H & Ht) (T' & H' & Ht').
  assert (HT : T = T').
  { apply map_eq. intros k.
    by rewrite <- (rc_timers _ _ _ (ri_core _ _ _ H)), <- (rc_timers _ _ _ (ri_core _ _ _ H')). }
  assert (HI : ios t = ios t').
  { apply map_eq. intros k.
    by rewrite <- (rc_ios _ _ _ (ri_core _ _ _ H)), <- (rc_ios _ _ _ (ri_core _ _ _ H')). }
  by rewrite Ht, Ht', HT, HI.
Qed.

Lemma live_no_pending r T : pending_deregister r = None → live r T = T.
Proof. unfold live. by intros ->. Qed.

Lemma fresh_id_not_pending r T I d :
  rinv r T I → pending_deregister r ≠ Some (next_resource_id r, d).
Proof. intros H Hp. destruct (rc_pending _ _ _ (ri_core _ _ _ H) _ _ Hp) as [? _]. lia. Qed.

(** A registration that does not undo a deregistration. *)
Lemma register_step r T I sp d w :
  rinv r T I → pending_deregister r = None → is_u64 d → (Wheel.elapsed (wheel r) < d)%Z →
  let '(a, r') := register_timer r d w in
  ∃ t', sstep (mkService T I (Wheel.elapsed (wheel r)) (next_resource_id r) sp) (RegisterTimer d w) (Id a) t' ∧
    simulates r' t'.
Proof.
  intros H Hp Hu Hlt. pose proof (register_timer_spec r T I d w H Hp Hu Hlt) as Hs.
  pose proof (rc_next _ _ _ (ri_core _ _ _ H)) as Hn.
  destruct (register_timer r d w) as [a r']. destruct Hs as (He & Hp' & Hs).
  destruct (Z.leb_spec u64_max (next_resource_id r)).
  - destruct Hs as (-> & Hr & Hn'). replace (next_resource_id r) with u64_max in * by lia.
    eexists. split; [constructor|]. eapply simulates_intro; [done|].
    by rewrite live_no_pending, He, Hn', Hp'.
  - destruct Hs as (-> & Hr & Hn' & HT & HI). eexists. split; [by constructor|].
    eapply simulates_intro; [done|]. by rewrite live_no_pending, He, Hn', Hp'.
Qed.

Lemma handle_register_step r t d w :
  simulates r t → call_allowed t (RegisterTimer d w) →
  let '(a, r') := handle_register_timer r d w in
  ∃ t', sstep t (RegisterTimer d w) (Id a) t' ∧ simulates r' t'.
Proof.
  intros (T & H & Ht) [Hu Hlt]. rewrite Ht in Hlt |- *. simpl in Hlt.
  unfold handle_register_timer. destruct (pending_deregister r) as [[p d0]|] eqn:Hp.
  - assert (Hlive : live r T = base.delete p T) by (unfold live; by rewrite Hp).
    destruct (_ && _) eqn:Hb.
    + apply andb_prop in Hb as [<-%Z.eqb_eq Hc]. eexists. split.
      * apply (S_register_again _ _ _ _ d0 w p).
        -- rewrite Hlive. apply lookup_delete_eq.
        -- eapply pending_not_io; [apply H|done].
        -- by apply (rc_pending _ _ _ (ri_core _ _ _ H) p d0).
      * eapply simulates_intro; [by apply reuse_spec|]. simpl. rewrite Hlive. unfold live. simpl.
        by rewrite insert_delete_eq.
    + pose proof (rinv_no_pending _ _ _ H) as H1.
      assert (Hio := pending_not_io _ _ _ _ _ (ri_core _ _ _ H) Hp).
      pose proof (rinv_drop_timer _ _ _ p H1 Hio) as H2.
      destruct (rcore_drop_timer _ _ _ p (ri_core _ _ _ H1) (ri_idle _ _ _ H1) Hio) as (_ & _ & He).
      pose proof (register_step _ _ _ (Some p) d w H2 eq_refl Hu) as Hs. rewrite He, <- Hlive in Hs.
      by apply Hs.
  - rewrite (live_no_pending _ _ Hp). by apply register_step.
Qed.

Lemma handle_deregister_step r t rid :
  simulates r t → call_allowed t (DeregisterTimer rid) →
  ∃ t', sstep t (DeregisterTimer rid) (Done (Ok tt)) t' ∧ simulates (handle_deregister_timer r rid) t'.
Proof.
  intros (T & H & Ht) Hio. rewrite Ht. simpl in Hio.
  eexists. split; [constructor|]. destruct (flush_spec r T _ H) as (H1 & Hp & Hn & He & _).
  unfold handle_deregister_timer. set (r1 := flush_pending_deregister r) in *.
  set (T1 := live r T) in *.
  assert (Hq : Wheel.get_deadline (wheel r1) rid = fst <$> T1 !! rid).
  { unfold Wheel.get_deadline. by rewrite (rc_queue _ _ _ (ri_core _ _ _ H1) rid), lookup_fmap. }
  rewrite Hq. destruct (T1 !! rid) as [[d w]|] eqn:HT; cbn [fmap option_fmap option_map fst].
  - apply (simulates_intro _ T1 (ios t)); [|simpl; by rewrite He, Hn].
    destruct H1 as [Hc ? ? ?]. split; try done. destruct Hc. split; try done.
    intros p d' [= <- <-]. split; [|right; by exists w]. apply rc_ids. specialize (rc_timers rid).
    destruct (st_get (resources r1) rid); [done|]. by rewrite HT in rc_timers.
  - destruct (deregister_timer_spec r1 T1 _ rid H1 Hio) as [H2 He2].
    apply (simulates_intro _ _ _ _ H2). rewrite He2, He, live_no_pending by done.
    simpl. by rewrite Hn, Hp.
Qed.

Lemma register_io_step r t source interest os :
  simulates r t →
  let '(a, r') := register_io_resource r source interest os in
  ∃ t', sstep t (RegisterIo source interest os) (Id a) t' ∧ simulates r' t'.
Proof.
  intros (T & H & Ht). rewrite Ht. set (I := ios t) in *.
  unfold register_io_resource, alloc_resource_id. set (r1 := inbound r _).
  assert (H1 : rinv r1 T I) by by apply rinv_record.
  pose proof (rc_next _ _ _ (ri_core _ _ _ H)) as Hn. simpl (next_resource_id r1).
  assert (Hlive : ∀ x, pending_deregister x = pending_deregister r → live x T = live r T).
  { intros x Hx. unfold live. by rewrite Hx. }
  destruct (Z.leb_spec u64_max (next_resource_id r)).
  - eexists. split.
    + replace (next_resource_id r) with u64_max by lia. constructor.
    + eapply simulates_intro; [by apply rinv_record|]. simpl. f_equal. lia.
  - unfold register_io_source_action. cbv zeta. unfold encode_token_raw. rewrite wrap64_id by u64.
    set (r3 := outbound (set_next r1 _) _).
    pose proof (fresh_slot _ _ _ (ri_core _ _ _ H)) as Hs.
    pose proof (proj1 (slot_none _ _ _ _ (ri_core _ _ _ H)) Hs) as [HT HI].
    assert (H3 : rinv r3 T I) by (apply rinv_record; [done|]; by apply (rinv_next _ _ _ H1)).
    assert (HL : live r T !! next_resource_id r = None).
    { unfold live. destruct (pending_deregister r) as [[p ?]|]; [|done]. apply lookup_delete_None. by right. }
    destruct (os source (next_resource_id r) (interest_to_mio interest)) as [u|e] eqn:Eos.
    + eexists. split.
      * pose proof (S_register_io (live r T) I (Wheel.elapsed (wheel r)) _ (fst <$> pending_deregister r) source interest os HL HI ltac:(lia)) as Hc.
        rewrite Eos in Hc. exact Hc.
      * eapply simulates_intro; [apply rinv_record; [done|]; apply (insert_io_spec r3 T I)|].
        -- done.
        -- done.
        -- simpl. lia.
        -- intros d. by apply (fresh_id_not_pending r T I).
        -- done.
    + eexists. split.
      * pose proof (S_register_io (live r T) I (Wheel.elapsed (wheel r)) _ (fst <$> pending_deregister r) source interest os HL HI ltac:(lia)) as Hc.
        rewrite Eos in Hc. exact Hc.
      * eapply simulates_intro; [by apply rinv_record|done].
Qed.

Lemma deregister_io_step r t rid source os :
  simulates r t → call_allowed t (DeregisterIo rid source os) →
  let '(a, r') := deregister_io_resource r rid source os in
  ∃ t', sstep t (DeregisterIo rid source os) (Done a) t' ∧ simulates r' t'.
Proof.
  intros (T & H & Ht) Hio. rewrite Ht. simpl in Hio.
  unfold deregister_io_resource. cbv zeta. eexists. split; [constructor|].
  eapply simulates_intro; [do 2 (apply rinv_record; [done|])|].
  - apply (remove_io_spec _ T (ios t)); [by apply rinv_record|done].
  - done.
Qed.

Lemma set_waker_step r t rid interest w :
  simulates r t → call_allowed t (SetWaker rid interest w) →
  ∃ r' t', set_waker r rid interest w = Some r' ∧
    sstep t (SetWaker rid interest w) (Done (Ok tt)) t' ∧ simulates r' t'.
Proof.
  intros (T & H & Ht) [ab Hio]. rewrite Ht.
  destruct (set_waker_spec r T _ rid interest w ab H Hio) as (r' & Hr & H' & Hn & Hp & Hw).
  eexists r', _. split; [done|]. split; [by constructor|].
  eapply simulates_intro; [done|]. rewrite Hw, Hn. unfold live. by rewrite Hp.
Qed.

(** What the log of a park cycle shows. *)
Lemma wakes_wake_events ws : ReactorLog.wakes (wake_events ws) = ws.
Proof.
  unfold ReactorLog.wakes, wake_events.
  induction ws as [|[w rid] ws IH]; [done|]. simpl. f_equal. exact IH.
Qed.

Lemma polls_wake_events ws : omap poll_events (wake_events ws) = [].
Proof. by induction ws. Qed.

Lemma wakes_io_events I es :
  ReactorLog.wakes (es ≫= io_events I) =
    es ≫= λ e, match io_waker I e with Some w => [(w, resource_id e)] | None => [] end.
Proof.
  induction es as [|e es IH]; [done|]. rewrite !bind_cons, ReactorLog.wakes_app, IH.
  f_equal. unfold io_events, ReactorLog.wakes. simpl. by destruct (io_waker I e).
Qed.

Lemma polls_io_events I es : omap poll_events (es ≫= io_events I) = [].
Proof.
  induction es as [|e es IH]; [done|]. rewrite bind_cons, omap_app, IH, app_nil_r.
  unfold io_events. simpl. by destruct (io_waker I e).
Qed.

Lemma park_log_seen timeout now to ws I ans :
  ReactorLog.wakes (park_log timeout now to ws I ans) =
    ws ++ match ans with Ok es => io_wakes I es | Err _ => [] end ∧
  omap poll_events (park_log timeout now to ws I ans) = [to].
Proof.
  unfold park_log. rewrite !ReactorLog.wakes_app, wakes_wake_events. rewrite !omap_app, polls_wake_events.
  unfold io_wakes. destruct ans as [es|e]; simpl; rewrite ?wakes_io_events, ?polls_io_events, app_nil_r; done.
Qed.

Lemma park_step r t timeout raw os :
  simulates r t → call_allowed t (Park timeout raw os) →
  ∃ a r' t', rstep r (Park timeout raw os) = Some (a, r') ∧
    sstep t (Park timeout raw os) a t' ∧ simulates r' t'.
Proof.
  intros (T & H & Ht) [Hu Hto]. rewrite Ht. set (I := ios t) in *.
  destruct (flush_spec r T I H) as (H1 & Hp & Hn & He & Hl & _). simpl. unfold flush_and_park.
  set (r1 := flush_pending_deregister r) in *.
  pose proof (reactor_park_spec r1 _ I timeout raw os H1 Hu Hto) as Hs. rewrite He in Hs.
  destruct (park r1 timeout raw os) as [res r'].
  destruct Hs as (to & ws & Hmin & Hdue & Hlog & -> & Hr' & He' & Hn' & Hp').
  eexists _, _, _. split; [done|].
  set (now := Z.max (Wheel.elapsed (wheel r)) raw) in *.
  assert (Hnew : new_events r r' = park_log timeout now to ws I (os to)).
  { unfold new_events. rewrite Hlog, Hl. apply drop_app_length. }
  destruct (park_log_seen timeout now to ws I (os to)) as [Hw Hpl].
  rewrite Hnew, Hw, Hpl. split; [by constructor|].
  eapply simulates_intro; [done|]. rewrite (live_no_pending r') by (by rewrite Hp'). by rewrite He', Hn', Hn, Hp', Hp.
Qed.

Lemma rstep_simulates r t c :
  simulates r t → call_allowed t c →
  ∃ a r' t', rstep r c = Some (a, r') ∧ sstep t c a t' ∧ simulates r' t'.
Proof.
  intros Hs Hc. destruct c as [d w|rid|source interest os|rid source os|rid interest w|timeout raw os].
  - pose proof (handle_register_step r t d w Hs Hc) as H. simpl.
    destruct (handle_register_timer r d w) as [a r']. destruct H as (t' & ? & ?). by eexists _, _, _.
  - destruct (handle_deregister_step r t rid Hs Hc) as (t' & ? & ?). by eexists _, _, _.
  - pose proof (register_io_step r t source interest os Hs) as H. simpl.
    destruct (register_io_resource r source interest os) as [a r']. destruct H as (t' & ? & ?).
    by eexists _, _, _.
  - pose proof (deregister_io_step r t rid source os Hs Hc) as H. cbn [rstep].
    destruct (deregister_io_resource r rid source os) as [a r']. destruct H as (t' & ? & ?).
    by eexists _, _, _.
  - destruct (set_waker_step r t rid interest w Hs Hc) as (r' & t' & Hr & ? & ?). simpl. rewrite Hr.
    by eexists _, _, _.
  - by apply park_step.
Qed.

Lemma new_rinv : rinv new ∅ ∅.
Proof.
  split; [|done..]. assert (He : ∀ k, st_get (resources new) k = None) by apply slab_get_new.
  split.
  - apply new_winv.
  - rewrite fmap_empty. apply new_queue.
  - intros k. by rewrite He, lookup_empty.
  - intros k. by rewrite He, lookup_empty.
  - intros k. rewrite He. by intros [].
  - simpl. u64.
  - done.
Qed.

End step.

Definition service_init : service := mkService ∅ ∅ 0 1 None.

(** ** The service keeps itself well formed *)

Record service_ok (t : service) : Prop := {
  so_issued : (1 ≤ issued t ≤ u64_max)%Z;
  so_clock : (0 ≤ clock t)%Z;
  so_timers : ∀ k d w, timers t !! k = Some (d, w) →
    (1 ≤ k < issued t)%Z ∧ ios t !! k = None ∧ (clock t < d)%Z;
  so_ios : ∀ k, is_Some (ios t !! k) → (1 ≤ k < issued t)%Z;
  so_spare : ∀ p, spare t = Some p →
    (1 ≤ p < issued t)%Z ∧ timers t !! p = None ∧ ios t !! p = None;
}.

Section service.
Implicit Types (t : service).

Lemma service_ok_init : service_ok service_init.
Proof.
  split; simpl; [u64|lia|..]; [intros k d w|intros k|done]; rewrite lookup_empty; [done|by intros []].
Qed.

Lemma sstep_ok t c a t' : service_ok t → call_allowed t c → sstep t c a t' → service_ok t'.
Proof.
  intros [] Hc Hs. inversion Hs; subst; simpl in *; split; simpl; try done; try lia.
  - intros k d' w'. rewrite lookup_insert_Some. intros [[<- [= <- <-]]|[_ Hk]].
    + split; [lia|]. split; [done|lia].
    + specialize (so_timers0 _ _ _ Hk). naive_solver lia.
  - intros k Hk. specialize (so_ios0 k Hk). lia.
  - intros k d' w'. rewrite lookup_insert_Some. intros [[<- [= <- <-]]|[_ Hk]]; [|by eapply so_timers0].
    split; [lia|]. split; [done|lia].
  - intros k d' w' Hk%lookup_delete_Some. destruct Hk as [_ Hk]. by eapply so_timers0.
  - intros p Hp%fmap_Some. destruct Hp as ([d' w'] & Hd & ->).
    specialize (so_timers0 _ _ _ Hd). rewrite lookup_delete_eq. naive_solver.
  - intros k d' w' Hk. specialize (so_timers0 _ _ _ Hk) as (? & ? & ?).
    split; [lia|]. split; [|done]. case_match; [|done]. by rewrite lookup_insert_ne by lia.
  - intros k Hk. assert (is_Some (I !! k) ∨ k = i) as [Hk'| ->]; [|by specialize (so_ios0 k Hk'); lia|lia].
    case_match; [|by left]. rewrite lookup_insert in Hk. case_decide; [by right|by left].
  - intros p Hp. specialize (so_spare0 p Hp) as (? & ? & ?). split; [lia|]. split; [done|].
    case_match; [|done]. by rewrite lookup_insert_ne by lia.
  - intros k d' w' Hk. specialize (so_timers0 _ _ _ Hk) as (? & Hn & ?). split; [done|]. split; [|done].
    by apply lookup_delete_None; right.
  - intros k [_ Hk]%lookup_delete_is_Some. by apply so_ios0.
  - intros p Hp. specialize (so_spare0 p Hp) as (? & ? & ?). split; [done|]. split; [done|].
    by apply lookup_delete_None; right.
  - intros k d' w' Hk. specialize (so_timers0 _ _ _ Hk) as (? & Hn & ?). split; [done|]. split; [|done].
    rewrite lookup_insert_ne by congruence. done.
  - intros k. rewrite lookup_insert. case_decide as Hd; [subst k; intros _; by apply so_ios0; eexists|apply so_ios0].
  - intros p Hp. specialize (so_spare0 p Hp) as (? & ? & ?). split; [done|]. split; [done|].
    rewrite lookup_insert_ne by congruence. done.
  - intros k d' w' Hk%not_due_lookup. destruct Hk as [Hk Hlt]. specialize (so_timers0 _ _ _ Hk). naive_solver.
Qed.

End service.

Lemma rrun_simulates cs r t :
  simulates r t → run_allowed t cs →
  ∃ answers r' t', rrun r cs = Some (answers, r') ∧ srun t cs answers t' ∧ simulates r' t'.
Proof.
  revert r t. induction cs as [|c cs IH]; intros r t Hs Hr; simpl.
  - exists [], r, t. split; [done|]. split; [constructor|done].
  - inversion Hr as [|? ? ? Hc Hnext]; subst.
    destruct (rstep_simulates r t c Hs Hc) as (a & r1 & t1 & -> & Ht & Hs1). cbn [mbind option_bind].
    destruct (IH r1 t1 Hs1 (Hnext _ _ Ht)) as (rest & r2 & t2 & -> & Hrun & Hs2).
    exists (a :: rest), r2, t2. split; [done|]. split; [by econstructor|done].
Qed.

Lemma simulates_new : simulates new service_init.
Proof. by eapply simulates_intro; [apply new_rinv|]. Qed.

(** Discharges [run_allowed] on a concrete run, one call at a time. *)
Ltac allow :=
  repeat first
    [ apply run_allowed_nil
    | apply run_allowed_cons; [|intros ? ? Hstep; inversion Hstep; subst; clear Hstep] ];
  simpl; try done.

(** C8. Every run of calls that the callers' contract allows, from a new reactor
    and with any answers of the system, goes through without a panic, and its
    answers are answers of the abstract service: the one-slot cache of
    deregistrations, the wheel and the slab do not show; a parked thread polls
    once, no longer than to the first deadline, and is woken for exactly the due
    timers, each once, and then for the events of the system, in their order. *)
Theorem reactor_refines_service cs :
  run_allowed service_init cs →
  ∃ answers r t, rrun new cs = Some (answers, r) ∧ srun service_init cs answers t ∧ simulates r t.
Proof. intros H. by apply rrun_simulates; [apply simulates_new|]. Qed.

(** ** Witnesses *)

(** A timer is deregistered, its id comes back for a new timer with the same
    deadline, and the new waker is the one that the park wakes. *)
Definition sample_calls : list call :=
  [RegisterTimer 50 7; DeregisterTimer 1; RegisterTimer 50 8; RegisterTimer 90 9;
   Park (Some 100) 60 (λ _, Ok [])]%Z.

Lemma reactor_refines_service_witness :
  fst <$> rrun new sample_calls =
    Some [Id (Ok 1); Done (Ok tt); Id (Ok 1); Id (Ok 2);
          Parked [Some 0] [(8, 1)] (Ok tt)]%Z ∧
  ∃ answers r t,
    rrun new sample_calls = Some (answers, r) ∧ srun service_init sample_calls answers t ∧ simulates r t.
Proof.
  split; [vm_compute; reflexivity|]. apply (reactor_refines_service sample_calls).
  allow; split; (u64 || naive_solver lia).
Defined.
