(* ===== verification/ReactorLogSpec.v ===== *)
(** * ReactorLogSpec: what the reactor's log says after any run

    Of the invariants that [lion-reactor-spec] demands of the log, those about
    registrations hold for the calls as the utilities make them.  Two do not
    ([ReactorTimerLog]): the handle holds a deregistration back, or undoes it, without a
    log event; [dropped_calls] is a short run whose log keeps a timer that the reactor has dropped. *)

From S2P Require Import Prelude Store Slab VecMap Wheel WheelInv WheelOps WheelScan WheelSpec.
From S2P Require Import ReactorLog Readiness ResourceSlab Reactor ReactorInv ReactorOps ReactorSpec.
Import UtilityLog ResourceSlab Reactor ReactorLog.

Section log.
Implicit Types (l seg : list ReactorEvent) (e : ReactorEvent) (rid d w : Z) (i j k : nat).

(** The id that an event registers, as a timer or as an I/O resource. *)
Definition registers e : option Z :=
  match succ_register_timer e with
  | Some (_, _, rid) => Some rid
  | None => succ_io_api_register e
  end.

Definition registered_at l i rid : Prop := l !! i ≫= registers = Some rid.

(** [n] is the next id to be given out. *)
Record linv l (n : Z) : Prop := {
  li_ids : ∀ i rid, registered_at l i rid → (1 ≤ rid < n)%Z;
  li_once : ∀ i j rid, registered_at l i rid → registered_at l j rid → i = j;
  li_future : timer_deadline_future l;
  li_wakes : ∀ i w rid, l !! i ≫= wake_task = Some (w, rid) → ∃ j, j < i ∧ registered_at l j rid;
}.

Lemma succ_register_registers l i d w rid :
  is_succ_register_timer_at l i d w rid → registered_at l i rid.
Proof.
  unfold is_succ_register_timer_at, registered_at, registers. destruct (l !! i) as [e|]; [|done].
  simpl. by intros ->.
Qed.

Lemma registered_cases l i rid :
  registered_at l i rid →
  (∃ d w, is_succ_register_timer_at l i d w rid) ∨ l !! i ≫= succ_io_api_register = Some rid.
Proof.
  unfold is_succ_register_timer_at, registered_at, registers. destruct (l !! i) as [e|]; [|done].
  simpl. destruct (succ_register_timer e) as [[[d w] rid']|]; [|by right].
  intros [= ->]. left. by exists d, w.
Qed.

Lemma registered_at_app l seg i rid :
  registered_at (l ++ seg) i rid ↔
    registered_at l i rid ∨ (length l ≤ i ∧ registered_at seg (i - length l) rid).
Proof. apply lookup_app_bind. Qed.

Lemma registered_at_lt l i rid : registered_at l i rid → i < length l.
Proof.
  unfold registered_at. destruct (l !! i) eqn:E; [|done]. intros _. by eapply lookup_lt_Some.
Qed.

Lemma registered_elem l i rid : registered_at l i rid → ∃ e, e ∈ l ∧ registers e = Some rid.
Proof.
  unfold registered_at. destruct (l !! i) as [e|] eqn:E; [|done]. simpl. intros He.
  exists e. split; [by eapply list_elem_of_lookup_2|done].
Qed.

Lemma future_app l seg :
  timer_deadline_future l →
  (∀ i d w rid, is_succ_register_timer_at seg i d w rid → (max_timestamp (l ++ take i seg) < d)%Z) →
  timer_deadline_future (l ++ seg).
Proof.
  intros Hl Hs i d w rid [Hi|[Hle Hi]]%lookup_app_bind.
  - rewrite take_app_le; [by eapply Hl|]. apply register_at_lt in Hi. lia.
  - rewrite take_app_ge by lia. by eapply Hs.
Qed.

(** Events that register nothing, and wake only what is registered. *)
Lemma linv_quiet l n seg n' :
  linv l n → (n ≤ n')%Z → (∀ e, e ∈ seg → registers e = None) →
  (∀ e w rid, e ∈ seg → wake_task e = Some (w, rid) → ∃ j, registered_at l j rid) →
  linv (l ++ seg) n'.
Proof.
  intros [] Hn Hq Hw. assert (Hno : ∀ i rid, ¬ registered_at seg i rid).
  { intros i rid (e & He & Hr)%registered_elem. rewrite (Hq e He) in Hr. done. }
  split.
  - intros i rid [Hi|[_ Hi]]%registered_at_app; [|by destruct (Hno _ _ Hi)].
    specialize (li_ids0 i rid Hi). lia.
  - intros i j rid [Hi|[_ Hi]]%registered_at_app; [|by destruct (Hno _ _ Hi)].
    intros [Hj|[_ Hj]]%registered_at_app; [|by destruct (Hno _ _ Hj)]. eauto.
  - apply future_app; [done|]. intros i d w rid Hi%succ_register_registers. by destruct (Hno _ _ Hi).
  - intros i w rid [Hi|[Hle Hi]]%lookup_app_bind.
    + destruct (li_wakes0 i w rid Hi) as (j & Hj & Hr). exists j. split; [done|].
      apply registered_at_app. by left.
    + destruct (seg !! (i - length l)) as [e|] eqn:E; [|done]. simpl in Hi.
      destruct (Hw e w rid (list_elem_of_lookup_2 _ _ _ E) Hi) as (j & Hj).
      pose proof (registered_at_lt _ _ _ Hj). exists j. split; [lia|].
      apply registered_at_app. by left.
Qed.

(** The event that registers the next id. *)
Lemma linv_register l n e :
  linv l n → (1 ≤ n)%Z → registers e = Some n → wake_task e = None →
  (∀ d w rid, succ_register_timer e = Some (d, w, rid) → (max_timestamp l < d)%Z) →
  linv (l ++ [e]) (n + 1).
Proof.
  intros [] Hn He Hw Hd.
  assert (Hone : ∀ i rid, length l ≤ i → registered_at [e] (i - length l) rid → i = length l ∧ rid = n).
  { intros i rid Hle. unfold registered_at.
    destruct (i - length l) as [|m] eqn:E; simpl; [|by destruct m].
    rewrite He. intros [= <-]. split; [lia|done]. }
  split.
  - intros i rid [Hi|[Hle Hi]]%registered_at_app.
    + specialize (li_ids0 i rid Hi). lia.
    + destruct (Hone i rid Hle Hi) as [-> ->]. lia.
  - intros i j rid [Hi|[Hle Hi]]%registered_at_app [Hj|[Hle' Hj]]%registered_at_app; [by eauto|..].
    + destruct (Hone j rid Hle' Hj) as [-> ->]. specialize (li_ids0 i n Hi). lia.
    + destruct (Hone i rid Hle Hi) as [-> ->]. specialize (li_ids0 j n Hj). lia.
    + destruct (Hone i rid Hle Hi) as [-> ->]. by destruct (Hone j n Hle' Hj) as [-> _].
  - apply future_app; [done|]. intros i d w rid Hi. unfold is_succ_register_timer_at in Hi.
    destruct i as [|i]; simpl in Hi; [|by destruct i].
    simpl. rewrite app_nil_r. by eapply Hd.
  - intros i w rid [Hi|[Hle Hi]]%lookup_app_bind.
    + destruct (li_wakes0 i w rid Hi) as (j & Hj & Hr). exists j. split; [done|].
      apply registered_at_app. by left.
    + destruct (i - length l) as [|m]; simpl in Hi; [by rewrite Hw in Hi|by destruct m].
Qed.

(** What the source's invariants say follows. *)
Lemma linv_unique l n : linv l n → timer_reg_uniqueness l.
Proof.
  intros [] i d w rid Hi k d' w' Hk Hr. apply succ_register_registers in Hi, Hr.
  specialize (li_once0 _ _ _ Hi Hr). lia.
Qed.

Lemma linv_wake_registration l n : linv l n → wake_has_registration l.
Proof.
  intros [] i w rid Hi. destruct (li_wakes0 i w rid Hi) as (j & Hj & Hr).
  apply registered_cases in Hr as [(d & w' & Hr)|Hr]; [left; by exists j, d, w'|right; by exists j].
Qed.

End log.

(** ** Every call keeps it *)

(** The log, with every live resource registered in it. *)
Definition rlog_inv (r : Reactor) (T : gmap Z (Z * Z)) (I : gmap Z (option Z * option Z)) : Prop :=
  linv (log r) (next_resource_id r) ∧
  ∀ rid, is_Some (T !! rid) ∨ is_Some (I !! rid) → ∃ j, registered_at (log r) j rid.

Section calls.
Implicit Types (r : Reactor) (T : gmap Z (Z * Z)) (I : gmap Z (option Z * option Z)).
Implicit Types (rid d w : Z).

Lemma rlog_quiet r r' T I T' I' seg :
  rlog_inv r T I → log r' = log r ++ seg → (next_resource_id r ≤ next_resource_id r')%Z →
  (∀ e, e ∈ seg → registers e = None) →
  (∀ e w rid, e ∈ seg → wake_task e = Some (w, rid) → is_Some (T !! rid) ∨ is_Some (I !! rid)) →
  (∀ rid, is_Some (T' !! rid) ∨ is_Some (I' !! rid) → is_Some (T !! rid) ∨ is_Some (I !! rid)) →
  rlog_inv r' T' I'.
Proof.
  intros [Hl Hreg] Hlog Hn Hq Hw HTI. split; rewrite Hlog.
  - eapply linv_quiet; [done..|]. intros e w rid He Hwk. apply Hreg. by eapply Hw.
  - intros rid [j Hj]%HTI%Hreg. exists j. apply registered_at_app. by left.
Qed.

(** A call that logs its begin and the registration of the next id. *)
Lemma rlog_register r r' T I T' I' seg e :
  rlog_inv r T I → (1 ≤ next_resource_id r)%Z →
  log r' = (log r ++ seg) ++ [e] → next_resource_id r' = (next_resource_id r + 1)%Z →
  (∀ x, x ∈ seg → registers x = None ∧ wake_task x = None ∧ current_timestamp x = None) →
  registers e = Some (next_resource_id r) → wake_task e = None →
  (∀ d w rid, succ_register_timer e = Some (d, w, rid) → (max_timestamp (log r) < d)%Z) →
  (∀ rid, is_Some (T' !! rid) ∨ is_Some (I' !! rid) →
     rid = next_resource_id r ∨ is_Some (T !! rid) ∨ is_Some (I !! rid)) →
  rlog_inv r' T' I'.
Proof.
  intros [Hl Hreg] Hn1 Hlog Hn Hq He Hwk Hd HTI. split; rewrite Hlog, ?Hn.
  - apply linv_register; [|done..|].
    + apply (linv_quiet _ _ _ _ Hl (Z.le_refl _)); [naive_solver|].
      intros x w rid Hx Hw. destruct (Hq x Hx) as (_ & Hno & _). by rewrite Hno in Hw.
    + intros d w rid Hs. rewrite max_timestamp_app, (max_timestamp_none seg) by naive_solver.
      specialize (Hd d w rid Hs). pose proof (max_timestamp_nonneg (log r)). lia.
  - intros rid [->|[j Hj]%Hreg]%HTI.
    + exists (length (log r ++ seg)). apply registered_at_app. right. split; [done|].
      by rewrite Nat.sub_diag.
    + exists j. apply registered_at_app. left. apply registered_at_app. by left.
Qed.

Lemma rlog_new : rlog_inv new ∅ ∅.
Proof.
  assert (Hno : ∀ i rid, ¬ registered_at [] i rid) by (intros i rid; unfold registered_at; by rewrite lookup_nil).
  split; [split; simpl|].
  - intros i rid H. by destruct (Hno _ _ H).
  - intros i j rid H. by destruct (Hno _ _ H).
  - intros i d w rid H%succ_register_registers. by destruct (Hno _ _ H).
  - intros i w rid H. by destruct i.
  - intros rid. rewrite !lookup_empty. by intros [[]|[]].
Qed.

Lemma rlog_register_timer r T I d w :
  rinv r T I → rlog_inv r T I → (Wheel.elapsed (wheel r) < d)%Z →
  let r' := (register_timer r d w).2 in
  rlog_inv r' (if (u64_max <=? next_resource_id r)%Z then T else <[next_resource_id r := (d, w)]> T) I.
Proof.
  intros H Hlog Hd. pose proof (rc_next _ _ _ (ri_core _ _ _ H)) as Hn.
  unfold register_timer, alloc_resource_id. simpl (next_resource_id (inbound _ _)).
  destruct (Z.leb_spec u64_max (next_resource_id r)); simpl.
  - eapply (rlog_quiet r _ T I T I [_; _]); [done|simpl; by rewrite <- app_assoc|done|..]; set_solver.
  - eapply rlog_register; [done|lia|reflexivity|..]; try done.
    + intros x ->%list_elem_of_singleton. done.
    + simpl. intros d' w' rid [= <- <- <-]. by rewrite (ri_logged _ _ _ H).
    + intros rid. rewrite lookup_insert. case_decide; naive_solver.
Qed.

Lemma rlog_same r r' T I T' I' :
  rlog_inv r T I → log r' = log r → next_resource_id r' = next_resource_id r →
  (∀ rid, is_Some (T' !! rid) ∨ is_Some (I' !! rid) → is_Some (T !! rid) ∨ is_Some (I !! rid)) →
  rlog_inv r' T' I'.
Proof.
  intros H Hl Hn HTI. eapply (rlog_quiet r r' T I T' I' []); rewrite ?app_nil_r, ?Hn; try done.
  - by intros e ?%not_elem_of_nil.
  - by intros e ? ? ?%not_elem_of_nil.
Qed.

Lemma some_delete {A} (m : gmap Z A) k k' : is_Some (base.delete k m !! k') → is_Some (m !! k').
Proof. rewrite lookup_delete_is_Some. by intros []. Qed.

(** Both invariants, for some contents of the table. *)
Definition rgood r : Prop := ∃ T I, rinv r T I ∧ rlog_inv r T I.

Lemma rgood_register r T I d w :
  rinv r T I → rlog_inv r T I → pending_deregister r = None → is_u64 d →
  (Wheel.elapsed (wheel r) < d)%Z → rgood (register_timer r d w).2.
Proof.
  intros H Hl Hp Hu Hd. pose proof (register_timer_spec r T I d w H Hp Hu Hd) as Hs.
  pose proof (rlog_register_timer r T I d w H Hl Hd) as Hl'.
  destruct (register_timer r d w) as [a r']. destruct Hs as (_ & _ & Hs). simpl in *.
  destruct (u64_max <=? next_resource_id r)%Z; destruct Hs as (_ & Hr & _); by eexists _, _.
Qed.

Lemma rgood_handle_register r d w :
  rgood r → is_u64 d → (Wheel.elapsed (wheel r) < d)%Z → rgood (handle_register_timer r d w).2.
Proof.
  intros (T & I & H & Hl) Hu Hd. unfold handle_register_timer.
  destruct (pending_deregister r) as [[p d0]|] eqn:Hp; [|by eapply rgood_register].
  destruct (_ && _) eqn:Hb.
  - apply andb_prop in Hb as [_ Hc]. pose proof (reuse_spec r T I p d0 w H Hp Hc) as Hr.
    eexists _, _. split; [exact Hr|]. eapply rlog_same; [exact Hl|done..|].
    intros rid. rewrite lookup_insert. case_decide as Hk; [subst rid|done].
    intros _. apply bool_decide_eq_true_1 in Hc.
    destruct (rc_pending _ _ _ (ri_core _ _ _ H) p d0 Hp) as [_ [Hs|[w0 ->]]]; [|by left].
    simpl in Hc. rewrite Hs in Hc. by destruct Hc.
  - pose proof (rinv_no_pending _ _ _ H) as H1.
    assert (Hio := pending_not_io _ _ _ _ _ (ri_core _ _ _ H) Hp).
    destruct (rcore_drop_timer _ _ _ p (ri_core _ _ _ H1) (ri_idle _ _ _ H1) Hio) as (_ & _ & He).
    eapply rgood_register; [by apply rinv_drop_timer| |done|done|by rewrite He].
    eapply rlog_same; [exact Hl|done..|]. intros rid. by intros [?%some_delete|?]; [left|right].
Qed.

Lemma slot_some_iff r T I k :
  rcore r T I → is_Some (st_get (resources r) k) ↔ is_Some (T !! k) ∨ is_Some (I !! k).
Proof.
  intros H. pose proof (slot_none _ _ _ k H) as Hn.
  destruct (st_get (resources r) k), (T !! k), (I !! k); naive_solver.
Qed.

(** The new table may be read off the reactor: what is there was there, or is new. *)
Lemma rgood_slots r r' t' seg :
  rgood r → simulates r' t' → log r' = log r ++ seg →
  (next_resource_id r ≤ next_resource_id r')%Z →
  (∀ e, e ∈ seg → registers e = None ∧ wake_task e = None) →
  (∀ k, is_Some (st_get (resources r') k) → is_Some (st_get (resources r) k)) → rgood r'.
Proof.
  intros (T & I & H & Hl) (T' & H' & _) Hlog Hn Hq Hs. exists T', (ios t'). split; [done|].
  eapply rlog_quiet; [exact Hl|done|done|naive_solver|..].
  - intros e w rid He Hw. destruct (Hq e He) as [_ Hno]. by rewrite Hno in Hw.
  - intros k Hk. apply (slot_some_iff _ _ _ k (ri_core _ _ _ H)), Hs.
    by apply (slot_some_iff _ _ _ k (ri_core _ _ _ H')).
Qed.

Lemma slots_drop r rid k :
  is_Some (st_get (resources (drop_timer r rid)) k) → is_Some (st_get (resources r) k).
Proof. simpl. unfold v_remove_timer_slot. rewrite get_remove. case_decide; [by intros []|done]. Qed.

Lemma flush_slots r k :
  is_Some (st_get (resources (flush_pending_deregister r)) k) → is_Some (st_get (resources r) k).
Proof. unfold flush_pending_deregister. destruct (pending_deregister r) as [[p d]|]; [apply slots_drop|done]. Qed.

Lemma flush_log r :
  log (flush_pending_deregister r) = log r ∧
  next_resource_id (flush_pending_deregister r) = next_resource_id r.
Proof. unfold flush_pending_deregister. by destruct (pending_deregister r) as [[p d]|]. Qed.

Lemma rgood_handle_deregister r t' rid :
  rgood r → simulates (handle_deregister_timer r rid) t' → rgood (handle_deregister_timer r rid).
Proof.
  intros Hr Hs. pose proof (flush_slots r) as Hf. destruct (flush_log r) as [Hl Hn]. revert Hs.
  unfold handle_deregister_timer. set (r1 := flush_pending_deregister r) in *.
  destruct (Wheel.get_deadline (wheel r1) rid); intros Hs.
  - eapply (rgood_slots r _ t' []); [done|done|by rewrite app_nil_r|simpl; lia|set_solver|done].
  - eapply (rgood_slots r _ t' [Inbound (ReactorLog.DeregisterTimer rid true)]);
      [done|done|simpl; by rewrite Hl|simpl; lia|set_solver|].
    intros k Hk. by apply Hf, (slots_drop (inbound r1 (ReactorLog.DeregisterTimer rid true)) rid).
Qed.

Lemma set_waker_log r r' rid interest w :
  set_waker r rid interest w = Some r' →
  log r' = log r ++ [Inbound (ReactorLog.SetWaker rid interest w None);
                     Inbound (ReactorLog.SetWaker rid interest w (Some (Ok tt)))] ∧
  next_resource_id r' = next_resource_id r.
Proof.
  unfold set_waker. intros (m1 & _ & H)%bind_Some. apply bind_Some in H as (m2 & _ & [= <-]).
  simpl. by rewrite <- app_assoc.
Qed.

Lemma rgood_register_io r source interest os t' :
  rgood r → simulates (register_io_resource r source interest os).2 t' →
  rgood (register_io_resource r source interest os).2.
Proof.
  intros Hr Hs. pose proof Hr as (T & I & H & Hl). pose proof (rc_next _ _ _ (ri_core _ _ _ H)) as Hn.
  revert Hs. unfold register_io_resource, alloc_resource_id. simpl (next_resource_id (inbound _ _)).
  destruct (Z.leb_spec u64_max (next_resource_id r)); [|unfold register_io_source_action; cbv zeta;
    destruct (os source _ _) as [u|e]]; simpl; intros Hs.
  - eapply (rgood_slots r _ t' [_; _]); [done|done|simpl; by rewrite <- app_assoc|done|set_solver|done].
  - destruct Hs as (T' & H' & _). exists T', (ios t'). split; [done|].
    eapply (rlog_register r _ T I _ _ [_; _]); [done|lia|simpl; by rewrite <- !app_assoc|done|..];
      [|done|done|done|].
    + intros x. rewrite !elem_of_cons, elem_of_nil. naive_solver.
    + intros k Hk%(slot_some_iff _ _ _ k (ri_core _ _ _ H')). simpl in Hk. rewrite get_insert_io in Hk.
      case_decide as Hd; [by left|right]. by apply (slot_some_iff _ _ _ k (ri_core _ _ _ H)).
  - eapply (rgood_slots r _ t' [_; _; _]); [done|done|simpl; by rewrite <- !app_assoc|simpl; lia|set_solver|done].
Qed.

Lemma rgood_deregister_io r rid source os t' :
  rgood r → simulates (deregister_io_resource r rid source os).2 t' →
  rgood (deregister_io_resource r rid source os).2.
Proof.
  intros Hr Hs. eapply (rgood_slots r _ t' [_; _; _]);
    [done|done|simpl; by rewrite <- !app_assoc|done|set_solver|].
  intros k. simpl. unfold v_remove_io_slot. rewrite get_remove. case_decide; [by intros []|done].
Qed.

Lemma rgood_set_waker r rid interest w ab T I r' :
  rinv r T I → rlog_inv r T I → I !! rid = Some ab → set_waker r rid interest w = Some r' → rgood r'.
Proof.
  intros H Hl Hio Hr. destruct (set_waker_log _ _ _ _ _ Hr) as [Hlog Hn].
  destruct (set_waker_spec r T I rid interest w ab H Hio) as (r2 & Hr2 & H' & _).
  rewrite Hr in Hr2. injection Hr2 as <-. eexists _, _. split; [exact H'|].
  eapply rlog_quiet; [exact Hl|done|lia|set_solver|set_solver|].
  intros k. rewrite lookup_insert. case_decide as Hd; [subst k; intros _; right; by rewrite Hio|done].
Qed.

Lemma park_log_quiet timeout now to ws I ans e :
  e ∈ park_log timeout now to ws I ans → registers e = None.
Proof.
  unfold park_log. rewrite !elem_of_app. intros [He|[He|[He|He]]].
  - set_solver.
  - unfold wake_events in He. by apply list_elem_of_fmap in He as (x & -> & _).
  - destruct ans as [es|]; [|by apply not_elem_of_nil in He].
    apply list_elem_of_bind in He as (ev & He & _). unfold io_events in He.
    destruct (io_waker I ev); set_solver.
  - set_solver.
Qed.

Lemma park_log_wakes timeout now to ws I ans e w rid T :
  due_wakes now T ws → e ∈ park_log timeout now to ws I ans → wake_task e = Some (w, rid) →
  is_Some (T !! rid) ∨ is_Some (I !! rid).
Proof.
  intros [_ Hws]. unfold park_log. rewrite !elem_of_app. intros [He|[He|[He|He]]] Hw.
  - set_solver.
  - unfold wake_events in He. apply list_elem_of_fmap in He as ([w' rid'] & -> & Hin).
    simpl in Hw. injection Hw as -> ->. apply Hws in Hin as (d & -> & _). by left.
  - destruct ans as [es|]; [|by apply not_elem_of_nil in He].
    apply list_elem_of_bind in He as (ev & He & _). unfold io_events, io_waker in He.
    destruct (I !! Reactor.resource_id ev) as [ab|] eqn:E; simpl in He; [|set_solver].
    right. assert (rid = Reactor.resource_id ev) as ->; [|by rewrite E].
    destruct (match mode ev with Readable => fst | Writable => snd end ab); set_solver.
  - set_solver.
Qed.

Lemma rgood_park r timeout raw os :
  rgood r → is_u64 raw → (∀ t, timeout = Some t → (0 ≤ t)%Z) → rgood (flush_and_park r timeout raw os).2.
Proof.
  intros (T & I & H & Hl) Hu Ht. pose proof (flush_spec r T I H) as (H1 & _ & Hn & _ & Hlog & _).
  pose proof (reactor_park_spec _ _ I timeout raw os H1 Hu Ht) as Hs. unfold flush_and_park.
  destruct (park _ timeout raw os) as [res r']. destruct Hs as (to & ws & _ & Hdue & Hl' & _ & H' & _ & Hn' & _).
  eexists _, _. split; [exact H'|].
  assert (Hlf : rlog_inv (flush_pending_deregister r) (live r T) I).
  { eapply rlog_same; [exact Hl|done|done|]. intros k. unfold live.
    destruct (pending_deregister r) as [[p d]|]; [|done]. by intros [?%some_delete|?]; [left|right]. }
  eapply rlog_quiet; [exact Hlf|exact Hl'|simpl; lia|..].
  - intros e He. by eapply park_log_quiet.
  - intros e w rid He Hw. by eapply park_log_wakes.
  - intros k [[[d w] Hk]|Hk]; [left|by right]. apply not_due_lookup in Hk as [-> _]. done.
Qed.

Lemma rstep_rgood r t c a r' t' :
  rgood r → simulates r t → call_allowed t c → rstep r c = Some (a, r') → simulates r' t' → rgood r'.
Proof.
  intros Hr Hs Hc Hstep Hs'.
  destruct c as [d w|rid|source interest os|rid source os|rid interest w|timeout raw os]; cbn [rstep] in Hstep.
  - destruct Hs as (T0 & _ & Ht). rewrite Ht in Hc. destruct Hc as [Hu Hd].
    pose proof (rgood_handle_register r d w Hr Hu Hd) as H.
    destruct (handle_register_timer r d w). by injection Hstep as _ <-.
  - injection Hstep as _ <-. by apply (rgood_handle_deregister r t').
  - pose proof (rgood_register_io r source interest os t' Hr) as H.
    destruct (register_io_resource r source interest os). injection Hstep as _ <-. by apply H.
  - pose proof (rgood_deregister_io r rid source os t' Hr) as H.
    destruct (deregister_io_resource r rid source os). injection Hstep as _ <-. by apply H.
  - apply bind_Some in Hstep as (r1 & Hset & [= _ <-]). destruct Hr as (T & I & H & Hl).
    destruct Hs as (T0 & H0 & _). destruct Hc as [ab Hab].
    destruct (I !! rid) as [ab'|] eqn:E; [by apply (rgood_set_waker r rid interest w ab' T I)|].
    rewrite <- (rc_ios _ _ _ (ri_core _ _ _ H)), (rc_ios _ _ _ (ri_core _ _ _ H0)) in E. congruence.
  - destruct Hc as [Hu Ht]. pose proof (rgood_park r timeout raw os Hr Hu Ht) as H.
    destruct (flush_and_park r timeout raw os). by injection Hstep as _ <-.
Qed.

Lemma rrun_rgood cs r t answers r' :
  rgood r → simulates r t → run_allowed t cs → rrun r cs = Some (answers, r') → rgood r'.
Proof.
  revert r t answers. induction cs as [|c cs IH]; intros r t answers Hr Hs Ha Hrun; simpl in Hrun.
  - by injection Hrun as _ <-.
  - inversion Ha as [|? ? ? Hc Hnext]; subst.
    destruct (rstep_simulates r t c Hs Hc) as (a & r1 & t1 & Hstep & Ht & Hs1).
    rewrite Hstep in Hrun. cbn [mbind option_bind] in Hrun.
    apply bind_Some in Hrun as ([rest r2] & Hrest & [= _ <-]).
    eapply IH; [|exact Hs1|by eapply Hnext|done]. by eapply rstep_rgood.
Qed.

End calls.

(** After any allowed run the log satisfies the source's invariants about
    registrations: a timer's deadline lies after every clock reading logged before
    it, an id is registered at most once while its timer is active (ids are never
    reused at all), and every wake is of a timer or an I/O resource registered
    before it. *)
Theorem reactor_log_registrations cs answers r :
  run_allowed service_init cs → rrun new cs = Some (answers, r) →
  timer_deadline_future (log r) ∧ timer_reg_uniqueness (log r) ∧ wake_has_registration (log r).
Proof.
  intros Ha Hrun. assert (Hnew : rgood new) by (exists ∅, ∅; split; [apply new_rinv|apply rlog_new]).
  destruct (rrun_rgood cs new service_init answers r Hnew simulates_new Ha Hrun) as (T & I & _ & Hl & _).
  split; [apply Hl|]. split; [by eapply linv_unique|by eapply linv_wake_registration].
Qed.

(** ** A run whose log awaits a timer that the reactor has dropped *)

Definition dropped_calls : list ReactorSpec.call :=
  [ReactorSpec.RegisterTimer 50 7; ReactorSpec.DeregisterTimer 1; ReactorSpec.Park None 60 (λ _, Ok [])]%Z.
Definition final_log (cs : list ReactorSpec.call) : list ReactorEvent :=
  match rrun new cs with Some (_, r) => log r | None => [] end.

Lemma dropped_log :
  final_log dropped_calls =
    [Inbound (RegisterTimer 50 7 None); Inbound (RegisterTimer 50 7 (Some (Ok 1)));
     Inbound (Park None None); Outbound (GetCurrentTime 60); Outbound (PollEvents None (Ok 0%nat));
     Inbound (Park None (Some (Ok tt)))]%Z.
Proof. vm_compute. reflexivity. Qed.

(** The deregistration is not in the log. *)
Lemma dropped_awaiting : timer_awaiting_wake (final_log dropped_calls) 1.
Proof.
  rewrite dropped_log. exists 50%Z, 7%Z, 1%Z. split; [done|]. split; [simpl; lia|]. intros j Hj (e & He & Hr).
  simpl in Hj. do 6 (destruct j as [|j]; [simpl in He; by simplify_eq|]). lia.
Qed.

(** ** Witness *)

Lemma reactor_log_registrations_witness :
  ∃ answers r, rrun new sample_calls = Some (answers, r) ∧
    timer_deadline_future (log r) ∧ timer_reg_uniqueness (log r) ∧ wake_has_registration (log r).
Proof.
  eexists _, _. split; [vm_compute; reflexivity|].
  eapply (reactor_log_registrations sample_calls); [|vm_compute; reflexivity].
  unfold sample_calls. allow; split; (u64 || naive_solver lia).
Defined.
