(* ===== verification/ReactorIoLog.v ===== *)
(** * ReactorIoLog: the reactor's log, read for its cycles and its I/O resources

    The predicates of [lion-reactor-spec/src/log.rs] on I/O events, and the
    invariants of [lion-reactor-spec/src/invariants] that [lion-reactor] demands of
    every log, those of [ReactorLog] apart.  I/O resources are anchored at the calls
    of the clients (the API anchor of the source).  Where the source has a readable
    and a writable copy of a definition, [reading] selects. *)

From S2P Require Import Prelude ReactorLog.
Import UtilityLog ReactorLog.

Module ReactorIoLog.

Definition pick {A} (reading : bool) (p : A * A) : A := if reading then p.1 else p.2.

Section log.
Implicit Types (e : ReactorEvent) (l : list ReactorEvent) (rid w : Z) (i j k : nat).

(** ** Events *)

Definition is_park_begin e : bool := match e with Inbound (Park _ None) => true | _ => false end.
Definition is_park_end e : bool := match e with Inbound (Park _ (Some _)) => true | _ => false end.
Definition is_poll_events e : bool := match e with Outbound (PollEvents _ _) => true | _ => false end.
Definition is_get_current_time e : bool :=
  match e with Outbound (GetCurrentTime _) => true | _ => false end.

Definition io_event_ready e : option IoEventView :=
  match e with Outbound (IoEventReady ev) => Some ev | _ => None end.

(** The client's calls: begin and end. *)
Definition inbound_register_io_begin e : option (Z * (bool * bool)) :=
  match e with Inbound (InRegisterIoResource s int None) => Some (s, int) | _ => None end.
Definition inbound_register_io_end e : option (Z * (bool * bool) * IoResultView Z) :=
  match e with Inbound (InRegisterIoResource s int (Some r)) => Some (s, int, r) | _ => None end.
Definition inbound_deregister_io_begin e : option Z :=
  match e with Inbound (InDeregisterIoResource rid None) => Some rid | _ => None end.
Definition inbound_deregister_io_end e : option (Z * IoResultView unit) :=
  match e with Inbound (InDeregisterIoResource rid (Some r)) => Some (rid, r) | _ => None end.
Definition io_api_deregister e : option Z :=
  match e with Inbound (InDeregisterIoResource rid _) => Some rid | _ => None end.
Definition succ_set_waker e : option (Z * (bool * bool) * Z) :=
  match e with Inbound (SetWaker rid int w (Some (Ok _))) => Some (rid, int, w) | _ => None end.

(** The calls of the system: source, resource, interest and answer. *)
Definition io_syscall_register e : option (Z * Z * (bool * bool) * IoResultView unit) :=
  match e with Outbound (RegisterIoResource s rid int r) => Some (s, rid, int, r) | _ => None end.
Definition io_syscall_deregister e : option (Z * IoResultView unit) :=
  match e with Outbound (DeregisterIoResource _ rid r) => Some (rid, r) | _ => None end.

Definition holds_at (p : ReactorEvent → bool) l i : Prop := ∃ e, l !! i = Some e ∧ p e = true.

(** ** Searches *)

(** The last position below [before] whose event satisfies [p]: the recursion of
    [find_register_io_cycle_begin], [find_last_set_waker_for_rid_readable_rec] and the
    searches like them. *)
Fixpoint find_last (p : ReactorEvent → bool) l (before : nat) : option nat :=
  match before with
  | 0 => None
  | S i =>
      match l !! i with
      | Some e => if p e then Some i else find_last p l i
      | None => find_last p l i
      end
  end.

(** Scans back and gives up at the end of a park. *)
Fixpoint current_park_start l (i : nat) : option nat :=
  match i with
  | 0 => None
  | S j =>
      match l !! j with
      | Some e =>
          if is_park_begin e then Some j else if is_park_end e then None else current_park_start l j
      | None => current_park_start l j
      end
  end.

Fixpoint count_poll_events_from l (start n : nat) : nat :=
  match n with
  | 0 => 0
  | S n' =>
      (match l !! start with Some e => if is_poll_events e then 1 else 0 | None => 0 end) +
      count_poll_events_from l (S start) n'
  end.
Definition count_poll_events_in_range l (start end_ : nat) : nat :=
  count_poll_events_from l start (end_ - start).

Definition find_register_io_cycle_begin l i : option nat :=
  find_last (λ e, bool_decide (is_Some (inbound_register_io_begin e))) l i.
Definition find_deregister_io_cycle_begin l i : option nat :=
  find_last (λ e, bool_decide (is_Some (inbound_deregister_io_begin e))) l i.

Definition sets_waker (reading : bool) rid e : bool :=
  match succ_set_waker e with
  | Some (rid', int, _) => bool_decide (rid' = rid) && pick reading int
  | None => false
  end.
Definition find_last_set_waker_for_rid (reading : bool) l rid (before : nat) : option nat :=
  find_last (sets_waker reading rid) l before.

(** ** Activity of an I/O resource *)

Definition io_api_registered_at l i rid : Prop := l !! i ≫= succ_io_api_register = Some rid.
Definition io_api_deregistered_at l i rid : Prop := l !! i ≫= io_api_deregister = Some rid.

Definition io_api_active_at l register_idx i : Prop :=
  ∃ rid, io_api_registered_at l register_idx rid ∧ register_idx < i ∧
    ∀ k, register_idx < k < i → ¬ io_api_deregistered_at l k rid.

Definition io_api_active_at_set_waker l rid (set_waker_idx : nat) : Prop :=
  ∃ reg, reg < set_waker_idx ∧ io_api_registered_at l reg rid ∧ io_api_active_at l reg set_waker_idx.

Definition no_prior_io_api_registration l rid (end_ : nat) : Prop :=
  ∀ k, k < end_ → io_api_registered_at l k rid → ∃ j, k < j < end_ ∧ io_api_deregistered_at l j rid.

Definition is_io_api_wake_at l i : Prop :=
  ∃ w rid, l !! i ≫= wake_task = Some (w, rid) ∧
    ∃ j, j < i ∧ io_api_registered_at l j rid ∧ io_api_active_at l j i.

Definition has_valid_set_waker_api (reading : bool) l (io_ready_idx : nat) : Prop :=
  ∃ ev sw int w, l !! io_ready_idx ≫= io_event_ready = Some ev ∧
    pick reading (readable ev, writable ev) = true ∧ sw < io_ready_idx ∧
    l !! sw ≫= succ_set_waker = Some (resource_id ev, int, w) ∧ pick reading int = true ∧
    io_api_active_at_set_waker l (resource_id ev) sw ∧
    ∀ k, sw < k < io_ready_idx → ¬ io_api_deregistered_at l k (resource_id ev).

(** ** The invariants *)

(** R2 and R3: a park reads the clock, and polls exactly once. *)
Definition park_has_timestamp l : Prop :=
  ∀ i, holds_at is_park_end l i →
    ∃ s j, current_park_start l i = Some s ∧ s < j < i ∧ holds_at is_get_current_time l j.
Definition park_poll_once l : Prop :=
  ∀ i, holds_at is_park_end l i →
    ∃ s, current_park_start l i = Some s ∧ count_poll_events_in_range l s i = 1.

(** R4: events of the system are seen in a park only. *)
Definition io_ready_in_park l : Prop :=
  ∀ i ev, l !! i ≫= io_event_ready = Some ev → is_Some (current_park_start l i).

(** R10 and R11: the system is called inside a call of the client. *)
Definition register_io_in_cycle l : Prop :=
  ∀ i x, l !! i ≫= io_syscall_register = Some x →
    ∃ b, find_register_io_cycle_begin l i = Some b ∧
      ∀ k, b < k < i → l !! k ≫= inbound_register_io_end = None.
Definition deregister_io_in_cycle l : Prop :=
  ∀ i x, l !! i ≫= io_syscall_deregister = Some x →
    ∃ b, find_deregister_io_cycle_begin l i = Some b ∧
      ∀ k, b < k < i → l !! k ≫= inbound_deregister_io_end = None.

(** R12 and R13: the answer to the client is that of the system. *)
Definition inbound_register_io_result l : Prop :=
  ∀ i s int rid, l !! i ≫= inbound_register_io_end = Some (s, int, Ok rid) →
    ∃ b k, find_register_io_cycle_begin l i = Some b ∧
      l !! b ≫= inbound_register_io_begin = Some (s, int) ∧ b < k < i ∧
      l !! k ≫= io_syscall_register = Some (s, rid, int, Ok tt).
Definition inbound_deregister_io_result l : Prop :=
  ∀ i rid r, l !! i ≫= inbound_deregister_io_end = Some (rid, r) →
    ∃ b k, find_deregister_io_cycle_begin l i = Some b ∧
      l !! b ≫= io_api_deregister = Some rid ∧ b < k < i ∧
      l !! k ≫= io_syscall_deregister = Some (rid, r).

(** R15: a waker is set on an active resource. *)
Definition set_waker_active_io l : Prop :=
  ∀ i rid int w, l !! i ≫= succ_set_waker = Some (rid, int, w) → io_api_active_at_set_waker l rid i.

(** R8, R9a and R9b: the ids of timers and resources do not clash. *)
Definition io_reg_uniqueness l : Prop :=
  ∀ i rid, io_api_registered_at l i rid → no_prior_io_api_registration l rid i.
Definition timer_io_disjoint_at_timer l : Prop :=
  ∀ i d w rid, is_succ_register_timer_at l i d w rid → no_prior_io_api_registration l rid i.
Definition timer_io_disjoint_at_io l : Prop :=
  ∀ i rid, io_api_registered_at l i rid → no_prior_timer_registration l rid i.

(** R6: a wake of an active resource is a wake of a waker that was set on it. *)
Definition io_waker_validity l : Prop :=
  ∀ i w rid, is_io_api_wake_at l i → l !! i ≫= wake_task = Some (w, rid) →
    ∃ sw int, sw < i ∧ l !! sw ≫= succ_set_waker = Some (rid, int, w) ∧ io_api_active_at_set_waker l rid sw.

(** R17a and R17b: an event of a resource wakes the waker that was last set for that
    direction, before the park goes on. *)
Definition wake_on_io_ready (reading : bool) l : Prop :=
  ∀ i ev, l !! i ≫= io_event_ready = Some ev → has_valid_set_waker_api reading l i →
    ∃ j sw int w, i < j ∧ find_last_set_waker_for_rid reading l (resource_id ev) i = Some sw ∧
      l !! sw ≫= succ_set_waker = Some (resource_id ev, int, w) ∧
      l !! j ≫= wake_task = Some (w, resource_id ev) ∧
      ∀ k, i < k < j → ¬ holds_at is_park_end l k ∧ ¬ holds_at is_poll_events l k.

(** The part of [reactor_ext_inv] about cycles. *)
Definition cycles_inv l : Prop :=
  park_has_timestamp l ∧ park_poll_once l ∧ io_ready_in_park l ∧
  register_io_in_cycle l ∧ deregister_io_in_cycle l ∧
  inbound_register_io_result l ∧ inbound_deregister_io_result l.

(** The clauses of [reactor_inv] and [reactor_ext_inv] about I/O resources. *)
Definition io_inv l : Prop :=
  io_reg_uniqueness l ∧ timer_io_disjoint_at_timer l ∧ timer_io_disjoint_at_io l ∧
  io_waker_validity l ∧ set_waker_active_io l ∧
  wake_on_io_ready true l ∧ wake_on_io_ready false l.

End log.

End ReactorIoLog.
