(* ===== verification/ReactorIoSpec.v ===== *)
(** * ReactorIoSpec: what the log says of cycles and of I/O resources

    The log of every run is a word of a small automaton, [protocol], that knows which
    call is open; the invariants about cycles are read off its states.  Replaying the
    log gives the table of I/O resources with their wakers, [replay], which is the one
    of the reactor; the invariants about I/O resources are read off that table. *)

From S2P Require Import Prelude Store Slab VecMap Wheel WheelInv WheelOps WheelScan WheelSpec.
From S2P Require Import ReactorLog Readiness ResourceSlab Reactor ReactorInv ReactorOps ReactorSpec.
From S2P Require Import Prelude ReactorLogSpec ReactorIoLog.
Import LogTrace.
Import UtilityLog ResourceSlab Reactor ReactorLog ReactorIoLog.

#[local] Instance io_result_dec {A} `{EqDecision A} : EqDecision (IoResultView A).
Proof. solve_decision. Defined.

(** ** The protocol *)

(** The open call, if any, and what was seen of it. *)
Inductive phase :=
  | Idle
  | InPark (timeout : option Z) (timestamp : bool) (polled : option (IoResultView nat))
  | InRegister (source : Z) (interest : bool * bool) (answer : option (Z * IoResultView unit))
  | InDeregister (rid : Z) (answer : option (IoResultView unit)).

(** What the client of a registration gets: the id that the system accepted, or the
    system's error.  Without a call of the system the ids were used up. *)
Definition client_answer (answer : option (Z * IoResultView unit)) : IoResultView Z :=
  match answer with
  | Some (rid, Ok _) => Ok rid
  | Some (_, Err e) => Err e
  | None => Err resource_id_overflow
  end.

(** What a park returns, given the answer of the poll. *)
Definition park_answer (polled : IoResultView nat) : IoResultView unit :=
  match polled with Ok _ => Ok tt | Err e => Err e end.

Definition protocol_step (p : phase) (e : ReactorEvent) : option phase :=
  match p, e with
  | Idle, Inbound (ReactorLog.Park timeout None) => Some (InPark timeout false None)
  | Idle, Inbound (InRegisterIoResource s int None) => Some (InRegister s int None)
  | Idle, Inbound (InDeregisterIoResource rid None) => Some (InDeregister rid None)
  | Idle, Inbound (ReactorLog.SetWaker _ _ _ _ | ReactorLog.RegisterTimer _ _ _ | ReactorLog.DeregisterTimer _ _) => Some Idle
  | InPark timeout false None, Outbound (GetCurrentTime _) => Some (InPark timeout true None)
  | InPark timeout true None, Outbound (PollEvents _ r) => Some (InPark timeout true (Some r))
  | InPark timeout true (Some r), Outbound (WakeTask _ _) => Some (InPark timeout true (Some r))
  | InPark timeout true (Some (Ok n)), Outbound (IoEventReady _) => Some (InPark timeout true (Some (Ok n)))
  | InPark timeout true (Some r), Inbound (ReactorLog.Park timeout' (Some r')) =>
      if decide (timeout' = timeout ∧ r' = park_answer r) then Some Idle else None
  | InRegister s int None, Outbound (RegisterIoResource s' rid int' r) =>
      if decide (s' = s ∧ int' = int) then Some (InRegister s int (Some (rid, r))) else None
  | InRegister s int answer, Inbound (InRegisterIoResource s' int' (Some r)) =>
      if decide (s' = s ∧ int' = int ∧ r = client_answer answer) then Some Idle else None
  | InDeregister rid None, Outbound (DeregisterIoResource _ rid' r) =>
      if decide (rid' = rid) then Some (InDeregister rid (Some r)) else None
  | InDeregister rid (Some r), Inbound (InDeregisterIoResource rid' (Some r')) =>
      if decide (rid' = rid ∧ r' = r) then Some Idle else None
  | _, _ => None
  end.

Definition protocol (p : phase) (l : list ReactorEvent) : option phase :=
  foldl (λ o e, o ≫= λ p, protocol_step p e) (Some p) l.

Section protocol.
Implicit Types (e : ReactorEvent) (l seg : list ReactorEvent) (p : phase) (f : ReactorEvent → bool) (i j k : nat).

Lemma protocol_none l : foldl (λ o e, o ≫= λ p, protocol_step p e) None l = None.
Proof. by induction l. Qed.

Lemma protocol_app p l seg : protocol p (l ++ seg) = protocol p l ≫= λ p', protocol p' seg.
Proof. unfold protocol. rewrite foldl_app. destruct (foldl _ _ l); [done|apply protocol_none]. Qed.

Lemma protocol_snoc p l e : protocol p (l ++ [e]) = protocol p l ≫= λ p', protocol_step p' e.
Proof. by rewrite protocol_app. Qed.

(** The state at a position, and that its event was allowed there. *)
Lemma protocol_at p0 l p1 i e :
  protocol p0 l = Some p1 → l !! i = Some e →
  ∃ p p', protocol p0 (take i l) = Some p ∧ protocol_step p e = Some p'.
Proof.
  intros Hl Hi. rewrite <- (take_drop_middle l i e Hi), protocol_app in Hl.
  apply bind_Some in Hl as (p & Hp & Hl). exists p. unfold protocol in Hl. simpl in Hl.
  destruct (protocol_step p e) as [p'|] eqn:E; [by exists p'|]. by rewrite protocol_none in Hl.
Qed.

(** ** What a state says of the log *)

Lemma find_last_S f l i e :
  l !! i = Some e → find_last f l (S i) = if f e then Some i else find_last f l i.
Proof. simpl. by intros ->. Qed.

Lemma park_start_S l i e :
  l !! i = Some e →
  current_park_start l (S i) =
    if is_park_begin e then Some i else if is_park_end e then None else current_park_start l i.
Proof. simpl. by intros ->. Qed.

Lemma count_from_last l start n :
  count_poll_events_from l start (S n) = count_poll_events_from l start n +
    match l !! (start + n) with Some e => if is_poll_events e then 1 else 0 | None => 0 end.
Proof.
  revert start. induction n as [|n IH]; intros start.
  - simpl. by rewrite !Nat.add_0_r.
  - change (count_poll_events_from l start (S (S n))) with
      ((match l !! start with Some e => if is_poll_events e then 1 else 0 | None => 0 end) +
       count_poll_events_from l (S start) (S n)).
    rewrite IH. simpl. replace (start + S n) with (S (start + n)) by lia. lia.
Qed.

Lemma count_S l s i e :
  s ≤ i → l !! i = Some e →
  count_poll_events_in_range l s (S i) =
    count_poll_events_in_range l s i + if is_poll_events e then 1 else 0.
Proof.
  intros Hs Hi. unfold count_poll_events_in_range. replace (S i - s) with (S (i - s)) by lia.
  rewrite count_from_last. replace (s + (i - s)) with i by lia. by rewrite Hi.
Qed.

Definition open_park l i (timestamp : bool) (polls : nat) : Prop :=
  ∃ s, current_park_start l i = Some s ∧ s < i ∧ count_poll_events_in_range l s i = polls ∧
    (timestamp = true → ∃ j, s < j < i ∧ holds_at is_get_current_time l j).

Definition open_register l i source interest (answer : option (Z * IoResultView unit)) : Prop :=
  ∃ b, find_register_io_cycle_begin l i = Some b ∧ b < i ∧
    l !! b ≫= inbound_register_io_begin = Some (source, interest) ∧
    (∀ k, b < k < i → l !! k ≫= inbound_register_io_end = None) ∧
    ∀ rid r, answer = Some (rid, r) →
      ∃ k, b < k < i ∧ l !! k ≫= io_syscall_register = Some (source, rid, interest, r).

Definition open_deregister l i (rid : Z) (answer : option (IoResultView unit)) : Prop :=
  ∃ b, find_deregister_io_cycle_begin l i = Some b ∧ b < i ∧
    l !! b ≫= inbound_deregister_io_begin = Some rid ∧
    (∀ k, b < k < i → l !! k ≫= inbound_deregister_io_end = None) ∧
    ∀ r, answer = Some r → ∃ k, b < k < i ∧ l !! k ≫= io_syscall_deregister = Some (rid, r).

Definition phase_facts l i p : Prop :=
  match p with
  | Idle => True
  | InPark _ ts polled => open_park l i ts (if polled then 1 else 0)
  | InRegister s int answer => open_register l i s int answer
  | InDeregister rid answer => open_deregister l i rid answer
  end.

Lemma open_park_begin l i e :
  l !! i = Some e → is_park_begin e = true → is_poll_events e = false → open_park l (S i) false 0.
Proof.
  intros Hi He Hp. exists i. rewrite (park_start_S l i e Hi), He. split; [done|]. split; [lia|].
  split; [|done]. rewrite (count_S l i i e) by done. rewrite Hp.
  unfold count_poll_events_in_range. by rewrite Nat.sub_diag.
Qed.

(** An event inside a park. *)
Lemma open_park_step l i e ts n :
  l !! i = Some e → is_park_begin e = false → is_park_end e = false → open_park l i ts n →
  open_park l (S i) (ts || is_get_current_time e) (n + if is_poll_events e then 1 else 0).
Proof.
  intros Hi Hb He (s & Hs & Hlt & Hn & Ht). exists s. rewrite (park_start_S l i e Hi), Hb, He.
  split; [done|]. split; [lia|]. rewrite (count_S l s i e), Hn by (done || lia). split; [done|].
  intros [Hts|Hg]%orb_true_iff.
  - destruct (Ht Hts) as (j & ? & ?). exists j. split; [lia|done].
  - exists i. split; [lia|]. by exists e.
Qed.

Lemma open_register_begin l i s int :
  l !! i = Some (Inbound (InRegisterIoResource s int None)) → open_register l (S i) s int None.
Proof.
  intros Hi. exists i. unfold find_register_io_cycle_begin. rewrite (find_last_S _ l i _ Hi).
  split; [done|]. split; [lia|]. rewrite Hi. split; [done|]. split; [lia|done].
Qed.

Lemma open_register_answer l i s int rid r :
  l !! i = Some (Outbound (RegisterIoResource s rid int r)) → open_register l i s int None →
  open_register l (S i) s int (Some (rid, r)).
Proof.
  intros Hi (b & Hb & Hlt & Hbe & Hno & _). exists b. unfold find_register_io_cycle_begin in *.
  rewrite (find_last_S _ l i _ Hi). split; [done|]. split; [lia|]. split; [done|]. split.
  - intros k Hk. destruct (decide (k = i)) as [->|]; [by rewrite Hi|apply Hno; lia].
  - intros ? ? [= <- <-]. exists i. split; [lia|by rewrite Hi].
Qed.

Lemma open_deregister_begin l i rid :
  l !! i = Some (Inbound (InDeregisterIoResource rid None)) → open_deregister l (S i) rid None.
Proof.
  intros Hi. exists i. unfold find_deregister_io_cycle_begin. rewrite (find_last_S _ l i _ Hi).
  split; [done|]. split; [lia|]. rewrite Hi. split; [done|]. split; [lia|done].
Qed.

Lemma open_deregister_answer l i s rid r :
  l !! i = Some (Outbound (DeregisterIoResource s rid r)) → open_deregister l i rid None →
  open_deregister l (S i) rid (Some r).
Proof.
  intros Hi (b & Hb & Hlt & Hbe & Hno & _). exists b. unfold find_deregister_io_cycle_begin in *.
  rewrite (find_last_S _ l i _ Hi). split; [done|]. split; [lia|]. split; [done|]. split.
  - intros k Hk. destruct (decide (k = i)) as [->|]; [by rewrite Hi|apply Hno; lia].
  - intros ? [= <-]. exists i. split; [lia|by rewrite Hi].
Qed.

(** The events that each state allows. *)
Lemma phase_facts_step l i p e p' :
  l !! i = Some e → phase_facts l i p → protocol_step p e = Some p' → phase_facts l (S i) p'.
Proof.
  intros Hi Hp Hs. destruct p as [|timeout ts polled|s int answer|rid answer]; simpl in Hp.
  - destruct e as [[] |]; simpl in Hs; try case_match; simplify_eq; simpl; try done.
    + by apply open_register_begin.
    + by apply open_deregister_begin.
    + by eapply open_park_begin.
  - assert (Hin : is_park_begin e = false → is_park_end e = false →
      open_park l (S i) (ts || is_get_current_time e) ((if polled then 1 else 0) + if is_poll_events e then 1 else 0))
      by (intros; by apply open_park_step).
    destruct e as [[]|[]]; destruct ts, polled as [[]|]; simpl in Hs;
      repeat match type of Hs with context [match ?x with _ => _ end] => destruct x end; simplify_eq; simpl in *;
      auto.
  - destruct answer as [[rid r]|]; destruct e as [[]|[]]; simpl in Hs; repeat case_match; simplify_eq; simpl; try done.
    match goal with H : _ ∧ _ |- _ => destruct H as [-> ->] end. by apply open_register_answer.
  - destruct answer as [r|]; destruct e as [[]|[]]; simpl in Hs; repeat case_match; simplify_eq; simpl; try done.
    by eapply open_deregister_answer.
Qed.

Lemma protocol_facts l i p : i ≤ length l → protocol Idle (take i l) = Some p → phase_facts l i p.
Proof.
  revert p. induction i as [|i IH]; intros p Hle Hp; [by injection Hp as <-|].
  destruct (lookup_lt_is_Some_2 l i) as [e Hi]; [lia|].
  rewrite (take_S_r l i e Hi), protocol_snoc in Hp. apply bind_Some in Hp as (p0 & Hp0 & Hs).
  eapply phase_facts_step; [exact Hi| |exact Hs]. apply IH; [lia|done].
Qed.

(** The state at the position of an event, with what it says. *)
Lemma protocol_event l p1 i e :
  protocol Idle l = Some p1 → l !! i = Some e →
  ∃ p p', phase_facts l i p ∧ protocol_step p e = Some p'.
Proof.
  intros Hl Hi. destruct (protocol_at _ _ _ _ _ Hl Hi) as (p & p' & Hp & Hs). exists p, p'.
  split; [|done]. apply protocol_facts; [|done]. apply lookup_lt_Some in Hi. lia.
Qed.

Lemma bind_event {B} (f : ReactorEvent → option B) l i x :
  l !! i ≫= f = Some x ↔ ∃ e, l !! i = Some e ∧ f e = Some x.
Proof. apply bind_Some. Qed.

(** The states in which the event at [Hi] is allowed. *)
Ltac states_at Hl Hi :=
  let q := fresh "q" in
  destruct (protocol_event _ _ _ _ Hl Hi) as (q & ? & Hq & Hs);
  destruct q as [|? [] [[]|]|? ? [[]|]|? []]; simpl in Hs; try done.

Lemma protocol_cycles l p : protocol Idle l = Some p → cycles_inv l.
Proof.
  intros Hl. split_and!.
  - intros i ([[]|] & Hi & He); try done. simpl in He. case_match; [|done]. states_at Hl Hi.
    all: destruct Hq as (s & ? & _ & _ & Hj); destruct (Hj eq_refl) as (j & ? & ?); by exists s, j.
  - intros i ([[]|] & Hi & He); try done. simpl in He. case_match; [|done]. states_at Hl Hi.
    all: destruct Hq as (s & ? & _ & ? & _); by exists s.
  - intros i ev ([|[]] & Hi & He)%bind_event; try done. states_at Hl Hi; destruct Hq as (s & -> & _); done.
  - intros i x ([|[]] & Hi & He)%bind_event; try done. states_at Hl Hi.
    destruct Hq as (b & ? & _ & _ & ? & _). by exists b.
  - intros i x ([|[]] & Hi & He)%bind_event; try done. states_at Hl Hi.
    destruct Hq as (b & ? & _ & _ & ? & _). by exists b.
  - intros i s int rid ([[? ? []| | | | |]|] & Hi & He)%bind_event; simplify_eq/=. states_at Hl Hi.
    + case_decide as Hd; [|done]. destruct Hd as (-> & -> & Ha).
      match type of Ha with context [match ?x with Ok _ => _ | Err _ => _ end] => destruct x as [[]|]; simplify_eq/= end.
      destruct Hq as (b & ? & _ & ? & _ & Hk).
      destruct (Hk _ _ eq_refl) as (k & ? & ?). by exists b, k.
    + case_decide as Hd; [|done]. by destruct Hd as (_ & _ & ?).
  - intros i rid r ([[|? []| | | |]|] & Hi & He)%bind_event; simplify_eq/=. states_at Hl Hi.
    case_decide as Hd; [|done]. destruct Hd as [-> ->].
    destruct Hq as (b & ? & _ & Hbe & _ & Hk). destruct (Hk _ eq_refl) as (k & ? & ?). exists b, k.
    split; [done|]. split; [|done]. apply bind_event in Hbe as ([[|? []| | | |]|] & -> & ?); simplify_eq/=; done.
Qed.

End protocol.

(** ** The table of I/O resources *)

#[local] Notation io_table := (gmap Z (option Z * option Z)).

Definition replay_step (m : io_table) (e : ReactorEvent) : io_table :=
  match e with
  | Inbound (InRegisterIoResource _ _ (Some (Ok rid))) => <[rid := (None, None)]> m
  | Inbound (InDeregisterIoResource rid _) => base.delete rid m
  | Inbound (ReactorLog.SetWaker rid int w (Some (Ok _))) =>
      match m !! rid with Some ab => <[rid := with_wakers int w ab]> m | None => m end
  | _ => m
  end.

(** What an event may be, given the table and the events that follow. *)
Definition expected (m : io_table) (e : ReactorEvent) (rest : list ReactorEvent) : Prop :=
  match e with
  | Inbound (ReactorLog.SetWaker rid _ _ (Some (Ok _))) => is_Some (m !! rid)
  | Outbound (WakeTask w rid) => ∀ ab, m !! rid = Some ab → ∃ reading, pick reading ab = Some w
  | Outbound (IoEventReady ev) => ∀ reading w,
      pick reading (readable ev, writable ev) = true →
      m !! ReactorLog.resource_id ev ≫= pick reading = Some w →
      head rest = Some (Outbound (WakeTask w (ReactorLog.resource_id ev)))
  | _ => True
  end.

#[local] Notation replay := (LogTrace.replay replay_step).
#[local] Notation traced := (LogTrace.traced replay_step expected).
#[local] Notation table_at := (LogTrace.state_at replay_step ∅).

Section table.
Implicit Types (m : io_table) (e : ReactorEvent) (l seg : list ReactorEvent) (rid w : Z) (i j k : nat).

Lemma expected_more m e l seg : expected m e l → expected m e (l ++ seg).
Proof.
  destruct e as [[]|[]]; simpl; try done. intros H reading w Hr Hm. specialize (H reading w Hr Hm).
  by destruct l.
Qed.

(** Registered before position [i], and not deregistered since. *)
Definition live_at l i rid : Prop :=
  ∃ reg, reg < i ∧ io_api_registered_at l reg rid ∧ ∀ k, reg < k < i → ¬ io_api_deregistered_at l k rid.

Lemma replay_step_some m e rid :
  is_Some (replay_step m e !! rid) ↔
    succ_io_api_register e = Some rid ∨ is_Some (m !! rid) ∧ io_api_deregister e ≠ Some rid.
Proof.
  destruct e as [[s int [[x|]|]|x r|x int w [[]|]| | |]|]; simpl; try naive_solver.
  - rewrite lookup_insert. case_decide; naive_solver.
  - rewrite lookup_delete_is_Some. naive_solver.
  - destruct (m !! x) eqn:E; [|naive_solver]. rewrite lookup_insert. case_decide; naive_solver.
Qed.

Lemma live_at_S l i e rid :
  l !! i = Some e →
  live_at l (S i) rid ↔
    succ_io_api_register e = Some rid ∨ live_at l i rid ∧ io_api_deregister e ≠ Some rid.
Proof.
  intros Hi. split.
  - intros (reg & Hlt & Hr & Hno). destruct (decide (reg = i)) as [->|Hne].
    + left. unfold io_api_registered_at in Hr. by rewrite Hi in Hr.
    + right. split.
      * exists reg. split; [lia|]. split; [done|]. intros k Hk. apply Hno. lia.
      * intros He. apply (Hno i); [lia|]. unfold io_api_deregistered_at. by rewrite Hi.
  - intros [He|[(reg & Hlt & Hr & Hno) He]].
    + exists i. split; [lia|]. split; [|lia]. unfold io_api_registered_at. by rewrite Hi.
    + exists reg. split; [lia|]. split; [done|]. intros k Hk. destruct (decide (k = i)) as [->|].
      * unfold io_api_deregistered_at. by rewrite Hi.
      * apply Hno. lia.
Qed.

Lemma table_live l i rid : i ≤ length l → is_Some (table_at l i !! rid) ↔ live_at l i rid.
Proof.
  induction i as [|i IH]; intros Hle.
  - split; [by intros [? ?]|]. intros (reg & ? & _). lia.
  - destruct (lookup_lt_is_Some_2 l i) as [e Hi]; [lia|].
    rewrite (state_at_S replay_step ∅ l i e Hi), replay_step_some, (live_at_S l i e rid Hi), IH by lia. done.
Qed.

Lemma live_active l i rid : live_at l i rid ↔ io_api_active_at_set_waker l rid i.
Proof.
  split.
  - intros (reg & ? & ? & ?). exists reg. split; [done|]. split; [done|]. by exists rid.
  - intros (reg & ? & Hr & rid' & Hr' & ? & ?). exists reg. split; [done|]. split; [done|].
    unfold io_api_registered_at in *. by simplify_eq.
Qed.

Lemma find_last_some f l i j : find_last f l i = Some j → j < i ∧ ∃ e, l !! j = Some e ∧ f e = true.
Proof.
  induction i as [|i IH]; simpl; [done|]. destruct (l !! i) as [e|] eqn:E; [destruct (f e) eqn:Ef|].
  - intros [= <-]. split; [lia|by exists e].
  - intros [? ?]%IH. split; [lia|done].
  - intros [? ?]%IH. split; [lia|done].
Qed.

Lemma find_last_exists f l i j e : l !! j = Some e → f e = true → j < i → is_Some (find_last f l i).
Proof.
  intros Hj Hf. induction i as [|i IH]; intros Hlt; simpl; [lia|].
  destruct (decide (j = i)) as [->|]; [by rewrite Hj, Hf|].
  destruct (l !! i) as [e'|]; [destruct (f e'); [done|]|]; apply IH; lia.
Qed.

Lemma sets_waker_true reading rid e :
  sets_waker reading rid e = true ↔
    ∃ int w, succ_set_waker e = Some (rid, int, w) ∧ pick reading int = true.
Proof.
  unfold sets_waker. destruct (succ_set_waker e) as [[[x int] w]|].
  - rewrite andb_true_iff, bool_decide_eq_true. naive_solver.
  - naive_solver.
Qed.

(** Who set the waker of a direction last, and which it is. *)
Definition last_waker l (reading : bool) rid i : option Z :=
  find_last_set_waker_for_rid reading l rid i ≫= λ sw, snd <$> (l !! sw ≫= succ_set_waker).

Lemma last_waker_some l reading rid i w :
  last_waker l reading rid i = Some w →
  ∃ sw int, find_last_set_waker_for_rid reading l rid i = Some sw ∧ sw < i ∧
    l !! sw ≫= succ_set_waker = Some (rid, int, w) ∧ pick reading int = true.
Proof.
  unfold last_waker. intros (sw & Hsw & Hw)%bind_Some.
  destruct (find_last_some _ _ _ _ Hsw) as (Hlt & e & He & (int & w' & Hs & Hp)%sets_waker_true).
  rewrite He in Hw. simpl in Hw. rewrite Hs in Hw. injection Hw as ->.
  exists sw, int. split; [done|]. split; [done|]. by rewrite He.
Qed.

Lemma last_waker_S l reading rid i e :
  l !! i = Some e →
  last_waker l reading rid (S i) =
    if sets_waker reading rid e then snd <$> succ_set_waker e else last_waker l reading rid i.
Proof.
  intros Hi. unfold last_waker, find_last_set_waker_for_rid. rewrite (find_last_S _ _ _ _ Hi).
  destruct (sets_waker reading rid e); [|done]. simpl. by rewrite Hi.
Qed.

Lemma traced_set_waker l : traced ∅ l → set_waker_active_io l.
Proof.
  intros Ht i rid int w (e & Hi & He)%bind_event. apply live_active, table_live.
  { apply lookup_lt_Some in Hi. lia. }
  pose proof (traced_at _ _ _ _ _ _ Ht Hi) as Hx. destruct e as [[]|]; try done.
  simpl in He, Hx. repeat case_match; simplify_eq. done.
Qed.

Definition registered_once l : Prop :=
  ∀ i j rid, io_api_registered_at l i rid → io_api_registered_at l j rid → i = j.

(** No waker was set on a resource before it was registered. *)
Lemma last_waker_new l i rid reading :
  traced ∅ l → registered_once l → io_api_registered_at l i rid → last_waker l reading rid i = None.
Proof.
  intros Ht Ho Hi. destruct (last_waker l reading rid i) as [w|] eqn:E; [|done].
  apply last_waker_some in E as (sw & int & _ & Hlt & Hsw & _).
  destruct (traced_set_waker l Ht sw rid int w Hsw) as (reg & Hr & Hreg & _).
  specialize (Ho _ _ _ Hi Hreg). lia.
Qed.

Lemma pick_with_wakers reading int w ab :
  pick reading (with_wakers int w ab) = if pick reading int then Some w else pick reading ab.
Proof. by destruct reading. Qed.

Lemma table_wakers l i rid ab reading :
  traced ∅ l → registered_once l → i ≤ length l →
  table_at l i !! rid = Some ab → pick reading ab = last_waker l reading rid i.
Proof.
  intros Ht Ho. revert ab. induction i as [|i IH]; intros ab Hle; [done|].
  destruct (lookup_lt_is_Some_2 l i) as [e Hi]; [lia|]. specialize (λ ab, IH ab ltac:(lia)).
  rewrite (state_at_S replay_step ∅ l i e Hi), (last_waker_S l reading rid i e Hi).
  pose proof (last_waker_new l i rid reading Ht Ho) as Hnew. unfold io_api_registered_at in Hnew. rewrite Hi in Hnew.
  destruct e as [[s int [[x|]|]|x r|x int w [[]|]| | |]|]; simpl in *; try (apply IH).
  - rewrite lookup_insert. case_decide as Hx; [|apply IH]. intros [= <-]. subst x.
    rewrite Hnew by done. by destruct reading.
  - intros [_ H]%lookup_delete_Some. by apply IH.
  - unfold sets_waker. simpl. destruct (decide (x = rid)) as [->|Hx].
    + rewrite bool_decide_true by done. simpl. destruct (table_at l i !! rid) as [ab0|] eqn:E; [|congruence].
      rewrite lookup_insert_eq. intros [= <-]. rewrite pick_with_wakers. destruct (pick reading int); [done|].
      by apply IH.
    + rewrite bool_decide_false by done. simpl. destruct (table_at l i !! x); [|apply IH].
      rewrite lookup_insert_ne by done. apply IH.
Qed.

Lemma traced_wake_on_io_ready l reading :
  traced ∅ l → registered_once l → wake_on_io_ready reading l.
Proof.
  intros Ht Ho i ev Hev (ev' & sw & int & w & Hev' & Hp & Hsw & Hs & Hint & Ha & Hno).
  rewrite Hev in Hev'. injection Hev' as <-. apply bind_event in Hev as (e & Hi & He).
  set (rid := ReactorLog.resource_id ev) in *. assert (Hle : i ≤ length l) by (apply lookup_lt_Some in Hi; lia).
  apply bind_event in Hs as (x & Hx & Hs).
  assert (Hlive : live_at l i rid).
  { apply live_active in Ha as (reg & Hr & Hreg & Hno'). exists reg. split; [lia|]. split; [done|].
    intros k Hk. destruct (Nat.lt_trichotomy k sw) as [?|[->|?]]; [apply Hno'; lia| |apply Hno; lia].
    unfold io_api_deregistered_at. rewrite Hx. by destruct x as [[]|]. }
  apply (table_live l i rid Hle) in Hlive as [ab Hab].
  destruct (last_waker l reading rid i) as [w'|] eqn:Hw.
  - pose proof Hw as (sw' & int' & Hsw' & _ & Hs' & _)%last_waker_some. exists (S i), sw', int', w'.
    split; [lia|]. split; [done|]. split; [done|]. split; [|lia].
    pose proof (traced_at _ _ _ _ _ _ Ht Hi) as Hexp. destruct e as [|[]]; simplify_eq/=.
    specialize (Hexp reading w' Hp). fold rid in Hexp. rewrite Hab in Hexp. simpl in Hexp.
    rewrite (table_wakers l i rid ab reading Ht Ho Hle Hab) in Hexp. specialize (Hexp Hw).
    rewrite head_lookup, lookup_drop, Nat.add_0_r in Hexp. by rewrite Hexp.
  - unfold last_waker in Hw. destruct (find_last_exists (sets_waker reading rid) l i sw x Hx) as [sw' Hsw']; [|done|].
    { apply sets_waker_true. by exists int, w. }
    unfold find_last_set_waker_for_rid in Hw. rewrite Hsw' in Hw. simpl in Hw.
    destruct (find_last_some _ _ _ _ Hsw') as (_ & y & Hy & (int' & w' & Hs' & _)%sets_waker_true).
    rewrite Hy in Hw. simpl in Hw. by rewrite Hs' in Hw.
Qed.

Lemma traced_io_inv l n : traced ∅ l → linv l n → io_inv l.
Proof.
  intros Ht [_ Ho _ _].
  assert (Hreg : ∀ i rid, io_api_registered_at l i rid → registered_at l i rid).
  { intros i rid ([[? ? [[]|]| | | | |]|] & Hi & [= ->])%bind_event. unfold registered_at. by rewrite Hi. }
  assert (Honce : registered_once l) by (intros i j rid ? ?; eapply Ho; by apply Hreg).
  pose proof (traced_set_waker l Ht) as Hset. split_and!; [..|exact Hset| |].
  - intros i rid Hi k Hk Hr. specialize (Honce _ _ _ Hi Hr). lia.
  - intros i d w rid Hi%succ_register_registers k Hk Hr%Hreg. specialize (Ho _ _ _ Hi Hr). lia.
  - intros i rid Hi%Hreg k d w Hk Hr%succ_register_registers. specialize (Ho _ _ _ Hi Hr). lia.
  - intros i w rid (w' & rid' & Hw' & reg & Hlt & Hr & Ha) Hw. rewrite Hw in Hw'. injection Hw' as <- <-.
    apply bind_event in Hw as (e & Hi & He). pose proof (traced_at _ _ _ _ _ _ Ht Hi) as Hx.
    destruct e as [|[]]; simplify_eq/=. assert (Hle : i ≤ length l) by (apply lookup_lt_Some in Hi; lia).
    destruct (proj2 (table_live l i rid Hle)) as [ab Hab].
    { apply live_active. exists reg. by split_and!. }
    destruct (Hx ab Hab) as [reading Hp]. rewrite (table_wakers l i rid ab reading Ht Honce Hle Hab) in Hp.
    apply last_waker_some in Hp as (sw & int & _ & Hsw & Hs & _). exists sw, int.
    split; [done|]. split; [done|]. by eapply Hset.
  - by apply traced_wake_on_io_ready.
  - by apply traced_wake_on_io_ready.
Qed.

End table.

(** ** Every call *)

(** A stretch of the log that opens and closes its calls, and takes one table of I/O
    resources to another. *)
Definition segment (m m' : io_table) (seg : list ReactorEvent) : Prop :=
  protocol Idle seg = Some Idle ∧ traced m seg ∧ replay m seg = m'.

Section calls.
Implicit Types (m : io_table) (seg : list ReactorEvent) (r : Reactor) (t : service) (rid d w : Z).

Lemma segment_nil m : segment m m [].
Proof. done. Qed.

Lemma segment_app m1 m2 m3 seg1 seg2 : segment m1 m2 seg1 → segment m2 m3 seg2 → segment m1 m3 (seg1 ++ seg2).
Proof.
  intros (P1 & T1 & R1) (P2 & T2 & R2). split; [by rewrite protocol_app, P1|].
  split; [apply (traced_app _ _ expected_more); [done|by rewrite R1]|by rewrite replay_app, R1].
Qed.

(** Inside a park the table stays. *)
Lemma wake_events_inside timeout polled m ws :
  (∀ w rid, (w, rid) ∈ ws → m !! rid = None) →
  protocol (InPark timeout true (Some polled)) (wake_events ws) = Some (InPark timeout true (Some polled)) ∧
  traced m (wake_events ws) ∧ replay m (wake_events ws) = m.
Proof.
  induction ws as [|[w rid] ws IH]; intros Hws; [done|].
  destruct IH as (Hp & Ht & Hr); [intros w' rid' ?; eapply Hws; by right|].
  split; [by destruct polled; exact Hp|]. split; [|exact Hr]. split; [|exact Ht]. intros ab Hab.
  simpl in Hab. rewrite (Hws w rid) in Hab by left. done.
Qed.

Lemma io_events_inside timeout n m es :
  protocol (InPark timeout true (Some (Ok n))) (es ≫= io_events m) = Some (InPark timeout true (Some (Ok n))) ∧
  traced m (es ≫= io_events m) ∧ replay m (es ≫= io_events m) = m.
Proof.
  induction es as [|e es (Hp & Ht & Hr)]; [done|]. rewrite bind_cons, protocol_app, replay_app.
  assert (Hone : protocol (InPark timeout true (Some (Ok n))) (io_events m e) = Some (InPark timeout true (Some (Ok n))) ∧
    traced m (io_events m e) ∧ replay m (io_events m e) = m).
  { assert (Hw : ∀ reading w, pick reading (ReactorLog.readable (io_event_view e), ReactorLog.writable (io_event_view e)) = true →
      m !! Reactor.resource_id e ≫= pick reading = Some w → io_waker m e = Some w).
    { unfold io_waker. intros [] w; simpl; by destruct (mode e). }
    assert (Hab : ∀ w ab, io_waker m e = Some w → m !! Reactor.resource_id e = Some ab → ∃ reading, pick reading ab = Some w).
    { unfold io_waker. intros w ab Hwk Hm. rewrite Hm in Hwk. destruct (mode e); [by exists true|by exists false]. }
    unfold io_events. destruct (io_waker m e) as [w|]; simpl; split_and!; try done.
    - intros reading w' Hp' Hm. by injection (Hw reading w' Hp' Hm) as ->.
    - intros ab. by apply Hab.
    - intros reading w' Hp' Hm. by specialize (Hw reading w' Hp' Hm). }
  destruct Hone as (Hp1 & Ht1 & Hr1). rewrite Hp1, Hr1. split; [done|]. split; [|done].
  apply (traced_app _ _ expected_more); [done|by rewrite Hr1].
Qed.

Lemma park_segment m timeout now to ws answer :
  (∀ w rid, (w, rid) ∈ ws → m !! rid = None) → segment m m (park_log timeout now to ws m answer).
Proof.
  intros Hws. unfold park_log.
  set (polled := match answer with Ok es => Ok (length (collect_io_events es)) | Err e => Err e end).
  destruct (wake_events_inside timeout polled m ws Hws) as (Hp & Ht & Hr).
  set (io := match answer with Ok es => collect_io_events es ≫= io_events m | Err _ => [] end).
  assert (Hio : protocol (InPark timeout true (Some polled)) io = Some (InPark timeout true (Some polled)) ∧
    traced m io ∧ replay m io = m) by (subst io polled; destruct answer; [apply io_events_inside|done]).
  destruct Hio as (Hpi & Hti & Hri). split; [|split].
  - rewrite protocol_app. simpl. rewrite protocol_app, Hp. simpl. rewrite protocol_app, Hpi. simpl.
    unfold protocol. simpl. subst polled. destruct answer; simpl; by rewrite decide_True.
  - apply (traced_app _ _ expected_more); [done|]. simpl. apply (traced_app _ _ expected_more); [done|].
    rewrite Hr. apply (traced_app _ _ expected_more); [done|]. by rewrite Hri.
  - rewrite replay_app. simpl. by rewrite !replay_app, Hr, Hri.
Qed.

Lemma register_timer_segment r d w m :
  ∃ seg, log (register_timer r d w).2 = log r ++ seg ∧ segment m m seg.
Proof.
  unfold register_timer. set (r1 := inbound r _). destruct (alloc_resource_id r1) as [[rid|e] r2] eqn:Ea;
    assert (Hl : log r2 = log r1) by (unfold alloc_resource_id in Ea; case_match; by simplify_eq);
    simpl; rewrite Hl; simpl; rewrite <- app_assoc; by eexists.
Qed.

Lemma register_io_segment r t source interest os a t' :
  simulates r t → sstep t (RegisterIo source interest os) a t' →
  ∃ seg, log (register_io_resource r source interest os).2 = log r ++ seg ∧ segment (ios t) (ios t') seg.
Proof.
  intros (T & H & Ht) Hst. pose proof (rc_next _ _ _ (ri_core _ _ _ H)) as Hn.
  unfold register_io_resource, alloc_resource_id. simpl (next_resource_id (inbound _ _)).
  rewrite Ht in Hst. destruct (Z.leb_spec u64_max (next_resource_id r)).
  - assert (Hios : ios t' = ios t) by (inversion Hst; subst; [lia|done]). rewrite Hios. simpl.
    rewrite <- app_assoc. eexists. split; [done|]. split; [|done]. unfold protocol. simpl.
    by rewrite decide_True by done.
  - unfold register_io_source_action, encode_token_raw. cbv zeta. rewrite wrap64_id by u64.
    assert (Hios : ios t' = match os source (next_resource_id r) (interest_to_mio interest) with
      | Ok _ => <[next_resource_id r := (None, None)]> (ios t) | Err _ => ios t end)
      by (inversion Hst; subst; [done|lia]). rewrite Hios.
    destruct (os source (next_resource_id r) (interest_to_mio interest)) as [[]|e]; simpl;
      rewrite <- !app_assoc; (eexists; split; [done|]; split; [|done]); unfold protocol; simpl;
      rewrite decide_True by done; simpl; by rewrite decide_True.
Qed.

Lemma rstep_segment r t c a r' t' :
  simulates r t → service_ok t → call_allowed t c → rstep r c = Some (a, r') → sstep t c a t' →
  ∃ seg, log r' = log r ++ seg ∧ segment (ios t) (ios t') seg.
Proof.
  intros (T & H & Ht) Hok Hc Hr Hst.
  destruct c as [d w|rid|source interest os|rid source os|rid interest w|timeout raw os]; cbn [rstep] in Hr.
  - assert (Hios : ios t' = ios t) by (by inversion Hst; subst). rewrite Hios.
    destruct (handle_register_timer r d w) as [x r2] eqn:Eh. injection Hr as _ ->.
    unfold handle_register_timer in Eh. destruct (pending_deregister r) as [[p d0]|].
    + destruct (_ && _).
      * injection Eh as _ <-. exists []. rewrite app_nil_r. by split; [|apply segment_nil].
      * destruct (register_timer_segment (drop_timer (set_pending r None) p) d w (ios t)) as (seg & Hl & Hs).
        rewrite Eh in Hl. by exists seg.
    + destruct (register_timer_segment r d w (ios t)) as (seg & Hl & Hs). rewrite Eh in Hl. by exists seg.
  - assert (Hios : ios t' = ios t) by (by inversion Hst; subst). rewrite Hios. injection Hr as _ <-.
    destruct (flush_log r) as [Hl _]. unfold handle_deregister_timer.
    destruct (Wheel.get_deadline _ _); simpl; rewrite Hl; [exists []|eexists]; [rewrite app_nil_r|]; by split.
  - destruct (register_io_segment r t source interest os a t' (ex_intro _ T (conj H Ht)) Hst) as (seg & Hl & Hs).
    destruct (register_io_resource r source interest os). injection Hr as _ <-. by exists seg.
  - injection Hr as _ <-. inversion Hst; subst. simpl. rewrite <- !app_assoc. eexists. split; [done|].
    split; [|split; [done|simpl; by rewrite delete_delete_eq]].
    unfold protocol. simpl. rewrite decide_True by done. simpl. by rewrite decide_True by done.
  - apply bind_Some in Hr as (r1 & Hset & [= _ <-]). destruct (set_waker_log _ _ _ _ _ Hset) as [Hl _].
    destruct Hc as [ab Hab]. inversion Hst; subst. simpl in *. eexists. split; [exact Hl|]. simplify_eq.
    split; [done|]. simpl. rewrite Hab. split; [done|done].
  - assert (Hios : ios t' = ios t) by (by inversion Hst; subst). rewrite Hios. destruct Hc as [Hu Hto].
    destruct (flush_spec r T (ios t) H) as (H1 & _ & _ & _ & Hl & _).
    pose proof (reactor_park_spec _ _ (ios t) timeout raw os H1 Hu Hto) as Hp. unfold flush_and_park in Hr.
    destruct (park _ timeout raw os) as [res r2]. injection Hr as _ <-.
    destruct Hp as (to & ws & _ & [_ Hws] & Hlog & _). rewrite Hlog, Hl. eexists. split; [done|].
    apply park_segment. intros w rid Hin. apply Hws in Hin as (d & Hd & _).
    apply (so_timers _ Hok rid d w). by rewrite Ht.
Qed.

(** ** Every run *)

Lemma rrun_segment cs r t answers r' :
  simulates r t → service_ok t → run_allowed t cs → rrun r cs = Some (answers, r') →
  ∃ seg t', simulates r' t' ∧ log r' = log r ++ seg ∧ segment (ios t) (ios t') seg.
Proof.
  revert r t answers. induction cs as [|c cs IH]; intros r t answers Hs Hok Ha Hrun; simpl in Hrun.
  - injection Hrun as _ <-. exists [], t. split; [done|]. rewrite app_nil_r. by split; [|apply segment_nil].
  - inversion Ha as [|? ? ? Hc Hnext]; subst.
    destruct (rstep_simulates r t c Hs Hc) as (a & r1 & t1 & Hstep & Ht & Hs1).
    destruct (rstep_segment r t c a r1 t1 Hs Hok Hc Hstep Ht) as (seg1 & Hl1 & Hseg1).
    rewrite Hstep in Hrun. cbn [mbind option_bind] in Hrun.
    apply bind_Some in Hrun as ([rest r2] & Hrest & [= _ <-]).
    destruct (IH r1 t1 rest Hs1 (sstep_ok _ _ _ _ Hok Hc Ht) (Hnext _ _ Ht) Hrest) as (seg2 & t2 & Hs2 & Hl2 & Hseg2).
    exists (seg1 ++ seg2), t2. split; [done|]. rewrite Hl2, Hl1, app_assoc. split; [done|].
    by eapply segment_app.
Qed.

End calls.

(** C34. The log of every run is well bracketed: each call of a client and each call of
    the system lies where it may; a park reads the clock once and then polls the system
    once, returns the answer of this poll, and events of the system are seen only in a park
    whose poll succeeded.  A registration or deregistration of an I/O source asks the system at
    most once, for this source, and the client gets exactly the system's answer, the id or its error; a
    registration that did not ask answers that the ids are used up, and a deregistration
    always asks. *)
Theorem reactor_log_cycles cs answers r :
  run_allowed service_init cs → rrun new cs = Some (answers, r) →
  protocol Idle (log r) = Some Idle ∧ cycles_inv (log r).
Proof.
  intros Ha Hrun.
  destruct (rrun_segment cs new service_init answers r simulates_new service_ok_init Ha Hrun)
    as (seg & t' & _ & -> & Hp & _). split; [exact Hp|]. by eapply protocol_cycles.
Qed.

(** C33. The log of every run tells the table of I/O resources: replaying it gives the
    resources and wakers that the reactor holds.  Hence the invariants about I/O: ids
    are not shared with timers, a waker is set on an active resource only, a wake of
    a resource is of a waker that was set on it, and each event of the system wakes,
    before the park goes on, the waker that was set last for its direction. *)
Theorem reactor_log_io cs answers r t :
  run_allowed service_init cs → rrun new cs = Some (answers, r) → simulates r t →
  replay ∅ (log r) = ios t ∧ io_inv (log r).
Proof.
  intros Ha Hrun Hsim.
  destruct (rrun_segment cs new service_init answers r simulates_new service_ok_init Ha Hrun)
    as (seg & t' & Hs & Hl & _ & Ht & Hr). rewrite (simulates_unique _ _ _ Hsim Hs).
  split; [by rewrite Hl|].
  assert (Hnew : rgood new) by (exists ∅, ∅; split; [apply new_rinv|apply rlog_new]).
  destruct (rrun_rgood cs new service_init answers r Hnew simulates_new Ha Hrun) as (T & I & _ & Hlinv & _).
  eapply traced_io_inv; [|exact Hlinv]. by rewrite Hl.
Qed.

(** ** Witnesses *)

(** A source is registered, its event wakes task 7, and it is deregistered. *)
Definition io_sample_calls : list ReactorSpec.call :=
  [RegisterIo 5 (true, false) (λ _ _ _, Ok tt); ReactorSpec.SetWaker 1 (true, false) 7;
   ReactorSpec.Park (Some 100) 60 (λ _, Ok [mkMioEvent 1 true false false false false]);
   DeregisterIo 1 5 (λ _, Ok tt)]%Z.

Lemma io_sample_allowed : run_allowed service_init io_sample_calls.
Proof. unfold io_sample_calls. allow; try (split; (u64 || naive_solver lia)); by vm_compute; eexists. Qed.

Lemma reactor_log_cycles_witness :
  ∃ answers r, rrun new io_sample_calls = Some (answers, r) ∧ length (log r) = 14 ∧ cycles_inv (log r).
Proof.
  eexists _, _. split; [vm_compute; reflexivity|]. split; [vm_compute; reflexivity|].
  eapply (reactor_log_cycles io_sample_calls); [apply io_sample_allowed|vm_compute; reflexivity].
Defined.

Lemma reactor_log_io_witness :
  ∃ answers r t, rrun new io_sample_calls = Some (answers, r) ∧ simulates r t ∧
    replay ∅ (log r) = ios t ∧ io_inv (log r).
Proof.
  destruct (rrun_simulates io_sample_calls new service_init simulates_new io_sample_allowed)
    as (answers & r & t & Hrun & _ & Hs). exists answers, r, t. split; [done|]. split; [done|].
  by apply (reactor_log_io io_sample_calls answers r t io_sample_allowed).
Defined.
