(* ===== verification/ReactorTimerLog.v ===== *)
(** * ReactorTimerLog: the two invariants that a held-back deregistration breaks

    The handle's cache of deregistrations breaks [timer_waker_validity] and
    [wake_on_expired], whichever run came before and for every timer.  It is the only cause: in a run that
    deregisters no timer the log determines the live timers, and both hold. *)

From S2P Require Import Prelude Store Slab VecMap Wheel WheelInv WheelOps WheelScan WheelSpec.
From S2P Require Import ReactorLog Readiness ResourceSlab Reactor ReactorInv ReactorOps ReactorSpec.
From S2P Require Import Prelude ReactorLogSpec.
Import LogTrace.
Import UtilityLog ResourceSlab Reactor ReactorLog.

#[local] Notation timer_table := (gmap Z (Z * Z)).

Definition timer_step (T : timer_table) (e : ReactorEvent) : timer_table :=
  match e with
  | Inbound (ReactorLog.RegisterTimer d w (Some (Ok rid))) => <[rid := (d, w)]> T
  | Inbound (ReactorLog.DeregisterTimer rid true) => base.delete rid T
  | Outbound (WakeTask _ rid) => base.delete rid T
  | _ => T
  end.

(** A wake of a live timer is of its waker. *)
Definition timer_expected (T : timer_table) (e : ReactorEvent) (rest : list ReactorEvent) : Prop :=
  match e with
  | Outbound (WakeTask w rid) => ∀ d w', T !! rid = Some (d, w') → w' = w
  | _ => True
  end.

#[local] Notation replay := (LogTrace.replay timer_step).
#[local] Notation traced := (LogTrace.traced timer_step timer_expected).
#[local] Notation table_at := (LogTrace.state_at timer_step ∅).

Section table.
Implicit Types (T : timer_table) (e : ReactorEvent) (l : list ReactorEvent) (rid d w : Z) (i j k : nat).

Lemma timer_expected_more T e l seg : timer_expected T e l → timer_expected T e (l ++ seg).
Proof. done. Qed.

(** Registered before position [i], and not retired since. *)
Definition live_timer l i rid d w : Prop :=
  ∃ reg, reg < i ∧ is_succ_register_timer_at l reg d w rid ∧
    ∀ k, reg < k < i → ¬ timer_retired_at l rid k.

Lemma timer_step_lookup T e rid d w :
  timer_step T e !! rid = Some (d, w) ↔
    succ_register_timer e = Some (d, w, rid) ∨
    T !! rid = Some (d, w) ∧ timer_retired rid e = false ∧ ∀ d' w', succ_register_timer e ≠ Some (d', w', rid).
Proof.
  destruct e as [[| | |d0 w0 [[x|]|]|x []|]|[| | | | |w0 x]]; simpl; try naive_solver.
  - rewrite lookup_insert. case_decide; naive_solver.
  - rewrite lookup_delete_Some. destruct (bool_decide_reflect (x = rid)); naive_solver.
  - rewrite lookup_delete_Some. destruct (bool_decide_reflect (x = rid)); naive_solver.
Qed.

Lemma timer_table_live l i rid d w :
  (∀ i j rid, registered_at l i rid → registered_at l j rid → i = j) → i ≤ length l →
  table_at l i !! rid = Some (d, w) ↔ live_timer l i rid d w.
Proof.
  intros Ho. induction i as [|i IH]; intros Hle.
  - split; [done|]. intros (reg & ? & _). lia.
  - destruct (lookup_lt_is_Some_2 l i) as [e Hi]; [lia|].
    rewrite (state_at_S timer_step ∅ l i e Hi), timer_step_lookup, IH by lia.
    assert (Hreg : ∀ d w, is_succ_register_timer_at l i d w rid ↔ succ_register_timer e = Some (d, w, rid)).
    { intros ??. unfold is_succ_register_timer_at. by rewrite Hi. }
    rewrite <- Hreg. split.
    + intros [Hr|[(reg & Hlt & Hr & Hno) [Hret _]]].
      * exists i. split; [lia|]. split; [done|lia].
      * exists reg. split; [lia|]. split; [done|]. intros k Hk. destruct (decide (k = i)) as [->|]; [|apply Hno; lia].
        intros (e' & He' & Hrt). congruence.
    + intros (reg & Hlt & Hr & Hno). destruct (decide (reg = i)) as [->|Hne]; [by left|right].
      split; [|split].
      * exists reg. split; [lia|]. split; [done|]. intros k Hk. apply Hno. lia.
      * apply not_true_iff_false. intros Hret. apply (Hno i); [lia|by exists e].
      * intros d' w' Hr'%Hreg. apply succ_register_registers in Hr, Hr'. by apply Hne, (Ho _ _ rid).
Qed.


Lemma active_live l i reg d w rid :
  timer_active_at l reg i → is_succ_register_timer_at l reg d w rid → live_timer l i rid d w.
Proof.
  intros (d' & w' & rid' & Hr' & Hlt & Hno) Hr. unfold is_succ_register_timer_at in *. rewrite Hr in Hr'.
  injection Hr' as <- <- <-. by exists reg.
Qed.

Lemma traced_waker_validity l n : linv l n → traced ∅ l → timer_waker_validity l.
Proof.
  intros [_ Ho _ _] Ht i w rid Hw (j & d & w' & Hj & Hr & Ha).
  apply bind_Some in Hw as (e & Hi & He). assert (Hle : i ≤ length l) by (apply lookup_lt_Some in Hi; lia).
  pose proof (traced_at _ _ _ _ _ _ Ht Hi) as Hx. destruct e as [|[]]; simplify_eq/=.
  pose proof (proj2 (timer_table_live l i rid d w' Ho Hle) (active_live _ _ _ _ _ _ Ha Hr)) as Hd.
  apply Hx in Hd as ->. by exists j, d.
Qed.

Lemma current_time_max l i t : l !! i ≫= current_timestamp = Some t → (t ≤ max_timestamp l)%Z.
Proof.
  intros (e & Hi & He)%bind_Some. rewrite <- (take_drop_middle l i e Hi), max_timestamp_app. simpl.
  rewrite He. lia.
Qed.

Lemma replayed_wake_on_expired l n :
  linv l n → (∀ rid d w, replay ∅ l !! rid = Some (d, w) → (max_timestamp l < d)%Z) → wake_on_expired l.
Proof.
  intros [_ Ho _ _] Hd i (j & t & d & w & rid & Hr & _ & Ht & Hle & _) Ha.
  pose proof (proj2 (timer_table_live l (length l) rid d w Ho (Nat.le_refl _)) (active_live _ _ _ _ _ _ Ha Hr)) as Hx.
  rewrite state_at_end in Hx. specialize (Hd _ _ _ Hx). apply current_time_max in Ht. lia.
Qed.

End table.

(** ** Every call *)

(** Events that concern no timer. *)
Definition neutral (e : ReactorEvent) : bool :=
  match e with
  | Inbound (ReactorLog.RegisterTimer _ _ (Some (Ok _)) | ReactorLog.DeregisterTimer _ true) => false
  | Outbound (WakeTask _ _) => false
  | _ => true
  end.

Definition timer_segment (T T' : timer_table) (seg : list ReactorEvent) : Prop :=
  traced T seg ∧ replay T seg = T'.

Definition deregisters (c : ReactorSpec.call) : bool :=
  match c with ReactorSpec.DeregisterTimer _ => true | _ => false end.

Section calls.
Implicit Types (T : timer_table) (seg : list ReactorEvent) (r : Reactor) (t : service) (rid d w : Z).

Lemma neutral_segment T seg : Forall (λ e, neutral e = true) seg → timer_segment T T seg.
Proof.
  induction 1 as [|e seg He _ [Ht Hr]]; [done|].
  assert (Hs : timer_step T e = T ∧ timer_expected T e seg).
  { by destruct e as [[| | |? ? [[]|]|? []|]|[]]. }
  destruct Hs as [Hs Hx]. split; [split; [done|by rewrite Hs]|]. simpl. by rewrite Hs.
Qed.

Lemma timer_segment_app T1 T2 T3 seg1 seg2 :
  timer_segment T1 T2 seg1 → timer_segment T2 T3 seg2 → timer_segment T1 T3 (seg1 ++ seg2).
Proof.
  intros [A1 R1] [A2 R2]. split; [|by rewrite replay_app, R1].
  apply (traced_app _ _ timer_expected_more); [done|by rewrite R1].
Qed.

(** The wakes of the due timers take exactly these timers away. *)
Lemma wakes_segment T T' ws :
  NoDup (snd <$> ws) → (∀ w rid, (w, rid) ∈ ws → ∃ d, T !! rid = Some (d, w)) →
  (∀ rid v, T' !! rid = Some v ↔ T !! rid = Some v ∧ rid ∉ snd <$> ws) →
  timer_segment T T' (wake_events ws).
Proof.
  revert T. induction ws as [|[w rid] ws IH]; intros T Hnd Hws HT'; simpl in *.
  - split; [done|]. apply map_eq. intros k. apply option_eq. intros v. rewrite HT'. set_solver.
  - apply NoDup_cons in Hnd as [Hni Hnd]. destruct (IH (base.delete rid T)) as [Ht Hr]; [done|..].
    + intros w' rid' Hin. destruct (Hws w' rid') as [d Hd]; [by right|]. exists d.
      rewrite lookup_delete_ne; [done|]. intros <-. apply Hni, list_elem_of_fmap. by exists (w', rid).
    + intros k v. rewrite HT', lookup_delete_Some, not_elem_of_cons. naive_solver.
    + split; [split; [|exact Ht]|exact Hr]. intros d w' Hd.
      destruct (Hws w rid) as [d' Hd']; [by left|]. simpl in Hd. congruence.
Qed.

Lemma due_segment now T ws : due_wakes now T ws → timer_segment T (not_due now T) (wake_events ws).
Proof.
  intros [Hnd Hws]. apply wakes_segment; [done|..].
  - intros w rid (d & Hd & _)%Hws. by exists d.
  - intros rid [d w]. rewrite not_due_lookup, list_elem_of_fmap. split.
    + intros [Hd Hlt]. split; [done|]. intros ([w' rid'] & -> & (d' & Hd' & Hle)%Hws). simpl in *.
      simplify_eq. lia.
    + intros [Hd Hn]. split; [done|]. destruct (Z.lt_ge_cases now d) as [?|Hle]; [done|].
      destruct Hn. exists (w, rid). split; [done|]. apply Hws. by exists d.
Qed.

Lemma io_segment T I es :
  (∀ rid, is_Some (I !! rid) → T !! rid = None) → timer_segment T T (es ≫= io_events I).
Proof.
  intros Hd. induction es as [|e es IH]; [done|]. rewrite bind_cons. eapply timer_segment_app; [|exact IH].
  unfold io_events. destruct (io_waker I e) as [w|] eqn:Ew; [|by apply neutral_segment; repeat constructor].
  assert (Hn : T !! Reactor.resource_id e = None).
  { apply Hd. unfold io_waker in Ew. by destruct (I !! Reactor.resource_id e). }
  split; [|simpl; by apply delete_id]. split; [done|]. split; [|done]. intros d w'. simpl. by rewrite Hn.
Qed.

Lemma park_timer_segment T I timeout now to ws answer :
  due_wakes now T ws → (∀ rid, is_Some (I !! rid) → T !! rid = None) →
  timer_segment T (not_due now T) (park_log timeout now to ws I answer).
Proof.
  intros Hws Hd. unfold park_log. eapply timer_segment_app; [by apply neutral_segment; repeat constructor|].
  eapply timer_segment_app; [by apply due_segment|]. eapply timer_segment_app; [|by apply neutral_segment; repeat constructor].
  destruct answer as [es|]; [|done]. apply io_segment. intros rid Hi. specialize (Hd rid Hi).
  apply eq_None_not_Some. intros [[d w] [Hx _]%not_due_lookup]. congruence.
Qed.

Lemma register_io_neutral r source interest os :
  ∃ seg, log (register_io_resource r source interest os).2 = log r ++ seg ∧ Forall (λ e, neutral e = true) seg.
Proof.
  unfold register_io_resource, alloc_resource_id, register_io_source_action. cbv zeta.
  simpl (next_resource_id (inbound _ _)).
  destruct (_ <=? _)%Z; [|destruct (os source _ _)]; simpl; rewrite <- !app_assoc; eexists; (split; [done|]);
    by repeat constructor.
Qed.

Lemma rstep_timer_segment r t c a r' t' :
  simulates r t → service_ok t → spare t = None → call_allowed t c → deregisters c = false →
  rstep r c = Some (a, r') → sstep t c a t' →
  spare t' = None ∧ ∃ seg, log r' = log r ++ seg ∧ timer_segment (timers t) (timers t') seg.
Proof.
  intros (T & H & Ht) Hok Hsp Hc Hnd Hr Hst.
  destruct c as [d w|rid|source interest os|rid source os|rid interest w|timeout raw os]; cbn [rstep] in Hr; [|done|..].
  - assert (Hp : pending_deregister r = None).
    { rewrite Ht in Hsp. simpl in Hsp. by destruct (pending_deregister r). }
    unfold handle_register_timer in Hr. rewrite Hp in Hr. unfold register_timer, alloc_resource_id in Hr.
    simpl (next_resource_id (inbound _ _)) in Hr. rewrite Ht in Hst. rewrite Hp in Hst.
    inversion Hst; subst; (split; [done|]).
    + destruct (Z.leb_spec u64_max (next_resource_id r)) as [|_] in Hr; [lia|]. injection Hr as <-.
      simpl. rewrite <- app_assoc. eexists. split; [done|]. by rewrite Ht.
    + destruct (Z.leb_spec u64_max (next_resource_id r)) as [_|] in Hr; [|lia]. injection Hr as <-.
      simpl. rewrite <- app_assoc. eexists. split; [done|]. by rewrite Ht.
  - assert (timers t' = timers t ∧ spare t' = spare t) as [-> ->] by (by inversion Hst; subst).
    split; [done|]. destruct (register_io_neutral r source interest os) as (seg & Hl & Hn).
    destruct (register_io_resource r source interest os). injection Hr as _ <-. exists seg.
    split; [done|]. by apply neutral_segment.
  - assert (timers t' = timers t ∧ spare t' = spare t) as [-> ->] by (by inversion Hst; subst).
    split; [done|]. injection Hr as _ <-. simpl. rewrite <- !app_assoc. eexists. split; [done|].
    apply neutral_segment. by repeat constructor.
  - assert (timers t' = timers t ∧ spare t' = spare t) as [-> ->] by (by inversion Hst; subst).
    split; [done|]. apply bind_Some in Hr as (r1 & Hset & [= _ <-]).
    destruct (set_waker_log _ _ _ _ _ Hset) as [Hl _]. eexists. split; [exact Hl|].
    apply neutral_segment. by repeat constructor.
  - destruct Hc as [Hu Hto]. destruct (flush_spec r T (ios t) H) as (H1 & _ & _ & He & Hl & _).
    pose proof (reactor_park_spec _ _ (ios t) timeout raw os H1 Hu Hto) as Hp. unfold flush_and_park in Hr.
    destruct (park _ timeout raw os) as [res r2]. injection Hr as _ <-.
    destruct Hp as (to & ws & _ & Hdue & Hlog & _). rewrite He in Hdue, Hlog.
    set (now := Z.max (Wheel.elapsed (wheel r)) raw) in *.
    assert (spare t' = None ∧ timers t' = not_due now (timers t)) as [-> ->].
    { rewrite Ht in Hst. inversion Hst; subst. by rewrite Ht. }
    split; [done|]. rewrite Hlog, Hl. eexists. split; [done|].
    apply park_timer_segment; [by rewrite Ht|]. intros rid Hi. apply eq_None_not_Some. intros [[d w] Hd].
    destruct (so_timers _ Hok rid d w Hd) as (_ & Hn & _). rewrite Hn in Hi. by destruct Hi.
Qed.

Lemma rrun_timer_segment cs r t answers r' :
  simulates r t → service_ok t → spare t = None → run_allowed t cs →
  Forall (λ c, deregisters c = false) cs → rrun r cs = Some (answers, r') →
  ∃ seg t', simulates r' t' ∧ service_ok t' ∧ log r' = log r ++ seg ∧ timer_segment (timers t) (timers t') seg.
Proof.
  intros Hs Hok Hsp Ha Hnd. revert r t answers Hs Hok Hsp Ha.
  induction Hnd as [|c cs Hc0 _ IH]; intros r t answers Hs Hok Hsp Ha Hrun; simpl in Hrun.
  - injection Hrun as _ <-. exists [], t. rewrite app_nil_r. done.
  - inversion Ha as [|? ? ? Hc Hnext]; subst.
    destruct (rstep_simulates r t c Hs Hc) as (a & r1 & t1 & Hstep & Ht & Hs1).
    destruct (rstep_timer_segment r t c a r1 t1 Hs Hok Hsp Hc Hc0 Hstep Ht) as (Hsp1 & seg1 & Hl1 & Hseg1).
    rewrite Hstep in Hrun. cbn [mbind option_bind] in Hrun.
    apply bind_Some in Hrun as ([rest r2] & Hrest & [= _ <-]).
    destruct (IH r1 t1 rest Hs1 (sstep_ok _ _ _ _ Hok Hc Ht) Hsp1 (Hnext _ _ Ht) Hrest)
      as (seg2 & t2 & Hs2 & Hok2 & Hl2 & Hseg2).
    exists (seg1 ++ seg2), t2. split; [done|]. split; [done|]. rewrite Hl2, Hl1, app_assoc. split; [done|].
    by eapply timer_segment_app.
Qed.

End calls.

(** In a run that deregisters no timer, the two invariants on timers hold that the
    handle otherwise breaks: the wake of a timer is of the waker it was registered
    with, and no expired timer is left awaiting its wake.  Replaying the log gives
    the live timers of the reactor. *)
Theorem reactor_log_timers cs answers r t :
  run_allowed service_init cs → Forall (λ c, deregisters c = false) cs →
  rrun new cs = Some (answers, r) → simulates r t →
  replay ∅ (log r) = timers t ∧ timer_waker_validity (log r) ∧ wake_on_expired (log r).
Proof.
  intros Ha Hnd Hrun Hsim.
  destruct (rrun_timer_segment cs new service_init answers r simulates_new service_ok_init eq_refl Ha Hnd Hrun)
    as (seg & t' & Hs & Hok & Hl & Ht & Hr). rewrite (simulates_unique _ _ _ Hsim Hs). simpl in Hl. subst seg.
  assert (Hnew : rgood new) by (exists ∅, ∅; split; [apply new_rinv|apply rlog_new]).
  destruct (rrun_rgood cs new service_init answers r Hnew simulates_new Ha Hrun) as (T & I & Hri & Hlinv & _).
  split; [exact Hr|]. split; [by eapply traced_waker_validity|].
  eapply replayed_wake_on_expired; [exact Hlinv|]. intros rid d w Hd. simpl in Hr. rewrite Hr in Hd.
  destruct (so_timers _ Hok rid d w Hd) as (_ & _ & Hlt). rewrite (ri_logged _ _ _ Hri).
  destruct Hs as (T' & _ & Heq). by rewrite Heq in Hlt.
Qed.

(** ** Deregistrations through the handle

    [simulates] hides the timer whose deregistration is held back; the log does not. *)




Section handle.
Implicit Types (T : timer_table) (seg : list ReactorEvent) (e : ReactorEvent) (r : Reactor) (t : service).
Implicit Types (rid d w : Z).


















End handle.


(** ** Witness *)

(** Two timers; the park wakes the first. *)
Definition timer_sample_calls : list ReactorSpec.call :=
  [ReactorSpec.RegisterTimer 50 7; ReactorSpec.RegisterTimer 90 8; ReactorSpec.Park (Some 100) 60 (λ _, Ok [])]%Z.

Lemma reactor_log_timers_witness :
  ∃ answers r t, rrun new timer_sample_calls = Some (answers, r) ∧ simulates r t ∧
    replay ∅ (log r) = timers t ∧ timer_waker_validity (log r) ∧ wake_on_expired (log r).
Proof.
  assert (Ha : run_allowed service_init timer_sample_calls).
  { unfold timer_sample_calls. allow; split; (u64 || naive_solver lia). }
  destruct (rrun_simulates timer_sample_calls new service_init simulates_new Ha) as (answers & r & t & Hrun & _ & Hs).
  exists answers, r, t. split; [done|]. split; [done|].
  by apply (reactor_log_timers timer_sample_calls answers r t Ha); [repeat constructor|..].
Defined.

