(* ===== verification/ReactorData.v ===== *)
(** * ReactorData: the table of the reactor says what its log says

    [lion-reactor/src/invariants/data_inv.rs] and [spec/predicates.rs]: the contract under
    which every operation of [Reactor] is verified.  The views of the table, [derive_*] of
    [resource_slab.rs], are partial functions on ids.  [data_inv] ties them to the log: a timer of the
    table is the registration at the position that its entry keeps, and the wakers of an I/O
    resource are the last that were set.  It holds of every run of the operations themselves.
    The handle is not one of them: its cache of deregistrations leaves the log behind. *)

From S2P Require Import Prelude Store Slab VecMap Wheel WheelInv WheelOps WheelScan WheelSpec.
From S2P Require Import ReactorLog Readiness ResourceSlab Reactor ReactorInv ReactorOps ReactorSpec.
From S2P Require Import ReactorLogSpec ReactorIoLog ReactorIoSpec ReactorTimerLog.
Import UtilityLog ResourceSlab Reactor ReactorLog ReactorIoLog.

Module ReactorData.
Implicit Types (l : list ReactorEvent) (rid d w : Z) (i j k : nat) (m : ResourceSlab) (r : Reactor).

(** ** The views of the table ([derive_*]) *)

Definition timer_map_view m rid : option (Z * Z * nat) :=
  st_get m rid ≫= λ s,
    match s with Timer e _ => Some (deadline e, ResourceSlab.resource_id e, log_index e) | Io _ _ => None end.
Definition timer_set_view m (x : Z * Z * nat) : Prop := ∃ rid, timer_map_view m rid = Some x.
Definition timer_wakers_view m rid : option Z :=
  st_get m rid ≫= λ s, match s with Timer _ w => Some w | Io _ _ => None end.
Definition wakers_view (reading : bool) m rid : option Z :=
  st_get m rid ≫= λ s, match s with Timer _ _ => None | Io a b => pick reading (a, b) end.

(** ** The table and the log ([data_inv.rs]) *)

Section data.
Context (timers_view : Z * Z * nat → Prop) (by_rid_view : Z → option (Z * Z * nat)).
Context (timer_wakers : Z → option Z) (io_wakers : bool → Z → option Z).

Definition timer_heap_entries_valid l : Prop :=
  ∀ d rid i, timers_view (d, rid, i) →
    timer_awaiting_wake l i ∧ ∃ w, is_succ_register_timer_at l i d w rid.

Definition active_timers_in_heap l : Prop :=
  ∀ i d w rid, timer_awaiting_wake l i → is_succ_register_timer_at l i d w rid →
    ∃ d' rid', by_rid_view rid = Some (d', rid', i).

Definition timer_wakers_match l : Prop :=
  ∀ rid w, timer_wakers rid = Some w →
    ∃ d rid' i d', by_rid_view rid = Some (d, rid', i) ∧ is_succ_register_timer_at l i d' w rid.

Definition timer_heap_has_wakers : Prop :=
  ∀ rid, is_Some (by_rid_view rid) → is_Some (timer_wakers rid).

Definition io_currently_active l rid : Prop :=
  ∃ reg, io_api_registered_at l reg rid ∧ io_api_active_at l reg (length l).

(** The waker of a direction is the last that was set for it. *)
Definition io_wakers_valid (reading : bool) l : Prop :=
  ∀ rid w, io_wakers reading rid = Some w →
    io_currently_active l rid ∧
    ∃ sw int, l !! sw ≫= succ_set_waker = Some (rid, int, w) ∧ pick reading int = true ∧
      io_api_active_at_set_waker l rid sw ∧
      ∀ k int' w', sw < k → l !! k ≫= succ_set_waker = Some (rid, int', w') → pick reading int' = false.

Definition has_active_set_waker (reading : bool) l rid : Prop :=
  ∃ reg, io_api_registered_at l reg rid ∧ io_api_active_at l reg (length l) ∧
    ∃ sw int w, reg < sw ∧ l !! sw ≫= succ_set_waker = Some (rid, int, w) ∧ pick reading int = true.

Definition io_wakers_complete (reading : bool) l : Prop :=
  ∀ rid, has_active_set_waker reading l rid → is_Some (io_wakers reading rid).

Definition data_inv l : Prop :=
  timer_heap_entries_valid l ∧ active_timers_in_heap l ∧ timer_wakers_match l ∧ timer_heap_has_wakers ∧
  io_wakers_valid true l ∧ io_wakers_valid false l ∧ io_wakers_complete true l ∧ io_wakers_complete false l.
End data.

(** ** The rest of the contract ([predicates.rs], [invariants/mod.rs]) *)

Definition timer_impl_inv (timers_view : Z * Z * nat → Prop) (by_rid_view : Z → option (Z * Z * nat))
    (next_rid : Z) : Prop :=
  pred_finite timers_view ∧
  (∀ rid x, by_rid_view rid = Some x → timers_view x ∧ x.1.2 = rid ∧ (1 ≤ rid < next_rid)%Z) ∧
  (∀ d rid i, timers_view (d, rid, i) → by_rid_view rid = Some (d, rid, i)).

Definition slab_alloc_inv m (next_rid : Z) : Prop :=
  ∀ rid, is_Some (st_get m rid) → (1 ≤ rid < next_rid)%Z.

Definition wheel_slab_consistent (wheel_view : Z → option Z) (timer_map : Z → option (Z * Z * nat)) : Prop :=
  ∀ rid, wheel_view rid = (λ x, x.1.1) <$> timer_map rid.

Definition alloc_inv l (next_rid : Z) : Prop :=
  (1 ≤ next_rid)%Z ∧
  (∀ i d w rid, is_succ_register_timer_at l i d w rid → (1 ≤ rid < next_rid)%Z) ∧
  (∀ i rid, io_api_registered_at l i rid → (1 ≤ rid < next_rid)%Z).

Definition reactor_safety_inv l : Prop :=
  timer_reg_uniqueness l ∧ io_reg_uniqueness l ∧ timer_io_disjoint_at_timer l ∧ timer_io_disjoint_at_io l ∧
  timer_waker_validity l ∧ io_waker_validity l ∧ wake_has_registration l.
Definition reactor_liveness_inv l : Prop :=
  wake_on_expired l ∧ wake_on_io_ready true l ∧ wake_on_io_ready false l.
Definition reactor_inv l : Prop := reactor_safety_inv l ∧ reactor_liveness_inv l.
Definition reactor_ext_inv l : Prop :=
  timer_deadline_future l ∧ park_has_timestamp l ∧ park_poll_once l ∧ io_ready_in_park l ∧
  register_io_in_cycle l ∧ deregister_io_in_cycle l ∧ inbound_deregister_io_result l ∧
  inbound_register_io_result l ∧ set_waker_active_io l.
Definition reactor_wf l (next_rid : Z) : Prop := reactor_inv l ∧ reactor_ext_inv l ∧ alloc_inv l next_rid.

(** What every operation requires and ensures; [free_rids] is empty. *)
Definition verified r : Prop :=
  let ts := timer_set_view (resources r) in
  let tm := timer_map_view (resources r) in
  Wheel.full_wf (wheel r) ∧ Wheel.pending (wheel r) = [] ∧
  reactor_wf (log r) (next_resource_id r) ∧
  timer_impl_inv ts tm (next_resource_id r) ∧ slab_alloc_inv (resources r) (next_resource_id r) ∧
  data_inv ts tm (timer_wakers_view (resources r)) (λ reading, wakers_view reading (resources r)) (log r) ∧
  wheel_slab_consistent (Wheel.get_deadline (wheel r)) tm.

(** ** The operations, called directly *)

Definition vstep r (c : ReactorSpec.call) : option (answer * Reactor) :=
  match c with
  | ReactorSpec.RegisterTimer d w => let '(a, r') := register_timer r d w in Some (Id a, r')
  | ReactorSpec.DeregisterTimer rid => Some (Done (Ok tt), deregister_timer r rid)
  | ReactorSpec.RegisterIo source interest os =>
      let '(a, r') := register_io_resource r source interest os in Some (Id a, r')
  | ReactorSpec.DeregisterIo rid source os =>
      let '(a, r') := deregister_io_resource r rid source os in Some (Done a, r')
  | ReactorSpec.SetWaker rid interest w => r' ← set_waker r rid interest w; Some (Done (Ok tt), r')
  | ReactorSpec.Park timeout raw os =>
      let '(a, r') := park r timeout raw os in
      Some (Parked (omap poll_events (new_events r r')) (wakes (new_events r r')) a, r')
  end.

(** The [requires] clauses that are particular to an operation; the last one says that
    the clock and the timeout are machine words. *)
Definition requires r (c : ReactorSpec.call) : Prop :=
  match c with
  | ReactorSpec.RegisterTimer d _ =>
      is_u64 d ∧ (max_timestamp (log r) < d)%Z ∧ (Wheel.elapsed (wheel r) < d)%Z
  | ReactorSpec.DeregisterTimer rid => is_Some (timer_map_view (resources r) rid)
  | ReactorSpec.RegisterIo _ _ _ => True
  | ReactorSpec.DeregisterIo rid _ _ => ∃ s, st_get (resources r) rid = Some s ∧ is_io s = true
  | ReactorSpec.SetWaker rid _ _ =>
      io_currently_active (log r) rid ∧ ∃ s, st_get (resources r) rid = Some s ∧ is_io s = true
  | ReactorSpec.Park timeout raw _ => is_u64 raw ∧ ∀ d, timeout = Some d → (0 ≤ d)%Z
  end.

Inductive vreach : Reactor → Prop :=
  | vreach_new : vreach Reactor.new
  | vreach_step r c a r' : vreach r → requires r c → vstep r c = Some (a, r') → vreach r'.

(** ** The positions in the entries *)

Definition entries_ok r : Prop :=
  ∀ rid e w, st_get (resources r) rid = Some (Timer e w) →
    ResourceSlab.resource_id e = rid ∧ is_succ_register_timer_at (log r) (log_index e) (deadline e) w rid.

Section entries.

Lemma entries_more r r' seg :
  entries_ok r → log r' = log r ++ seg →
  (∀ rid e w, st_get (resources r') rid = Some (Timer e w) → st_get (resources r) rid = Some (Timer e w)) →
  entries_ok r'.
Proof.
  intros H Hl Hs rid e w Hk. destruct (H rid e w (Hs _ _ _ Hk)) as [? Hr]. split; [done|].
  rewrite Hl. by apply register_at_app.
Qed.

Lemma entries_register_timer r d w : entries_ok r → entries_ok (register_timer r d w).2.
Proof.
  intros H. unfold register_timer, alloc_resource_id. simpl (next_resource_id (inbound _ _)).
  destruct (Z.leb_spec u64_max (next_resource_id r)); simpl.
  - eapply entries_more; [exact H|simpl; by rewrite <- app_assoc|done].
  - intros rid e w'. simpl. rewrite get_insert_timer. case_decide as Hd.
    + intros [= <- <-]. subst rid. split; [done|]. simpl. unfold is_succ_register_timer_at.
      by rewrite lookup_app_r, Nat.sub_diag.
    + intros Hk. destruct (H rid e w' Hk) as [? Hr]. split; [done|]. by do 2 apply register_at_app.
Qed.

Lemma entries_deregister_timer r rid : entries_ok r → entries_ok (deregister_timer r rid).
Proof.
  intros H. eapply (entries_more r); [done|done|]. intros k e w. simpl. unfold v_remove_timer_slot.
  rewrite get_remove. by case_decide.
Qed.

Lemma entries_register_io r source interest os :
  entries_ok r → entries_ok (register_io_resource r source interest os).2.
Proof.
  intros H. destruct (register_io_neutral r source interest os) as (seg & Hl & _).
  eapply entries_more; [exact H|exact Hl|]. intros rid e w. unfold register_io_resource, alloc_resource_id.
  simpl (next_resource_id (inbound _ _)). destruct (_ <=? _)%Z; [done|].
  unfold register_io_source_action. cbv zeta. destruct (os source _ _); [|done].
  simpl. rewrite get_insert_io. by case_decide.
Qed.

Lemma entries_deregister_io r rid source os :
  entries_ok r → entries_ok (deregister_io_resource r rid source os).2.
Proof.
  intros H. eapply (entries_more r); [done|simpl; by rewrite <- !app_assoc|]. intros k e w. simpl.
  unfold v_remove_io_slot. rewrite get_remove. by case_decide.
Qed.

(** Setting a waker writes a slot of an I/O resource. *)
Lemma put_io_timers m (key : Z) (f : ResourceSlot → option ResourceSlot) m' (k : Z) e w :
  (let '(old, m1) := st_remove m key in old ≫= λ s, f s ≫= λ s', Some (st_insert m1 key s')) = Some m' →
  (∀ s s', f s = Some s' → is_io s' = true) →
  st_get m' k = Some (Timer e w) → st_get m k = Some (Timer e w).
Proof.
  intros Hm Hf. pose proof (st_get_remove ResourceSlot m key k) as Hg.
  destruct (st_remove m key) as [old m1]. apply bind_Some in Hm as (s & _ & Hm).
  apply bind_Some in Hm as (s' & Hs & [= <-]). rewrite st_get_insert. case_decide.
  - intros [= ->]. by apply Hf in Hs.
  - intros Hk. by rewrite <- Hg.
Qed.

Lemma entries_set_waker r rid interest w r' :
  entries_ok r → set_waker r rid interest w = Some r' → entries_ok r'.
Proof.
  intros H Hr. destruct (set_waker_log _ _ _ _ _ Hr) as [Hl _].
  eapply entries_more; [exact H|exact Hl|]. intros k e w' Hk.
  apply bind_Some in Hr as (m1 & H1 & Hr). apply bind_Some in Hr as (m2 & H2 & [= <-]). simpl in Hk.
  assert (Hk1 : st_get m1 k = Some (Timer e w')).
  { destruct interest.2; [|by injection H2 as ->]. eapply put_io_timers; [exact H2| |exact Hk].
    intros [|a b] s'; [done|]. by intros [= <-]. }
  destruct interest.1; [|by injection H1 as ->]. eapply put_io_timers; [exact H1| |exact Hk1].
  intros [|a b] s'; [done|]. by intros [= <-].
Qed.

Lemma expired_loop_slots n r now (k : Z) s :
  st_get (resources (wake_expired_loop n r now)) k = Some s → st_get (resources r) k = Some s.
Proof.
  revert r. induction n as [|n IH]; intros r; [done|]. simpl. unfold try_pop_expired_timer.
  destruct (Wheel.try_pop_expired (wheel r) now) as [[rid|] w1]; [|done].
  destruct (v_take_timer_waker _ _) as [w|]; intros Hk%IH; [|done].
  simpl in Hk. unfold v_remove_timer_slot in Hk. rewrite get_remove in Hk. by case_decide.
Qed.

Lemma io_events_slots r es : resources (process_io_events r es) = resources r.
Proof.
  unfold process_io_events. revert r. induction es as [|e es IH]; intros r; [done|]. simpl. rewrite IH.
  unfold process_io_event. by destruct (mode e); case_match.
Qed.

Lemma park_slots r timeout raw os (k : Z) s :
  st_get (resources (park r timeout raw os).2) k = Some s → st_get (resources r) k = Some s.
Proof.
  unfold park, get_current_time_action, poll_events_action. cbv zeta.
  destruct (os _) as [es|e]; simpl; rewrite ?io_events_slots; by intros Hk%expired_loop_slots.
Qed.

End entries.

(** ** What the log and the table say of each other *)

Record kept r (t : service) : Prop := {
  kp_sim : simulates r t;
  kp_ok : service_ok t;
  kp_spare : spare t = None;
  kp_good : rgood r;
  kp_entries : entries_ok r;
  kp_timers : timer_segment ∅ (timers t) (log r);
  kp_ios : segment ∅ (ios t) (log r);
}.

Section kept.
Implicit Types (t : service).

Lemma simulates_core r t : simulates r t → spare t = None →
  rinv r (timers t) (ios t) ∧ pending_deregister r = None ∧ clock t = Wheel.elapsed (wheel r).
Proof.
  intros (T & H & Ht) Hs. assert (Hp : pending_deregister r = None).
  { rewrite Ht in Hs. simpl in Hs. by destruct (pending_deregister r). }
  rewrite Ht at 1 3. simpl. by rewrite live_no_pending.
Qed.

Lemma kept_linv r t : kept r t → linv (log r) (next_resource_id r).
Proof. intros H. by destruct (kp_good _ _ H) as (T & I & _ & ? & _). Qed.

Lemma api_registers l i rid : io_api_registered_at l i rid → registered_at l i rid.
Proof. intros ([[? ? [[]|]| | | | |]|] & Hi & [= ->])%bind_event. unfold registered_at. by rewrite Hi. Qed.

(** A timer of the table is the active registration at the position it keeps. *)
Lemma table_timer r t rid d w i :
  kept r t →
  (∃ e, st_get (resources r) rid = Some (Timer e w) ∧ deadline e = d ∧ log_index e = i) ↔
    timer_awaiting_wake (log r) i ∧ is_succ_register_timer_at (log r) i d w rid.
Proof.
  intros H. destruct (simulates_core _ _ (kp_sim _ _ H) (kp_spare _ _ H)) as (Hr & _ & _).
  pose proof (kept_linv _ _ H) as [_ Ho _ _]. pose proof (ri_core _ _ _ Hr) as Hc.
  assert (HT : timers t !! rid = Some (d, w) ↔ live_timer (log r) (length (log r)) rid d w).
  { rewrite <- (timer_table_live (log r) _ rid d w Ho (Nat.le_refl _)), LogTrace.state_at_end.
    by destruct (kp_timers _ _ H) as [_ ->]. }
  split.
  - intros (e & He & <- & <-). destruct (kp_entries _ _ H rid e w He) as [_ Hi].
    assert (Ht : timers t !! rid = Some (deadline e, w)) by (by rewrite <- (rc_timers _ _ _ Hc), He).
    apply HT in Ht as (reg & ? & Hreg & Hno). split; [|done].
    assert (reg = log_index e) as -> by (apply (Ho _ _ rid); by eapply succ_register_registers).
    by exists (deadline e), w, rid.
  - intros [Ha Hi]. pose proof (proj2 HT (active_live _ _ _ _ _ _ Ha Hi)) as Ht.
    destruct (slot_timer _ _ _ _ _ _ Hc Ht) as (e & He & <-). exists e. split; [done|]. split; [done|].
    destruct (kp_entries _ _ H rid e w He) as [_ He']. apply (Ho _ _ rid); by eapply succ_register_registers.
Qed.

(** An I/O resource of the table is active, with the wakers that were set last. *)
Lemma table_io r t rid :
  kept r t → (∃ a b, st_get (resources r) rid = Some (Io a b)) ↔ io_currently_active (log r) rid.
Proof.
  intros H. destruct (simulates_core _ _ (kp_sim _ _ H) (kp_spare _ _ H)) as (Hr & _ & _).
  pose proof (ri_core _ _ _ Hr) as Hc. destruct (kp_ios _ _ H) as (_ & _ & Hre).
  assert (HI : is_Some (ios t !! rid) ↔ io_currently_active (log r) rid).
  { rewrite <- Hre, <- LogTrace.state_at_end, table_live, live_active by done. split.
    - intros (reg & _ & ? & ?). by exists reg.
    - intros (reg & Hreg & Ha). exists reg. split; [|done]. by destruct Ha as (? & _ & ? & _). }
  rewrite <- HI. split.
  - intros (a & b & Hs). by rewrite <- (rc_ios _ _ _ Hc), Hs.
  - intros [[a b] Hs]. exists a, b. by apply (slot_io _ _ _ _ _ _ Hc).
Qed.

Lemma table_waker r t reading rid ab :
  kept r t → ios t !! rid = Some ab → pick reading ab = last_waker (log r) reading rid (length (log r)).
Proof.
  intros H Hi. pose proof (kept_linv _ _ H) as [_ Ho _ _]. destruct (kp_ios _ _ H) as (_ & Ht & Hre).
  eapply table_wakers; [exact Ht| |done|by rewrite LogTrace.state_at_end, Hre].
  intros i j x Hx Hy. eapply Ho; by apply api_registers.
Qed.

Lemma find_last_later f l n i k e :
  find_last f l n = Some i → i < k < n → l !! k = Some e → f e = false.
Proof.
  induction n as [|n IH]; intros Hf Hk He; [lia|]. simpl in Hf.
  destruct (decide (k = n)) as [->|Hne].
  - rewrite He in Hf. destruct (f e); [|done]. injection Hf as ->. lia.
  - destruct (l !! n) as [x|]; [destruct (f x)|]; [injection Hf as ->; lia|..]; apply IH; auto with lia.
Qed.

Lemma wakers_view_ios r t reading rid :
  kept r t → wakers_view reading (resources r) rid = ios t !! rid ≫= pick reading.
Proof.
  intros H. destruct (simulates_core _ _ (kp_sim _ _ H) (kp_spare _ _ H)) as (Hr & _ & _).
  unfold wakers_view. rewrite <- (rc_ios _ _ _ (ri_core _ _ _ Hr)).
  by destruct (st_get (resources r) rid) as [[|]|].
Qed.

Lemma kept_io_valid r t reading :
  kept r t → io_wakers_valid (λ b, wakers_view b (resources r)) reading (log r).
Proof.
  intros H rid w Hw. pose proof Hw as Hw'. rewrite (wakers_view_ios _ _ _ _ H) in Hw.
  apply bind_Some in Hw as (ab & Hab & Hp). split.
  { apply (table_io _ _ _ H). unfold wakers_view in Hw'.
    destruct (st_get (resources r) rid) as [[|a b]|]; [done| |done]. by exists a, b. }
  rewrite (table_waker _ _ _ _ _ H Hab) in Hp.
  destruct (last_waker_some _ _ _ _ _ Hp) as (sw & int & Hf & _ & Hs & Hint). exists sw, int.
  split; [done|]. split; [done|]. split.
  { destruct (kp_ios _ _ H) as (_ & Ht & _). by eapply traced_set_waker. }
  intros k int' w' Hk (e & He & Hs')%bind_event.
  assert (Hlt : k < length (log r)) by by eapply lookup_lt_Some.
  pose proof (find_last_later _ _ _ _ _ _ Hf (conj Hk Hlt) He) as Hno. unfold sets_waker in Hno.
  rewrite Hs', bool_decide_true in Hno by done. done.
Qed.

Lemma kept_io_complete r t reading :
  kept r t → io_wakers_complete (λ b, wakers_view b (resources r)) reading (log r).
Proof.
  intros H rid (reg & Hreg & Ha & sw & int & w & _ & Hs & Hint).
  assert (Hact : io_currently_active (log r) rid) by by exists reg.
  apply (table_io _ _ _ H) in Hact as (a & b & Hsl). rewrite (wakers_view_ios _ _ _ _ H).
  destruct (simulates_core _ _ (kp_sim _ _ H) (kp_spare _ _ H)) as (Hr & _ & _).
  assert (Hab : ios t !! rid = Some (a, b)) by (by rewrite <- (rc_ios _ _ _ (ri_core _ _ _ Hr)), Hsl).
  rewrite Hab. cbn [mbind option_bind]. rewrite (table_waker _ _ _ _ _ H Hab).
  apply bind_event in Hs as (e & He & Hs). unfold last_waker, find_last_set_waker_for_rid.
  destruct (find_last_exists (sets_waker reading rid) (log r) (length (log r)) sw e He) as [sw' Hsw'].
  { apply sets_waker_true. by exists int, w. } { by eapply lookup_lt_Some. }
  rewrite Hsw'. cbn [mbind option_bind].
  destruct (find_last_some _ _ _ _ Hsw') as (_ & e' & He' & (int' & w' & Hs' & _)%sets_waker_true).
  rewrite He'. simpl. rewrite Hs'. by eexists.
Qed.

End kept.

(** ** The contract follows *)

Section contract.
Implicit Types (t : service).

Lemma timer_view_slot m rid x :
  timer_map_view m rid = Some x ↔
    ∃ e w, st_get m rid = Some (Timer e w) ∧ x = (deadline e, ResourceSlab.resource_id e, log_index e).
Proof. unfold timer_map_view. destruct (st_get m rid) as [[]|]; naive_solver. Qed.

Lemma kept_timer r t rid e w :
  kept r t → st_get (resources r) rid = Some (Timer e w) →
  ResourceSlab.resource_id e = rid ∧ timer_awaiting_wake (log r) (log_index e) ∧
  is_succ_register_timer_at (log r) (log_index e) (deadline e) w rid.
Proof.
  intros H He. destruct (kp_entries _ _ H rid e w He) as [? ?]. split; [done|].
  apply (table_timer _ _ _ _ _ _ H). by exists e.
Qed.

Lemma kept_data r t :
  kept r t →
  data_inv (timer_set_view (resources r)) (timer_map_view (resources r)) (timer_wakers_view (resources r))
    (λ reading, wakers_view reading (resources r)) (log r).
Proof.
  intros H. split_and!; [..|by eapply kept_io_valid|by eapply kept_io_valid|by eapply kept_io_complete|by eapply kept_io_complete].
  - intros d rid i (k & (e & w & He & [= -> -> ->])%timer_view_slot).
    destruct (kept_timer _ _ _ _ _ H He) as (-> & ? & ?). split; [done|]. by exists w.
  - intros i d w rid Ha Hi. destruct (proj2 (table_timer _ _ _ _ _ _ H) (conj Ha Hi)) as (e & He & _ & <-).
    exists (deadline e), (ResourceSlab.resource_id e). apply timer_view_slot. by exists e, w.
  - intros rid w Hw. unfold timer_wakers_view in Hw.
    destruct (st_get (resources r) rid) as [[e w'|]|] eqn:He; simplify_eq/=.
    exists (deadline e), (ResourceSlab.resource_id e), (log_index e), (deadline e).
    split; [apply timer_view_slot; by exists e, w|]. by apply (kept_timer _ _ _ _ _ H He).
  - intros rid [x (e & w & He & _)%timer_view_slot]. exists w. unfold timer_wakers_view. by rewrite He.
Qed.

Lemma kept_impl r t :
  kept r t → timer_impl_inv (timer_set_view (resources r)) (timer_map_view (resources r)) (next_resource_id r).
Proof.
  intros H. destruct (simulates_core _ _ (kp_sim _ _ H) (kp_spare _ _ H)) as (Hr & _ & _).
  pose proof (ri_core _ _ _ Hr) as Hc. split; [|split].
  - exists (omap (λ x, timer_map_view (resources r) x.1) (map_to_list (timers t))).
    intros x (rid & Hx). apply list_elem_of_omap. pose proof Hx as (e & w & He & _)%timer_view_slot.
    exists (rid, (deadline e, w)). split; [|done]. apply elem_of_map_to_list.
    by rewrite <- (rc_timers _ _ _ Hc), He.
  - intros rid x Hx. pose proof Hx as (e & w & He & ->)%timer_view_slot. split; [by exists rid|]. split.
    + by destruct (kept_timer _ _ _ _ _ H He) as (-> & _).
    + apply (rc_ids _ _ _ Hc). by rewrite He.
  - intros d rid i (k & Hk). pose proof Hk as (e & w & He & [= -> -> ->])%timer_view_slot.
    destruct (kept_timer _ _ _ _ _ H He) as (Hid & _). by rewrite Hid in Hk |- *.
Qed.

Lemma kept_wf r t : kept r t → reactor_wf (log r) (next_resource_id r).
Proof.
  intros H. pose proof (kept_linv _ _ H) as Hl. destruct (kp_ios _ _ H) as (Hp & Ht & _).
  pose proof (protocol_cycles _ _ Hp) as (C2 & C3 & C4 & C10 & C11 & C12 & C13).
  destruct (traced_io_inv _ _ Ht Hl) as (I8 & I9a & I9b & I6 & I15 & I17a & I17b).
  destruct (simulates_core _ _ (kp_sim _ _ H) (kp_spare _ _ H)) as (Hr & _ & Hck).
  destruct (kp_timers _ _ H) as [Htt Htr]. split; [split|split].
  - split_and!; [by eapply linv_unique|done..| |done|by eapply linv_wake_registration].
    by eapply traced_waker_validity.
  - split_and!; [|done..]. eapply replayed_wake_on_expired; [done|]. rewrite Htr. intros rid d w Hd.
    destruct (so_timers _ (kp_ok _ _ H) rid d w Hd) as (_ & _ & Hlt). rewrite (ri_logged _ _ _ Hr). lia.
  - split_and!; [apply Hl|done..].
  - split; [|split].
    + pose proof (rc_next _ _ _ (ri_core _ _ _ Hr)). lia.
    + intros i d w rid Hi%succ_register_registers. by eapply li_ids.
    + intros i rid Hi%api_registers. by eapply li_ids.
Qed.

Lemma kept_verified r t : kept r t → verified r.
Proof.
  intros H. destruct (simulates_core _ _ (kp_sim _ _ H) (kp_spare _ _ H)) as (Hr & _ & _).
  pose proof (ri_core _ _ _ Hr) as Hc. split; [by apply full_wf_ginv, (rc_wheel _ _ _ Hc)|].
  split; [apply Hr|]. split; [by eapply kept_wf|]. split; [by eapply kept_impl|].
  split; [intros rid; apply Hc|]. split; [by eapply kept_data|].
  intros rid. unfold Wheel.get_deadline. rewrite (rc_queue _ _ _ Hc rid), lookup_fmap, <- (rc_timers _ _ _ Hc).
  unfold timer_map_view. by destruct (st_get (resources r) rid) as [[]|].
Qed.

End contract.

(** ** Every operation *)

Section steps.
Implicit Types (t : service) (c : ReactorSpec.call).

Lemma io_slot_ios r t rid :
  kept r t → (∃ s, st_get (resources r) rid = Some s ∧ is_io s = true) → is_Some (ios t !! rid).
Proof.
  intros H ([|a b] & Hs & ?); [done|].
  destruct (simulates_core _ _ (kp_sim _ _ H) (kp_spare _ _ H)) as (Hr & _ & _).
  by rewrite <- (rc_ios _ _ _ (ri_core _ _ _ Hr)), Hs.
Qed.

Lemma requires_allowed r t c : kept r t → requires r c → deregisters c = false → call_allowed t c.
Proof.
  intros H Hc Hd. destruct (simulates_core _ _ (kp_sim _ _ H) (kp_spare _ _ H)) as (Hr & _ & Hck).
  destruct c; simpl in *; [|done|done|by eapply io_slot_ios|by eapply io_slot_ios, Hc|done].
  rewrite Hck. naive_solver.
Qed.

(** Nothing is held back, so that the handle adds nothing. *)
Lemma vstep_rstep r t c : kept r t → deregisters c = false → vstep r c = rstep r c.
Proof.
  intros H Hd. destruct (simulates_core _ _ (kp_sim _ _ H) (kp_spare _ _ H)) as (_ & Hp & _).
  destruct c; try done; simpl; unfold handle_register_timer, flush_and_park, flush_pending_deregister; by rewrite Hp.
Qed.

Lemma entries_vstep r c a r' seg :
  entries_ok r → log r' = log r ++ seg → vstep r c = Some (a, r') → entries_ok r'.
Proof.
  intros H Hl. destruct c as [d w|rid|source interest os|rid source os|rid interest w|timeout raw os]; cbn [vstep].
  - pose proof (entries_register_timer r d w H) as He. destruct (register_timer r d w). by intros [= _ <-].
  - intros [= _ <-]. by apply entries_deregister_timer.
  - pose proof (entries_register_io r source interest os H) as He.
    destruct (register_io_resource r source interest os). by intros [= _ <-].
  - pose proof (entries_deregister_io r rid source os H) as He.
    destruct (deregister_io_resource r rid source os). by intros [= _ <-].
  - intros (r1 & Hr & [= _ <-])%bind_Some. by eapply entries_set_waker.
  - pose proof (park_slots r timeout raw os) as Hs.
    destruct (park r timeout raw os) as [x r2]. intros [= _ <-]. eapply entries_more; [exact H|exact Hl|].
    intros k e w. apply Hs.
Qed.

Lemma kept_vstep r t c :
  kept r t → requires r c → deregisters c = false →
  ∃ a r' t', vstep r c = Some (a, r') ∧ kept r' t'.
Proof.
  intros H Hc Hd. pose proof (requires_allowed _ _ _ H Hc Hd) as Ha.
  destruct (rstep_simulates r t c (kp_sim _ _ H) Ha) as (a & r' & t' & Hr & Ht & Hs).
  destruct (rstep_timer_segment r t c a r' t' (kp_sim _ _ H) (kp_ok _ _ H) (kp_spare _ _ H) Ha Hd Hr Ht)
    as (Hsp & seg & Hl & Hseg).
  destruct (rstep_segment r t c a r' t' (kp_sim _ _ H) (kp_ok _ _ H) Ha Hr Ht) as (seg' & Hl' & Hseg').
  exists a, r', t'. rewrite (vstep_rstep _ _ _ H Hd). split; [done|]. split.
  - done.
  - by eapply sstep_ok, Ht; [apply H|].
  - done.
  - eapply rstep_rgood; [apply H|apply H|exact Ha|exact Hr|done].
  - eapply (entries_vstep r c a); [apply H|exact Hl|]. by rewrite (vstep_rstep _ _ _ H Hd).
  - rewrite Hl. eapply timer_segment_app; [apply H|done].
  - rewrite Hl'. eapply segment_app; [apply H|done].
Qed.

Lemma kept_deregister r t rid :
  kept r t → is_Some (timer_map_view (resources r) rid) →
  kept (deregister_timer r rid) (mkService (base.delete rid (timers t)) (ios t) (clock t) (issued t) None).
Proof.
  intros H [x (e & w & He & _)%timer_view_slot].
  destruct (simulates_core _ _ (kp_sim _ _ H) (kp_spare _ _ H)) as (Hr & Hp & Hck).
  assert (Hio : ios t !! rid = None) by (by rewrite <- (rc_ios _ _ _ (ri_core _ _ _ Hr)), He).
  destruct (deregister_timer_spec r _ _ rid Hr Hio) as [Hr' Hel].
  assert (Hn : issued t = next_resource_id r) by (by destruct (kp_sim _ _ H) as (? & _ & ->)).
  pose proof (entries_deregister_timer r rid (kp_entries _ _ H)) as Hent.
  assert (Hf : next_resource_id (deregister_timer r rid) = next_resource_id r ∧
    pending_deregister (deregister_timer r rid) = pending_deregister r ∧
    log (deregister_timer r rid) = log r ++ [Inbound (ReactorLog.DeregisterTimer rid true)]) by done.
  set (r' := deregister_timer r rid) in *. clearbody r'. destruct Hf as (Hn' & Hp' & Hl).
  split.
  - eapply simulates_intro; [exact Hr'|]. by rewrite live_no_pending, Hck, Hn, Hel, Hn', Hp', Hp by congruence.
  - destruct (kp_ok _ _ H). split; simpl; try done. intros k d w' [_ Hk]%lookup_delete_Some. by eapply so_timers.
  - done.
  - destruct (kp_good _ _ H) as (T & I & Hg & Hlog). exists (base.delete rid (timers t)), (ios t). split; [done|].
    eapply (rlog_quiet r _ T I _ _ [_]); [exact Hlog|exact Hl|lia|set_solver|set_solver|].
    intros k Hk. apply (slot_some_iff _ _ _ k (ri_core _ _ _ Hg)).
    apply (slot_some_iff _ _ _ k (ri_core _ _ _ Hr)). destruct Hk as [?%some_delete|?]; [by left|by right].
  - done.
  - rewrite Hl. eapply timer_segment_app; [apply H|]. by split.
  - rewrite Hl. eapply segment_app; [apply H|]. by split.
Qed.

Lemma kept_step r t c :
  kept r t → requires r c → ∃ a r' t', vstep r c = Some (a, r') ∧ kept r' t'.
Proof.
  intros H Hc. destruct (deregisters c) eqn:Hd; [|by eapply kept_vstep]. destruct c as [|rid| | | |]; try done.
  eexists _, _, _. split; [done|]. by apply kept_deregister.
Qed.

Lemma kept_new : kept Reactor.new service_init.
Proof.
  split; [apply simulates_new|apply service_ok_init|done| | |done|done].
  - exists ∅, ∅. split; [apply new_rinv|apply rlog_new].
  - intros rid e w. by rewrite slab_get_new.
Qed.

Lemma vreach_kept r : vreach r → ∃ t, kept r t.
Proof.
  induction 1 as [|r c a r' _ [t H] Hc Hs]; [eexists; apply kept_new|].
  destruct (kept_step r t c H Hc) as (a' & r2 & t2 & Hs2 & ?). rewrite Hs in Hs2. injection Hs2 as _ <-. by exists t2.
Qed.

End steps.

(** ** Theorem *)

(** C17. The contract of the reactor's operations holds: after any sequence of them, each
    called as its [requires] clauses say and with any answers of the system, the whole of
    [verified] holds, and the next such call goes through.  In particular the table and
    the log agree: a timer is in the table exactly as long as its registration is active
    in the log, at the position that its entry keeps; an I/O resource holds for each
    direction the waker that was set last; and the wheel has the deadlines of the table. *)
Theorem reactor_contract_kept r :
  vreach r → verified r ∧ ∀ c, requires r c → ∃ a r', vstep r c = Some (a, r') ∧ verified r'.
Proof.
  intros [t H]%vreach_kept. split; [by eapply kept_verified|]. intros c Hc.
  destruct (kept_step r t c H Hc) as (a & r' & t' & Hs & H'). exists a, r'. split; [done|]. by eapply kept_verified.
Qed.

(** The handle is not under the contract: a timer that it deregisters, and that the next park
    drops, stays in the log, so that the invariant is gone for good. *)
Definition dropped_end : Reactor := default Reactor.new (snd <$> rrun Reactor.new dropped_calls).

Theorem handle_breaks_contract :
  run_allowed service_init dropped_calls ∧ is_Some (rrun Reactor.new dropped_calls) ∧ ¬ verified dropped_end.
Proof.
  split; [unfold dropped_calls; allow; split; (u64 || naive_solver lia)|].
  split; [by vm_compute; eexists|]. intros (_ & _ & _ & _ & _ & (_ & Ha & _) & _).
  assert (Hl : log dropped_end = final_log dropped_calls) by (vm_compute; reflexivity).
  rewrite Hl in Ha. destruct (Ha 1 50%Z 7%Z 1%Z dropped_awaiting) as (d & rid & Hd).
  - by rewrite dropped_log.
  - assert (Hn : timer_map_view (resources dropped_end) 1%Z = None) by (vm_compute; reflexivity). congruence.
Qed.

(** ** Witness *)

(** Two timers and an I/O resource; the first timer is deregistered, a waker is set, and the
    park wakes the second timer and the resource. *)
Definition contract_calls : list ReactorSpec.call :=
  [ReactorSpec.RegisterTimer 50 7; ReactorSpec.RegisterTimer 55 8; RegisterIo 5 (true, false) (λ _ _ _, Ok tt);
   ReactorSpec.DeregisterTimer 1; ReactorSpec.SetWaker 3 (true, false) 9;
   ReactorSpec.Park (Some 100) 60 (λ _, Ok [mkMioEvent 3 true false false false false])]%Z.

Definition vrun (cs : list ReactorSpec.call) : Reactor :=
  foldl (λ r c, match vstep r c with Some (_, r') => r' | None => r end) Reactor.new cs.

Lemma vreach_snoc cs c :
  vreach (vrun cs) → requires (vrun cs) c → is_Some (vstep (vrun cs) c) → vreach (vrun (cs ++ [c])).
Proof.
  intros Hr Hc [[a r'] Hs]. unfold vrun. rewrite foldl_app. simpl. fold (vrun cs). rewrite Hs.
  by eapply vreach_step.
Qed.

Lemma contract_calls_reach : vreach (vrun contract_calls).
Proof.
  repeat lazymatch goal with
  | |- vreach (vrun []) => exact vreach_new
  | |- vreach (vrun ?cs) =>
      let o := eval cbv in (last cs) in
      let pre := eval cbv in (take (pred (length cs)) cs) in
      lazymatch o with Some ?c => change cs with (pre ++ [c]); apply vreach_snoc; [| |eexists; vm_compute; reflexivity] end
  end; try done.
  - vm_compute. by eexists.
  - split; [|by vm_compute; eexists].
    assert (Hl : log (vrun (take 4 contract_calls)) =
      [Inbound (RegisterTimer 50 7 None); Inbound (RegisterTimer 50 7 (Some (Ok 1)));
       Inbound (RegisterTimer 55 8 None); Inbound (RegisterTimer 55 8 (Some (Ok 2)));
       Inbound (InRegisterIoResource 5 (true, false) None); Outbound (RegisterIoResource 5 3 (true, false) (Ok tt));
       Inbound (InRegisterIoResource 5 (true, false) (Some (Ok 3))); Inbound (DeregisterTimer 1 true)]%Z)
      by (vm_compute; reflexivity).
    change (io_currently_active (log (vrun (take 4 contract_calls))) 3%Z). rewrite Hl.
    exists 6. split; [done|]. exists 3%Z. split; [done|]. split; [simpl; lia|]. intros k Hk. simpl in Hk.
    by assert (k = 7) as -> by lia.
  - split; [u64|]. by intros d [= <-].
Qed.

Lemma reactor_contract_kept_witness :
  wakes (log (vrun contract_calls)) = [(8, 2); (9, 3)]%Z ∧ verified (vrun contract_calls) ∧
  ∃ a r', vstep (vrun contract_calls) (ReactorSpec.DeregisterIo 3 5 (λ _, Ok tt)) = Some (a, r') ∧ verified r'.
Proof.
  split; [vm_compute; reflexivity|]. destruct (reactor_contract_kept _ contract_calls_reach) as [Hv Hs].
  split; [exact Hv|]. apply Hs. vm_compute. by eexists.
Defined.

End ReactorData.
