(* ===== verification/ReactorSyscallLog.v ===== *)
(** * ReactorSyscallLog: the reactor's log, read at the calls of the system

    The invariants about I/O that [lion-liveness] asks of the reactor's log.  They are those
    of [ReactorIoLog] with another anchor: an I/O resource is registered when the system has
    taken it, not when the client's call has ended.  They hold of a log without I/O, and
    give the answer to an event of a resource on which a waker was set. *)

From S2P Require Import Prelude ReactorLog ReactorIoLog ReactorIoSpec.
Import LogTrace.
Import UtilityLog ReactorLog ReactorIoLog.

Module ReactorSyscallLog.
Implicit Types (e : ReactorEvent) (l seg : list ReactorEvent) (rid w : Z) (i j k : nat).

(** ** Activity of an I/O resource ([log.rs]) *)

Definition succ_io_syscall_register e : option Z :=
  match e with Outbound (RegisterIoResource _ rid _ (Ok _)) => Some rid | _ => None end.

Definition io_syscall_registered_at l i rid : Prop := l !! i ≫= succ_io_syscall_register = Some rid.
Definition io_syscall_deregistered_at l i rid : Prop := fst <$> (l !! i ≫= io_syscall_deregister) = Some rid.

Definition io_syscall_active_at l (register_idx i : nat) : Prop :=
  ∃ rid, io_syscall_registered_at l register_idx rid ∧ register_idx < i ∧
    ∀ k, register_idx < k < i → ¬ io_syscall_deregistered_at l k rid.

Definition find_io_syscall_register_for_rid l rid (before : nat) : option nat :=
  find_last (λ e, bool_decide (succ_io_syscall_register e = Some rid)) l before.

Definition io_syscall_active_at_set_waker l rid (set_waker_idx : nat) : Prop :=
  ∃ reg, find_io_syscall_register_for_rid l rid set_waker_idx = Some reg ∧ io_syscall_active_at l reg set_waker_idx.

Definition no_prior_io_syscall_registration l rid (end_ : nat) : Prop :=
  ∀ k, k < end_ → io_syscall_registered_at l k rid → ∃ j, k < j < end_ ∧ io_syscall_deregistered_at l j rid.

Definition is_io_syscall_wake_at l i : Prop :=
  ∃ w rid, l !! i ≫= wake_task = Some (w, rid) ∧
    ∃ j, j < i ∧ io_syscall_registered_at l j rid ∧ io_syscall_active_at l j i.

Definition has_valid_set_waker_syscall (reading : bool) l (io_ready_idx : nat) : Prop :=
  ∃ ev sw int w, l !! io_ready_idx ≫= io_event_ready = Some ev ∧
    pick reading (readable ev, writable ev) = true ∧ sw < io_ready_idx ∧
    l !! sw ≫= succ_set_waker = Some (resource_id ev, int, w) ∧ pick reading int = true ∧
    io_syscall_active_at_set_waker l (resource_id ev) sw ∧
    ∀ k, sw < k < io_ready_idx → ¬ io_syscall_deregistered_at l k (resource_id ev).

(** ** The invariants *)

Definition io_syscall_reg_uniqueness l : Prop :=
  ∀ i rid, io_syscall_registered_at l i rid → no_prior_io_syscall_registration l rid i.
Definition timer_io_syscall_disjoint l : Prop :=
  (∀ i d w rid, is_succ_register_timer_at l i d w rid → no_prior_io_syscall_registration l rid i) ∧
  (∀ i rid, io_syscall_registered_at l i rid → no_prior_timer_registration l rid i).
Definition io_syscall_waker_validity l : Prop :=
  ∀ i w rid, is_io_syscall_wake_at l i → l !! i ≫= wake_task = Some (w, rid) →
    ∃ sw int, sw < i ∧ l !! sw ≫= succ_set_waker = Some (rid, int, w) ∧ io_syscall_active_at_set_waker l rid sw.
Definition set_waker_active_io_syscall l : Prop :=
  ∀ i rid int w, l !! i ≫= succ_set_waker = Some (rid, int, w) → io_syscall_active_at_set_waker l rid i.
Definition wake_has_registration_syscall l : Prop :=
  ∀ i w rid, l !! i ≫= wake_task = Some (w, rid) →
    (∃ j d w', j < i ∧ is_succ_register_timer_at l j d w' rid) ∨ (∃ j, j < i ∧ io_syscall_registered_at l j rid).

(** Here every answer of a registration must be that of the system, errors included. *)
Definition inbound_register_io_answer l : Prop :=
  ∀ i s int r, l !! i ≫= inbound_register_io_end = Some (s, int, r) →
    ∃ b k rid r', find_register_io_cycle_begin l i = Some b ∧
      l !! b ≫= inbound_register_io_begin = Some (s, int) ∧ b < k < i ∧
      l !! k ≫= io_syscall_register = Some (s, rid, int, r') ∧
      match r, r' with Ok x, Ok _ => x = rid | Err x, Err x' => x = x' | _, _ => False end.

Definition wake_on_io_ready_syscall (reading : bool) l : Prop :=
  ∀ i ev, l !! i ≫= io_event_ready = Some ev → has_valid_set_waker_syscall reading l i →
    ∃ j sw int w, i < j ∧ find_last_set_waker_for_rid reading l (resource_id ev) i = Some sw ∧
      l !! sw ≫= succ_set_waker = Some (resource_id ev, int, w) ∧
      l !! j ≫= wake_task = Some (w, resource_id ev) ∧
      ∀ k, i < k < j → ¬ holds_at is_park_end l k ∧ ¬ holds_at is_poll_events l k.

Definition syscall_inv l : Prop :=
  io_syscall_reg_uniqueness l ∧ timer_io_syscall_disjoint l ∧ io_syscall_waker_validity l ∧
  set_waker_active_io_syscall l ∧ wake_has_registration_syscall l ∧
  inbound_register_io_answer l ∧ inbound_deregister_io_result l ∧
  wake_on_io_ready_syscall true l ∧ wake_on_io_ready_syscall false l.

(** ** Logs without I/O *)

Definition concerns_io e : bool :=
  match e with
  | Inbound (InRegisterIoResource _ _ _ | InDeregisterIoResource _ _ | SetWaker _ _ _ _) => true
  | Outbound (RegisterIoResource _ _ _ _ | DeregisterIoResource _ _ _) => true
  | _ => false
  end.

Lemma without_io {A} (f : ReactorEvent → option A) l i x :
  Forall (λ e, concerns_io e = false) l → (∀ e, is_Some (f e) → concerns_io e = true) → l !! i ≫= f ≠ Some x.
Proof.
  intros Hl Hf (e & He & Hx)%bind_Some. rewrite Forall_lookup in Hl. specialize (Hl i e He).
  by rewrite (Hf e (ex_intro _ x Hx)) in Hl.
Qed.

Lemma syscall_inv_without_io l :
  Forall (λ e, concerns_io e = false) l → wake_has_registration l → syscall_inv l.
Proof.
  intros Hl Hw.
  assert (Hreg : ∀ i rid, ¬ io_syscall_registered_at l i rid).
  { intros i rid. apply without_io; [done|]. intros e [x Hx]. by destruct e as [[]|[]]. }
  assert (Hsw : ∀ i x, l !! i ≫= succ_set_waker ≠ Some x).
  { intros i x. apply without_io; [done|]. intros e [y Hy]. by destruct e as [[]|[]]. }
  assert (Hvalid : ∀ reading i, ¬ has_valid_set_waker_syscall reading l i).
  { intros reading i (ev & sw & int & w & _ & _ & _ & H & _). by apply Hsw in H. }
  split; [intros i rid H; by apply Hreg in H|].
  split; [split; [intros i d w rid _ k _ H|intros i rid H]; by apply Hreg in H|].
  split; [intros i w rid (w' & rid' & _ & j & _ & H & _); by apply Hreg in H|].
  split; [intros i rid int w H; by apply Hsw in H|].
  split.
  { intros i w rid H. destruct (Hw i w rid H) as [?|(j & _ & Hj)]; [by left|]. exfalso. revert Hj.
    apply without_io; [done|]. intros e [x Hx]. by destruct e as [[]|[]]. }
  split; [intros i s int r H; exfalso; revert H; apply without_io; [done|]; intros e [x Hx]; by destruct e as [[]|[]]|].
  split; [intros i rid r H; exfalso; revert H; apply without_io; [done|]; intros e [x Hx]; by destruct e as [[]|[]]|].
  split; intros i ev _ H; by apply Hvalid in H.
Qed.

End ReactorSyscallLog.
