(* ===== verification/ReactorContracts.v ===== *)
(** * ReactorContracts: the reactor as a module with bounded liveness

    [lion-liveness/src/reactor] states the reactor as a module of the framework: a round
    appends one park to the log, with calls of clients before and after it.  The timer
    contract of [lion-reactor-spec/src/contracts] holds of this module.  The modelled code
    runs in such rounds as long as it serves timers.  It does not when it serves I/O: the
    round admits no event of the system outside of a park, and registering or
    deregistering a resource logs one. *)

From S2P Require Import Prelude Store Slab VecMap Wheel WheelInv WheelOps WheelScan WheelSpec.
From S2P Require Import ReactorLog Readiness ResourceSlab Reactor ReactorInv ReactorOps ReactorSpec.
From S2P Require Import Prelude ReactorLogSpec ReactorIoLog ReactorIoSpec ReactorTimerLog ReactorSyscallLog Framework.
Import LogTrace.
Import UtilityLog ResourceSlab Reactor ReactorLog ReactorIoLog ReactorSyscallLog Framework.

Module ReactorContracts.
Abbreviation Log := (list ReactorEvent).
Implicit Types (e : ReactorEvent) (l seg : list ReactorEvent) (rid d w : Z) (i j k n : nat).

(** ** The module *)

Definition is_inbound_non_park e : bool :=
  match e with Inbound (ReactorLog.Park _ _) => false | Inbound _ => true | Outbound _ => false end.

Definition is_complete_park_cycle l (start finish : nat) : Prop :=
  start < finish ∧ finish ≤ length l ∧ holds_at is_park_begin l start ∧ holds_at is_park_end l (finish - 1) ∧
  ∀ k, start < k < finish - 1 → ¬ holds_at is_park_begin l k ∧ ¬ holds_at is_park_end l k.

(** What it asks about timers, about cycles, and about I/O. *)
Definition timers_inv l : Prop :=
  timer_deadline_future l ∧ timer_reg_uniqueness l ∧ timer_waker_validity l ∧ wake_on_expired l.
Definition parks_inv l : Prop :=
  park_has_timestamp l ∧ park_poll_once l ∧ io_ready_in_park l ∧ register_io_in_cycle l ∧ deregister_io_in_cycle l.
Definition reactor_inv l : Prop := timers_inv l ∧ parks_inv l ∧ syscall_inv l.

Definition reactor_progress l l' : Prop :=
  length l < length l' ∧ l `prefix_of` l' ∧
  (∃ ps pe, length l ≤ ps < pe ∧ pe ≤ length l' ∧ is_complete_park_cycle l' ps pe ∧
    (∀ i e, length l ≤ i < ps → l' !! i = Some e → is_inbound_non_park e = true) ∧
    (∀ i e, pe ≤ i → l' !! i = Some e → is_inbound_non_park e = true)) ∧
  reactor_inv l'.

Definition reactor_module_spec : ModuleSpec Log := mkModuleSpec reactor_inv reactor_progress.

(** ** The timer contract, for a registration given by its position *)

Definition timestamps_strictly_increasing l : Prop :=
  ∀ i j t t', i < j → l !! i ≫= current_timestamp = Some t → l !! j ≫= current_timestamp = Some t' → (t < t')%Z.
Definition timestamps_positive l : Prop :=
  ∀ i t, l !! i ≫= current_timestamp = Some t → (1 ≤ t)%Z.

Definition deregister_timer e : option Z :=
  match e with Inbound (ReactorLog.DeregisterTimer rid true) => Some rid | _ => None end.

Definition timer_not_deregistered_through l (register_idx finish : nat) : Prop :=
  ∀ d w rid j, is_succ_register_timer_at l register_idx d w rid → register_idx < j < finish →
    l !! j ≫= deregister_timer ≠ Some rid.

Definition trigger_at l i : Prop := ∃ d w rid, is_succ_register_timer_at l i d w rid.
Definition response_at l i : Prop :=
  ∃ d w rid k, is_succ_register_timer_at l i d w rid ∧ l !! k ≫= wake_task = Some (w, rid).
Definition assumption_at l i : Prop :=
  timestamps_strictly_increasing l ∧ timestamps_positive l ∧ timer_not_deregistered_through l i (length l).

Definition bounded_timer_wakeup_at : AsyncContract Log nat :=
  mkContract trigger_at response_at assumption_at.

Definition env_reactor_timer_at l i : Prop :=
  timestamps_strictly_increasing l ∧ timestamps_positive l ∧ timer_not_deregistered_through l i (length l).

(** ** Rounds read the clock *)

Lemma park_start_inside l ps pe k :
  is_complete_park_cycle l ps pe → ps < k ≤ pe - 1 → current_park_start l k = Some ps.
Proof.
  intros (Hlt & Hle & (b & Hb & Hbb) & _ & Hin). induction k as [|k IH]; intros Hk; [lia|].
  destruct (decide (k = ps)) as [->|Hne].
  - rewrite (park_start_S l ps b Hb). by rewrite Hbb.
  - destruct (lookup_lt_is_Some_2 l k) as [e He]; [lia|]. rewrite (park_start_S l k e He).
    destruct (Hin k ltac:(lia)) as [H1 H2].
    destruct (is_park_begin e) eqn:E1; [destruct H1; by exists e|].
    destruct (is_park_end e) eqn:E2; [destruct H2; by exists e|]. apply IH. lia.
Qed.

Lemma round_reads_clock l l' :
  reactor_progress l l' → ∃ j t, length l ≤ j ∧ l' !! j ≫= current_timestamp = Some t.
Proof.
  intros (_ & _ & (ps & pe & Hp & Hpe & Hc & _) & _ & (Hcy & _) & _).
  pose proof Hc as (Hlt & _ & Hbeg & Hend & _).
  destruct (Hcy (pe - 1) Hend) as (s & j & Hs & Hj & (e & He & Ht)).
  assert (ps < pe - 1).
  { destruct (decide (ps = pe - 1)) as [E|]; [|lia]. destruct Hbeg as (b & Hb & Hbb), Hend as (b' & Hb' & Hbb').
    rewrite <- E, Hb in Hb'. injection Hb' as <-. by destruct b as [[| | | | |? []]|]. }
  rewrite (park_start_inside l' ps pe) in Hs by (done || lia). injection Hs as <-.
  destruct e as [|[]]; try done. exists j. eexists. split; [lia|]. by rewrite He.
Qed.

Lemma env_prefix l l' : l `prefix_of` l' → timestamps_strictly_increasing l' ∧ timestamps_positive l' →
  timestamps_strictly_increasing l ∧ timestamps_positive l.
Proof.
  intros [seg ->] [H1 H2].
  assert (Hl : ∀ i t, l !! i ≫= current_timestamp = Some t → (l ++ seg) !! i ≫= current_timestamp = Some t).
  { intros i t (e & He & Ht)%bind_Some. by rewrite (lookup_app_l_Some _ _ _ _ He). }
  split; [intros i j t t' Hij ?%Hl ?%Hl; by eapply (H1 i j)|intros i t ?%Hl; by eapply H2].
Qed.

(** After [S n] rounds the clock has advanced by more than [n] from what it showed. *)
Lemma rounds_advance_clock (t0 : Z) n l l' :
  nsteps reactor_progress (S n) l l' → timestamps_strictly_increasing l' → timestamps_positive l' →
  (∀ j t, length l ≤ j → l' !! j ≫= current_timestamp = Some t → (t0 < t)%Z) →
  ∃ j t, length l ≤ j ∧ l' !! j ≫= current_timestamp = Some t ∧ (t0 + Z.of_nat n < t)%Z.
Proof.
  revert l'. induction n as [|n IH]; intros l' Hs Hi Hp H0.
  - apply nsteps_once_inv in Hs. destruct (round_reads_clock _ _ Hs) as (j & t & Hj & Ht). exists j, t.
    split; [done|]. split; [done|]. specialize (H0 _ _ Hj Ht). lia.
  - apply nsteps_inv_r in Hs as (lm & Hs & Hr).
    assert (Hts : ∀ j t, lm !! j ≫= current_timestamp = Some t → l' !! j ≫= current_timestamp = Some t).
    { intros j t (e & He & Ht)%bind_Some. destruct Hr as (_ & [seg ->] & _). by rewrite (lookup_app_l_Some _ _ _ _ He). }
    destruct (env_prefix lm l') as [Hi' Hp']; [by destruct Hr as (_ & ? & _)|done|].
    destruct (IH lm Hs Hi' Hp') as (j & t & Hj & Ht & Hn); [intros j t Hj ?%Hts; by eapply H0|].
    destruct (round_reads_clock _ _ Hr) as (j' & t' & Hj' & Ht').
    exists j', t'. assert (Hlt : j < length lm) by (apply bind_Some in Ht as (e & ?%lookup_lt_Some & _); done).
    split; [lia|]. split; [done|]. specialize (Hi j j' t t' ltac:(lia) (Hts _ _ Ht) Ht'). lia.
Qed.

Lemma rounds_extend n l l' : nsteps reactor_progress n l l' → l `prefix_of` l'.
Proof. induction 1 as [|n l1 l2 l3 (_ & Hp & _) _ IH]; [done|]. by etrans. Qed.

Lemma rounds_inv n l l' : reactor_inv l → nsteps reactor_progress n l l' → reactor_inv l'.
Proof. intros H. induction 1 as [|n l1 l2 l3 (_ & _ & _ & ?) _ IH]; [done|]. by apply IH. Qed.

(** ** Timers *)

Lemma registered_prefix l l' i d w rid :
  l `prefix_of` l' → is_succ_register_timer_at l i d w rid → is_succ_register_timer_at l' i d w rid.
Proof. intros [seg ->] (e & He & Hr)%bind_Some. unfold is_succ_register_timer_at. by rewrite (lookup_app_l_Some _ _ _ _ He). Qed.

(** A timer is active up to its first retirement. *)
Lemma first_retirement l reg d w rid m :
  is_succ_register_timer_at l reg d w rid → reg < m →
  timer_active_at l reg m ∨ ∃ k, reg < k < m ∧ timer_retired_at l rid k ∧ timer_active_at l reg k.
Proof.
  intros Hr. induction m as [|m IH]; intros Hm; [lia|].
  destruct (decide (reg = m)) as [->|Hne].
  { left. exists d, w, rid. split; [done|]. split; [lia|]. intros j Hj. lia. }
  destruct (IH ltac:(lia)) as [Ha|(k & Hk & Hret & Ha)]; [|right; exists k; split; [lia|done]].
  destruct (l !! m) as [e|] eqn:Em; [destruct (timer_retired rid e) eqn:Er|].
  - right. exists m. split; [lia|]. split; [by exists e|done].
  - left. destruct Ha as (d' & w' & rid' & Hr' & _ & Hno). unfold is_succ_register_timer_at in *. rewrite Hr in Hr'.
    injection Hr' as <- <- <-. exists d, w, rid. split; [done|]. split; [lia|]. intros j Hj Hret.
    destruct (decide (j = m)) as [->|]; [|apply (Hno j); [lia|done]]. destruct Hret as (e' & He' & Hr'). congruence.
  - left. destruct Ha as (d' & w' & rid' & Hr' & _ & Hno). unfold is_succ_register_timer_at in *. rewrite Hr in Hr'.
    injection Hr' as <- <- <-. exists d, w, rid. split; [done|]. split; [lia|]. intros j Hj Hret.
    destruct (decide (j = m)) as [->|]; [|apply (Hno j); [lia|done]]. destruct Hret as (e' & He' & Hr'). congruence.
Qed.

(** Two registrations of an id are not both active. *)
Lemma active_not_later l i j d w d' w' rid m :
  timer_reg_uniqueness l → is_succ_register_timer_at l i d w rid → is_succ_register_timer_at l j d' w' rid →
  timer_active_at l i m → timer_active_at l j m → ¬ i < j.
Proof.
  intros Hu Hi Hj (d1 & w1 & rid1 & Hr1 & _ & Hno) (_ & _ & _ & _ & Hlt & _) Hij.
  unfold is_succ_register_timer_at in Hi, Hr1. rewrite Hi in Hr1. injection Hr1 as <- <- <-.
  destruct (Hu _ _ _ _ Hj i d w Hij Hi) as (k & Hk & Hret). apply (Hno k); [lia|done].
Qed.

(** An active timer that is not deregistered is retired by a wake of its own waker. *)
Lemma retired_by_own_wake l reg d w rid k :
  reactor_inv l → is_succ_register_timer_at l reg d w rid → timer_active_at l reg k →
  timer_retired_at l rid k → l !! k ≫= deregister_timer ≠ Some rid → l !! k ≫= wake_task = Some (w, rid).
Proof.
  intros ((_ & Hu & Hv & _) & _) Hr Ha (e & He & Hret) Hnd. rewrite He in *. simpl in *.
  assert (Hlt : reg < k) by (destruct Ha as (_ & _ & _ & _ & ? & _); done).
  destruct e as [[| | | |x []|]|[| | | | |w' x]]; simpl in Hret; try done;
    apply bool_decide_eq_true_1 in Hret; subst x; simpl in *; [done|].
  destruct (Hv k w' rid) as (j & d' & Hj & Hr' & Ha').
  - by rewrite He.
  - by exists reg, d, w.
  - assert (j = reg) as ->.
    { pose proof (active_not_later _ _ _ _ _ _ _ _ _ Hu Hr Hr' Ha Ha').
      pose proof (active_not_later _ _ _ _ _ _ _ _ _ Hu Hr' Hr Ha' Ha). lia. }
    unfold is_succ_register_timer_at in Hr, Hr'. rewrite Hr in Hr'. by injection Hr' as _ <-.
Qed.

(** A timer that stays registered is woken by the park that reads its deadline. *)
Lemma clock_wakes l reg d w rid j t :
  reactor_inv l → is_succ_register_timer_at l reg d w rid → timer_not_deregistered_through l reg (length l) →
  reg < j → l !! j ≫= current_timestamp = Some t → (d ≤ t)%Z →
  ∃ k, l !! k ≫= wake_task = Some (w, rid).
Proof.
  intros Hinv Hr Hnd Hj Ht Hdt.
  assert (Hlen : j < length l) by (apply bind_Some in Ht as (e & ?%lookup_lt_Some & _); done).
  destruct (first_retirement l reg d w rid (length l) Hr ltac:(lia)) as [Ha|(k & Hk & Hret & Ha)].
  - exfalso. destruct Hinv as ((_ & _ & _ & Hw) & _). apply (Hw reg); [|done].
    exists j, t, d, w, rid. split; [done|]. split; [lia|]. split; [done|]. split; [done|].
    destruct Ha as (d' & w' & rid' & Hx & _ & Hno). exists d', w', rid'. split; [done|]. split; [lia|].
    intros m Hm. apply Hno. lia.
  - exists k. apply (retired_by_own_wake l reg d w rid k); try done. apply (Hnd d w rid k Hr). lia.
Qed.

(** C28. The timer contract of the reactor.  In every run of the module in which the clock
    advances with each reading, a timer that stays registered is given its wake: as many
    rounds after any state as the deadline is long, the log has a wake of its waker. *)
Theorem timer_contract :
  bounded_liveness_env_without_arrival reactor_module_spec bounded_timer_wakeup_at env_reactor_timer_at.
Proof.
  split; [by intros l l' _ (_ & _ & _ & ?)|]. intros reg l Hinv (d & w & rid & Hr) _.
  exists (S (Z.to_nat d)). intros l' Hp. pose proof (proj2 (env_progress_n_ends _ _ _ _ _ _ Hp)) as (Hi & Hpos & Hnd).
  apply env_progress_n_progress, progress_n_nsteps in Hp. pose proof (rounds_extend _ _ _ Hp) as Hpre.
  pose proof (rounds_inv _ _ _ Hinv Hp) as Hinv'. pose proof (registered_prefix _ _ _ _ _ _ Hpre Hr) as Hr'.
  destruct (rounds_advance_clock 0 _ _ _ Hp Hi Hpos) as (j & t & Hj & Ht & Hdt).
  { intros j t _ Ht. specialize (Hpos _ _ Ht). lia. }
  assert (Hreg : reg < length l) by (apply bind_Some in Hr as (e & ?%lookup_lt_Some & _); done).
  destruct (clock_wakes l' reg d w rid j t Hinv' Hr' Hnd ltac:(lia) Ht ltac:(lia)) as [k Hk]. by exists d, w, rid, k.
Qed.

(** ** What the rounds leave out *)

(** Registering a source with the system, or taking it out. *)
Definition io_syscall e : bool :=
  match e with Outbound (RegisterIoResource _ _ _ _ | DeregisterIoResource _ _ _) => true | _ => false end.

Lemma park_start_prefix l seg i : i ≤ length l → current_park_start (l ++ seg) i = current_park_start l i.
Proof. induction i as [|i IH]; intros Hi; simpl; [done|]. rewrite lookup_app_l by lia. by rewrite IH by lia. Qed.

(** In the module's runs, whatever the system does is in a park. *)
Definition system_in_park l : Prop := ∀ i c, l !! i = Some (Outbound c) → is_Some (current_park_start l i).

Lemma round_system_in_park l l' : reactor_progress l l' → system_in_park l → system_in_park l'.
Proof.
  intros (_ & [seg ->] & (ps & pe & Hp & Hpe & Hc & Hbefore & Hafter) & _) H i c Hi.
  destruct (decide (i < length l)) as [Hlt|Hge].
  - rewrite park_start_prefix by lia. rewrite lookup_app_l in Hi by done. by eapply H.
  - destruct (decide (i < ps)); [by specialize (Hbefore i _ ltac:(lia) Hi)|].
    destruct (decide (pe ≤ i)); [by specialize (Hafter i _ ltac:(lia) Hi)|].
    destruct (decide (i = ps)) as [->|].
    + destruct Hc as (_ & _ & (b & Hb & Hbb) & _). rewrite Hi in Hb. by injection Hb as <-.
    + eexists. apply (park_start_inside _ ps pe); [done|lia].
Qed.

(** In the code's runs, a call of a client is not in a park. *)
Definition outside_park (p : phase) : bool := match p with InPark _ _ _ => false | _ => true end.

Lemma outside_step l i p e p' :
  l !! i = Some e → (outside_park p = true → current_park_start l i = None) →
  protocol_step p e = Some p' → outside_park p' = true → current_park_start l (S i) = None.
Proof.
  intros Hi Hp Hs Hp'. rewrite (park_start_S l i e Hi).
  destruct p as [|timeout ts polled|s int answer|rid answer]; simpl in Hp.
  - destruct e as [[]|]; simpl in *; repeat case_match; simplify_eq/=; auto.
  - destruct e as [[]|[]]; destruct ts, polled as [[]|]; simpl in *; repeat case_match; simplify_eq/=; auto.
  - destruct answer as [[]|]; destruct e as [[]|[]]; simpl in *; repeat case_match; simplify_eq/=; auto.
  - destruct answer as [|]; destruct e as [[]|[]]; simpl in *; repeat case_match; simplify_eq/=; auto.
Qed.

Lemma protocol_outside l i p :
  i ≤ length l → protocol Idle (take i l) = Some p → outside_park p = true → current_park_start l i = None.
Proof.
  revert p. induction i as [|i IH]; intros p Hle Hp; [done|].
  destruct (lookup_lt_is_Some_2 l i) as [e Hi]; [lia|].
  rewrite (take_S_r l i e Hi), protocol_snoc in Hp. apply bind_Some in Hp as (p0 & Hp0 & Hs).
  eapply outside_step; [exact Hi| |exact Hs]. intros Ho. apply (IH p0); [lia|done..].
Qed.

(** C30. The module's rounds leave out I/O.  Once a client of the reactor of the code has
    registered a source with the system, or taken one out, its log is not reached by any
    number of rounds of the module: what is proved of the module's runs does not speak of
    this run any more. *)
Theorem io_calls_leave_module cs answers r k :
  run_allowed service_init cs → rrun new cs = Some (answers, r) → existsb io_syscall (log r) = true →
  ¬ progress_n (progress reactor_module_spec) [] (log r) k.
Proof.
  intros Ha Hrun Hio Hp%progress_n_nsteps.
  destruct (rrun_segment cs new service_init answers r simulates_new service_ok_init Ha Hrun)
    as (seg & t' & _ & Hl & Hprot & _). simpl in Hl. rewrite <- Hl in Hprot.
  assert (Hsys : system_in_park (log r)).
  { assert (H0 : system_in_park []) by (intros i c Hi; by destruct i).
    revert H0. clear -Hp. induction Hp as [|n l1 l2 l3 H1 _ IH]; [done|]. intros H. apply IH. by eapply round_system_in_park. }
  apply existsb_exists in Hio as (e & [i Hi]%list_elem_of_In%list_elem_of_lookup & He).
  destruct e as [|c]; [done|]. destruct (Hsys i c Hi) as [s Hs].
  destruct (protocol_at _ _ _ _ _ Hprot Hi) as (p & p' & Hp0 & Hst).
  rewrite (protocol_outside (log r) i p) in Hs; [done|apply lookup_lt_Some in Hi; lia|done|].
  destruct p as [|timeout ts polled| |]; [done| |done..]. destruct c; try done; destruct ts, polled as [[]|]; done.
Qed.

(** ** The code as a module *)

(** What a run that serves timers only keeps. *)
Record rstate (r : Reactor) (t : service) : Prop := {
  rs_simulates : simulates r t;
  rs_ok : service_ok t;
  rs_spare : spare t = None;
  rs_good : rgood r;
  rs_io : segment ∅ (ios t) (log r);
  rs_timers : timer_segment ∅ (timers t) (log r);
  rs_quiet : Forall (λ e, concerns_io e = false) (log r);
}.

Lemma rstate_new : rstate new service_init.
Proof. split; [apply simulates_new|apply service_ok_init|done|exists ∅, ∅; split; [apply new_rinv|apply rlog_new]|done|done|constructor]. Qed.

(** The log of a park is a cycle. *)
Definition in_cycle e : bool := match e with Outbound _ => negb (concerns_io e) | Inbound _ => false end.

Lemma park_log_cycle timeout now to ws I answer :
  ∃ body x, park_log timeout now to ws I answer =
    Inbound (ReactorLog.Park timeout None) :: body ++ [Inbound (ReactorLog.Park timeout (Some x))] ∧
    Forall (λ e, in_cycle e = true) body.
Proof.
  unfold park_log. eexists (Outbound (GetCurrentTime now) :: Outbound (PollEvents to _) :: wake_events ws ++ _), _.
  split; [simpl; rewrite <- app_assoc; done|]. repeat constructor. apply Forall_app. split.
  - apply Forall_forall. intros e (x & -> & _)%list_elem_of_fmap. done.
  - destruct answer as [es|]; [|constructor]. apply Forall_forall. intros e (ev & He & _)%list_elem_of_bind.
    unfold io_events in He. destruct (io_waker I ev); set_solver.
Qed.

Lemma no_pending r t : simulates r t → spare t = None → pending_deregister r = None.
Proof. intros (T & _ & ->). simpl. by destruct (pending_deregister r). Qed.

Lemma register_inbound r d w a r' :
  pending_deregister r = None → rstep r (ReactorSpec.RegisterTimer d w) = Some (a, r') →
  ∃ seg, log r' = log r ++ seg ∧ Forall (λ e, is_inbound_non_park e = true ∧ concerns_io e = false) seg.
Proof.
  intros Hp. cbn [rstep]. unfold handle_register_timer. rewrite Hp. unfold register_timer, alloc_resource_id.
  simpl (next_resource_id (inbound _ _)). destruct (_ <=? _)%Z; intros [= _ <-]; simpl; rewrite <- app_assoc;
    (eexists; split; [done|]; by repeat constructor).
Qed.

Lemma park_call_log r t timeout raw os a r' :
  simulates r t → call_allowed t (ReactorSpec.Park timeout raw os) →
  rstep r (ReactorSpec.Park timeout raw os) = Some (a, r') →
  ∃ now to ws I answer, log r' = log r ++ park_log timeout now to ws I answer.
Proof.
  intros (T & H & Ht) [Hu Hto] Hr. cbn [rstep] in Hr. destruct (flush_spec r T (ios t) H) as (H1 & _ & _ & _ & Hl & _).
  pose proof (reactor_park_spec _ _ (ios t) timeout raw os H1 Hu Hto) as Hp. unfold flush_and_park in Hr.
  destruct (park _ timeout raw os) as [res r2]. injection Hr as _ <-.
  destruct Hp as (to & ws & _ & _ & Hlog & _). rewrite Hlog, Hl. by eexists _, _, _, _, _.
Qed.

(** Calls that concern timers, and parks. *)
Definition serves_timers (c : ReactorSpec.call) : bool :=
  match c with ReactorSpec.RegisterTimer _ _ | ReactorSpec.Park _ _ _ => true | _ => false end.

(** A call that serves timers leaves no trace of I/O. *)
Lemma serves_log r t c a r' :
  simulates r t → spare t = None → call_allowed t c → serves_timers c = true → rstep r c = Some (a, r') →
  ∃ seg, log r' = log r ++ seg ∧ Forall (λ e, concerns_io e = false) seg.
Proof.
  intros Hs Hsp Hc Hserves Hstep. destruct c as [d w| | | | |timeout raw os]; try done.
  - destruct (register_inbound r d w a r') as (seg & Hl & Hseg); [by eapply no_pending|done|].
    exists seg. split; [done|]. eapply Forall_impl; [exact Hseg|]. by intros e [_ ?].
  - destruct (park_call_log r t timeout raw os a r' Hs Hc Hstep) as (now & to & ws & I & answer & Hl).
    destruct (park_log_cycle timeout now to ws I answer) as (body & x & Hpl & Hb). rewrite Hpl in Hl.
    eexists. split; [exact Hl|]. constructor; [done|]. apply Forall_app. split; [|by repeat constructor].
    eapply Forall_impl; [exact Hb|]. intros [|c] He; [done|]. by apply negb_true_iff.
Qed.

Lemma rstate_step r t c :
  rstate r t → call_allowed t c → serves_timers c = true →
  ∃ a r' t', rstep r c = Some (a, r') ∧ sstep t c a t' ∧ rstate r' t'.
Proof.
  intros [Hs Hok Hsp Hg [Hp [Hti Hri]] Ht Hq] Hc Hserves. assert (Hd : deregisters c = false) by by destruct c.
  destruct (rstep_simulates r t c Hs Hc) as (a & r' & t' & Hstep & Hst & Hs'). exists a, r', t'.
  split; [done|]. split; [done|].
  destruct (rstep_segment r t c a r' t' Hs Hok Hc Hstep Hst) as (seg & Hl & Hseg).
  destruct (rstep_timer_segment r t c a r' t' Hs Hok Hsp Hc Hd Hstep Hst) as (Hsp' & seg' & Hl' & Hseg').
  destruct (serves_log r t c a r' Hs Hsp Hc Hserves Hstep) as (seg2 & Hl2 & Hq2).
  split; [done|by eapply sstep_ok|done|by eapply rstep_rgood|rewrite Hl; by eapply segment_app| |].
  - rewrite Hl'. by eapply timer_segment_app.
  - rewrite Hl2. by apply Forall_app.
Qed.

Lemma rstate_inv r t : rstate r t → reactor_inv (log r).
Proof.
  intros [Hs Hok _ (T & I & Hri & Hl & _) (Hp & Hti & Hr) [Htt Htr] Hq].
  destruct (protocol_cycles (log r) Idle Hp) as (C1 & C2 & C3 & C4 & C5 & _).
  split; [|split; [done|apply syscall_inv_without_io; [done|by eapply linv_wake_registration]]].
  split; [apply Hl|]. split; [by eapply linv_unique|]. split; [by eapply traced_waker_validity|].
  eapply replayed_wake_on_expired; [exact Hl|]. intros rid d w Hd. rewrite Htr in Hd.
  destruct (so_timers _ Hok rid d w Hd) as (_ & _ & Hlt). rewrite (ri_logged _ _ _ Hri).
  destruct Hs as (T' & _ & Heq). by rewrite Heq in Hlt.
Qed.

Fixpoint parks (cs : list ReactorSpec.call) : nat :=
  match cs with
  | [] => 0
  | ReactorSpec.Park _ _ _ :: cs' => S (parks cs')
  | _ :: cs' => parks cs'
  end.

(** The log after [k] parks. *)
Definition reached k l : Prop :=
  k = 0 ∧ Forall (λ e, is_inbound_non_park e = true) l ∨ 0 < k ∧ nsteps reactor_progress k [] l.

Lemma holds_at_app f l seg i : holds_at f l i → holds_at f (l ++ seg) i.
Proof. intros (e & He & ?). exists e. split; [by apply lookup_app_l_Some|done]. Qed.

Lemma holds_at_app_inv f l seg i : i < length l → holds_at f (l ++ seg) i → holds_at f l i.
Proof. intros Hi (e & He & ?). rewrite lookup_app_l in He by done. by exists e. Qed.

Lemma reached_inbound k l seg :
  reached k l → Forall (λ e, is_inbound_non_park e = true) seg → reactor_inv (l ++ seg) → reached k (l ++ seg).
Proof.
  intros [[-> Hl]|[Hk Hs]] Hseg Hinv; [left; split; [done|by apply Forall_app]|right; split; [done|]].
  destruct k as [|k]; [lia|]. apply nsteps_inv_r in Hs as (lm & Hs & Hlen & Hpre & (ps & pe & Hp & Hpe & Hc & H1 & H2) & _).
  eapply nsteps_r; [exact Hs|]. split; [rewrite length_app; lia|]. split; [by apply prefix_app_r|]. split; [|done].
  exists ps, pe. split; [done|]. split; [rewrite length_app; lia|]. split; [|split].
  - destruct Hc as (? & ? & ? & ? & Hno). split; [done|]. split; [rewrite length_app; lia|].
    split; [by apply holds_at_app|]. split; [by apply holds_at_app|]. intros i Hi. destruct (Hno i Hi) as [N1 N2].
    split; intros ?%holds_at_app_inv; [by apply N1|lia|by apply N2|lia].
  - intros i e Hi He. rewrite lookup_app_l in He by lia. by eapply H1.
  - intros i e Hi [He|[Hge He]]%lookup_app_Some; [by eapply H2|]. rewrite Forall_lookup in Hseg. by eapply Hseg.
Qed.

(** A park is a round, with any calls of clients before it. *)
Lemma park_round l0 l timeout body x :
  l0 `prefix_of` l → (∀ i e, length l0 ≤ i < length l → l !! i = Some e → is_inbound_non_park e = true) →
  Forall (λ e, in_cycle e = true) body →
  let seg := Inbound (ReactorLog.Park timeout None) :: body ++ [Inbound (ReactorLog.Park timeout (Some x))] in
  reactor_inv (l ++ seg) → reactor_progress l0 (l ++ seg).
Proof.
  intros Hpre Hbefore Hb seg Hinv.
  assert (Hlen : length (l ++ seg) = length l + S (S (length body))) by (rewrite length_app; simpl; rewrite length_app; simpl; lia).
  assert (Hc : is_complete_park_cycle (l ++ seg) (length l) (length (l ++ seg))).
  { split; [lia|]. split; [done|]. split; [|split].
    - eexists. split; [by apply list_lookup_middle|done].
    - exists (Inbound (ReactorLog.Park timeout (Some x))). split; [|done]. rewrite Hlen, lookup_app_r by lia.
      replace (_ - _ - _) with (S (length body)) by lia. simpl. by apply list_lookup_middle.
    - intros i Hi.
      assert (Hin : ∀ e, (l ++ seg) !! i = Some e → in_cycle e = true).
      { intros e He. rewrite lookup_app_r in He by lia. destruct (i - length l) as [|m] eqn:Em; [lia|].
        unfold seg in He. rewrite lookup_cons in He. rewrite lookup_app_l in He by lia. rewrite Forall_lookup in Hb. by eapply Hb. }
      split; intros (e & He & Hp); specialize (Hin e He); by destruct e. }
  pose proof (prefix_length _ _ Hpre). split; [lia|]. split; [by apply prefix_app_r|]. split; [|done].
  exists (length l), (length (l ++ seg)). split; [lia|]. split; [done|]. split; [done|]. split.
  - intros i e Hi He. rewrite lookup_app_l in He by lia. by eapply Hbefore.
  - intros i e Hi He%lookup_lt_Some. lia.
Qed.

Lemma reached_park k l timeout body x :
  reached k l → Forall (λ e, in_cycle e = true) body →
  let seg := Inbound (ReactorLog.Park timeout None) :: body ++ [Inbound (ReactorLog.Park timeout (Some x))] in
  reactor_inv (l ++ seg) → reached (S k) (l ++ seg).
Proof.
  intros Hk Hb seg Hinv. right. split; [lia|]. destruct Hk as [[-> Hl]|[Hk Hs]].
  - apply nsteps_once. apply park_round; [apply prefix_nil| |done..]. intros i e _ He. rewrite Forall_lookup in Hl. by eapply Hl.
  - eapply nsteps_r; [exact Hs|]. apply park_round; [done| |done..]. intros i e Hi. lia.
Qed.

Lemma rrun_reached cs r t k answers r' :
  rstate r t → run_allowed t cs → Forall (λ c, serves_timers c = true) cs → rrun r cs = Some (answers, r') →
  reached k (log r) → reached (k + parks cs) (log r').
Proof.
  intros Hs Ha Hall. revert r t k answers Hs Ha. induction Hall as [|c cs Hc _ IH]; intros r t k answers Hs Ha Hrun Hk; simpl in Hrun.
  - injection Hrun as _ <-. simpl. by rewrite Nat.add_0_r.
  - inversion Ha as [|? ? ? Hca Hnext]; subst.
    destruct (rstate_step r t c Hs Hca Hc) as (a & r1 & t1 & Hstep & Hst & Hs1).
    rewrite Hstep in Hrun. cbn [mbind option_bind] in Hrun. apply bind_Some in Hrun as ([rest r2] & Hrest & [= _ <-]).
    pose proof (rstate_inv _ _ Hs1) as Hinv. destruct c as [d w| | | | |timeout raw os]; try done.
    + destruct (register_inbound r d w a r1) as (seg & Hl & Hseg); [|done|].
      { by eapply no_pending; apply Hs. }
      rewrite Hl in Hinv. simpl. eapply IH; [done|by eapply Hnext|done|]. rewrite Hl. apply reached_inbound; [done| |done].
      eapply Forall_impl; [exact Hseg|]. by intros e [? _].
    + destruct (park_call_log r t timeout raw os a r1 (rs_simulates _ _ Hs) Hca Hstep) as (now & to & ws & I & answer & Hl).
      destruct (park_log_cycle timeout now to ws I answer) as (body & x & Hpl & Hb). rewrite Hpl in Hl. rewrite Hl in Hinv.
      simpl. rewrite Nat.add_succ_r. change (S (k + parks cs)) with (S k + parks cs).
      eapply IH; [done|by eapply Hnext|done|]. rewrite Hl. by apply reached_park.
Qed.

Lemma rrun_rounds cs answers r :
  run_allowed service_init cs → Forall (λ c, serves_timers c = true) cs → 0 < parks cs →
  rrun new cs = Some (answers, r) → nsteps reactor_progress (parks cs) [] (log r).
Proof.
  intros Ha Hall Hk Hrun.
  assert (H0 : reached 0 (log new)) by (left; split; [done|constructor]).
  by destruct (rrun_reached cs new service_init 0 answers r rstate_new Ha Hall Hrun H0) as [[? _]|[_ Hs]]; [lia|].
Qed.

Lemma rounds_end n l : 0 < n → nsteps reactor_progress n [] l → reactor_inv l.
Proof.
  intros Hn Hs. destruct n as [|n]; [lia|]. apply nsteps_inv_r in Hs as (lm & _ & _ & _ & _ & ?). done.
Qed.

(** C29. The reactor implements its module when it registers timers and parks.  In a
    run whose calls are timer registrations and parks only, at least one of them a park, the log
    is reached from the empty log by as many rounds of the module as there are parks, and
    the module's invariants hold of it.  Deregistrations are excluded, as they must be: one of a live
    timer breaks these invariants ([held_back_deregistration_unlogged]); and so are
    calls about I/O ([io_calls_leave_module]). *)
Theorem parks_are_rounds cs answers r :
  run_allowed service_init cs → Forall (λ c, serves_timers c = true) cs → 0 < parks cs →
  rrun new cs = Some (answers, r) →
  reactor_inv (log r) ∧ progress_n (progress reactor_module_spec) [] (log r) (parks cs).
Proof.
  intros Ha Hall Hk Hrun. pose proof (rrun_rounds cs answers r Ha Hall Hk Hrun) as Hs.
  split; [by eapply rounds_end|by apply progress_n_nsteps].
Qed.

(** ** Witnesses *)

(** A timer that two parks see to: the clock reaches it in the second. *)
Definition timer_calls : list ReactorSpec.call :=
  [ReactorSpec.RegisterTimer 50 7; ReactorSpec.Park (Some 100) 20 (λ _, Ok []);
   ReactorSpec.Park (Some 100) 60 (λ _, Ok [])]%Z.

Lemma parks_are_rounds_witness :
  ∃ answers r, rrun new timer_calls = Some (answers, r) ∧
    progress_n (progress reactor_module_spec) [] (log r) 2 ∧ Outbound (WakeTask 7 1) ∈ log r.
Proof.
  assert (Hr : ∃ answers r, rrun new timer_calls = Some (answers, r)) by (eexists _, _; vm_compute; reflexivity).
  destruct Hr as (answers & r & Hr). exists answers, r. split; [exact Hr|]. split.
  - apply (parks_are_rounds timer_calls answers r).
    + unfold timer_calls. allow; split; first [intros ? [= <-]; lia | u64 | lia].
    + repeat constructor.
    + simpl. lia.
    + exact Hr.
  - vm_compute in Hr. injection Hr as _ <-. set_solver.
Defined.

(** A source registered and parked upon. *)
Definition io_calls : list ReactorSpec.call :=
  [ReactorSpec.RegisterIo 4 (true, false) (λ _ _ _, Ok tt); ReactorSpec.Park (Some 100) 20 (λ _, Ok [])]%Z.

Lemma io_calls_leave_module_witness :
  ∃ answers r, rrun new io_calls = Some (answers, r) ∧
    ¬ progress_n (progress reactor_module_spec) [] (log r) 1.
Proof.
  assert (Hr : ∃ answers r, rrun new io_calls = Some (answers, r)) by (eexists _, _; vm_compute; reflexivity).
  destruct Hr as (answers & r & Hr). exists answers, r. split; [exact Hr|].
  apply (io_calls_leave_module io_calls answers r 1).
  - unfold io_calls. allow; split; first [intros ? [= <-]; lia | u64 | lia].
  - exact Hr.
  - vm_compute in Hr. injection Hr as _ <-. reflexivity.
Defined.

End ReactorContracts.
