(* ===== verification/ReactorIoContract.v ===== *)
(** * ReactorIoContract: the I/O contract of the reactor

    [lion-reactor-spec/src/contracts/bounded_io_wakeup.rs] and
    [lion-liveness/src/reactor/proof/io_liveness.rs]: a task that set its waker on a live
    resource is woken by the event that the system has for it.  Rounds poll the system, so
    that the contract holds of the module as many rounds after the waker was set as the system
    may take to report the event. *)

From S2P Require Import Prelude ReactorLog ReactorIoLog ReactorIoSpec ReactorSyscallLog.
From S2P Require Import Framework ReactorContracts.
Import LogTrace.
Import UtilityLog ReactorLog ReactorIoLog ReactorSyscallLog Framework ReactorContracts.

Module ReactorIoContract.
Implicit Types (e : ReactorEvent) (l seg : list ReactorEvent) (rid w : Z) (i j k n : nat).

(** ** The contract *)

Definition sets_waker_of rid e : bool :=
  match succ_set_waker e with Some (rid', _, _) => bool_decide (rid' = rid) | None => false end.
Definition find_last_set_waker_for_rid l rid (before : nat) : option nat := find_last (sets_waker_of rid) l before.

Definition trigger_fn l rid : Prop :=
  ∃ sw, find_last_set_waker_for_rid l rid (length l) = Some sw ∧ io_syscall_active_at_set_waker l rid sw.

Definition response_fn l rid : Prop :=
  ∃ sw int w k, l !! sw ≫= succ_set_waker = Some (rid, int, w) ∧ sw < k ∧ l !! k ≫= wake_task = Some (w, rid).

Definition has_io_event_ready_matching_interest_after l rid (interest : bool * bool) (start : nat) : Prop :=
  ∃ i ev, start ≤ i ∧ l !! i ≫= io_event_ready = Some ev ∧ resource_id ev = rid ∧
    interest.1 && readable ev || interest.2 && writable ev = true.

Definition io_remains_active_assumption l rid : Prop :=
  ∀ sw reg, find_last_set_waker_for_rid l rid (length l) = Some sw →
    find_io_syscall_register_for_rid l rid sw = Some reg →
    ∀ j, reg < j → ¬ io_syscall_deregistered_at l j rid.

Definition bounded_io_wakeup : AsyncContract (list ReactorEvent) Z :=
  mkContract trigger_fn response_fn io_remains_active_assumption.

(** The system reports an event within [cap] polls after the waker was set. *)
Definition env_reactor_io l rid (cap : nat) : Prop :=
  io_remains_active_assumption l rid ∧
  ∀ sw, find_last_set_waker_for_rid l rid (length l) = Some sw →
    ∃ int w, l !! sw ≫= succ_set_waker = Some (rid, int, w) ∧ io_syscall_active_at_set_waker l rid sw ∧
      (cap ≤ count_poll_events_in_range l sw (length l) → has_io_event_ready_matching_interest_after l rid int sw).

(** ** Searches *)

Lemma sets_waker_of_spec rid e : sets_waker_of rid e = true ↔ ∃ int w, succ_set_waker e = Some (rid, int, w).
Proof.
  unfold sets_waker_of. split.
  - destruct (succ_set_waker e) as [[[rid' int] w]|]; [|done]. intros ->%bool_decide_eq_true. by eexists _, _.
  - intros (int & w & ->). by apply bool_decide_eq_true.
Qed.

Lemma last_set_waker l rid before sw :
  find_last_set_waker_for_rid l rid before = Some sw →
  sw < before ∧ ∃ int w, l !! sw ≫= succ_set_waker = Some (rid, int, w).
Proof.
  intros (Hlt & e & He & (int & w & Hw)%sets_waker_of_spec)%find_last_some. split; [done|]. exists int, w. by rewrite He.
Qed.

Lemma find_last_app f l seg before : before ≤ length l → find_last f (l ++ seg) before = find_last f l before.
Proof.
  induction before as [|i IH]; intros Hi; [done|]. simpl. rewrite lookup_app_l by lia. rewrite IH by lia. done.
Qed.

(** A search that finds nothing new. *)
Lemma find_last_old f l seg :
  Forall (λ e, f e = false) seg → find_last f (l ++ seg) (length (l ++ seg)) = find_last f l (length l).
Proof.
  induction seg as [|e seg IH] using rev_ind; intros H; [by rewrite app_nil_r|].
  apply Forall_app in H as [H He]. rewrite Forall_singleton in He. rewrite app_assoc, length_app, Nat.add_1_r.
  simpl. rewrite list_lookup_middle, He by done. rewrite find_last_app by done. by apply IH.
Qed.

(** ** The event wakes *)

Lemma io_wake_general l rid sw int w :
  reactor_inv l → io_remains_active_assumption l rid →
  find_last_set_waker_for_rid l rid (length l) = Some sw →
  l !! sw ≫= succ_set_waker = Some (rid, int, w) → has_io_event_ready_matching_interest_after l rid int sw →
  response_fn l rid ∧ ∃ k w', sw < k ∧ l !! k ≫= wake_task = Some (w', rid).
Proof.
  intros (_ & _ & _ & _ & _ & Hact & _ & _ & _ & Hrd & Hwr) Hrem Hsw Hev (i & ev & Hi & Hie & <- & Hmatch).
  destruct (Hact sw _ _ _ Hev) as (reg & Hreg & Ha). pose proof (Hrem sw reg Hsw Hreg) as Hno.
  apply find_last_some in Hreg as Hlt. destruct Hlt as [Hlt _].
  assert (sw < i).
  { destruct (decide (i = sw)) as [->|]; [|lia]. apply bind_Some in Hie as (e & He & Hie), Hev as (e' & He' & Hev).
    assert (e' = e) as -> by congruence. by destruct e as [[]|[]]. }
  assert (Hvalid : ∃ reading, has_valid_set_waker_syscall reading l i ∧ wake_on_io_ready_syscall reading l).
  { apply orb_true_iff in Hmatch as [[H1 H2]%andb_true_iff|[H1 H2]%andb_true_iff]; [exists true|exists false];
      (split; [|done]); exists ev, sw, int, w; (split; [done|]); (split; [done|]); (split; [done|]); (split; [done|]);
      (split; [done|]); (split; [by exists reg|]); intros k Hk; apply Hno; lia. }
  destruct Hvalid as (reading & Hv & Hwake).
  destruct (Hwake i ev Hie Hv) as (j & sw' & int' & w' & Hj & Hl & Hs & Hw & _).
  apply find_last_some in Hl as [Hl _]. split; [exists sw', int', w', j; split; [done|]; split; [lia|done]|].
  exists j, w'. split; [lia|done].
Qed.

(** ** Rounds poll the system *)

Lemma count_polls_filter l start n :
  count_poll_events_from l start n = length (filter (λ e, is_poll_events e = true) (take n (skipn start l))).
Proof.
  revert start. induction n as [|n IH]; intros start; [done|]. simpl. rewrite IH.
  destruct (l !! start) as [e|] eqn:Es.
  - rewrite (drop_S l e start Es). rewrite firstn_cons, filter_cons. destruct (is_poll_events e); done.
  - apply lookup_ge_None in Es. rewrite !drop_ge by lia. by rewrite !take_nil.
Qed.

Lemma count_polls_to_end l start : start ≤ length l →
  count_poll_events_in_range l start (length l) = length (filter (λ e, is_poll_events e = true) (skipn start l)).
Proof. intros H. unfold count_poll_events_in_range. rewrite count_polls_filter, take_ge; [done|]. rewrite length_drop. lia. Qed.

Lemma round_polls l l' :
  reactor_progress l l' → ∃ seg, l' = l ++ seg ∧ 1 ≤ length (filter (λ e, is_poll_events e = true) seg).
Proof.
  intros (_ & [seg ->] & (ps & pe & Hp & Hpe & Hc & _) & _ & (_ & Hpoll & _) & _). exists seg. split; [done|].
  pose proof Hc as (Hlt & _ & Hbeg & Hend & _). destruct (Hpoll (pe - 1) Hend) as (s & Hs & Hone).
  assert (ps < pe - 1).
  { destruct (decide (ps = pe - 1)) as [E|]; [|lia]. destruct Hbeg as (b & Hb & Hbb), Hend as (b' & Hb' & Hbb').
    rewrite <- E, Hb in Hb'. injection Hb' as <-. by destruct b as [[| | | | |? []]|]. }
  rewrite (park_start_inside _ ps pe) in Hs by (done || lia). injection Hs as <-.
  unfold count_poll_events_in_range in Hone. rewrite count_polls_filter in Hone.
  rewrite skipn_app, skipn_all2 in Hone by lia. simpl in Hone. rewrite <- Hone.
  rewrite <- (take_drop (ps - length l) seg) at 2. rewrite filter_app, length_app.
  rewrite <- (take_drop (pe - 1 - ps) (drop (ps - length l) seg)) at 2. rewrite filter_app, length_app. lia.
Qed.

Lemma rounds_poll_events n l l' sw :
  sw < length l → nsteps reactor_progress n l l' → n ≤ count_poll_events_in_range l' sw (length l').
Proof.
  intros Hsw Hs. assert (H : ∃ seg, l' = l ++ seg ∧ n ≤ length (filter (λ e, is_poll_events e = true) seg)).
  { clear Hsw. induction Hs as [l|n l1 l2 l3 Hr _ (seg & -> & Hn)].
    - exists []. by rewrite app_nil_r.
    - destruct (round_polls _ _ Hr) as (seg1 & -> & H1). exists (seg1 ++ seg).
      split; [by rewrite app_assoc|]. rewrite filter_app, length_app. lia. }
  destruct H as (seg & -> & Hn). rewrite count_polls_to_end by (rewrite length_app; lia).
  rewrite skipn_app, filter_app, length_app. replace (sw - length l) with 0 by lia. rewrite drop_0. lia.
Qed.

(** The I/O contract of the reactor.  A resource on which a waker was set is active with
    the system.  In a run of the module in which no other waker is set on it meanwhile, as many
    rounds later as the system may take polls to report the event, the log has a wake for the
    resource that is later than the waker. *)
Theorem io_contract l l' rid cap :
  reactor_inv l → trigger_fn l rid → progress_n (progress reactor_module_spec) l l' cap →
  env_reactor_io l' rid cap →
  find_last_set_waker_for_rid l' rid (length l') = find_last_set_waker_for_rid l rid (length l) →
  response_fn l' rid ∧
  ∃ sw k w, find_last_set_waker_for_rid l' rid (length l') = Some sw ∧ sw < k ∧ l' !! k ≫= wake_task = Some (w, rid).
Proof.
  intros Hinv (sw & Hsw & _) Hp%progress_n_nsteps [Hrem Henv] Hlast. rewrite Hsw in Hlast.
  pose proof (rounds_inv _ _ _ Hinv Hp) as Hinv'. destruct (last_set_waker _ _ _ _ Hsw) as [Hlt _].
  destruct (Henv sw Hlast) as (int & w & Hev & _ & Hready).
  destruct (io_wake_general l' rid sw int w Hinv' Hrem Hlast Hev) as (Hr & k & w' & Hk & Hw).
  - apply Hready. by eapply rounds_poll_events.
  - split; [done|]. by exists sw, k, w'.
Qed.

End ReactorIoContract.
