(* ===== verification/Sleep.v ===== *)
(** * Sleep: the sleep future of [lion-utility/src/time/sleep]

    The kernel of [kernel.rs] decides one poll from the clock reading and the
    reactor's answer, and keeps the log of [proof.rs]; the future of [future.rs]
    performs the calls to the reactor.  The kernel's ghost waker is the waker of the
    poll.  A poll that panics is an outcome of its own. *)

From S2P Require Import Prelude UtilityLog Reactor.
Import UtilityLog.

Module Sleep.

Inductive SleepMethod := Poll.

Definition SleepLog : Type := list (UtilityEvent SleepMethod unit).

Record SleepKernel := mkKernel { deadline : Z; rid : option Z; log : SleepLog }.

Inductive SleepAction := Complete | Suspend | Fail.

(** ** The log ([proof.rs]) *)

Inductive PollOutcome := Expired | ArmedOk (rid : Z) | RegisterErr.

Definition dereg_prefix (old_rid : option Z) : SleepLog :=
  match old_rid with Some old => [Outbound (DeregisterTimer old true)] | None => [] end.

Definition step_segment (w d : Z) (old_rid : option Z) (out : PollOutcome) : SleepLog :=
  let tick_begin := Inbound (Tick w Poll None) in
  let tick_end r := Inbound (Tick w Poll (Some r)) in
  match out with
  | Expired => [tick_begin; tick_end (Finished tt)]
  | ArmedOk new =>
      [tick_begin] ++ dereg_prefix old_rid ++
      [Outbound (RegisterTimer d w (Some new)); tick_end Pending]
  | RegisterErr =>
      [tick_begin] ++ dereg_prefix old_rid ++
      [Outbound (RegisterTimer d w None); tick_end (Finished tt)]
  end.

Definition drop_segment (old_rid : option Z) : SleepLog := dereg_prefix old_rid.

Definition wf (l : SleepLog) (r : option Z) : Prop :=
  utility_inv l ∧ ∀ t, r = Some t → token_active_before l t (length l).

Definition well_formed (k : SleepKernel) : Prop := wf (log k) (rid k).

(** ** The kernel ([kernel.rs]) *)

Definition new (d : Z) : SleepKernel := mkKernel d None [].

Definition poll_step (k : SleepKernel) (w now : Z) (reg : option Z) : SleepAction * SleepKernel :=
  let d := deadline k in
  if (d <=? now)%Z then
    (Complete, mkKernel d None (log k ++ step_segment w d (rid k) Expired))
  else
    match reg with
    | Some x => (Suspend, mkKernel d (Some x) (log k ++ step_segment w d (rid k) (ArmedOk x)))
    | None => (Fail, mkKernel d None (log k ++ step_segment w d (rid k) RegisterErr))
    end.

Definition reset_step (k : SleepKernel) (new_deadline : Z) : SleepKernel :=
  mkKernel new_deadline None (log k ++ drop_segment (rid k)).

Definition drop_step (k : SleepKernel) : SleepKernel :=
  mkKernel (deadline k) None (log k ++ drop_segment (rid k)).

(** ** The future ([future.rs]) *)

Inductive Polled := Ready | PendingPoll | Panicked.

(** The clock of a poll: the reading of the last park, or the real clock. *)
Definition poll_now (r : Reactor.Reactor) (raw : Z) : Z := default raw (Reactor.cached_now r).

(** Giving the held timer back. *)
Definition release (k : SleepKernel) (r : Reactor.Reactor) : Reactor.Reactor :=
  match rid k with Some x => Reactor.handle_deregister_timer r x | None => r end.

Definition poll (k : SleepKernel) (r : Reactor.Reactor) (w raw : Z) :
    Polled * SleepKernel * Reactor.Reactor :=
  let now := poll_now r raw in
  let '(reg, r') :=
    if (deadline k <=? now)%Z then (None, r)
    else
      let r1 := release k r in
      match Reactor.handle_register_timer r1 (deadline k) w with
      | (Ok x, r2) => (Some x, r2)
      | (Err _, r2) => (None, r2)
      end in
  match poll_step k w now reg with
  | (Suspend, k') => (PendingPoll, k', r')
  | (Complete, k') => (Ready, k', r')
  | (Fail, k') => (Panicked, k', r')
  end.

Definition reset (k : SleepKernel) (r : Reactor.Reactor) (d : Z) : SleepKernel * Reactor.Reactor :=
  (reset_step k d, release k r).

Definition drop (k : SleepKernel) (r : Reactor.Reactor) : SleepKernel * Reactor.Reactor :=
  (drop_step k, release k r).

(** ** The kernel's invariant *)

Section kernel.
Implicit Types (l : SleepLog) (k : SleepKernel) (w now x t d : Z).

Lemma dereg_prefix_no_tick o : Forall (λ e, is_tick e = false) (dereg_prefix o).
Proof. destruct o; repeat constructor. Qed.

(** Appending one poll that registers a timer, or fails to. *)
Lemma wf_poll_registered l o w d res r :
  wf l o → (r = Pending → is_Some res) →
  wf (l ++ call w Poll (dereg_prefix o ++ [Outbound (RegisterTimer d w res)]) r) res.
Proof.
  intros [Hl Ho] Hr. set (mid := dereg_prefix o ++ _). set (seg := call w Poll mid r).
  assert (Hmid : Forall (λ e, is_tick e = false) mid).
  { apply Forall_app. split; [apply dereg_prefix_no_tick|by repeat constructor]. }
  assert (Hreg : (l ++ seg) !! (length l + length mid) = Some (Outbound (RegisterTimer d w res))).
  { rewrite lookup_app_r by lia. replace (_ - _) with (length mid) by lia.
    unfold seg, call, mid. rewrite length_app. simpl. rewrite Nat.add_1_r. simpl. rewrite <- app_assoc.
    by apply list_lookup_middle. }
  assert (Hend : ∀ n e, length l + length mid < n → (l ++ seg) !! n = Some e →
    e = Inbound (Tick w Poll (Some r))).
  { intros n e Hk. rewrite lookup_app_r by lia. intros [[? _]|[(j & ? & Hj)|[_ ->]]]%call_lookup; [lia| |done].
    apply lookup_lt_Some in Hj. lia. }
  split.
  - apply call_preserves; [done..| |].
    + intros Hp. destruct (Hr Hp) as [rt ->]. right; right; left.
      exists (length l + length mid), d, rt. split; [unfold mid; rewrite length_app; simpl; lia|].
      split; [done|]. intros (n & res & Hk & Hd). apply Hend in Hd; [done|lia].
    + intros j e rt Hj Ht. apply lookup_app_Some in Hj as [Hj|[_ Hj]].
      2: { apply list_lookup_singleton_Some in Hj as [_ <-]. done. }
      destruct o as [old|]; [|by destruct j].
      apply list_lookup_singleton_Some in Hj as [-> <-]. simpl in Ht. injection Ht as <-.
      destruct (Ho old eq_refl) as (i & Hi & (ev & Hev & Hregs) & Hno).
      exists i. split; [lia|]. split; [exists ev; split; [by rewrite lookup_app_l|done]|].
      intros (n & Hk & e & He & Hd). destruct (decide (n < length l)).
      * rewrite lookup_app_l in He by done. apply Hno. exists n. split; [lia|by exists e].
      * assert (n = length l) as -> by lia. rewrite lookup_app_r, Nat.sub_diag in He by lia.
        simpl in He. by injection He as <-.
  - intros rt ->. exists (length l + length mid).
    split; [unfold seg, call; rewrite length_app; simpl; rewrite length_app; simpl; lia|].
    split; [exists (Outbound (RegisterTimer d w (Some rt))); split; [done|by left]|].
    intros (n & Hk & e & He & Hd). apply Hend in He; [by subst|lia].
Qed.

Lemma wf_poll l o w d out :
  wf l o → wf (l ++ step_segment w d o out) (match out with ArmedOk x => Some x | _ => None end).
Proof.
  intros H. destruct out as [|x|].
  - split; [|done]. apply (call_preserves l w Poll [] (Finished tt)); [apply H|constructor|done|].
    intros j e rt Hj. by destruct j.
  - pose proof (wf_poll_registered l o w d (Some x) Pending H ltac:(done)) as Hp.
    unfold call in Hp. rewrite <- app_assoc in Hp. exact Hp.
  - pose proof (wf_poll_registered l o w d None (Finished tt) H ltac:(done)) as Hp.
    unfold call in Hp. rewrite <- app_assoc in Hp. exact Hp.
Qed.

Lemma wf_drop l o : wf l o → wf (l ++ drop_segment o) None.
Proof.
  intros [Hl Ho]. split; [|done]. destruct o as [old|]; simpl; [|by rewrite app_nil_r].
  apply utility_inv_push; [done|done|]. intros rt [= <-]. by apply Ho.
Qed.

Lemma poll_step_wf k w now reg : well_formed k → well_formed (poll_step k w now reg).2.
Proof.
  intros H. unfold poll_step. case_cmp; [|destruct reg]; simpl.
  - exact (wf_poll _ _ w (deadline k) Expired H).
  - exact (wf_poll _ _ w (deadline k) (ArmedOk _) H).
  - exact (wf_poll _ _ w (deadline k) RegisterErr H).
Qed.

End kernel.

End Sleep.
Import Sleep.

(** ** Runs of the kernel *)

Inductive kop := KPoll (w now : Z) (reg : option Z) | KReset (deadline : Z) | KDrop.

Definition kstep (k : SleepKernel) (o : kop) : SleepKernel :=
  match o with
  | KPoll w now reg => (poll_step k w now reg).2
  | KReset d => reset_step k d
  | KDrop => drop_step k
  end.

(** Whatever the clock and the reactor answer, a sleep's log satisfies the two
    invariants of every utility: a poll that suspends armed a timer for its own
    waker and did not take it back, and only timers that are held are deregistered;
    the timer that the kernel holds is active in the log. *)
Theorem sleep_kernel_well_formed d ops :
  let k := foldl kstep (new d) ops in
  utility_inv (log k) ∧ ∀ t, rid k = Some t → token_active_before (log k) t (length (log k)).
Proof.
  assert (Hgen : ∀ k, well_formed k → well_formed (foldl kstep k ops)).
  { induction ops as [|o ops IH]; intros k Hk; simpl; [done|]. apply IH.
    destruct o as [w now reg|d'|]; [by apply poll_step_wf|by apply wf_drop|by apply wf_drop]. }
  apply Hgen. split; [apply utility_inv_nil|done].
Qed.
