(* ===== verification/SleepSpec.v ===== *)
(** * SleepSpec: any number of sleeps over one reactor

    The system is the reactor with all its sleeps, and the wakes that the reactor
    gave so far; its steps are the operations of a sleep, and the calls of the other
    clients of the reactor, parking included.  The proofs use the reactor only
    through [ReactorSpec.service]. *)

From S2P Require Import Prelude Store Slab Wheel ReactorLog ResourceSlab Reactor ReactorInv ReactorOps.
From S2P Require Import ReactorSpec Sleep.
Import Reactor Sleep.

(** ** The system *)

Record sys := mkSys {
  reactor : Reactor;
  sleeps : gmap nat SleepKernel;
  waiting : gmap nat Z;  (** the waker of each sleep whose last poll suspended *)
  woken : list (Z * Z);  (** all wakes so far: the waker, and the resource *)
}.

Inductive op :=
  | Spawn (i : nat) (d : Z)
  | PollSleep (i : nat) (w raw : Z)
  | ResetSleep (i : nat) (d : Z)
  | DropSleep (i : nat)
  | Other (c : call).

Definition wakes_of (a : answer) : list (Z * Z) :=
  match a with Parked _ ws _ => ws | _ => [] end.

(** The outcome of a poll is returned; [None] is a step that cannot be taken. *)
Definition sys_step (s : sys) (o : op) : option (option Polled * sys) :=
  match o with
  | Spawn i d => Some (None, mkSys (reactor s) (<[i := new d]> (sleeps s)) (waiting s) (woken s))
  | PollSleep i w raw =>
      k ← sleeps s !! i;
      let '(res, k', r') := poll k (reactor s) w raw in
      let waiting' := match res with PendingPoll => <[i := w]> (waiting s) | _ => base.delete i (waiting s) end in
      Some (Some res, mkSys r' (<[i := k']> (sleeps s)) waiting' (woken s))
  | ResetSleep i d =>
      k ← sleeps s !! i;
      let '(k', r') := reset k (reactor s) d in
      Some (None, mkSys r' (<[i := k']> (sleeps s)) (base.delete i (waiting s)) (woken s))
  | DropSleep i =>
      k ← sleeps s !! i;
      let '(_, r') := drop k (reactor s) in
      Some (None, mkSys r' (base.delete i (sleeps s)) (base.delete i (waiting s)) (woken s))
  | Other c =>
      '(a, r') ← rstep (reactor s) c;
      Some (None, mkSys r' (sleeps s) (waiting s) (woken s ++ wakes_of a))
  end.

(** The other clients use I/O resources of their own; numbers are machine words. *)
Definition op_allowed (s : sys) (t : service) (o : op) : Prop :=
  match o with
  | Spawn i d => sleeps s !! i = None ∧ is_u64 d
  | PollSleep _ _ raw => is_u64 raw
  | ResetSleep _ d => is_u64 d
  | DropSleep _ => True
  | Other c =>
      match c with RegisterTimer _ _ | DeregisterTimer _ => False | _ => call_allowed t c end
  end.

(** Runs of steps that are allowed in the service that the reactor implements. *)
Inductive reach (s0 : sys) : sys → Prop :=
  | reach_refl : reach s0 s0
  | reach_step s t o out s' :
      reach s0 s → simulates (reactor s) t → op_allowed s t o → sys_step s o = Some (out, s') →
      reach s0 s'.

Definition sys_init : sys := mkSys Reactor.new ∅ ∅ [].

(** ** Timers and their holders *)

Section service.
Implicit Types (t : service) (x d w : Z) (wk : list (Z * Z)).

(** Timer [x] is the holder's: it is there, or its waker was woken. *)
Definition held t wk x d w : Prop :=
  (1 ≤ x < issued t)%Z ∧ ios t !! x = None ∧ spare t ≠ Some x ∧
  (timers t !! x = Some (d, w) ∨ timers t !! x = None ∧ (w, x) ∈ wk).

(** Nothing but its own deregistration takes a timer from its holder. *)
Lemma held_step t c a t' wk x d w :
  sstep t c a t' → held t wk x d w → c ≠ DeregisterTimer x → held t' (wk ++ wakes_of a) x d w.
Proof.
  intros Hs (Hx & Hio & Hsp & Hor) Hne.
  inversion Hs; subst; unfold held in *; simpl in *; rewrite ?app_nil_r.
  - split; [lia|]. split; [done|]. split; [done|]. by rewrite lookup_insert_ne by lia.
  - split; [lia|]. split; [done|]. split; [done|]. by rewrite lookup_insert_ne by congruence.
  - done.
  - split; [done|]. split; [done|]. split.
    + intros (? & _ & ?)%fmap_Some. congruence.
    + by rewrite lookup_delete_ne by congruence.
  - split; [lia|]. split; [|done]. case_match; [|done]. by rewrite lookup_insert_ne by lia.
  - done.
  - split; [done|]. split; [by apply lookup_delete_None; right|done].
  - split; [done|]. split; [|done]. rewrite lookup_insert_ne; [done|congruence].
  - split; [done|]. split; [done|]. split; [done|]. destruct Hor as [Hx'|[Hx' Hw]].
    + destruct (Z.le_gt_cases d now) as [Hle|Hgt].
      * right. split.
        -- apply eq_None_not_Some. intros [[d' w'] Hd]. apply not_due_lookup in Hd as [? ?].
           simplify_eq. lia.
        -- match goal with H : due_wakes _ _ _ |- _ => destruct H as [_ Hws] end.
           rewrite !elem_of_app. right. left. apply Hws. by exists d.
      * left. apply not_due_lookup. split; [done|lia].
    + right. split; [|rewrite !elem_of_app; by left].
      apply eq_None_not_Some. intros [[d' w'] Hd]. apply not_due_lookup in Hd as [? ?]. congruence.
Qed.

Lemma held_quiet t c a t' wk x d w :
  sstep t c a t' → wakes_of a = [] → held t wk x d w → c ≠ DeregisterTimer x → held t' wk x d w.
Proof.
  intros Hs Ha Hh Hne. pose proof (held_step t c a t' wk x d w Hs Hh Hne) as H.
  by rewrite Ha, app_nil_r in H.
Qed.

(** A registration gives a timer that nobody else holds. *)
Lemma register_held t d w x t' wk :
  service_ok t → sstep t (RegisterTimer d w) (Id (UtilityLog.Ok x)) t' →
  held t' wk x d w ∧ ∀ wk' y d' w', held t wk' y d' w' → y ≠ x.
Proof.
  intros [] Hs. inversion Hs; subst; unfold held in *; simpl in *; rewrite lookup_insert_eq.
  - split; [|intros; lia]. split; [lia|]. split; [done|]. split; [done|by left].
  - split; [|intros ? ? ? ? (_ & _ & Hn & _); congruence].
    split; [lia|]. split; [done|]. split; [done|by left].
Qed.

End service.

(** ** One operation of a sleep *)

Section poll.
Implicit Types (k : SleepKernel) (r : Reactor) (t : service) (x y d w raw : Z) (wk : list (Z * Z)).

Lemma poll_now_clock r t raw :
  simulates r t → (0 ≤ raw)%Z →
  (clock t ≤ poll_now r raw)%Z ∧ ((0 < clock t)%Z → poll_now r raw = clock t).
Proof.
  intros (T & H & ->) Hraw. pose proof (ri_cached _ _ _ H) as Hc. unfold poll_now. simpl.
  destruct (cached_now r) as [c|]; simpl in *; lia.
Qed.

(** Every other holder keeps its timer, and no timer appears. *)
Definition keeps t t' (own : option Z) : Prop :=
  ∀ wk y d w, held t wk y d w → own ≠ Some y → held t' wk y d w.

Lemma release_spec k r t :
  simulates r t → service_ok t → (∀ x, rid k = Some x → ios t !! x = None) →
  ∃ t', simulates (release k r) t' ∧ service_ok t' ∧ keeps t t' (rid k) ∧
    clock t' = clock t ∧ issued t' = issued t ∧ ios t' = ios t ∧
    ∀ y v, timers t' !! y = Some v → timers t !! y = Some v ∧ rid k ≠ Some y.
Proof.
  intros Hs Hok Hio. unfold release, keeps. destruct (rid k) as [x|]; [|by exists t].
  assert (Ha : call_allowed t (DeregisterTimer x)) by by apply Hio.
  destruct (handle_deregister_step r t x Hs Ha) as (t' & Ht & Hs').
  exists t'. split; [done|]. split; [by eapply sstep_ok|]. split.
  - intros wk y d w Hh Hne. eapply held_quiet; [exact Ht|done|done|congruence].
  - inversion Ht; subst; simpl. do 3 (split; [done|]).
    intros y v [? ?]%lookup_delete_Some. split; [done|congruence].
Qed.

Lemma poll_spec k r t w raw :
  simulates r t → service_ok t → is_u64 raw → is_u64 (deadline k) →
  (∀ x, rid k = Some x → ios t !! x = None) →
  let '(res, k', r') := poll k r w raw in
  deadline k' = deadline k ∧
  ∃ t', simulates r' t' ∧ service_ok t' ∧ keeps t t' (rid k) ∧ clock t' = clock t ∧
    (∀ wk y d' w', held t wk y d' w' → rid k ≠ Some y → rid k' ≠ Some y) ∧
    (∀ y v, timers t' !! y = Some v →
       rid k' = Some y ∨ timers t !! y = Some v ∧ (res = Ready ∨ rid k ≠ Some y)) ∧
    match res with
    | Ready => (deadline k ≤ poll_now r raw)%Z ∧ rid k' = None
    | PendingPoll => (poll_now r raw < deadline k)%Z ∧
        ∃ x, rid k' = Some x ∧ ∀ wk, held t' wk x (deadline k) w
    | Panicked => (poll_now r raw < deadline k)%Z ∧ rid k' = None ∧ issued t = u64_max ∧
        issued t' = u64_max
    end.
Proof.
  intros Hs Hok Hraw Hd Hio. unfold poll. cbv zeta.
  pose proof (poll_now_clock r t raw Hs (proj1 Hraw)) as [Hnow _].
  destruct (Z.leb_spec (deadline k) (poll_now r raw)) as [Hle|Hlt].
  { unfold poll_step. destruct (Z.leb_spec (deadline k) (poll_now r raw)); [|lia]. simpl.
    split; [done|]. exists t. unfold keeps. split_and!; try done. intros y v Hy. right. by auto. }
  destruct (release_spec k r t Hs Hok Hio) as (t1 & Hs1 & Hok1 & Hk1 & Hc1 & Hi1 & _ & Htm1).
  assert (Ha : call_allowed t1 (RegisterTimer (deadline k) w)) by (split; [done|lia]).
  pose proof (handle_register_step _ t1 (deadline k) w Hs1 Ha) as Hreg.
  destruct (handle_register_timer (release k r) (deadline k) w) as [a r2].
  destruct Hreg as (t2 & Hst & Hs2). unfold poll_step.
  assert (Hk2 : keeps t t2 (rid k)).
  { intros wk y d' w' Hh Hne. eapply held_quiet; [exact Hst|done|by apply Hk1|done]. }
  assert (Hc2 : clock t2 = clock t) by (rewrite <- Hc1; by inversion Hst; subst).
  assert (Hok2 : service_ok t2) by by eapply sstep_ok.
  destruct a as [x|e]; (destruct (Z.leb_spec (deadline k) (poll_now r raw)); [lia|]); simpl;
    (split; [done|]); exists t2; do 4 (split; [done|]).
  - destruct (register_held t1 (deadline k) w x t2 [] Hok1 Hst) as [_ Hother]. split.
    { intros wk y d' w' Hh Hne [= ->]. by apply (Hother wk y d' w'); [by apply Hk1|]. }
    split; [|split; [done|]].
    + intros y v Hy. assert (y = x ∨ timers t1 !! y = Some v) as [->|Hy'].
      { inversion Hst; subst; simpl in *; apply lookup_insert_Some in Hy; naive_solver. }
      * by left.
      * right. apply Htm1 in Hy'. naive_solver.
    + exists x. split; [done|]. intros wk. by apply (register_held t1).
  - split; [done|]. split; [|split; [done|split; [done|]]].
    + intros y v Hy. right. assert (Htm : timers t2 = timers t1) by by inversion Hst; subst.
      rewrite Htm in Hy. apply Htm1 in Hy. naive_solver.
    + rewrite <- Hi1. by inversion Hst; subst.
Qed.

Lemma simulates_issued r t : simulates r t → issued t = next_resource_id r.
Proof. by intros (T & _ & ->). Qed.

(** A poll uses up one id at most. *)
Lemma poll_ids k r w raw :
  let r' := (poll k r w raw).2 in
  (next_resource_id r ≤ next_resource_id r' ≤ next_resource_id r + 1)%Z.
Proof.
  unfold Sleep.poll. cbv zeta. destruct (deadline k <=? poll_now r raw)%Z; [destruct (poll_step _ _ _ _) as [[] ?]; simpl; lia|].
  assert (Hrel : next_resource_id (release k r) = next_resource_id r).
  { unfold Sleep.release, handle_deregister_timer, flush_pending_deregister.
    destruct (rid k); [|done]. destruct (pending_deregister r) as [[]|]; by destruct (Wheel.get_deadline _ _). }
  rewrite <- Hrel. set (r1 := release k r).
  assert (Hreg : ∀ r0 d, next_resource_id r0 = next_resource_id r1 →
    let r' := (register_timer r0 d w).2 in (next_resource_id r1 ≤ next_resource_id r' ≤ next_resource_id r1 + 1)%Z).
  { intros r0 d Hr0. unfold register_timer, alloc_resource_id. simpl (next_resource_id (inbound _ _)).
    destruct (_ <=? _)%Z; simpl; lia. }
  assert (Hh : let r' := (handle_register_timer r1 (deadline k) w).2 in
    (next_resource_id r1 ≤ next_resource_id r' ≤ next_resource_id r1 + 1)%Z).
  { unfold handle_register_timer. destruct (pending_deregister r1) as [[p d0]|]; [|by apply Hreg].
    destruct (_ && _); [simpl; lia|by apply Hreg]. }
  destruct (handle_register_timer r1 (deadline k) w) as [[x|e] r2]; destruct (poll_step _ _ _ _) as [[] ?]; exact Hh.
Qed.

End poll.

(** ** The invariant *)

Record sinv (s : sys) (t : service) : Prop := {
  sv_sim : simulates (reactor s) t;
  sv_ok : service_ok t;
  sv_u64 : ∀ i k, sleeps s !! i = Some k → is_u64 (deadline k);
  sv_wait : ∀ i w, waiting s !! i = Some w → ∃ k x, sleeps s !! i = Some k ∧ rid k = Some x;
  sv_held : ∀ i k x, sleeps s !! i = Some k → rid k = Some x →
    ∃ w, waiting s !! i = Some w ∧ held t (woken s) x (deadline k) w;
  sv_distinct : ∀ i j ki kj x, sleeps s !! i = Some ki → sleeps s !! j = Some kj →
    rid ki = Some x → rid kj = Some x → i = j;
}.

(** Every live timer belongs to a sleep. *)
Definition owned (s : sys) (t : service) : Prop :=
  (0 < clock t)%Z ∧
  ∀ y v, timers t !! y = Some v → ∃ i k, sleeps s !! i = Some k ∧ rid k = Some y.

Section inv.
Implicit Types (s : sys) (t : service) (i j : nat) (k : SleepKernel) (x y d w : Z).

Lemma held_not_io t wk x d w : held t wk x d w → ios t !! x = None.
Proof. by intros (_ & ? & _). Qed.

Lemma own_not_io s t i k x : sinv s t → sleeps s !! i = Some k → rid k = Some x → ios t !! x = None.
Proof. intros H Hi Hx. destruct (sv_held _ _ H i k x Hi Hx) as (w & _ & Hh). by eapply held_not_io. Qed.

(** One sleep changes, and what it gave up was its own. *)
Lemma sinv_update s t t' r' i k k' wt' :
  sinv s t → sleeps s !! i = Some k → simulates r' t' → service_ok t' → keeps t t' (rid k) →
  (∀ wk y d w, held t wk y d w → rid k ≠ Some y → rid k' ≠ Some y) →
  is_u64 (deadline k') →
  (match rid k' with
   | Some x => ∃ w, wt' = <[i := w]> (waiting s) ∧ held t' (woken s) x (deadline k') w
   | None => wt' = base.delete i (waiting s)
   end) →
  sinv (mkSys r' (<[i := k']> (sleeps s)) wt' (woken s)) t'.
Proof.
  intros H Hi Hs Hok Hkeep Hother Hu Hown. pose proof H as [].
  assert (Hne : ∀ j kj x, j ≠ i → sleeps s !! j = Some kj → rid kj = Some x → rid k ≠ Some x).
  { intros j kj x Hj Hkj Hx Hx'. by apply Hj, (sv_distinct0 j i kj k x). }
  split; simpl; [done|done|..].
  - intros j kj. rewrite lookup_insert. case_decide; [by intros [= <-]|eauto].
  - intros j w Hw. rewrite lookup_insert. case_decide as Hd.
    + subst j. destruct (rid k') as [x|] eqn:Hx; [by exists k', x|]. subst wt'.
      by rewrite lookup_delete_eq in Hw.
    + apply (sv_wait0 j w). destruct (rid k') as [x|]; [destruct Hown as (w' & -> & _)|subst wt'].
      * by rewrite lookup_insert_ne in Hw.
      * by rewrite lookup_delete_ne in Hw.
  - intros j kj x. rewrite lookup_insert. case_decide as Hd.
    + intros [= <-] Hx. subst j. rewrite Hx in Hown. destruct Hown as (w & -> & Hh).
      exists w. by rewrite lookup_insert_eq.
    + intros Hkj Hx. destruct (sv_held0 j kj x Hkj Hx) as (w & Hw & Hh). exists w. split.
      * destruct (rid k') as [x'|]; [destruct Hown as (w' & -> & _)|subst wt'].
        -- by rewrite lookup_insert_ne.
        -- by rewrite lookup_delete_ne.
      * by eapply Hkeep, Hne.
  - assert (Hfree : ∀ j kj x, j ≠ i → sleeps s !! j = Some kj → rid kj = Some x → rid k' ≠ Some x).
    { intros j kj x Hj Hkj Hx. destruct (sv_held0 j kj x Hkj Hx) as (w & _ & Hh).
      by eapply Hother, Hne. }
    intros j1 j2 k1 k2 x. rewrite !lookup_insert. repeat case_decide; intros; simplify_eq; try done.
    + by destruct (Hfree j2 k2 x).
    + by destruct (Hfree j1 k1 x).
    + by eapply sv_distinct0.
Qed.

(** One poll: the invariant, and what the outcome means. *)
Lemma sinv_poll s t i k w raw :
  sinv s t → sleeps s !! i = Some k → is_u64 raw →
  let '(res, k', r') := poll k (reactor s) w raw in
  let wt' := match res with PendingPoll => <[i := w]> (waiting s) | _ => base.delete i (waiting s) end in
  ∃ t', let s' := mkSys r' (<[i := k']> (sleeps s)) wt' (woken s) in
    sinv s' t' ∧ (owned s t → owned s' t') ∧ clock t' = clock t ∧
    match res with
    | Ready => (deadline k ≤ poll_now (reactor s) raw)%Z
    | PendingPoll => (poll_now (reactor s) raw < deadline k)%Z ∧
        ∃ x, rid k' = Some x ∧ timers t' !! x = Some (deadline k, w)
    | Panicked => (poll_now (reactor s) raw < deadline k)%Z ∧ issued t = u64_max
    end.
Proof.
  intros H Hi Hraw. pose proof H as [Hs Hok Hu ? ? ?].
  pose proof (poll_spec k (reactor s) t w raw Hs Hok Hraw (Hu _ _ Hi)
    (λ x Hx, own_not_io _ _ _ _ _ H Hi Hx)) as Hp.
  destruct (poll k (reactor s) w raw) as [[res k'] r'].
  destruct Hp as (Hd & t' & Hs' & Hok' & Hk & Hc & Hother & Htm & Hres). exists t'. simpl.
  split; [|split].
  - eapply sinv_update; [done..|by rewrite Hd; eauto|].
    destruct res; [by destruct Hres as [_ ->]| |by destruct Hres as (_ & -> & _)].
    destruct Hres as (_ & x & -> & Hh). exists w. split; [done|by rewrite Hd].
  - intros [Hclock Hown]. split; [by rewrite Hc|]. intros y v Hy. simpl.
    destruct (Htm y v Hy) as [Hx|[Hy' Hne]]; [exists i, k'; by rewrite lookup_insert_eq|].
    destruct (Hown y v Hy') as (j & kj & Hj & Hx). exists j, kj. split; [|done].
    rewrite lookup_insert_ne; [done|]. intros ->. rewrite Hi in Hj. injection Hj as <-.
    destruct Hne as [->|Hne]; [|done]. destruct Hres as [Hle _].
    pose proof (poll_now_clock _ _ raw Hs (proj1 Hraw)) as [_ Hnow]. rewrite (Hnow Hclock) in Hle.
    destruct v as [d w']. destruct (sv_held0 _ _ _ Hi Hx) as (w2 & _ & _ & _ & _ & [Hd2|[Hd2 _]]); [|congruence].
    pose proof (so_timers _ Hok _ _ _ Hd2). lia.
  - split; [done|]. destruct res; [by destruct Hres| |by destruct Hres as (? & _ & ? & _)].
    destruct Hres as (Hlt & x & Hx & Hh). split; [done|]. exists x. split; [done|].
    destruct (Hh []) as (_ & _ & _ & [?|[_ ?%not_elem_of_nil]]); done.
Qed.

(** A reset, and in the same way a drop, gives the timer back. *)
Lemma sinv_reset s t i k d :
  sinv s t → sleeps s !! i = Some k → is_u64 d →
  ∃ t', let s' := mkSys (release k (reactor s)) (<[i := reset_step k d]> (sleeps s))
                        (base.delete i (waiting s)) (woken s) in
    sinv s' t' ∧ (owned s t → owned s' t') ∧ clock t' = clock t.
Proof.
  intros H Hi Hd. pose proof H as [Hs Hok Hu ? ? ?].
  destruct (release_spec k (reactor s) t Hs Hok (λ x Hx, own_not_io _ _ _ _ _ H Hi Hx))
    as (t' & Hs' & Hok' & Hk & Hc & _ & _ & Htm).
  exists t'. split; [by eapply sinv_update|]. split; [|done]. intros [Hclock Hown].
  split; [by rewrite Hc|]. intros y v Hy. apply Htm in Hy as [Hy Hne].
  destruct (Hown y v Hy) as (j & kj & Hj & Hx). exists j, kj. split; [|done]. simpl.
  rewrite lookup_insert_ne; [done|]. intros ->. rewrite Hi in Hj. by injection Hj as <-.
Qed.

(** Forgetting a sleep that holds nothing. *)
Lemma sinv_forget s t i k :
  sinv s t → sleeps s !! i = Some k → rid k = None →
  let s' := mkSys (reactor s) (base.delete i (sleeps s)) (base.delete i (waiting s)) (woken s) in
  sinv s' t ∧ (owned s t → owned s' t).
Proof.
  intros [] Hi Hr. split; [split; simpl; [done|done|..]|].
  - intros j kj [_ Hj]%lookup_delete_Some. eauto.
  - intros j w [Hne Hj]%lookup_delete_Some. rewrite lookup_delete_ne by done. eauto.
  - intros j kj x [Hne Hj]%lookup_delete_Some Hx. rewrite lookup_delete_ne by done. eauto.
  - intros j1 j2 k1 k2 x [_ H1]%lookup_delete_Some [_ H2]%lookup_delete_Some. eauto.
  - intros [Hc Hown]. split; [done|]. intros y v Hy. destruct (Hown y v Hy) as (j & kj & Hj & Hx).
    exists j, kj. split; [|done]. simpl. rewrite lookup_delete_ne; [done|]. intros ->. congruence.
Qed.

(** A new sleep has registered nothing. *)
Lemma sinv_spawn s t i d :
  sinv s t → sleeps s !! i = None → is_u64 d →
  let s' := mkSys (reactor s) (<[i := new d]> (sleeps s)) (waiting s) (woken s) in
  sinv s' t ∧ (owned s t → owned s' t).
Proof.
  intros [] Hi Hd. split; [split; simpl; [done|done|..]|].
  - intros j kj. rewrite lookup_insert_Some. intros [[<- <-]|[_ ?]]; [done|eauto].
  - intros j w Hw. destruct (sv_wait0 j w Hw) as (k & x & Hk & Hx). exists k, x.
    rewrite lookup_insert_ne by congruence. done.
  - intros j kj x. rewrite lookup_insert_Some. intros [[<- <-]|[_ ?]]; [done|eauto].
  - intros j1 j2 k1 k2 x. rewrite !lookup_insert_Some.
    intros [[<- <-]|[_ ?]] [[<- <-]|[_ ?]]; try done. eauto.
  - intros [Hc Hown]. split; [done|]. intros y v Hy. destruct (Hown y v Hy) as (j & kj & Hj & Hx).
    exists j, kj. split; [|done]. simpl. rewrite lookup_insert_ne by congruence. done.
Qed.

(** A call of another client. *)
Lemma sinv_other s t c a r' :
  sinv s t → (∀ d w, c ≠ RegisterTimer d w) → (∀ x, c ≠ DeregisterTimer x) → call_allowed t c →
  rstep (reactor s) c = Some (a, r') →
  ∃ t', let s' := mkSys r' (sleeps s) (waiting s) (woken s ++ wakes_of a) in
    sstep t c a t' ∧ sinv s' t' ∧ (owned s t → owned s' t') ∧ (clock t ≤ clock t')%Z.
Proof.
  intros [] Hreg Hdereg Hc Hr.
  destruct (rstep_simulates (reactor s) t c sv_sim0 Hc) as (a' & r2 & t' & Hr2 & Hs & Hsim).
  rewrite Hr in Hr2. injection Hr2 as <- <-. exists t'. split; [done|].
  assert (Hct : (clock t ≤ clock t')%Z ∧ ∀ y v, timers t' !! y = Some v → timers t !! y = Some v).
  { inversion Hs; subst; simpl; try (by split).
    - by destruct (Hreg d w).
    - by destruct (Hreg d w).
    - by destruct (Hdereg rid0).
    - split; [lia|]. intros y [d w] [? _]%not_due_lookup. done. }
  destruct Hct as [Hct Htm].
  split; [split; simpl; [done|by eapply sstep_ok|done|done|..|done]|].
  - intros i k x Hi Hx. destruct (sv_held0 i k x Hi Hx) as (w & Hw & Hh). exists w. split; [done|].
    by eapply held_step.
  - split; [|done]. intros [Hclock Hown]. split; [simpl; lia|]. intros y v Hy. by apply (Hown y v), Htm.
Qed.

End inv.

(** ** Every step, and every run *)

Section run.
Implicit Types (s : sys) (t : service).

Lemma sys_step_sinv s t o out s' :
  sinv s t → op_allowed s t o → sys_step s o = Some (out, s') →
  ∃ t', sinv s' t' ∧ (owned s t → owned s' t') ∧ (clock t ≤ clock t')%Z.
Proof.
  intros H Ha Hs. destruct o as [i d|i w raw|i d|i|c]; simpl in *.
  - injection Hs as <- <-. exists t. destruct Ha as [Hi Hd].
    destruct (sinv_spawn s t i d H Hi Hd). split; [done|]. by split.
  - apply bind_Some in Hs as (k & Hi & Hs).
    pose proof (sinv_poll s t i k w raw H Hi Ha) as Hp.
    destruct (poll k (reactor s) w raw) as [[res k'] r']. injection Hs as <- <-.
    destruct Hp as (t' & ? & ? & Hc & _). exists t'. split; [done|]. split; [done|lia].
  - apply bind_Some in Hs as (k & Hi & Hs). injection Hs as <- <-.
    destruct (sinv_reset s t i k d H Hi Ha) as (t' & ? & ? & ?). exists t'. split; [done|]. split; [done|lia].
  - apply bind_Some in Hs as (k & Hi & Hs). injection Hs as <- <-.
    destruct (sinv_reset s t i k (deadline k) H Hi (sv_u64 _ _ H _ _ Hi)) as (t' & H1 & Ho1 & Hc).
    exists t'. destruct (sinv_forget _ t' i (reset_step k (deadline k)) H1) as [H2 Ho2]; [|done|].
    { apply lookup_insert_eq. }
    simpl in *. rewrite delete_insert_eq, delete_delete_eq in *. split; [done|]. split; [auto|lia].
  - apply bind_Some in Hs as ([a r'] & Hr & Hs). injection Hs as <- <-.
    destruct (sinv_other s t c a r' H) as (t' & _ & ?); [..|done|by exists t'];
      by destruct c.
Qed.

Lemma reach_sinv s0 t0 s :
  reach s0 s → sinv s0 t0 →
  ∃ t, sinv s t ∧ (owned s0 t0 → owned s t) ∧ (clock t0 ≤ clock t)%Z.
Proof.
  intros Hr H0. induction Hr as [|s t o out s' _ (t1 & H & Ho & Hc) Hsim Ha Hs]; [by exists t0|].
  rewrite (simulates_unique _ _ _ Hsim (sv_sim _ _ H)) in Ha.
  destruct (sys_step_sinv s t1 o out s' H Ha Hs) as (t' & ? & ? & ?). exists t'. split; [done|].
  split; [auto|lia].
Qed.

Lemma sinv_init : sinv sys_init service_init.
Proof.
  split; simpl; [apply simulates_new|apply service_ok_init|..];
    intros *; rewrite ?lookup_empty; done.
Qed.

Lemma reach_init_sinv s : reach sys_init s → ∃ t, sinv s t.
Proof. intros Hr. destruct (reach_sinv _ _ _ Hr sinv_init) as (t & ? & _). by exists t. Qed.

End run.

(** ** Steps of the others *)

Section others.
Implicit Types (s : sys) (t : service) (i j : nat) (k : SleepKernel) (x d w : Z).

(** The step is not one of sleep [i]. *)
Definition leaves_sleep i (o : op) : Prop :=
  match o with PollSleep j _ _ | ResetSleep j _ | DropSleep j | Spawn j _ => j ≠ i | Other _ => True end.

(** Runs in which sleep [i] takes no step. *)
Inductive reach_but (i : nat) (s0 : sys) : sys → Prop :=
  | reach_but_refl : reach_but i s0 s0
  | reach_but_step s t o out s' :
      reach_but i s0 s → simulates (reactor s) t → op_allowed s t o → leaves_sleep i o →
      sys_step s o = Some (out, s') → reach_but i s0 s'.

(** The timer is live, or the clock is past its deadline. *)
Definition live_or_past t x d w : Prop := held t [] x d w ∨ (0 < clock t ∧ d ≤ clock t)%Z.

Lemma keeps_live_or_past t t' own x d w :
  keeps t t' own → clock t' = clock t → own ≠ Some x → live_or_past t x d w → live_or_past t' x d w.
Proof. intros Hk Hc Hne [Hh|Hp]; [left; by apply Hk|right; by rewrite Hc]. Qed.

Lemma sstep_live_or_past t c a t' x d w :
  service_ok t → sstep t c a t' → c ≠ DeregisterTimer x → live_or_past t x d w → live_or_past t' x d w.
Proof.
  intros Hok Hs Hne Hor. assert (Hc : (clock t ≤ clock t')%Z) by (inversion Hs; subst; simpl; lia).
  destruct Hor as [Hh|Hp]; [|right; lia].
  destruct (held_step t c a t' [] x d w Hs Hh Hne) as (H1 & H2 & H3 & [Ht|[Ht Hw]]).
  { left. split; [done|]. split; [done|]. split; [done|by left]. }
  destruct Hh as (_ & _ & _ & [Hx|[_ ?%not_elem_of_nil]]); [|done]. destruct (so_timers _ Hok _ _ _ Hx) as (_ & _ & Hlt).
  right. pose proof (so_clock _ Hok). inversion Hs; subst; simpl in *; try (by apply not_elem_of_nil in Hw).
  assert (Hle : (d ≤ now)%Z); [|lia]. destruct (Z.le_gt_cases d now) as [?|Hgt]; [done|].
  assert (E : not_due now T !! x = Some (d, w)) by (apply not_due_lookup; split; [done|lia]). congruence.
Qed.

Lemma step_but s t o out s' i k x d w :
  sinv s t → op_allowed s t o → sys_step s o = Some (out, s') → leaves_sleep i o →
  sleeps s !! i = Some k → rid k = Some x → live_or_past t x d w →
  ∃ t', sinv s' t' ∧ sleeps s' !! i = Some k ∧ live_or_past t' x d w.
Proof.
  intros H Ha Hs Hl Hi Hx Hor. pose proof (sys_step_sinv s t o out s' H Ha Hs) as (t' & H' & _).
  exists t'. split; [done|]. pose proof H as [Hsim Hok Hu _ _ Hd].
  assert (Hne : ∀ j kj, j ≠ i → sleeps s !! j = Some kj → rid kj ≠ Some x) by (intros j kj Hj Hkj E; by apply Hj, (Hd j i kj k x)).
  destruct o as [j d0|j w0 raw|j d0|j|c]; simpl in *.
  - injection Hs as _ <-. simpl in *. rewrite lookup_insert_ne by done.
    by rewrite (simulates_unique _ _ _ (sv_sim _ _ H') Hsim).
  - apply bind_Some in Hs as (kj & Hj & Hs).
    pose proof (poll_spec kj (reactor s) t w0 raw Hsim Hok Ha (Hu _ _ Hj) (λ y Hy, own_not_io _ _ _ _ _ H Hj Hy)) as Hp.
    destruct (poll kj (reactor s) w0 raw) as [[res k'] r']. injection Hs as _ <-.
    destruct Hp as (_ & t2 & Hs2 & _ & Hk & Hc & _). simpl. rewrite lookup_insert_ne by done. split; [done|].
    rewrite (simulates_unique _ _ _ (sv_sim _ _ H') Hs2). eapply keeps_live_or_past; [exact Hk|done|by eapply Hne|done].
  - apply bind_Some in Hs as (kj & Hj & Hs). injection Hs as _ <-. simpl. rewrite lookup_insert_ne by done. split; [done|].
    destruct (release_spec kj (reactor s) t Hsim Hok (λ y Hy, own_not_io _ _ _ _ _ H Hj Hy)) as (t2 & Hs2 & _ & Hk & Hc & _).
    rewrite (simulates_unique _ _ _ (sv_sim _ _ H') Hs2). eapply keeps_live_or_past; [exact Hk|done|by eapply Hne|done].
  - apply bind_Some in Hs as (kj & Hj & Hs). injection Hs as _ <-. simpl. rewrite lookup_delete_ne by done. split; [done|].
    destruct (release_spec kj (reactor s) t Hsim Hok (λ y Hy, own_not_io _ _ _ _ _ H Hj Hy)) as (t2 & Hs2 & _ & Hk & Hc & _).
    rewrite (simulates_unique _ _ _ (sv_sim _ _ H') Hs2). eapply keeps_live_or_past; [exact Hk|done|by eapply Hne|done].
  - apply bind_Some in Hs as ([a r'] & Hr & Hs). injection Hs as _ <-. split; [done|].
    destruct (sinv_other s t c a r' H) as (t2 & Hst & H2 & _); [by destruct c..|done|].
    rewrite (simulates_unique _ _ _ (sv_sim _ _ H') (sv_sim _ _ H2)).
    eapply sstep_live_or_past; [exact Hok|exact Hst|by destruct c|done].
Qed.

(** A sleep that is pending, and then pending again, has kept its timer. *)
Lemma pending_keeps_timer s t i w raw s1 s2 w2 raw2 s3 :
  sinv s t → is_u64 raw → is_u64 raw2 → sys_step s (PollSleep i w raw) = Some (Some PendingPoll, s1) →
  reach_but i s1 s2 → sys_step s2 (PollSleep i w2 raw2) = Some (Some PendingPoll, s3) →
  ∃ k1 x t2, sleeps s1 !! i = Some k1 ∧ sleeps s2 !! i = Some k1 ∧ rid k1 = Some x ∧
    simulates (reactor s2) t2 ∧ timers t2 !! x = Some (deadline k1, w).
Proof.
  intros H Hraw Hraw2 Hs Hr Hs2. simpl in Hs. apply bind_Some in Hs as (k & Hi & Hs).
  pose proof (sinv_poll s t i k w raw H Hi Hraw) as Hp.
  pose proof (poll_spec k (reactor s) t w raw (sv_sim _ _ H) (sv_ok _ _ H) Hraw (sv_u64 _ _ H _ _ Hi)
    (λ x Hx, own_not_io _ _ _ _ _ H Hi Hx)) as Hq.
  destruct (poll k (reactor s) w raw) as [[res k1] r1]. injection Hs as -> <-.
  destruct Hp as (t1 & H1 & _ & _ & _ & x & Hx & _).
  destruct Hq as (Hd1 & t1' & Hs1 & _ & _ & _ & _ & _ & _ & x' & Hx' & Hheld).
  assert (x' = x) as -> by congruence.
  pose proof (simulates_unique _ _ _ (sv_sim _ _ H1) Hs1) as E. simpl in E. subst t1'.
  set (s1 := mkSys r1 _ _ _) in *. assert (Hi1 : sleeps s1 !! i = Some k1) by apply lookup_insert_eq.
  assert (Hrun : ∃ t2, sinv s2 t2 ∧ sleeps s2 !! i = Some k1 ∧ live_or_past t2 x (deadline k1) w).
  { clear Hs2. induction Hr as [|s2 t2 o out s2' _ (t2' & H2 & Hi2 & Hor) Hsim Ha Hl Hst].
    - exists t1. split; [done|]. split; [done|]. left. rewrite Hd1. apply Hheld.
    - rewrite (simulates_unique _ _ _ Hsim (sv_sim _ _ H2)) in Ha. by eapply step_but. }
  destruct Hrun as (t2 & H2 & Hi2 & Hor). exists k1, x, t2. split; [done|]. split; [done|]. split; [done|].
  split; [apply H2|]. simpl in Hs2. rewrite Hi2 in Hs2. cbn [mbind option_bind] in Hs2.
  pose proof (sinv_poll s2 t2 i k1 w2 raw2 H2 Hi2 Hraw2) as Hp2.
  destruct (poll k1 (reactor s2) w2 raw2) as [[res k2] r2]. injection Hs2 as -> <-.
  destruct Hp2 as (_ & _ & _ & _ & Hlt & _).
  destruct Hor as [(_ & _ & _ & [?|[_ ?%not_elem_of_nil]])|[Hpos Hle]]; [done|done|].
  pose proof (poll_now_clock _ _ raw2 (sv_sim _ _ H2) (proj1 Hraw2)) as [_ Hnow]. specialize (Hnow Hpos). lia.
Qed.

End others.

(** ** What the sleeps are promised *)

(** A sleep is never late: once the thread parks at or after the deadline, the
    waker of a sleep that suspended has been woken for the sleep's own timer, and
    whatever the other sleeps and the other clients of the reactor do before the
    task gets its turn, the next poll of the sleep is ready. *)
Theorem sleep_wakes_on_park s t timeout raw os s1 out i k w s2 w' raw' :
  reach sys_init s → simulates (reactor s) t →
  op_allowed s t (Other (Park timeout raw os)) →
  sys_step s (Other (Park timeout raw os)) = Some (out, s1) →
  sleeps s !! i = Some k → waiting s !! i = Some w → (deadline k ≤ raw)%Z → (0 < raw)%Z →
  (∃ x, rid k = Some x ∧ (w, x) ∈ woken s1) ∧
  (reach s1 s2 → sleeps s2 !! i = Some k → is_u64 raw' →
   ∃ s3, sys_step s2 (PollSleep i w' raw') = Some (Some Ready, s3)).
Proof.
  intros Hr Hsim Ha Hs Hi Hw Hle Hpos. destruct (reach_init_sinv s Hr) as (t0 & H).
  rewrite (simulates_unique _ _ _ Hsim (sv_sim _ _ H)) in Ha. clear t Hsim.
  simpl in Hs, Ha. apply bind_Some in Hs as ([a r'] & Hr' & Hs). injection Hs as <- <-.
  destruct (sinv_other s t0 (Park timeout raw os) a r' H ltac:(done) ltac:(done) Ha Hr') as (t1 & Hst & H1 & _ & _).
  assert (Hclock : (raw ≤ clock t1)%Z) by (inversion Hst; subst; simpl; lia). split.
  - destruct (sv_wait _ _ H i w Hw) as (k' & x & Hi' & Hx). simplify_eq. exists x. split; [done|].
    destruct (sv_held _ _ H1 i k x Hi Hx) as (w2 & Hw2 & _ & _ & _ & [Hd|[_ ?]]); simpl in *; simplify_eq.
    + pose proof (so_timers _ (sv_ok _ _ H1) _ _ _ Hd). lia.
    + done.
  - intros Hr2 Hi2 Hu. destruct (reach_sinv _ _ _ Hr2 H1) as (t2 & H2 & _ & Hc2).
    pose proof (poll_now_clock _ _ raw' (sv_sim _ _ H2) (proj1 Hu)) as [_ Hnow].
    specialize (Hnow ltac:(lia)). simpl. rewrite Hi2. cbn [mbind option_bind].
    unfold poll, poll_step. rewrite Hnow. destruct (Z.leb_spec (deadline k) (clock t2)); [|lia].
    by eexists.
Qed.

(** The outcome of a poll: it is ready only when the reading has reached the
    deadline; while it is pending the reactor holds a live timer for it, with the
    deadline and the waker of this very poll; and it panics only when all the
    resource ids are used up. *)
Theorem sleep_poll_outcome s t i w raw :
  reach sys_init s → simulates (reactor s) t → is_u64 raw → is_Some (sleeps s !! i) →
  ∃ k res s' t', sleeps s !! i = Some k ∧ sys_step s (PollSleep i w raw) = Some (Some res, s') ∧
    simulates (reactor s') t' ∧
    match res with
    | Ready => (deadline k ≤ poll_now (reactor s) raw)%Z
    | PendingPoll => (poll_now (reactor s) raw < deadline k)%Z ∧
        ∃ k' x, sleeps s' !! i = Some k' ∧ rid k' = Some x ∧ timers t' !! x = Some (deadline k, w)
    | Panicked => (poll_now (reactor s) raw < deadline k)%Z ∧ issued t = u64_max
    end.
Proof.
  intros Hr Hsim Hu [k Hi]. destruct (reach_init_sinv s Hr) as (t0 & H).
  rewrite (simulates_unique _ _ _ Hsim (sv_sim _ _ H)). clear t Hsim.
  pose proof (sinv_poll s t0 i k w raw H Hi Hu) as Hp. simpl. rewrite Hi. cbn [mbind option_bind].
  destruct (poll k (reactor s) w raw) as [[res k'] r']. destruct Hp as (t' & H' & _ & _ & Hres).
  exists k, res. eexists. exists t'. split; [done|]. split; [done|]. split; [apply H'|].
  destruct res; [done| |done]. destruct Hres as (Hlt & x & Hx & Hd). split; [done|].
  exists k', x. split; [apply lookup_insert_eq|done].
Qed.

(** Two sleeps never share a timer, and no timer leaks: once the executor has
    parked, every live timer of the reactor is held by a sleep that still exists,
    so that dropping the sleeps, resetting them or polling them to the end gives
    all the timers back. *)
Theorem sleep_no_leak timeout raw os out s0 s t :
  op_allowed sys_init service_init (Other (Park timeout raw os)) → (0 < raw)%Z →
  sys_step sys_init (Other (Park timeout raw os)) = Some (out, s0) →
  reach s0 s → simulates (reactor s) t →
  (∀ x v, timers t !! x = Some v → ∃ i k, sleeps s !! i = Some k ∧ rid k = Some x) ∧
  (∀ i j ki kj x, sleeps s !! i = Some ki → sleeps s !! j = Some kj →
     rid ki = Some x → rid kj = Some x → i = j).
Proof.
  intros Ha Hpos Hs Hr Hsim. simpl in Hs.
  apply bind_Some in Hs as ([a r'] & Hr' & Hs). injection Hs as <- <-.
  destruct (sinv_other _ _ (Park timeout raw os) a r' sinv_init ltac:(done) ltac:(done) Ha Hr') as (t0 & Hst & H0 & _ & _).
  destruct (reach_sinv _ _ _ Hr H0) as (t' & H & Hown & _).
  rewrite (simulates_unique _ _ _ Hsim (sv_sim _ _ H)).
  split; [|by apply (sv_distinct _ _ H)]. apply Hown.
  unfold service_init in Hst. inversion Hst; subst. split; simpl; [lia|].
  intros y [d w] [Hy _]%not_due_lookup. by rewrite lookup_empty in Hy.
Qed.

(** ** Witnesses *)

Definition after (s : sys) (o : op) : sys :=
  match sys_step s o with Some (_, s') => s' | None => s end.

Lemma reach_after s o :
  reach sys_init s → (∀ t, op_allowed s t o) → is_Some (sys_step s o) → reach sys_init (after s o).
Proof.
  intros Hr Ha [[out s'] Hs]. unfold after. rewrite Hs.
  destruct (reach_init_sinv s Hr) as (t & H). by apply (reach_step _ s t o out); [|apply H| |].
Qed.

(** A sleep to 50 suspends at time 10; the thread parks until 60. *)
Definition park_60 : op := Other (Park (Some 100) 60 (λ _, UtilityLog.Ok []))%Z.
Definition spawned : sys := after sys_init (Spawn 1 50).
Definition suspended : sys := after spawned (PollSleep 1 7 10).

Lemma reach_spawned : reach sys_init spawned.
Proof. apply reach_after; [constructor|intros t; split; [done|u64]|by eexists]. Qed.

Lemma reach_suspended : reach sys_init suspended.
Proof. apply reach_after; [apply reach_spawned|intros t; simpl; u64|by vm_compute; eexists]. Qed.

Lemma sleep_wakes_on_park_witness :
  (∃ x, (7, x)%Z ∈ woken (after suspended park_60)) ∧
  ∃ s3, sys_step (after suspended park_60) (PollSleep 1 7 61) = Some (Some Ready, s3).
Proof.
  destruct (reach_init_sinv _ reach_suspended) as (t & H).
  assert (Hk : is_Some (sleeps suspended !! 1)) by by vm_compute; eexists. destruct Hk as [k Hk].
  assert (Hd : deadline k = 50%Z) by (vm_compute in Hk; by injection Hk as <-).
  destruct (sleep_wakes_on_park suspended t (Some 100)%Z 60 (λ _, UtilityLog.Ok [])
    (after suspended park_60) None 1 k 7 (after suspended park_60) 7 61) as [(x & _ & Hx) Hready].
  - apply reach_suspended.
  - apply H.
  - split; [u64|naive_solver lia].
  - vm_compute. reflexivity.
  - done.
  - vm_compute. reflexivity.
  - by rewrite Hd.
  - done.
  - split; [by exists x|]. apply Hready; [constructor| |u64].
    rewrite <- Hk. vm_compute. reflexivity.
Defined.

Lemma sleep_poll_outcome_witness :
  ∃ s' t', sys_step spawned (PollSleep 1 7 10) = Some (Some PendingPoll, s') ∧
    simulates (reactor s') t' ∧ ∃ x, timers t' !! x = Some (50, 7)%Z.
Proof.
  destruct (reach_init_sinv _ reach_spawned) as (t & H).
  destruct (sleep_poll_outcome spawned t 1 7 10) as (k & res & s' & t' & Hk & Hs & Hsim & Hres).
  - apply reach_spawned.
  - apply H.
  - u64.
  - by vm_compute; eexists.
  - vm_compute in Hk. injection Hk as <-. rewrite Hs.
    assert (res = PendingPoll) as -> by (vm_compute in Hs; by injection Hs as <- _).
    exists s', t'. split; [done|]. split; [done|]. destruct Hres as (_ & k' & x & _ & _ & Hx).
    exists x. exact Hx.
Defined.

Lemma sleep_no_leak_witness :
  ∃ t, simulates (reactor (after sys_init park_60)) t ∧ ∀ x, timers t !! x = None.
Proof.
  assert (Hr : reach sys_init (after sys_init park_60)).
  { apply reach_after; [constructor|intros t; simpl; split; [u64|naive_solver lia]|by vm_compute; eexists]. }
  destruct (reach_init_sinv _ Hr) as (t & H). exists t. split; [apply H|]. intros x.
  destruct (sleep_no_leak (Some 100)%Z 60 (λ _, UtilityLog.Ok []) None
    (after sys_init park_60) (after sys_init park_60) t) as [Hown _].
  - split; [u64|naive_solver lia].
  - done.
  - vm_compute. reflexivity.
  - constructor.
  - apply H.
  - apply eq_None_not_Some. intros [v Hv]. destruct (Hown x v Hv) as (i & k & Hi & _).
    vm_compute in Hi. by destruct i.
Defined.
