(* ===== verification/SleepTasks.v ===== *)
(** * SleepTasks: the executor over the reactor, with tasks that sleep

    The class [Executor.Env] with the modelled reactor behind it.  Each task is
    [for d in plan { sleep_until(d).await }] for a plan of its own; the sleep that it awaits
    is one of the sleeps of [SleepSpec.sys], and parking is [Reactor.flush_and_park].  The laws of [ExecSuspend]
    hold, so that the theorems on the executor compose with those on
    the reactor and the sleeps. *)

From S2P Require Import Prelude Store Slab TidLedger ExecLog Tls Executor.
From S2P Require Import ExecInv ExecOps ExecTick ExecSpec ExecWake ExecSuspend.
From S2P Require Import Wheel ReactorLog ResourceSlab Reactor ReactorInv ReactorOps ReactorSpec Sleep SleepSpec.
Import ExecLog Executor.

(** [readings] are those of the clock, of which [reads] are used; [passed] says how many
    sleeps of its plan a task has behind it.  A poll of a sleep that panics ([future.rs])
    unwinds the executor, so that a run of the code ends there; the model sets [crashed], for good. *)
Record world := mkWorld {
  sleeping : sys;
  readings : nat → Z;
  reads : nat;
  plans : Z → list Z;
  passed : gmap Z nat;
  crashed : bool;
}.

Definition clock_reading (w : world) : Z := wrap64 (readings w (reads w)).
Definition set_sleeping (w : world) (s : sys) : world :=
  mkWorld s (readings w) (S (reads w)) (plans w) (passed w) (crashed w).
Definition crash (w : world) : world :=
  mkWorld (sleeping w) (readings w) (reads w) (plans w) (passed w) true.

Definition behind (w : world) (tid : Z) : nat := default 0 (passed w !! tid).
Definition ahead (w : world) (tid : Z) : list Z := skipn (behind w tid) (plans w tid).
Definition pass (w : world) (tid : Z) : world :=
  mkWorld (sleeping w) (readings w) (reads w) (plans w) (<[tid := S (behind w tid)]> (passed w)) (crashed w).

(** The first poll of an [await] makes the sleep. *)
Definition begin_sleep (w : world) (tid d : Z) : sys :=
  let s := sleeping w in
  match sleeps s !! Z.to_nat tid with
  | Some _ => s
  | None => mkSys (reactor s) (<[Z.to_nat tid := Sleep.new (wrap64 d)]> (sleeps s)) (waiting s) (woken s)
  end.

(** One poll of [sleep_until(d).await]; an [await] that is over drops its sleep. *)
Definition await_sleep (tid d : Z) (w : world) : Sleep.Polled * world :=
  match sys_step (begin_sleep w tid d) (PollSleep (Z.to_nat tid) tid (clock_reading w)) with
  | Some (Some Sleep.PendingPoll, s1) => (Sleep.PendingPoll, set_sleeping w s1)
  | Some (Some Sleep.Ready, s1) =>
      match sys_step s1 (DropSleep (Z.to_nat tid)) with
      | Some (_, s2) => (Sleep.Ready, pass (set_sleeping w s2) tid)
      | None => (Sleep.Panicked, w)
      end
  | Some (_, s1) => (Sleep.Panicked, set_sleeping w s1)
  | None => (Sleep.Panicked, w)
  end.

(** One poll of a task: it goes on through its plan until a sleep is pending. *)
Fixpoint sleep_through (tid : Z) (ds : list Z) (w : world) : bool * world :=
  match ds with
  | [] => (true, w)
  | d :: ds' =>
      match await_sleep tid d w with
      | (Sleep.Ready, w') => sleep_through tid ds' w'
      | (Sleep.PendingPoll, w') => (false, w')
      | (Sleep.Panicked, w') => (true, crash w')
      end
  end.

Definition sleep_poll (tid : Z) (w : world) : bool * world := sleep_through tid (ahead w tid) w.

Definition timer_wake (u : Z * Z) : external unit := Wake true false Tls.Reactor u.1.

Definition sleep_park (ms : Z) (w : world) : world * list (external unit) :=
  match sys_step (sleeping w) (Other (ReactorSpec.Park (Some (wrap64 ms)) (clock_reading w) (λ _, UtilityLog.Ok []))) with
  | Some (_, s1) => (set_sleeping w s1, timer_wake <$> drop (length (woken (sleeping w))) (woken s1))
  | None => (crash w, [])
  end.

(** The flush of the executor is the first part of [flush_and_park]. *)
#[global] Instance sleep_env : Env unit world := {
  future_poll tid f w :=
    if decide (is_u64 tid) then let '(ready, w') := sleep_poll tid w in (ready, f, w', [])
    else (true, f, crash w, []);
  reactor_flush_pending_deregister w := w;
  reactor_park := sleep_park;
}.

Definition world_init (rd : nat → Z) (pl : Z → list Z) : world := mkWorld sys_init rd 0 pl ∅ false.

(** ** The invariant of the world *)

(** Each read of the clock uses up one id at most, and only without ids a poll panics. *)
Record world_ok (w : world) (t : service) : Prop := {
  wo_inv : sinv (sleeping w) t;
  wo_deadline : ∀ i k, sleeps (sleeping w) !! i = Some k →
    ∃ d, head (ahead w (Z.of_nat i)) = Some d ∧ Sleep.deadline k = wrap64 d;
  wo_ids : (issued t ≤ 1 + Z.of_nat (reads w))%Z;
  wo_crashed : crashed w = true → issued t = u64_max;
}.

Definition good (rd : nat → Z) (pl : Z → list Z) (w : world) : Prop :=
  (∃ t, world_ok w t) ∧ readings w = rd ∧ plans w = pl.

(** The reactor holds a live timer that wakes the task. *)
Definition armed (w : world) (k : Z) : Prop :=
  is_u64 k ∧ ∃ t s x, world_ok w t ∧ sleeps (sleeping w) !! Z.to_nat k = Some s ∧ Sleep.rid s = Some x ∧
    held t [] x (Sleep.deadline s) k.

(** All deadlines of the task lie before [now]. *)
Definition past (w : world) (k now : Z) : Prop := Forall (λ d, (wrap64 d ≤ now)%Z) (plans w k).

Definition due (w : world) (k : Z) : Prop :=
  is_u64 k ∧ ∃ t, world_ok w t ∧ (0 < clock t)%Z ∧ past w k (clock t).

(** The deadlines have passed, or every reading but the next [n] is past them. *)
Definition ripe (n : nat) (w : world) (k : Z) : Prop :=
  match n with
  | 0 => due w k
  | S m => is_u64 k ∧ ∀ j, reads w + m ≤ j →
      (0 < wrap64 (readings w j))%Z ∧ past w k (wrap64 (readings w j))
  end.

(** ** One sleep, in the service *)

Section laws.
Implicit Types (w : world) (t : service) (k tid x d : Z) (s : Sleep.SleepKernel).

Lemma world_ok_unique w t t' : world_ok w t → world_ok w t' → t = t'.
Proof. intros H H'. exact (simulates_unique _ _ _ (sv_sim _ _ (wo_inv _ _ H)) (sv_sim _ _ (wo_inv _ _ H'))). Qed.

Lemma held_live t x d k : held t [] x d k ↔
  (1 ≤ x < issued t)%Z ∧ ios t !! x = None ∧ spare t ≠ Some x ∧ timers t !! x = Some (d, k).
Proof. unfold held. split; [intros (? & ? & ? & [?|[_ ?%not_elem_of_nil]]); done|tauto]. Qed.

(** What the poll of a sleep does: the timer of a pending one, and the end of the ids when it panics. *)
Lemma poll_timers s r t tid raw :
  simulates r t → service_ok t → is_u64 raw → is_u64 (Sleep.deadline s) →
  (∀ x, Sleep.rid s = Some x → ios t !! x = None) →
  let '(res, s', r') := Sleep.poll s r tid raw in
  Sleep.deadline s' = Sleep.deadline s ∧ (res ≠ Sleep.PendingPoll → Sleep.rid s' = None) ∧
  ∃ t', simulates r' t' ∧ keeps t t' (Sleep.rid s) ∧ (issued t ≤ issued t' ≤ issued t + 1)%Z ∧
    (res = Sleep.PendingPoll → (Sleep.poll_now r raw < Sleep.deadline s)%Z ∧
       ∃ x, Sleep.rid s' = Some x ∧ held t' [] x (Sleep.deadline s) tid) ∧
    (res = Sleep.Panicked → issued t' = u64_max).
Proof.
  intros Hs Hok Hraw Hd Hio. pose proof (poll_spec s r t tid raw Hs Hok Hraw Hd Hio) as H.
  pose proof (poll_ids s r tid raw) as Hids.
  destruct (Sleep.poll s r tid raw) as [[res s'] r']. destruct H as (Hd' & t' & Hs' & _ & Hk & _ & _ & _ & Hres).
  split; [done|]. split; [by destruct res; naive_solver|]. exists t'. split; [done|]. split; [done|].
  rewrite (simulates_issued _ _ Hs), (simulates_issued r' t' Hs'). split; [exact Hids|].
  rewrite <- (simulates_issued r' t' Hs'). split; intros ->.
  - destruct Hres as (? & x & ? & Hh). split; [done|]. exists x. split; [done|apply Hh].
  - by destruct Hres as (_ & _ & _ & ?).
Qed.

Lemma ahead_plan w k d : head (ahead w k) = Some d → d ∈ plans w k.
Proof.
  intros Hd. rewrite <- (firstn_skipn (behind w k)). apply elem_of_app. right. fold (ahead w k).
  destruct (ahead w k); [done|]. injection Hd as ->. left.
Qed.

(** ** One poll of a task *)

Lemma skipn_S_tail {A} n (l : list A) : skipn (S n) l = tail (skipn n l).
Proof. revert l. induction n as [|n IH]; intros [|x l]; [done..|]. apply (IH l). Qed.

Lemma begin_sleep_ok w t tid d :
  world_ok w t → is_u64 tid → head (ahead w tid) = Some d →
  ∃ s, sleeps (begin_sleep w tid d) !! Z.to_nat tid = Some s ∧ Sleep.deadline s = wrap64 d ∧
    sinv (begin_sleep w tid d) t ∧ reactor (begin_sleep w tid d) = reactor (sleeping w) ∧
    (∀ j, j ≠ Z.to_nat tid → sleeps (begin_sleep w tid d) !! j = sleeps (sleeping w) !! j).
Proof.
  intros [Hinv Hd] Hu Hh. unfold begin_sleep. destruct (sleeps (sleeping w) !! Z.to_nat tid) as [s|] eqn:E.
  - exists s. split; [done|]. split; [|done]. destruct (Hd _ _ E) as (d' & Hd' & ->).
    rewrite Z2Nat.id in Hd' by apply Hu. congruence.
  - exists (Sleep.new (wrap64 d)). simpl. split; [apply lookup_insert_eq|]. split; [done|].
    split; [|split; [done|intros j Hj; by apply lookup_insert_ne]].
    by apply (sinv_spawn _ t _ (wrap64 d) Hinv E), wrap64_range.
Qed.

(** What polls of task [tid] do to the world and to the other tasks. *)
Record poll_frame w t tid w' t' : Prop := {
  pf_ok : world_ok w' t';
  pf_clock : clock t' = clock t;
  pf_readings : readings w' = readings w;
  pf_plans : plans w' = plans w;
  pf_reads : reads w ≤ reads w';
  pf_others j s x d u : j ≠ Z.to_nat tid → sleeps (sleeping w) !! j = Some s → Sleep.rid s = Some x →
     held t [] x d u → sleeps (sleeping w') !! j = Some s ∧ held t' [] x d u;
}.

Lemma poll_frame_refl w t tid : world_ok w t → poll_frame w t tid w t.
Proof. split; [done..|lia|]. eauto. Qed.

Lemma poll_frame_trans w t tid w1 t1 w2 t2 :
  poll_frame w t tid w1 t1 → poll_frame w1 t1 tid w2 t2 → poll_frame w t tid w2 t2.
Proof.
  intros [] []. split; try congruence; [lia|]. intros j s x d u Hj Hs Hx Hh.
  destruct (pf_others0 j s x d u Hj Hs Hx Hh). eauto.
Qed.

Definition suspended w t tid w' : Prop :=
  armed w' tid ∧ ((0 < clock t)%Z → ¬ past w tid (clock t)).

(** The steps of the system that a poll makes, as seen from the world. *)
Lemma poll_frame_intro w t tid (s0 : sys) s fs (pm : gmap Z nat) (b : bool) t' :
  world_ok w t → is_u64 tid → let i := Z.to_nat tid in
  sleeps s0 !! i = Some s → sinv s0 t →
  (∀ j, j ≠ i → sleeps s0 !! j = sleeps (sleeping w) !! j) →
  sinv fs t' → clock t' = clock t → keeps t t' (Sleep.rid s) → (issued t ≤ issued t' ≤ issued t + 1)%Z →
  (∀ j, j ≠ i → sleeps fs !! j = sleeps s0 !! j) →
  let w' := mkWorld fs (readings w) (S (reads w)) (plans w) pm b in
  (∀ k, k ≠ tid → pm !! k = passed w !! k) →
  (∀ s', sleeps fs !! i = Some s' → ∃ d, head (ahead w' tid) = Some d ∧ Sleep.deadline s' = wrap64 d) →
  (b = true → issued t' = u64_max) →
  poll_frame w t tid w' t'.
Proof.
  intros [Hinv Hd Hids Hcr] Hu i Hs Hinv0 Hoth Hfs Hc Hk Hi Hf w' Hpm Hfi Hb.
  assert (Hti : Z.of_nat i = tid) by by apply Z2Nat.id, Hu. split; [|done|done|done|simpl; lia|].
  - split; [done| |simpl in *; lia|done]. intros j k. destruct (decide (j = i)) as [->|Hj].
    + rewrite Hti. apply Hfi.
    + intros Hkk. change (sleeps fs !! j = Some k) in Hkk. rewrite Hf, Hoth in Hkk by done. destruct (Hd j k Hkk) as (d & Hh & ?). exists d.
      split; [|done]. unfold ahead, behind in *. simpl. rewrite Hpm; [done|].
      intros E. apply Hj. unfold i. by rewrite <- E, Nat2Z.id.
  - intros j k x d u Hj Hkj Hx Hh. change (j ≠ i) in Hj. rewrite <- Hoth in Hkj by done. split; [simpl; by rewrite Hf by done|].
    apply Hk; [done|]. intros Hsx. by apply Hj, (sv_distinct _ _ Hinv0 j i k s x).
Qed.

(** One [await]. *)
Lemma await_ok w t tid d :
  world_ok w t → is_u64 tid → head (ahead w tid) = Some d →
  let '(res, w') := await_sleep tid d w in
  ∃ t', poll_frame w t tid w' t' ∧
    match res with
    | Sleep.Ready => ahead w' tid = tail (ahead w tid)
    | Sleep.PendingPoll => armed w' tid ∧ ((0 < clock t)%Z → (clock t < wrap64 d)%Z)
    | Sleep.Panicked => issued t' = u64_max
    end.
Proof.
  intros H Hu Hh. destruct (begin_sleep_ok w t tid d H Hu Hh) as (s & Hs & Hsd & Hinv & Hre & Hoth).
  unfold await_sleep. set (i := Z.to_nat tid) in *. set (s0 := begin_sleep w tid d) in *.
  pose proof (wrap64_range (readings w (reads w))) as Hraw. fold (clock_reading w) in Hraw.
  pose proof (sinv_poll s0 t i s tid (clock_reading w) Hinv Hs Hraw) as Hp.
  pose proof (poll_timers s (SleepSpec.reactor s0) t tid (clock_reading w) (sv_sim _ _ Hinv) (sv_ok _ _ Hinv) Hraw
    (sv_u64 _ _ Hinv _ _ Hs) (λ x Hx, own_not_io _ _ _ _ _ Hinv Hs Hx)) as Hq.
  pose proof (poll_now_clock _ _ (clock_reading w) (sv_sim _ _ Hinv) (proj1 Hraw)) as [_ Hnow].
  simpl. rewrite Hs. cbn [mbind option_bind].
  destruct (Sleep.poll s (SleepSpec.reactor s0) tid (clock_reading w)) as [[res s'] r'].
  destruct Hp as (t' & Hinv' & _ & Hc & _). destruct Hq as (Hd' & Hnone & t2 & Hsim2 & Hkeep & Hids & Hpend & Hpanic).
  pose proof (simulates_unique _ _ _ (sv_sim _ _ Hinv') Hsim2) as Heq. simpl in Heq. subst t2.
  assert (Hcr : crashed w = true → issued t' = u64_max).
  { intros E. pose proof (wo_crashed _ _ H E). pose proof (so_issued _ (sv_ok _ _ Hinv')). lia. }
  destruct res; simpl.
  - rewrite lookup_insert_eq. cbn [mbind option_bind Sleep.drop]. unfold Sleep.release. rewrite (Hnone ltac:(done)).
    exists t'. split.
    + apply (poll_frame_intro w t tid s0 s); try done; simpl.
      * apply (sinv_forget _ t' i s' Hinv'); [apply lookup_insert_eq|by apply Hnone].
      * intros j Hj. by rewrite lookup_delete_ne, lookup_insert_ne by done.
      * intros k Hk. by rewrite lookup_insert_ne.
      * intros k. by rewrite lookup_delete_eq.
    + unfold ahead, behind, pass. cbn [passed plans set_sleeping]. rewrite lookup_insert_eq. apply skipn_S_tail.
  - exists t'. destruct (Hpend eq_refl) as (Hlt & x & Hx & Hheld).
    assert (Hf : poll_frame w t tid (set_sleeping w (mkSys r' (<[i:=s']> (sleeps s0)) (<[i:=tid]> (waiting s0)) (woken s0))) t').
    { apply (poll_frame_intro w t tid s0 s); try done; simpl.
      - intros j Hj. by apply lookup_insert_ne.
      - intros k. rewrite lookup_insert_eq. intros [= <-]. exists d. by rewrite Hd'. }
    split; [done|]. split; [|intros Hpos; rewrite Hnow in Hlt by done; by rewrite <- Hsd].
    split; [done|]. exists t', s', x. split; [apply Hf|]. simpl. by rewrite lookup_insert_eq, Hd'.
  - exists t'. split; [|by apply Hpanic]. apply (poll_frame_intro w t tid s0 s); try done; simpl.
    + intros j Hj. by apply lookup_insert_ne.
    + intros k. rewrite lookup_insert_eq. intros [= <-]. exists d. by rewrite Hd'.
Qed.

(** A poll of the task, through the rest of its plan. *)
Lemma through_ok ds w t tid :
  world_ok w t → is_u64 tid → ahead w tid = ds →
  let '(ready, w') := sleep_through tid ds w in
  ∃ t', poll_frame w t tid w' t' ∧
    (ready = false → armed w' tid ∧ ((0 < clock t)%Z → ¬ past w tid (clock t))).
Proof.
  revert w t. induction ds as [|d ds IH]; intros w t H Hu Hds; simpl.
  { exists t. split; [by apply poll_frame_refl|done]. }
  pose proof (await_ok w t tid d H Hu ltac:(by rewrite Hds)) as Ha.
  destruct (await_sleep tid d w) as [res w1]. destruct Ha as (t1 & Hf & Hres). destruct res.
  - rewrite Hds in Hres. specialize (IH w1 t1 (pf_ok _ _ _ _ _ Hf) Hu Hres).
    destruct (sleep_through tid ds w1) as [ready w2]. destruct IH as (t2 & Hf2 & Hpend). exists t2.
    split; [by eapply poll_frame_trans|]. intros Hr. destruct (Hpend Hr) as [? Hlt]. split; [done|].
    unfold past in *. by rewrite (pf_clock _ _ _ _ _ Hf), (pf_plans _ _ _ _ _ Hf) in Hlt.
  - exists t1. split; [done|]. intros _. destruct Hres as [? Hlt]. split; [done|]. intros Hpos Hpast.
    specialize (Hlt Hpos). unfold past in Hpast. rewrite Forall_forall in Hpast.
    pose proof (ahead_plan w tid d ltac:(by rewrite Hds)) as Hin.
    specialize (Hpast d Hin). simpl in Hpast. lia.
  - exists t1. split; [|done]. destruct Hf. split; try done. destruct pf_ok0. by split.
Qed.

(** What a park does: the clock moves to the reading, and each timer is still there or
    its task is woken. *)
Definition park_outcome w t w' t' (exts : list (external unit)) : Prop :=
  world_ok w' t' ∧ readings w' = readings w ∧ plans w' = plans w ∧ reads w < reads w' ∧
  clock t' = Z.max (clock t) (clock_reading w) ∧
  (∀ k, armed w k → armed w' k ∨ wakes_task exts k).

Lemma task_park_ok w t ms :
  world_ok w t → let '(w', exts) := sleep_park ms w in ∃ t', park_outcome w t w' t' exts.
Proof.
  intros H. pose proof H as [Hinv Hd Hids Hcr]. unfold sleep_park. cbn [sys_step].
  set (c := ReactorSpec.Park (Some (wrap64 ms)) (clock_reading w) (λ _, UtilityLog.Ok [])).
  assert (Hall : call_allowed t c).
  { split; [apply wrap64_range|]. intros d [= <-]. apply wrap64_range. }
  destruct (rstep_simulates _ t c (sv_sim _ _ Hinv) Hall) as (a & r' & t0 & Hr & _).
  rewrite Hr. cbn [mbind option_bind]. simpl (woken _). rewrite drop_app_length.
  destruct (sinv_other (sleeping w) t c a r' Hinv ltac:(done) ltac:(done) Hall Hr) as (t' & Hst & Hinv' & _ & _).
  exists t'. assert (Hc : clock t' = Z.max (clock t) (clock_reading w)) by by inversion Hst; subst.
  assert (Hi : issued t' = issued t) by by inversion Hst; subst.
  assert (Hw' : world_ok (set_sleeping w (mkSys r' (sleeps (sleeping w)) (waiting (sleeping w))
    (woken (sleeping w) ++ wakes_of a))) t').
  { split; [done|exact Hd|simpl; lia|by rewrite Hi]. }
  split; [exact Hw'|]. do 2 (split; [done|]). split; [simpl; lia|]. split; [done|].
  intros k (Hu & t1 & s & x & H1 & Hs & Hx & Hh). rewrite (world_ok_unique _ _ _ H1 H) in Hh.
  destruct (held_step t c a t' [] x _ k Hst Hh ltac:(done)) as (Hid & Hio & Hsp & [Hor|[_ Hor]]).
  - left. split; [done|]. exists t', s, x. split; [exact Hw'|]. split; [done|]. split; [done|].
    split; [done|]. split; [done|]. split; [done|]. by left.
  - right. exists true, false, Tls.Reactor, k. split; [|by apply wrap64_id].
    apply list_elem_of_fmap. by exists (k, x).
Qed.

(** ** The laws *)

(** The law of a due task: its timer is no longer there. *)
Lemma due_not_armed w k : due w k → ¬ armed w k.
Proof.
  intros (Hu & t & H & _ & Hpast) (_ & t' & s & x & H' & Hs & _ & Hh).
  rewrite (world_ok_unique _ _ _ H' H) in Hh. apply held_live in Hh as (_ & _ & _ & Hx).
  destruct (so_timers _ (sv_ok _ _ (wo_inv _ _ H)) _ _ _ Hx) as (_ & _ & Hlt).
  destruct (wo_deadline _ _ H _ _ Hs) as (d & Hd & Heq). rewrite Z2Nat.id in Hd by apply Hu.
  pose proof (ahead_plan w k d Hd) as Hin. unfold past in Hpast. rewrite Forall_forall in Hpast. specialize (Hpast d Hin).
  simpl in Hpast. lia.
Qed.

#[export] Instance sleep_suspend rd pl : SuspendLaws unit world (good rd pl) armed ripe.
Proof.
  split.
  - intros tid [] w ready f' w' effs [[t H] [Er Ed]] Hu. simpl. rewrite decide_True by done.
    pose proof (through_ok _ w t tid H Hu eq_refl) as Hp. fold (sleep_poll tid w) in Hp.
    destruct (sleep_poll tid w) as [b w1].
    intros [= <- _ <- <-]. destruct Hp as (t' & [H' Hc Hrd Hpl Hn Hoth] & Hpend).
    split; [split; [by exists t'|by rewrite Hrd, Hpl]|]. split; [intros Hb; left; by apply Hpend|]. split.
    { intros (_ & t1 & H1 & Hpos & Hle). rewrite (world_ok_unique _ _ _ H1 H) in *.
      destruct b; [done|]. by destruct (Hpend eq_refl) as [_ []]. }
    split.
    { intros [|m] k; simpl.
      - intros (Hk & t1 & H1 & Hpos & Hle). rewrite (world_ok_unique _ _ _ H1 H) in *.
        split; [done|]. exists t'. unfold past in *. rewrite Hc, Hpl. done.
      - intros [Hk Hr]. split; [done|]. intros j Hj. unfold past. rewrite Hrd, Hpl. apply Hr. lia. }
    intros k Hne (Hk & t1 & s & x & H1 & Hs & Hx & Hh). left. split; [done|].
    rewrite (world_ok_unique _ _ _ H1 H) in Hh.
    destruct (Hoth _ s x _ k (λ E, Hne (Z2Nat.inj _ _ (proj1 Hk) (proj1 Hu) E)) Hs Hx Hh) as [Hs' Hh'].
    by exists t', s, x.
  - intros w k _. apply due_not_armed.
  - intros ms w w' exts [[t H] [Er Ed]] _ Hp. simpl in Hp. pose proof (task_park_ok w t ms H) as Ho. rewrite Hp in Ho.
    destruct Ho as (t' & H' & Hrd & Hpl & Hn & Hc & Harm).
    split; [split; [by exists t'|by rewrite Hrd, Hpl]|]. split; [|done].
    assert (Hle : ∀ k now now', (now ≤ now')%Z → past w k now → past w' k now').
    { intros k now now' Hle. unfold past. rewrite Hpl. intros Hp'. eapply Forall_impl; [exact Hp'|]. intros d. simpl. lia. }
    intros [|[|m]] k; simpl.
    + intros (Hk & t1 & H1 & Hpos & Hpast). rewrite (world_ok_unique _ _ _ H1 H) in *.
      split; [done|]. exists t'. split; [done|]. split; [lia|]. eapply Hle; [|exact Hpast]. lia.
    + intros [Hk Hr]. split; [done|]. exists t'. split; [done|].
      destruct (Hr (reads w) ltac:(lia)) as [Hpos Hpast]. unfold clock_reading in Hc.
      split; [lia|]. eapply Hle; [|exact Hpast]. lia.
    + intros [Hk Hr]. split; [done|]. intros j Hj. rewrite Hrd. destruct (Hr j ltac:(lia)) as [? Hpast].
      split; [done|]. eapply Hle; [|exact Hpast]. lia.
Qed.

End laws.


Section tasks.
Implicit Types (rd : nat → Z) (pl : Z → list Z) (k : Z) (s : Executor unit world).

Lemma world_init_ok rd pl : good rd pl (world_init rd pl).
Proof.
  split; [|done]. exists service_init. split; [apply sinv_init|..]; simpl; [|lia|done].
  intros i s. by rewrite lookup_empty.
Qed.

(** No sleeping task is stranded.  In every state that the executor over the
    reactor reaches, each task that was injected and is not finished waits in a queue
    of the executor, or the reactor holds a live timer for the deadline that the task awaits
    next, with a waker of the task. *)
Theorem sleeping_task_never_stranded rd pl n s k :
  reachable (world_init rd pl) n s →
  k ≠ u64_max → injected (log s) k → ¬ finished (log s) k →
  k ∈ Tls.queued (tls s) ∨ k ∈ local_queue s ∨
  ∃ t x d, simulates (SleepSpec.reactor (sleeping (Executor.world s))) t ∧
    head (ahead (Executor.world s) k) = Some d ∧ timers t !! x = Some (wrap64 d, k).
Proof.
  intros Hs Hne Hi Hf.
  destruct (task_never_stranded (good rd pl) armed ripe (world_init rd pl) n s k
    (world_init_ok rd pl) Hs Hne Hi Hf) as [?|[?|Ha]]; [by left|by right; left|].
  right. right. destruct Ha as (Hu & t & ks & x & Ht & Hks & _ & Hh). apply held_live in Hh as (_ & _ & _ & Hx).
  destruct (wo_deadline _ _ Ht _ _ Hks) as (d & Hd & Heq). rewrite Z2Nat.id in Hd by apply Hu.
  exists t, x, d. split; [by apply (wo_inv _ _ Ht)|]. split; [done|]. by rewrite Hx, Heq.
Qed.


(** ** Witnesses *)

(** Two tasks: task 1 sleeps to 50 and then to 80, task 2 to 50.  The clock reads 10 in the
    first tick, 60 in the second, and 90 from then on. *)
Definition sample_plan (tid : Z) : list Z := if decide (tid = 1%Z) then [50; 80]%Z else [50%Z].
Definition sample_readings (j : nat) : Z := if decide (j < 3) then 10 else if decide (j < 7) then 60 else 90.
Definition sample_state : Executor unit world :=
  tick (run_external (run_external (new (world_init sample_readings sample_plan) 4) (Spawn tt)) (Spawn tt)).

Lemma sample_reachable : reachable (world_init sample_readings sample_plan) 4 sample_state.
Proof. apply r_tick, r_external, r_external, r_init. Qed.

Lemma sample_injected : injected (log sample_state) 1.
Proof. exists 2. split; [vm_compute; lia|vm_compute; reflexivity]. Qed.

Lemma sample_asleep : ¬ finished (log sample_state) 1.
Proof.
  assert (H : forallb (λ e, match e with Outbound (PollTask 1%Z _ Ready) => false | _ => true end) (log sample_state) = true)
    by (vm_compute; reflexivity).
  rewrite forallb_forall in H. intros (j & t & _ & Hl). apply list_elem_of_lookup_2, list_elem_of_In, H in Hl. discriminate.
Qed.

(** In the second tick task 2 finishes, and task 1 goes on to its second sleep. *)
Example sample_second_sleep :
  let w := Executor.world (tick sample_state) in
  ahead w 1 = [80%Z] ∧ Sleep.deadline <$> sleeps (sleeping w) !! 1 = Some 80%Z ∧ ahead w 2 = [] ∧ crashed w = false.
Proof. vm_compute. done. Qed.

Lemma sleeping_task_never_stranded_witness :
  ∃ t x d, simulates (SleepSpec.reactor (sleeping (Executor.world sample_state))) t ∧
    head (ahead (Executor.world sample_state) 1) = Some d ∧ timers t !! x = Some (wrap64 d, 1)%Z.
Proof.
  destruct (sleeping_task_never_stranded sample_readings sample_plan 4 sample_state 1) as [Hq|[Hq|Ha]].
  - apply sample_reachable.
  - done.
  - apply sample_injected.
  - apply sample_asleep.
  - vm_compute in Hq. by apply not_elem_of_nil in Hq.
  - vm_compute in Hq. by apply not_elem_of_nil in Hq.
  - exact Ha.
Defined.


End tasks.
