(* ===== verification/NetIo.v ===== *)
(** * NetIo: the sockets of [lion-utility/src/net]

    The kernel of [tcp/kernel.rs] decides one poll from two observations of the glue
    (the readiness flag and whether the system call would block) and keeps the log of
    [tcp/proof.rs].  The glue of [tcp/stream.rs], [tcp/listener.rs] and [udp.rs]
    makes the system calls and the calls to the reactor; what a system call answers is
    an argument of the poll that makes it.  The kernel's ghost waker is
    arbitrary in the source; here it is the waker that the glue arms.  [None] is a
    panic. *)

From S2P Require Import Prelude UtilityLog Readiness Reactor.
Import UtilityLog Readiness.

Module NetIo.

Inductive IoMethod := Read | Write | Accept.

Definition IoLog : Type := list (UtilityEvent IoMethod unit).

(** ** The log ([proof.rs]) *)

Definition ev_tick_begin (w : Z) (m : IoMethod) : UtilityEvent IoMethod unit := Inbound (Tick w m None).
Definition ev_tick_end (w : Z) (m : IoMethod) (r : TickResult unit) : UtilityEvent IoMethod unit :=
  Inbound (Tick w m (Some r)).
Definition ev_register_io (rid : Z) : UtilityEvent IoMethod unit :=
  Outbound (RegisterIoResource 0 (true, true) (Some (Ok rid))).
Definition ev_set_io_waker (rid w : Z) : UtilityEvent IoMethod unit :=
  Outbound (SetIoWaker rid (true, true) w (Ok tt)).
Definition ev_deregister_io (rid : Z) : UtilityEvent IoMethod unit :=
  Outbound (DeregisterIoResource rid (Ok tt)).

Inductive IoOutcome := OutReady | OutWouldBlock.

Definition io_step_segment (rid w : Z) (m : IoMethod) (out : IoOutcome) : IoLog :=
  match out with
  | OutReady => [ev_tick_begin w m; ev_tick_end w m (Finished tt)]
  | OutWouldBlock => [ev_tick_begin w m; ev_set_io_waker rid w; ev_tick_end w m Pending]
  end.

Definition new_segment (rid : Z) : IoLog := [ev_register_io rid].
Definition drop_segment (rid : Z) : IoLog := [ev_deregister_io rid].

Definition wf (l : IoLog) (rid : option Z) : Prop :=
  utility_inv l ∧
  ∀ t, rid = Some t → io_active_at l t (length l) ∧ token_active_before l t (length l).

(** ** The kernel ([kernel.rs]) *)

Record IoKernel := mkKernel { rid : option Z; log : IoLog }.

Definition well_formed (k : IoKernel) : Prop := wf (log k) (rid k).

Inductive IoAction := Complete | Arm.

Definition new (reg_rid : Z) : IoKernel := mkKernel (Some reg_rid) (new_segment reg_rid).

Definition poll_step (k : IoKernel) (w : Z) (m : IoMethod) (was_ready would_block : bool) :
    option (IoAction * IoKernel) :=
  let arm := negb was_ready || would_block in
  r ← rid k;
  let out := if arm then OutWouldBlock else OutReady in
  let k' := mkKernel (rid k) (log k ++ io_step_segment r w m out) in
  Some (if arm then Arm else Complete, k').

Definition drop_step (k : IoKernel) : IoKernel :=
  match rid k with
  | Some r => mkKernel None (log k ++ drop_segment r)
  | None => k
  end.

(** ** The glue *)

(** [TcpStream], [TcpListener] and [UdpSocket]; [inner] names the system's socket. *)
Record IoSocket := mkSocket { inner : Z; resource_id : Z; kernel : IoKernel }.

(** What a non-blocking system call answers. *)
Inductive SysResult (A : Type) := SysOk (a : A) | SysWouldBlock | SysErr (code : Z).
Arguments SysOk {A} a.
Arguments SysWouldBlock {A}.
Arguments SysErr {A} code.

Inductive Polled (A : Type) := Ready (res : IoResultView A) | PendingPoll.
Arguments Ready {A} res.
Arguments PendingPoll {A}.

Definition READABLE : bool * bool := (true, false).
Definition WRITABLE : bool * bool := (false, true).
Definition READABLE_WRITABLE : bool * bool := (true, true).

Section glue.
Implicit Types (s : IoSocket) (r : Reactor.Reactor) (w : Z).

Definition is_readable r x : bool := Readiness.is_readable (Reactor.io_readiness r) x.
Definition is_writable r x : bool := Readiness.is_writable (Reactor.io_readiness r) x.
Definition clear_readable r x : Reactor.Reactor :=
  Reactor.set_readiness r (Readiness.clear_readable (Reactor.io_readiness r) x).
Definition clear_writable r x : Reactor.Reactor :=
  Reactor.set_readiness r (Readiness.clear_writable (Reactor.io_readiness r) x).

Definition with_kernel s (k : IoKernel) : IoSocket := mkSocket (inner s) (resource_id s) k.

(** [TcpStream::from_mio], [Connect::new], [UdpSocket::new] (both interests) and
    [TcpListener::new] (readable). *)
Definition from_mio r (interest : bool * bool) (source : Z)
    (os : Z → Z → bool * bool → IoResultView unit) : IoResultView IoSocket * Reactor.Reactor :=
  match Reactor.register_io_resource r source interest os with
  | (Ok id, r1) =>
      let r2 := Reactor.set_readiness r1 (init_readiness (Reactor.io_readiness r1) id) in
      (Ok (mkSocket source id (new id)), r2)
  | (Err e, r1) => (Err e, r1)
  end.

(** [Connect::new]; the connection is being made. *)
Definition connect_new r (source : Z) (os : Z → Z → bool * bool → IoResultView unit) :
    IoResultView IoSocket * Reactor.Reactor :=
  from_mio r READABLE_WRITABLE source os.

Definition listener_new r (source : Z) (os : Z → Z → bool * bool → IoResultView unit) :
    IoResultView IoSocket * Reactor.Reactor :=
  from_mio r READABLE source os.

Definition udp_new r (source : Z) (os : Z → Z → bool * bool → IoResultView unit) :
    IoResultView IoSocket * Reactor.Reactor :=
  from_mio r READABLE_WRITABLE source os.

(** [TcpStream::poll_read]: [len] is the space in the buffer, the data is what
    the call to [read] puts there. *)
Definition poll_read s r w (len : nat) (sys : SysResult (list Z)) :
    option (Polled (list Z) * IoSocket * Reactor.Reactor) :=
  let x := resource_id s in
  let was_ready := is_readable r x in
  let '(would_block, completed, r1) :=
    if was_ready then
      match sys with
      | SysOk data =>
          let n := length data in
          (false, Ready (Ok data), if (0 <? n) && (n <? len) then clear_readable r x else r)
      | SysWouldBlock => (true, Ready (Ok []), clear_readable r x)
      | SysErr e => (false, Ready (Err e), r)
      end
    else (false, Ready (Ok []), r) in
  '(a, k) ← poll_step (kernel s) w Read was_ready would_block;
  match a with
  | Arm => r2 ← Reactor.set_waker r1 x READABLE w; Some (PendingPoll, with_kernel s k, r2)
  | Complete => Some (completed, with_kernel s k, r1)
  end.

(** [TcpStream::poll_write]. *)
Definition poll_write s r w (len : nat) (sys : SysResult nat) :
    option (Polled nat * IoSocket * Reactor.Reactor) :=
  let x := resource_id s in
  let was_ready := is_writable r x in
  let '(would_block, completed, r1) :=
    if was_ready then
      match sys with
      | SysOk n => (false, Ready (Ok n), if (0 <? n) && (n <? len) then clear_writable r x else r)
      | SysWouldBlock => (true, Ready (Ok 0), clear_writable r x)
      | SysErr e => (false, Ready (Err e), r)
      end
    else (false, Ready (Ok 0), r) in
  '(a, k) ← poll_step (kernel s) w Write was_ready would_block;
  match a with
  | Arm => r2 ← Reactor.set_waker r1 x WRITABLE w; Some (PendingPoll, with_kernel s k, r2)
  | Complete => Some (completed, with_kernel s k, r1)
  end.

(** [Accept::poll]: an accepted connection, with its address, is registered. *)
Definition poll_accept s r w (sys : SysResult (Z * Z)) (os : Z → Z → bool * bool → IoResultView unit) :
    option (Polled (IoSocket * Z) * IoSocket * Reactor.Reactor) :=
  let x := resource_id s in
  let was_ready := is_readable r x in
  let '(would_block, completed, r1) :=
    if was_ready then
      match sys with
      | SysOk (stream, addr) =>
          match from_mio r READABLE_WRITABLE stream os with
          | (Ok c, r1) => (false, Some (Ready (Ok (c, addr))), r1)
          | (Err e, r1) => (false, Some (Ready (Err e)), r1)
          end
      | SysWouldBlock => (true, None, clear_readable r x)
      | SysErr e => (false, Some (Ready (Err e)), r)
      end
    else (false, None, r) in
  '(a, k) ← poll_step (kernel s) w Accept was_ready would_block;
  match a with
  | Arm => r2 ← Reactor.set_waker r1 x READABLE w; Some (PendingPoll, with_kernel s k, r2)
  | Complete => p ← completed; Some (p, with_kernel s k, r1)
  end.

(** [RecvFrom::poll] and [SendTo::poll]. *)
Definition poll_recv_from s r w (sys : SysResult (list Z * Z)) :
    option (Polled (list Z * Z) * IoSocket * Reactor.Reactor) :=
  let x := resource_id s in
  let was_ready := is_readable r x in
  let '(would_block, completed, r1) :=
    if was_ready then
      match sys with
      | SysOk (data, addr) => (false, Ready (Ok (data, addr)), r)
      | SysWouldBlock => (true, PendingPoll, clear_readable r x)
      | SysErr e => (false, Ready (Err e), r)
      end
    else (false, PendingPoll, r) in
  '(a, k) ← poll_step (kernel s) w Read was_ready would_block;
  match a with
  | Arm => r2 ← Reactor.set_waker r1 x READABLE w; Some (PendingPoll, with_kernel s k, r2)
  | Complete => Some (completed, with_kernel s k, r1)
  end.

Definition poll_send_to s r w (sys : SysResult nat) :
    option (Polled nat * IoSocket * Reactor.Reactor) :=
  let x := resource_id s in
  let was_ready := is_writable r x in
  let '(would_block, completed, r1) :=
    if was_ready then
      match sys with
      | SysOk n => (false, Ready (Ok n), r)
      | SysWouldBlock => (true, PendingPoll, clear_writable r x)
      | SysErr e => (false, Ready (Err e), r)
      end
    else (false, PendingPoll, r) in
  '(a, k) ← poll_step (kernel s) w Write was_ready would_block;
  match a with
  | Arm => r2 ← Reactor.set_waker r1 x WRITABLE w; Some (PendingPoll, with_kernel s k, r2)
  | Complete => Some (completed, with_kernel s k, r1)
  end.

(** [TcpStream::try_io]: the interest is not used. *)
Definition try_io {A} s r (interest : bool * bool) (f : SysResult A) : SysResult A * Reactor.Reactor :=
  match f with
  | SysOk v => (SysOk v, r)
  | SysWouldBlock => (SysWouldBlock, clear_readable r (resource_id s))
  | SysErr e => (SysErr e, r)
  end.

(** [TcpStream::poll_read_ready]: not ready, the caller wakes itself. *)
Definition poll_read_ready s r w : Polled unit * option Z :=
  if is_readable r (resource_id s) then (Ready (Ok tt), None) else (PendingPoll, Some w).

(** [poll_flush] and [poll_shutdown], which the system answers at once. *)
Definition poll_flush : Polled unit := Ready (Ok tt).
Definition poll_shutdown (sys : IoResultView unit) : Polled unit :=
  match sys with
  | Ok _ => Ready (Ok tt)
  | Err e => Ready (Err e)
  end.

(** [Drop] of the three sockets; the answer of the system is ignored. *)
Definition drop s r (os : Z → IoResultView unit) : IoSocket * Reactor.Reactor :=
  let '(_, r1) := Reactor.deregister_io_resource r (resource_id s) (inner s) os in
  (with_kernel s (drop_step (kernel s)), r1).

(** [Connect]: a stream whose connection is being made. *)
Record Connect := mkConnect { stream : option IoSocket }.

(** [peer_addr] of the system. *)
Inductive PeerAddr := Connected | NotConnected | PeerErr (code : Z).

(** [Connect::poll]: [error] is what [take_error] answers.  No log is kept. *)
Definition poll_connect (c : Connect) r w (error : IoResultView (option Z)) (peer : PeerAddr) :
    option (Polled IoSocket * Connect * Reactor.Reactor) :=
  s ← stream c;
  let x := resource_id s in
  let arm r' := r2 ← Reactor.set_waker r' x WRITABLE w; Some (PendingPoll, c, r2) in
  if is_writable r x then
    match error with
    | Err e => Some (Ready (Err e), c, r)
    | Ok (Some e) => Some (Ready (Err e), c, r)
    | Ok None =>
        match peer with
        | Connected => Some (Ready (Ok s), mkConnect None, r)
        | NotConnected => arm (clear_writable r x)
        | PeerErr e => Some (Ready (Err e), c, r)
        end
    end
  else arm r.

End glue.

(** ** Addresses *)

(** The loop of [connect] and [bind] over the addresses: the first that the system
    accepts, or the last error, or [InvalidInput] when there is none. *)
Definition invalid_input : Z := -2.

Fixpoint first_addr {X A} (f : X → IoResultView A) (addrs : list X) (last_err : option Z) : IoResultView A :=
  match addrs with
  | [] => Err (default invalid_input last_err)
  | a :: addrs' =>
      match f a with
      | Ok s => Ok s
      | Err e => first_addr f addrs' (Some e)
      end
  end.

Section addresses.
Context {X : Type}.
Implicit Types (r : Reactor.Reactor) (f : X → IoResultView Z) (addrs : list X).

(** [TcpStream::connect], up to the wait for the connection. *)
Definition connect r f addrs (os : Z → Z → bool * bool → IoResultView unit) :
    IoResultView IoSocket * Reactor.Reactor :=
  match first_addr f addrs None with
  | Ok source => connect_new r source os
  | Err e => (Err e, r)
  end.

Definition listener_bind r f addrs (os : Z → Z → bool * bool → IoResultView unit) :
    IoResultView IoSocket * Reactor.Reactor :=
  match first_addr f addrs None with
  | Ok source => listener_new r source os
  | Err e => (Err e, r)
  end.

Definition udp_bind r f addrs (os : Z → Z → bool * bool → IoResultView unit) :
    IoResultView IoSocket * Reactor.Reactor :=
  match first_addr f addrs None with
  | Ok source => udp_new r source os
  | Err e => (Err e, r)
  end.
End addresses.

(** ** The kernel's invariant *)

Section kernel.
Implicit Types (l : IoLog) (k : IoKernel) (w x t : Z) (m : IoMethod).

Lemma wf_new x : wf (new_segment x) (Some x).
Proof.
  split; [split|].
  - intros i w m Hi. apply list_lookup_singleton_Some in Hi as [_ ?]. done.
  - intros i e rt Hi Ht. apply list_lookup_singleton_Some in Hi as [_ <-]. done.
  - intros t [= <-]. split.
    + split; [exists 0, (ev_register_io x); split; [simpl; lia|done]|].
      intros (n & r & _ & Hd). by apply list_lookup_singleton_Some in Hd as [_ ?].
    + exists 0. split; [simpl; lia|]. split; [exists (ev_register_io x); split; [done|by right]|].
      intros (n & Hk & _). simpl in Hk. lia.
Qed.

(** A segment without a deregistration keeps a token active. *)
Lemma active_extend l seg x i :
  Forall (λ e, is_deregister_of e x = false) seg → i ≤ length (l ++ seg) → length l ≤ i →
  io_active_at l x (length l) ∧ token_active_before l x (length l) →
  io_active_at (l ++ seg) x i ∧ token_active_before (l ++ seg) x i.
Proof.
  intros Hseg Hi Hl [[(j & e & Hj & He & Ht) Hno] (j' & Hj' & (e' & He' & Hr) & Hno')].
  rewrite Forall_lookup in Hseg.
  assert (Hd : ∀ n e, length l ≤ n → (l ++ seg) !! n = Some e → is_deregister_of e x = false).
  { intros n d Hn Hd. rewrite lookup_app_r in Hd by done. by eapply Hseg. }
  split; [split|].
  - exists j, e. rewrite lookup_app_l by done. split; [lia|done].
  - intros (n & r & Hn & Hdr). destruct (decide (n < length l)).
    + rewrite lookup_app_l in Hdr by done. apply Hno. by exists n, r.
    + apply Hd in Hdr; [|lia]. simpl in Hdr. by rewrite bool_decide_eq_true_2 in Hdr.
  - exists j'. split; [lia|]. split; [exists e'; by rewrite lookup_app_l|].
    intros (n & Hn & d & Hnd & Hdr). destruct (decide (n < length l)).
    + rewrite lookup_app_l in Hnd by done. apply Hno'. exists n. split; [lia|by exists d].
    + apply Hd in Hnd; [|lia]. congruence.
Qed.

Lemma segment_no_dereg x y w m out :
  Forall (λ e, is_deregister_of e y = false) (io_step_segment x w m out).
Proof. destruct out; repeat constructor. Qed.

Lemma io_wf_poll l x w m out : wf l (Some x) → wf (l ++ io_step_segment x w m out) (Some x).
Proof.
  intros [Hl Hx]. specialize (Hx x eq_refl).
  pose proof (segment_no_dereg x x w m out) as Hseg. split.
  - destruct out.
    + apply (call_preserves l w m [] (Finished tt)); [done|constructor|done|].
      intros j e rt Hj. by destruct j.
    + apply (call_preserves l w m [ev_set_io_waker x w] Pending); [done|by repeat constructor|..].
      * intros _. do 3 right. exists x.
        split; [apply active_extend; [done|rewrite length_app; simpl; lia|lia|done]|].
        exists (length l + 1), (true, true), (Ok tt). split; [simpl; lia|].
        by rewrite lookup_app_r, Nat.add_comm, Nat.add_sub by lia.
      * intros j e rt Hj Ht. apply list_lookup_singleton_Some in Hj as [-> <-]. injection Ht as <-.
        apply active_extend; [done|rewrite length_app; simpl; lia|lia|done].
  - intros t [= <-]. by apply active_extend; [|rewrite length_app; lia|rewrite length_app; lia|].
Qed.

Lemma io_poll_step_wf k w m ready block a k' :
  well_formed k → poll_step k w m ready block = Some (a, k') → well_formed k' ∧ rid k' = rid k.
Proof.
  unfold poll_step. intros H Hp. destruct (rid k) as [x|] eqn:E; [|done]. simpl in Hp.
  injection Hp as _ <-. unfold well_formed in *. rewrite E in H. simpl. split; [by apply io_wf_poll|done].
Qed.

Lemma drop_step_wf k : well_formed k → well_formed (drop_step k).
Proof.
  unfold well_formed, drop_step. destruct (rid k) as [x|] eqn:E; [|by rewrite E].
  intros [Hl Hx]. simpl. split; [|done]. apply utility_inv_push; [done|done|].
  intros rt [= <-]. by apply Hx.
Qed.

End kernel.

End NetIo.
