(* ===== verification/TaskLog.v ===== *)
(** * TaskLog: the log of a task in the composed system

    [lion-liveness/src/utilities]: what one task does in its polls, as the composed
    system of [Composed] sees it.  It is another vocabulary than the one of [UtilityLog],
    which the utilities of the code use: there is no waker in it, since the log is that of
    one task. *)

From S2P Require Import Prelude Framework.
Import Framework.

Module TaskLog.

(** ** Events ([spec/events.rs]) *)

Inductive Interest := Readable | Writable | ReadableWritable.
Inductive PollResult := Ready | Pending.

(** [None] begins the poll, [Some r] ends it. *)
Inductive InboundCall := Poll (result : option PollResult).

Inductive OutboundCall :=
  | RegisterTimer (resource_id deadline : Z)
  | DeregisterTimer (resource_id : Z) (result : bool)
  | RegisterIo (resource_id : Z) (interest : Interest)
  | DeregisterIo (resource_id : Z)
  | SetWaker (resource_id : Z) (interest : Interest) (result : option unit)
  | Defer
  | PassWaker (uid : Z)
  | Woken (uid : Z).

Inductive UtilityEvent :=
  | Inbound (c : InboundCall)
  | Outbound (c : OutboundCall).

Definition Log : Type := list UtilityEvent.
Implicit Types (l : list UtilityEvent) (e : UtilityEvent) (rid uid : Z) (i j k : nat).

Definition is_poll_begin e : bool := match e with Inbound (Poll None) => true | _ => false end.
Definition is_poll_end e : bool := match e with Inbound (Poll (Some _)) => true | _ => false end.
Definition is_poll_end_pending e : bool :=
  match e with Inbound (Poll (Some Pending)) => true | _ => false end.
Definition is_register_timer e : bool := match e with Outbound (RegisterTimer _ _) => true | _ => false end.
Definition is_deregister_timer e : bool :=
  match e with Outbound (DeregisterTimer _ _) => true | _ => false end.
Definition is_register_io e : bool := match e with Outbound (RegisterIo _ _) => true | _ => false end.
Definition is_deregister_io e : bool := match e with Outbound (DeregisterIo _) => true | _ => false end.
Definition is_set_waker e : bool := match e with Outbound (SetWaker _ _ _) => true | _ => false end.
Definition is_succ_set_waker e : bool :=
  match e with Outbound (SetWaker _ _ (Some tt)) => true | _ => false end.
Definition is_defer e : bool := match e with Outbound Defer => true | _ => false end.
Definition is_pass_waker e : bool := match e with Outbound (PassWaker _) => true | _ => false end.
Definition is_woken e : bool := match e with Outbound (Woken _) => true | _ => false end.

Definition get_resource_id e : option Z :=
  match e with
  | Outbound (RegisterTimer rid _) | Outbound (DeregisterTimer rid _) | Outbound (RegisterIo rid _)
  | Outbound (DeregisterIo rid) | Outbound (SetWaker rid _ _) => Some rid
  | _ => None
  end.

(** ** Positions ([spec/log.rs]) *)

(** The last begin of a poll at or before position [i]. *)
Fixpoint find_last_poll_begin l (i : nat) : option nat :=
  match l !! i with
  | Some (Inbound (Poll None)) => Some i
  | _ => match i with 0 => None | S i' => find_last_poll_begin l i' end
  end.

Definition current_poll_start l i : option nat := find_last_poll_begin l i.

Definition in_current_poll_cycle l (action_idx i : nat) : Prop :=
  ∃ s, current_poll_start l i = Some s ∧ s ≤ action_idx ≤ i.

(** An event of a kind on a resource, strictly before [i]. *)
Definition happened_before (p : UtilityEvent → bool) l rid i : Prop :=
  ∃ j e, j < i ∧ l !! j = Some e ∧ p e = true ∧ get_resource_id e = Some rid.

Definition is_timer_registered_before l rid i : Prop := happened_before is_register_timer l rid i.
Definition is_timer_deregistered_before l rid i : Prop := happened_before is_deregister_timer l rid i.
Definition is_timer_active l rid i : Prop :=
  is_timer_registered_before l rid i ∧ ¬ is_timer_deregistered_before l rid i.

Definition is_io_registered_before l rid i : Prop := happened_before is_register_io l rid i.
Definition is_io_deregistered_before l rid i : Prop := happened_before is_deregister_io l rid i.
Definition is_io_active l rid i : Prop :=
  is_io_registered_before l rid i ∧ ¬ is_io_deregistered_before l rid i.

(** An event in the poll that is current at [i]. *)
Definition in_current_poll (p : UtilityEvent → bool) l i : Prop :=
  ∃ j e, in_current_poll_cycle l j i ∧ l !! j = Some e ∧ p e = true.

Definition has_waker_set_in_current_poll l rid i : Prop :=
  in_current_poll (λ e, is_succ_set_waker e && bool_decide (get_resource_id e = Some rid)) l i.
Definition has_defer_in_current_poll l i : Prop := in_current_poll is_defer l i.
Definition has_pass_waker_in_current_poll l i : Prop := in_current_poll is_pass_waker l i.
Definition has_woken_in_current_poll l i : Prop := in_current_poll is_woken l i.

Definition timer_deregistered_after_in_poll l rid (reg_idx finish : nat) : Prop :=
  ∃ k e, reg_idx < k ≤ finish ∧ l !! k = Some e ∧ is_deregister_timer e = true ∧ get_resource_id e = Some rid.

Definition has_timer_registered_in_current_poll l rid i : Prop :=
  ∃ j e, in_current_poll_cycle l j i ∧ l !! j = Some e ∧ is_register_timer e = true ∧
    get_resource_id e = Some rid ∧ ¬ timer_deregistered_after_in_poll l rid j i.

Definition has_active_timer_with_waker l i : Prop := ∃ rid, has_timer_registered_in_current_poll l rid i.
Definition has_active_io_with_waker l i : Prop :=
  ∃ rid, is_io_active l rid i ∧ has_waker_set_in_current_poll l rid i.

Definition has_active_wakeup_source l i : Prop :=
  has_active_timer_with_waker l i ∨ has_active_io_with_waker l i ∨
  has_defer_in_current_poll l i ∨ has_pass_waker_in_current_poll l i.

(** ** The invariants ([invariants]) *)

Definition is_resource_operation e : bool := is_deregister_timer e || is_deregister_io e || is_set_waker e.

Definition io_active_before l rid i : Prop :=
  ∃ j e, j < i ∧ l !! j = Some e ∧ is_register_io e = true ∧ get_resource_id e = Some rid ∧
    ∀ k e', j < k < i → l !! k = Some e' → is_deregister_io e' = true → get_resource_id e' ≠ Some rid.

Definition resource_operation_valid l i : Prop :=
  ∀ e rid, l !! i = Some e → get_resource_id e = Some rid →
    if is_deregister_timer e then is_timer_active l rid i
    else if is_deregister_io e then is_io_active l rid i
    else if is_set_waker e then io_active_before l rid i
    else True.

Definition event_at (p : UtilityEvent → bool) l i : Prop := ∃ e, l !! i = Some e ∧ p e = true.

Definition resource_ownership : ActionSafety Log :=
  mkActionSafety (λ l i, event_at is_resource_operation l i) (λ l i, resource_operation_valid l i).

Definition wakeup_guarantee : ActionSafety Log :=
  mkActionSafety (λ l i, event_at is_poll_end_pending l i) (λ l i, has_active_wakeup_source l i).

Definition utilities_inv l : Prop :=
  action_safety_satisfied wakeup_guarantee l ∧ action_safety_satisfied resource_ownership l.

(** ** The template of the contract of a utility ([contracts/pass_waker.rs]) *)

Definition count_poll_ends_in l (start finish : nat) : nat :=
  length (filter (λ e, is_poll_end e = true) (take (finish - start) (drop start l))).

Definition utility_step (l l' : list UtilityEvent) : Prop :=
  l `prefix_of` l' ∧ count_poll_ends_in l' (length l) (length l') = 1 ∧ utilities_inv l'.

Definition utility_module_spec : ModuleSpec (list UtilityEvent) := mkModuleSpec utilities_inv utility_step.

Definition has_pass_waker_with_uid_after l uid (start : nat) : Prop :=
  ∃ i, start ≤ i ∧ l !! i = Some (Outbound (PassWaker uid)).
Definition has_woken_with_uid_after l uid (start : nat) : Prop :=
  ∃ i, start ≤ i ∧ l !! i = Some (Outbound (Woken uid)).

Definition pass_waker_contract (l_start : list UtilityEvent) : AsyncContract (list UtilityEvent) Z :=
  mkContract (λ l uid, has_pass_waker_with_uid_after l uid 0)
    (λ l uid, has_woken_with_uid_after l uid (length l_start)) (λ _ _, True).

(** ** Polls that wait again and again *)

Definition waiting_poll uid : list UtilityEvent :=
  [Inbound (Poll None); Outbound (PassWaker uid); Inbound (Poll (Some Pending))].

Lemma find_last_poll_begin_app l seg i :
  i < length l → find_last_poll_begin (l ++ seg) i = find_last_poll_begin l i.
Proof.
  induction i as [|i IH]; intros Hi; simpl; rewrite !lookup_app_l by lia; [done|]. by rewrite IH by lia.
Qed.

Lemma in_current_poll_app p l seg i :
  i < length l → in_current_poll p l i → in_current_poll p (l ++ seg) i.
Proof.
  intros Hi (j & e & (s & Hs & Hj) & He & Hp). exists j, e. split.
  - exists s. split; [|done]. unfold current_poll_start in *. by rewrite find_last_poll_begin_app.
  - split; [|done]. rewrite lookup_app_l by lia. done.
Qed.

(** What holds of a log of such polls. *)
Definition waiting_log l : Prop :=
  (∀ i, event_at is_poll_end_pending l i → has_pass_waker_in_current_poll l i) ∧
  Forall (λ e, get_resource_id e = None ∧ is_woken e = false) l.

Lemma waiting_log_inv l : waiting_log l → utilities_inv l.
Proof.
  intros [Hw Hf]. split; [intros i Hi; do 3 right; by apply Hw|].
  intros i (e & He & Hr). rewrite Forall_lookup in Hf. intros e' rid He' Hg.
  destruct (Hf i e' He') as [Hn _]. congruence.
Qed.

Lemma waiting_log_poll l uid : waiting_log l → waiting_log (l ++ waiting_poll uid).
Proof.
  intros [Hw Hf]. split; [|apply Forall_app; split; [done|]; by repeat constructor].
  intros i (e & He & Hp). apply lookup_app_Some in He as [He|[Hle He]].
  - apply in_current_poll_app; [by eapply lookup_lt_Some|]. apply Hw. by exists e.
  - assert (i = length l + 2) as ->.
    { destruct (i - length l) as [|[|[|m]]] eqn:E; simplify_eq/=. lia. }
    exists (length l + 1), (Outbound (PassWaker uid)). split; [|split; [|done]].
    + exists (length l). split; [|lia]. unfold current_poll_start.
      assert (H2 : find_last_poll_begin (l ++ waiting_poll uid) (length l + 2) =
        find_last_poll_begin (l ++ waiting_poll uid) (length l)).
      { replace (length l + 2) with (S (S (length l))) by lia. cbn [find_last_poll_begin].
        rewrite !lookup_app_r by lia. replace (S (S (length l)) - length l) with 2 by lia.
        by replace (S (length l) - length l) with 1 by lia. }
      rewrite H2. destruct (length l) eqn:E; simpl; rewrite lookup_app_r by lia; rewrite E, Nat.sub_diag; done.
    + rewrite lookup_app_r by lia. by replace (length l + 1 - length l) with 1 by lia.
Qed.

Lemma waiting_step l uid : waiting_log l → utility_step l (l ++ waiting_poll uid).
Proof.
  intros Hl. split; [by apply prefix_app_r|]. split; [|by apply waiting_log_inv, waiting_log_poll].
  unfold count_poll_ends_in. rewrite drop_app_length, take_ge; [done|]. rewrite length_app. lia.
Qed.

(** With its placeholder for an assumption, [True], no utility can keep the template: a task
    that waits again in every poll is never woken. *)
Theorem pass_waker_template_fails l_start uid :
  waiting_log l_start → has_pass_waker_with_uid_after l_start uid 0 →
  ¬ bounded_liveness_without_arrival utility_module_spec (pass_waker_contract l_start).
Proof.
  intros Hl Ha [_ H]. destruct (H uid l_start (waiting_log_inv _ Hl) Ha I) as [n Hn].
  assert (Hrun : ∃ l', nsteps utility_step n l_start l' ∧ waiting_log l').
  { clear Hn. induction n as [|n (l' & Hs & Hl')]; [by exists l_start; split; [constructor|]|].
    exists (l' ++ waiting_poll uid). split; [|by apply waiting_log_poll].
    eapply nsteps_r; [exact Hs|by apply waiting_step]. }
  destruct Hrun as (l' & Hs & _ & Hf). apply progress_n_nsteps in Hs.
  destruct (Hn l' Hs) as (i & _ & Hi). rewrite Forall_lookup in Hf. by destruct (Hf i _ Hi).
Qed.

Lemma pass_waker_template_fails_witness :
  ¬ bounded_liveness_without_arrival utility_module_spec (pass_waker_contract (waiting_poll 3)).
Proof.
  apply (pass_waker_template_fails (waiting_poll 3) 3).
  - apply (waiting_log_poll [] 3). split; [|constructor]. intros i (e & He & _). by destruct i.
  - exists 1. split; [lia|done].
Defined.

End TaskLog.
