(* ===== verification/Composed.v ===== *)
(** * Composed: the composed system of the liveness development

    [lion-liveness/src/composed/spec]: the log of the executor, the log of the reactor and
    a log of each task, with the conditions that a round of the three must keep.  The
    rounds are those of [Contracts] and [ReactorContracts].  What a task that waits in a
    wake queue gets from these conditions is proved here, and so is which runs of the code
    they leave out. *)

From S2P Require Import Prelude Store Slab TidLedger ExecLog Tls Executor.
From S2P Require Import ExecInv ExecOps ExecTick ExecSpec Framework Contracts TaskLog.
From S2P Require Import ReactorLog ReactorIoLog ReactorSyscallLog ReactorContracts ReactorIoContract.
Import ExecLog Framework Contracts ReactorSyscallLog.

Module Composed.
Implicit Types (le : list ExecutorEvent) (lr : list ReactorLog.ReactorEvent) (lt : TaskLog.Log).
Implicit Types (tid rid : Z) (i j d r : nat) (re : ReactorLog.ReactorEvent) (pe : TaskLog.UtilityEvent).

(** ** The state ([state.rs]) *)

Record ComposedState := mkState {
  executor_log : list ExecutorEvent;
  reactor_log : list ReactorLog.ReactorEvent;
  task_logs : gmap Z TaskLog.Log;
  injection_schedule : list Z;
}.
Implicit Types (s : ComposedState).

Definition empty_composed_state : ComposedState := mkState [] [] ∅ [].

Definition is_extension_of s s' : Prop :=
  executor_log s `prefix_of` executor_log s' ∧ reactor_log s `prefix_of` reactor_log s' ∧
  injection_schedule s = injection_schedule s' ∧
  ∀ tid lt, task_logs s !! tid = Some lt → ∃ lt', task_logs s' !! tid = Some lt' ∧ lt `prefix_of` lt'.

(** An event of the log of a task, and one of the reactor's. *)
Definition task_event s tid i pe : Prop := ∃ lt, task_logs s !! tid = Some lt ∧ lt !! i = Some pe.
Definition task_len s tid : nat := match (task_logs s !! tid : option TaskLog.Log) with Some lt => length lt | None => 0 end.

(** ** The injection schedule ([lion-executor-spec/src/injection_schedule.rs]) *)

Definition injected_tasks le : list Z :=
  omap (λ e, match e with Outbound (PopInjection t) => t | _ => None end) le.
Definition count_pop_injection le : nat := length (filter (λ e, is_pop_injection e = true) le).

Definition pop_follows_schedule le (q : list Z) : Prop := injected_tasks le `prefix_of` q.

Definition pops_deliver_schedule le (q : list Z) : Prop :=
  0 < length q →
  injected_tasks le `prefix_of` q ∧
  (length q ≤ count_pop_injection le → length q ≤ length (injected_tasks le)).

(** ** Polls of a task in the log of the executor ([lion-executor-spec/src/log.rs]) *)

Definition is_poll_task_for_id_at le i tid : Prop := ∃ t res, le !! i = Some (Outbound (PollTask tid t res)).
Definition is_poll_pending_for_id_at le i tid : Prop := ∃ t, le !! i = Some (Outbound (PollTask tid t Pending)).
Definition is_poll_ready_for_id_at le i tid : Prop := ∃ t, le !! i = Some (Outbound (PollTask tid t Ready)).
Definition has_poll_for_id le tid : Prop := ∃ i, is_poll_task_for_id_at le i tid.

(** [i] is [last_poll_idx_for_id]. *)
Definition is_last_poll le tid i : Prop :=
  is_poll_task_for_id_at le i tid ∧ ∀ j, i < j → ¬ is_poll_task_for_id_at le j tid.
Definition last_poll_is_pending le tid : Prop :=
  ∃ i, is_last_poll le tid i ∧ is_poll_pending_for_id_at le i tid.

Definition drains_at (source : DrainSource) le d tid : Prop :=
  ∃ ids, le !! d = Some (Outbound (Drain source ids)) ∧ tid ∈ ids.
Definition drained_after (source : DrainSource) le tid (start : nat) : Prop :=
  ∃ d, start < d ∧ drains_at source le d tid.

(** ** Alignment of the logs ([alignment.rs]) *)

Definition is_reactor_operation pe : bool :=
  TaskLog.is_register_timer pe || TaskLog.is_deregister_timer pe || TaskLog.is_register_io pe ||
  TaskLog.is_deregister_io pe || TaskLog.is_succ_set_waker pe.

Definition is_task_initiated_reactor_event re : bool :=
  match re with
  | ReactorLog.Inbound (ReactorLog.RegisterTimer _ _ (Some (UtilityLog.Ok _)))
  | ReactorLog.Inbound (ReactorLog.DeregisterTimer _ _)
  | ReactorLog.Outbound (ReactorLog.RegisterIoResource _ _ _ (UtilityLog.Ok _))
  | ReactorLog.Outbound (ReactorLog.DeregisterIoResource _ _ _)
  | ReactorLog.Inbound (ReactorLog.SetWaker _ _ _ (Some (UtilityLog.Ok _))) => true
  | _ => false
  end.

Definition succ_reactor_event_matches_task_operation re pe : Prop :=
  match pe, re with
  | TaskLog.Outbound (TaskLog.RegisterTimer rid _),
      ReactorLog.Inbound (ReactorLog.RegisterTimer _ _ (Some (UtilityLog.Ok rid'))) => rid' = rid
  | TaskLog.Outbound (TaskLog.DeregisterTimer rid _),
      ReactorLog.Inbound (ReactorLog.DeregisterTimer rid' _) => rid' = rid
  | TaskLog.Outbound (TaskLog.RegisterIo rid _),
      ReactorLog.Outbound (ReactorLog.RegisterIoResource _ rid' _ (UtilityLog.Ok _)) => rid' = rid
  | TaskLog.Outbound (TaskLog.DeregisterIo rid),
      ReactorLog.Outbound (ReactorLog.DeregisterIoResource _ rid' _) => rid' = rid
  | TaskLog.Outbound (TaskLog.SetWaker rid _ (Some tt)),
      ReactorLog.Inbound (ReactorLog.SetWaker rid' _ _ (Some (UtilityLog.Ok _))) => rid' = rid
  | _, _ => False
  end.

(** The operation [i] of the task has the event [r] of the reactor. *)
Definition matches s tid i r : Prop :=
  ∃ pe re, task_event s tid i pe ∧ reactor_log s !! r = Some re ∧
    succ_reactor_event_matches_task_operation re pe.
Definition operation s tid i : Prop := ∃ pe, task_event s tid i pe ∧ is_reactor_operation pe = true.
Definition initiated s r : Prop :=
  ∃ re, reactor_log s !! r = Some re ∧ is_task_initiated_reactor_event re = true.

(** *** Action mediation, of a state *)


Definition operation_to_reactor_exists s : Prop := ∀ tid i, operation s tid i → ∃ r, matches s tid i r.

Definition reactor_to_operation_unique s : Prop :=
  ∀ tid1 tid2 i1 i2 r, operation s tid1 i1 → operation s tid2 i2 →
    matches s tid1 i1 r → matches s tid2 i2 r → tid1 = tid2 ∧ i1 = i2.

Definition reactor_outbound_to_task_exists s : Prop :=
  ∀ r, initiated s r → ∃ tid i, matches s tid i r.

Definition reactor_registration_to_task_exists s : Prop :=
  ∀ r re, reactor_log s !! r = Some re →
    is_Some (ReactorLog.succ_register_timer re) ∨ is_Some (succ_io_syscall_register re) → ∃ tid i, matches s tid i r.

Definition monotonic_task_reactor_alignment s : Prop :=
  ∀ tid a b ra rb, a < b → operation s tid a → operation s tid b →
    matches s tid a ra → matches s tid b rb → ra < rb.

(** A task takes out what it registered itself and has not taken out before. *)
Definition takes_out_own (reg dereg : TaskLog.UtilityEvent → bool) (gone : TaskLog.Log → Z → nat → Prop)
    (active : list ReactorLog.ReactorEvent → nat → nat → Prop) s : Prop :=
  ∀ tid lt a b ea eb rid ra rb, task_logs s !! tid = Some lt → a < b →
    lt !! a = Some ea → reg ea = true → lt !! b = Some eb → dereg eb = true →
    TaskLog.get_resource_id ea = Some rid → TaskLog.get_resource_id eb = Some rid →
    ¬ gone lt rid b → matches s tid a ra → matches s tid b rb → active (reactor_log s) ra rb.

Definition deregister_matches_own_registration s : Prop :=
  takes_out_own TaskLog.is_register_timer TaskLog.is_deregister_timer TaskLog.is_timer_deregistered_before
    ReactorLog.timer_active_at s.
Definition deregister_io_matches_own_registration s : Prop :=
  takes_out_own TaskLog.is_register_io TaskLog.is_deregister_io TaskLog.is_io_deregistered_before
    io_syscall_active_at s.

(** The events of a registration and of the deregistration that ends it are of one task. *)
Definition by_owner (registers deregisters : ReactorLog.ReactorEvent → option Z)
    (active : list ReactorLog.ReactorEvent → nat → nat → Prop) s : Prop :=
  ∀ ra rb rid tid_reg a tid_dereg b, ra < rb →
    reactor_log s !! ra ≫= registers = Some rid → reactor_log s !! rb ≫= deregisters = Some rid →
    active (reactor_log s) ra rb → matches s tid_reg a ra → matches s tid_dereg b rb → tid_reg = tid_dereg.

Definition succ_register_timer_rid re : option Z := snd <$> ReactorLog.succ_register_timer re.
Definition succ_deregister_timer_rid re : option Z :=
  match re with ReactorLog.Inbound (ReactorLog.DeregisterTimer rid true) => Some rid | _ => None end.
Definition io_syscall_deregister_rid re : option Z := fst <$> ReactorIoLog.io_syscall_deregister re.

Definition succ_deregister_by_owner s : Prop :=
  by_owner succ_register_timer_rid succ_deregister_timer_rid ReactorLog.timer_active_at s.
Definition succ_deregister_io_by_owner s : Prop :=
  by_owner succ_io_syscall_register io_syscall_deregister_rid io_syscall_active_at s.

Definition action_mediation_state s : Prop :=
  operation_to_reactor_exists s ∧ reactor_to_operation_unique s ∧ reactor_outbound_to_task_exists s ∧
  reactor_registration_to_task_exists s ∧ monotonic_task_reactor_alignment s ∧ succ_deregister_by_owner s ∧ deregister_matches_own_registration s ∧
  deregister_io_matches_own_registration s ∧ succ_deregister_io_by_owner s.

(** *** Action mediation, of a round *)

Definition is_new_task_operation s s' tid i : Prop := task_len s tid ≤ i < task_len s' tid.
Definition is_new_reactor_event s s' r : Prop := length (reactor_log s) ≤ r < length (reactor_log s').

Definition new_operation_alignment s s' : Prop :=
  ∀ tid i, is_new_task_operation s s' tid i → operation s' tid i →
    ∃ r, is_new_reactor_event s s' r ∧ matches s' tid i r.

Definition new_operation_uniqueness s s' : Prop :=
  ∀ tid1 tid2 i1 i2 r, is_new_task_operation s s' tid1 i1 → is_new_task_operation s s' tid2 i2 →
    operation s' tid1 i1 → operation s' tid2 i2 → is_new_reactor_event s s' r →
    matches s' tid1 i1 r → matches s' tid2 i2 r → tid1 = tid2 ∧ i1 = i2.

Definition new_op_matches_only_new_reactor s s' : Prop :=
  ∀ tid i r, is_new_task_operation s s' tid i → operation s' tid i → matches s' tid i r →
    length (reactor_log s) ≤ r.

Definition reactor_outbound_has_task_operation s s' : Prop :=
  ∀ r, is_new_reactor_event s s' r → initiated s' r → ∃ tid i, matches s' tid i r.

Definition new_reactor_event_has_new_op s s' : Prop :=
  ∀ r, is_new_reactor_event s s' r → initiated s' r →
    ∃ tid i, is_new_task_operation s s' tid i ∧ matches s' tid i r.

Definition action_mediation_step s s' : Prop :=
  new_operation_alignment s s' ∧ new_operation_uniqueness s s' ∧ new_op_matches_only_new_reactor s s' ∧
  reactor_outbound_has_task_operation s s' ∧ new_reactor_event_has_new_op s s'.

(** *** Observation consistency *)

Definition task_log_ends_with_pending lt : Prop :=
  ∃ pe, last lt = Some pe ∧ TaskLog.is_poll_end_pending pe = true.

Definition polled_task_has_log_inv s : Prop :=
  ∀ tid, has_poll_for_id (executor_log s) tid → is_Some (task_logs s !! tid).
Definition pending_poll_inv s : Prop :=
  ∀ tid lt, task_logs s !! tid = Some lt → last_poll_is_pending (executor_log s) tid → task_log_ends_with_pending lt.
Definition observation_consistency_state s : Prop := polled_task_has_log_inv s ∧ pending_poll_inv s.

Definition poll_alignment s s' : Prop :=
  ∀ tid, task_len s tid < task_len s' tid →
    ∃ i, length (executor_log s) ≤ i ∧ is_poll_task_for_id_at (executor_log s') i tid.
Definition pending_poll_alignment s s' : Prop :=
  ∀ tid i lt, length (executor_log s) ≤ i → is_poll_pending_for_id_at (executor_log s') i tid →
    task_logs s' !! tid = Some lt → task_log_ends_with_pending lt.
Definition new_poll_has_task_log s s' : Prop :=
  ∀ tid i, length (executor_log s) ≤ i → is_poll_task_for_id_at (executor_log s') i tid →
    is_Some (task_logs s' !! tid).
Definition new_poll_changes_task_log s s' : Prop :=
  ∀ tid i, length (executor_log s) ≤ i → is_poll_task_for_id_at (executor_log s') i tid →
    is_Some (task_logs s !! tid) → task_len s tid < task_len s' tid.
Definition observation_consistency_step s s' : Prop :=
  poll_alignment s s' ∧ pending_poll_alignment s s' ∧ new_poll_has_task_log s s' ∧ new_poll_changes_task_log s s'.

(** *** Parks *)

Definition count_park_events_in le (start finish : nat) : nat :=
  length (filter (λ e, is_park e = true) (take (finish - start) (skipn start le))).
Definition count_park_cycles_in lr (start finish : nat) : nat :=
  length (filter (λ e, ReactorIoLog.is_park_end e = true) (take (finish - start) (skipn start lr))).

Definition wakeup_routing_step s s' : Prop :=
  count_park_events_in (executor_log s') (length (executor_log s)) (length (executor_log s')) =
  count_park_cycles_in (reactor_log s') (length (reactor_log s)) (length (reactor_log s')).

Definition cross_module_alignment s s' : Prop :=
  action_mediation_state s' ∧ action_mediation_step s s' ∧
  observation_consistency_state s' ∧ observation_consistency_step s s' ∧ wakeup_routing_step s s'.

(** ** The wake queues, as the logs tell them ([wake_queues.rs]) *)

Definition last_idx lt : nat := pred (length lt).

(** [assumptions.rs] *)
Definition timer_reg_current_poll_owned s (reg_idx : nat) : Prop :=
  ∃ tid lt i pe, task_logs s !! tid = Some lt ∧ lt !! i = Some pe ∧ TaskLog.is_register_timer pe = true ∧
    TaskLog.in_current_poll_cycle lt i (last_idx lt) ∧ matches s tid i reg_idx.

Definition task_polled_to_ready le tid : Prop := ∃ i, is_poll_ready_for_id_at le i tid.

Definition timer_wake_owned s tid : Prop :=
  ∃ lt i (d w rid : Z), task_logs s !! tid = Some lt ∧
    ReactorLog.is_succ_register_timer_at (reactor_log s) i d w rid ∧ timer_reg_current_poll_owned s i ∧
    TaskLog.has_timer_registered_in_current_poll lt rid (last_idx lt) ∧
    ReactorContracts.response_at (reactor_log s) i.

Definition io_wake_in_current_window lr rid : Prop :=
  ∃ sw k w, ReactorIoContract.find_last_set_waker_for_rid lr rid (length lr) = Some sw ∧ sw < k ∧
    lr !! k ≫= ReactorLog.wake_task = Some (w, rid).

Definition reactor_wake_arrival s tid : Prop :=
  timer_wake_owned s tid ∨
  ∃ lt rid, task_logs s !! tid = Some lt ∧ TaskLog.is_io_active lt rid (last_idx lt) ∧
    TaskLog.has_waker_set_in_current_poll lt rid (last_idx lt) ∧ io_wake_in_current_window (reactor_log s) rid.

Definition taskwake_arrival s tid : Prop :=
  ∃ lt, task_logs s !! tid = Some lt ∧ TaskLog.has_woken_in_current_poll lt (last_idx lt).
Definition defer_arrival s tid : Prop :=
  ∃ lt, task_logs s !! tid = Some lt ∧ TaskLog.has_defer_in_current_poll lt (last_idx lt).

(** The last poll of the task is pending, and no drain took it since. *)
Definition not_drained (source : DrainSource) le tid : Prop :=
  ∃ i, is_last_poll le tid i ∧ is_poll_pending_for_id_at le i tid ∧ ¬ drained_after source le tid i.

Definition in_deferred_queue s tid : Prop := defer_arrival s tid ∧ not_drained Deferred (executor_log s) tid.
Definition reactor_wake_pending s tid : Prop :=
  reactor_wake_arrival s tid ∧ not_drained ReactorWake (executor_log s) tid.
Definition taskwake_pending s tid : Prop := taskwake_arrival s tid ∧ not_drained TaskWake (executor_log s) tid.

(** Each drain of a round takes every task of its queue. *)
Definition drain_step (source : DrainSource) (pending : ComposedState → Z → Prop) s s' : Prop :=
  ∀ tid d ids, pending s tid → length (executor_log s) ≤ d →
    executor_log s' !! d = Some (Outbound (Drain source ids)) → tid ∈ ids.
Definition deferred_drain_step s s' : Prop := drain_step Deferred in_deferred_queue s s'.
Definition reactor_wake_drain_step s s' : Prop := drain_step ReactorWake reactor_wake_pending s s'.
Definition taskwake_drain_step s s' : Prop := drain_step TaskWake taskwake_pending s s'.

(** ** The module ([progress.rs]) *)

Definition task_logs_preserve_utilities_inv s : Prop :=
  ∀ tid lt, task_logs s !! tid = Some lt → TaskLog.utilities_inv lt.

Definition composed_progress s s' : Prop :=
  is_extension_of s s' ∧
  executor_progress (executor_log s) (executor_log s') ∧
  ReactorContracts.reactor_progress (reactor_log s) (reactor_log s') ∧
  cross_module_alignment s s' ∧ task_logs_preserve_utilities_inv s' ∧
  monotonic_task_reactor_alignment s' ∧
  pops_deliver_schedule (executor_log s') (injection_schedule s') ∧
  deferred_drain_step s s' ∧ reactor_wake_drain_step s s' ∧ taskwake_drain_step s s'.

Definition composed_well_formed s : Prop :=
  module_inv (executor_log s) ∧ ReactorContracts.reactor_inv (reactor_log s) ∧
  action_mediation_state s ∧ observation_consistency_state s ∧ task_logs_preserve_utilities_inv s.

Definition composed_module_spec : ModuleSpec ComposedState := mkModuleSpec composed_well_formed composed_progress.

(** [contract.rs] *)
Definition task_spawned_in le tid : Prop := ∃ i, le !! i = Some (Outbound (PopInjection (Some tid))).
Definition task_scheduled_at s tid (k : nat) : Prop :=
  injection_schedule s !! (length (injected_tasks (executor_log s)) + k) = Some tid.

(** ** Rounds *)

Lemma progress_keeps_wf : progress_preserves_wf composed_module_spec.
Proof.
  intros s s' _ (_ & (_ & _ & _ & He) & (_ & _ & _ & Hr) & (Ha & _ & Ho & _) & Hu & _).
  by split_and!.
Qed.

Lemma progress_executor n s s' :
  nsteps composed_progress n s s' → nsteps executor_progress n (executor_log s) (executor_log s').
Proof. induction 1 as [|n s1 s2 s3 (_ & He & _) _ IH]; [constructor|by eapply nsteps_l]. Qed.

(** A round contains what each tick contains. *)
Lemma round_has (p : ExecutorEvent → bool) le le' :
  executor_progress le le' → action_safety_satisfied (tick_has p) le' →
  ∃ d, length le ≤ d ∧ at_pos p le' d.
Proof.
  intros (_ & _ & (_ & _ & Hb & He & _) & _) H. destruct (H (length le' - 1) He) as (q & Hq & Hp & Hno).
  exists q. split; [|done]. destruct (decide (length le ≤ q)); [done|].
  destruct (Hno (length le)); [|done]. destruct Hb as (b & Hb & _). apply lookup_lt_Some in Hb. lia.
Qed.

Lemma round_drains source le le' :
  executor_progress le le' → ∃ d ids, length le ≤ d ∧ le' !! d = Some (Outbound (Drain source ids)).
Proof.
  intros Hp. pose proof Hp as (_ & _ & _ & [Hpark _] & _ & _ & H1 & _ & H3 & H4).
  assert (Hd : ∃ d, length le ≤ d ∧ is_drain_of_at source le' d).
  { destruct source; [|by apply round_has|by apply round_has].
    destruct (round_has _ _ _ Hp H1) as (q & Hq & Hqp). destruct (Hpark q Hqp) as (d & Hd & Hdr & _).
    exists d. split; [lia|done]. }
  destruct Hd as (d & Hd & e & He & Hs). exists d. destruct e as [|[|src ids| |]]; simplify_eq/=.
  apply bool_decide_eq_true in Hs as ->. by exists ids.
Qed.

(** ** Delivery *)

Lemma round_pops le le' :
  executor_progress le le' → S (count_pop_injection le) ≤ count_pop_injection le'.
Proof.
  intros Hp. pose proof Hp as (_ & [seg ->] & _ & _ & _ & _ & _ & H2 & _).
  destruct (round_has _ _ _ Hp H2) as (d & Hd & e & He & Hpe).
  unfold count_pop_injection. rewrite filter_app, length_app. rewrite lookup_app_r in He by done.
  assert (Hin : e ∈ filter (λ e, is_pop_injection e = true) seg).
  { apply list_elem_of_filter. split; [done|]. by eapply list_elem_of_lookup_2. }
  destruct (filter _ seg); [by apply not_elem_of_nil in Hin|simpl; lia].
Qed.

Lemma rounds_pop n le le' :
  nsteps executor_progress n le le' → n + count_pop_injection le ≤ count_pop_injection le'.
Proof. induction 1 as [|n l1 l2 l3 Hp _ IH]; [lia|]. pose proof (round_pops _ _ Hp). lia. Qed.

Lemma injected_spawned le k tid : injected_tasks le !! k = Some tid → task_spawned_in le tid.
Proof.
  intros H%list_elem_of_lookup_2. unfold injected_tasks in H.
  apply list_elem_of_omap in H as (e & [i Hi]%list_elem_of_lookup & He).
  exists i. destruct e as [|[| | |[x|]]]; simplify_eq/=. done.
Qed.

Lemma scheduled_task_delivered s s' tid k n :
  task_scheduled_at s tid k → length (injection_schedule s) ≤ n →
  progress_n (progress composed_module_spec) s s' n → task_spawned_in (executor_log s') tid.
Proof.
  unfold task_scheduled_at. intros Hk Hn Hp%progress_n_nsteps. pose proof (lookup_lt_Some _ _ _ Hk) as Hlen.
  pose proof (rounds_pop _ _ _ (progress_executor _ _ _ Hp)) as Hpops.
  assert (Hsched : injection_schedule s' = injection_schedule s).
  { clear -Hp. induction Hp as [|n s1 s2 s3 ((_ & _ & E & _) & _) _ IH]; [done|congruence]. }
  destruct n as [|n]; [lia|].
  apply nsteps_inv_r in Hp as (sm & _ & _ & _ & _ & _ & _ & _ & Hd & _).
  destruct Hd as [Hpre Hall]; [rewrite Hsched; lia|]. rewrite Hsched in *.
  specialize (Hall ltac:(lia)). apply (injected_spawned _ (length (injected_tasks (executor_log s)) + k)).
  destruct Hpre as [rest Hq]. rewrite Hq in Hk, Hall. rewrite length_app in Hall.
  rewrite lookup_app_l in Hk; [done|]. rewrite Hq, length_app in Hlen. lia.
Qed.

End Composed.
