(* ===== verification/ComposedSpec.v ===== *)
(** * ComposedSpec: what the composed system promises, and which runs it leaves out

    A run of the modelled code in the composed system, [ComposedRun], and theorems on the
    module of [Composed].  A task that waits in a wake queue is polled, and
    a scheduled task is delivered, from the conditions on rounds alone.  These conditions
    are stronger than they look: an operation and an event are matched by kind and id only,
    so that a task that waits twice on one socket or one sleep is in no aligned state; and the
    injection schedule counts empty pops, of which each tick of the code makes one, so that
    a task that is spawned late is in no schedule.  Both are shown of the modelled code. *)

From S2P Require Import Prelude Store Slab TidLedger ExecLog Tls Executor.
From S2P Require Import ExecInv ExecOps ExecTick ExecSpec BlockOn Framework Contracts TaskLog.
From S2P Require Import Wheel UtilityLog ReactorLog ReactorIoLog ResourceSlab Reactor ReactorInv ReactorOps ReactorSpec.
From S2P Require Import ReactorSyscallLog ReactorContracts Sleep SleepSpec NetIo Composed.
Import ExecLog Executor Framework Contracts ReactorContracts Composed.

(** ** A run of the code in the composed system

    A task that yields once, polled by the modelled executor while the modelled reactor
    parks: its logs meet every condition that [Composed] puts on a round, so that the theorems
    on composed systems speak of it. *)

Module ComposedRun.
Implicit Types (le : list ExecutorEvent) (lt : TaskLog.Log) (tid : Z) (s : ComposedState) (q : list Z).

(** A state without operations of tasks on the reactor is aligned. *)
Lemma quiet_mediation s :
  (∀ tid i, ¬ operation s tid i) → (∀ r, ¬ initiated s r) → action_mediation_state s.
Proof.
  intros Hop Hin.
  assert (Hm : ∀ tid i r, ¬ matches s tid i r).
  { intros tid i r (pe & re & Hpe & Hre' & Hma). apply (Hop tid i). exists pe. split; [done|].
    destruct pe as [|[]]; try done. by destruct result as [[]|]. }
  split; [intros tid i Ho; by destruct (Hop tid i)|].
  split; [intros tid ? i ? r Ho; by destruct (Hop tid i)|].
  split; [intros r Hi; by destruct (Hin r)|].
  split.
  { intros r re Hre' Hreg. destruct (Hin r). exists re. split; [done|].
    destruct Hreg as [[? Hreg]|[? Hreg]]; destruct re as [[]|[]]; try done;
      (destruct result as [[]|] || destruct result); done. }
  split; [intros tid a b ra rb _ Ha; by destruct (Hop tid a)|].
  split; [intros ra rb rid tr a td b _ _ _ _ Ha; by destruct (Hm _ _ _ Ha)|].
  split; [intros tid lt a b ea eb rid ra rb _ _ _ _ _ _ _ _ _ Ha; by destruct (Hm _ _ _ Ha)|].
  split; [intros tid lt a b ea eb rid ra rb _ _ _ _ _ _ _ _ _ Ha; by destruct (Hm _ _ _ Ha)|].
  intros ra rb rid tr a td b _ _ _ _ Ha; by destruct (Hm _ _ _ Ha).
Qed.

(** A round without operations of tasks on the reactor. *)
Lemma quiet_progress s s' :
  (∀ tid i pe, task_event s' tid i pe → is_reactor_operation pe = false) →
  (∀ r re, reactor_log s' !! r = Some re → is_task_initiated_reactor_event re = false) →
  is_extension_of s s' → executor_progress (executor_log s) (executor_log s') →
  reactor_progress (reactor_log s) (reactor_log s') →
  observation_consistency_state s' → observation_consistency_step s s' → wakeup_routing_step s s' →
  task_logs_preserve_utilities_inv s' → pops_deliver_schedule (executor_log s') (injection_schedule s') →
  deferred_drain_step s s' → reactor_wake_drain_step s s' → taskwake_drain_step s s' → composed_progress s s'.
Proof.
  intros Hq Hr Hext He Hre Hos Hoss Hw Hu Hp H1 H2 H3.
  assert (Hop : ∀ tid i, ¬ operation s' tid i) by (intros tid i (pe & Hpe & Ho); apply Hq in Hpe; congruence).
  assert (Hin : ∀ r, ¬ initiated s' r) by (intros r (re & Hre' & Ho); apply Hr in Hre'; congruence).
  pose proof (quiet_mediation s' Hop Hin) as Hmed.
  split; [done|]. split; [done|]. split; [done|]. split; [|by destruct Hmed as (_ & _ & _ & _ & ? & _)].
  split; [done|]. split; [|done].
  split; [intros tid i _ Ho; by destruct (Hop tid i)|].
  split; [intros tid ? i ? r _ _ Ho; by destruct (Hop tid i)|].
  split; [intros tid i r _ Ho; by destruct (Hop tid i)|].
  split; intros r _ Hi; by destruct (Hin r).
Qed.

(** A task that yields once, and two ticks. *)
Definition yield_start : Executor YieldNow.YieldNow (list Z) := run_external (new [] 4) (Spawn YieldNow.yield_now).
Abbreviation first_tick := (tick yield_start).
Abbreviation second_tick := (tick first_tick).
Definition park_events (now : Z) : list ReactorLog.ReactorEvent :=
  [ReactorLog.Inbound (ReactorLog.Park (Some 0) None); ReactorLog.Outbound (ReactorLog.GetCurrentTime now);
   ReactorLog.Outbound (ReactorLog.PollEvents (Some 0) (UtilityLog.Ok 0%nat));
   ReactorLog.Inbound (ReactorLog.Park (Some 0) (Some (UtilityLog.Ok tt)))]%Z.
Definition first_poll : TaskLog.Log :=
  [TaskLog.Inbound (TaskLog.Poll None); TaskLog.Outbound TaskLog.Defer;
   TaskLog.Inbound (TaskLog.Poll (Some TaskLog.Pending))].
Definition second_poll : TaskLog.Log :=
  [TaskLog.Inbound (TaskLog.Poll None); TaskLog.Inbound (TaskLog.Poll (Some TaskLog.Ready))].

Definition composed_0 : ComposedState := mkState [] [] ∅ [1%Z].
Definition composed_1 : ComposedState := mkState (log first_tick) (park_events 20) {[1%Z := first_poll]} [1%Z].
Definition composed_2 : ComposedState :=
  mkState (log second_tick) (park_events 20 ++ park_events 21) {[1%Z := first_poll ++ second_poll]} [1%Z].

Lemma yield_reachable : reachable [] 4 first_tick ∧ reachable [] 4 second_tick.
Proof. split; [apply r_tick, r_external, r_init|apply r_tick, r_tick, r_external, r_init]. Qed.

Lemma yield_rounds :
  executor_progress [] (log first_tick) ∧ executor_progress (log first_tick) (log second_tick).
Proof.
  destruct yield_reachable as [H1 H2]. assert (H0 : reachable [] 4 yield_start) by apply r_external, r_init.
  destruct (reachable_inv [] 4 _ ltac:(lia) H0) as (D0 & _).
  destruct (reachable_inv [] 4 _ ltac:(lia) H1) as (D1 & I1 & _).
  destruct (reachable_inv [] 4 _ ltac:(lia) H2) as (_ & I2 & _).
  pose proof (tick_cycle yield_start D0 I1) as T1. pose proof (tick_cycle first_tick D1 I2) as T2.
  assert (E : log yield_start = []) by (vm_compute; reflexivity). rewrite E in T1.
  by split.
Qed.

Definition park_calls : list ReactorSpec.call :=
  [ReactorSpec.Park (Some 0%Z) 20%Z (λ _, UtilityLog.Ok []); ReactorSpec.Park (Some 0%Z) 21%Z (λ _, UtilityLog.Ok [])].

Lemma park_rounds :
  reactor_progress [] (park_events 20) ∧ reactor_progress (park_events 20) (park_events 20 ++ park_events 21).
Proof.
  assert (Ha : run_allowed service_init park_calls ∧ run_allowed service_init (take 1 park_calls)).
  { split; unfold park_calls; simpl; allow; (split; [u64|intros d [= <-]; lia]). }
  assert (Hrun : ∀ cs l, run_allowed service_init cs → Forall (λ c, serves_timers c = true) cs → 0 < parks cs →
    (∃ answers r, rrun Reactor.new cs = Some (answers, r) ∧ Reactor.log r = l) → reactor_inv l).
  { intros cs l Hal Hc Hp (answers & r & Hr & <-). apply (rounds_end (parks cs)); [done|]. by apply (rrun_rounds cs answers r). }
  assert (H1 : reactor_inv (park_events 20)).
  { apply (Hrun (take 1 park_calls)); [apply Ha|by repeat constructor|simpl; lia|].
    do 2 eexists. split; [vm_compute; reflexivity|reflexivity]. }
  assert (H2 : reactor_inv (park_events 20 ++ park_events 21)).
  { apply (Hrun park_calls); [apply Ha|by repeat constructor|simpl; lia|].
    do 2 eexists. split; [vm_compute; reflexivity|reflexivity]. }
  split.
  - apply (park_round [] [] (Some 0%Z) [ReactorLog.Outbound (ReactorLog.GetCurrentTime 20);
      ReactorLog.Outbound (ReactorLog.PollEvents (Some 0%Z) (UtilityLog.Ok 0))] (UtilityLog.Ok tt));
      [done|intros i e Hi; simpl in Hi; lia|by repeat constructor|exact H1].
  - apply (park_round (park_events 20) (park_events 20) (Some 0%Z) [ReactorLog.Outbound (ReactorLog.GetCurrentTime 21);
      ReactorLog.Outbound (ReactorLog.PollEvents (Some 0%Z) (UtilityLog.Ok 0))] (UtilityLog.Ok tt));
      [done|intros i e Hi; lia|by repeat constructor|exact H2].
Qed.

Definition events_1 : list ExecutorEvent :=
  [Inbound (Tick None); Outbound (Drain Deferred []); Outbound (PopInjection (Some 1%Z)); Outbound (PopInjection None);
   Outbound (PollTask 1 (Some 1%Z) Pending); Outbound (Drain ReactorWake []); Outbound (Drain TaskWake []);
   Outbound (PopInjection None); Outbound Park; Outbound (Drain ReactorWake []); Outbound (Drain TaskWake []);
   Outbound (Drain ReactorWake []); Outbound (Drain TaskWake []); Outbound (PopInjection None); Inbound (Tick (Some tt))].
Definition events_2 : list ExecutorEvent :=
  events_1 ++
  [Inbound (Tick None); Outbound (Drain Deferred [1%Z]); Outbound (PopInjection None);
   Outbound (PollTask 1 (Some 1%Z) Ready); Outbound (Drain ReactorWake []); Outbound (Drain TaskWake []);
   Outbound (PopInjection None); Outbound Park; Outbound (Drain ReactorWake []); Outbound (Drain TaskWake []);
   Outbound (Drain ReactorWake []); Outbound (Drain TaskWake []); Outbound (PopInjection None); Inbound (Tick (Some tt))].

Lemma yield_log : log first_tick = events_1 ∧ log second_tick = events_2.
Proof. split; vm_compute; reflexivity. Qed.

(** Checks of every position of a list. *)
Lemma positions {A} (l : list A) (P : nat → A → Prop) :
  foldr and True (imap P l) → ∀ i x, l !! i = Some x → P i x.
Proof.
  revert P. induction l as [|y l IH]; intros P H i x Hi; [by destruct i|]. destruct H as [H1 H2].
  destruct i as [|i]; simplify_eq/=; [done|]. by apply (IH (P ∘ S)).
Qed.

Lemma polls_1 i tid t r :
  events_1 !! i = Some (Outbound (PollTask tid t r)) → tid = 1%Z ∧ i = 4 ∧ r = Pending.
Proof.
  intros H. apply (positions events_1 (λ i e, match e with
    | Outbound (PollTask tid _ r) => tid = 1%Z ∧ i = 4 ∧ r = Pending | _ => True end)) in H; [done|].
  by repeat split.
Qed.

Lemma polls_2 i tid t r :
  events_2 !! i = Some (Outbound (PollTask tid t r)) →
  tid = 1%Z ∧ (i = 4 ∧ r = Pending ∨ i = 18 ∧ r = Ready).
Proof.
  intros H. apply (positions events_2 (λ i e, match e with
    | Outbound (PollTask tid _ r) => tid = 1%Z ∧ (i = 4 ∧ r = Pending ∨ i = 18 ∧ r = Ready) | _ => True end)) in H; [done|].
  cbv [events_2 events_1 imap app foldr compose]. by repeat (split; [auto|]).
Qed.

Lemma drains_2 d ids : events_2 !! d = Some (Outbound (Drain Deferred ids)) → d = 1 ∨ ids = [1%Z].
Proof.
  intros H. apply (positions events_2 (λ d e, match e with
    | Outbound (Drain Deferred ids) => d = 1 ∨ ids = [1%Z] | _ => True end)) in H; [done|].
  cbv [events_2 events_1 imap app foldr compose]. by repeat (split; [auto|]).
Qed.

(** Task 1 has the log [lt], and no other task has one. *)
Lemma singleton_log lt tid lt' : ({[1%Z := lt]} : gmap Z TaskLog.Log) !! tid = Some lt' → tid = 1%Z ∧ lt' = lt.
Proof. by intros [-> ->]%lookup_singleton_Some. Qed.

Lemma singleton_events le lr lt q (P : nat → TaskLog.UtilityEvent → Prop) :
  foldr and True (imap P lt) → ∀ tid i pe, task_event (mkState le lr {[1%Z := lt]} q) tid i pe → tid = 1%Z ∧ P i pe.
Proof. intros H tid i pe (lt' & [-> ->]%singleton_log & Hi). split; [done|]. by apply (positions lt). Qed.

Lemma poll_logs_inv : TaskLog.utilities_inv first_poll ∧ TaskLog.utilities_inv (first_poll ++ second_poll).
Proof.
  assert (H : ∀ lt, foldr and True (imap (λ i pe, TaskLog.is_resource_operation pe = false ∧
    (TaskLog.is_poll_end_pending pe = true → i = 2)) lt) → TaskLog.has_active_wakeup_source lt 2 → TaskLog.utilities_inv lt).
  { intros lt H Hw. pose proof (positions lt _ H) as Hp. split; intros i (e & He & Hk); destruct (Hp i e He) as [H1 H2].
    - by rewrite (H2 Hk).
    - congruence. }
  split; apply H; try (by repeat split); right; right; left; exists 1, (TaskLog.Outbound TaskLog.Defer);
    (split; [exists 0; split; [done|lia]|done]).
Qed.

Lemma logs_of_1 :
  executor_log composed_1 = events_1 ∧ executor_log composed_2 = events_2 ∧
  reactor_log composed_1 = park_events 20 ∧ reactor_log composed_2 = park_events 20 ++ park_events 21.
Proof. by destruct yield_log as [<- <-]. Qed.

(** The operations of the run: there are none on the reactor. *)
Lemma quiet_logs lt :
  lt = first_poll ∨ lt = first_poll ++ second_poll →
  ∀ le lr q tid i pe, task_event (mkState le lr {[1%Z := lt]} q) tid i pe →
    is_reactor_operation pe = false ∧ TaskLog.is_woken pe = false ∧ TaskLog.is_register_io pe = false.
Proof.
  intros Hl le lr q tid i pe H.
  apply (singleton_events le lr lt q (λ _ pe, is_reactor_operation pe = false ∧ TaskLog.is_woken pe = false ∧
    TaskLog.is_register_io pe = false)) in H; [by destruct H|].
  destruct Hl as [-> | ->]; by repeat split.
Qed.

Lemma quiet_parks r re :
  park_events 20 !! r = Some re ∨ (park_events 20 ++ park_events 21) !! r = Some re →
  is_task_initiated_reactor_event re = false ∧ ReactorLog.succ_register_timer re = None.
Proof.
  intros [H|H]; [by apply (positions (park_events 20) (λ _ re, is_task_initiated_reactor_event re = false ∧
    ReactorLog.succ_register_timer re = None)) in H; [|repeat split]|by apply (positions (park_events 20 ++ park_events 21) (λ _ re,
    is_task_initiated_reactor_event re = false ∧ ReactorLog.succ_register_timer re = None)) in H; [|repeat split]].
Qed.

Lemma round_1 : composed_progress composed_0 composed_1.
Proof.
  destruct logs_of_1 as (E1 & _ & E3 & _). destruct yield_rounds as [Hx _]. destruct park_rounds as [Hr _].
  assert (Hpoll : ∀ i tid, is_poll_task_for_id_at (executor_log composed_1) i tid → tid = 1%Z).
  { intros i tid (t & r & H). rewrite E1 in H. by apply polls_1 in H as [? _]. }
  assert (Hend : task_log_ends_with_pending first_poll) by by eexists.
  apply quiet_progress; [| | |exact Hx|exact Hr|..].
  - intros tid i pe H. by destruct (quiet_logs first_poll (or_introl eq_refl) _ _ _ _ _ _ H) as [? _].
  - intros r re H. rewrite E3 in H. by destruct (quiet_parks r re) as [? _]; [left|].
  - split; [apply prefix_nil|]. split; [apply prefix_nil|]. done.
  - split; [intros tid [i Hi]; apply Hpoll in Hi as ->; by eexists|].
    by intros tid lt [-> ->]%singleton_log _.
  - split; [|split; [|split]].
    + intros tid H. exists 4. split; [simpl; lia|]. unfold task_len in H.
      destruct (task_logs composed_1 !! tid) as [lt|] eqn:E; [|simpl in H; lia].
      apply singleton_log in E as [-> _]. rewrite E1. by eexists _, _.
    + by intros tid i lt _ _ [-> ->]%singleton_log.
    + intros tid i _ Hi. apply Hpoll in Hi as ->. by eexists.
    + intros tid i _ _ [lt H]. destruct (lookup_empty_Some tid lt H).
  - unfold wakeup_routing_step. rewrite E1, E3. by vm_compute.
  - intros tid lt [-> ->]%singleton_log. apply poll_logs_inv.
  - rewrite E1. intros _. split; [by exists []|]. vm_compute. lia.
  - intros tid d ids [(lt & H & _) _]. destruct (lookup_empty_Some tid lt H).
  - intros tid d ids [[(lt & i & d' & w & rid & H & _)|(lt & rid & H & _)] _]; destruct (lookup_empty_Some tid lt H).
  - intros tid d ids [(lt & H & _) _]. destruct (lookup_empty_Some tid lt H).
Qed.

Lemma round_2 : composed_progress composed_1 composed_2.
Proof.
  destruct logs_of_1 as (E1 & E2 & E3 & E4). destruct yield_rounds as [_ Hx]. destruct park_rounds as [_ Hr].
  assert (Hpoll : ∀ i tid, is_poll_task_for_id_at (executor_log composed_2) i tid → tid = 1%Z).
  { intros i tid (t & r & H). rewrite E2 in H. by apply polls_2 in H as [? _]. }
  assert (Hready : ∀ i tid, length (executor_log composed_1) ≤ i →
    ¬ is_poll_pending_for_id_at (executor_log composed_2) i tid).
  { intros i tid Hi (t & H). rewrite E2 in H. rewrite E1 in Hi. simpl in Hi.
    apply polls_2 in H as (_ & [[-> _]|[_ ?]]); [lia|done]. }
  assert (Hquiet : ∀ tid i pe, task_event composed_1 tid i pe → TaskLog.is_woken pe = false ∧ TaskLog.is_register_io pe = false).
  { intros tid i pe H. by destruct (quiet_logs first_poll (or_introl eq_refl) _ _ _ _ _ _ H) as [_ ?]. }
  apply quiet_progress; [| | |exact Hx|exact Hr|..].
  - intros tid i pe H. by destruct (quiet_logs (first_poll ++ second_poll) (or_intror eq_refl) _ _ _ _ _ _ H) as [? _].
  - intros r re H. rewrite E4 in H. by destruct (quiet_parks r re) as [? _]; [right|].
  - unfold is_extension_of. rewrite E1, E2, E3, E4. split; [by eexists|]. split; [by eexists|]. split; [done|].
    intros tid lt [-> ->]%singleton_log. eexists. split; [apply lookup_singleton_eq|by exists second_poll].
  - split; [intros tid [i Hi]; apply Hpoll in Hi as ->; by eexists|].
    intros tid lt _ (i & [Hi Hlast] & Hpe). destruct Hpe as [t Hpe]. rewrite E2 in *.
    apply polls_2 in Hpe as (-> & [[-> _]|[_ ?]]); [|done].
    destruct (Hlast 18 ltac:(lia)). by eexists _, _.
  - split; [|split; [|split]].
    + intros tid H. exists 18. rewrite E1, E2. split; [simpl; lia|]. unfold task_len in H.
      destruct (task_logs composed_2 !! tid) as [lt|] eqn:E; [|simpl in H; lia].
      apply singleton_log in E as [-> _]. by eexists _, _.
    + intros tid i lt Hi H. by destruct (Hready i tid Hi).
    + intros tid i _ Hi. apply Hpoll in Hi as ->. by eexists.
    + intros tid i _ Hi _. apply Hpoll in Hi as ->. vm_compute. lia.
  - unfold wakeup_routing_step. rewrite E1, E2, E3, E4. by vm_compute.
  - intros tid lt [-> ->]%singleton_log. apply poll_logs_inv.
  - rewrite E2. intros _. split; [by exists []|]. vm_compute. lia.
  - intros tid d ids [(lt & [-> _]%singleton_log & _) _] Hd H. rewrite E2 in H. rewrite E1 in Hd. simpl in Hd.
    apply drains_2 in H as [->| ->]; [lia|by left].
  - intros tid d ids [[(lt & i & d' & w & rid & _ & H & _)|(lt & rid & Hlt & [[j H] _] & _)] _].
    + unfold ReactorLog.is_succ_register_timer_at in H. rewrite E3 in H. apply bind_Some in H as (re & H & Hre). destruct (quiet_parks i re (or_introl H)) as [_ ?]. congruence.
    + destruct H as (e & _ & He & Hre & _). destruct (Hquiet tid j e (ex_intro _ lt (conj Hlt He))) as [_ ?]. clear -H Hre. congruence.
  - intros tid d ids [(lt & Hlt & (j & e & _ & He & Hw)) _]. destruct (Hquiet tid j e (ex_intro _ lt (conj Hlt He))) as [? _]. clear -H Hw. congruence.
Qed.

Lemma composed_0_wf : composed_well_formed composed_0.
Proof.
  assert (Ht : ∀ tid i pe, ¬ task_event composed_0 tid i pe) by (intros tid i pe (lt & H & _); destruct (lookup_empty_Some tid lt H)).
  split.
  { destruct (reachable_inv (F := YieldNow.YieldNow) (W := list Z) [] 4 (new [] 4)) as (_ & H & _); [lia|apply r_init|].
    by apply module_inv_spec in H as [? _]. }
  split; [exact (rstate_inv _ _ rstate_new)|]. split; [|split].
  - apply quiet_mediation; [intros tid i (pe & H & _); by apply Ht in H|intros r (re & H & _); by destruct r].
  - split; [intros tid (i & t & r & H); by destruct i|intros tid lt H; destruct (lookup_empty_Some tid lt H)].
  - intros tid lt H. destruct (lookup_empty_Some tid lt H).
Qed.

End ComposedRun.
Import ComposedRun.

Module ComposedSpec.
Implicit Types (le : list ExecutorEvent) (lt : TaskLog.Log) (tid : Z) (s : ComposedState) (q : list Z).

(** A task in a wake queue is polled.  In the composed system, a task whose last poll
    is pending and which deferred itself, was woken by another task, or owns a timer or a
    resource whose waker was woken, is in the drain of the next round, and it is polled in
    as many more rounds as this round leaves tasks in the local queue. *)
Theorem wake_queues_polled s s1 tid :
  in_deferred_queue s tid ∨ reactor_wake_pending s tid ∨ taskwake_pending s tid →
  composed_progress s s1 →
  ∀ s', progress_n (progress composed_module_spec) s1 s' (length (fifo (executor_log s1))) →
    has_poll_task_for_id_after (executor_log s') tid (length (executor_log s)).
Proof.
  intros Hq (_ & He & _ & _ & _ & _ & _ & Hdd & Hrd & Htd) s' Hn%progress_n_nsteps%progress_executor.
  assert (Hd : ∃ source d ids, length (executor_log s) ≤ d ∧
    executor_log s1 !! d = Some (Outbound (Drain source ids)) ∧ tid ∈ ids).
  { destruct Hq as [Hq|[Hq|Hq]].
    - destruct (round_drains Deferred _ _ He) as (d & ids & Hd & Hl). exists Deferred, d, ids. split_and!; [done..|by eapply Hdd].
    - destruct (round_drains ReactorWake _ _ He) as (d & ids & Hd & Hl). exists ReactorWake, d, ids. split_and!; [done..|by eapply Hrd].
    - destruct (round_drains TaskWake _ _ He) as (d & ids & Hd & Hl). exists TaskWake, d, ids. split_and!; [done..|by eapply Htd]. }
  destruct Hd as (source & d & ids & Hd & Hl & Hin).
  destruct (queued_or_polled (executor_log s1) tid d _ Hl) as [(j & t & r & Hj & Hp)|[k Hk]%list_elem_of_lookup].
  - intros q. apply hands_over_queued. right. by exists source, ids.
  - eapply prefix_poll_after; [by eapply rounds_prefix|]. exists j, t, r. split; [lia|done].
  - destruct (rounds_poll _ _ _ _ _ Hn (lookup_lt_Some _ _ _ Hk) Hk) as (j & t & r & Hj & Hp).
    exists j, t, r. split; [|done]. apply lookup_lt_Some in Hl. lia.
Qed.

(** ** Delivery *)

(** A scheduled task is polled.  A task at any depth of the injection schedule is popped
    once the composed system has made as many rounds as the schedule is long, and polled
    in as many more rounds as tasks are queued then. *)
Theorem scheduled_task_polled s s1 s' tid k n :
  task_scheduled_at s tid k → length (injection_schedule s) ≤ n →
  progress_n (progress composed_module_spec) s s1 n →
  progress_n (progress composed_module_spec) s1 s' (length (fifo (executor_log s1))) →
  task_spawned_in (executor_log s1) tid ∧ has_poll_for_id (executor_log s') tid.
Proof.
  intros Hk Hn Hp Hp'%progress_n_nsteps%progress_executor.
  destruct (scheduled_task_delivered s s1 tid k n Hk Hn Hp) as [i Hi]. split; [by exists i|].
  assert (Hpoll : has_poll_task_for_id_after (executor_log s') tid 0).
  { destruct (queued_or_polled (executor_log s1) tid i _ Hi) as [(j & t & r & _ & Hl)|[m Hm]%list_elem_of_lookup].
    - intros q. apply hands_over_queued. by left.
    - eapply prefix_poll_after; [by eapply rounds_prefix|]. exists j, t, r. split; [lia|done].
    - destruct (rounds_poll _ _ _ _ _ Hp' (lookup_lt_Some _ _ _ Hm) Hm) as (j & t & r & _ & Hl).
      exists j, t, r. split; [lia|done]. }
  destruct Hpoll as (j & t & r & _ & Hl). by exists j, t, r.
Qed.

(** ** Waiting twice *)

(** An aligned state has at most one operation of a kind on a resource. *)
Definition same_operation (a b : TaskLog.UtilityEvent) : Prop :=
  ∀ re, succ_reactor_event_matches_task_operation re a ↔ succ_reactor_event_matches_task_operation re b.

Lemma one_operation s tid i j a b :
  action_mediation_state s → task_event s tid i a → task_event s tid j b →
  is_reactor_operation a = true → is_reactor_operation b = true → same_operation a b → i = j.
Proof.
  intros (Hex & Huniq & _) Ha Hb Hoa Hob Hsame.
  destruct (Hex tid i) as (r & pe & re & Hpe & Hre & Hm); [by exists a|].
  assert (pe = a) as ->.
  { destruct Hpe as (l & Hl & Hi), Ha as (l' & Hl' & Hi'). congruence. }
  destruct (Huniq tid tid i j r) as [_ ?]; [by exists a|by exists b|by exists a, re|exists b, re|done].
  split; [done|]. split; [done|]. by apply Hsame.
Qed.

Lemma sublist_two {A} (a b : A) l : [a; b] `sublist_of` l → ∃ i j, i < j ∧ l !! i = Some a ∧ l !! j = Some b.
Proof.
  intros (l1 & l2 & -> & (l3 & l4 & -> & _)%sublist_cons_l)%sublist_cons_l.
  exists (length l1), (length l1 + S (length l3)). split; [lia|]. split; [by apply list_lookup_middle|].
  rewrite lookup_app_r by lia. replace (_ - _) with (S (length l3)) by lia. simpl. by apply list_lookup_middle.
Qed.

Lemma not_aligned s tid lt a b :
  task_logs s !! tid = Some lt → [a; b] `sublist_of` lt → is_reactor_operation a = true →
  is_reactor_operation b = true → same_operation a b → ¬ action_mediation_state s.
Proof.
  intros Hl (i & j & Hij & Hi & Hj)%sublist_two Hoa Hob Hsame H.
  assert (i = j); [|lia]. apply (one_operation s tid i j a b); try done; by exists lt.
Qed.

(** What the log of a utility is in the log of its task. *)
Definition interest_view (interest : bool * bool) : TaskLog.Interest :=
  match interest with
  | (true, true) => TaskLog.ReadableWritable
  | (false, true) => TaskLog.Writable
  | _ => TaskLog.Readable
  end.

Definition task_view {M R} (e : UtilityLog.UtilityEvent M R) : option TaskLog.UtilityEvent :=
  match e with
  | UtilityLog.Inbound (UtilityLog.Tick _ _ None) => Some (TaskLog.Inbound (TaskLog.Poll None))
  | UtilityLog.Inbound (UtilityLog.Tick _ _ (Some UtilityLog.Pending)) =>
      Some (TaskLog.Inbound (TaskLog.Poll (Some TaskLog.Pending)))
  | UtilityLog.Inbound (UtilityLog.Tick _ _ (Some _)) => Some (TaskLog.Inbound (TaskLog.Poll (Some TaskLog.Ready)))
  | UtilityLog.Outbound (UtilityLog.RegisterTimer d _ (Some rid)) => Some (TaskLog.Outbound (TaskLog.RegisterTimer rid d))
  | UtilityLog.Outbound (UtilityLog.DeregisterTimer rid b) => Some (TaskLog.Outbound (TaskLog.DeregisterTimer rid b))
  | UtilityLog.Outbound (UtilityLog.RegisterIoResource _ int (Some (UtilityLog.Ok rid))) =>
      Some (TaskLog.Outbound (TaskLog.RegisterIo rid (interest_view int)))
  | UtilityLog.Outbound (UtilityLog.DeregisterIoResource rid _) => Some (TaskLog.Outbound (TaskLog.DeregisterIo rid))
  | UtilityLog.Outbound (UtilityLog.SetIoWaker rid int _ (UtilityLog.Ok _)) =>
      Some (TaskLog.Outbound (TaskLog.SetWaker rid (interest_view int) (Some tt)))
  | UtilityLog.Outbound UtilityLog.Defer => Some (TaskLog.Outbound TaskLog.Defer)
  | _ => None
  end.

(** The task logs of [s] show, at task [tid], a utility with log [l]. *)
Definition shows {M R} s tid (l : list (UtilityLog.UtilityEvent M R)) : Prop :=
  ∃ lt, task_logs s !! tid = Some lt ∧ omap task_view l `sublist_of` lt.

Lemma sublist_omap {A B} (f : A → option B) l1 l2 : l1 `sublist_of` l2 → omap f l1 `sublist_of` omap f l2.
Proof.
  induction 1 as [|x l1 l2 _ IH|x l1 l2 _ IH]; simpl; [done|destruct (f x)..]; try done; [by apply sublist_skip|by apply sublist_cons].
Qed.

Lemma shows_two {M R} s tid (l : list (UtilityLog.UtilityEvent M R)) ea eb a b :
  shows s tid l → [ea; eb] `sublist_of` l → task_view ea = Some a → task_view eb = Some b →
  is_reactor_operation a = true → is_reactor_operation b = true → same_operation a b → ¬ action_mediation_state s.
Proof.
  intros (lt & Hl & Hsub) Hab Hva Hvb. apply (not_aligned s tid lt a b Hl). etrans; [|exact Hsub].
  apply (sublist_omap task_view) in Hab. simpl in Hab. by rewrite Hva, Hvb in Hab.
Qed.

(** A sleep that is polled again while its timer is live keeps the id of the timer. *)
Lemma rearm_same_id r t x d w0 w :
  simulates r t → timers t !! x = Some (d, w0) →
  (Reactor.handle_register_timer (Reactor.handle_deregister_timer r x) d w).1 = UtilityLog.Ok x.
Proof.
  intros (T & H & ->) HT. simpl in HT. destruct (flush_spec r T _ H) as (H1 & _).
  unfold Reactor.handle_deregister_timer. set (r1 := Reactor.flush_pending_deregister r) in *.
  assert (Hq : Wheel.get_deadline (Reactor.wheel r1) x = Some d).
  { unfold Wheel.get_deadline. by rewrite (rc_queue _ _ _ (ri_core _ _ _ H1) x), lookup_fmap, HT. }
  rewrite Hq. unfold Reactor.handle_register_timer. simpl.
  destruct (slot_timer _ _ _ _ _ _ (ri_core _ _ _ H1) HT) as (e & He & _).
  rewrite Z.eqb_refl. unfold ResourceSlab.contains. rewrite He, bool_decide_eq_true_2 by by eexists. done.
Qed.

(** A sequence of polls of a socket. *)
Fixpoint socket_polls (k : NetIo.IoKernel) (ps : list (Z * NetIo.IoMethod * bool * bool)) :
    option (list NetIo.IoAction * NetIo.IoKernel) :=
  match ps with
  | [] => Some ([], k)
  | (w, m, ready, block) :: ps' =>
      '(a, k1) ← NetIo.poll_step k w m ready block;
      '(acts, k2) ← socket_polls k1 ps';
      Some (a :: acts, k2)
  end.

Definition suspensions (acts : list NetIo.IoAction) : nat :=
  length (filter (λ a, match a with NetIo.Arm => true | NetIo.Complete => false end = true) acts).

(** Two of the polls of the socket suspended, whatever they and the others were for. *)
Definition socket_waits_twice (k' : NetIo.IoKernel) : Prop :=
  ∃ k ps acts k2, socket_polls k ps = Some (acts, k2) ∧ 2 ≤ suspensions acts ∧ NetIo.log k2 `prefix_of` NetIo.log k'.

(** Two polls of the sleep suspended, one after the other, in a run of any number of sleeps and
    of the other clients of the reactor, with any steps of these in between. *)
Definition sleep_waits_twice (k' : Sleep.SleepKernel) : Prop :=
  ∃ (s s1 s2 s3 : SleepSpec.sys) i w1 raw1 w2 raw2 k3,
    SleepSpec.reach SleepSpec.sys_init s ∧ is_u64 raw1 ∧ is_u64 raw2 ∧
    SleepSpec.sys_step s (SleepSpec.PollSleep i w1 raw1) = Some (Some Sleep.PendingPoll, s1) ∧
    SleepSpec.reach_but i s1 s2 ∧
    SleepSpec.sys_step s2 (SleepSpec.PollSleep i w2 raw2) = Some (Some Sleep.PendingPoll, s3) ∧
    SleepSpec.sleeps s3 !! i = Some k3 ∧ Sleep.log k3 `prefix_of` Sleep.log k'.

Lemma socket_polls_log k ps acts k2 :
  socket_polls k ps = Some (acts, k2) → 0 < suspensions acts →
  ∃ x ws l, NetIo.rid k = Some x ∧ NetIo.log k2 = NetIo.log k ++ l ∧ length ws = suspensions acts ∧
    (NetIo.ev_set_io_waker x <$> ws) `sublist_of` l.
Proof.
  intros Hps Hpos. assert (Hx : is_Some (NetIo.rid k)).
  { destruct ps as [|[[[w m] ready] block] ps]; simpl in Hps; [injection Hps as <- <-; unfold suspensions in Hpos; simpl in Hpos; lia|].
    unfold NetIo.poll_step in Hps. by destruct (NetIo.rid k). }
  destruct Hx as [x Hx]. clear Hpos. exists x. revert k acts Hx Hps.
  induction ps as [|[[[w m] ready] block] ps IH]; intros k acts Hx Hps; simpl in Hps.
  { injection Hps as <- <-. exists [], []. rewrite app_nil_r. by split_and!. }
  unfold NetIo.poll_step in Hps. rewrite Hx in Hps. cbn [mbind option_bind] in Hps.
  apply bind_Some in Hps as ([acts2 k3] & Hps & [= <- <-]).
  destruct (IH (NetIo.mkKernel (Some x) _) acts2 eq_refl Hps) as (ws & l & _ & Hl & Hlen & Hsub). rewrite Hl. simpl.
  destruct (negb ready || block).
  - exists (w :: ws), (NetIo.io_step_segment x w m NetIo.OutWouldBlock ++ l). split; [done|].
    rewrite <- app_assoc. split; [done|]. split; [unfold suspensions in *; simpl; by rewrite Hlen|].
    simpl. apply sublist_cons, sublist_skip, sublist_cons. exact Hsub.
  - exists ws, (NetIo.io_step_segment x w m NetIo.OutReady ++ l). split; [done|].
    rewrite <- app_assoc. split; [done|]. split; [done|]. by apply sublist_inserts_l.
Qed.

Lemma suspend_log k r w raw k1 r1 :
  Sleep.poll k r w raw = (Sleep.PendingPoll, k1, r1) →
  ∃ x, Sleep.rid k1 = Some x ∧ Sleep.deadline k1 = Sleep.deadline k ∧
    Sleep.log k1 = Sleep.log k ++ Sleep.step_segment w (Sleep.deadline k) (Sleep.rid k) (Sleep.ArmedOk x) ∧
    (Reactor.handle_register_timer (Sleep.release k r) (Sleep.deadline k) w).1 = UtilityLog.Ok x.
Proof.
  unfold Sleep.poll, Sleep.poll_step. cbv zeta. destruct (Sleep.deadline k <=? Sleep.poll_now r raw)%Z eqn:E; [done|].
  destruct (Reactor.handle_register_timer _ _ _) as [[x|] r2] eqn:Er; rewrite ?E; intros [= <- <-].
  by exists x.
Qed.

Lemma registers_in_segment w d old x :
  UtilityLog.Outbound (UtilityLog.RegisterTimer d w (Some x)) ∈ Sleep.step_segment w d old (Sleep.ArmedOk x).
Proof. simpl. apply list_elem_of_further, elem_of_app. right. left. Qed.

(** C31. A second wait is in no aligned state.  The composed system demands that each
    operation of a task has an event of the reactor of its own, and compares kind and id
    only.  A task that suspends twice on a socket, in any two of its polls, or twice on a sleep,
    in two successive polls without a reset in between (which keeps, in the
    code, the id of the timer), is from then on in no state that meets this. *)
Theorem second_wait_not_aligned s tid :
  (∀ k, socket_waits_twice k → shows s tid (NetIo.log k) → ¬ action_mediation_state s) ∧
  (∀ k, sleep_waits_twice k → shows s tid (Sleep.log k) → ¬ action_mediation_state s).
Proof.
  split.
  - intros k' (k & ps & acts & k2 & Hps & Htwo & [lk Hpre]) Hs.
    destruct (socket_polls_log _ _ _ _ Hps ltac:(lia)) as (x & [|w1 [|w2 ws]] & l & _ & Hl & Hlen & Hsub); simpl in Hlen; [lia|lia|].
    eapply (shows_two s tid _ (NetIo.ev_set_io_waker x w1) (NetIo.ev_set_io_waker x w2) _ _ Hs); [|reflexivity..|done].
    rewrite Hpre, Hl. apply sublist_inserts_r, sublist_inserts_l. etrans; [|exact Hsub].
    simpl. do 2 apply sublist_skip. apply sublist_nil_l.
  - intros k' (s0 & s1 & s2 & s3 & i & w1 & raw1 & w2 & raw2 & k3 & Hr & Hu1 & Hu2 & H1 & Hbut & H2 & Hk3 & [lk Hpre]) Hs.
    destruct (SleepSpec.reach_init_sinv s0 Hr) as [t0 Hinv].
    destruct (SleepSpec.pending_keeps_timer s0 t0 i w1 raw1 s1 s2 w2 raw2 s3 Hinv Hu1 Hu2 H1 Hbut H2)
      as (k1 & x & t2 & Hi1 & Hi2 & Hx & Hsim & Ht).
    simpl in H1, H2. apply bind_Some in H1 as (k0 & _ & H1). rewrite Hi2 in H2. cbn [mbind option_bind] in H2.
    destruct (Sleep.poll k0 _ w1 raw1) as [[res1 k1'] r1] eqn:E1. injection H1 as -> <-.
    simpl in Hi1. rewrite lookup_insert_eq in Hi1. injection Hi1 as ->.
    destruct (Sleep.poll k1 _ w2 raw2) as [[res2 k2'] r2] eqn:E2. injection H2 as -> <-.
    simpl in Hk3. rewrite lookup_insert_eq in Hk3. injection Hk3 as ->.
    apply suspend_log in E1 as (x1 & Hx1 & Hd1 & L1 & _). apply suspend_log in E2 as (x2 & _ & _ & L2 & Hreg).
    assert (x1 = x) as -> by congruence. unfold Sleep.release in Hreg. rewrite Hx in Hreg.
    rewrite (rearm_same_id _ t2 x _ w1 w2 Hsim Ht) in Hreg. injection Hreg as <-.
    rewrite Hpre, L2, L1 in Hs.
    set (reg d w := UtilityLog.Outbound (UtilityLog.RegisterTimer d w (Some x)) : UtilityLog.UtilityEvent Sleep.SleepMethod unit).
    eapply (shows_two s tid _ (reg (Sleep.deadline k0) w1) (reg (Sleep.deadline k1) w2) _ _ Hs); [|reflexivity..|done]. apply sublist_inserts_r.
    rewrite <- app_assoc. apply sublist_inserts_l.
    apply (sublist_app [reg (Sleep.deadline k0) w1] _ [reg (Sleep.deadline k1) w2]); apply singleton_sublist_l, registers_in_segment.
Qed.

(** ** Spawning late *)

Section code.
Context {F W : Type} `{!Env F W}.
Implicit Types (e : Executor F W).

(** The loop of [pop_injection] ends with a receive that finds nothing. *)
Lemma pop_loop_empty fuel e :
  length (injection_queue e) < fuel →
  ∃ seg, log (pop_injection_loop fuel e) = log e ++ seg ++ [Outbound (PopInjection None)].
Proof.
  revert e. induction fuel as [|fuel IH]; intros e Hf; [lia|]. simpl. unfold pop_injection_action.
  destruct (injection_queue e) as [|task rest] eqn:Eq; [by exists []|].
  destruct (TidLedger.contains _ _) eqn:Ec; [by exists []|].
  destruct (IH (accept (record (set_ledger (set_injection e rest) (TidLedger.mark (ledger (set_injection e rest)) (id task)))
    (Outbound (PopInjection (Some (id task))))) task)) as [seg Hs]; [simpl in *; lia|].
  rewrite Hs. eexists (_ :: seg). simpl. by rewrite <- app_assoc.
Qed.

Lemma pop_injection_empty e :
  ∃ seg, log (pop_injection e) = log e ++ seg ++ [Outbound (PopInjection None)].
Proof.
  rewrite pop_injection_unfold. unfold pop_injection_action. destruct (injection_queue e) as [|task rest] eqn:Eq.
  - simpl. unfold pop_injection_action. rewrite Eq. by exists [].
  - destruct (TidLedger.contains _ _) eqn:Ec.
    + simpl. unfold pop_injection_action. rewrite Eq, Ec. by exists [].
    + apply pop_loop_empty. rewrite Eq. simpl. lia.
Qed.

Lemma tick_empty_pop e :
  data_inv e → ∃ seg seg', log (tick e) = log e ++ seg ++ Outbound (PopInjection None) :: seg'.
Proof.
  intros H. unfold tick. set (n := event_interval e). set (e1 := record e (Inbound (Tick None))).
  assert (H1 : data_inv e1).
  { unfold data_inv in *. apply (dinv_record e _ (Inbound (Tick None))) in H; [done|done|by left]. }
  destruct (drain_deferred_ok e1 H1) as [H2 (d & L2 & _)]. change (drain_deferred_into_local e1) with (wake_deferred e1) in *.
  set (e2 := wake_deferred e1) in *. destruct (pop_injection_ok e2 H2) as (H3 & _).
  destruct (pop_injection_empty e2) as [seg L3]. set (e3 := pop_injection e2) in *.
  pose proof (poll_loop_ok n 0 e3 H3 ltac:(lia)) as Hl1. destruct (poll_loop n 0 e3) as [c e4]. destruct Hl1.
  destruct (park_ok e4 lo_inv) as (H5 & _ & (r & t & L5)). set (e5 := park e4) in *.
  pose proof (poll_loop_ok n c e5 H5 ltac:(lia)) as Hl2. destruct (poll_loop n c e5) as [c' e6]. destruct Hl2.
  destruct lo_log as (w1 & L4 & _). destruct lo_log0 as (w2 & L6 & _).
  simpl. rewrite L6, L5, L4, L3, L2. simpl. eexists (_ :: _ :: seg), _. rewrite <- ?app_assoc. simpl. reflexivity.
Qed.

(** Ticks that have ended, and pops that found nothing. *)
Definition tick_count le : nat := length (filter (λ ev : ExecutorEvent, is_tick_end ev = true) le).
Definition empty_pops le : nat := length (filter (λ ev : ExecutorEvent, ev = Outbound (PopInjection None)) le).

Lemma count_pops le : count_pop_injection le = length (injected_tasks le) + empty_pops le.
Proof.
  unfold count_pop_injection, injected_tasks, empty_pops. induction le as [|x le IH]; [done|].
  rewrite !filter_cons. destruct x as [[]|[| | |[t|]]]; simpl; rewrite ?IH; first [done|lia].
Qed.

Lemma ticks_pop_empty reactor n e :
  0 < n → reachable reactor n e → tick_count (log e) ≤ empty_pops (log e).
Proof.
  intros Hn. induction 1 as [t Ht|e x He IH|e f He IH|e He IH]; [apply Nat.le_0_l|..];
    destruct (reachable_inv reactor n e Hn He) as (H & _).
  - destruct (run_external_inv e x H) as (_ & -> & _). done.
  - destruct (poll_main_inv e f H) as (_ & -> & _). done.
  - destruct (tick_ok e H) as (d & pops & w1 & r & t & w2 & Hl & _ & _ & _ & Fp & F1 & F2 & _).
    destruct (tick_empty_pop e H) as (seg & seg' & Hl'). rewrite Hl in Hl'. apply app_inv_head in Hl'. rewrite Hl.
    unfold tick_count, empty_pops in *. rewrite !filter_app, !length_app.
    assert (H1 : length (filter (λ ev : ExecutorEvent, is_tick_end ev = true) (tick_events (tick_body d pops w1 r t w2))) ≤ 1).
    { pose proof (tick_body_inner d pops w1 r t w2 Fp F1 F2) as Hin. unfold tick_events.
      rewrite filter_cons, decide_False by done. rewrite filter_app, length_app.
      assert (E : filter (λ ev : ExecutorEvent, is_tick_end ev = true) (tick_body d pops w1 r t w2) = []).
      { clear -Hin. induction Hin as [|x l Hx _ IHl]; [done|]. rewrite filter_cons, decide_False; [done|].
        by destruct x as [[[]]|]. }
      rewrite E. simpl. lia. }
    assert (H2 : 1 ≤ length (filter (λ ev : ExecutorEvent, ev = Outbound (PopInjection None))
      (tick_events (tick_body d pops w1 r t w2)))).
    { rewrite Hl', filter_app, length_app, filter_cons, decide_True by done. simpl. lia. }
    lia.
Qed.

(** C32. A late spawn is in no schedule.  The composed system demands that the injection
    schedule is delivered by the time that as many pops were made as it is long, and counts
    the pops that find nothing, of which each tick of the code makes one.  When the executor
    has made [k] ticks, a schedule of which between 1 and [k] tasks are still to come
    is in no state that a round reaches. *)
Theorem late_spawn_breaks_schedule reactor n e s s' :
  0 < n → reachable reactor n e → executor_log s' = log e →
  length (injected_tasks (log e)) < length (injection_schedule s') ≤
    length (injected_tasks (log e)) + tick_count (log e) →
  ¬ composed_progress s s'.
Proof.
  intros Hn He Hl Hq (_ & _ & _ & _ & _ & _ & Hd & _). pose proof (ticks_pop_empty reactor n e Hn He) as Ht.
  destruct Hd as [_ Hall]; [lia|]. rewrite Hl, count_pops in Hall. specialize (Hall ltac:(lia)). lia.
Qed.
End code.

(** ** Witnesses *)

Lemma defers_1 : in_deferred_queue composed_1 1.
Proof.
  destruct logs_of_1 as (E1 & _). split.
  - exists first_poll. split; [done|]. exists 1, (TaskLog.Outbound TaskLog.Defer).
    split; [exists 0; split; [done|vm_compute; lia]|done].
  - unfold not_drained. rewrite E1. exists 4. split; [split|split].
    + by eexists _, _.
    + intros j Hj (t & r & H). apply polls_1 in H as (_ & -> & _). lia.
    + by eexists.
    + intros (d & Hd & ids & H & _).
      apply (positions events_1 (λ d e, match e with Outbound (Drain Deferred _) => d = 1 | _ => True end)) in H; [lia|].
      by repeat split.
Qed.

Lemma wake_queues_polled_witness :
  composed_progress composed_1 composed_2 ∧
  has_poll_task_for_id_after (executor_log composed_2) 1 (length (executor_log composed_1)).
Proof.
  split; [exact round_2|]. apply (wake_queues_polled composed_1 composed_2 1); [left; exact defers_1|exact round_2|].
  apply progress_n_nsteps. replace (length _) with 0; [constructor|].
  destruct logs_of_1 as (_ & -> & _). vm_compute. reflexivity.
Defined.

Lemma scheduled_task_polled_witness : task_scheduled_at composed_0 1 0 ∧ has_poll_for_id (executor_log composed_1) 1.
Proof.
  split; [vm_compute; reflexivity|]. apply (scheduled_task_polled composed_0 composed_1 composed_1 1 0 1).
  - vm_compute. reflexivity.
  - simpl. lia.
  - apply progress_n_nsteps, nsteps_once. exact round_1.
  - apply progress_n_nsteps. replace (length _) with 0; [constructor|].
    destruct logs_of_1 as (-> & _). vm_compute. reflexivity.
Defined.

(** The first tick, with another task in the schedule. *)
Definition late_spawn : ComposedState := mkState (log first_tick) (park_events 20) {[1%Z := first_poll]} [1; 2]%Z.

Lemma late_spawn_breaks_schedule_witness : ¬ composed_progress composed_0 late_spawn.
Proof.
  apply (late_spawn_breaks_schedule [] 4 first_tick); [lia|exact (proj1 yield_reachable)|reflexivity|].
  destruct yield_log as [-> _]. vm_compute. split; repeat constructor.
Defined.

(** A socket that is polled for reading, written to without a wait, and polled for writing. *)
Definition socket_polled : list (Z * NetIo.IoMethod * bool * bool) :=
  [(7%Z, NetIo.Read, false, true); (7%Z, NetIo.Write, true, false); (8%Z, NetIo.Write, true, true)].
Definition twice_polled_socket : NetIo.IoKernel := default (NetIo.new 1) (snd <$> socket_polls (NetIo.new 1) socket_polled).

(** A sleep to 50, polled before and after a park at 20. *)
Definition after (s : SleepSpec.sys) (os : list SleepSpec.op) : SleepSpec.sys :=
  foldl (λ (y : SleepSpec.sys) o, default y (snd <$> SleepSpec.sys_step y o)) s os.
Definition first_sleep : SleepSpec.sys := after SleepSpec.sys_init [SleepSpec.Spawn 0 50].
Definition first_wait : SleepSpec.sys := after first_sleep [SleepSpec.PollSleep 0 7 10].
Definition first_park : SleepSpec.sys := after first_wait [SleepSpec.Other (ReactorSpec.Park None 20 (λ _, UtilityLog.Ok []))].
Definition second_wait : SleepSpec.sys := after first_park [SleepSpec.PollSleep 0 8 20].
Definition twice_polled_sleep : Sleep.SleepKernel := default (Sleep.new 0) (SleepSpec.sleeps second_wait !! 0).

Lemma sleep_reached : SleepSpec.reach SleepSpec.sys_init first_sleep ∧ SleepSpec.reach SleepSpec.sys_init first_wait.
Proof.
  assert (H : SleepSpec.reach SleepSpec.sys_init first_sleep).
  { apply (SleepSpec.reach_step _ SleepSpec.sys_init service_init (SleepSpec.Spawn 0 50) None);
      [apply SleepSpec.reach_refl|apply simulates_new| |vm_compute; reflexivity]. split; [done|u64]. }
  split; [done|].
  assert (Hr : SleepSpec.reactor first_sleep = Reactor.new) by (vm_compute; reflexivity).
  apply (SleepSpec.reach_step _ first_sleep service_init (SleepSpec.PollSleep 0 7 10) (Some Sleep.PendingPoll));
    [exact H|rewrite Hr; apply simulates_new|simpl; u64|vm_compute; reflexivity].
Qed.

Definition one_task (lt : TaskLog.Log) : ComposedState := mkState [] [] {[1%Z := lt]} [].

Lemma second_wait_not_aligned_witness :
  ¬ action_mediation_state (one_task (omap task_view (NetIo.log twice_polled_socket))) ∧
  ¬ action_mediation_state (one_task (omap task_view (Sleep.log twice_polled_sleep))).
Proof.
  split.
  - apply (second_wait_not_aligned _ 1) with (k := twice_polled_socket); [|by eexists].
    eexists (NetIo.new 1), socket_polled, _, twice_polled_socket. split; [vm_compute; reflexivity|].
    split; [vm_compute; lia|done].
  - apply (second_wait_not_aligned _ 1) with (k := twice_polled_sleep); [|by eexists].
    exists first_sleep, first_wait, first_park, second_wait, 0, 7%Z, 10%Z, 8%Z, 20%Z, twice_polled_sleep.
    split; [apply sleep_reached|].
    split; [u64|]. split; [u64|]. split; [vm_compute; reflexivity|].
    split; [|split; [vm_compute; reflexivity|split; [vm_compute; reflexivity|done]]].
    destruct (SleepSpec.reach_init_sinv first_wait (proj2 sleep_reached)) as [t Ht].
    apply (SleepSpec.reach_but_step 0 first_wait first_wait t (SleepSpec.Other (ReactorSpec.Park None 20 (λ _, UtilityLog.Ok []))) None);
      [apply SleepSpec.reach_but_refl|apply (SleepSpec.sv_sim _ _ Ht)| |done|vm_compute; reflexivity].
    split; [u64|done].
Defined.

End ComposedSpec.
