(* ===== verification/EndToEnd.v ===== *)
(** * EndToEnd: the end-to-end theorem of the liveness development

    [lion-liveness/src/composed/spec/assumptions.rs] and
    [composed/proof/assumption_satisfiable.rs] state what the environment of the composed
    system owes: clocks that advance, devices and other tasks that answer within a bound, tasks
    that are done after a bounded number of polls, a bounded queue.  Under these assumptions a
    task that is spawned is polled until it is ready, within an explicit number of rounds.  The
    theorem is proved here on [Composed], whose rounds are those of the modelled modules. *)

From S2P Require Import Prelude Store Slab TidLedger ExecLog Tls Executor.
From S2P Require Import ExecInv ExecOps ExecTick ExecSpec Framework Contracts TaskLog.
From S2P Require Import Prelude ReactorLog ReactorIoLog ReactorIoSpec ReactorSyscallLog ReactorContracts ReactorIoContract.
From S2P Require Import Composed ComposedSpec.
Import LogTrace.
Import ExecLog Framework Contracts ReactorContracts ReactorIoContract Composed ComposedRun.

Module EndToEnd.
Implicit Types (le : list ExecutorEvent) (lr : list ReactorLog.ReactorEvent) (lt : TaskLog.Log).
Implicit Types (tid rid : Z) (i j d n cap : nat) (s : ComposedState).

(** ** The environment *)

Definition is_poll_of tid (e : ExecutorEvent) : bool :=
  match e with Outbound (PollTask tid' _ _) => bool_decide (tid' = tid) | _ => false end.
Definition count_polls_for_tid le tid : nat := length (filter (λ e, is_poll_of tid e = true) le).

Definition bounded_poll_count_here_with_bound s tid (n : nat) : Prop :=
  n ≤ count_polls_for_tid (executor_log s) tid → task_polled_to_ready (executor_log s) tid.

(** A device reports within [n] polls of the system, unless it was taken out. *)
Definition io_ready_forward_here lr rid (n : nat) : Prop :=
  ∀ sw int w, find_last_set_waker_for_rid lr rid (length lr) = Some sw →
    lr !! sw ≫= ReactorIoLog.succ_set_waker = Some (rid, int, w) →
    n ≤ ReactorIoLog.count_poll_events_in_range lr sw (length lr) →
    (∀ j, sw < j → ¬ ReactorSyscallLog.io_syscall_deregistered_at lr j rid) →
    has_io_event_ready_matching_interest_after lr rid int sw.

Definition io_rid_current_poll_awaited s rid : Prop :=
  ∃ tid lt, task_logs s !! tid = Some lt ∧ TaskLog.is_io_active lt rid (last_idx lt) ∧
    TaskLog.has_waker_set_in_current_poll lt rid (last_idx lt) ∧ last_poll_is_pending (executor_log s) tid.
Definition contract_io_assumption_here s : Prop :=
  ∀ rid, io_rid_current_poll_awaited s rid → io_remains_active_assumption (reactor_log s) rid.

(** Clocks. *)
Fixpoint max_timestamp_up_to lr (i : nat) : Z :=
  match i with
  | 0 => 0%Z
  | S i' =>
      match lr !! i' ≫= ReactorLog.current_timestamp with
      | Some t => if (max_timestamp_up_to lr i' <? t)%Z then t else max_timestamp_up_to lr i'
      | None => max_timestamp_up_to lr i'
      end
  end.
Definition compute_bound (deadline current_max_ts : Z) : nat :=
  if (deadline <=? current_max_ts)%Z then 1 else Z.to_nat (deadline - current_max_ts) + 1.

Definition timer_resources_remain_active s : Prop :=
  ∀ i, trigger_at (reactor_log s) i → timer_reg_current_poll_owned s i →
    timer_not_deregistered_through (reactor_log s) i (length (reactor_log s)).

(** Other tasks. *)
Definition count_tick_ends_between le (start finish : nat) : nat :=
  length (filter (λ e, is_tick_end e = true) (take (finish - start) (skipn start le))).
Definition taskwake_drained_in le tid (start finish : nat) : Prop :=
  ∃ d, start < d < finish ∧ drains_at TaskWake le d tid.
Definition taskwake_arrival_within s tid (n : nat) : Prop :=
  ∀ lt i d ids, task_logs s !! tid = Some lt → TaskLog.has_pass_waker_in_current_poll lt (last_idx lt) →
    is_last_poll (executor_log s) tid i → is_poll_pending_for_id_at (executor_log s) i tid → i < d →
    executor_log s !! d = Some (Outbound (Drain TaskWake ids)) →
    ¬ taskwake_drained_in (executor_log s) tid i d → n ≤ count_tick_ends_between (executor_log s) i d → tid ∈ ids.

Section bounds.
(** The bounds of the source, which are left open there too: on the rounds to a deadline, on
    the polls to an event of a device, and on the length of the local queue. *)
Context (max_timer_deadline_gap io_ready_bound max_queue_length : nat).

Definition timer_deadline_gap_bounded s : Prop :=
  ∀ i (d w rid : Z), ReactorLog.is_succ_register_timer_at (reactor_log s) i d w rid →
    timer_not_deregistered_through (reactor_log s) i (length (reactor_log s)) →
    compute_bound d (max_timestamp_up_to (reactor_log s) (i + 1)) ≤ max_timer_deadline_gap.

Definition queue_length_bounded s : Prop := queue_bound_at (executor_log s) max_queue_length.

Definition end_to_end_env s tid : Prop :=
  timestamps_strictly_increasing (reactor_log s) ∧ timestamps_positive (reactor_log s) ∧
  timer_deadline_gap_bounded s ∧ timer_resources_remain_active s ∧ queue_length_bounded s ∧
  tid_unique (executor_log s) tid ∧ contract_io_assumption_here s.

Definition env_N s tid cap : Prop :=
  end_to_end_env s tid ∧ bounded_poll_count_here_with_bound s tid cap ∧
  (∀ rid, io_ready_forward_here (reactor_log s) rid io_ready_bound) ∧ taskwake_arrival_within s tid cap.

(** ** The goal *)

(** The next round pops the task. *)
Definition task_delivered_next_tick s tid : Prop :=
  ∀ s1, composed_progress s s1 → task_spawned_in (executor_log s1) tid.

Definition ete_reachable_N s s1 (n : nat) cap tid : Prop :=
  env_progress_n (progress composed_module_spec) s s1 n (λ s2 tid2, env_N s2 tid2 cap) tid.
Definition ete_reaches_goal_N s tid cap (n : nat) : Prop :=
  ∀ s1, ete_reachable_N s s1 n cap tid → task_polled_to_ready (executor_log s1) tid.
Definition ete_reaches_goal_for_cap s tid cap : Prop := ∃ n, ete_reaches_goal_N s tid cap n.

End bounds.

(** ** Logs of the executor *)

(** A search from a position on is decidable. *)
Lemma search_dec {A} (P : A → bool) (l : list A) (start : nat) :
  (∃ j x, start ≤ j ∧ l !! j = Some x ∧ P x = true) ∨ (∀ j x, start ≤ j → l !! j = Some x → P x = false).
Proof.
  destruct (existsb P (skipn start l)) eqn:E.
  - left. apply existsb_exists in E as (x & [j Hj]%list_elem_of_In%list_elem_of_lookup & Hx).
    exists (start + j), x. split; [lia|]. by rewrite <- lookup_drop.
  - right. intros j x Hj Hl. destruct (P x) eqn:Ex; [|done]. rewrite <- E. symmetry. apply existsb_exists.
    exists x. split; [|done]. apply list_elem_of_In, (list_elem_of_lookup_2 _ (j - start)).
    rewrite lookup_drop. by replace (start + (j - start)) with j by lia.
Qed.

Lemma is_poll_of_spec tid (e : ExecutorEvent) : is_poll_of tid e = true ↔ ∃ t r, e = Outbound (PollTask tid t r).
Proof.
  split; [|intros (t & r & ->); by apply bool_decide_eq_true].
  destruct e as [|[]]; simpl; try done. intros ->%bool_decide_eq_true. by eexists _, _.
Qed.

Lemma polled_dec le tid (start : nat) :
  has_poll_task_for_id_after le tid start ∨ ¬ has_poll_task_for_id_after le tid start.
Proof.
  destruct (search_dec (is_poll_of tid) le start) as [(j & e & Hj & He & (t & r & ->)%is_poll_of_spec)|Hno].
  - left. by exists j, t, r.
  - right. intros (j & t & r & Hj & He). specialize (Hno j _ Hj He).
    by rewrite (proj2 (is_poll_of_spec tid _) (ex_intro _ t (ex_intro _ r eq_refl))) in Hno.
Qed.

Definition drains_of (source : DrainSource) tid (e : ExecutorEvent) : bool :=
  match e with Outbound (Drain src ids) => bool_decide (src = source ∧ tid ∈ ids) | _ => false end.

Lemma drained_dec source le tid (start : nat) : drained_after source le tid start ∨ ¬ drained_after source le tid start.
Proof.
  destruct (search_dec (drains_of source tid) le (S start)) as [(d & e & Hd & He & Hs)|Hno].
  - left. exists d. split; [lia|]. destruct e as [|[|src ids| |]]; try done. apply bool_decide_eq_true in Hs as [-> ?]. by exists ids.
  - right. intros (d & Hd & ids & He & Hin). specialize (Hno d _ ltac:(lia) He). simpl in Hno.
    apply bool_decide_eq_false in Hno. by destruct Hno.
Qed.

Lemma last_poll_exists le tid : has_poll_for_id le tid → ∃ i, is_last_poll le tid i.
Proof.
  intros (i & t & r & Hi). induction le as [|e le IH] using rev_ind; [by destruct i|].
  destruct (is_poll_of tid e) eqn:E.
  - apply is_poll_of_spec in E as (t' & r' & ->). exists (length le). split.
    + exists t', r'. by apply list_lookup_middle.
    + intros j Hj (t2 & r2 & Hl%lookup_lt_Some). rewrite length_app in Hl. simpl in Hl. lia.
  - assert (Hlast : ∀ j, j = length le → ¬ is_poll_task_for_id_at (le ++ [e]) j tid).
    { intros j -> (t2 & r2 & Hl). rewrite list_lookup_middle in Hl by done. injection Hl as ->.
      by rewrite (proj2 (is_poll_of_spec tid _) (ex_intro _ t2 (ex_intro _ r2 eq_refl))) in E. }
    apply lookup_app_Some in Hi as [Hi|[Hge Hi]].
    + destruct (IH Hi) as (k & (t' & r' & Hk) & Hno). exists k. split; [exists t', r'; by apply lookup_app_l_Some|].
      intros j Hj Hp. pose proof Hp as (t2 & r2 & Hl). apply lookup_app_Some in Hl as [Hl|[Hge Hl]].
      * apply (Hno j Hj). by exists t2, r2.
      * apply (Hlast j); [|done]. apply list_lookup_singleton_Some in Hl as [? _]. lia.
    + apply list_lookup_singleton_Some in Hi as [Hz ->].
      by rewrite (proj2 (is_poll_of_spec tid _) (ex_intro _ t (ex_intro _ r eq_refl))) in E.
Qed.

Lemma last_poll_unique le tid i j : is_last_poll le tid i → is_last_poll le tid j → i = j.
Proof.
  intros [Hi Hni] [Hj Hnj]. destruct (decide (i < j)); [by destruct (Hni j)|]. destruct (decide (j < i)); [by destruct (Hnj i)|]. lia.
Qed.

Lemma ready_prefix le le' tid : le `prefix_of` le' → task_polled_to_ready le tid → task_polled_to_ready le' tid.
Proof. intros [seg ->] (i & t & Hi). exists i, t. by apply lookup_app_l_Some. Qed.

(** A task whose last poll found it invalid was ready before. *)
Lemma last_poll_cases le tid i :
  module_inv le → is_last_poll le tid i → is_poll_pending_for_id_at le i tid ∨ task_polled_to_ready le tid.
Proof.
  intros (_ & _ & Hv & _) [(t & r & Hi) _]. destruct r; [right; by exists i, t|left; by exists t|right].
  destruct (Hv i ltac:(apply is_poll_at; by eexists _, _, _) tid t Invalid Hi) as [Hinj [Hinv _]].
  destruct (Hinv eq_refl) as [(j & t' & _ & Hj)|?]; [by exists j, t'|done].
Qed.

(** More polls are counted. *)
Lemma count_grows le le' tid :
  le `prefix_of` le' → has_poll_task_for_id_after le' tid (length le) →
  S (count_polls_for_tid le tid) ≤ count_polls_for_tid le' tid.
Proof.
  intros [seg ->] (j & t & r & Hj & Hl). unfold count_polls_for_tid. rewrite filter_app, length_app.
  rewrite lookup_app_r in Hl by done.
  assert (Hin : Outbound (PollTask tid t r) ∈ filter (λ e, is_poll_of tid e = true) seg).
  { apply list_elem_of_filter. split; [apply is_poll_of_spec; by eexists _, _|by eapply list_elem_of_lookup_2]. }
  destruct (filter _ seg); [by apply not_elem_of_nil in Hin|simpl; lia].
Qed.


(** ** A task that waits *)

(** The task [tid] was polled last at [i], which left it pending with the log [lt]. *)
Record waiting s tid lt i : Prop := {
  wt_wf : composed_well_formed s;
  wt_log : task_logs s !! tid = Some lt;
  wt_last : is_last_poll (executor_log s) tid i;
  wt_pending : is_poll_pending_for_id_at (executor_log s) i tid;
}.

Lemma waiting_index s tid lt i : waiting s tid lt i → i < length (executor_log s).
Proof. intros [_ _ [(t & r & H) _] _]. by eapply lookup_lt_Some. Qed.

Lemma round_extends s s1 : composed_progress s s1 → is_extension_of s s1.
Proof. by intros (? & _). Qed.

Lemma rounds_extension n s s1 : nsteps composed_progress n s s1 → is_extension_of s s1.
Proof.
  induction 1 as [s|n s s1 s2 (E1 & E2 & E3 & E4)%round_extends _ (F1 & F2 & F3 & F4)].
  - split; [done|]. split; [done|]. split; [done|]. intros tid lt H. by exists lt.
  - split; [by etrans|]. split; [by etrans|]. split; [congruence|].
    intros tid lt (lt1 & H1 & P1)%E4. destruct (F4 _ _ H1) as (lt2 & H2 & P2). exists lt2. split; [done|by etrans].
Qed.

Lemma rounds_wf n s s1 : composed_well_formed s → nsteps composed_progress n s s1 → composed_well_formed s1.
Proof. intros H. induction 1 as [|n s s1 s2 Hp _ IH]; [done|]. apply IH. by apply (progress_keeps_wf s s1). Qed.

Lemma rounds_reactor n s s1 :
  nsteps composed_progress n s s1 → nsteps reactor_progress n (reactor_log s) (reactor_log s1).
Proof. induction 1 as [|n s s1 s2 (_ & _ & Hr & _) _ IH]; [constructor|by eapply nsteps_l]. Qed.

(** A log that is not polled does not grow. *)
Lemma log_unpolled n s s1 tid lt :
  nsteps composed_progress n s s1 → task_logs s !! tid = Some lt →
  ¬ has_poll_task_for_id_after (executor_log s1) tid (length (executor_log s)) → task_logs s1 !! tid = Some lt.
Proof.
  induction 1 as [s|n s s1 s2 Hp Hs IH]; [done|]. intros Hl Hno.
  pose proof (round_extends _ _ Hp) as (E1 & _ & _ & E4). destruct (E4 _ _ Hl) as (lt1 & Hl1 & Hpre).
  pose proof (rounds_extension _ _ _ Hs) as (F1 & _).
  assert (lt1 = lt) as ->.
  { destruct (decide (length lt < length lt1)) as [Hlt|].
    - destruct Hp as (_ & _ & _ & (_ & _ & _ & (Hpoll & _) & _) & _).
      destruct (Hpoll tid) as (i & Hi & t & r & Hir); [unfold task_len; rewrite Hl, Hl1; done|].
      destruct Hno. exists i, t, r. split; [done|]. destruct F1 as [seg ->]. by apply lookup_app_l_Some.
    - symmetry. apply prefix_length_eq; [done|lia]. }
  apply IH; [done|]. intros (j & t & r & Hj & Hjl). apply Hno. exists j, t, r. split; [|done].
  apply prefix_length in E1. lia.
Qed.

Lemma waiting_stays n s s1 tid lt i :
  waiting s tid lt i → nsteps composed_progress n s s1 →
  ¬ has_poll_task_for_id_after (executor_log s1) tid (length (executor_log s)) → waiting s1 tid lt i.
Proof.
  intros Hw Hs Hno. pose proof (rounds_extension _ _ _ Hs) as (E1 & _). pose proof (waiting_index _ _ _ _ Hw) as Hi.
  destruct Hw as [Hwf Hl [(t & r & Hp) Hlast] [t' Hpend]].
  split; [by eapply rounds_wf|by eapply log_unpolled| |].
  - split; [exists t, r; destruct E1 as [seg ->]; by apply lookup_app_l_Some|].
    intros j Hj (t2 & r2 & Hp2). destruct (decide (j < length (executor_log s))) as [Hlt|Hge].
    + apply (Hlast j Hj). exists t2, r2. destruct E1 as [seg E1]. rewrite E1, lookup_app_l in Hp2 by done. done.
    + apply Hno. exists j, t2, r2. split; [lia|done].
  - exists t'. destruct E1 as [seg ->]. by apply lookup_app_l_Some.
Qed.

(** ** From the queues to the poll *)

(** A task that a drain took is polled while the queue lasts. *)
Lemma drained_polled B s s1 tid lt i source n :
  waiting s tid lt i → drained_after source (executor_log s) tid i → queue_length_bounded B s →
  nsteps composed_progress n s s1 → B ≤ n → has_poll_task_for_id_after (executor_log s1) tid (length (executor_log s)).
Proof.
  intros Hw (d & Hd & ids & Hl & Hin) Hq Hs Hn.
  destruct (queued_or_polled (executor_log s) tid d _ Hl) as [(j & t & r & Hj & Hp)|[k Hk]%list_elem_of_lookup].
  - intros q. apply hands_over_queued. right. by exists source, ids.
  - exfalso. destruct Hw as [_ _ [_ Hlast] _]. apply (Hlast j); [lia|]. by exists t, r.
  - apply (rounds_poll n _ _ _ k); [by apply progress_executor|..|done].
    specialize (Hq (length (executor_log s)) ltac:(lia)). apply lookup_lt_Some in Hk. unfold fifo in Hk. lia.
Qed.

(** A task in a wake queue is taken by the next round. *)
Lemma arrival_drained s s1 tid lt i :
  waiting s tid lt i → composed_progress s s1 →
  defer_arrival s tid ∨ reactor_wake_arrival s tid ∨ taskwake_arrival s tid →
  ∃ source, drained_after source (executor_log s1) tid i.
Proof.
  intros Hw Hp Ha. pose proof (waiting_index _ _ _ _ Hw) as Hi.
  assert (H : ∀ source (arrival pending : ComposedState → Z → Prop),
    (arrival s tid → not_drained source (executor_log s) tid → pending s tid) →
    arrival s tid → drain_step source pending s s1 → drained_after source (executor_log s1) tid i).
  { intros source arrival pending Hpend Harr Hstep. pose proof (round_extends _ _ Hp) as ([seg E1] & _).
    destruct (drained_dec source (executor_log s) tid i) as [(d & Hd & ids & Hl & Hin)|Hno].
    - exists d. split; [done|]. exists ids. split; [|done]. rewrite E1. by apply lookup_app_l_Some.
    - destruct Hp as (_ & He & _). destruct (round_drains source _ _ He) as (d & ids & Hd & Hl).
      exists d. split; [lia|]. exists ids. split; [done|]. apply (Hstep tid d ids); [|done..].
      apply Hpend; [done|]. exists i. by destruct Hw. }
  pose proof Hp as (_ & _ & _ & _ & _ & _ & _ & H1 & H2 & H3).
  destruct Ha as [Ha|[Ha|Ha]]; [exists Deferred|exists ReactorWake|exists TaskWake];
    [apply (H _ defer_arrival in_deferred_queue)|apply (H _ reactor_wake_arrival reactor_wake_pending)|
     apply (H _ taskwake_arrival taskwake_pending)]; try done; by split.
Qed.

(** What is waking the task: the last event of its log ends a pending poll. *)
Lemma waiting_source s tid lt i : waiting s tid lt i → TaskLog.has_active_wakeup_source lt (last_idx lt).
Proof.
  intros [(_ & _ & _ & [_ Hend] & Hu) Hl Hlast Hp].
  destruct (Hend tid lt Hl) as (pe & Hpe & Hk); [by exists i|]. destruct (Hu tid lt Hl) as [Hw _].
  apply Hw. exists pe. split; [|done]. by rewrite last_lookup in Hpe.
Qed.

(** ** Timers *)

Lemma max_timestamp_bound lr i j (t : Z) :
  j < i → lr !! j ≫= ReactorLog.current_timestamp = Some t → (t ≤ max_timestamp_up_to lr i)%Z.
Proof.
  induction i as [|i IH]; intros Hj Ht; [lia|]. simpl.
  destruct (decide (j = i)) as [->|]; [rewrite Ht; case_cmp; lia|]. specialize (IH ltac:(lia) Ht).
  destruct (lr !! i ≫= ReactorLog.current_timestamp); [case_cmp; lia|done].
Qed.

Lemma max_timestamp_attained lr i :
  max_timestamp_up_to lr i = 0%Z ∨
  ∃ j, j < i ∧ lr !! j ≫= ReactorLog.current_timestamp = Some (max_timestamp_up_to lr i).
Proof.
  induction i as [|i IH]; [by left|]. simpl.
  destruct (lr !! i ≫= ReactorLog.current_timestamp) as [t|] eqn:Et.
  - destruct (max_timestamp_up_to lr i <? t)%Z; [right; exists i; split; [lia|done]|].
    destruct IH as [->|(j & Hj & Hjt)]; [by left|right; exists j; split; [lia|done]].
  - destruct IH as [->|(j & Hj & Hjt)]; [by left|right; exists j; split; [lia|done]].
Qed.

(** A clock that advances shows more than before. *)
Lemma new_timestamp lr i j (t : Z) :
  timestamps_strictly_increasing lr → timestamps_positive lr → i ≤ j →
  lr !! j ≫= ReactorLog.current_timestamp = Some t → (max_timestamp_up_to lr i < t)%Z.
Proof.
  intros Hi Hp Hj Ht. destruct (max_timestamp_attained lr i) as [->|(k & Hk & Hkt)].
  - specialize (Hp _ _ Ht). lia.
  - apply (Hi k j); [lia|done..].
Qed.

Lemma operation_matched s tid lt k pe :
  composed_well_formed s → task_logs s !! tid = Some lt → lt !! k = Some pe → is_reactor_operation pe = true →
  ∃ r re, matches s tid k r ∧ reactor_log s !! r = Some re ∧ succ_reactor_event_matches_task_operation re pe.
Proof.
  intros (_ & _ & (Hex & _) & _) Hl Hk Ho.
  destruct (Hex tid k) as (r & pe' & re & (lt' & Hl' & Hk') & Hre & Hm); [exists pe; split; [by exists lt|done]|].
  assert (pe' = pe) as -> by congruence. exists r, re. split; [|done]. exists pe, re. split; [by exists lt|done].
Qed.

Lemma matches_extend s s1 tid k r : is_extension_of s s1 → matches s tid k r → matches s1 tid k r.
Proof.
  intros (_ & [seg Hr] & _ & Hl) (pe & re & (lt & Hlt & Hk) & Hre & Hm).
  destruct (Hl _ _ Hlt) as (lt1 & Hlt1 & [seg1 ->]). exists pe, re. split; [|split; [|done]].
  - eexists. split; [exact Hlt1|]. by apply lookup_app_l_Some.
  - rewrite Hr. by apply lookup_app_l_Some.
Qed.

(** Once the clock has passed the deadline, the wake of the timer has arrived. *)
Lemma timer_arrives K C s s1 tid lt i :
  waiting s tid lt i → TaskLog.has_active_timer_with_waker lt (last_idx lt) →
  nsteps composed_progress K s s1 → waiting s1 tid lt i → end_to_end_env K C s1 tid →
  reactor_wake_arrival s1 tid.
Proof.
  intros Hw (rid & Hreg) Hs Hw1 (Hinc & Hpos & Hgap & Hact & _).
  pose proof Hreg as (k & pe & Hcyc & Hk & Hpe & Hrid & _).
  destruct (operation_matched s tid lt k pe) as (r & re & Hm & Hre & Hsucc); [by destruct Hw|by destruct Hw|done|by destruct pe as [[]|[]]|].
  pose proof (rounds_extension _ _ _ Hs) as Hext. pose proof (matches_extend _ _ _ _ _ Hext Hm) as Hm1.
  assert (Hr : ∃ d w : Z, ReactorLog.is_succ_register_timer_at (reactor_log s1) r d w rid).
  { destruct pe as [|[]]; try done. simplify_eq/=. destruct re as [[]|[]]; try done. destruct result as [[]|]; try done. simpl in Hsucc. subst.
    do 2 eexists. unfold ReactorLog.is_succ_register_timer_at. destruct Hext as (_ & [seg Eseg] & _).
    rewrite Eseg. by rewrite (lookup_app_l_Some _ _ _ _ Hre). }
  destruct Hr as (d & w & Hr). pose proof (lookup_lt_Some _ _ _ Hre) as Hlen.
  assert (Howned : timer_reg_current_poll_owned s1 r) by (exists tid, lt, k, pe; by destruct Hw1).
  pose proof (Hact r (ex_intro _ d (ex_intro _ w (ex_intro _ rid Hr))) Howned) as Hnd.
  pose proof (Hgap r d w rid Hr Hnd) as Hb.
  assert (Hinv : reactor_inv (reactor_log s1)) by by destruct Hw1 as [(_ & ? & _) _ _ _].
  destruct K as [|n]; [unfold compute_bound in Hb; case_match; lia|].
  destruct (rounds_advance_clock (max_timestamp_up_to (reactor_log s1) (r + 1)) n _ _ (rounds_reactor _ _ _ Hs) Hinc Hpos)
    as (j & t & Hj & Ht & Hlt); [intros j t Hj Ht; eapply new_timestamp; [done|done| |exact Ht]; lia|].
  destruct (clock_wakes (reactor_log s1) r d w rid j t Hinv Hr Hnd ltac:(lia) Ht) as [k' Hk'].
  { unfold compute_bound in Hb. destruct (Z.leb_spec d (max_timestamp_up_to (reactor_log s1) (r + 1))); lia. }
  left. exists lt, r, d, w, rid. split; [by destruct Hw1|]. split; [done|]. split; [done|]. split; [done|].
  by exists d, w, rid, k'.
Qed.

(** ** Devices *)

(** The operation of a waiting task that set the waker is the only one on its resource: no
    other waker is set while the task waits. *)
Lemma last_waker_kept s s1 tid lt k pe rid :
  composed_progress s s1 → task_logs s !! tid = Some lt → task_logs s1 !! tid = Some lt →
  lt !! k = Some pe → TaskLog.is_succ_set_waker pe = true → TaskLog.get_resource_id pe = Some rid →
  find_last_set_waker_for_rid (reactor_log s1) rid (length (reactor_log s1)) =
  find_last_set_waker_for_rid (reactor_log s) rid (length (reactor_log s)).
Proof.
  intros Hp Hl Hl1 Hk Hsw Hrid. pose proof (round_extends _ _ Hp) as (_ & [seg Hseg] & _). rewrite Hseg.
  apply find_last_old, Forall_lookup. intros r re Hr. destruct (sets_waker_of rid re) eqn:E; [|done]. exfalso.
  apply sets_waker_of_spec in E as (int & w & E).
  destruct re as [[]|[]]; try done. simpl in E. destruct result as [[a|z]|]; try done. simplify_eq/=.
  set (r' := length (reactor_log s) + r).
  assert (Hr' : reactor_log s1 !! r' = Some (ReactorLog.Inbound (ReactorLog.SetWaker rid int w (Some (UtilityLog.Ok a))))).
  { rewrite Hseg, lookup_app_r by lia. by replace (r' - _) with r by lia. }
  assert (Hop : operation s1 tid k).
  { exists pe. split; [by exists lt|]. by destruct pe as [|[]]. }
  assert (Hm : matches s1 tid k r').
  { exists pe. eexists. split; [by exists lt|]. split; [exact Hr'|].
    destruct pe as [|[]]; try done. destruct result as [[]|]; try done. by simplify_eq/=. }
  destruct Hp as (_ & _ & _ & ((_ & Huniq & _) & (_ & _ & _ & _ & Hnew) & _) & _).
  destruct (Hnew r') as (tid' & k' & Hn & Hm').
  { unfold is_new_reactor_event. apply lookup_lt_Some in Hr'. lia. }
  { by eexists. }
  assert (Hop' : operation s1 tid' k').
  { destruct Hm' as (pe' & re' & Hpe' & Hre' & Hs'). exists pe'. split; [done|].
    destruct pe' as [|[]]; try done. by destruct result as [[]|]. }
  destruct (Huniq tid tid' k k' r' Hop Hop' Hm Hm') as [<- <-].
  destruct Hn as [Hn _]. unfold task_len in Hn. rewrite Hl in Hn. apply lookup_lt_Some in Hk. lia.
Qed.

(** Once the device has reported, the wake of the resource has arrived. *)
Lemma io_arrives K B C s s1 tid lt i cap :
  waiting s tid lt i → TaskLog.has_active_io_with_waker lt (last_idx lt) →
  nsteps composed_progress B s s1 →
  ¬ has_poll_task_for_id_after (executor_log s1) tid (length (executor_log s)) →
  env_N K B C s1 tid cap → reactor_wake_arrival s1 tid.
Proof.
  intros Hw (rid & Hact & Hset) Hs Hno ((_ & _ & _ & _ & _ & _ & Hhold) & _ & Hready & _).
  pose proof (waiting_stays _ _ _ _ _ _ Hw Hs Hno) as Hw1.
  pose proof Hset as (k & pe & Hcyc & Hk & [Hsw Hrid%bool_decide_eq_true]%andb_true_iff).
  destruct (operation_matched s tid lt k pe) as (r & re & Hm & Hre & Hsucc);
    [by destruct Hw|by destruct Hw|done|destruct pe as [|[]]; try done; by destruct result as [[]|]|].
  assert (Hlast : is_Some (find_last_set_waker_for_rid (reactor_log s) rid (length (reactor_log s)))).
  { apply (find_last_exists _ _ _ r re); [done| |by eapply lookup_lt_Some]. apply sets_waker_of_spec.
    destruct pe as [|[]]; try done. destruct result as [[]|]; try done. simplify_eq/=.
    destruct re as [[]|[]]; try done. destruct result as [[]|]; try done. simpl in Hsucc. subst. by do 2 eexists. }
  assert (Hkept : find_last_set_waker_for_rid (reactor_log s1) rid (length (reactor_log s1)) =
    find_last_set_waker_for_rid (reactor_log s) rid (length (reactor_log s))).
  { clear Hready Hhold Hw1 Hm Hre Hsucc Hlast. revert Hno. pose proof (wt_log _ _ _ _ Hw) as Hl. clear Hw.
    induction Hs as [s|n s s2 s3 Hp Hs IH]; [done|]. intros Hno.
    pose proof (rounds_extension _ _ _ Hs) as ([seg2 E2] & _). pose proof (round_extends _ _ Hp) as (E1 & _).
    assert (Hl2 : task_logs s2 !! tid = Some lt).
    { eapply (log_unpolled 1 s); [by apply nsteps_once|done|]. intros H. apply Hno. eapply prefix_poll_after; [|exact H]. by exists seg2. }
    rewrite IH; [by eapply last_waker_kept|done|]. intros (j & t & x & Hj & Hjl). apply Hno. exists j, t, x.
    apply prefix_length in E1. split; [lia|done]. }
  destruct Hlast as [sw Hsw']. rewrite Hsw' in Hkept. destruct (last_set_waker _ _ _ _ Hkept) as (_ & int & w & Hev).
  assert (Hrem : io_remains_active_assumption (reactor_log s1) rid).
  { apply Hhold. exists tid, lt. split; [by destruct Hw1|]. split; [done|]. split; [done|]. exists i. by destruct Hw1. }
  assert (Hinv : reactor_inv (reactor_log s1)) by by destruct Hw1 as [(_ & ? & _) _ _ _].
  assert (Hactive : ReactorSyscallLog.io_syscall_active_at_set_waker (reactor_log s1) rid sw).
  { destruct Hinv as (_ & _ & _ & _ & _ & Ha & _). by eapply Ha. }
  destruct Hactive as (reg & Hreg & _). apply find_last_some in Hreg as Hlt. destruct Hlt as [Hlt _].
  destruct (io_wake_general (reactor_log s1) rid sw int w Hinv Hrem Hkept Hev) as (_ & k' & w' & Hk' & Hw').
  - apply (Hready rid sw int w Hkept Hev).
    + apply (rounds_poll_events _ (reactor_log s)); [by apply last_set_waker in Hsw' as [? _]|by apply rounds_reactor].
    + intros j Hj. apply (Hrem sw reg Hkept Hreg). lia.
  - right. exists lt, rid. split; [by destruct Hw1|]. split; [done|]. split; [done|]. by exists sw, k', w'.
Qed.

(** ** Other tasks *)

Lemma round_ticks le le' :
  executor_progress le le' → ∃ seg, le' = le ++ seg ∧ 1 ≤ length (filter (λ e : ExecutorEvent, is_tick_end e = true) seg).
Proof.
  intros (Hlt & [seg ->] & (_ & _ & _ & (e & He & Hk) & _) & _). exists seg. split; [done|].
  rewrite length_app in Hlt. rewrite lookup_app_r in He by (rewrite length_app; lia).
  assert (Hin : e ∈ filter (λ e : ExecutorEvent, is_tick_end e = true) seg).
  { apply list_elem_of_filter. split; [done|by eapply list_elem_of_lookup_2]. }
  destruct (filter _ seg); [by apply not_elem_of_nil in Hin|simpl; lia].
Qed.

Lemma rounds_tick n le le' :
  nsteps executor_progress n le le' → ∃ seg, le' = le ++ seg ∧ n ≤ length (filter (λ e : ExecutorEvent, is_tick_end e = true) seg).
Proof.
  induction 1 as [le|n l1 l2 l3 Hr _ (seg & -> & Hn)]; [exists []; by rewrite app_nil_r|].
  destruct (round_ticks _ _ Hr) as (seg1 & -> & H1). exists (seg1 ++ seg). split; [by rewrite app_assoc|].
  rewrite filter_app, length_app. lia.
Qed.

(** Once as many ticks have ended, the next drain takes a task that passed its waker on. *)
Lemma taskwake_drains K B C s s1 s2 tid lt i cap :
  waiting s tid lt i → TaskLog.has_pass_waker_in_current_poll lt (last_idx lt) →
  nsteps composed_progress cap s s1 → composed_progress s1 s2 → waiting s2 tid lt i → env_N K B C s2 tid cap →
  drained_after TaskWake (executor_log s2) tid i.
Proof.
  intros Hw Hpass Hs Hp Hw2 (_ & _ & _ & Harr). pose proof (waiting_index _ _ _ _ Hw) as Hi.
  pose proof Hp as (_ & He & _). destruct (round_drains TaskWake _ _ He) as (d & ids & Hd & Hl).
  destruct (rounds_tick _ _ _ (progress_executor _ _ _ Hs)) as (seg & E1 & Hticks).
  pose proof (round_extends _ _ Hp) as ([seg2 E2] & _). rewrite E1, length_app in Hd.
  destruct (search_dec (drains_of TaskWake tid) (take d (executor_log s2)) (S i)) as [(d' & e & Hd' & Hl' & Hs')|Hno].
  - apply lookup_take_Some in Hl' as [Hl' _]. exists d'. split; [lia|]. destruct e as [|[|src ids'| |]]; try done.
    apply bool_decide_eq_true in Hs' as [-> ?]. by exists ids'.
  - exists d. split; [lia|]. exists ids. split; [done|]. apply (Harr lt i d ids); try done; try (by destruct Hw2); [lia|..].
    + intros (d' & Hd' & ids' & Hl' & Hin). specialize (Hno d' (Outbound (Drain TaskWake ids')) ltac:(lia)).
      simpl in Hno. rewrite lookup_take_Some in Hno. specialize (Hno ltac:(split; [done|lia])).
      apply bool_decide_eq_false in Hno. by destruct Hno.
    + unfold count_tick_ends_between. etrans; [exact Hticks|].
      rewrite E2, E1, <- app_assoc, skipn_app, take_app, filter_app, length_app.
      replace (i - length (executor_log s)) with 0 by lia. rewrite drop_0, length_drop.
      rewrite take_app, filter_app, length_app. rewrite (take_ge seg) by lia. lia.
Qed.

(** ** From poll to poll *)

Section end_to_end.
Context (max_timer_deadline_gap io_ready_bound max_queue_length cap : nat) (tid : Z).

Definition chunk : nat := max_timer_deadline_gap + io_ready_bound + max_queue_length + cap + 2.
Abbreviation env s := (env_N max_timer_deadline_gap io_ready_bound max_queue_length s tid cap).

(** A round between states of the environment. *)
Definition good_round s s1 : Prop := composed_progress s s1 ∧ env s ∧ env s1.

Lemma good_rounds n s s1 : nsteps good_round n s s1 → nsteps composed_progress n s s1.
Proof. induction 1 as [|n s s1 s2 [Hp _] _ IH]; [constructor|by eapply nsteps_l]. Qed.

(** A task that is drained after [m] rounds is polled while the queue lasts. *)
Lemma served s s1 lt i m n :
  waiting s tid lt i → nsteps good_round n s s1 → m + S max_queue_length ≤ n →
  (∀ sm sd, nsteps composed_progress m s sm → good_round sm sd →
     ¬ has_poll_task_for_id_after (executor_log sd) tid (length (executor_log s)) →
     waiting sm tid lt i → waiting sd tid lt i → ∃ source, drained_after source (executor_log sd) tid i) →
  has_poll_task_for_id_after (executor_log s1) tid (length (executor_log s)).
Proof.
  intros Hw Hs Hn Hd. destruct (polled_dec (executor_log s1) tid (length (executor_log s))) as [?|Hno]; [done|exfalso].
  replace n with (m + (1 + (n - m - 1))) in Hs by lia.
  apply nsteps_add_inv in Hs as (sm & Hs1 & (sd & Hs2%nsteps_once_inv & Hs3)%nsteps_add_inv).
  apply good_rounds in Hs1, Hs3 as Hs4. pose proof Hs2 as [Hp [_ (He & _)]].
  pose proof (rounds_extension _ _ _ Hs4) as (E3 & _). pose proof (round_extends _ _ Hp) as (E2 & _).
  assert (Hno2 : ¬ has_poll_task_for_id_after (executor_log sd) tid (length (executor_log s))).
  { intros H. apply Hno. by eapply prefix_poll_after. }
  assert (Hwm : waiting sm tid lt i).
  { eapply waiting_stays; [done..|]. intros H. apply Hno2. by eapply prefix_poll_after. }
  assert (Hwd : waiting sd tid lt i).
  { eapply (waiting_stays (m + 1) s); [done| |done]. eapply nsteps_trans; [done|by apply nsteps_once]. }
  destruct (Hd sm sd Hs1 Hs2 Hno2 Hwm Hwd) as (source & Hdr).
  destruct He as (_ & _ & _ & _ & Hq & _).
  destruct (drained_polled max_queue_length sd s1 tid lt i source _ Hwd Hdr Hq Hs4 ltac:(lia)) as (j & t & r & Hj & Hl).
  apply Hno. exists j, t, r. split; [|done]. pose proof (rounds_extension _ _ _ Hs1) as (E1 & _).
  apply prefix_length in E1, E2. lia.
Qed.

(** A waiting task is polled within a chunk of rounds. *)
Lemma waiting_polled s s1 lt i n :
  waiting s tid lt i → nsteps good_round n s s1 → chunk ≤ n →
  has_poll_task_for_id_after (executor_log s1) tid (length (executor_log s)).
Proof.
  unfold chunk. intros Hw Hs Hn.
  assert (Hpre : ∀ sm sd, good_round sm sd → ¬ has_poll_task_for_id_after (executor_log sd) tid (length (executor_log s)) →
    ¬ has_poll_task_for_id_after (executor_log sm) tid (length (executor_log s))).
  { intros sm sd [Hp _] Hno H. apply Hno. pose proof (round_extends _ _ Hp) as (E & _). by eapply prefix_poll_after. }
  destruct (waiting_source _ _ _ _ Hw) as [Ht|[Hio|[Hdef|Hpass]]].
  - eapply (served s s1 lt i max_timer_deadline_gap n Hw Hs); [lia|]. intros sm sd Hsm Hg Hno Hwm Hwd.
    pose proof Hg as (Hp & (He & _) & _). eapply arrival_drained; [exact Hwm|exact Hp|]. right. left.
    by eapply (timer_arrives _ _ s).
  - eapply (served s s1 lt i io_ready_bound n Hw Hs); [lia|]. intros sm sd Hsm Hg Hno Hwm Hwd.
    pose proof Hg as (Hp & He & _). eapply arrival_drained; [exact Hwm|exact Hp|]. right. left.
    eapply (io_arrives _ _ _ s); [done..|by eapply Hpre|exact He].
  - eapply (served s s1 lt i 0 n Hw Hs); [lia|]. intros sm sd _ Hg _ Hwm _. pose proof Hg as (Hp & _).
    eapply arrival_drained; [exact Hwm|exact Hp|]. left. exists lt. by destruct Hwm.
  - eapply (served s s1 lt i cap n Hw Hs); [lia|]. intros sm sd Hsm Hg _ _ Hwd. pose proof Hg as (Hp & _ & He).
    exists TaskWake. by eapply (taskwake_drains _ _ _ s sm).
Qed.

Lemma polls_accumulate k s s1 :
  composed_well_formed s → has_poll_for_id (executor_log s) tid → nsteps good_round (k * chunk) s s1 →
  task_polled_to_ready (executor_log s1) tid ∨
  k + count_polls_for_tid (executor_log s) tid ≤ count_polls_for_tid (executor_log s1) tid.
Proof.
  revert s. induction k as [|k IH]; intros s Hwf Hpoll Hs.
  - inversion Hs; subst. by right.
  - simpl in Hs. apply nsteps_add_inv in Hs as (sm & Hs1 & Hs2). pose proof (good_rounds _ _ _ Hs1) as Hc1.
    pose proof (rounds_extension _ _ _ Hc1) as (E1 & _). pose proof (rounds_extension _ _ _ (good_rounds _ _ _ Hs2)) as (E2 & _).
    destruct (last_poll_exists _ _ Hpoll) as [i Hlast].
    destruct (last_poll_cases _ _ _ (proj1 Hwf) Hlast) as [Hpend|Hready].
    + destruct Hwf as (Hwf1 & Hwf2 & Hwf3 & [Hlog Hend] & Hwf5). destruct (Hlog tid Hpoll) as [lt Hlt].
      assert (Hw : waiting s tid lt i) by (split; [by split_and!|done..]).
      pose proof (waiting_polled s sm lt i chunk Hw Hs1 ltac:(lia)) as Hnew.
      pose proof (count_grows _ _ tid E1 Hnew) as Hcount.
      destruct (IH sm) as [?|Hk]; [by eapply (rounds_wf _ s); [split_and!|]| |done|by left|right; lia].
      destruct Hnew as (j & t & r & _ & Hj). by exists j, t, r.
    + left. eapply ready_prefix; [|exact Hready]. by etrans.
Qed.

(** A task that was popped is polled while the queue lasts. *)
Lemma spawned_polled s s1 n :
  task_spawned_in (executor_log s) tid → queue_length_bounded max_queue_length s →
  nsteps composed_progress n s s1 → max_queue_length ≤ n → has_poll_for_id (executor_log s1) tid.
Proof.
  intros [i Hi] Hq Hs Hn. destruct (queued_or_polled (executor_log s) tid i _ Hi) as [(j & t & r & _ & Hl)|[k Hk]%list_elem_of_lookup].
  - intros q. apply hands_over_queued. by left.
  - pose proof (rounds_extension _ _ _ Hs) as ([seg ->] & _). exists j, t, r. by apply lookup_app_l_Some.
  - destruct (rounds_poll n _ _ _ k (progress_executor _ _ _ Hs) ltac:(
      specialize (Hq (length (executor_log s)) ltac:(lia)); apply lookup_lt_Some in Hk; unfold fifo in Hk; lia) Hk)
      as (j & t & r & _ & Hl). by exists j, t, r.
Qed.

Lemma spawned_finishes s s1 m :
  composed_well_formed s → task_spawned_in (executor_log s) tid → env s → env s1 → max_queue_length ≤ m →
  nsteps good_round (m + cap * chunk) s s1 → task_polled_to_ready (executor_log s1) tid.
Proof.
  intros Hwf Hsp (He & _) (_ & Hbound & _) Hm Hs. apply nsteps_add_inv in Hs as (sm & Hs1%good_rounds & Hs2).
  assert (Hp : has_poll_for_id (executor_log sm) tid).
  { eapply (spawned_polled s); [done| |done..]. by destruct He as (_ & _ & _ & _ & ? & _). }
  destruct (polls_accumulate cap sm s1) as [?|Hc]; [by eapply rounds_wf|done..|].
  apply Hbound. lia.
Qed.

End end_to_end.

(** C6. End-to-end liveness.  A task that the next round pops, or that is anywhere in the
    injection schedule, is polled until it is ready: in every run of the composed system
    whose states keep the assumptions on the environment, with [cap] the polls that the task
    needs, within the number of rounds that the source computes. *)
Theorem end_to_end_liveness max_timer_deadline_gap io_ready_bound max_queue_length :
  progress_preserves_wf composed_module_spec ∧
  ∀ s tid cap, composed_well_formed s →
    let n := chunk max_timer_deadline_gap io_ready_bound max_queue_length cap in
    let reaches_goal := ete_reaches_goal_N max_timer_deadline_gap io_ready_bound max_queue_length s tid cap in
    (task_delivered_next_tick s tid → reaches_goal (n + cap * n)) ∧
    (∀ k, task_scheduled_at s tid k → reaches_goal (length (injection_schedule s) + n + cap * n)).
Proof.
  split; [apply progress_keeps_wf|]. intros s tid cap Hwf n goal. split.
  - intros Hnext s1 Hr. pose proof (proj2 (env_progress_n_ends _ _ _ _ _ _ Hr)) as Hend.
    apply env_progress_n_nsteps in Hr. replace (n + cap * n) with (1 + ((n - 1) + cap * n)) in Hr by (unfold n, chunk; lia).
    apply nsteps_add_inv in Hr as (sm & Hs1%nsteps_once_inv & Hs2). pose proof Hs1 as (Hp & _ & He).
    eapply (spawned_finishes _ _ _ _ tid sm s1 (n - 1)); [by apply (progress_keeps_wf s)|by apply Hnext|done|done| |exact Hs2].
    unfold n, chunk. lia.
  - intros k Hk s1 Hr. pose proof (proj2 (env_progress_n_ends _ _ _ _ _ _ Hr)) as Hend.
    apply env_progress_n_nsteps in Hr. rewrite <- Nat.add_assoc in Hr.
    apply nsteps_add_inv in Hr as (sm & Hs1 & Hs2). pose proof (good_rounds _ _ _ _ _ _ _ _ Hs1) as Hc1.
    eapply (spawned_finishes _ _ _ _ tid sm s1 n); [by eapply rounds_wf| | |done| |exact Hs2].
    + eapply (scheduled_task_delivered s sm tid k); [done|reflexivity|]. by apply progress_n_nsteps.
    + replace (n + cap * n) with (1 + (n - 1 + cap * n)) in Hs2 by (unfold n, chunk; lia).
      inversion Hs2 as [|? ? x ? (_ & ? & _) _]; subst; done.
    + unfold n, chunk. lia.
Qed.

(** ** A run that the environment admits *)

Lemma quiet_clock lr :
  Forall (λ re, ReactorLog.succ_register_timer re = None ∧ ReactorIoLog.succ_set_waker re = None) lr →
  (∀ i (d w rid : Z), ¬ ReactorLog.is_succ_register_timer_at lr i d w rid) ∧
  (∀ rid before, find_last_set_waker_for_rid lr rid before = None).
Proof.
  intros H. rewrite Forall_lookup in H. split.
  - intros i d w rid (e & He & Hd)%bind_Some. destruct (H i e He) as [Hn _]. congruence.
  - intros rid before. destruct (find_last_set_waker_for_rid lr rid before) as [sw|] eqn:E; [|done].
    apply last_set_waker in E as (_ & int & w & (e & He & Hw)%bind_Some). destruct (H sw e He) as [_ Hn]. congruence.
Qed.

(** The assumptions, of a state without timers, devices and wakes of other tasks. *)
Lemma quiet_env le lr lt q cap :
  Forall (λ re, ReactorLog.succ_register_timer re = None ∧ ReactorIoLog.succ_set_waker re = None) lr →
  timestamps_strictly_increasing lr → timestamps_positive lr → queue_bound_at le 1 → tid_unique le 1 →
  (cap ≤ count_polls_for_tid le 1 → task_polled_to_ready le 1) →
  (∀ i pe, lt !! i = Some pe → TaskLog.is_register_io pe = false ∧ TaskLog.is_pass_waker pe = false) →
  ∀ logs, (∀ tid lt', logs !! tid = Some lt' → lt' = lt) → env_N 1 1 1 (mkState le lr logs q) 1 cap.
Proof.
  intros Hq Hinc Hpos Hb Hu Hc Hl logs Hlogs. destruct (quiet_clock lr Hq) as [Hreg Hsw].
  split; [|split; [done|split]].
  - split; [done|]. split; [done|]. split; [intros i d w rid H; by apply Hreg in H|].
    split; [intros i (d & w & rid & H); by apply Hreg in H|]. split; [done|]. split; [done|].
    intros rid _ sw reg H. unfold reactor_log in H. by rewrite Hsw in H.
  - intros rid sw int w H. unfold reactor_log in H. by rewrite Hsw in H.
  - intros lt' i d ids H (j & pe & _ & Hj & Hp). apply Hlogs in H as ->. destruct (Hl j pe Hj) as [_ ?]. congruence.
Qed.

Lemma events_queue : queue_bound_at events_2 1 ∧ queue_bound_at events_1 1.
Proof.
  assert (H : ∀ l, forallb (λ i, length (fifo_queue_at l i) <=? 1) (seq 0 (S (length l))) = true → queue_bound_at l 1).
  { intros l H i Hi. rewrite forallb_forall in H. apply Nat.leb_le, (H i), in_seq. lia. }
  split; apply H; vm_compute; reflexivity.
Qed.

Lemma env_along cap : cap = 2 → env_N 1 1 1 composed_0 1 cap ∧ env_N 1 1 1 composed_1 1 cap ∧ env_N 1 1 1 composed_2 1 cap.
Proof.
  intros ->. destruct yield_log as [L1 L2]. destruct events_queue as [Q2 Q1].
  assert (T : ∀ lr, foldr and True (imap (λ j re, ∀ t, ReactorLog.current_timestamp re = Some t →
      j = 1 ∧ t = 20%Z ∨ j = 5 ∧ t = 21%Z) lr) → timestamps_strictly_increasing lr ∧ timestamps_positive lr).
  { intros lr H. assert (Hp : ∀ i t, lr !! i ≫= ReactorLog.current_timestamp = Some t → i = 1 ∧ t = 20%Z ∨ i = 5 ∧ t = 21%Z).
    { intros i t (e & He & Ht)%bind_Some. by apply (positions lr _ H i e He). }
    split; [intros i j t t' Hij Hi%Hp Hj%Hp; lia|intros i t Hi%Hp; lia]. }
  assert (T1 : timestamps_strictly_increasing (park_events 20) ∧ timestamps_positive (park_events 20)).
  { apply T. repeat (split; [by intros t [= <-]; auto|]). done. }
  assert (T2 : timestamps_strictly_increasing (park_events 20 ++ park_events 21) ∧ timestamps_positive (park_events 20 ++ park_events 21)).
  { apply T. repeat (split; [by intros t [= <-]; auto|]). done. }
  assert (Hlogs : ∀ lt tid lt', ({[1%Z := lt]} : gmap Z TaskLog.Log) !! tid = Some lt' → lt' = lt) by (intros lt tid lt' [_ ?]%singleton_log; done).
  assert (Hquiet : ∀ lt i pe, lt = first_poll ∨ lt = first_poll ++ second_poll → lt !! i = Some pe →
    TaskLog.is_register_io pe = false ∧ TaskLog.is_pass_waker pe = false).
  { intros lt i pe [-> | ->] Hi; by apply (positions _ (λ _ pe, TaskLog.is_register_io pe = false ∧ TaskLog.is_pass_waker pe = false)) in Hi;
      [|repeat split]. }
  split; [|split].
  - unfold composed_0. apply (quiet_env [] [] []); [constructor|..].
    + intros i j t t' _ H. by destruct i.
    + intros i t H. by destruct i.
    + intros i Hi. simpl in Hi. destruct i; [simpl; lia|lia].
    + intros i j H. by destruct i.
    + intros H. exfalso. vm_compute in H. lia.
    + intros i pe H. by destruct i.
    + intros tid lt' H. destruct (lookup_empty_Some tid lt' H).
  - unfold composed_1. rewrite L1. apply (quiet_env _ _ first_poll); [by repeat constructor|apply T1|apply T1|done|..].
    + intros i j Hi Hj. apply (positions events_1 (λ i e, e = Outbound (PopInjection (Some 1%Z)) → i = 2)) in Hi, Hj;
        [by rewrite Hi, Hj|by repeat split..].
    + intros H. exfalso. vm_compute in H. lia.
    + intros i pe. apply Hquiet. by left.
    + apply Hlogs.
  - unfold composed_2. rewrite L2. apply (quiet_env _ _ (first_poll ++ second_poll)); [by repeat constructor|apply T2|apply T2|done|..].
    + intros i j Hi Hj. apply (positions events_2 (λ i e, e = Outbound (PopInjection (Some 1%Z)) → i = 2)) in Hi, Hj;
        [by rewrite Hi, Hj|by repeat split..].
    + intros _. exists 18, (Some 1%Z). reflexivity.
    + intros i pe. apply Hquiet. by right.
    + apply Hlogs.
Qed.

(** The task that yields is ready after two rounds of such a run, and the theorem bounds any. *)
Lemma end_to_end_liveness_witness :
  (ete_reachable_N 1 1 1 composed_0 composed_2 2 2 1 ∧ task_polled_to_ready (executor_log composed_2) 1) ∧
  ete_reaches_goal_N 1 1 1 composed_0 1 2 22.
Proof.
  destruct (env_along 2 eq_refl) as (H0 & H1 & H2). split; [split|].
  - eapply env_progress_n_cons; [exact H0|exact round_1|]. eapply env_progress_n_cons; [exact H1|exact round_2|].
    exists [composed_2]. split; [done|]. split; [done|]. split; [done|].
    split; [apply valid_trace_cons; by left|]. intros [|i] x Hx; simplify_eq/=; done.
  - destruct logs_of_1 as (_ & -> & _). exists 18, (Some 1%Z). reflexivity.
  - apply (proj2 (proj2 (end_to_end_liveness 1 1 1) composed_0 1%Z 2 composed_0_wf) 0). vm_compute. reflexivity.
Defined.

End EndToEnd.
