(* ===== verification/NetInv.v ===== *)
(** * NetInv: what the polls of a socket do to the reactor

    The readiness flags under each operation of the reactor, and the common shape of
    the six polls of [NetIo]: a poll whose flag is clear, or whose system call would
    block, leaves the flag clear and its waker set; any other completes. *)

From S2P Require Import Prelude Wheel UtilityLog Readiness ReactorLog ResourceSlab Reactor ReactorInv ReactorOps.
From S2P Require Import NetIo.
Import UtilityLog Reactor NetIo.
From S2P Require Import ReactorSpec.

(** ** Flags: readable ([false]) and writable ([true]) *)

Definition bit (wr : bool) : Z := if wr then Readiness.WRITABLE else Readiness.READABLE.
Definition flag (v : list Z) (x : Z) (wr : bool) : bool := Readiness.test v x (bit wr).
Definition clear (v : list Z) (x : Z) (wr : bool) : list Z :=
  if wr then Readiness.clear_writable v x else Readiness.clear_readable v x.
Definition mark (v : list Z) (x : Z) (wr : bool) : list Z :=
  if wr then Readiness.mark_writable v x else Readiness.mark_readable v x.

Section flags.
Implicit Types (v : list Z) (x : Z) (wr : bool).

Lemma land_clear b wr wr' :
  Z.land (Z.land b (Readiness.not_u8 (bit wr))) (bit wr') = if decide (wr = wr') then 0%Z else Z.land b (bit wr').
Proof. rewrite <- Z.land_assoc. by destruct wr, wr'; simpl; rewrite ?Z.land_0_r. Qed.

Lemma land_mark b wr wr' :
  (Z.land (Z.lor b (bit wr)) (bit wr') =? 0)%Z =
    if decide (wr = wr') then false else (Z.land b (bit wr') =? 0)%Z.
Proof.
  rewrite Z.land_lor_distr_l. case_decide as Hd.
  - apply Z.eqb_neq. intros [_ H]%Z.lor_eq_0_iff. by destruct wr, wr'.
  - replace (Z.land (bit wr) (bit wr')) with 0%Z; [by rewrite Z.lor_0_r|by destruct wr, wr'].
Qed.

Lemma clear_update v x wr : clear v x wr = Readiness.update v x (λ b, Z.land b (Readiness.not_u8 (bit wr))).
Proof. by destruct wr. Qed.

Lemma mark_update v x wr : mark v x wr = Readiness.update v x (λ b, Z.lor b (bit wr)).
Proof. by destruct wr. Qed.

Lemma flag_clear v x wr x' wr' :
  (0 ≤ x)%Z → (0 ≤ x')%Z →
  flag (clear v x wr) x' wr' = flag v x' wr' && negb (bool_decide ((x, wr) = (x', wr'))).
Proof.
  intros H H'. rewrite clear_update. unfold flag. rewrite Readiness.test_update by done.
  unfold Readiness.test. rewrite <- andb_assoc. f_equal.
  case_decide as Hd; [rewrite land_clear; case_decide as Hw|]; case_bool_decide; try congruence;
    by rewrite ?andb_false_r, ?andb_true_r.
Qed.

Lemma flag_mark v x wr x' wr' :
  (0 ≤ x)%Z → (0 ≤ x')%Z → Z.to_nat x' < length v →
  flag (mark v x wr) x' wr' = flag v x' wr' || bool_decide ((x, wr) = (x', wr')).
Proof.
  intros H H' Hl. rewrite mark_update. unfold flag. rewrite Readiness.test_update by done.
  unfold Readiness.test. destruct (Nat.ltb_spec (Z.to_nat x') (length v)); [|lia]. simpl.
  case_decide as Hd; [rewrite land_mark; case_decide as Hw|]; case_bool_decide; try congruence;
    by rewrite ?orb_true_r, ?orb_false_r.
Qed.

Lemma length_clear v x wr : length (clear v x wr) = length v.
Proof. rewrite clear_update. apply Readiness.length_update. Qed.

Lemma length_mark v x wr : length (mark v x wr) = length v.
Proof. rewrite mark_update. apply Readiness.length_update. Qed.

Lemma length_init v x :
  length v ≤ length (Readiness.init_readiness v x) ∧ Z.to_nat x < length (Readiness.init_readiness v x).
Proof. unfold Readiness.init_readiness. rewrite length_insert. case_cmp; rewrite ?length_resize; lia. Qed.

Lemma flag_init v x wr : (0 ≤ x)%Z → flag (Readiness.init_readiness v x) x wr = true.
Proof.
  intros H. unfold flag, Readiness.test. rewrite init_lookup_eq by done.
  pose proof (length_init v x). destruct (Nat.ltb_spec (Z.to_nat x) (length (Readiness.init_readiness v x))); [|lia].
  by destruct wr.
Qed.

Lemma flag_init_other v x x' wr :
  (0 ≤ x)%Z → (0 ≤ x')%Z → x ≠ x' → Z.to_nat x' < length v →
  flag (Readiness.init_readiness v x) x' wr = flag v x' wr.
Proof.
  intros H H' Hne Hl. unfold flag, Readiness.test. pose proof (length_init v x).
  destruct (lookup_lt_is_Some_2 v (Z.to_nat x')) as [b Hb]; [done|].
  rewrite (init_lookup v x x' b), Hb by done.
  by destruct (Nat.ltb_spec (Z.to_nat x') (length (Readiness.init_readiness v x))),
    (Nat.ltb_spec (Z.to_nat x') (length v)); try lia.
Qed.

End flags.

(** ** The flags under the reactor's operations *)

Section frame.
Implicit Types (r : Reactor) (x : Z) (wr : bool).

Lemma readiness_register_timer r d w : io_readiness (register_timer r d w).2 = io_readiness r.
Proof. unfold register_timer, alloc_resource_id. by repeat case_cmp. Qed.

Lemma readiness_flush r : io_readiness (flush_pending_deregister r) = io_readiness r.
Proof. unfold flush_pending_deregister. by destruct (pending_deregister r) as [[]|]. Qed.

Lemma readiness_timer_call r c a r' :
  match c with RegisterTimer _ _ | DeregisterTimer _ => True | _ => False end →
  rstep r c = Some (a, r') → io_readiness r' = io_readiness r.
Proof.
  destruct c as [d w|rid|? ? ?|? ? ?|? ? ?|? ? ?]; intros Hc Hr; try done; unfold rstep in Hr.
  - unfold handle_register_timer in Hr. destruct (pending_deregister r) as [[p d']|].
    + cbv zeta in Hr. destruct (_ && _); [by simplify_eq/=|].
      pose proof (readiness_register_timer (drop_timer (set_pending r None) p) d w) as Hq.
      destruct (register_timer _ d w). by simplify_eq/=.
    + pose proof (readiness_register_timer r d w) as Hq. destruct (register_timer r d w). by simplify_eq/=.
  - simplify_eq. unfold handle_deregister_timer. case_match; simpl; apply readiness_flush.
Qed.

Lemma readiness_register_io r source interest os :
  io_readiness (register_io_resource r source interest os).2 = io_readiness r.
Proof.
  unfold register_io_resource, alloc_resource_id, register_io_source_action. case_cmp; [done|].
  simpl. by destruct (os _ _ _).
Qed.

Lemma readiness_deregister_io r x source os :
  io_readiness (deregister_io_resource r x source os).2 = io_readiness r.
Proof. done. Qed.

Lemma readiness_set_waker r x interest w r' :
  set_waker r x interest w = Some r' → io_readiness r' = io_readiness r.
Proof.
  unfold set_waker. intros (m1 & _ & (m2 & _ & Hr)%bind_Some)%bind_Some. by simplify_eq.
Qed.

Lemma readiness_wake_loop n r now : io_readiness (wake_expired_loop n r now) = io_readiness r.
Proof.
  revert r. induction n as [|n IH]; intros r; simpl; [done|]. unfold try_pop_expired_timer.
  destruct (Wheel.try_pop_expired (wheel r) now) as [[rid|] w]; [|done].
  case_match; rewrite IH; done.
Qed.

(** Parking marks what the system reports. *)
Definition mode_wr (m : IoMode) : bool := match m with Readable => false | Writable => true end.
Definition mark_event v (e : IoEvent) : list Z := mark v (Reactor.resource_id e) (mode_wr (mode e)).

Lemma readiness_event r e : io_readiness (process_io_event r e) = mark_event (io_readiness r) e.
Proof. unfold process_io_event, mark_event. destruct (mode e); simpl; by case_match. Qed.

Lemma readiness_events r es : io_readiness (process_io_events r es) = foldl mark_event (io_readiness r) es.
Proof.
  revert r. induction es as [|e es IH]; intros r; simpl; [done|].
  unfold process_io_events in *. simpl. by rewrite IH, readiness_event.
Qed.

Lemma readiness_park r timeout raw ans :
  io_readiness (flush_and_park r timeout raw (λ _, ans)).2 =
    match ans with Ok es => foldl mark_event (io_readiness r) (collect_io_events es) | Err _ => io_readiness r end.
Proof.
  unfold flush_and_park, park, get_current_time_action, poll_events_action.
  destruct ans as [es|e]; simpl; rewrite ?readiness_events; unfold wake_expired_timers;
    rewrite readiness_wake_loop; simpl; by rewrite readiness_flush.
Qed.

Lemma length_mark_events v es : length (foldl mark_event v es) = length v.
Proof. revert v. induction es as [|e es IH]; intros v; simpl; [done|]. by rewrite IH; apply length_mark. Qed.

Lemma flag_mark_events v es x wr :
  Forall (λ e, 0 ≤ Reactor.resource_id e)%Z es → (0 ≤ x)%Z → Z.to_nat x < length v →
  flag (foldl mark_event v es) x wr = true ↔
    flag v x wr = true ∨ ∃ e, e ∈ es ∧ Reactor.resource_id e = x ∧ mode_wr (mode e) = wr.
Proof.
  intros Hes Hx. revert v. induction Hes as [|e es He _ IH]; intros v Hl; simpl.
  - split; [by left|]. intros [?|(? & ?%not_elem_of_nil & _)]; done.
  - rewrite IH by (unfold mark_event; by rewrite length_mark). unfold mark_event at 1. rewrite flag_mark by done.
    rewrite orb_true_iff, bool_decide_eq_true. setoid_rewrite elem_of_cons. split.
    + intros [[?|[= <- <-]]|(e' & ? & ?)]; [by left|right; exists e; auto|right; exists e'; auto].
    + intros [?|(e' & [->|?] & <- & <-)]; [by left; left|by left; right|right; eauto].
Qed.

End frame.

(** ** The service does not see the flags *)

Section service.
Implicit Types (r : Reactor) (t : service) (x w : Z).

Lemma simulates_readiness r t v : simulates r t → simulates (set_readiness r v) t.
Proof. intros (T & [] & ->). exists T. split; [|done]. split; try done. by eapply rcore_frame. Qed.

Definition set_ios t I : service := mkService (timers t) I (clock t) (issued t) (spare t).

Lemma set_waker_ios r t x interest w ab :
  simulates r t → ios t !! x = Some ab →
  ∃ r', set_waker r x interest w = Some r' ∧
    simulates r' (set_ios t (<[x := with_wakers interest w ab]> (ios t))) ∧
    io_readiness r' = io_readiness r.
Proof.
  intros Hs Hx. destruct (set_waker_step r t x interest w Hs ltac:(by exists ab)) as (r' & t' & Hr & Ht & Hs').
  exists r'. split; [done|]. split; [|by eapply readiness_set_waker].
  inversion Ht; subst; simpl in *. by simplify_eq.
Qed.

(** A new socket: a fresh id, the flags set, and the kernel's log started. *)
Lemma from_mio_spec r t interest source os :
  simulates r t → service_ok t →
  let '(res, r') := from_mio r interest source os in
  ∃ t', simulates r' t' ∧ service_ok t' ∧
    match res with
    | Ok c => inner c = source ∧ kernel c = NetIo.new (resource_id c) ∧ (1 ≤ resource_id c)%Z ∧
        ios t !! resource_id c = None ∧ ios t' = <[resource_id c := (None, None)]> (ios t) ∧
        io_readiness r' = Readiness.init_readiness (io_readiness r) (resource_id c)
    | Err _ => ios t' = ios t ∧ io_readiness r' = io_readiness r
    end.
Proof.
  intros Hs Hok. unfold from_mio. pose proof (register_io_step r t source interest os Hs) as Hreg.
  pose proof (readiness_register_io r source interest os) as Hrd.
  destruct (register_io_resource r source interest os) as [a r1]. destruct Hreg as (t' & Ht & Hs1).
  assert (Hok' : service_ok t') by (eapply sstep_ok; [exact Hok| |exact Ht]; done).
  destruct a as [id|e].
  - exists t'. split; [by apply simulates_readiness|]. split; [done|]. simpl in *. rewrite Hrd.
    destruct Hok as [Hi _ _ _ _].
    inversion Ht as [| | | |T I c i sp ? ? ? HT HI Hlt Heq Hans Ht'| | | |]; subst; simpl in *.
    destruct (os source i (interest_to_mio interest)); simplify_eq. split_and!; done || lia.
  - exists t'. split; [done|]. split; [done|]. split; [|done].
    inversion Ht as [| | | |T I c i sp ? ? ? HT HI Hlt Heq Hans Ht'| | | |]; subst; simpl in *; [|done].
    by destruct (os source i (interest_to_mio interest)); simplify_eq.
Qed.

End service.

(** ** The six polls *)

Inductive pollop :=
  | PRead (len : nat) (sys : SysResult (list Z))
  | PWrite (len : nat) (sys : SysResult nat)
  | PAccept (sys : SysResult (Z * Z)) (os : Z → Z → bool * bool → IoResultView unit)
  | PRecv (sys : SysResult (list Z * Z))
  | PSend (sys : SysResult nat)
  | PConnect (error : IoResultView (option Z)) (peer : PeerAddr).

Definition is_pending {A} (p : Polled A) : bool := match p with PendingPoll => true | _ => false end.

(** One poll: whether it suspends, and the connection it accepts. *)
Definition run_poll (s : IoSocket) (r : Reactor) (w : Z) (p : pollop) :
    option (bool * option IoSocket * IoSocket * Reactor) :=
  match p with
  | PRead len sys => '(res, s', r') ← poll_read s r w len sys; Some (is_pending res, None, s', r')
  | PWrite len sys => '(res, s', r') ← poll_write s r w len sys; Some (is_pending res, None, s', r')
  | PAccept sys os =>
      '(res, s', r') ← poll_accept s r w sys os;
      Some (is_pending res, match res with Ready (Ok (c, _)) => Some c | _ => None end, s', r')
  | PRecv sys => '(res, s', r') ← poll_recv_from s r w sys; Some (is_pending res, None, s', r')
  | PSend sys => '(res, s', r') ← poll_send_to s r w sys; Some (is_pending res, None, s', r')
  | PConnect error peer =>
      '(res, c, r') ← poll_connect (mkConnect (Some s)) r w error peer;
      Some (is_pending res, None, match res with Ready (Ok s') => s' | _ => default s (stream c) end, r')
  end.

(** The flag that a poll looks at. *)
Definition writes (p : pollop) : bool :=
  match p with PWrite _ _ | PSend _ | PConnect _ _ => true | _ => false end.

(** The system call finds nothing to do. *)
Definition blocks (p : pollop) : bool :=
  match p with
  | PRead _ SysWouldBlock | PWrite _ SysWouldBlock | PAccept SysWouldBlock _ | PRecv SysWouldBlock
  | PSend SysWouldBlock | PConnect (Ok None) NotConnected => true
  | _ => false
  end.

(** A read or a write that does less than it could. *)
Definition short (p : pollop) : bool :=
  match p with
  | PRead len (SysOk data) => (0 <? length data) && (length data <? len)
  | PWrite len (SysOk n) => (0 <? n) && (n <? len)
  | _ => false
  end.

Definition interest_of (wr : bool) : bool * bool := if wr then WRITABLE else READABLE.

(** A socket of the reactor's: its kernel holds its id, and its log is good. *)
Definition socket_ok (s : IoSocket) : Prop :=
  rid (kernel s) = Some (resource_id s) ∧ well_formed (kernel s).

Definition poll_effect (s : IoSocket) (r : Reactor) (t : service) (w : Z) (p : pollop)
    (pending : bool) (acc : option IoSocket) (r' : Reactor) (t' : service) : Prop :=
  let x := resource_id s in
  let v := io_readiness r in
  if pending then
    acc = None ∧ (∃ ab, ios t !! x = Some ab ∧
      ios t' = <[x := with_wakers (interest_of (writes p)) w ab]> (ios t)) ∧
    io_readiness r' = if flag v x (writes p) then clear v x (writes p) else v
  else
    match acc with
    | None => ios t' = ios t ∧ io_readiness r' = if short p then clear v x (writes p) else v
    | Some c => short p = false ∧ kernel c = NetIo.new (resource_id c) ∧ (1 ≤ resource_id c)%Z ∧
        ios t !! resource_id c = None ∧ ios t' = <[resource_id c := (None, None)]> (ios t) ∧
        io_readiness r' = Readiness.init_readiness v (resource_id c)
    end.

Section polls.
Implicit Types (s c : IoSocket) (r : Reactor) (t : service) (x w : Z) (p : pollop).

Lemma poll_step_ok s w m ready block :
  socket_ok s →
  ∃ k, poll_step (kernel s) w m ready block = Some (if negb ready || block then Arm else Complete, k) ∧
    socket_ok (with_kernel s k).
Proof.
  intros [Hr Hw]. destruct (poll_step (kernel s) w m ready block) as [[a k]|] eqn:E.
  - exists k. destruct (io_poll_step_wf _ _ _ _ _ _ _ Hw E) as [Hk Hr'].
    split; [|split; simpl; [by rewrite Hr'|done]].
    unfold poll_step in E. rewrite Hr in E. simpl in E. by injection E as <- <-.
  - unfold poll_step in E. by rewrite Hr in E.
Qed.

(** Arming, with the flag cleared or not. *)
Lemma arm_spec s r t w p v :
  simulates r t → service_ok t → is_Some (ios t !! resource_id s) →
  v = (if flag (io_readiness r) (resource_id s) (writes p)
       then clear (io_readiness r) (resource_id s) (writes p) else io_readiness r) →
  ∃ r' t', set_waker (set_readiness r v) (resource_id s) (interest_of (writes p)) w = Some r' ∧
    simulates r' t' ∧ service_ok t' ∧ poll_effect s r t w p true None r' t'.
Proof.
  intros Hs Hok [ab Hx] Hv.
  destruct (set_waker_ios (set_readiness r v) t _ (interest_of (writes p)) w ab
    (simulates_readiness _ _ _ Hs) Hx) as (r' & Hr & Hs' & Hrd).
  exists r', (set_ios t (<[resource_id s := with_wakers (interest_of (writes p)) w ab]> (ios t))).
  split; [done|]. split; [done|]. split.
  - eapply (sstep_ok t (SetWaker (resource_id s) (interest_of (writes p)) w));
      [done|by exists ab|]. destruct t. by constructor.
  - split; [done|]. split; [by exists ab|]. rewrite Hrd. exact Hv.
Qed.

(** What a poll of [p] must return. *)
Definition poll_result s r t w p (out : option (bool * option IoSocket * IoSocket * Reactor)) : Prop :=
  let pend := negb (flag (io_readiness r) (resource_id s) (writes p)) || blocks p in
  ∃ acc s' r' t', out = Some (pend, acc, s', r') ∧
    simulates r' t' ∧ service_ok t' ∧ socket_ok s' ∧
    inner s' = inner s ∧ resource_id s' = resource_id s ∧ poll_effect s r t w p pend acc r' t'.

Lemma set_readiness_id r : set_readiness r (io_readiness r) = r.
Proof. by destruct r. Qed.

Section result.
Context s r t w p (Hs : simulates r t) (Hok : service_ok t) (Hx : is_Some (ios t !! resource_id s)).

Lemma result_armed s' r1 :
  socket_ok s' → inner s' = inner s → resource_id s' = resource_id s →
  negb (flag (io_readiness r) (resource_id s) (writes p)) || blocks p = true →
  r1 = (if flag (io_readiness r) (resource_id s) (writes p)
        then set_readiness r (clear (io_readiness r) (resource_id s) (writes p)) else r) →
  poll_result s r t w p
    (r2 ← set_waker r1 (resource_id s) (interest_of (writes p)) w; Some (true, None, s', r2)).
Proof.
  intros Hk Hi Hr Hp Hv. destruct (arm_spec s r t w p _ Hs Hok Hx eq_refl) as (r' & t' & Hset & ? & ? & He).
  replace r1 with (set_readiness r (if flag (io_readiness r) (resource_id s) (writes p)
    then clear (io_readiness r) (resource_id s) (writes p) else io_readiness r))
    by (rewrite Hv; case_match; [done|apply set_readiness_id]).
  rewrite Hset. unfold poll_result. rewrite Hp. by exists None, s', r', t'.
Qed.

Lemma result_done s' r1 :
  socket_ok s' → inner s' = inner s → resource_id s' = resource_id s →
  flag (io_readiness r) (resource_id s) (writes p) = true → blocks p = false →
  r1 = (if short p then set_readiness r (clear (io_readiness r) (resource_id s) (writes p)) else r) →
  poll_result s r t w p (Some (false, None, s', r1)).
Proof.
  intros Hk Hi Hr Hf Hb Hsh. unfold poll_result, poll_effect. rewrite Hf, Hb. simpl.
  exists None, s', r1, t. split; [done|]. rewrite Hsh.
  split; [case_match; [by apply simulates_readiness|done]|]. do 4 (split; [done|]). split; [done|]. by case_match.
Qed.

End result.

(** One poll, its flag [Ef] known: the kernel steps, and the two lemmas apply. *)
Ltac step_kernel Hsk k Hk :=
  match goal with |- context [poll_step (kernel ?s) ?w ?m ?a ?b] =>
    destruct (poll_step_ok s w m a b Hsk) as (k & -> & Hk) end;
  cbn [negb orb mbind option_bind is_pending]; rewrite ?option_bind_assoc.
Ltac by_armed Ef := apply result_armed; cbn [writes]; rewrite ?Ef; try done.
Ltac by_done Ef := apply result_done; cbn [writes blocks short]; rewrite ?Ef; try done.

Lemma run_poll_spec s r t w p :
  simulates r t → service_ok t → socket_ok s → is_Some (ios t !! resource_id s) →
  poll_result s r t w p (run_poll s r w p).
Proof.
  intros Hs Hok Hsk Hx.
  destruct (flag (io_readiness r) (resource_id s) (writes p)) eqn:Ef;
    destruct p as [len sys|len sys|sys os|sys|sys|error peer]; cbn [writes] in Ef;
    unfold run_poll, poll_read, poll_write, poll_accept, poll_recv_from, poll_send_to, poll_connect;
    cbn [stream mbind option_bind]; cbv zeta;
    try change (is_readable r (resource_id s)) with (flag (io_readiness r) (resource_id s) false);
    try change (is_writable r (resource_id s)) with (flag (io_readiness r) (resource_id s) true);
    rewrite Ef; cbn [negb].
  7-11: step_kernel Hsk k Hk; by_armed Ef.
  7: rewrite ?option_bind_assoc; by_armed Ef.
  - destruct sys as [data| |e]; step_kernel Hsk k Hk; [by_done Ef|by_armed Ef|by_done Ef].
  - destruct sys as [n| |e]; step_kernel Hsk k Hk; [by_done Ef|by_armed Ef|by_done Ef].
  - destruct sys as [[src addr]| |e]; [|step_kernel Hsk k Hk..]; [|by_armed Ef|by_done Ef].
    pose proof (from_mio_spec r t READABLE_WRITABLE src os Hs Hok) as Hm.
    destruct (from_mio r READABLE_WRITABLE src os) as [res r1]. destruct Hm as (t' & Hs' & Hok' & Hres).
    destruct res as [c|e]; step_kernel Hsk k Hk; unfold poll_result, poll_effect; cbn [writes blocks]; rewrite Ef.
    + exists (Some c), (with_kernel s k), r1, t'. split; [done|]. simpl. naive_solver.
    + exists None, (with_kernel s k), r1, t'. split; [done|]. simpl. naive_solver.
  - destruct sys as [[data addr]| |e]; step_kernel Hsk k Hk; [by_done Ef|by_armed Ef|by_done Ef].
  - destruct sys as [n| |e]; step_kernel Hsk k Hk; [by_done Ef|by_armed Ef|by_done Ef].
  - destruct error as [[e|]|e]; [by_done Ef| |by_done Ef].
    destruct peer; [by_done Ef| |by_done Ef]. rewrite ?option_bind_assoc. by_armed Ef.
Qed.

End polls.
