(* ===== verification/NetSpec.v ===== *)
(** * NetSpec: any number of sockets over one reactor and the system

    The system keeps, for each socket and direction, whether a call would find
    something to do ([level]) and whether it still owes the reactor an edge-triggered
    event ([edges]).  Its documented behaviour is [op_allowed]: a call that would block
    found nothing; and data or space that arrives raises an edge.  A short read or write
    may leave something, as an end of file, and what the closure of a [try_io] answers is
    free: the code clears a flag in both cases, which may lose a wake-up ([loses]).  The
    steps are the operations of the sockets, timers of other clients, and parking. *)

From S2P Require Import Prelude Wheel UtilityLog Readiness ReactorLog ResourceSlab Reactor ReactorInv ReactorOps.
From S2P Require Import NetIo.
Import UtilityLog Reactor NetIo.
From S2P Require Import ReactorSpec NetInv.

Record net := mkNet {
  reactor : Reactor;
  socks : gmap Z IoSocket;
  closed : list IoSocket;
  waiting : gmap (Z * bool) Z;  (** the waker of each direction whose last poll suspended *)
  woken : list (Z * Z);
  level : gset (Z * bool);
  edges : gset (Z * bool);
}.

Inductive netop :=
  | NOpen (interest : bool * bool) (source : Z) (os : Z → Z → bool * bool → IoResultView unit)
      (now : list bool)
  | NPoll (x w : Z) (p : pollop) (after : bool) (now : list bool)
  | NTryIo (x : Z) (interest : bool * bool) (block : bool)
  | NDrop (x : Z) (os : Z → IoResultView unit)
  | NEvent (x : Z) (wr : bool)
  | NDrain (x : Z) (wr : bool)
  | NPark (timeout : option Z) (raw : Z) (ans : IoResultView (list MioEvent))
  | NTimer (c : call).

(** What the system says it reports. *)
Definition reported (ans : IoResultView (list MioEvent)) : list (Z * bool) :=
  match ans with
  | Ok es => es ≫= λ e,
      (if Reactor.is_readable e then [(token e, false)] else []) ++
      (if Reactor.is_writable e then [(token e, true)] else [])
  | Err _ => []
  end.

(** A new socket may find something to do at once, in the directions [now]. *)
Definition add_socket (n : net) (r' : Reactor) (c : IoSocket) (now : list bool) : net :=
  mkNet r' (<[resource_id c := c]> (socks n)) (closed n) (waiting n) (woken n)
    (level n ∪ list_to_set (pair (resource_id c) <$> now)) (edges n).

(** The state after the poll of one socket. *)
Definition polled (n : net) (s' : IoSocket) (r' : Reactor) (w : Z) (p : pollop)
    (pending called after : bool) : net :=
  let k := (resource_id s', writes p) in
  mkNet r' (<[resource_id s' := s']> (socks n)) (closed n)
    (if pending then <[k := w]> (waiting n) else base.delete k (waiting n)) (woken n)
    (if called && negb after then level n ∖ {[k]} else level n) (edges n).

Definition net_step (n : net) (o : netop) : option net :=
  match o with
  | NOpen interest source os now =>
      Some match from_mio (reactor n) interest source os with
        | (Ok c, r') => add_socket n r' c now
        | (Err _, r') => mkNet r' (socks n) (closed n) (waiting n) (woken n) (level n) (edges n)
        end
  | NPoll x w p after now =>
      s ← socks n !! x;
      let called := flag (io_readiness (reactor n)) (resource_id s) (writes p) in
      '(pending, acc, s', r') ← run_poll s (reactor n) w p;
      let n' := polled n s' r' w p pending called after in
      Some match acc with Some c => add_socket n' r' c now | None => n' end
  | NTryIo x interest block =>
      s ← socks n !! x;
      let '(_, r') := try_io s (reactor n) interest (if block then SysWouldBlock else SysOk tt) in
      Some (mkNet r' (socks n) (closed n) (waiting n) (woken n) (level n) (edges n))
  | NDrop x os =>
      s ← socks n !! x;
      let '(s', r') := NetIo.drop s (reactor n) os in
      Some (mkNet r' (base.delete x (socks n)) (closed n ++ [s'])
        (base.delete (x, false) (base.delete (x, true) (waiting n))) (woken n) (level n) (edges n))
  | NEvent x wr =>
      Some (mkNet (reactor n) (socks n) (closed n) (waiting n) (woken n)
        ({[(x, wr)]} ∪ level n) ({[(x, wr)]} ∪ edges n))
  | NDrain x wr =>
      Some (mkNet (reactor n) (socks n) (closed n) (waiting n) (woken n) (level n ∖ {[(x, wr)]}) (edges n))
  | NPark timeout raw ans =>
      '(a, r') ← rstep (reactor n) (Park timeout raw (λ _, ans));
      let ws := match a with Parked _ ws _ => ws | _ => [] end in
      Some (mkNet r' (socks n) (closed n) (foldr base.delete (waiting n) (reported ans)) (woken n ++ ws)
        (level n) (edges n ∖ list_to_set (reported ans)))
  | NTimer c =>
      '(_, r') ← rstep (reactor n) c;
      Some (mkNet r' (socks n) (closed n) (waiting n) (woken n) (level n) (edges n))
  end.

(** What the system, and the other clients, keep to. *)
Definition op_allowed (n : net) (o : netop) : Prop :=
  match o with
  | NOpen _ _ _ _ => True
  | NPoll x w p after _ =>
      is_Some (socks n !! x) ∧
      (flag (io_readiness (reactor n)) x (writes p) = true → blocks p = true → (x, writes p) ∉ level n)
  | NTryIo x _ _ => is_Some (socks n !! x)
  | NDrop x _ => is_Some (socks n !! x)
  | NEvent x _ => is_Some (socks n !! x)
  | NDrain _ _ => True
  | NPark timeout raw ans =>
      is_u64 raw ∧ (∀ d, timeout = Some d → (0 ≤ d)%Z) ∧
      ∀ es, ans = Ok es → Forall (λ e, is_u64 (token e)) es
  | NTimer c =>
      match c with RegisterTimer _ _ | DeregisterTimer _ => True | _ => False end ∧
      ∀ t, simulates (reactor n) t → call_allowed t c
  end.

Definition net_init : net := mkNet Reactor.new ∅ [] ∅ [] ∅ ∅.

Inductive run : net → list netop → net → Prop :=
  | run_nil n : run n [] n
  | run_cons n o n1 ops n2 :
      op_allowed n o → net_step n o = Some n1 → run n1 ops n2 → run n (o :: ops) n2.

(** ** What the code loses *)

(** The flags that a step clears although a call would find something: a read or a write
    that did less than it could and left something, and a [try_io] that blocked, in
    whatever direction, while there is something to read. *)
Definition loses (n : net) (o : netop) : gset (Z * bool) :=
  match o with
  | NPoll x _ p after _ =>
      if flag (io_readiness (reactor n)) x (writes p) && short p && after then {[(x, writes p)]} else ∅
  | NTryIo x _ block => if block && bool_decide ((x, false) ∈ level n) then {[(x, false)]} else ∅
  | _ => ∅
  end.

(** The directions that a step makes up for: an event is raised again, or reported, or the
    socket goes. *)
Definition makes_up (o : netop) : gset (Z * bool) :=
  match o with
  | NEvent x wr => {[(x, wr)]}
  | NPark _ _ ans => list_to_set (reported ans)
  | NDrop x _ => {[(x, false); (x, true)]}
  | _ => ∅
  end.

Definition misses (M : gset (Z * bool)) (n : net) (o : netop) : gset (Z * bool) :=
  loses n o ∪ (M ∖ makes_up o).

(** What the steps [ops] from [n] lost, and none of those that followed made up for. *)
Fixpoint missed (M : gset (Z * bool)) (n : net) (ops : list netop) : gset (Z * bool) :=
  match ops with
  | [] => M
  | o :: ops' => match net_step n o with Some n1 => missed (misses M n o) n1 ops' | None => M end
  end.

(** ** The invariant *)

Definition wants (ab : option Z * option Z) (wr : bool) : option Z := if wr then ab.2 else ab.1.

(** The invariant of a system that missed the events [M]. *)
Record ninv_but (M : gset (Z * bool)) (n : net) (t : service) : Prop := {
  nv_sim : simulates (reactor n) t;
  nv_ok : service_ok t;
  nv_ios : ∀ x, is_Some (ios t !! x) ↔ is_Some (socks n !! x);
  nv_socks : ∀ x s, socks n !! x = Some s →
    resource_id s = x ∧ socket_ok s ∧ (1 ≤ x)%Z ∧ Z.to_nat x < length (io_readiness (reactor n));
  nv_closed : Forall (λ s, well_formed (kernel s)) (closed n);
  nv_wait : ∀ x wr w, waiting n !! (x, wr) = Some w →
    flag (io_readiness (reactor n)) x wr = false ∧
    ∃ ab, ios t !! x = Some ab ∧ wants ab wr = Some w;
  nv_level : ∀ x wr, (x, wr) ∈ level n → is_Some (socks n !! x) →
    flag (io_readiness (reactor n)) x wr = true ∨ (x, wr) ∈ edges n ∨ (x, wr) ∈ M;
}.
Arguments nv_sim {M} n t _.
Arguments nv_ok {M} n t _.
Arguments nv_ios {M} n t _ x.
Arguments nv_socks {M} n t _ x s _.
Arguments nv_closed {M} n t _.
Arguments nv_wait {M} n t _ x wr w _.
Arguments nv_level {M} n t _ x wr _ _.

Notation ninv := (ninv_but ∅).

Section inv.
Implicit Types (M : gset (Z * bool)) (n : net) (t : service) (r : Reactor) (x w : Z) (wr : bool) (s c : IoSocket).

Lemma ninv_level n t x wr :
  ninv n t → (x, wr) ∈ level n → is_Some (socks n !! x) →
  flag (io_readiness (reactor n)) x wr = true ∨ (x, wr) ∈ edges n.
Proof. intros H Hl Hx. destruct (nv_level _ _ H x wr Hl Hx) as [?|[?|?]]; [by left|by right|set_solver]. Qed.

Lemma ninv_mono M M' n t : ninv_but M n t → M ⊆ M' → ninv_but M' n t.
Proof.
  intros [] HM. split; try done. intros x wr Hl Hx. destruct (nv_level0 x wr Hl Hx) as [?|[?|?]]; [tauto..|].
  right. right. by apply HM.
Qed.

Lemma ninv_id_pos M n t x : ninv_but M n t → is_Some (ios t !! x) → (1 ≤ x)%Z.
Proof. intros H [s Hx]%(nv_ios _ _ H). by destruct (nv_socks _ _ H x s Hx) as (_ & _ & ? & _). Qed.

(** A call that is none of the sockets'. *)
Lemma ninv_frame M n t r' t' :
  ninv_but M n t → simulates r' t' → service_ok t' → ios t' = ios t →
  io_readiness r' = io_readiness (reactor n) →
  ninv_but M (mkNet r' (socks n) (closed n) (waiting n) (woken n) (level n) (edges n)) t'.
Proof. intros [] Hs Hok Hi Hr. split; simpl; rewrite ?Hr, ?Hi; done. Qed.

Lemma ninv_add M n t r' t' c now :
  ninv_but M n t → simulates r' t' → service_ok t' →
  kernel c = NetIo.new (resource_id c) → (1 ≤ resource_id c)%Z → ios t !! resource_id c = None →
  ios t' = <[resource_id c := (None, None)]> (ios t) →
  io_readiness r' = Readiness.init_readiness (io_readiness (reactor n)) (resource_id c) →
  ninv_but M (add_socket n r' c now) t'.
Proof.
  intros H Hs Hok Hk Hpos Hno Hi Hr. pose proof H as [].
  set (y := resource_id c) in *. set (v := io_readiness (reactor n)) in *.
  assert (Hns : socks n !! y = None).
  { apply eq_None_not_Some. intros Hc%nv_ios0. rewrite Hno in Hc. by destruct Hc. }
  assert (Hlen : ∀ x, is_Some (socks n !! x) → x ≠ y ∧ (0 ≤ x)%Z ∧ Z.to_nat x < length v).
  { intros x [s Hx]. destruct (nv_socks0 x s Hx) as (? & ? & ? & ?). split; [congruence|]. split; [lia|done]. }
  assert (Hflag : ∀ x wr, is_Some (socks n !! x) → flag (io_readiness r') x wr = flag v x wr).
  { intros x wr (? & ? & ?)%Hlen. rewrite Hr. apply flag_init_other; [lia|done..]. }
  pose proof (length_init v y) as [Hl1 Hl2].
  split; simpl; [done|done|..].
  - intros x. rewrite Hi, !lookup_insert. fold y. case_decide; [done|apply nv_ios0].
  - intros x s. rewrite lookup_insert. fold y. rewrite Hr. case_decide as Hd.
    + intros [= <-]. subst x. split; [done|]. split; [|done]. split; [by rewrite Hk|].
      unfold well_formed. rewrite Hk. simpl. apply wf_new.
    + intros Hx. destruct (nv_socks0 x s Hx) as (? & ? & ? & ?). split; [done|]. split; [done|]. split; [done|lia].
  - done.
  - intros x wr w Hw. destruct (nv_wait0 x wr w Hw) as (Hf & ab & Hab & Hwa).
    assert (Hx : is_Some (socks n !! x)) by (apply nv_ios0; by exists ab).
    rewrite Hflag by done. split; [done|]. exists ab. split; [|done]. rewrite Hi, lookup_insert_ne; [done|].
    by destruct (Hlen x Hx).
  - intros x wr Hl Hx. destruct (decide (x = y)) as [->|Hne].
    + left. rewrite Hr. apply flag_init. lia.
    + rewrite lookup_insert_ne in Hx by done. rewrite Hflag by done. apply nv_level0; [|done].
      apply elem_of_union in Hl as [Hl|Hl]; [done|].
      apply elem_of_list_to_set, list_elem_of_fmap in Hl as (b & [= -> ->] & _). done.
Qed.

(** The flag of one direction is cleared, or none. *)
Lemma flag_maybe_clear (b : bool) v x wr y wr' :
  (0 ≤ x)%Z → (0 ≤ y)%Z → (y, wr') ≠ (x, wr) → flag (if b then clear v x wr else v) y wr' = flag v y wr'.
Proof.
  intros Hx Hy Hne. destruct b; [|done]. rewrite flag_clear by done.
  rewrite bool_decide_eq_false_2 by congruence. by rewrite andb_true_r.
Qed.

Lemma ninv_polled M M' n t x s s' w p r' t' after :
  ninv_but M n t → M ⊆ M' → socks n !! x = Some s → op_allowed n (NPoll x w p after []) →
  let called := flag (io_readiness (reactor n)) x (writes p) in
  let pend := negb called || blocks p in
  resource_id s' = x → socket_ok s' → simulates r' t' → service_ok t' →
  poll_effect s (reactor n) t w p pend None r' t' →
  (called && short p && after = true → (x, writes p) ∈ M') →
  ninv_but M' (polled n s' r' w p pend called after) t'.
Proof.
  intros H HM Hx [_ Hal] called pend Hid Hsk Hs Hok He HM'. pose proof H as []. unfold poll_effect in He.
  destruct (nv_socks0 x s Hx) as (Hsx & _ & Hpos & Hlen). rewrite Hsx in He.
  set (v := io_readiness (reactor n)) in *. fold called in He, Hal. unfold polled. rewrite Hid.
  set (wp := writes p) in *.
  assert (Hcl : ∃ b : bool, io_readiness r' = (if b then clear v x wp else v) ∧
    b = if pend then called else short p).
  { destruct pend; naive_solver. }
  destruct Hcl as (b & Hr & Hb).
  assert (Hlen' : length (io_readiness r') = length v) by (rewrite Hr; destruct b; [apply length_clear|done]).
  assert (Hios : ∀ y, is_Some (ios t' !! y) ↔ is_Some (ios t !! y)).
  { intros y. destruct pend.
    - destruct He as (_ & (ab & Hab & ->) & _). rewrite lookup_insert. case_decide; [subst y; by rewrite Hab|done].
    - by destruct He as [-> _]. }
  assert (Hwants : ∀ y wr ab u, ios t !! y = Some ab → wants ab wr = Some u → (y, wr) ≠ (x, wp) →
    ∃ ab', ios t' !! y = Some ab' ∧ wants ab' wr = Some u).
  { intros y wr ab u Hab Hu Hne. destruct pend; [|exists ab; by destruct He as [-> _]].
    destruct He as (_ & (ab' & Hab' & ->) & _). rewrite lookup_insert. case_decide; [|by exists ab].
    subst y. simplify_eq. eexists. split; [done|].
    destruct wr, wp; first [by destruct Hne | exact Hu]. }
  split; simpl; [done|done|..].
  - intros y. rewrite Hios, lookup_insert, nv_ios0. case_decide; [subst y; by rewrite Hx|done].
  - intros y sy. rewrite Hlen', lookup_insert. case_decide; [intros [= <-]; by subst y|apply nv_socks0].
  - done.
  - intros y wr u Hw.
    assert (Hold : (y, wr) ≠ (x, wp) → waiting n !! (y, wr) = Some u →
      flag (io_readiness r') y wr = false ∧ ∃ ab, ios t' !! y = Some ab ∧ wants ab wr = Some u).
    { intros Hne Hu. destruct (nv_wait0 y wr u Hu) as (Hf & ab & Hab & Hwa).
      split; [|by eapply Hwants]. rewrite Hr, flag_maybe_clear; [done|lia| |done].
      pose proof (ninv_id_pos M n t y H ltac:(by eexists)). lia. }
    destruct pend eqn:Ep.
    + rewrite lookup_insert in Hw. case_decide as Hd; [|by apply Hold].
      injection Hd as <- <-. injection Hw as <-. split.
      * rewrite Hr, Hb. destruct called eqn:Ec; [|done]. rewrite flag_clear by lia.
        by rewrite bool_decide_eq_true_2, andb_false_r.
      * destruct He as (_ & (ab & Hab & ->) & _). rewrite lookup_insert_eq. eexists. split; [done|].
        unfold wants, with_wakers, interest_of. by destruct wp.
    + apply lookup_delete_Some in Hw as [? ?]. by apply Hold.
  - intros y wr Hl Hy.
    assert (Hy' : is_Some (socks n !! y)).
    { rewrite lookup_insert in Hy. case_decide; [subst y; by eexists|done]. }
    destruct (decide ((y, wr) = (x, wp))) as [[= -> ->]|Hne].
    + assert (Hl' : (x, wp) ∈ level n ∧ (called = true → after = true)).
      { destruct called, after; set_solver. }
      destruct Hl' as [Hl' Haf]. destruct (nv_level0 x wp Hl' Hy') as [Hf|[?|Hm]]; [|tauto|right; right; by apply HM].
      fold v in Hf. fold called in Hf. rewrite Hf in HM'. rewrite (Haf Hf), andb_true_r in HM'.
      destruct (short p) eqn:Esh; [right; right; by apply HM'|].
      left. rewrite Hr. replace b with false; [done|]. rewrite Hb. unfold pend. rewrite Hf. simpl.
      destruct (blocks p); [by destruct (Hal Hf eq_refl)|done].
    + assert (Hl' : (y, wr) ∈ level n) by (destruct (called && negb after); set_solver).
      rewrite Hr, flag_maybe_clear; [destruct (nv_level0 y wr Hl' Hy') as [?|[?|?]]; auto|lia| |done].
      destruct Hy' as [sy Hsy]. destruct (nv_socks0 y sy Hsy) as (_ & _ & ? & _). lia.
Qed.

(** ** Parking *)

Lemma reported_events es x wr :
  Forall (λ e, is_u64 (token e)) es →
  (x, wr) ∈ reported (Ok es) ↔
    ∃ e, e ∈ collect_io_events es ∧ Reactor.resource_id e = x ∧ mode_wr (mode e) = wr.
Proof.
  intros Hes. unfold reported, collect_io_events. cbn beta iota. rewrite list_elem_of_bind.
  setoid_rewrite list_elem_of_bind.
  rewrite Forall_forall in Hes. unfold decode_token_raw. split.
  - intros (e & Hin & He). specialize (Hes e He). rewrite elem_of_app in Hin. destruct Hin as [Hin|Hin].
    + destruct (Reactor.is_readable e) eqn:Er; [|by apply not_elem_of_nil in Hin].
      apply list_elem_of_singleton in Hin as [= -> ->]. eexists. split.
      * exists e. split; [|done]. rewrite Er. apply elem_of_app. left. by apply list_elem_of_singleton.
      * split; [by apply wrap64_id|done].
    + destruct (Reactor.is_writable e) eqn:Er; [|by apply not_elem_of_nil in Hin].
      apply list_elem_of_singleton in Hin as [= -> ->]. eexists. split.
      * exists e. split; [|done]. rewrite Er. apply elem_of_app. right. by apply list_elem_of_singleton.
      * split; [by apply wrap64_id|done].
  - intros (ev & (e & Hin & He) & <- & <-). specialize (Hes e He). exists e. split; [|done].
    rewrite elem_of_app in Hin. rewrite elem_of_app. destruct Hin as [Hin|Hin].
    + left. destruct (Reactor.is_readable e); [|by apply not_elem_of_nil in Hin].
      apply list_elem_of_singleton in Hin as ->. simpl. rewrite wrap64_id by done. by apply list_elem_of_singleton.
    + right. destruct (Reactor.is_writable e); [|by apply not_elem_of_nil in Hin].
      apply list_elem_of_singleton in Hin as ->. simpl. rewrite wrap64_id by done. by apply list_elem_of_singleton.
Qed.

Lemma events_nonneg es : Forall (λ e, 0 ≤ Reactor.resource_id e)%Z (collect_io_events es).
Proof.
  apply Forall_forall. intros ev (e & Hin & _)%list_elem_of_bind.
  assert (Reactor.resource_id ev = wrap64 (token e)) as ->; [|apply wrap64_range].
  rewrite elem_of_app in Hin. destruct Hin as [Hin|Hin]; case_match; set_solver.
Qed.

(** The flags after a park: those reported are set, the others stay. *)
Lemma flag_park r timeout raw ans x wr :
  (∀ es, ans = Ok es → Forall (λ e, is_u64 (token e)) es) →
  (0 ≤ x)%Z → Z.to_nat x < length (io_readiness r) →
  flag (io_readiness (flush_and_park r timeout raw (λ _, ans)).2) x wr = true ↔
    flag (io_readiness r) x wr = true ∨ (x, wr) ∈ reported ans.
Proof.
  intros Hes Hx Hl. rewrite readiness_park. destruct ans as [es|e].
  - rewrite flag_mark_events by (done || apply events_nonneg). by rewrite reported_events by auto.
  - simpl. rewrite elem_of_nil. naive_solver.
Qed.

Lemma length_park r timeout raw ans :
  length (io_readiness (flush_and_park r timeout raw (λ _, ans)).2) = length (io_readiness r).
Proof. rewrite readiness_park. case_match; [apply length_mark_events|done]. Qed.

Lemma foldr_delete_lookup {A} (m : gmap (Z * bool) A) ks k :
  foldr base.delete m ks !! k = if decide (k ∈ ks) then None else m !! k.
Proof.
  case_decide; [by apply lookup_foldr_delete|by apply lookup_foldr_delete_not_elem_of].
Qed.

(** A park step of the sockets' system. *)
Lemma park_net M n t timeout raw ans :
  ninv_but M n t → op_allowed n (NPark timeout raw ans) →
  ∃ n' t' ws, net_step n (NPark timeout raw ans) = Some n' ∧ ninv_but (M ∖ list_to_set (reported ans)) n' t' ∧ woken n' = woken n ++ ws ∧
    (∀ x wr, is_Some (socks n !! x) →
       flag (io_readiness (reactor n')) x wr = true ↔
         flag (io_readiness (reactor n)) x wr = true ∨ (x, wr) ∈ reported ans) ∧
    ∀ x wr w, waiting n !! (x, wr) = Some w → (x, wr) ∈ reported ans → (w, x) ∈ ws.
Proof.
  intros H (Hraw & Hto & Htok). pose proof H as [].
  assert (Hc : call_allowed t (Park timeout raw (λ _, ans))) by done.
  destruct (park_step (reactor n) t timeout raw _ nv_sim0 Hc) as (a & r' & t' & Hr & Ht & Hs').
  unfold net_step. rewrite Hr. cbn [mbind option_bind]. eexists _, t', _. split; [done|].
  assert (Hrd : r' = (flush_and_park (reactor n) timeout raw (λ _, ans)).2).
  { simpl in Hr. destruct (flush_and_park _ _ _ _). by simplify_eq. }
  assert (Hok' : service_ok t') by by eapply sstep_ok.
  assert (Hios : ios t' = ios t) by by inversion Ht.
  assert (Hlen : length (io_readiness r') = length (io_readiness (reactor n))).
  { rewrite Hrd. apply length_park. }
  assert (Hflag : ∀ x wr, is_Some (socks n !! x) →
    (flag (io_readiness r') x wr = true ↔ flag (io_readiness (reactor n)) x wr = true ∨ (x, wr) ∈ reported ans)).
  { intros x wr [s Hx]. destruct (nv_socks0 x s Hx) as (_ & _ & ? & ?). rewrite Hrd.
    apply flag_park; [done|lia|done]. }
  split.
  - split; simpl; rewrite ?Hios, ?Hlen; try done.
    + intros x wr w. rewrite foldr_delete_lookup. case_decide as Hd; [done|]. intros Hw.
      destruct (nv_wait0 x wr w Hw) as (Hf & ab & Hab & Hwa). split; [|by exists ab].
      apply not_true_is_false. rewrite Hflag by (apply nv_ios0; by exists ab). rewrite Hf. naive_solver.
    + intros x wr Hl Hx. rewrite (Hflag x wr Hx). destruct (decide ((x, wr) ∈ reported ans)); [by left; right|].
      rewrite !elem_of_difference, !elem_of_list_to_set. destruct (nv_level0 x wr Hl Hx) as [?|[?|?]]; tauto.
  - split; [done|]. split; [exact Hflag|].
    intros x wr w Hw Hrep. destruct (nv_wait0 x wr w Hw) as (_ & ab & Hab & Hwa). simpl.
    inversion Ht as [| | | | | | | |T I c i sp ? ? ? to ws now Hsl Hdue]; subst. simpl in *.
    destruct ans as [es|e]; [|by apply not_elem_of_nil in Hrep].
    apply reported_events in Hrep as (e & He & <- & <-); [|by apply Htok].
    rewrite elem_of_app. right. apply list_elem_of_bind. exists e. split; [|done].
    unfold io_waker. rewrite Hab. unfold wants in Hwa. destruct (mode e); simpl in *; rewrite Hwa;
      by apply list_elem_of_singleton.
Qed.

(** ** Every step *)

Lemma open_net M n t interest source os now :
  ninv_but M n t → ∃ n' t', net_step n (NOpen interest source os now) = Some n' ∧ ninv_but M n' t'.
Proof.
  intros H. pose proof (from_mio_spec (reactor n) t interest source os (nv_sim _ _ H) (nv_ok _ _ H)) as Hm.
  unfold net_step. destruct (from_mio _ _ _ _) as [res r']. destruct Hm as (t' & Hs & Hok & Hres).
  eexists _, t'. split; [done|]. destruct res as [c|e].
  - destruct Hres as (_ & Hk & Hpos & Hno & Hi & Hr). by eapply ninv_add.
  - destruct Hres as [Hi Hr]. by eapply ninv_frame.
Qed.

Lemma poll_net M n t x w p after now :
  ninv_but M n t → op_allowed n (NPoll x w p after now) →
  ∃ n' t', net_step n (NPoll x w p after now) = Some n' ∧
    ninv_but (misses M n (NPoll x w p after now)) n' t'.
Proof.
  intros H Ha. pose proof Ha as [[s Hx] _]. pose proof H as []. set (M' := misses M n _).
  assert (HM : M ⊆ M') by (unfold M', misses; simpl; set_solver).
  assert (HM' : flag (io_readiness (reactor n)) x (writes p) && short p && after = true → (x, writes p) ∈ M').
  { unfold M', misses, loses. intros ->. set_solver. }
  destruct (nv_socks0 x s Hx) as (Hid & Hsk & Hpos & Hlen).
  assert (Hio : is_Some (ios t !! resource_id s)) by (apply nv_ios0; rewrite Hid; by exists s).
  destruct (run_poll_spec s (reactor n) t w p nv_sim0 nv_ok0 Hsk Hio)
    as (acc & s' & r' & t' & Hr & Hs' & Hok' & Hsk' & _ & Hid' & He).
  unfold net_step. rewrite Hx. cbn [mbind option_bind]. rewrite Hr. cbn [mbind option_bind].
  eexists _, t'. split; [done|]. rewrite Hid in *. destruct acc as [c|].
  - unfold poll_effect in He. destruct (negb _ || _) eqn:Ep; [by destruct He|].
    destruct He as (Hsh & Hk & Hc & Hno & Hi & Hrd). rewrite <- Ep.
    pose proof (ninv_polled M M' n t x s s' w p (reactor n) t after H HM Hx Ha Hid' Hsk' nv_sim0 nv_ok0) as Hp.
    rewrite Ep in Hp. specialize (Hp ltac:(unfold poll_effect; by rewrite Hsh) HM'). rewrite <- Ep in Hp.
    exact (ninv_add M' _ t r' t' c now Hp Hs' Hok' Hk Hc Hno Hi Hrd).
  - by eapply ninv_polled.
Qed.

Lemma drop_net M n t x os :
  ninv_but M n t → op_allowed n (NDrop x os) →
  ∃ n' t', net_step n (NDrop x os) = Some n' ∧ ninv_but (misses M n (NDrop x os)) n' t'.
Proof.
  intros H [s Hx]. pose proof H as [].
  destruct (nv_socks0 x s Hx) as (Hid & [Hk Hwf] & Hpos & Hlen). unfold net_step. rewrite Hx. cbn [mbind option_bind].
  unfold NetIo.drop. rewrite Hid.
  assert (Hc : call_allowed t (DeregisterIo x (inner s) os)) by by apply nv_ios0; exists s.
  pose proof (deregister_io_step (reactor n) t x (inner s) os nv_sim0 Hc) as Hd.
  pose proof (readiness_deregister_io (reactor n) x (inner s) os) as Hr.
  destruct (deregister_io_resource (reactor n) x (inner s) os) as [a r']. destruct Hd as (t' & Ht & Hs').
  eexists _, t'. split; [done|].
  assert (Hok' : service_ok t') by by eapply sstep_ok.
  assert (Hi : ios t' = base.delete x (ios t)) by by inversion Ht.
  simpl in Hr. split; simpl; rewrite ?Hr, ?Hi; try done.
  - intros y. rewrite !lookup_delete_is_Some. by rewrite nv_ios0.
  - intros y sy [_ Hy]%lookup_delete_Some. by apply nv_socks0.
  - apply Forall_app. split; [done|]. apply Forall_singleton. simpl. by apply drop_step_wf.
  - intros y wr w [Hn1 [Hn2 Hw]%lookup_delete_Some]%lookup_delete_Some.
    destruct (nv_wait0 y wr w Hw) as (Hf & ab & Hab & Hwa). split; [done|]. exists ab. split; [|done].
    rewrite lookup_delete_ne; [done|]. intros ->. by destruct wr.
  - intros y wr Hl [Hne Hy]%lookup_delete_is_Some. destruct (nv_level0 y wr Hl Hy) as [?|[?|?]]; [tauto..|].
    right. right. unfold misses. simpl. set_solver.
Qed.

Lemma timer_net M n t (cl : call) :
  ninv_but M n t → op_allowed n (NTimer cl) → ∃ n' t', net_step n (NTimer cl) = Some n' ∧ ninv_but M n' t'.
Proof.
  intros H [Hc Hal]. specialize (Hal t (nv_sim _ _ H)).
  destruct (rstep_simulates (reactor n) t cl (nv_sim _ _ H) Hal) as (a & r' & t' & Hr & Ht & Hs').
  unfold net_step. rewrite Hr. cbn [mbind option_bind]. eexists _, t'. split; [done|].
  eapply ninv_frame; [done..|by eapply sstep_ok; [apply (nv_ok _ _ H)|..]| |by eapply readiness_timer_call].
  destruct cl; try done; by inversion Ht.
Qed.

Lemma try_io_net M n t x interest block :
  ninv_but M n t → op_allowed n (NTryIo x interest block) →
  ∃ n' t', net_step n (NTryIo x interest block) = Some n' ∧
    ninv_but (misses M n (NTryIo x interest block)) n' t'.
Proof.
  intros H [s Hx]. pose proof H as []. set (M' := misses M n _).
  assert (HM : M ⊆ M') by (unfold M', misses; simpl; set_solver).
  destruct (nv_socks0 x s Hx) as (Hid & _ & Hpos & Hlen). unfold net_step. rewrite Hx. cbn [mbind option_bind].
  destruct block; simpl; eexists _, t; (split; [done|]); [|eapply ninv_mono; [by eapply ninv_frame|done]].
  unfold NetIo.clear_readable. rewrite Hid.
  change (Readiness.clear_readable (io_readiness (reactor n)) x) with (clear (io_readiness (reactor n)) x false).
  pose proof (length_clear (io_readiness (reactor n)) x false) as Hl'.
  pose proof (λ y wr H, flag_clear (io_readiness (reactor n)) x false y wr ltac:(lia) H) as Hf'.
  set (v' := clear _ x false) in *.
  assert (Hother : ∀ y wr, is_Some (socks n !! y) → (0 ≤ y)%Z) by (intros y _ [sy Hy]; apply nv_socks0 in Hy; naive_solver lia).
  split; simpl; try done; [by apply simulates_readiness|..].
  - intros y sy Hy. rewrite Hl'. by apply nv_socks0.
  - intros y wr w Hw. destruct (nv_wait0 y wr w Hw) as (Hf & ab & Hab & ?). split; [|by exists ab].
    rewrite Hf', Hf; [done|]. apply (Hother y wr), nv_ios0. by exists ab.
  - intros y wr Hl Hy. destruct (decide ((y, wr) = (x, false))) as [[= -> ->]|Hne].
    + right. right. unfold M', misses, loses. rewrite bool_decide_eq_true_2 by done. simpl. set_solver.
    + rewrite Hf' by by eapply Hother. rewrite bool_decide_eq_false_2 by congruence. rewrite andb_true_r.
      destruct (nv_level0 y wr Hl Hy) as [?|[?|?]]; auto.
Qed.

Lemma net_step_inv M n t o :
  ninv_but M n t → op_allowed n o → ∃ n' t', net_step n o = Some n' ∧ ninv_but (misses M n o) n' t'.
Proof.
  intros H Ha. destruct o as [interest source os now|x w p after now|x interest block|x os|x wr|x wr|timeout raw ans|c].
  - destruct (open_net M n t interest source os now H) as (n' & t' & ? & H'). exists n', t'. split; [done|].
    eapply ninv_mono; [done|]. unfold misses. simpl. set_solver.
  - by eapply poll_net.
  - by eapply try_io_net.
  - by eapply drop_net.
  - pose proof H as []. eexists _, t. split; [done|]. split; simpl; try done.
    intros y wr' Hl Hy. rewrite elem_of_union in Hl. rewrite elem_of_union. destruct Hl as [Hl|Hl]; [by right; left; left|].
    destruct (nv_level0 y wr' Hl Hy) as [?|[?|?]]; [by left|by right; left; right|].
    destruct (decide ((y, wr') ∈@{gset _} {[(x, wr)]})); [by right; left; left|]. right. right. unfold misses. simpl. set_solver.
  - pose proof H as []. eexists _, t. split; [done|]. split; simpl; try done.
    intros y wr' [Hl _]%elem_of_difference Hy. destruct (nv_level0 y wr' Hl Hy) as [?|[?|?]]; [tauto..|].
    right. right. unfold misses. simpl. set_solver.
  - destruct (park_net M n t timeout raw ans H Ha) as (n' & t' & ? & ? & H' & _). exists n', t'. split; [done|].
    eapply ninv_mono; [done|]. unfold misses. simpl. set_solver.
  - destruct (timer_net M n t c H Ha) as (n' & t' & ? & H'). exists n', t'. split; [done|].
    eapply ninv_mono; [done|]. unfold misses. simpl. set_solver.
Qed.

(** A step that loses nothing. *)
Lemma net_step_ninv n t o :
  ninv n t → op_allowed n o → loses n o = ∅ → ∃ n' t', net_step n o = Some n' ∧ ninv n' t'.
Proof.
  intros H Ha Hl. destruct (net_step_inv ∅ n t o H Ha) as (n' & t' & ? & H'). exists n', t'. split; [done|].
  eapply ninv_mono; [done|]. unfold misses. rewrite Hl. set_solver.
Qed.

Lemma ninv_init : ninv net_init service_init.
Proof.
  split; simpl; try done.
  - apply simulates_new.
  - apply service_ok_init.
  - intros x. by rewrite !lookup_empty.
Qed.

Lemma run_inv M n0 ops n t0 : run n0 ops n → ninv_but M n0 t0 → ∃ t, ninv_but (missed M n0 ops) n t.
Proof.
  intros Hr. revert M t0. induction Hr as [n|n o n1 ops n2 Ha Hs _ IH]; intros M t0 H; [by exists t0|].
  destruct (net_step_inv M n t0 o H Ha) as (n' & t' & Hs' & H'). simplify_eq.
  simpl. rewrite Hs. by eapply IH.
Qed.

End inv.

(** ** Theorems *)

(** C12. Network wake-ups are not lost, except where the code loses them.  In every run in which
    the system keeps to its documented behaviour, no allowed step panics, and while a poll is
    suspended on a direction of a socket and a call would find something, the system owes the
    reactor an event for it, or a step cleared its flag and nothing made up for it since: a read
    or a write that did less than it could although something was left, as an end of file, or
    a [try_io] that blocked, in whatever direction, with something to read.  When a park
    reports that direction, the waker of the last suspended poll is woken and the flag is set,
    so that the next poll makes the call. *)
Theorem net_no_lost_wakeup ops n :
  run net_init ops n →
  (∀ o, op_allowed n o → is_Some (net_step n o)) ∧
  ∀ x wr w, waiting n !! (x, wr) = Some w →
    ((x, wr) ∈ level n → (x, wr) ∈ edges n ∨ (x, wr) ∈ missed ∅ net_init ops) ∧
    ∀ timeout raw ans n', op_allowed n (NPark timeout raw ans) → (x, wr) ∈ reported ans →
      net_step n (NPark timeout raw ans) = Some n' →
      (w, x) ∈ woken n' ∧ flag (io_readiness (reactor n')) x wr = true.
Proof.
  intros Hr. destruct (run_inv ∅ _ _ _ _ Hr ninv_init) as [t H]. set (M := missed _ _ _) in *. split.
  { intros o Ho. destruct (net_step_inv M n t o H Ho) as (n' & _ & -> & _). by eexists. }
  intros x wr w Hw. destruct (nv_wait _ _ H x wr w Hw) as (Hf & ab & Hab & _).
  assert (Hx : is_Some (socks n !! x)) by (apply (nv_ios _ _ H); by exists ab). split.
  - intros Hl. destruct (nv_level _ _ H x wr Hl Hx) as [?|?]; [congruence|done].
  - intros timeout raw ans n' Ha Hrep Hs.
    destruct (park_net M n t timeout raw ans H Ha) as (n1 & t1 & ws & Hs1 & _ & Hwk & Hfl & Hws).
    assert (n' = n1) as -> by congruence. rewrite Hwk, elem_of_app. split; [right; by eapply Hws|].
    apply Hfl; [done|by right].
Qed.

(** Sockets own their resources.  In every run the I/O resources of the reactor
    are exactly the open sockets'; the log of each open socket satisfies the two
    invariants of every utility and shows its resource registered and not given back,
    and the log of a closed one satisfies them with its deregistration. *)
Theorem net_sockets_own_resources ops n :
  run net_init ops n →
  ∃ t, simulates (reactor n) t ∧
    (∀ x, is_Some (ios t !! x) ↔ is_Some (socks n !! x)) ∧
    (∀ x s, socks n !! x = Some s →
       utility_inv (NetIo.log (kernel s)) ∧
       io_active_at (NetIo.log (kernel s)) x (length (NetIo.log (kernel s)))) ∧
    ∀ s, s ∈ closed n → utility_inv (NetIo.log (kernel s)).
Proof.
  intros Hr. destruct (run_inv ∅ _ _ _ _ Hr ninv_init) as [t []]. exists t.
  split; [done|]. split; [done|]. split.
  - intros x s Hx. destruct (nv_socks0 x s Hx) as (<- & [Hrid [Hinv Hact]] & _). split; [done|].
    by destruct (Hact _ Hrid).
  - intros s Hs. rewrite Forall_forall in nv_closed0. by destruct (nv_closed0 s Hs).
Qed.

(** After a read that fills only part of the buffer, the next poll suspends
    without a system call, whatever a call would answer: an end of file that came
    with the data, for which the system reports no further event, is not read. *)
Theorem short_read_ignores_eof s r t w w' len len' data :
  simulates r t → service_ok t → socket_ok s → is_Some (ios t !! resource_id s) →
  NetIo.is_readable r (resource_id s) = true → 0 < length data < len →
  ∃ s1 r1, poll_read s r w len (SysOk data) = Some (Ready (Ok data), s1, r1) ∧
    ∃ s2 r2, ∀ sys, poll_read s1 r1 w' len' sys = Some (PendingPoll, s2, r2).
Proof.
  intros Hs Hok Hsk Hio Hf Hlen. pose proof (so_ios _ Hok _ Hio) as Hpos.
  destruct (poll_step_ok s w Read true false Hsk) as (k & Hk & Hsk1).
  exists (with_kernel s k), (NetIo.clear_readable r (resource_id s)). split.
  { unfold poll_read. rewrite Hf, Hk. simpl.
    by destruct (Nat.ltb_spec 0 (length data)), (Nat.ltb_spec (length data) len); try lia. }
  destruct (poll_step_ok (with_kernel s k) w' Read false false Hsk1) as (k2 & Hk2 & _).
  destruct Hio as [ab Hab].
  destruct (set_waker_ios (NetIo.clear_readable r (resource_id s)) t _ READABLE w' ab
    (simulates_readiness _ _ _ Hs) Hab) as (r2 & Hr2 & _ & _).
  assert (Hf1 : NetIo.is_readable (NetIo.clear_readable r (resource_id s)) (resource_id s) = false).
  { change (flag (clear (io_readiness r) (resource_id s) false) (resource_id s) false = false).
    rewrite flag_clear by lia. by rewrite bool_decide_eq_true_2, andb_false_r. }
  eexists _, r2. intros sys. unfold poll_read. simpl resource_id. rewrite Hf1, Hk2. simpl. by rewrite Hr2.
Qed.

(** ** Runs *)

Definition os_ok : Z → Z → bool * bool → IoResultView unit := λ _ _ _, Ok tt.

Definition run_steps (n : net) (ops : list netop) : net :=
  foldl (λ n o, default n (net_step n o)) n ops.

Lemma run_by_steps n ops :
  (∀ pre o post, ops = pre ++ o :: post →
     op_allowed (run_steps n pre) o ∧ is_Some (net_step (run_steps n pre) o)) →
  run n ops (run_steps n ops).
Proof.
  revert n. induction ops as [|o ops IH]; intros n H; simpl; [constructor|].
  destruct (H [] o ops eq_refl) as [Ha [n1 Hs]]. simpl in Ha, Hs. rewrite Hs. simpl.
  eapply run_cons; [done|done|]. apply IH. intros pre o' post ->.
  specialize (H (o :: pre) o' post eq_refl). unfold run_steps in *. simpl in H. by rewrite Hs in H.
Qed.

(** A stream suspends a read; data arrives. *)
Definition arrival : list netop :=
  [NOpen READABLE_WRITABLE 10 os_ok [true]; NPoll 1 7 (PRead 4 SysWouldBlock) false []; NEvent 1 false].

Definition readable_event (x : Z) : MioEvent := mkMioEvent x true false false false false.

(** Two tasks receive on one socket. *)
Definition two_receivers : list netop :=
  [NOpen READABLE_WRITABLE 10 os_ok []; NPoll 1 7 (PRecv SysWouldBlock) false [];
   NPoll 1 8 (PRecv SysWouldBlock) false []; NEvent 1 false; NPark None 5 (Ok [readable_event 1])].

(** The last data and the end of file are there at once: the read of the data is short. *)
Definition end_of_file : list netop :=
  [NOpen READABLE_WRITABLE 10 os_ok [false]; NPoll 1 7 (PRead 4 (SysOk [65; 66]%Z)) true [];
   NPoll 1 7 (PRead 4 SysWouldBlock) false []].

Ltac by_eval := refine (bool_decide_unpack _ _); vm_compute; exact I.

(** Each step of a concrete run: it is taken, and the polls in it are allowed. *)
Ltac eval_run :=
  apply run_by_steps; intros pre o post Heq;
  repeat (destruct pre as [|? pre];
    [injection Heq as <- <-; split; [|eexists; vm_compute; reflexivity]|injection Heq as <- Heq]);
  [unfold op_allowed..|by destruct pre];
  try match goal with
  | |- is_Some _ ∧ _ => split; [eexists; vm_compute; reflexivity|intros _ _; by_eval]
  | |- is_Some _ => eexists; vm_compute; reflexivity
  | |- True => exact I
  end.

(** A park that reports the direction wakes only the task whose poll suspended
    last: of two tasks that receive on one socket at the same time, the first is
    left suspended, and nothing is left to wake it. *)
Theorem shared_socket_wakes_one :
  let n := run_steps net_init two_receivers in
  run net_init two_receivers n ∧ woken n = [(8, 1)%Z] ∧ waiting n = ∅ ∧ edges n = ∅.
Proof.
  split; [|split; [|split]; by_eval]. unfold two_receivers. eval_run.
  split; [u64|]. split; [done|]. intros es [= <-]. repeat constructor; simpl; u64.
Qed.

(** The exception is real: the end of file waits to be read, the task waits for an event,
    and the system owes none. *)
Theorem end_of_file_missed :
  let n := run_steps net_init end_of_file in
  run net_init end_of_file n ∧ waiting n !! (1, false)%Z = Some 7%Z ∧ (1, false)%Z ∈ level n ∧ edges n = ∅ ∧
  missed ∅ net_init end_of_file = {[(1, false)%Z]}.
Proof.
  split; [|split_and!; by_eval]. unfold end_of_file. eval_run; (split; [by eexists; vm_compute; reflexivity|]).
  - discriminate.
  - intros Hf. vm_compute in Hf. discriminate.
Qed.

(** ** Witnesses *)

Lemma net_no_lost_wakeup_witness :
  let n := run_steps net_init arrival in
  waiting n !! (1, false)%Z = Some 7%Z ∧ (1, false)%Z ∈ edges n ∧
  is_Some (net_step n (NEvent 1 true)).
Proof.
  intros n. assert (Hr : run net_init arrival n) by (unfold n, arrival; eval_run).
  destruct (net_no_lost_wakeup arrival n Hr) as [Hstep Hw].
  assert (Hwt : waiting n !! (1, false)%Z = Some 7%Z) by (vm_compute; reflexivity).
  split; [done|]. split.
  { destruct (proj1 (Hw 1%Z false 7%Z Hwt)) as [?|Hm]; [by_eval|done|].
    assert (Hn : missed ∅ net_init arrival = ∅) by (vm_compute; reflexivity). set_solver. }
  apply Hstep. eexists. vm_compute. reflexivity.
Defined.

Lemma net_sockets_own_resources_witness :
  ∃ t, simulates (reactor (run_steps net_init arrival)) t ∧ is_Some (ios t !! 1%Z).
Proof.
  assert (Hr : run net_init arrival (run_steps net_init arrival)) by (unfold arrival; eval_run).
  destruct (net_sockets_own_resources arrival _ Hr) as (t & Hs & Hi & _).
  exists t. split; [done|]. apply Hi. eexists. vm_compute. reflexivity.
Defined.

Lemma short_read_ignores_eof_witness :
  let n := run_steps net_init [NOpen READABLE_WRITABLE 10 os_ok [false]] in
  let s := mkSocket 10 1 (NetIo.new 1) in
  ∃ s1 r1, poll_read s (reactor n) 7 4 (SysOk [65; 66]%Z) = Some (Ready (Ok [65; 66]%Z), s1, r1) ∧
    ∃ s2 r2, ∀ sys, poll_read s1 r1 7 4 sys = Some (PendingPoll, s2, r2).
Proof.
  intros n s. assert (Hr : run net_init [NOpen READABLE_WRITABLE 10 os_ok [false]] n) by (unfold n; eval_run).
  destruct (run_inv ∅ _ _ _ _ Hr ninv_init) as [t H].
  assert (Hs : socks n !! 1%Z = Some s) by (vm_compute; reflexivity).
  apply (short_read_ignores_eof s (reactor n) t).
  - apply (nv_sim _ _ H).
  - apply (nv_ok _ _ H).
  - apply (nv_socks _ _ H _ _ Hs).
  - apply (nv_ios _ _ H). by exists s.
  - vm_compute. reflexivity.
  - simpl. lia.
Defined.
