(* ===== verification/NetTasks.v ===== *)
(** * NetTasks: the executor over the reactor, with tasks that use sockets

    The class [Executor.Env] with the modelled reactor and the sockets of [NetSpec] behind
    it: each task opens a socket, polls one operation on it until it is ready, and drops
    the socket, as in [UdpSocket::bind(..)], [recv_from(..).await] and the end of the
    scope.  Data or space for a task arrives at moments that a script gives, and each
    park reports those of the pending edges that the script says.  The laws of
    [ExecSuspend] hold, so that the theorems on the executor compose with those on the
    reactor and the sockets. *)

From S2P Require Import Prelude Store Slab TidLedger ExecLog Tls Executor.
From S2P Require Import ExecInv ExecOps ExecTick ExecSpec ExecWake ExecSuspend.
From S2P Require Import UtilityLog Readiness ReactorLog ResourceSlab Reactor ReactorInv ReactorOps ReactorSpec.
From S2P Require Import NetIo NetInv NetSpec.
Import UtilityLog Reactor NetIo ExecLog Executor.
Import NetInv NetSpec.

Module NetTasks.

(** What a task does: [call] is the operation, with the answer that the system gives
    once there is something to do. *)
Record job := mkJob {
  source : Z;
  os_register : Z → Z → bool * bool → IoResultView unit;
  call : pollop;
  os_drop : Z → IoResultView unit;
}.

(** What the system does at one poll or park: the tasks whose data arrives, the clock,
    and for which tasks a park reports the event. *)
Record moment := mkMoment { arrives : list Z; reading : Z; outcome : IoResultView (Z → bool) }.

(** [owned] gives the socket of each task that has one, [data] the tasks whose data
    has arrived; [used] moments of the script are past. *)
Record world := mkWorld {
  sys : net;
  owned : gmap Z Z;
  data : gset Z;
  script : nat → moment;
  used : nat;
  jobs : Z → job;
}.

Definition set_sys (w : world) (n : net) (o : gmap Z Z) : world :=
  mkWorld n o (data w) (script w) (used w) (jobs w).

Definition dir (w : world) (k : Z) : bool := NetInv.writes (call (jobs w k)).
Definition now (w : world) : moment := script w (used w).
Definition flagged (n : net) (x : Z) (wr : bool) : bool := flag (io_readiness (reactor n)) x wr.

(** The same operation, which finds nothing to do. *)
Definition would_block (p : pollop) : pollop :=
  match p with
  | PRead len _ => PRead len SysWouldBlock
  | PWrite len _ => PWrite len SysWouldBlock
  | PAccept _ os => PAccept SysWouldBlock os
  | PRecv _ => PRecv SysWouldBlock
  | PSend _ => PSend SysWouldBlock
  | PConnect _ _ => PConnect (Ok None) NotConnected
  end.

Definition accepts (p : pollop) : bool := match p with PAccept _ _ => true | _ => false end.

(** What arrives is an event at the socket of each task that has one. *)
Definition arrivals (w : world) : list (Z * bool) :=
  omap (λ k, x ← owned w !! k; Some (x, dir w k)) (arrives (now w)).

Definition arrive (w : world) : world :=
  mkWorld (run_steps (sys w) ((λ z, NEvent z.1 z.2) <$> arrivals w)) (owned w)
    (list_to_set (arrives (now w)) ∪ data w) (script w) (S (used w)) (jobs w).

(** The first poll of a task opens its socket. *)
Definition open_socket (tid : Z) (w : world) : option Z * world :=
  match owned w !! tid with
  | Some x => (Some x, w)
  | None =>
      let j := jobs w tid in
      let n := run_steps (sys w) [NOpen READABLE_WRITABLE (source j) (os_register j)
        (if decide (tid ∈ data w) then [dir w tid] else [])] in
      match (from_mio (reactor (sys w)) READABLE_WRITABLE (source j) (os_register j)).1 with
      | Ok c => (Some (resource_id c), set_sys w n (<[tid := resource_id c]> (owned w)))
      | Err _ => (None, set_sys w n (owned w))
      end
  end.

(** The answer of the system to the task at this moment. *)
Definition answer (w : world) (tid : Z) : pollop :=
  if decide (tid ∈ data w) then call (jobs w tid) else would_block (call (jobs w tid)).

(** A poll that is not pending, or a socket that cannot be opened, ends the task. *)
Definition net_poll (tid : Z) (w : world) : bool * world :=
  match open_socket tid (arrive w) with
  | (None, w1) => (true, w1)
  | (Some x, w1) =>
      let n := run_steps (sys w1) [NPoll x tid (answer w1 tid) false []] in
      match waiting n !! (x, dir w1 tid) with
      | Some _ => (false, set_sys w1 n (owned w1))
      | None =>
          (true, set_sys w1 (run_steps n [NDrop x (os_drop (jobs w1 tid)); NDrain x false; NDrain x true])
            (base.delete tid (owned w1)))
      end
  end.

(** What a park reports: the pending edges of the tasks that [f] selects. *)
Definition events (w : world) (f : Z → bool) : list MioEvent :=
  omap (λ '(k, x), if bool_decide ((x, dir w k) ∈ edges (sys w)) && f k
      then Some (mkMioEvent x (negb (dir w k)) (dir w k) false false false) else None)
    (map_to_list (owned w)).

Definition park_answer (w : world) (o : IoResultView (Z → bool)) : IoResultView (list MioEvent) :=
  match o with Ok f => Ok (events w f) | Err e => Err e end.

Definition io_wake (u : Z * Z) : external unit := Wake true false Tls.Reactor u.1.

Definition net_park (ms : Z) (w : world) : world * list (external unit) :=
  let w1 := arrive w in
  let n := run_steps (sys w1)
    [NPark (Some (wrap64 ms)) (wrap64 (reading (now w))) (park_answer w1 (outcome (now w)))] in
  (set_sys w1 n (owned w1), io_wake <$> skipn (length (woken (sys w1))) (woken n)).

#[global] Instance net_env : Env unit world := {
  future_poll tid f w :=
    if decide (is_u64 tid) then let '(ready, w') := net_poll tid w in (ready, f, w', [])
    else (true, f, w, []);
  reactor_flush_pending_deregister w := w;
  reactor_park := net_park;
}.

Definition world_init (sc : nat → moment) (jb : Z → job) : world := mkWorld net_init ∅ ∅ sc 0 jb.

(** ** The invariant of the world *)

Record world_ok (w : world) : Prop := {
  wk_inv : ∃ t, ninv (sys w) t;
  wk_owned : ∀ k x, owned w !! k = Some x → is_Some (socks (sys w) !! x);
  wk_inj : ∀ k k' x, owned w !! k = Some x → owned w !! k' = Some x → k = k';
  wk_level : ∀ x wr, (x, wr) ∈ level (sys w) ↔
    ∃ k, owned w !! k = Some x ∧ wr = dir w k ∧ k ∈ data w;
}.

(** The operations of the tasks are not [accept]s, and find something once it is there. *)
Definition jobs_ok (jb : Z → job) : Prop :=
  ∀ k, blocks (call (jb k)) = false ∧ accepts (call (jb k)) = false.

(** What has arrived stays. *)
Definition history (w : world) : Prop := ∀ i k, i < used w → k ∈ arrives (script w i) → k ∈ data w.

Definition good (sc : nat → moment) (jb : Z → job) (w : world) : Prop :=
  (world_ok w ∧ history w) ∧ script w = sc ∧ jobs w = jb.

(** The reactor holds a waker of the task for the direction of its socket. *)
Definition armed (w : world) (k : Z) : Prop :=
  is_u64 k ∧ ∃ x, owned w !! k = Some x ∧ waiting (sys w) !! (x, dir w k) = Some k.

(** The data is there, and the socket of the task knows it. *)
Definition due (w : world) (k : Z) : Prop :=
  k ∈ data w ∧ ∀ x, owned w !! k = Some x → flagged (sys w) x (dir w k) = true.

(** The data has arrived by moment [j], and a park at [j] would report it. *)
Definition reported_at (w : world) (k : Z) (j : nat) : Prop :=
  (∃ f, outcome (script w j) = Ok f ∧ f k = true) ∧
  (k ∈ data w ∨ ∃ i, used w ≤ i ≤ j ∧ k ∈ arrives (script w i)).

Definition ripe (n : nat) (w : world) (k : Z) : Prop :=
  match n with 0 => due w k | S m => ∀ j, used w + m ≤ j → reported_at w k j end.

(** ** Steps of the sockets' system *)

(** Nothing changes for socket [y]. *)
Definition undisturbed (n n' : net) (y : Z) : Prop :=
  is_Some (socks n !! y) → is_Some (socks n' !! y) ∧
    ∀ wr, waiting n' !! (y, wr) = waiting n !! (y, wr) ∧ flagged n' y wr = flagged n y wr.

Section steps.
Implicit Types (n : net) (t : service) (x y w : Z) (wr : bool) (p : pollop).

Lemma undisturbed_refl n y : undisturbed n n y.
Proof. done. Qed.

Lemma undisturbed_trans n1 n2 n3 y : undisturbed n1 n2 y → undisturbed n2 n3 y → undisturbed n1 n3 y.
Proof.
  intros H1 H2 Hy. destruct (H1 Hy) as [Hy2 E1]. destruct (H2 Hy2) as [Hy3 E2]. split; [done|].
  intros wr. destruct (E1 wr) as [<- <-], (E2 wr) as [<- <-]. done.
Qed.

Lemma run_steps_cons n o n' os : net_step n o = Some n' → run_steps n (o :: os) = run_steps n' os.
Proof. unfold run_steps. simpl. by intros ->. Qed.

Lemma run_steps_one n o n' : net_step n o = Some n' → run_steps n [o] = n'.
Proof. apply run_steps_cons. Qed.

Lemma socket_pos n t x : ninv n t → is_Some (socks n !! x) → (1 ≤ x)%Z.
Proof. intros H [s Hx]. by destruct (nv_socks _ _ H x s Hx) as (_ & _ & ? & _). Qed.

(** Arrivals only grow the level and the edges. *)
Lemma events_net n t zs :
  ninv n t → Forall (λ z, is_Some (socks n !! z.1)) zs →
  let n' := run_steps n ((λ z, NEvent z.1 z.2) <$> zs) in
  (∃ t', ninv n' t') ∧ reactor n' = reactor n ∧ socks n' = socks n ∧ waiting n' = waiting n ∧
  (∀ z, z ∈ level n' ↔ z ∈ level n ∨ z ∈ zs) ∧ ∀ z, z ∈ edges n → z ∈ edges n'.
Proof.
  intros H Hzs. revert n t H Hzs. induction zs as [|[x wr] zs IH]; intros n t H Hzs.
  - split; [by exists t|]. do 3 (split; [done|]). split; [|done]. intros z. rewrite elem_of_nil. tauto.
  - apply Forall_cons in Hzs as [Hx Hzs].
    destruct (net_step_ninv n t (NEvent x wr) H Hx eq_refl) as (n1 & t1 & Hst & H1).
    rewrite fmap_cons. cbn [fst snd]. cbv zeta. rewrite (run_steps_cons _ _ _ _ Hst). injection Hst as <-.
    destruct (IH _ t1 H1 Hzs) as (Ht & Er & Es & Ew & El & Ee). split; [done|].
    split; [by rewrite Er|]. split; [by rewrite Es|]. split; [by rewrite Ew|]. split.
    + intros z. rewrite El. simpl. set_solver.
    + intros z Hz. apply Ee. simpl. set_solver.
Qed.

Lemma accepts_none s r w p b acc s' r' :
  accepts p = false → run_poll s r w p = Some (b, acc, s', r') → acc = None.
Proof.
  destruct p; simpl; intros ? (((? & ?) & ?) & _ & Hr)%bind_Some; simplify_eq; done.
Qed.

(** One poll of an open socket. *)
Lemma poll_exact n t x w p :
  ninv n t → op_allowed n (NPoll x w p false []) → accepts p = false →
  let called := flagged n x (writes p) in
  let pend := negb called || blocks p in
  let n' := run_steps n [NPoll x w p false []] in
  (∃ t', ninv n' t') ∧ is_Some (socks n' !! x) ∧
  waiting n' !! (x, writes p) = (if pend then Some w else None) ∧
  level n' = (if called then level n ∖ {[(x, writes p)]} else level n) ∧
  ∀ y, y ≠ x → undisturbed n n' y.
Proof.
  intros H Ha Hacc called pend. pose proof Ha as [[s Hx] _].
  destruct (nv_socks _ _ H x s Hx) as (Hid & Hsk & Hpos & Hlen).
  assert (Hio : is_Some (ios t !! resource_id s)) by (apply (nv_ios _ _ H); rewrite Hid; by exists s).
  destruct (run_poll_spec s (reactor n) t w p (nv_sim _ _ H) (nv_ok _ _ H) Hsk Hio)
    as (acc & s' & r' & t' & Hr & Hs' & Hok' & Hsk' & _ & Hid' & He).
  assert (acc = None) as -> by by eapply accepts_none.
  rewrite Hid in *. change (flag _ x (writes p)) with called in *.
  assert (Hst : net_step n (NPoll x w p false []) = Some (polled n s' r' w p pend called false)).
  { unfold net_step. rewrite Hx. cbn [mbind option_bind]. rewrite Hr. cbn [mbind option_bind].
    by rewrite Hid. }
  rewrite (run_steps_one _ _ _ Hst). unfold polled. rewrite Hid'. simpl.
  split; [exists t'; rewrite <- Hid'; apply (ninv_polled ∅ ∅ n t x s s' w p r' t' false); try done; by rewrite andb_false_r|].
  split; [by rewrite lookup_insert_eq|]. split; [|split; [by destruct called|]].
  { unfold pend. destruct (negb called || blocks p); [apply lookup_insert_eq|apply lookup_delete_eq]. }
  intros y Hne Hy. split; [simpl; by rewrite lookup_insert_ne|]. intros wr. simpl. split.
  - case_match; [apply lookup_insert_ne|apply lookup_delete_ne]; congruence.
  - pose proof (socket_pos n t y H Hy). unfold poll_effect in He. rewrite Hid in He.
    fold pend in He. unfold flagged. simpl.
    assert (Hrd : ∃ b : bool, io_readiness r' =
      if b then clear (io_readiness (reactor n)) x (writes p) else io_readiness (reactor n)).
    { destruct pend; naive_solver. }
    destruct Hrd as [b ->]. apply flag_maybe_clear; [lia|lia|congruence].
Qed.

(** The socket of a task that is done is dropped. *)
Lemma close_exact n t x os :
  ninv n t → is_Some (socks n !! x) →
  let n' := run_steps n [NDrop x os; NDrain x false; NDrain x true] in
  (∃ t', ninv n' t') ∧ (∀ z, z ∈ level n' ↔ z ∈ level n ∧ z.1 ≠ x) ∧ ∀ y, y ≠ x → undisturbed n n' y.
Proof.
  intros H Hx. destruct (net_step_ninv n t (NDrop x os) H Hx eq_refl) as (n1 & t1 & Hst & H1).
  rewrite (run_steps_cons _ _ _ _ Hst).
  destruct (net_step_ninv n1 t1 (NDrain x false) H1 I eq_refl) as (n2 & t2 & [= <-] & H2).
  destruct (net_step_ninv _ t2 (NDrain x true) H2 I eq_refl) as (n3 & t3 & [= <-] & H3).
  unfold run_steps. simpl. split; [by exists t3|]. destruct Hx as [s Hx]. unfold net_step in Hst. rewrite Hx in Hst. cbn [mbind option_bind] in Hst.
  pose proof (readiness_deregister_io (reactor n) (resource_id s) (inner s) os) as Hrd.
  unfold NetIo.drop in Hst. destruct (deregister_io_resource _ _ _ _) as [a r1]. simplify_eq. simpl in *.
  split.
  - intros [y []]; simpl; set_solver.
  - intros y Hne Hy. simpl. split; [by rewrite lookup_delete_ne|]. intros wr. unfold flagged. simpl.
    rewrite !lookup_delete_ne by congruence. by rewrite Hrd.
Qed.

(** A socket is opened, or the system refuses it. *)
Lemma open_exact n t source os now :
  ninv n t →
  let n' := run_steps n [NOpen READABLE_WRITABLE source os now] in
  (∃ t', ninv n' t') ∧ (∀ y, undisturbed n n' y) ∧
  match (from_mio (reactor n) READABLE_WRITABLE source os).1 with
  | Ok c => let x := resource_id c in
      socks n !! x = None ∧ is_Some (socks n' !! x) ∧ (∀ wr, flagged n' x wr = true) ∧
      ∀ z, z ∈ level n' ↔ z ∈ level n ∨ ∃ wr, wr ∈ now ∧ z = (x, wr)
  | Err _ => level n' = level n
  end.
Proof.
  intros H. pose proof (from_mio_spec (reactor n) t READABLE_WRITABLE source os (nv_sim _ _ H) (nv_ok _ _ H)) as Hm.
  destruct (open_net ∅ n t READABLE_WRITABLE source os now H) as (n1 & t1 & Hst & H1).
  rewrite (run_steps_one _ _ _ Hst). unfold net_step in Hst.
  destruct (from_mio _ _ _ _) as [[c|e] r'] eqn:Em; injection Hst as <-; simpl.
  - destruct Hm as (t' & _ & _ & _ & _ & Hpos & Hno & _ & Hrd).
    assert (Hns : socks n !! resource_id c = None).
    { apply eq_None_not_Some. intros Hc%(nv_ios _ _ H). rewrite Hno in Hc. by destruct Hc. }
    split; [by exists t1|]. split.
    { intros y Hy. pose proof Hy as [sy Hsy]. destruct (nv_socks _ _ H y sy Hsy) as (_ & _ & ? & ?).
      assert (Hne : resource_id c ≠ y) by (intros <-; rewrite Hns in Hy; by destruct Hy).
      simpl. rewrite lookup_insert_ne by done. split; [done|]. intros wr. split; [done|].
      unfold flagged. simpl. rewrite Hrd. apply flag_init_other; [lia|lia|done|done]. }
    split; [done|]. split; [by rewrite lookup_insert_eq|]. split.
    { intros wr. unfold flagged. simpl. rewrite Hrd. apply flag_init. lia. }
    intros z. rewrite elem_of_union, elem_of_list_to_set, list_elem_of_fmap. naive_solver.
  - destruct Hm as (t' & _ & _ & _ & Hrd). split; [by exists t1|]. split; [|done].
    intros y Hy. split; [done|]. intros wr. split; [done|]. unfold flagged. simpl. by rewrite Hrd.
Qed.

End steps.

(** ** The operations keep the invariant *)

Section laws.
Implicit Types (w : world) (k tid x : Z).

Lemma writes_would_block p : NetInv.writes (would_block p) = NetInv.writes p.
Proof. by destruct p. Qed.
Lemma blocks_would_block p : blocks (would_block p) = true.
Proof. by destruct p. Qed.
Lemma accepts_would_block p : accepts (would_block p) = accepts p.
Proof. by destruct p. Qed.

Lemma answer_writes w tid : NetInv.writes (answer w tid) = dir w tid.
Proof. unfold answer. case_decide; [done|apply writes_would_block]. Qed.

Lemma elem_of_arrivals w z :
  z ∈ arrivals w ↔ ∃ k x, k ∈ arrives (now w) ∧ owned w !! k = Some x ∧ z = (x, dir w k).
Proof.
  unfold arrivals. rewrite list_elem_of_omap. split.
  - intros (k & Hk & (x & Hx & [= <-])%bind_Some). by exists k, x.
  - intros (k & x & Hk & Hx & ->). exists k. by rewrite Hx.
Qed.

Lemma arrive_ok w :
  world_ok w → world_ok (arrive w) ∧ (∀ y, undisturbed (sys w) (sys (arrive w)) y) ∧
    waiting (sys (arrive w)) = waiting (sys w).
Proof.
  intros [[t Ht] Hown Hinj Hlev].
  assert (Hz : Forall (λ z, is_Some (socks (sys w) !! z.1)) (arrivals w)).
  { apply Forall_forall. intros z (k & x & _ & Hx & ->)%elem_of_arrivals. by apply (Hown k). }
  destruct (events_net (sys w) t (arrivals w) Ht Hz) as (Ht' & Er & Es & Ew & El & _).
  assert (Hu : ∀ y, undisturbed (sys w) (sys (arrive w)) y).
  { intros y Hy. unfold arrive, flagged. simpl. rewrite Es, Ew, Er. done. }
  split; [|split; [done|exact Ew]]. split; simpl; [done| |done|].
  - intros k x Hx. apply Hu, (Hown k x Hx).
  - intros x wr. rewrite El, Hlev, elem_of_arrivals. setoid_rewrite elem_of_union.
    setoid_rewrite elem_of_list_to_set. unfold dir. simpl. naive_solver.
Qed.

(** What an operation leaves of the sockets of the tasks other than [tid]. *)
Definition others_kept w w' tid : Prop :=
  ∀ k, k ≠ tid → owned w' !! k = owned w !! k ∧
    ∀ x, owned w !! k = Some x → undisturbed (sys w) (sys w') x.

Definition same_jobs w w' : Prop := script w' = script w ∧ used w' = used w ∧ jobs w' = jobs w ∧ data w' = data w.

Lemma open_ok w tid :
  world_ok w → let '(ox, w') := open_socket tid w in
  world_ok w' ∧ same_jobs w w' ∧ others_kept w w' tid ∧ owned w' !! tid = ox ∧
  ∀ x, ox = Some x → owned w !! tid = Some x ∧ sys w' = sys w ∨
    owned w !! tid = None ∧ ∀ wr, flagged (sys w') x wr = true.
Proof.
  intros H. unfold open_socket. destruct (owned w !! tid) as [x|] eqn:Eo.
  { split; [done|]. split; [done|]. split; [by intros k _|]. split; [done|]. intros ? [= <-]. by left. }
  destruct H as [[t Ht] Hown Hinj Hlev]. set (d := if decide (tid ∈ data w) then _ else _).
  destruct (open_exact (sys w) t (source (jobs w tid)) (os_register (jobs w tid)) d Ht) as (Ht' & Hu & Hres).
  set (n' := run_steps (sys w) _) in *.
  destruct (from_mio _ _ _ _).1 as [c|e].
  - destruct Hres as (Hns & Hs & Hf & Hl).
    assert (Hnew : ∀ k, owned w !! k ≠ Some (resource_id c)).
    { intros k Hk%Hown. rewrite Hns in Hk. by destruct Hk. }
    split; [split; simpl; [done|..]|].
    + intros k x. rewrite lookup_insert. case_decide; [by intros [= <-]|]. intros Hk%Hown. by apply Hu.
    + intros k k' x. rewrite !lookup_insert. repeat case_decide; intros; simplify_eq; try naive_solver.
    + intros x wr. rewrite Hl, Hlev. unfold d. setoid_rewrite lookup_insert. unfold dir. simpl. split.
      * intros [(k & Hk & -> & Hd)|(b & Hb & [= -> ->])].
        -- exists k. rewrite decide_False by congruence. done.
        -- destruct (decide (tid ∈ data w)); [|by apply not_elem_of_nil in Hb].
           apply list_elem_of_singleton in Hb as ->. exists tid. by rewrite decide_True by done.
      * intros (k & Hk & -> & Hd). case_decide as Hkt; [|left; by exists k]. subst k. injection Hk as <-.
        right. rewrite decide_True by done. eexists. split; [by apply list_elem_of_singleton|done].
    + split; [done|]. split.
      { intros k Hk. simpl. rewrite lookup_insert_ne by done. split; [done|]. intros x _. apply Hu. }
      simpl. rewrite lookup_insert_eq. split; [done|]. intros x [= <-]. right. done.
  - split; [split; simpl; [done| |done|by rewrite Hres]|].
    + intros k x Hk%Hown. by apply Hu.
    + split; [done|]. split; [intros k _; split; [done|]; intros x _; apply Hu|]. split; [done|]. by intros x [=].
Qed.

(** What one poll of task [tid] does. *)
Definition poll_outcome w tid (ready : bool) w' : Prop :=
  world_ok w' ∧ script w' = script w ∧ jobs w' = jobs w ∧ used w' = S (used w) ∧
  data w' = list_to_set (arrives (now w)) ∪ data w ∧
  (ready = true → owned w' !! tid = None) ∧
  (ready = false → (∃ x, owned w' !! tid = Some x ∧ waiting (sys w') !! (x, dir w tid) = Some tid) ∧ ¬ due w tid) ∧
  others_kept w w' tid.

(** The poll of the socket [x] of the task. *)
Lemma poll_owned_ok w tid x :
  world_ok w → jobs_ok (jobs w) → owned w !! tid = Some x →
  let called := flagged (sys w) x (dir w tid) in
  let pend := negb called || blocks (answer w tid) in
  let n := run_steps (sys w) [NPoll x tid (answer w tid) false []] in
  (∃ t, ninv n t) ∧ is_Some (socks n !! x) ∧ waiting n !! (x, dir w tid) = (if pend then Some tid else None) ∧
  (∀ z, z.1 ≠ x → z ∈ level n ↔ z ∈ level (sys w)) ∧
  (pend = true → level n = level (sys w)) ∧
  ∀ y, y ≠ x → undisturbed (sys w) n y.
Proof.
  intros [[t Ht] Hown Hinj Hlev] Hj Hx called pend n.
  assert (Hal : op_allowed (sys w) (NPoll x tid (answer w tid) false [])).
  { split; [by apply (Hown tid)|]. intros _. rewrite answer_writes. intros Hb (k & Hk & _ & Hd)%Hlev.
    rewrite (Hinj k tid x Hk Hx) in Hd. unfold answer in Hb. rewrite decide_True in Hb by done.
    by rewrite (proj1 (Hj tid)) in Hb. }
  assert (Hacc : accepts (answer w tid) = false).
  { unfold answer. case_decide; [apply Hj|]. rewrite accepts_would_block. apply Hj. }
  destruct (poll_exact (sys w) t x tid _ Ht Hal Hacc) as (Ht' & Hs & Hwt & Hl & Hu).
  rewrite answer_writes in *. fold called pend in Hwt, Hl. fold n in Ht', Hs, Hwt, Hl, Hu.
  split; [done|]. split; [done|]. split; [done|]. split; [|split; [|done]].
  - intros [y wr] Hy. rewrite Hl. simpl in Hy. destruct called; [|done]. rewrite elem_of_difference, elem_of_singleton.
    split; [by intros [? _]|]. intros ?. split; [done|]. congruence.
  - intros Hp. rewrite Hl. destruct called eqn:Ec; [|done]. unfold pend in Hp. simpl in Hp.
    apply leibniz_equiv. intros [y wr]. rewrite elem_of_difference, elem_of_singleton.
    split; [by intros [? _]|]. intros Hy. split; [done|]. intros [= -> ->].
    destruct Hal as [_ Hb]. rewrite answer_writes in Hb. by apply (Hb Ec).
Qed.

Lemma others_kept_trans w1 w2 w3 tid : others_kept w1 w2 tid → others_kept w2 w3 tid → others_kept w1 w3 tid.
Proof.
  intros H1 H2 k Hk. destruct (H1 k Hk) as [E1 U1], (H2 k Hk) as [E2 U2]. split; [congruence|].
  intros x Hx. eapply undisturbed_trans; [by apply U1|apply U2; congruence].
Qed.

(** The end of a pending poll, and of one that is ready. *)
Lemma pending_world w tid x :
  world_ok w → jobs_ok (jobs w) → owned w !! tid = Some x →
  let n := run_steps (sys w) [NPoll x tid (answer w tid) false []] in
  level n = level (sys w) → world_ok (set_sys w n (owned w)) ∧ others_kept w (set_sys w n (owned w)) tid.
Proof.
  intros H Hj Hx n Hl. pose proof H as [_ Hown Hinj Hlev].
  destruct (poll_owned_ok w tid x H Hj Hx) as (Ht & Hs & _ & _ & _ & Hu). fold n in Ht, Hs, Hu.
  split; [split; simpl; [done| |done|by rewrite Hl]|].
  - intros k y Hk. destruct (decide (y = x)) as [->|Hne]; [done|]. by apply (Hu y Hne), (Hown k).
  - intros k Hk. split; [done|]. intros y Hy. apply Hu. intros ->. by apply Hk, (Hinj k tid x).
Qed.

Lemma ready_world w tid x os :
  world_ok w → jobs_ok (jobs w) → owned w !! tid = Some x →
  let n := run_steps (run_steps (sys w) [NPoll x tid (answer w tid) false []])
    [NDrop x os; NDrain x false; NDrain x true] in
  world_ok (set_sys w n (base.delete tid (owned w))) ∧
  others_kept w (set_sys w n (base.delete tid (owned w))) tid.
Proof.
  intros H Hj Hx. pose proof H as [_ Hown Hinj Hlev].
  destruct (poll_owned_ok w tid x H Hj Hx) as ([t Ht] & Hs & _ & Hl1 & _ & Hu1).
  set (n1 := run_steps (sys w) _) in *. destruct (close_exact n1 t x os Ht Hs) as (Ht' & Hl & Hu2).
  set (n2 := run_steps n1 _) in *. cbv zeta. clearbody n2 n1.
  assert (Hu : ∀ y, y ≠ x → undisturbed (sys w) n2 y) by (intros y Hy; eapply undisturbed_trans; auto).
  assert (Hne : ∀ k y, k ≠ tid → owned w !! k = Some y → y ≠ x) by (intros k y Hk Hy ->; by apply Hk, (Hinj k tid x)).
  split; [split; simpl; [done|..]|].
  - intros k y [Hk Hy]%lookup_delete_Some. by apply (Hu y (Hne k y (not_eq_sym Hk) Hy)), (Hown k).
  - intros k k' y [_ Hk]%lookup_delete_Some [_ Hk']%lookup_delete_Some. by apply (Hinj k k' y).
  - intros y wr. rewrite Hl. simpl. unfold dir. simpl. fold (dir w). setoid_rewrite lookup_delete_Some. split.
    + intros [Hy Hyx]. rewrite Hl1, Hlev in Hy by done. destruct Hy as (k & Hk & -> & Hd).
      exists k. split; [split; [|done]; intros <-; congruence|done].
    + intros (k & [Hk Hy] & -> & Hd). assert (Hyx : y ≠ x) by by apply (Hne k).
      split; [|done]. rewrite Hl1, Hlev by done. by exists k.
  - intros k Hk. simpl. rewrite lookup_delete_ne by done. split; [done|]. intros y Hy. by apply Hu, (Hne k).
Qed.

Lemma net_poll_ok w tid :
  world_ok w → jobs_ok (jobs w) → let '(ready, w') := net_poll tid w in poll_outcome w tid ready w'.
Proof.
  intros H Hj. destruct (arrive_ok w H) as (H0 & Hu0 & _). unfold net_poll.
  pose proof (open_ok (arrive w) tid H0) as Ho. destruct (open_socket tid (arrive w)) as [ox w1].
  destruct Ho as (H1 & (Hsc & Hus & Hjb & Hda) & Hk1 & Hox & Hfl). simpl in Hsc, Hus, Hjb, Hda.
  assert (Hk0 : others_kept w w1 tid).
  { intros k Hk. destruct (Hk1 k Hk) as [E U]. split; [done|]. intros y Hy. eapply undisturbed_trans; [apply Hu0|by apply U]. }
  destruct ox as [x|].
  2: { do 6 (split; [done|]). split; [by intros [=]|done]. }
  assert (Hdir : dir w1 tid = dir w tid) by (unfold dir; by rewrite Hjb).
  assert (Hj1 : jobs_ok (jobs w1)) by by rewrite Hjb.
  destruct (poll_owned_ok w1 tid x H1 Hj1 Hox) as (Ht & Hs & Hwt & _ & Hl & _). rewrite Hwt.
  destruct (negb _ || _) eqn:Hpend.
  - destruct (pending_world w1 tid x H1 Hj1 Hox (Hl eq_refl)) as [H2 Hk2].
    do 5 (split; [done|]). split; [by intros [=]|]. split; [|by eapply others_kept_trans].
    intros _. split; [exists x; split; [done|by rewrite <- Hdir]|]. intros [Hd Hf].
    assert (Hd1 : tid ∈ data w1) by (rewrite Hda; set_solver).
    unfold answer in Hpend. rewrite decide_True in Hpend by done. rewrite (proj1 (Hj1 tid)), orb_false_r in Hpend.
    destruct (Hfl x eq_refl) as [[Hx Hsys]|[_ Hall]]; [|by rewrite Hall in Hpend].
    destruct (Hu0 x (wk_owned _ H _ _ Hx)) as [_ Hfx]. destruct (Hfx (dir w tid)) as [_ Hfx'].
    rewrite Hsys, Hdir, Hfx', (Hf x Hx) in Hpend. done.
  - destruct (ready_world w1 tid x (os_drop (jobs w1 tid)) H1 Hj1 Hox) as [H2 Hk2].
    do 5 (split; [done|]). split; [intros _; apply lookup_delete_eq|]. split; [by intros [=]|].
    by eapply others_kept_trans.
Qed.

(** ** Parking *)

Lemma elem_of_events w f e :
  e ∈ events w f ↔ ∃ k x, owned w !! k = Some x ∧ f k = true ∧ (x, dir w k) ∈ edges (sys w) ∧
    e = mkMioEvent x (negb (dir w k)) (dir w k) false false false.
Proof.
  unfold events. rewrite list_elem_of_omap. split.
  - intros ([k x] & Hk%elem_of_map_to_list & He). destruct (bool_decide _ && _) eqn:Eb; [|done].
    apply andb_prop in Eb as [?%bool_decide_eq_true ?]. injection He as <-. by exists k, x.
  - intros (k & x & Hk & Hf & He & ->). exists (k, x). split; [by apply elem_of_map_to_list|].
    by rewrite bool_decide_eq_true_2, Hf.
Qed.

Lemma event_reported w f k x :
  owned w !! k = Some x → f k = true → (x, dir w k) ∈ edges (sys w) →
  (x, dir w k) ∈ reported (Ok (events w f)).
Proof.
  intros Hx Hf He. unfold reported. apply list_elem_of_bind.
  eexists. split; [|apply elem_of_events; by exists k, x]. simpl.
  destruct (dir w k); simpl; by apply list_elem_of_singleton.
Qed.

Lemma owned_u64 w k x : world_ok w → owned w !! k = Some x → is_u64 x.
Proof.
  intros [[t Ht] Hown _ _] Hx%Hown. apply (nv_ios _ _ Ht) in Hx.
  pose proof (so_ios _ (nv_ok _ _ Ht) _ Hx). pose proof (so_issued _ (nv_ok _ _ Ht)). u64.
Qed.

Definition park_outcome w w' (exts : list (external unit)) : Prop :=
  world_ok w' ∧ script w' = script w ∧ jobs w' = jobs w ∧ used w' = S (used w) ∧
  data w' = list_to_set (arrives (now w)) ∪ data w ∧ owned w' = owned w ∧
  (∀ k x, owned w !! k = Some x →
     flagged (sys w) x (dir w k) = true ∨
       (k ∈ data w' ∧ ∃ f, outcome (now w) = Ok f ∧ f k = true) → flagged (sys w') x (dir w k) = true) ∧
  ∀ k, armed w k → armed w' k ∨ wakes_task exts k.

Lemma net_park_ok w ms : world_ok w → let '(w', exts) := net_park ms w in park_outcome w w' exts.
Proof.
  intros H. destruct (arrive_ok w H) as (H0 & Hu0 & Hwt0). unfold net_park.
  pose proof (H0) as [[t Ht] Hown Hinj Hlev]. set (w1 := arrive w) in *.
  set (ans := park_answer w1 (outcome (now w))).
  assert (Hal : op_allowed (sys w1) (NPark (Some (wrap64 ms)) (wrap64 (reading (now w))) ans)).
  { split; [apply wrap64_range|]. split; [intros d [= <-]; apply wrap64_range|]. intros es Hes.
    destruct (outcome (now w)) as [f|e]; simplify_eq/=. apply Forall_forall.
    intros e (k & x & Hx & _ & _ & ->)%elem_of_events. by apply (owned_u64 w1 k). }
  destruct (park_net ∅ (sys w1) t _ _ ans Ht Hal) as (n & t' & ws & Hst & Ht' & Hwk & Hfl & Hws).
  rewrite (run_steps_one _ _ _ Hst), Hwk, drop_app_length.
  assert (Hsk : socks n = socks (sys w1) ∧ level n = level (sys w1) ∧
    waiting n = foldr base.delete (waiting (sys w1)) (reported ans)).
  { unfold net_step in Hst. destruct (rstep _ _) as [[a r']|]; [|done]. by injection Hst as <-. }
  destruct Hsk as (Hsk & Hl & Hwt).
  assert (Hsock : ∀ k x, owned w !! k = Some x → is_Some (socks (sys w1) !! x)) by (intros k x; by apply Hown).
  split; [split; simpl; [exists t'; by eapply ninv_mono, subseteq_difference_l| |done|by rewrite Hl]|].
  { intros k x Hx%Hown. by rewrite Hsk. }
  do 5 (split; [done|]). split.
  - intros k x Hx Hor. apply Hfl; [by eapply Hsock|].
    destruct Hor as [Hf|[Hd (f & Hf & Hk)]].
    { left. destruct (Hu0 x (wk_owned _ H _ _ Hx)) as [_ Hf0]. destruct (Hf0 (dir w k)) as [_ Hf1]. exact (eq_trans Hf1 Hf). }
    destruct (ninv_level _ _ x (dir w k) Ht) as [?|He]; [apply Hlev; by exists k|by eapply Hsock|by left|right].
    unfold ans. rewrite Hf. by apply (event_reported w1 f k x).
  - intros k (Hu & x & Hx & Hw). rewrite <- Hwt0 in Hw. fold w1 in Hw.
    destruct (decide ((x, dir w k) ∈ reported ans)) as [Hr|Hr].
    + right. exists true, false, Tls.Reactor, k. split; [|by apply wrap64_id].
      apply list_elem_of_fmap. exists (k, x). split; [done|]. by eapply Hws.
    + left. split; [done|]. exists x. split; [done|]. simpl. rewrite Hwt, foldr_delete_lookup.
      by rewrite decide_False.
Qed.

(** ** The laws *)

Lemma armed_not_due w k : world_ok w → armed w k → ¬ due w k.
Proof.
  intros [[t Ht] _ _ _] (_ & x & Hx & Hw) [_ Hf]. destruct (nv_wait _ _ Ht _ _ _ Hw) as [Hf' _].
  specialize (Hf x Hx). unfold flagged in Hf. congruence.
Qed.

Lemma reported_later w w' k j :
  script w' = script w → used w' = S (used w) → data w' = list_to_set (arrives (now w)) ∪ data w →
  reported_at w k j → reported_at w' k j.
Proof.
  intros Hs Hu Hd [Ho Ha]. split; [by rewrite Hs|]. rewrite Hd, Hu, Hs. destruct Ha as [?|(i & Hi & Ha)].
  - left. set_solver.
  - destruct (decide (i = used w)) as [->|Hne]; [left|right; exists i; split; [lia|done]].
    apply elem_of_union_l, elem_of_list_to_set. exact Ha.
Qed.

Lemma history_step w w' :
  script w' = script w → used w' = S (used w) → data w' = list_to_set (arrives (now w)) ∪ data w →
  history w → history w'.
Proof.
  intros Hs Hu Hd H i k Hi Hk. rewrite Hs in Hk. rewrite Hd. rewrite Hu in Hi.
  destruct (decide (i = used w)) as [->|]; [apply elem_of_union_l, elem_of_list_to_set; exact Hk|].
  apply elem_of_union_r, (H i); [lia|done].
Qed.

Lemma net_suspend sc jb : jobs_ok jb → SuspendLaws unit world (good sc jb) armed ripe.
Proof.
  intros Hjb. split.
  - intros tid [] w ready f' w' effs [[H Hh] [Es Ej]] Hu. simpl. rewrite decide_True by done.
    rewrite <- Ej in Hjb. pose proof (net_poll_ok w tid H Hjb) as Hp. destruct (net_poll tid w) as [b w1].
    intros [= <- _ <- <-]. destruct Hp as (H' & Hsc & Hjo & Hn & Hda & Hrdy & Hpend & Hoth).
    assert (Hdir : ∀ k, dir w1 k = dir w k) by (intros k; unfold dir; by rewrite Hjo).
    split; [split; [split; [done|by apply (history_step w)]|by rewrite Hsc, Hjo]|]. split.
    { intros Hb. left. destruct (Hpend Hb) as [(x & Hx & Hw) _]. split; [done|]. exists x. by rewrite Hdir. }
    split; [intros Hdue; destruct b; [done|]; by destruct (proj2 (Hpend eq_refl))|]. split.
    { intros [|m] k; simpl.
      - intros [Hd Hf]. split; [rewrite Hda; set_solver|]. intros x Hx. rewrite Hdir.
        destruct (decide (k = tid)) as [->|Hne].
        + destruct b; [by rewrite Hrdy in Hx|]. by destruct (proj2 (Hpend eq_refl)).
        + destruct (Hoth k Hne) as [Ho Hun]. rewrite Ho in Hx.
          destruct (Hun x Hx (wk_owned _ H _ _ Hx)) as [_ Hfl]. destruct (Hfl (dir w k)) as [_ ->]. by apply Hf.
      - intros Hr j Hj. apply (reported_later w); [done..|]. apply Hr. lia. }
    intros k Hne (Hk & x & Hx & Hw). left. split; [done|]. destruct (Hoth k Hne) as [Ho Hun].
    exists x. split; [congruence|]. rewrite Hdir.
    destruct (Hun x Hx (wk_owned _ H _ _ Hx)) as [_ Hfl]. by destruct (Hfl (dir w k)) as [-> _].
  - intros w k [[H _] _] Hd Ha. by apply (armed_not_due w k).
  - intros ms w w' exts [[H Hh] [Es Ej]] _ Hp. simpl in Hp. pose proof (net_park_ok w ms H) as Ho. rewrite Hp in Ho.
    destruct Ho as (H' & Hsc & Hjo & Hn & Hda & How & Hfl & Harm).
    assert (Hdir : ∀ k, dir w' k = dir w k) by (intros k; unfold dir; by rewrite Hjo).
    split; [split; [split; [done|by apply (history_step w)]|by rewrite Hsc, Hjo]|]. split; [|done]. intros [|[|m]] k; simpl.
    + intros [Hd Hf]. split; [rewrite Hda; set_solver|]. intros x Hx. rewrite How in Hx. rewrite Hdir.
      apply (Hfl k x Hx). left. by apply Hf.
    + intros Hr. destruct (Hr (used w) ltac:(lia)) as [Hf Hd].
      assert (Hd' : k ∈ data w').
      { rewrite Hda. destruct Hd as [?|(i & Hi & Ha)]; [set_solver|].
        assert (i = used w) as -> by lia. apply elem_of_union_l, elem_of_list_to_set. exact Ha. }
      split; [done|]. intros x Hx. rewrite How in Hx. rewrite Hdir. apply (Hfl k x Hx). by right.
    + intros Hr j Hj. apply (reported_later w); [done..|]. apply Hr. lia.
Qed.

End laws.

(** ** Theorems *)

Section tasks.
Implicit Types (sc : nat → moment) (jb : Z → job) (k : Z) (s : Executor unit world).

Lemma net_world_init_ok sc jb : good sc jb (world_init sc jb).
Proof.
  split; [split; [split|]|done]; simpl.
  - exists service_init. apply ninv_init.
  - intros k x. by rewrite lookup_empty.
  - intros k k' x. by rewrite lookup_empty.
  - intros x wr. rewrite elem_of_empty. split; [done|]. intros (k & Hk & _). by rewrite lookup_empty in Hk.
  - intros i k Hi. simpl in Hi. lia.
Qed.

(** No task that uses a socket is stranded.  In every state that the executor over the
    reactor reaches, each task that was injected and is not finished waits in a queue of
    the executor, or the reactor holds a waker of the task for the direction of its
    socket, and once its data is there the system owes the reactor the event. *)
Theorem net_task_never_stranded sc jb n s k :
  jobs_ok jb → reachable (world_init sc jb) n s →
  k ≠ u64_max → injected (log s) k → ¬ finished (log s) k →
  k ∈ Tls.queued (tls s) ∨ k ∈ local_queue s ∨
  ∃ t x ab, let w := Executor.world s in
    owned w !! k = Some x ∧ simulates (reactor (sys w)) t ∧ ios t !! x = Some ab ∧
    wants ab (dir w k) = Some k ∧ (k ∈ data w → (x, dir w k) ∈ edges (sys w)).
Proof.
  intros Hjb Hs Hne Hi Hf. pose proof (net_suspend sc jb Hjb) as Hlaws. pose proof (net_world_init_ok sc jb) as Hok.
  destruct (task_never_stranded (good sc jb) armed ripe (world_init sc jb) n s k Hok Hs Hne Hi Hf)
    as [?|[?|Ha]]; [by left|by right; left|].
  right. right. destruct Ha as (Hu & x & Hx & Hw).
  destruct (reachable_suspend_inv (good sc jb) armed ripe (world_init sc jb) n s Hok Hs) as [[[[[t Ht] Hown _ Hlev] _] _] _].
  destruct (nv_wait _ _ Ht _ _ _ Hw) as (Hfl & ab & Hab & Hwa). exists t, x, ab.
  split; [done|]. split; [apply (nv_sim _ _ Ht)|]. split; [done|]. split; [done|]. intros Hd.
  destruct (ninv_level _ _ x (dir (Executor.world s) k) Ht) as [Hfl'|He]; [apply Hlev; by exists k|by apply (Hown k)| |done].
  congruence.
Qed.

(** C10. A task that uses a socket finishes.  When its data arrives at some moment, and from
    some moment on each park reports the events that the system owes the task, a task
    that was injected into the executor over the reactor returns ready after finitely
    many ticks, from every reachable state and whatever the other tasks do. *)
Theorem net_task_finishes sc jb n s N i k :
  0 < n → jobs_ok jb → reachable (world_init sc jb) n s → k ≠ u64_max → injected (log s) k →
  k ∈ arrives (sc i) → (∀ j, N ≤ j → ∃ f, outcome (sc j) = Ok f ∧ f k = true) →
  ∃ m, finished (log (ticks m s)) k.
Proof.
  intros Hn Hjb Hs Hne Hi Hd Ho. pose proof (net_suspend sc jb Hjb) as Hlaws. pose proof (net_world_init_ok sc jb) as Hok.
  destruct (reachable_suspend_inv (good sc jb) armed ripe (world_init sc jb) n s Hok Hs) as [[[_ Hh] [Hsc _]] _].
  apply (ripe_task_finishes (good sc jb) armed ripe (world_init sc jb) n s (S (N + i)) k); try done.
  intros j Hj. split; [rewrite Hsc; apply Ho; lia|].
  destruct (decide (i < used (Executor.world s))) as [Hlt|Hge].
  - left. apply (Hh i); [done|by rewrite Hsc].
  - right. exists i. split; [lia|by rewrite Hsc].
Qed.

(** ** Witnesses *)

(** One task receives a datagram, which arrives at the second moment, after its first
    poll; the parks report nothing before the third. *)
Definition sample_job : job :=
  mkJob 10 (λ _ _ _, Ok tt) (PRecv (SysOk ([104; 105]%Z, 7%Z))) (λ _, Ok tt).
Definition sample_script (j : nat) : moment :=
  mkMoment (if decide (j = 1) then [1%Z] else []) 5 (Ok (λ _, bool_decide (2 ≤ j))).
Definition sample_state : Executor unit world :=
  tick (run_external (new (world_init sample_script (λ _, sample_job)) 4) (Spawn tt)).

Lemma net_sample_reachable : reachable (world_init sample_script (λ _, sample_job)) 4 sample_state.
Proof. apply r_tick, r_external, r_init. Qed.

Lemma net_sample_injected : injected (log sample_state) 1.
Proof. exists 2. split; [vm_compute; lia|vm_compute; reflexivity]. Qed.

Lemma sample_suspended : ¬ finished (log sample_state) 1.
Proof. intros (j & t & _ & Hl). vm_compute in Hl. do 20 (destruct j as [|j]; [done|]). done. Qed.

Lemma sample_jobs_ok : jobs_ok (λ _, sample_job).
Proof. done. Qed.

Lemma net_task_never_stranded_witness :
  ∃ t x ab, owned (Executor.world sample_state) !! 1%Z = Some x ∧
    simulates (reactor (sys (Executor.world sample_state))) t ∧ ios t !! x = Some ab ∧
    wants ab false = Some 1%Z ∧ (x, false) ∈ edges (sys (Executor.world sample_state)).
Proof.
  destruct (net_task_never_stranded sample_script (λ _, sample_job) 4 sample_state 1) as [Hq|[Hq|Ha]].
  - apply sample_jobs_ok.
  - apply net_sample_reachable.
  - done.
  - apply net_sample_injected.
  - apply sample_suspended.
  - vm_compute in Hq. by apply not_elem_of_nil in Hq.
  - vm_compute in Hq. by apply not_elem_of_nil in Hq.
  - destruct Ha as (t & x & ab & Hx & Ht & Hab & Hw & He). exists t, x, ab.
    do 4 (split; [done|]). apply He. refine (bool_decide_unpack _ _). vm_compute. exact I.
Defined.

Lemma net_task_finishes_witness : ∃ m, finished (log (ticks m sample_state)) 1.
Proof.
  apply (net_task_finishes sample_script (λ _, sample_job) 4 sample_state 2 1 1).
  - lia.
  - apply sample_jobs_ok.
  - apply net_sample_reachable.
  - done.
  - apply net_sample_injected.
  - vm_compute. left.
  - intros j Hj. eexists. split; [reflexivity|]. by apply bool_decide_eq_true_2.
Defined.

End tasks.

End NetTasks.
