(* ===== verification/NetAddr.v ===== *)
(** * NetAddr: names and addresses, the connection of a stream, and the socket builder

    [ToSocketAddrs] is [lion-utility/src/net/addr.rs]; [TcpConnect] is the future of
    [TcpStream::connect], from the name to the stream, over the reactor; [TcpSocket] is
    the builder of [lion-utility/src/net/tcp/socket.rs].  The parsers and the resolver of
    the standard library, and the system's sockets, are parameters. *)

From stdpp Require Import strings.
From S2P Require Import Prelude UtilityLog Readiness Reactor ReactorSpec NetIo NetInv.
Import UtilityLog NetIo.

Inductive IpAddr := Ipv4 (ip : Z) | Ipv6 (ip : Z).

Inductive SocketAddr := V4 (ip port : Z) | V6 (ip port flowinfo scope_id : Z).

#[export] Instance socket_addr_eq_dec : EqDecision SocketAddr.
Proof. solve_decision. Defined.

(** [SocketAddr::from] of an address and a port. *)
Definition addr_from (ip : IpAddr) (port : Z) : SocketAddr :=
  match ip with Ipv4 x => V4 x port | Ipv6 x => V6 x port 0 0 end.

Module ToSocketAddrs.

(** [ToSocketAddrs]: the addresses a value stands for, in order. *)
Class ToSocketAddrs (T : Type) := to_socket_addrs : T → IoResultView (list SocketAddr).

(** What the standard library offers: [str::parse] at the three types, and its own
    [ToSocketAddrs] for a host with a port and for a string. *)
Class Std := {
  parse_v4 : string → option Z;
  parse_v6 : string → option Z;
  parse_addr : string → option SocketAddr;
  resolve_host : string → Z → IoResultView (list SocketAddr);
  resolve : string → IoResultView (list SocketAddr);
}.

#[export] Instance of_addr : ToSocketAddrs SocketAddr := λ a, Ok [a].

#[export] Instance of_ip : ToSocketAddrs (IpAddr * Z) := λ '(ip, port), Ok [addr_from ip port].

#[export] Instance of_host `{Std} : ToSocketAddrs (string * Z) := λ '(host, port),
  match parse_v4 host with
  | Some addr => Ok [V4 addr port]
  | None =>
      match parse_v6 host with
      | Some addr => Ok [V6 addr port 0 0]
      | None => resolve_host host port
      end
  end.

#[export] Instance of_str `{Std} : ToSocketAddrs string := λ s,
  match parse_addr s with
  | Some addr => Ok [addr]
  | None => resolve s
  end.

(** The documented behaviour of the standard library: a literal is its own address, and
    a host that is a literal is tried as one before any name is looked up. *)
Class StdLaws `{Std} : Prop := {
  resolve_host_v4 : ∀ h a port, parse_v4 h = Some a → resolve_host h port = Ok [V4 a port];
  resolve_host_v6 : ∀ h a port, parse_v4 h = None → parse_v6 h = Some a → resolve_host h port = Ok [V6 a port 0 0];
  resolve_addr : ∀ s a, parse_addr s = Some a → resolve s = Ok [a];
}.

(** The shortcuts for literals change no answer. *)
Theorem to_socket_addrs_is_std `{StdLaws} :
  (∀ h port, to_socket_addrs (h, port) = resolve_host h port) ∧ (∀ s : string, to_socket_addrs s = resolve s).
Proof.
  split.
  - intros h port. unfold to_socket_addrs, of_host. destruct (parse_v4 h) eqn:E4; [by rewrite (resolve_host_v4 _ z)|].
    destruct (parse_v6 h) eqn:E6; [by rewrite (resolve_host_v6 _ z)|done].
  - intros s. unfold to_socket_addrs, of_str. destruct (parse_addr s) eqn:E; [by rewrite (resolve_addr _ s0)|done].
Qed.

End ToSocketAddrs.

Module TcpConnect.
Import ToSocketAddrs.

Section connect.
Context {T : Type} `{ToSocketAddrs T}.

(** The future of [TcpStream::connect]. *)
Inductive ConnectFuture := Unresumed (addr : T) | Connecting (c : Connect) | Returned.

(** What the system answers during one poll: to a [connect] that is begun, to the
    registration of the socket and its deregistration, to [take_error] and to
    [peer_addr]. *)
Record Answers := mkAnswers {
  open : SocketAddr → IoResultView Z;
  register : Z → Z → bool * bool → IoResultView unit;
  deregister : Z → IoResultView unit;
  error : IoResultView (option Z);
  peer : PeerAddr;
}.

Implicit Types (r : Reactor.Reactor) (w : Z) (ans : Answers) (fut : ConnectFuture).

(** [Connect::new(stream)?.await], from the [await] on.  When the connection fails, the
    stream in it is dropped. *)
Definition poll_connecting (c : Connect) r w ans : option (Polled IoSocket * ConnectFuture * Reactor.Reactor) :=
  '(p, c1, r1) ← poll_connect c r w (error ans) (peer ans);
  Some match p with
  | PendingPoll => (PendingPoll, Connecting c1, r1)
  | Ready (Ok s) => (Ready (Ok s), Returned, r1)
  | Ready (Err e) =>
      (Ready (Err e), Returned, match stream c1 with Some s => (NetIo.drop s r1 (deregister ans)).2 | None => r1 end)
  end.

(** A poll of [TcpStream::connect]; [None] is the panic of a future that is polled after
    its end. *)
Definition poll fut r w ans : option (Polled IoSocket * ConnectFuture * Reactor.Reactor) :=
  match fut with
  | Unresumed a =>
      match to_socket_addrs a with
      | Err e => Some (Ready (Err e), Returned, r)
      | Ok addrs =>
          match NetIo.connect r (open ans) addrs (register ans) with
          | (Err e, r1) => Some (Ready (Err e), Returned, r1)
          | (Ok s, r1) => poll_connecting (mkConnect (Some s)) r1 w ans
          end
      end
  | Connecting c => poll_connecting c r w ans
  | Returned => None
  end.

(** Dropping the future drops the stream. *)
Definition drop fut r (os : Z → IoResultView unit) : Reactor.Reactor :=
  match fut with
  | Connecting c => match stream c with Some s => (NetIo.drop s r os).2 | None => r end
  | _ => r
  end.

(** Polls one after the other, up to the one that returns; other users of the reactor
    change it in between. *)
Fixpoint polls fut r (steps : list (Z * Answers * (Reactor.Reactor → Reactor.Reactor))) :
    option (Polled IoSocket * Reactor.Reactor) :=
  match steps with
  | [] => Some (PendingPoll, r)
  | (w, ans, others) :: steps' =>
      '(p, fut1, r1) ← poll fut r w ans;
      match p with
      | PendingPoll => polls fut1 (others r1) steps'
      | _ => Some (p, r1)
      end
  end.

End connect.
Arguments ConnectFuture : clear implicits.
End TcpConnect.

Import TcpConnect ToSocketAddrs.

(** ** The loop over the addresses *)

Section loop.
Context {X A : Type}.
Implicit Types (f : X → IoResultView A) (addrs : list X).

Lemma first_addr_accepts f pre a post v e :
  Forall (λ x, ∃ c, f x = Err c) pre → f a = Ok v → first_addr f (pre ++ a :: post) e = Ok v.
Proof.
  intros Hpre Ha. revert e. induction Hpre as [|x pre [c Hx] _ IH]; intros e; simpl; [by rewrite Ha|].
  by rewrite Hx.
Qed.

Lemma first_addr_refused f addrs e :
  Forall (λ x, ∃ c, f x = Err c) addrs →
  ∃ c, first_addr f addrs e = Err c ∧
    (c = default invalid_input e ∧ addrs = [] ∨ ∃ x, last addrs = Some x ∧ f x = Err c).
Proof.
  intros Hf. revert e. induction Hf as [|x addrs [c Hx] _ IH]; intros e; simpl.
  - eexists. split; [done|]. by left.
  - rewrite Hx. destruct (IH (Some c)) as (c' & -> & Hc). exists c'. split; [done|]. right.
    destruct Hc as [[-> ->]|(y & Hy & Hfy)]; [by exists x|]. exists y. split; [|done].
    destruct addrs; [done|]. by rewrite last_cons_cons.
Qed.

(** An address accepted, or none. *)
Lemma first_addr_cases f addrs :
  (∃ pre a post v, addrs = pre ++ a :: post ∧ Forall (λ x, ∃ c, f x = Err c) pre ∧ f a = Ok v) ∨
  Forall (λ x, ∃ c, f x = Err c) addrs.
Proof.
  induction addrs as [|a addrs IH]; [by right; constructor|]. destruct (f a) as [v|c] eqn:Ea.
  - left. by exists [], a, addrs, v.
  - destruct IH as [(pre & b & post & v & -> & Hpre & Hb)|IH].
    + left. exists (a :: pre), b, post, v. split; [done|]. split; [|done]. constructor; [by exists c|done].
    + right. constructor; [by exists c|done].
Qed.
End loop.

(** ** What a poll does to the reactor's resources *)

Section resources.
Implicit Types (r : Reactor.Reactor) (t : service) (w : Z) (ans : Answers) (s : IoSocket).

Lemma drop_ios s r t os :
  simulates r t → service_ok t → is_Some (ios t !! resource_id s) →
  ∃ t', simulates (NetIo.drop s r os).2 t' ∧ service_ok t' ∧ timers t' = timers t ∧
    ios t' = base.delete (resource_id s) (ios t).
Proof.
  intros Hs Hok [ab Hx]. unfold NetIo.drop.
  assert (Hca : call_allowed t (DeregisterIo (resource_id s) (inner s) os)).
  { simpl. destruct (timers t !! resource_id s) as [[d w]|] eqn:Et; [|done].
    destruct (so_timers _ Hok _ _ _ Et) as (_ & Hn & _). congruence. }
  pose proof (deregister_io_step r t (resource_id s) (inner s) os Hs Hca) as Hd.
  destruct (Reactor.deregister_io_resource r (resource_id s) (inner s) os) as [a r']. destruct Hd as (t' & Ht & Hs').
  exists t'. split; [done|]. split; [by eapply sstep_ok|]. inversion Ht; subst; done.
Qed.

Lemma arm_ios s r t w interest :
  simulates r t → service_ok t → is_Some (ios t !! resource_id s) →
  ∃ r' t' ab, Reactor.set_waker r (resource_id s) interest w = Some r' ∧ simulates r' t' ∧ service_ok t' ∧
    timers t' = timers t ∧ ios t' = <[resource_id s := ab]> (ios t).
Proof.
  intros Hs Hok [ab Hx]. destruct (set_waker_ios r t _ interest w ab Hs Hx) as (r' & Hr & Hs' & _).
  exists r', (set_ios t (<[resource_id s := ReactorOps.with_wakers interest w ab]> (ios t))), (ReactorOps.with_wakers interest w ab).
  split; [done|]. split; [done|]. split; [|done].
  eapply (sstep_ok t (SetWaker (resource_id s) interest w)); [done|by exists ab|]. destruct t. by constructor.
Qed.

(** What a future holds of the reactor: nothing, or the resource of its stream. *)
Definition holds {T} (fut : ConnectFuture T) (held : gset Z) : Prop :=
  match fut with
  | Connecting c => ∃ s, stream c = Some s ∧ held = {[resource_id s]}
  | _ => held = ∅
  end.

(** What it hands on: the resource of the stream that it returns. *)
Definition handed (p : Polled IoSocket) : gset Z :=
  match p with Ready (Ok s) => {[resource_id s]} | _ => ∅ end.

(** After a poll the reactor has the resources [base], what the future holds, and what it
    hands on: of the resource [x] at most one of the two. *)
Definition accounts {T} (x : Z) (base : gset Z) (T0 : gmap Z (Z * Z))
    (out : option (Polled IoSocket * ConnectFuture T * Reactor.Reactor)) : Prop :=
  ∃ p fut r' t' held, out = Some (p, fut, r') ∧ simulates r' t' ∧ service_ok t' ∧ timers t' = T0 ∧
    holds fut held ∧ dom (ios t') = base ∪ (held ∪ handed p) ∧
    match p with
    | PendingPoll => held = {[x]}
    | Ready (Ok s) => held = ∅ ∧ resource_id s = x
    | Ready (Err _) => held = ∅
    end.

Section connecting.
Context {T : Type} s r t (Hs : simulates r t) (Hok : service_ok t) (Hx : is_Some (ios t !! resource_id s)).

Lemma accounts_err r1 os e :
  simulates r1 t →
  accounts (T:=T) (resource_id s) (dom (ios t) ∖ {[resource_id s]}) (timers t)
    (Some (Ready (Err e), Returned, (NetIo.drop s r1 os).2)).
Proof.
  intros H1. destruct (drop_ios s r1 t os H1 Hok Hx) as (t' & Hs' & Hok' & Ht & Hi).
  eexists _, _, _, t', ∅. split; [done|]. simpl. split_and!; [done..| |done].
  rewrite Hi, dom_delete_L. set_solver.
Qed.

Lemma accounts_armed v w :
  accounts (T:=T) (resource_id s) (dom (ios t) ∖ {[resource_id s]}) (timers t)
    (r2 ← Reactor.set_waker (Reactor.set_readiness r v) (resource_id s) WRITABLE w;
     Some (PendingPoll, Connecting (mkConnect (Some s)), r2)).
Proof.
  destruct (arm_ios s (Reactor.set_readiness r v) t w WRITABLE) as (r' & t' & ab & -> & Hs' & Hok' & Ht & Hi);
    [by apply simulates_readiness|done..|].
  eexists _, _, _, t', {[resource_id s]}. split; [done|]. simpl. split_and!; [done..|by exists s| |done].
  rewrite Hi, dom_insert_L. apply set_eq. intros y. destruct (decide (y = resource_id s)); set_solver.
Qed.

Lemma accounts_connected :
  accounts (T:=T) (resource_id s) (dom (ios t) ∖ {[resource_id s]}) (timers t) (Some (Ready (Ok s), Returned, r)).
Proof.
  eexists _, _, _, t, ∅. split; [done|]. simpl. split_and!; [done..| |done|done].
  assert (Hin : resource_id s ∈ dom (ios t)) by by apply elem_of_dom.
  apply set_eq. intros y. destruct (decide (y = resource_id s)); set_solver.
Qed.

Lemma poll_connecting_accounts w ans :
  accounts (T:=T) (resource_id s) (dom (ios t) ∖ {[resource_id s]}) (timers t)
    (poll_connecting (mkConnect (Some s)) r w ans).
Proof.
  unfold poll_connecting, poll_connect. cbn [stream mbind option_bind].
  destruct (is_writable r (resource_id s)).
  - destruct (error ans) as [[e|]|e]; [by apply accounts_err| |by apply accounts_err].
    destruct (peer ans) as [| |e]; [apply accounts_connected| |by apply accounts_err].
    unfold clear_writable. pose proof (accounts_armed (Readiness.clear_writable (Reactor.io_readiness r) (resource_id s)) w) as Ha.
    by destruct (Reactor.set_waker _ _ _ _).
  - pose proof (accounts_armed (Reactor.io_readiness r) w) as Ha. rewrite set_readiness_id in Ha.
    by destruct (Reactor.set_waker _ _ _ _).
Qed.
End connecting.

(** A poll that ends before a resource was made. *)
Lemma accounts_none {T} r1 t1 e :
  simulates r1 t1 → service_ok t1 →
  ∃ x, (∅ = ({[x]} : gset Z) ∨ ∅ = (∅ : gset Z) ∧ x ∉ dom (ios t1)) ∧
    accounts (T:=T) x (dom (ios t1)) (timers t1) (Some (Ready (Err e), Returned, r1)).
Proof.
  intros H1 H2. exists (fresh (dom (ios t1))). split; [right; split; [done|apply is_fresh]|].
  eexists _, _, _, t1, ∅. split; [done|]. simpl. split_and!; [done..| |done]. set_solver.
Qed.

Lemma timers_from_mio r t interest fd os t1 :
  simulates r t → simulates (from_mio r interest fd os).2 t1 → timers t1 = timers t.
Proof.
  intros Hs H1. unfold from_mio in H1. pose proof (register_io_step r t fd interest os Hs) as Hreg.
  destruct (Reactor.register_io_resource r fd interest os) as [a r1]. destruct Hreg as (t' & Ht & Hs1).
  assert (Ht1 : t1 = t').
  { destruct a; simpl in H1; [|by eapply simulates_unique]. eapply simulates_unique; [exact H1|]. by apply simulates_readiness. }
  subst. by inversion Ht.
Qed.
End resources.

(** ** The type of the name does not matter after the first poll *)

Section cast.
Context {T T' : Type} `{ToSocketAddrs T, ToSocketAddrs T'}.

Definition cast (fut : ConnectFuture T) : ConnectFuture T' :=
  match fut with Connecting c => Connecting c | _ => Returned end.

Definition resumed (fut : ConnectFuture T) : Prop := match fut with Unresumed _ => False | _ => True end.

Definition cast_out (out : option (Polled IoSocket * ConnectFuture T * Reactor.Reactor)) :
    option (Polled IoSocket * ConnectFuture T' * Reactor.Reactor) :=
  '(p, fut, r) ← out; Some (p, cast fut, r).

Lemma poll_connecting_cast c r w ans : cast_out (poll_connecting c r w ans) = poll_connecting c r w ans.
Proof. unfold poll_connecting. by destruct (poll_connect c r w _ _) as [[[[[s|e]|] c1] r1]|]. Qed.

Lemma poll_connecting_resumed c r w ans p (fut : ConnectFuture T) r1 :
  poll_connecting c r w ans = Some (p, fut, r1) → resumed fut.
Proof.
  unfold poll_connecting. destruct (poll_connect c r w _ _) as [[[[[s|e]|] c1] r2]|]; simpl; [..|done];
    by intros [= _ <- _].
Qed.

Lemma polls_cast fut r steps : resumed fut → polls fut r steps = polls (cast fut) r steps.
Proof.
  revert fut r. induction steps as [|[[w ans] others] steps IH]; intros fut r Hf; [done|].
  destruct fut as [a|c|]; [done| |done]. cbn [cast polls poll].
  rewrite <- poll_connecting_cast. destruct (poll_connecting c r w ans) as [[[p fut] r1]|] eqn:E; [|done]. simpl.
  destruct p; [done|]. apply IH. by eapply poll_connecting_resumed.
Qed.
End cast.

(** ** Theorems *)

Section theorems.
Context {T : Type} `{ToSocketAddrs T}.
Implicit Types (r : Reactor.Reactor) (t : service) (w : Z) (ans : Answers) (fut : ConnectFuture T) (a : T).

(** C22. A connection stands for one address.  The first address
    whose connection the system begins (it refused every address before it) is the one
    connected to: whatever becomes of that connection, in any number of polls, the outcome
    is that of a [connect] to this address alone.  When there is no such address the
    system refused every one of them, and the answer is its error for the last; without any
    address it is [InvalidInput]; when the name has no answer, the resolver's error. *)
Theorem connect_one_address a r w ans others steps :
  match to_socket_addrs a with
  | Err e => polls (Unresumed a) r ((w, ans, others) :: steps) = Some (Ready (Err e), r)
  | Ok addrs =>
      (∃ pre b post, addrs = pre ++ b :: post ∧
         Forall (λ x, ∃ c, open ans x = Err c) pre ∧ (∃ fd, open ans b = Ok fd) ∧
         polls (Unresumed a) r ((w, ans, others) :: steps) = polls (Unresumed b) r ((w, ans, others) :: steps)) ∨
      Forall (λ x, ∃ c, open ans x = Err c) addrs ∧
      ∃ e, polls (Unresumed a) r ((w, ans, others) :: steps) = Some (Ready (Err e), r) ∧
        (addrs = [] ∧ e = invalid_input ∨ ∃ b, last addrs = Some b ∧ open ans b = Err e)
  end.
Proof.
  destruct (to_socket_addrs a) as [addrs|e] eqn:Ea; [|simpl; by rewrite Ea].
  destruct (first_addr_cases (open ans) addrs) as [(pre & b & post & fd & -> & Hpre & Hb)|Hall].
  - left. exists pre, b, post. split; [done|]. split; [done|]. split; [by exists fd|]. cbn [polls poll]. rewrite Ea.
    change (to_socket_addrs b) with (Ok [b]). cbv beta iota. unfold NetIo.connect.
    rewrite (first_addr_accepts _ pre b post fd) by done. simpl first_addr. rewrite Hb.
    destruct (connect_new r fd (register ans)) as [[s|e] r1]; [|done].
    rewrite <- (poll_connecting_cast (T:=T) (T':=SocketAddr)).
    destruct (poll_connecting _ r1 w ans) as [[[p fut] r2]|] eqn:Ep; [|done]. simpl.
    destruct p; [done|]. apply polls_cast. by eapply poll_connecting_resumed.
  - right. split; [done|]. destruct (first_addr_refused _ _ None Hall) as (e & He & Hor). exists e. split.
    + cbn [polls poll]. rewrite Ea. unfold NetIo.connect. by rewrite He.
    + destruct Hor as [[-> ->]|Hor]; [by left|by right].
Qed.

(** C21. A connection holds no resource that it does not hand on.  A poll, whatever the
    system answers and whoever used the reactor before, leaves it with the
    resources of the others, and with one more while it is pending; this one
    goes to the stream that the poll returns, and is given back when the poll returns an
    error or the future is dropped.  Timers are not touched, and no poll before the
    future returns panics. *)
Theorem connect_accounts fut r t w ans held :
  simulates r t → service_ok t → holds fut held → held ⊆ dom (ios t) → fut ≠ Returned →
  (∃ x, (held = {[x]} ∨ held = ∅ ∧ x ∉ dom (ios t)) ∧
     accounts x (dom (ios t) ∖ held) (timers t) (poll fut r w ans)) ∧
  ∀ os, ∃ t', simulates (drop fut r os) t' ∧ service_ok t' ∧ timers t' = timers t ∧
    dom (ios t') = dom (ios t) ∖ held.
Proof.
  intros Hs Hok Hh Hsub Hne. destruct fut as [a|c|]; [simpl in Hh; subst| |done].
  - split; [|intros os; exists t; split_and!; [done..|]; simpl; by rewrite difference_empty_L].
    cbn [poll]. rewrite difference_empty_L. destruct (to_socket_addrs a) as [addrs|e]; [|by apply accounts_none].
    unfold NetIo.connect. destruct (first_addr (open ans) addrs None) as [fd|e]; [|by apply accounts_none].
    unfold connect_new. pose proof (from_mio_spec r t READABLE_WRITABLE fd (register ans) Hs Hok) as Hm.
    pose proof (λ t1, timers_from_mio r t READABLE_WRITABLE fd (register ans) t1 Hs) as Ht.
    destruct (from_mio r READABLE_WRITABLE fd (register ans)) as [[s|e] r1].
    + destruct Hm as (t1 & Hs1 & Hok1 & _ & _ & _ & Hn & Hi & _). exists (resource_id s).
      assert (Hnd : resource_id s ∉ dom (ios t)) by by apply not_elem_of_dom.
      split; [right; done|]. rewrite <- (Ht t1 Hs1).
      replace (dom (ios t)) with (dom (ios t1) ∖ {[resource_id s]}); [|rewrite Hi, dom_insert_L; set_solver].
      apply poll_connecting_accounts; [done..|]. rewrite Hi, lookup_insert_eq. by eexists.
    + destruct Hm as (t1 & Hs1 & Hok1 & Hi & _). rewrite <- Hi, <- (Ht t1 Hs1). by apply accounts_none.
  - destruct Hh as (s & Hc & ->). destruct c as [st]. simpl in Hc. subst st.
    assert (Hx : is_Some (ios t !! resource_id s)) by (apply elem_of_dom; set_solver). split.
    + exists (resource_id s). split; [by left|]. by apply poll_connecting_accounts.
    + intros os. destruct (drop_ios s r t os Hs Hok Hx) as (t' & ? & ? & ? & Hi). exists t'.
      split_and!; [done..|]. by rewrite Hi, dom_delete_L.
Qed.
End theorems.

(** ** The socket builder *)

Module TcpSocket.

(** The system's sockets: an answer, and the system after it.  [WouldBlock] and the errors
    by number are what [connect] tells apart. *)
Inductive Domain := IPV4 | IPV6.
Inductive ConnError := Errno (raw : Z) (would_block : bool) | OtherErr (code : Z).

Class Os (S : Type) := {
  socket : Domain → S → IoResultView Z * S;
  set_nonblocking : Z → bool → S → IoResultView unit * S;
  set_reuse_address : Z → bool → S → IoResultView unit * S;
  set_reuse_port : Z → bool → S → IoResultView unit * S;
  set_no_delay : Z → bool → S → IoResultView unit * S;
  os_bind : Z → SocketAddr → S → IoResultView unit * S;
  os_listen : Z → Z → S → IoResultView unit * S;
  os_local_addr : Z → S → IoResultView (option SocketAddr);
  os_connect : Z → SocketAddr → S → option ConnError * S;
  close : Z → S → S;
}.

(** [backlog as i32]. *)
Definition as_i32 (z : Z) : Z := (let m := z mod 2 ^ 32 in if m <? 2 ^ 31 then m else m - 2 ^ 32)%Z.

Record TcpSocket := mkTcpSocket { fd : Z }.

(** [ErrorKind::Other] with a message of its own. *)
Definition not_a_socket_address : Z := -3.

Definition code (e : ConnError) : Z := match e with Errno raw _ => raw | OtherErr c => c end.

Section socket.
Context {S : Type} `{Os S}.
Implicit Types (os : S) (r : Reactor.Reactor) (s : TcpSocket).

Definition create (d : Domain) os : IoResultView TcpSocket * S :=
  match socket d os with
  | (Ok x, os1) =>
      match set_nonblocking x true os1 with
      | (Ok _, os2) => (Ok (mkTcpSocket x), os2)
      | (Err e, os2) => (Err e, close x os2)
      end
  | (Err e, os1) => (Err e, os1)
  end.

Definition new_v4 os : IoResultView TcpSocket * S := create IPV4 os.
Definition new_v6 os : IoResultView TcpSocket * S := create IPV6 os.

Definition set_reuseaddr s (b : bool) os : IoResultView unit * S := set_reuse_address (fd s) b os.
Definition set_reuseport s (b : bool) os : IoResultView unit * S := set_reuse_port (fd s) b os.
Definition set_nodelay s (b : bool) os : IoResultView unit * S := set_no_delay (fd s) b os.
Definition bind s (addr : SocketAddr) os : IoResultView unit * S := os_bind (fd s) addr os.

Definition local_addr s os : IoResultView SocketAddr :=
  match os_local_addr (fd s) os with
  | Ok (Some a) => Ok a
  | Ok None => Err not_a_socket_address
  | Err e => Err e
  end.

(** [TcpListener::from_std]; a listener that is not returned is dropped. *)
Definition listener_from_std (x : Z) r os (reg : Z → Z → bool * bool → IoResultView unit) :
    IoResultView IoSocket * Reactor.Reactor * S :=
  match set_nonblocking x true os with
  | (Ok _, os1) =>
      match listener_new r x reg with
      | (Ok l, r1) => (Ok l, r1, os1)
      | (Err e, r1) => (Err e, r1, close x os1)
      end
  | (Err e, os1) => (Err e, r, close x os1)
  end.

(** [listen], which consumes the socket. *)
Definition listen s (backlog : Z) r os (reg : Z → Z → bool * bool → IoResultView unit) :
    IoResultView IoSocket * Reactor.Reactor * S :=
  match os_listen (fd s) (as_i32 backlog) os with
  | (Ok _, os1) => listener_from_std (fd s) r os1 reg
  | (Err e, os1) => (Err e, r, close (fd s) os1)
  end.

(** Which errors mean that the connection is being made: EINPROGRESS, by its numbers on
    macOS and on Linux, and [WouldBlock]. *)
Definition in_progress (e : ConnError) : bool :=
  match e with Errno raw wb => (raw =? 36)%Z || (raw =? 115)%Z || wb | OtherErr _ => false end.

(** [connect], which consumes the socket, up to the wait for the connection. *)
Definition connect s (addr : SocketAddr) r os (reg : Z → Z → bool * bool → IoResultView unit) :
    IoResultView IoSocket * Reactor.Reactor * S :=
  let '(refused, os1) :=
    match os_connect (fd s) addr os with
    | (None, os1) => (None, os1)
    | (Some e, os1) => (if in_progress e then None else Some (code e), os1)
    end in
  match refused with
  | Some e => (Err e, r, close (fd s) os1)
  | None =>
      match connect_new r (fd s) reg with
      | (Ok c, r1) => (Ok c, r1, os1)
      | (Err e, r1) => (Err e, r1, close (fd s) os1)
      end
  end.

(** ** What the builder owns *)

(** The documented behaviour of the system: [socket] opens a new descriptor, [close] closes
    one, and the other calls open and close none. *)
Record OsLaws (opens : S → gset Z) : Prop := {
  opens_socket : ∀ d os,
    match socket d os with
    | (Ok x, os1) => x ∉ opens os ∧ opens os1 = {[x]} ∪ opens os
    | (Err _, os1) => opens os1 = opens os
    end;
  opens_close : ∀ x os, opens (close x os) = opens os ∖ {[x]};
  opens_nonblocking : ∀ x b os, opens (set_nonblocking x b os).2 = opens os;
  opens_listen : ∀ x b os, opens (os_listen x b os).2 = opens os;
  opens_connect : ∀ x a os, opens (os_connect x a os).2 = opens os;
}.

Context (opens : S → gset Z) (Laws : OsLaws opens).

(** What a call leaves open: all that was open, and the descriptor of what it returns. *)
Definition leaves {A} (before : gset Z) (desc : A → Z) (res : IoResultView A) (after : gset Z) : Prop :=
  match res with
  | Ok a => after = {[desc a]} ∪ before
  | Err _ => after = before
  end.

Lemma create_leaves d os :
  leaves (opens os) fd (create d os).1 (opens (create d os).2) ∧
  ∀ s, (create d os).1 = Ok s → fd s ∉ opens os.
Proof.
  unfold create. pose proof (opens_socket _ Laws d os) as Hs. destruct (socket d os) as [[x|e] os1]; [|by split].
  destruct Hs as [Hx Ho]. pose proof (opens_nonblocking _ Laws x true os1) as Hn.
  destruct (set_nonblocking x true os1) as [[u|e] os2]; simpl in *; split; [congruence|by intros s [= <-]| |done].
  rewrite (opens_close _ Laws), Hn, Ho. set_solver.
Qed.

Lemma inner_from_mio r interest x reg c r1 : from_mio r interest x reg = (Ok c, r1) → inner c = x.
Proof. unfold from_mio. destruct (Reactor.register_io_resource r x interest reg) as [[i|e] r2]; by intros [= <- _]. Qed.

Lemma listen_leaves s backlog r os reg :
  fd s ∈ opens os →
  leaves (opens os ∖ {[fd s]}) inner (listen s backlog r os reg).1.1 (opens (listen s backlog r os reg).2).
Proof.
  intros Hin. unfold listen. pose proof (opens_listen _ Laws (fd s) (as_i32 backlog) os) as Hl.
  destruct (os_listen (fd s) (as_i32 backlog) os) as [[u|e] os1]; simpl in Hl; [|simpl; by rewrite (opens_close _ Laws), Hl].
  unfold listener_from_std. pose proof (opens_nonblocking _ Laws (fd s) true os1) as Hn.
  destruct (set_nonblocking (fd s) true os1) as [[u'|e] os2]; simpl in Hn; [|simpl; by rewrite (opens_close _ Laws), Hn, Hl].
  destruct (listener_new r (fd s) reg) as [[l|e] r1] eqn:El; simpl; [|by rewrite (opens_close _ Laws), Hn, Hl].
  apply inner_from_mio in El. rewrite Hn, Hl, El. apply union_difference_L. set_solver.
Qed.

Lemma connect_leaves s addr r os reg :
  fd s ∈ opens os →
  leaves (opens os ∖ {[fd s]}) inner (connect s addr r os reg).1.1 (opens (connect s addr r os reg).2).
Proof.
  intros Hin. unfold connect. pose proof (opens_connect _ Laws (fd s) addr os) as Hc.
  assert (Hreg : ∀ os1, opens os1 = opens os → leaves (opens os ∖ {[fd s]}) inner
    (match connect_new r (fd s) reg with (Ok c, r1) => (Ok c, r1, os1) | (Err e, r1) => (Err e, r1, close (fd s) os1) end).1.1
    (opens (match connect_new r (fd s) reg with (Ok c, r1) => (Ok c, r1, os1) | (Err e, r1) => (Err e, r1, close (fd s) os1) end).2)).
  { intros os1 Ho. destruct (connect_new r (fd s) reg) as [[c|e] r1] eqn:E; simpl; [|by rewrite (opens_close _ Laws), Ho].
    apply inner_from_mio in E. rewrite Ho, E. apply union_difference_L. set_solver. }
  destruct (os_connect (fd s) addr os) as [[e|] os1]; simpl in Hc; [|by apply Hreg].
  destruct (in_progress e); [by apply Hreg|]. simpl. by rewrite (opens_close _ Laws), Hc.
Qed.
End socket.

(** A backlog below 2^31 is passed on as it is, and one above as a negative number. *)
Lemma as_i32_cases (z : Z) :
  (0 ≤ z < 2 ^ 32)%Z → as_i32 z = z ∧ (z < 2 ^ 31)%Z ∨ as_i32 z = (z - 2 ^ 32)%Z ∧ (2 ^ 31 ≤ z)%Z.
Proof. intros Hz. unfold as_i32. rewrite Z.mod_small by done. destruct (Z.ltb_spec z (2 ^ 31)); auto. Qed.

End TcpSocket.

(** The builder loses no descriptor.  Creating a socket opens one descriptor, new, when it
    succeeds, and none otherwise; [listen] and [connect] hand the descriptor of their
    socket to the listener or the stream that they return, and close it when they return
    an error, whichever call it comes from. *)
Theorem builder_leaks_nothing {S} `{TcpSocket.Os S} (opens : S → gset Z) d (os : S) r s backlog addr reg :
  TcpSocket.OsLaws opens → TcpSocket.fd s ∈ opens os →
  (TcpSocket.leaves (opens os) TcpSocket.fd (TcpSocket.create d os).1 (opens (TcpSocket.create d os).2) ∧
   ∀ s1, (TcpSocket.create d os).1 = Ok s1 → TcpSocket.fd s1 ∉ opens os) ∧
  TcpSocket.leaves (opens os ∖ {[TcpSocket.fd s]}) inner (TcpSocket.listen s backlog r os reg).1.1
    (opens (TcpSocket.listen s backlog r os reg).2) ∧
  TcpSocket.leaves (opens os ∖ {[TcpSocket.fd s]}) inner (TcpSocket.connect s addr r os reg).1.1
    (opens (TcpSocket.connect s addr r os reg).2).
Proof.
  intros Laws Hs. split; [by apply TcpSocket.create_leaves|].
  split; [by apply TcpSocket.listen_leaves|by apply TcpSocket.connect_leaves].
Qed.

(** ** Runs *)

(** A system whose state is the open descriptors, on which a connection is refused. *)
#[local] Instance small_os : TcpSocket.Os (gset Z) := {
  TcpSocket.socket _ os := (Ok (fresh os), {[fresh os]} ∪ os);
  TcpSocket.set_nonblocking _ _ os := (Ok tt, os);
  TcpSocket.set_reuse_address _ _ os := (Ok tt, os);
  TcpSocket.set_reuse_port _ _ os := (Ok tt, os);
  TcpSocket.set_no_delay _ _ os := (Ok tt, os);
  TcpSocket.os_bind _ _ os := (Ok tt, os);
  TcpSocket.os_listen _ _ os := (Ok tt, os);
  TcpSocket.os_local_addr _ _ := Ok None;
  TcpSocket.os_connect _ _ os := (Some (TcpSocket.Errno 111 false), os);
  TcpSocket.close x os := os ∖ {[x]};
}.

Lemma builder_leaks_nothing_witness :
  TcpSocket.connect (TcpSocket.mkTcpSocket 5) (V4 1 80) Reactor.new {[5%Z]} (λ _ _ _, Ok tt) = (Err 111%Z, Reactor.new, ∅) ∧
  TcpSocket.leaves ({[5%Z]} ∖ {[5%Z]} : gset Z) inner
    (TcpSocket.listen (TcpSocket.mkTcpSocket 5) 128 Reactor.new {[5%Z]} (λ _ _ _, Ok tt)).1.1
    (TcpSocket.listen (TcpSocket.mkTcpSocket 5) 128 Reactor.new {[5%Z]} (λ _ _ _, Ok tt)).2.
Proof.
  split; [vm_compute; reflexivity|].
  destruct (builder_leaks_nothing (λ x : gset Z, x) TcpSocket.IPV4 {[5%Z]} Reactor.new (TcpSocket.mkTcpSocket 5) 128%Z (V4 1 80) (λ _ _ _, Ok tt))
    as (_ & Hl & _); [|simpl; set_solver|exact Hl].
  split; simpl; try done. intros _ os. split; [apply is_fresh|done].
Defined.

(** A library for which no string is a literal, and a host with two addresses. *)
#[local] Instance small_std : Std := {
  parse_v4 _ := None;
  parse_v6 _ := None;
  parse_addr _ := None;
  resolve_host _ port := Ok [V4 1 port; V4 2 port];
  resolve _ := Err 3%Z;
}.

(** Every connection can be begun; the one to the first address is then refused. *)
Definition first_refused : Answers :=
  mkAnswers (λ a, match a with V4 x _ => Ok x | _ => Err 9%Z end) (λ _ _ _, Ok tt) (λ _, Ok tt) (Ok (Some 111%Z)) Connected.

(** A host whose second address would be connected to is not. *)
Example second_address_untried :
  (∃ r, polls (Unresumed (("host" : string), 80%Z)) Reactor.new [(5%Z, first_refused, λ r, r)] = Some (Ready (Err 111%Z), r)) ∧
  open first_refused (V4 2 80) = Ok 2%Z.
Proof. split; [eexists; vm_compute; reflexivity|done]. Qed.

Lemma connect_accounts_witness :
  ∃ x, x ∉ dom (ios service_init) ∧
    accounts x (dom (ios service_init) ∖ ∅) (timers service_init)
      (poll (Unresumed (("host" : string), 80%Z)) Reactor.new 5 first_refused).
Proof.
  destruct (connect_accounts (Unresumed (("host" : string), 80%Z)) Reactor.new service_init 5 first_refused ∅)
    as [(x & Hx & Ha) _]; [apply simulates_new|apply service_ok_init|done|set_solver|done|].
  exists x. split; [|exact Ha]. simpl. set_solver.
Defined.
