(* ===== verification/BlockingPool.v ===== *)
(** * BlockingPool: join handles, and the threads that run blocking closures

    [JoinHandle] is [lion-executor/src/types/join_handle.rs], a cell that one side
    completes and the other polls.  [Pool] is [lion-executor/src/blocking.rs]: worker
    threads with a queue each, and spawns that pick them in turn.  Threads interleave
    between the critical sections: a spawn takes four steps (choosing, advancing the
    counter, pushing, unparking), of which several may be under way at once, and a worker
    takes three for a closure (popping it, running its body, completing its join state).
    A closure reads and changes what the threads share with the outside, the world [W],
    and gives a value of [R]. *)

From S2P Require Import Prelude.

Module JoinHandle.

Section handle.
Context {T : Type}.

Record JoinState := mkState { result : option T; waker : option Z }.

Definition new : JoinState := mkState None None.

(** [JoinHandle::poll]; [None] is Pending. *)
Definition poll (st : JoinState) (w : Z) : option T * JoinState :=
  match result st with
  | Some v => (Some v, mkState None (waker st))
  | None => (None, mkState None (Some w))
  end.

(** [JoinSender::complete], with the waker it wakes. *)
Definition complete (st : JoinState) (v : T) : list Z * JoinState :=
  match waker st with
  | Some w => ([w], mkState (Some v) None)
  | None => ([], mkState (Some v) None)
  end.

(** Polls one after the other, with their answers. *)
Fixpoint polls (st : JoinState) (ws : list Z) : list (option T) * JoinState :=
  match ws with
  | [] => ([], st)
  | w :: ws' => let '(o, st1) := poll st w in let '(os, st2) := polls st1 ws' in (o :: os, st2)
  end.

Lemma polls_pending st ws :
  result st = None →
  polls st ws = (replicate (length ws) None, mkState None (default (waker st) (Some <$> last ws))).
Proof.
  revert st. induction ws as [|w ws IH]; intros [r k] Hr; simpl in *; subst; [done|].
  unfold poll. simpl result. cbv beta iota. rewrite IH by done. simpl waker.
  destruct ws as [|w' ws]; [done|]. rewrite last_cons_cons.
  by destruct (proj2 (last_is_Some (w' :: ws)) ltac:(done)) as [x ->].
Qed.
End handle.
Arguments JoinState T : clear implicits.

End JoinHandle.

Module Pool.

(** The threads of the global pool: what the environment variable parses to, or what the
    system says of itself. *)
Definition pool_size (env parallelism : option nat) : nat := default (default 4 parallelism) env.

Section data.
Context {W R : Type}.

(** A closure with the join state it completes: its value, or [None] when it panics, and
    the world it leaves. *)
Record Task := mkTask { id : nat; body : W → option R * W }.

(** Where a worker thread is: about to pop, about to run the body of a closure, about to
    complete its join state with the value that the body gave, about to park, unwound. *)
Inductive pc := Popping | Running (t : Task) | Completing (t : Task) (v : R) | Parking | Dead.

(** [token]: [unpark] was called since the last [park] returned. *)
Record Worker := mkWorker { queue : list Task; thread : pc; token : bool }.

Record BlockingPool := mkPool { workers : list Worker; next : nat }.

(** A spawn under way, after each of its first three steps. *)
Inductive spawning := Chosen (t : Task) (idx : nat) | Advanced (t : Task) (idx : nat) | Pushed (idx : nat).

(** The pool, the join states, the spawns under way, the wakers woken, the
    closures whose body ran, in order, and the world. *)
Record state := mkState {
  pool : BlockingPool;
  joins : gmap nat (JoinHandle.JoinState R);
  spawns : gmap nat spawning;
  woken : list Z;
  ran : list nat;
  world : W;
}.

Definition new (num_threads : nat) : BlockingPool :=
  mkPool (replicate num_threads (mkWorker [] Popping false)) 0.

Definition init (num_threads : nat) (wd : W) : state := mkState (new num_threads) ∅ ∅ [] [] wd.

Implicit Types (s : state) (i p : nat) (t : Task) (w : Worker).

Definition set_worker s i w : state :=
  mkState (mkPool (<[i := w]> (workers (pool s))) (next (pool s))) (joins s) (spawns s) (woken s) (ran s) (world s).
Definition set_spawn s p sp : state := mkState (pool s) (joins s) (<[p := sp]> (spawns s)) (woken s) (ran s) (world s).

(** [spawn], first part: the handle, and the index; [None] is the division by zero. *)
Definition spawn_choose s p t : option state :=
  match length (workers (pool s)) with
  | 0 => None
  | n =>
      let idx := next (pool s) mod n in
      Some (mkState (pool s) (<[id t := JoinHandle.new]> (joins s)) (<[p := Chosen t idx]> (spawns s))
              (woken s) (ran s) (world s))
  end.

(** The other three: setting the counter, pushing, unparking. *)
Definition spawn_step s p : option state :=
  sp ← spawns s !! p;
  match sp with
  | Chosen t idx =>
      Some (set_spawn (mkState (mkPool (workers (pool s)) (idx + 1)) (joins s) (spawns s) (woken s) (ran s) (world s))
              p (Advanced t idx))
  | Advanced t idx =>
      w ← workers (pool s) !! idx;
      Some (set_spawn (set_worker s idx (mkWorker (queue w ++ [t]) (thread w) (token w))) p (Pushed idx))
  | Pushed idx =>
      w ← workers (pool s) !! idx;
      let s1 := set_worker s idx (mkWorker (queue w) (thread w) true) in
      Some (mkState (pool s1) (joins s1) (base.delete p (spawns s1)) (woken s1) (ran s1) (world s1))
  end.

(** [f()] returned: what the body leaves of the world. *)
Definition ran_task s t (wd : W) : state :=
  mkState (pool s) (joins s) (spawns s) (woken s) (ran s ++ [id t]) wd.

(** [sender.complete(v)]. *)
Definition complete_task s t (v : R) : state :=
  let '(ws, st) := JoinHandle.complete (default JoinHandle.new (joins s !! id t)) v in
  mkState (pool s) (<[id t := st]> (joins s)) (spawns s) (woken s ++ ws) (ran s) (world s).

Definition set_world s (wd : W) : state :=
  mkState (pool s) (joins s) (spawns s) (woken s) (ran s) wd.

(** One step of a worker's loop; [None] is blocked in [park], or gone. *)
Definition worker_step s i : option state :=
  w ← workers (pool s) !! i;
  match thread w with
  | Popping =>
      match queue w with
      | t :: q => Some (set_worker s i (mkWorker q (Running t) (token w)))
      | [] => Some (set_worker s i (mkWorker [] Parking (token w)))
      end
  | Running t =>
      match body t (world s) with
      | (Some v, wd) => Some (ran_task (set_worker s i (mkWorker (queue w) (Completing t v) (token w))) t wd)
      | (None, wd) => Some (set_world (set_worker s i (mkWorker (queue w) Dead (token w))) wd)
      end
  | Completing t v => Some (complete_task (set_worker s i (mkWorker (queue w) Popping (token w))) t v)
  | Parking => if token w then Some (set_worker s i (mkWorker (queue w) Popping false)) else None
  | Dead => None
  end.

Fixpoint worker_steps (k : nat) s i : option state :=
  match k with
  | 0 => Some s
  | S k' => s1 ← worker_step s i; worker_steps k' s1 i
  end.

(** [JoinHandle::poll] on the join state of a spawned closure. *)
Definition join_poll s j (wk : Z) : option state :=
  st ← joins s !! j;
  Some (mkState (pool s) (<[j := (JoinHandle.poll st wk).2]> (joins s)) (spawns s) (woken s) (ran s) (world s)).

Inductive op := Choose (p : nat) (t : Task) | Spawn (p : nat) | Work (i : nat) | Join (j : nat) (wk : Z).

Definition step (s : state) (o : op) : option state :=
  match o with
  | Choose p t => spawn_choose s p t
  | Spawn p => spawn_step s p
  | Work i => worker_step s i
  | Join j wk => join_poll s j wk
  end.

(** A thread runs one spawn at a time, and a closure has its own join state. *)
Definition allowed (s : state) (o : op) : Prop :=
  match o with Choose p t => spawns s !! p = None ∧ joins s !! id t = None | _ => True end.

Inductive reach (s0 : state) : state → Prop :=
  | reach_refl : reach s0 s0
  | reach_step s o s' : reach s0 s → allowed s o → step s o = Some s' → reach s0 s'.

End data.
Arguments Task : clear implicits.
Arguments Worker : clear implicits.
Arguments BlockingPool : clear implicits.
Arguments state : clear implicits.
Arguments spawning : clear implicits.
Arguments op : clear implicits.

End Pool.

Import Pool.

Section invariant.
Context {W R : Type}.
Implicit Types (s : state W R) (i p : nat) (t : Task W R) (w : Worker W R).

(** ** The invariant *)

(** What a worker has still to run, the closure it is about to run first. *)
Definition tasks_of w : list (Task W R) :=
  match thread w with Running t => t :: queue w | _ => queue w end.

(** The join state that it is about to complete, with the value. *)
Definition completing_of w : list (nat * R) :=
  match thread w with Completing t v => [(id t, v)] | _ => [] end.

Definition spawn_idx (sp : spawning W R) : nat :=
  match sp with Chosen _ idx | Advanced _ idx | Pushed idx => idx end.

Record pool_inv s : Prop := {
  pi_index : ∀ p sp, spawns s !! p = Some sp → spawn_idx sp < length (workers (pool s));
  pi_parked : ∀ i w, workers (pool s) !! i = Some w → thread w = Parking → token w = false →
    queue w ≠ [] → ∃ p, spawns s !! p = Some (Pushed i);
}.

Lemma pool_inv_worker s i w w' :
  pool_inv s → workers (pool s) !! i = Some w →
  (thread w' = Parking → token w' = false → queue w' ≠ [] → ∃ p, spawns s !! p = Some (Pushed i)) →
  pool_inv (set_worker s i w').
Proof.
  intros [] Hw Hp. split; simpl; [by setoid_rewrite length_insert|].
  intros j wj Hj. apply list_lookup_insert_Some in Hj as [(-> & <- & _)|[_ Hj]]; [done|by apply pi_parked0].
Qed.

Lemma pool_inv_joins s j wk rn wd :
  pool_inv s → pool_inv (Pool.mkState (pool s) j (spawns s) wk rn wd).
Proof. by intros []. Qed.

Lemma pool_inv_step s o s' : pool_inv s → allowed s o → step s o = Some s' → pool_inv s'.
Proof.
  intros H Ha Hs. pose proof H as []. destruct o as [p t|p|i|j wk]; simpl in Hs.
  - unfold spawn_choose in Hs. destruct (length (workers (pool s))) as [|n] eqn:En; [done|].
    injection Hs as <-. destruct Ha as [Hp _]. split; simpl.
    + intros p' sp. rewrite En, lookup_insert. case_decide; [|apply pi_index0].
      intros [= <-]. simpl. pose proof (Nat.mod_upper_bound (next (pool s)) (S n)). simpl in *. lia.
    + intros i w Hw Ht Hk Hq. destruct (pi_parked0 i w Hw Ht Hk Hq) as [p' Hp'].
      exists p'. rewrite lookup_insert_ne by congruence. done.
  - unfold spawn_step in Hs. destruct (spawns s !! p) as [sp|] eqn:Ep; [|done]. simpl in Hs.
    pose proof (pi_index0 p sp Ep) as Hidx.
    assert (Hother : ∀ i sp', (∃ q, spawns s !! q = Some (Pushed i)) → sp ≠ Pushed i →
      ∃ q, <[p := sp']> (spawns s) !! q = Some (Pushed i)).
    { intros i sp' [q Hq] Hne. exists q. rewrite lookup_insert_ne; [done|congruence]. }
    destruct sp as [t idx|t idx|idx]; simpl in Hidx.
    + injection Hs as <-. split; simpl.
      * intros q sp'. rewrite lookup_insert. case_decide; [by intros [= <-]|apply pi_index0].
      * intros i w Hw Ht Hk Hq. apply Hother; [by eapply pi_parked0|done].
    + apply bind_Some in Hs as (w & Hw & [= <-]). split; simpl; rewrite ?length_insert.
      * intros q sp'. rewrite lookup_insert. case_decide; [by intros [= <-]|apply pi_index0].
      * intros i w' Hi Ht Hk Hq. apply list_lookup_insert_Some in Hi as [(-> & <- & _)|[Hne Hi]].
        -- exists p. by rewrite lookup_insert_eq.
        -- apply Hother; [by eapply pi_parked0|done].
    + apply bind_Some in Hs as (w & Hw & [= <-]). split; simpl; rewrite ?length_insert.
      * intros q sp' [_ Hq]%lookup_delete_Some. by eapply pi_index0.
      * intros i w' Hi Ht Hk Hq. apply list_lookup_insert_Some in Hi as [(-> & <- & _)|[Hne Hi]]; [done|].
        destruct (pi_parked0 i w' Hi Ht Hk Hq) as [q Hq']. exists q.
        rewrite lookup_delete_ne; [done|congruence].
  - unfold worker_step in Hs. apply bind_Some in Hs as (w & Hw & Hs).
    destruct (thread w) as [|t|t v| |] eqn:Et.
    + destruct (queue w); injection Hs as <-; by eapply pool_inv_worker.
    + destruct (body t (world s)) as [[v|] wd]; injection Hs as <-; by eapply pool_inv_joins, pool_inv_worker.
    + injection Hs as <-. unfold complete_task. destruct (JoinHandle.complete _ _). by eapply pool_inv_joins, pool_inv_worker.
    + destruct (token w); [|done]. injection Hs as <-. by eapply pool_inv_worker.
    + done.
  - apply bind_Some in Hs as (st & _ & [= <-]). by apply pool_inv_joins.
Qed.

Lemma pool_inv_init n wd : pool_inv (init n wd).
Proof.
  split; simpl; [intros p sp; by rewrite lookup_empty|].
  intros i w [-> _]%lookup_replicate. done.
Qed.

Lemma complete_task_pool s t v : pool (complete_task s t v) = pool s.
Proof. unfold complete_task. by destruct (JoinHandle.complete _ _). Qed.

Lemma step_length s o s' : step s o = Some s' → length (workers (pool s')) = length (workers (pool s)).
Proof.
  intros Hs. destruct o as [p t|p|i|j wk]; simpl in Hs.
  - unfold spawn_choose in Hs. destruct (length (workers (pool s))) eqn:E; [done|]. by injection Hs as <-.
  - apply bind_Some in Hs as ([t idx|t idx|idx] & _ & Hs); [by injection Hs as <-|..];
      apply bind_Some in Hs as (w & _ & [= <-]); apply length_insert.
  - apply bind_Some in Hs as (w & _ & Hs). destruct (thread w) as [|t|t v| |];
      [destruct (queue w)|destruct (body t (world s)) as [[v|] wd]| |destruct (token w)|];
      simplify_eq; rewrite ?complete_task_pool; apply length_insert.
  - by apply bind_Some in Hs as (st & _ & [= <-]).
Qed.

Lemma reach_inv n wd s : reach (init n wd) s → pool_inv s.
Proof. induction 1; [apply pool_inv_init|by eapply pool_inv_step]. Qed.

(** ** Draining a worker *)

Notation outcomes := (gmap nat (JoinHandle.JoinState R) * list Z * list nat * W)%type.

Definition results s : outcomes := (joins s, woken s, ran s, world s).

(** A closure that does not panic, whatever the world. *)
Definition returns t : Prop := ∀ wd, is_Some (body t wd).1.

(** What completing a join state leaves, and what a closure [t] leaves when its body
    ran and its join state was completed. *)
Definition deliver (r : outcomes) (jv : nat * R) : outcomes :=
  let '(js, wk, rn, wd) := r in
  let '(ws, st) := JoinHandle.complete (default JoinHandle.new (js !! jv.1)) jv.2 in
  (<[jv.1 := st]> js, wk ++ ws, rn, wd).

Definition finish (r : outcomes) t : outcomes :=
  let '(js, wk, rn, wd) := r in
  match body t wd with
  | (Some v, wd') => deliver (js, wk, rn ++ [id t], wd') (id t, v)
  | (None, wd') => (js, wk, rn, wd')
  end.

Lemma results_complete s t v : results (complete_task s t v) = deliver (results s) (id t, v).
Proof. unfold complete_task, results, deliver. simpl. by destruct (JoinHandle.complete _ _). Qed.

Lemma worker_steps_app k1 k2 s i s1 :
  worker_steps k1 s i = Some s1 → worker_steps (k1 + k2) s i = worker_steps k2 s1 i.
Proof.
  revert s. induction k1 as [|k1 IH]; intros s; simpl; [by intros [= ->]|].
  destruct (worker_step s i); simpl; [apply IH|done].
Qed.

Lemma worker_steps_S k s i s1 : worker_step s i = Some s1 → worker_steps (S k) s i = worker_steps k s1 i.
Proof. simpl. by intros ->. Qed.

Lemma worker_set s i w w' :
  workers (pool s) !! i = Some w → workers (pool (set_worker s i w')) !! i = Some w'.
Proof. intros Hw. apply list_lookup_insert_eq. by eapply lookup_lt_Some. Qed.

(** Completing a join state, and running one closure. *)
Lemma worker_completing s i q t v k :
  workers (pool s) !! i = Some (mkWorker q (Completing t v) k) →
  ∃ s', worker_step s i = Some s' ∧ workers (pool s') !! i = Some (mkWorker q Popping k) ∧
    results s' = deliver (results s) (id t, v).
Proof.
  intros Hw. unfold worker_step. rewrite Hw. cbn [mbind option_bind thread queue token]. eexists. split; [done|].
  split; [rewrite complete_task_pool; by eapply worker_set|]. apply (results_complete (set_worker s i _)).
Qed.

Lemma worker_running s i q t k :
  workers (pool s) !! i = Some (mkWorker q (Running t) k) → returns t →
  ∃ s', worker_steps 2 s i = Some s' ∧ workers (pool s') !! i = Some (mkWorker q Popping k) ∧
    results s' = finish (results s) t.
Proof.
  intros Hw Ht. destruct (Ht (world s)) as [v Hv]. destruct (body t (world s)) as [o wd] eqn:Hb. simpl in Hv. subst o.
  set (s1 := ran_task (set_worker s i (mkWorker q (Completing t v) k)) t wd).
  assert (H1 : worker_step s i = Some s1).
  { unfold worker_step. rewrite Hw. cbn [mbind option_bind thread queue token]. by rewrite Hb. }
  destruct (worker_completing s1 i q t v k) as (s2 & H2 & Hw2 & Hr2); [by eapply (worker_set s)|].
  exists s2. rewrite (worker_steps_S _ _ _ _ H1), (worker_steps_S _ _ _ _ H2). split; [done|]. split; [done|].
  rewrite Hr2. unfold finish, results. simpl. by rewrite Hb.
Qed.

Lemma worker_drain q s i k :
  workers (pool s) !! i = Some (mkWorker q Popping k) → Forall returns q →
  ∃ s', worker_steps (3 * length q + 1) s i = Some s' ∧
    workers (pool s') !! i = Some (mkWorker [] Parking k) ∧ results s' = foldl finish (results s) q.
Proof.
  revert s. induction q as [|t q IH]; intros s Hw Hq.
  - exists (set_worker s i (mkWorker [] Parking k)). split; [simpl; unfold worker_step; by rewrite Hw|].
    split; [by eapply worker_set|done].
  - inversion Hq as [|? ? Ht Hq']; subst. set (s1 := set_worker s i (mkWorker q (Running t) k)).
    assert (H1 : worker_step s i = Some s1) by (unfold worker_step; by rewrite Hw).
    destruct (worker_running s1 i q t k) as (s2 & H2 & Hw2 & Hr2); [by eapply worker_set|done|].
    destruct (IH s2 Hw2 Hq') as (s3 & H3 & Hw3 & Hr3). exists s3.
    replace (3 * length (t :: q) + 1) with (S (2 + (3 * length q + 1))) by (simpl; lia).
    rewrite (worker_steps_S _ _ _ _ H1), (worker_steps_app _ _ _ _ _ H2).
    split; [done|]. split; [done|]. by rewrite Hr3, Hr2.
Qed.

Lemma deliver_joins r j (v : R) : (deliver r (j, v)).1.1.1 = <[j := JoinHandle.mkState (Some v) None]> r.1.1.1.
Proof. destruct r as [[[js wk] rn] wd]. unfold deliver, JoinHandle.complete. simpl. by destruct (JoinHandle.waker _). Qed.

Lemma deliver_wakes r j (v : R) u :
  u ∈ (deliver r (j, v)).1.1.2 ↔ u ∈ r.1.1.2 ∨ ∃ st, r.1.1.1 !! j = Some st ∧ JoinHandle.waker st = Some u.
Proof.
  destruct r as [[[js wk] rn] wd]. unfold deliver, JoinHandle.complete. simpl.
  destruct (js !! j) as [[r0 [u0|]]|]; simpl; rewrite elem_of_app, ?list_elem_of_singleton; [split|set_solver..].
  - intros [?| ->]; [by left|]. right. by eexists.
  - intros [?|(st & [= <-] & Hu)]; [by left|]. simpl in Hu. right. by injection Hu.
Qed.

Lemma deliver_rest r jv : (deliver r jv).1.2 = r.1.2 ∧ (deliver r jv).2 = r.2.
Proof. destruct r as [[[js wk] rn] wd]. unfold deliver. by destruct (JoinHandle.complete _ _). Qed.

(** A closure that returns, with what it leaves. *)
Lemma finish_some r t :
  returns t → ∃ v wd', body t r.2 = (Some v, wd') ∧
    finish r t = deliver (r.1.1.1, r.1.1.2, r.1.2 ++ [id t], wd') (id t, v).
Proof.
  intros Ht. destruct r as [[[js wk] rn] wd]. unfold finish. destruct (Ht wd) as [v Hv]. simpl.
  destruct (body t wd) as [o wd']. simpl in Hv. subst o. by exists v, wd'.
Qed.

(** The world after the closures [ts], one after the other. *)
Definition worlds (wd : W) (ts : list (Task W R)) : W := foldl (λ wd t, (body t wd).2) wd ts.

Lemma finish_world ts r : (foldl finish r ts).2 = worlds r.2 ts.
Proof.
  revert r. induction ts as [|t ts IH]; intros [[[js wk] rn] wd]; simpl; [done|]. rewrite IH. f_equal.
  destruct (body t wd) as [[v|] wd']; [|done]. unfold deliver. by destruct (JoinHandle.complete _ _).
Qed.

Lemma finish_keeps ts r j :
  Forall returns ts → j ∉ (id <$> ts) → (foldl finish r ts).1.1.1 !! j = r.1.1.1 !! j.
Proof.
  revert r. induction ts as [|t ts IH]; intros r Hts Hj; [done|]. apply Forall_cons in Hts as [Ht Hts].
  simpl in Hj. apply not_elem_of_cons in Hj as [Hne Hj]. simpl. rewrite IH by done.
  destruct (finish_some r t Ht) as (v & wd' & _ & ->). by rewrite deliver_joins, lookup_insert_ne.
Qed.

(** A closure that was completed left in its state the value that it gives in the world
    that the closures before it left. *)
Lemma finish_result us t vs r :
  Forall returns (us ++ t :: vs) → NoDup (id <$> us ++ t :: vs) →
  ∃ st, (foldl finish r (us ++ t :: vs)).1.1.1 !! id t = Some st ∧
    JoinHandle.result st = (body t (worlds r.2 us)).1.
Proof.
  intros Hts Hn. apply Forall_app in Hts as [_ [Ht Hvs]%Forall_cons].
  rewrite fmap_app in Hn. apply NoDup_app in Hn as (_ & _ & [Hn _]%NoDup_cons).
  rewrite foldl_app. simpl. rewrite finish_keeps by done. rewrite <- finish_world.
  destruct (finish_some (foldl finish r us) t Ht) as (v & wd' & Hb & ->).
  rewrite deliver_joins, lookup_insert_eq, Hb. by eexists.
Qed.

(** The waiters of the closures are woken. *)
Lemma finish_wakes ts r u :
  Forall returns ts →
  u ∈ r.1.1.2 ∨ (∃ t st, t ∈ ts ∧ r.1.1.1 !! id t = Some st ∧ JoinHandle.waker st = Some u) →
  u ∈ (foldl finish r ts).1.1.2.
Proof.
  revert r. induction ts as [|x ts IH]; intros r Hts Hu; simpl.
  { destruct Hu as [?|(t & st & Ht & _)]; [done|by apply not_elem_of_nil in Ht]. }
  apply Forall_cons in Hts as [Hx Hts]. apply IH; [done|]. destruct (finish_some r x Hx) as (v & wd' & _ & ->).
  rewrite deliver_wakes. destruct Hu as [?|(t & st & Ht & Hst & Hw)]; [left; by left|].
  destruct (decide (id t = id x)) as [E|Hne]; [left; right; exists st; by rewrite <- E|].
  right. exists t, st. rewrite deliver_joins, lookup_insert_ne by done. split; [|done].
  apply elem_of_cons in Ht as [->|?]; done.
Qed.

Lemma finish_ran ts r : Forall returns ts → (foldl finish r ts).1.2 = r.1.2 ++ (id <$> ts).
Proof.
  revert r. induction ts as [|t ts IH]; intros r Hts; simpl; [by rewrite app_nil_r|].
  apply Forall_cons in Hts as [Ht Hts]. rewrite IH by done. destruct (finish_some r t Ht) as (v & wd' & _ & ->).
  rewrite (proj1 (deliver_rest _ _)). simpl. by rewrite <- app_assoc.
Qed.

(** A worker that is alive empties its queue, from wherever it is. *)
Lemma worker_empties s i w :
  pool_inv s → workers (pool s) !! i = Some w → thread w ≠ Dead →
  Forall returns (tasks_of w) → (∀ p, spawns s !! p ≠ Some (Pushed i)) →
  ∃ k s', k ≤ 3 * length (queue w) + 3 ∧ worker_steps k s i = Some s' ∧
    results s' = foldl finish (foldl deliver (results s) (completing_of w)) (tasks_of w) ∧
    ∃ b, workers (pool s') !! i = Some (mkWorker [] Parking b).
Proof.
  intros H Hw Hd Hts Hno. destruct w as [q th b].
  assert (Hgo : ∀ k1 s1 b1, k1 ≤ 2 → worker_steps k1 s i = Some s1 → workers (pool s1) !! i = Some (mkWorker q Popping b1) →
    Forall returns q → ∃ k s', k ≤ 3 * length q + 3 ∧ worker_steps k s i = Some s' ∧
      results s' = foldl finish (results s1) q ∧ ∃ b, workers (pool s') !! i = Some (mkWorker [] Parking b)).
  { intros k1 s1 b1 Hk H1 Hw1 Hq. destruct (worker_drain q s1 i b1 Hw1 Hq) as (s' & Hs & Hw' & Hr).
    exists (k1 + (3 * length q + 1)), s'. split; [lia|]. rewrite (worker_steps_app _ _ _ _ _ H1).
    split; [done|]. split; [done|]. by exists b1. }
  destruct th as [|t|t v| |]; cbn [thread queue token tasks_of completing_of foldl] in *; [| | | |done].
  - by apply (Hgo 0 s b); [lia|..].
  - apply Forall_cons in Hts as [Ht Hq]. destruct (worker_running s i q t b Hw Ht) as (s1 & H1 & Hw1 & <-).
    by eapply (Hgo 2).
  - destruct (worker_completing s i q t v b Hw) as (s1 & H1 & Hw1 & <-). eapply (Hgo 1); [lia| |done..].
    by rewrite (worker_steps_S _ _ _ _ H1).
  - destruct b.
    + apply (Hgo 1 (set_worker s i (mkWorker q Popping false)) false); [lia| |by eapply worker_set|done].
      unfold worker_steps, worker_step. by rewrite Hw.
    + destruct q as [|t q]; [exists 0, s; split; [lia|]; split; [done|]; split; [done|]; by exists false|].
      destruct (pi_parked _ H i _ Hw) as [p Hp]; [done..|]. by destruct (Hno p).
Qed.

End invariant.

(** ** What a step of the pool does to the closures that wait *)

Section ledger.
Context {W R : Type}.
Implicit Types (s : state W R) (t : Task W R) (w : Worker W R) (i p : nat).

Definition spawn_task (sp : spawning W R) : option (Task W R) :=
  match sp with Chosen t _ | Advanced t _ => Some t | Pushed _ => None end.

Definition spawn_tasks (m : gmap nat (spawning W R)) : list (Task W R) :=
  omap (λ x, spawn_task x.2) (map_to_list m).

(** The closures whose body has not run yet, and the join states about to be completed. *)
Definition pending s : list (Task W R) := (workers (pool s) ≫= tasks_of) ++ spawn_tasks (spawns s).
Definition completing s : list (nat * R) := workers (pool s) ≫= completing_of.

Lemma elem_of_completing s jv :
  jv ∈ completing s ↔ ∃ i w, workers (pool s) !! i = Some w ∧ jv ∈ completing_of w.
Proof.
  unfold completing. rewrite list_elem_of_bind.
  split; [intros (w & Hw & [i Hi]%list_elem_of_lookup); by exists i, w|].
  intros (i & w & Hi & Hw). exists w. split; [done|]. by eapply list_elem_of_lookup_2.
Qed.

Lemma elem_of_pending s t :
  t ∈ pending s ↔ (∃ i w, workers (pool s) !! i = Some w ∧ t ∈ tasks_of w) ∨
    (∃ p sp, spawns s !! p = Some sp ∧ spawn_task sp = Some t).
Proof.
  unfold pending, spawn_tasks. rewrite elem_of_app, list_elem_of_bind, list_elem_of_omap. f_equiv.
  - split; [intros (w & Hw & [i Hi]%list_elem_of_lookup); by exists i, w|].
    intros (i & w & Hi & Hw). exists w. split; [done|]. by eapply list_elem_of_lookup_2.
  - split; [intros ([p sp] & Hp%elem_of_map_to_list & Ht); by exists p, sp|].
    intros (p & sp & Hp & Ht). exists (p, sp). by rewrite elem_of_map_to_list.
Qed.

Lemma workers_update {B} (f : Worker W R → list B) ws i w w' :
  ws !! i = Some w → ∃ rest, ws ≫= f ≡ₚ f w ++ rest ∧ <[i := w']> ws ≫= f ≡ₚ f w' ++ rest.
Proof.
  intros Hi. pose proof (lookup_lt_Some _ _ _ Hi).
  exists ((take i ws ≫= f) ++ (skipn (S i) ws ≫= f)). split.
  - rewrite <- (take_drop_middle ws i w Hi) at 1. rewrite bind_app. simpl. solve_Permutation.
  - rewrite insert_take_drop by done. rewrite bind_app. simpl. solve_Permutation.
Qed.

Lemma spawn_tasks_update m p sp sp' :
  m !! p = Some sp →
  ∃ rest, spawn_tasks m ≡ₚ option_list (spawn_task sp) ++ rest ∧
    spawn_tasks (<[p := sp']> m) ≡ₚ option_list (spawn_task sp') ++ rest ∧ spawn_tasks (base.delete p m) = rest.
Proof.
  intros Hp. exists (spawn_tasks (base.delete p m)).
  assert (Hi : ∀ x, spawn_tasks (<[p := x]> (base.delete p m)) ≡ₚ option_list (spawn_task x) ++ spawn_tasks (base.delete p m)).
  { intros x. unfold spawn_tasks. rewrite map_to_list_insert by apply lookup_delete_eq. simpl. by destruct (spawn_task x). }
  rewrite <- (insert_delete_id m p sp Hp) at 1. rewrite <- (insert_delete_eq m p sp'). by split_and!.
Qed.

Lemma spawn_tasks_new m p sp :
  m !! p = None → spawn_tasks (<[p := sp]> m) ≡ₚ option_list (spawn_task sp) ++ spawn_tasks m.
Proof. intros Hp. unfold spawn_tasks. rewrite map_to_list_insert by done. simpl. by destruct (spawn_task sp). Qed.

(** A closure arrives. *)
Record arrives s t s' : Prop := {
  ar_pending : pending s' ≡ₚ t :: pending s;
  ar_completing : completing s' = completing s;
  ar_ran : ran s' = ran s;
  ar_world : world s' = world s;
  ar_joins : joins s' = <[id t := JoinHandle.new]> (joins s);
  ar_spawns : ∃ p idx, spawns s' = <[p := Chosen t idx]> (spawns s);
}.

(** What another step does: a closure moves, or its body runs, or its join state is
    completed, or it panics. *)
Inductive effect s s' : Prop :=
  | eff_move : pending s' ≡ₚ pending s → completing s' ≡ₚ completing s → ran s' = ran s → world s' = world s →
      joins s' = joins s → effect s s'
  | eff_run t v wd : pending s ≡ₚ t :: pending s' → completing s' ≡ₚ (id t, v) :: completing s →
      ran s' = ran s ++ [id t] → body t (world s) = (Some v, wd) → world s' = wd → joins s' = joins s → effect s s'
  | eff_complete j v : pending s' ≡ₚ pending s → completing s ≡ₚ (j, v) :: completing s' → ran s' = ran s →
      world s' = world s → joins s' = <[j := JoinHandle.mkState (Some v) None]> (joins s) → effect s s'
  | eff_panic t wd : pending s ≡ₚ t :: pending s' → completing s' ≡ₚ completing s → ran s' = ran s →
      body t (world s) = (None, wd) → world s' = wd → joins s' = joins s → effect s s'.

Lemma pending_worker s s' i w w' :
  workers (pool s) !! i = Some w → workers (pool s') = <[i := w']> (workers (pool s)) → spawns s' = spawns s →
  ∃ rest rest', pending s ≡ₚ tasks_of w ++ rest ∧ pending s' ≡ₚ tasks_of w' ++ rest ∧
    completing s ≡ₚ completing_of w ++ rest' ∧ completing s' ≡ₚ completing_of w' ++ rest'.
Proof.
  intros Hw E E'. destruct (workers_update tasks_of _ i w w' Hw) as (rest & H1 & H2).
  destruct (workers_update completing_of _ i w w' Hw) as (rest' & H3 & H4).
  exists (rest ++ spawn_tasks (spawns s)), rest'. unfold pending, completing. rewrite E, E', H1, H2, H3, H4.
  by rewrite <- !app_assoc.
Qed.

Lemma worker_effect s i s' : worker_step s i = Some s' → effect s s'.
Proof.
  unfold worker_step. intros Hs. apply bind_Some in Hs as (w & Hw & Hs).
  assert (Hmove : ∀ w', tasks_of w' = tasks_of w → completing_of w' = completing_of w → effect s (set_worker s i w')).
  { intros w' E E'. destruct (pending_worker s (set_worker s i w') i w w' Hw) as (rest & rest' & H1 & H2 & H3 & H4); [done..|].
    apply eff_move; [by rewrite H2, E, H1|by rewrite H4, E', H3|done..]. }
  destruct w as [q th b]. cbn [thread queue token] in *. destruct th as [|t|t v| |].
  - destruct q as [|t q]; injection Hs as <-; by apply Hmove.
  - destruct (body t (world s)) as [[v|] wd] eqn:Hb; injection Hs as <-.
    + destruct (pending_worker s (ran_task (set_worker s i (mkWorker q (Completing t v) b)) t wd) i _ (mkWorker q (Completing t v) b) Hw)
        as (rest & rest' & H1 & H2 & H3 & H4); [done..|].
      apply (eff_run _ _ t v wd); [by rewrite H1, H2|by rewrite H4, H3|done..].
    + destruct (pending_worker s (set_world (set_worker s i (mkWorker q Dead b)) wd) i _ (mkWorker q Dead b) Hw)
        as (rest & rest' & H1 & H2 & H3 & H4); [done..|].
      apply (eff_panic _ _ t wd); [by rewrite H1, H2|by rewrite H4, H3|done..].
  - injection Hs as <-. set (s2 := complete_task _ t v).
    assert (Hx : workers (pool s2) = <[i := mkWorker q Popping b]> (workers (pool s)) ∧ spawns s2 = spawns s ∧
      ran s2 = ran s ∧ world s2 = world s ∧ joins s2 = <[id t := JoinHandle.mkState (Some v) None]> (joins s)).
    { unfold s2, complete_task, JoinHandle.complete. simpl. by destruct (JoinHandle.waker _). }
    clearbody s2. destruct Hx as (E1 & E2 & E3 & E4 & E5).
    destruct (pending_worker s s2 i _ _ Hw E1 E2) as (rest & rest' & H1 & H2 & H3 & H4).
    apply (eff_complete _ _ (id t) v); [by rewrite H1, H2|by rewrite H3, H4|done..].
  - destruct b; [|done]. injection Hs as <-. by apply Hmove.
  - done.
Qed.

Lemma spawn_effect s p s' : spawn_step s p = Some s' → effect s s'.
Proof.
  unfold spawn_step. intros Hs. apply bind_Some in Hs as (sp & Hp & Hs).
  destruct sp as [t idx|t idx|idx].
  - injection Hs as <-. destruct (spawn_tasks_update _ p _ (Advanced t idx) Hp) as (rest & H1 & H2 & _).
    apply eff_move; [|done..]. unfold pending. simpl in *. by rewrite H1, H2.
  - apply bind_Some in Hs as (w & Hw & [= <-]).
    destruct (spawn_tasks_update _ p _ (Pushed idx) Hp) as (rest & H1 & H2 & _).
    set (w' := mkWorker (queue w ++ [t]) (thread w) (token w)).
    destruct (workers_update tasks_of _ idx w w' Hw) as (rest' & H3 & H4).
    destruct (workers_update completing_of _ idx w w' Hw) as (rest2 & H5 & H6).
    apply eff_move; [|unfold completing; simpl; by rewrite H5, H6|done..]. unfold pending. simpl in *. rewrite H1, H2, H3, H4.
    assert (Et : tasks_of w' = tasks_of w ++ [t]) by (unfold tasks_of; simpl; by destruct (thread w)).
    rewrite Et. simpl. solve_Permutation.
  - apply bind_Some in Hs as (w & Hw & [= <-]).
    destruct (spawn_tasks_update _ p _ (Pushed idx) Hp) as (rest & H1 & _ & H2).
    set (w' := mkWorker (queue w) (thread w) true).
    destruct (workers_update tasks_of _ idx w w' Hw) as (rest' & H3 & H4).
    destruct (workers_update completing_of _ idx w w' Hw) as (rest2 & H5 & H6).
    apply eff_move; [|unfold completing; simpl; by rewrite H5, H6|done..]. unfold pending. simpl in *. by rewrite H1, H2, H3, H4.
Qed.

Lemma choose_arrives s p t s' : spawns s !! p = None → spawn_choose s p t = Some s' → arrives s t s'.
Proof.
  intros Hp. unfold spawn_choose. destruct (length _); [done|]. intros [= <-]. split; [|done..|by repeat eexists].
  unfold pending. simpl. rewrite spawn_tasks_new by done. simpl. solve_Permutation.
Qed.

(** A closure is in one place, and its join state exists. *)
Record ledger_inv s : Prop := {
  li_once : NoDup (ran s ++ (id <$> pending s));
  li_joins : ∀ j, j ∈ ran s ++ (id <$> pending s) → is_Some (joins s !! j);
  li_completing : ∀ j v, (j, v) ∈ completing s → j ∈ ran s;
}.

Lemma arrives_ledger s t s' : arrives s t s' → joins s !! id t = None → ledger_inv s → ledger_inv s'.
Proof.
  intros [Hp Ec Hr _ Ej _] Hf [Hn Hj Hc].
  assert (E : ran s' ++ (id <$> pending s') ≡ₚ id t :: ran s ++ (id <$> pending s)).
  { rewrite Hr, Hp. simpl. solve_Permutation. }
  split; [setoid_rewrite E..|rewrite Ec, Hr; done].
  - apply NoDup_cons. split; [|done]. intros [x Hx]%Hj. congruence.
  - intros j Hin. rewrite Ej, lookup_insert. case_decide; [by eexists|].
    apply elem_of_cons in Hin as [?|Hin]; [congruence|by apply Hj].
Qed.

Lemma effect_ledger s s' : effect s s' → ledger_inv s → ledger_inv s'.
Proof.
  intros He [Hn Hj Hc].
  assert (Hsame : ran s' ++ (id <$> pending s') ≡ₚ ran s ++ (id <$> pending s) →
    (∀ j, is_Some (joins s !! j) → is_Some (joins s' !! j)) → (∀ j v, (j, v) ∈ completing s' → j ∈ ran s') → ledger_inv s').
  { intros E Hj' Hc'. split; [setoid_rewrite E; done| |done]. setoid_rewrite E. intros j Hin. by apply Hj', Hj. }
  destruct He as [Hp Ec Hr _ Ej|t v wd Hp Ec Hr _ _ Ej|j v Hp Ec Hr _ Ej|t wd Hp Ec Hr _ _ Ej].
  - apply Hsame; [by rewrite Hr, Hp|by rewrite Ej|]. intros j v. rewrite Ec, Hr. apply Hc.
  - apply Hsame; [rewrite Hr, Hp; simpl; solve_Permutation|by rewrite Ej|]. intros j v'. rewrite Ec, Hr, elem_of_app.
    intros [[= -> _]|Hin]%elem_of_cons; [right; by apply list_elem_of_singleton|left; by eapply Hc].
  - apply Hsame; [by rewrite Hr, Hp|intros j' Hj'; rewrite Ej, lookup_insert; by case_decide|].
    intros j' v' Hin. rewrite Hr. apply (Hc j' v'). rewrite Ec. by apply elem_of_cons; right.
  - rewrite Hp in Hn. setoid_rewrite Hp in Hj. simpl in Hn, Hj. split; rewrite Hr.
    + apply NoDup_app. apply NoDup_app in Hn as (H1 & H2 & H3). apply NoDup_cons in H3 as [_ H3].
      split; [done|]. split; [|done]. intros x Hx Hx'. apply (H2 x Hx). by apply elem_of_cons; right.
    + intros j Hin. rewrite Ej. apply Hj. rewrite elem_of_app, elem_of_cons. apply elem_of_app in Hin. naive_solver.
    + intros j v. rewrite Ec. apply Hc.
Qed.

Lemma pending_init n wd : pending (init n wd) = [].
Proof.
  unfold pending, spawn_tasks. simpl. rewrite map_to_list_empty. simpl. rewrite app_nil_r. by induction n.
Qed.

Lemma completing_init n wd : completing (init n wd) = [].
Proof. unfold completing. simpl. by induction n. Qed.

Lemma ledger_init n wd : ledger_inv (init n wd).
Proof.
  split; rewrite ?pending_init, ?completing_init; simpl; [constructor|..].
  - by intros j ?%not_elem_of_nil.
  - by intros j v ?%not_elem_of_nil.
Qed.

Lemma join_poll_ledger s s' j wk : join_poll s j wk = Some s' → ledger_inv s → ledger_inv s'.
Proof.
  intros Hs [Hn Hl Hc]. apply bind_Some in Hs as (js & Hj & [= <-]). split; [done| |done].
  intros j' Hin. simpl. rewrite lookup_insert. case_decide; [by eexists|by apply Hl].
Qed.

Lemma reach_ledger n wd s : reach (init n wd) s → ledger_inv s.
Proof.
  induction 1 as [|s o s' _ IH Ha Hs]; [apply ledger_init|].
  destruct o as [p t|p|i|j wk]; simpl in Hs.
  - destruct Ha as [Hp Hj]. eapply arrives_ledger; [by eapply choose_arrives|done..].
  - by eapply effect_ledger; [eapply spawn_effect|].
  - by eapply effect_ledger; [eapply worker_effect|].
  - by eapply join_poll_ledger.
Qed.

(** A closure under spawn stays with the thread that spawns it. *)
Lemma spawn_step_tasks s p s' q sp t :
  spawn_step s p = Some s' → spawns s' !! q = Some sp → spawn_task sp = Some t →
  ∃ sp0, spawns s !! q = Some sp0 ∧ spawn_task sp0 = Some t.
Proof.
  unfold spawn_step. intros Hs Hq Ht. apply bind_Some in Hs as (sp0 & Hp & Hs).
  destruct sp0 as [t0 idx|t0 idx|idx].
  - injection Hs as <-. simpl in Hq. destruct (decide (p = q)) as [->|Hne].
    + rewrite lookup_insert_eq in Hq. injection Hq as <-. by exists (Chosen t0 idx).
    + rewrite lookup_insert_ne in Hq by done. by exists sp.
  - apply bind_Some in Hs as (w & _ & [= <-]). simpl in Hq. destruct (decide (p = q)) as [->|Hne].
    + rewrite lookup_insert_eq in Hq. by injection Hq as <-.
    + rewrite lookup_insert_ne in Hq by done. by exists sp.
  - apply bind_Some in Hs as (w & _ & [= <-]). simpl in Hq. apply lookup_delete_Some in Hq as [_ Hq]. by exists sp.
Qed.

Lemma worker_step_spawns s i s' : worker_step s i = Some s' → spawns s' = spawns s.
Proof.
  unfold worker_step. intros Hs. apply bind_Some in Hs as (w & _ & Hs).
  destruct (thread w) as [|t|t v| |]; [destruct (queue w); by injection Hs as <-|..|destruct (token w); by simplify_eq|done].
  - destruct (body t (world s)) as [[v|] wd]; by injection Hs as <-.
  - injection Hs as <-. unfold complete_task. by destruct (JoinHandle.complete _ _).
Qed.

End ledger.

(** ** What an emptied worker leaves *)

Section emptied.
Context {W R : Type}.
Implicit Types (s : state W R) (t : Task W R) (w : Worker W R) (i : nat).

(** The closures of a worker are different ones. *)
Lemma tasks_once n wd s i w :
  reach (init n wd) s → workers (pool s) !! i = Some w → NoDup ((completing_of w).*1 ++ (id <$> tasks_of w)).
Proof.
  intros Hr Hw. destruct (reach_ledger n wd s Hr) as [Hn _ Hc].
  destruct (pending_worker s s i w w Hw) as (rest & rest' & Ep & _ & Ec & _); [by rewrite list_insert_id|done|].
  rewrite Ep, fmap_app in Hn. apply NoDup_app in Hn as (_ & Hn & [Hu _]%NoDup_app).
  apply NoDup_app. split; [unfold completing_of; destruct (thread w); simpl; auto using NoDup_nil_2, NoDup_singleton|].
  split; [|done]. intros j [[j' v] [-> Hin]]%list_elem_of_fmap Hj. simpl in Hj.
  apply (Hn j'); [|by apply elem_of_app; left]. apply (Hc j' v). rewrite Ec. by apply elem_of_app; left.
Qed.

Lemma empties_outcome n wd s s' i w :
  reach (init n wd) s → workers (pool s) !! i = Some w → Forall returns (tasks_of w) →
  results s' = foldl finish (foldl deliver (results s) (completing_of w)) (tasks_of w) →
  ran s' = ran s ++ (id <$> tasks_of w) ∧ world s' = worlds (world s) (tasks_of w) ∧
  (∀ us t vs, tasks_of w = us ++ t :: vs →
     ∃ st, joins s' !! id t = Some st ∧ JoinHandle.result st = (body t (worlds (world s) us)).1) ∧
  (∀ j v, (j, v) ∈ completing_of w → ∃ st, joins s' !! j = Some st ∧ JoinHandle.result st = Some v) ∧
  ∀ j st0 wk, j ∈ (completing_of w).*1 ++ (id <$> tasks_of w) → joins s !! j = Some st0 →
    JoinHandle.waker st0 = Some wk → wk ∈ woken s'.
Proof.
  intros Hr Hw Hts Hres. pose proof (tasks_once n wd s i w Hr Hw) as Hn.
  apply NoDup_app in Hn as (_ & Hsep & Hn). set (r := foldl deliver (results s) (completing_of w)) in Hres.
  assert (Hrest : r.1.2 = ran s ∧ r.2 = world s).
  { unfold r, completing_of. destruct (thread w); try done. apply deliver_rest. }
  destruct Hrest as [Hran Hwd]. pose proof (f_equal (λ x, x.1.1.1) Hres) as Ej.
  pose proof (f_equal (λ x, x.1.1.2) Hres) as Ewk. cbn [results fst snd] in Ej, Ewk. split_and!.
  - pose proof (f_equal (λ x, x.1.2) Hres) as E. cbn [results fst snd] in E. by rewrite E, finish_ran, Hran.
  - pose proof (f_equal snd Hres) as E. cbn [results fst snd] in E. by rewrite E, finish_world, Hwd.
  - intros us t vs Et. rewrite Ej, Et in *. rewrite <- Hwd. by apply finish_result.
  - intros j v Hin. rewrite Ej. rewrite finish_keeps; [|done|].
    + unfold r, completing_of in *. destruct (thread w) as [|t|t v0| |]; try by apply not_elem_of_nil in Hin.
      apply list_elem_of_singleton in Hin as [= -> ->]. cbn [foldl]. rewrite deliver_joins, lookup_insert_eq. by eexists.
    + apply Hsep. change j with (j, v).1. by apply list_elem_of_fmap_2.
  - intros j st0 wk Hin Hst Hwk. rewrite Ewk. apply finish_wakes; [done|].
    assert (Hc : ∀ jv, completing_of w = [jv] → r = deliver (results s) jv) by (unfold r; by intros jv ->).
    apply elem_of_app in Hin as [Hin|Hin].
    + left. unfold completing_of in *. destruct (thread w) as [|t|t v0| |]; try by apply not_elem_of_nil in Hin.
      rewrite (Hc _ eq_refl), deliver_wakes. right. exists st0. by apply list_elem_of_singleton in Hin as ->.
    + right. pose proof Hin as Hin'. apply list_elem_of_fmap in Hin as (t & -> & Ht). exists t, st0. split; [done|]. split; [|done].
      unfold completing_of in *. destruct (thread w) as [|t0|t0 v0| |]; try done.
      rewrite (Hc _ eq_refl), deliver_joins, lookup_insert_ne; [done|].
      intros E. apply (Hsep (id t0)); [by apply list_elem_of_singleton|by rewrite E].
Qed.
End emptied.

(** ** Theorems *)

(** A join handle delivers.  Polls before the completion are pending, the
    completion wakes the waker of the last of them, the first poll after it returns the
    value, and polls after that are pending. *)
Theorem join_handle_delivers {T} ws (v : T) w ws' :
  let '(before, st) := JoinHandle.polls JoinHandle.new ws in
  let '(wakes, st') := JoinHandle.complete st v in
  before = replicate (length ws) None ∧ wakes = option_list (last ws) ∧
  (JoinHandle.polls st' (w :: ws')).1 = Some v :: replicate (length ws') None.
Proof.
  rewrite JoinHandle.polls_pending by done. unfold JoinHandle.complete. simpl.
  destruct (last ws); simpl; rewrite JoinHandle.polls_pending by done; done.
Qed.

(** C25. The unpark of a spawn is not lost.  In every interleaving of spawning threads,
    workers and polls, a worker that has not unwound, and to which no spawn still
    owes the unpark, runs all its closures if none of them panics, in the order
    of its queue and within three steps each (and three more), on its own and without
    blocking before the last: each has in its join state the value its body gives in the
    world that the closures before it left, as has the one whose body had run already,
    and the tasks that waited on them were woken. *)
Theorem pool_runs_queued {W R} n (wd : W) (s : state W R) i w :
  reach (init n wd) s → workers (pool s) !! i = Some w → thread w ≠ Dead →
  Forall returns (tasks_of w) → (∀ p, spawns s !! p ≠ Some (Pushed i)) →
  ∃ k s', k ≤ 3 * length (queue w) + 3 ∧ worker_steps k s i = Some s' ∧
    ran s' = ran s ++ (id <$> tasks_of w) ∧ world s' = worlds (world s) (tasks_of w) ∧
    (∃ b, workers (pool s') !! i = Some (mkWorker [] Parking b)) ∧
    (∀ us t vs, tasks_of w = us ++ t :: vs →
       ∃ st, joins s' !! id t = Some st ∧ JoinHandle.result st = (body t (worlds (world s) us)).1) ∧
    (∀ j v, (j, v) ∈ completing_of w → ∃ st, joins s' !! j = Some st ∧ JoinHandle.result st = Some v) ∧
    ∀ j st0 wk, j ∈ (completing_of w).*1 ++ (id <$> tasks_of w) → joins s !! j = Some st0 →
      JoinHandle.waker st0 = Some wk → wk ∈ woken s'.
Proof.
  intros Hr Hw Hd Hts Hno.
  destruct (worker_empties s i w (reach_inv n wd s Hr) Hw Hd Hts Hno) as (k & s' & Hk & Hs & Hres & Hend).
  destruct (empties_outcome n wd s s' i w Hr Hw Hts Hres) as (? & ? & ? & ? & ?). by exists k, s'.
Qed.

(** A closure that panics ends its worker thread: from then on, whatever the other
    threads do, the worker stays gone and the closures in its queue stay there, while
    the pool goes on handing it its share of the spawns. *)
Theorem panicked_worker_strands {W R} (s0 s : state W R) i w0 :
  reach s0 s → workers (pool s0) !! i = Some w0 → thread w0 = Dead →
  ∃ w q, workers (pool s) !! i = Some w ∧ thread w = Dead ∧ queue w = queue w0 ++ q.
Proof.
  intros Hr Hw0 Hd. induction Hr as [|s o s' Hr IH Ha Hs].
  { exists w0, []. by rewrite app_nil_r. }
  destruct IH as (w & q & Hw & Ht & Hq).
  assert (Hkeep : ∀ j wj wj' q', workers (pool s) !! j = Some wj →
    (j = i → thread wj' = Dead ∧ queue wj' = queue w ++ q') →
    ∃ w' q'', <[j := wj']> (workers (pool s)) !! i = Some w' ∧ thread w' = Dead ∧ queue w' = queue w0 ++ q'').
  { intros j wj wj' q' Hj Hwj. destruct (decide (j = i)) as [->|Hne].
    - rewrite list_lookup_insert_eq by by eapply lookup_lt_Some. destruct (Hwj eq_refl) as [? Hq'].
      exists wj', (q ++ q'). by rewrite Hq', Hq, app_assoc.
    - rewrite list_lookup_insert_ne by done. by exists w, q. }
  destruct o as [p t|p|j|j wk]; simpl in Hs.
  - unfold spawn_choose in Hs. destruct (length _); [done|]. injection Hs as <-. by exists w, q.
  - unfold spawn_step in Hs. apply bind_Some in Hs as ([t idx|t idx|idx] & _ & Hs).
    + injection Hs as <-. by exists w, q.
    + apply bind_Some in Hs as (wj & Hj & [= <-]). apply (Hkeep idx wj _ [t] Hj). intros ->. by simplify_eq.
    + apply bind_Some in Hs as (wj & Hj & [= <-]). apply (Hkeep idx wj _ [] Hj). intros ->. simplify_eq.
      by rewrite app_nil_r.
  - unfold worker_step in Hs. apply bind_Some in Hs as (wj & Hj & Hs).
    destruct (decide (j = i)) as [->|Hne]; [simplify_eq; by rewrite Ht in Hs|].
    assert (Hx : ∀ w', workers (pool (set_worker s j w')) !! i = Some w).
    { intros w'. simpl. by rewrite list_lookup_insert_ne. }
    destruct (thread wj) as [|t|t v| |]; [destruct (queue wj)|destruct (body t (world s)) as [[v|] wd]| |destruct (token wj)|];
      simplify_eq; exists w, q; rewrite ?complete_task_pool; exact (conj (Hx _) (conj Ht Hq)).
  - apply bind_Some in Hs as (st & _ & [= <-]). by exists w, q.
Qed.

(** A pool whose size the environment sets to zero panics at its first spawn; one of any
    other size never does. *)
Theorem spawn_choose_panics {W R} n (wd : W) (s : state W R) p t :
  reach (init n wd) s → (spawn_choose s p t = None ↔ n = 0).
Proof.
  intros Hr. assert (Hn : length (workers (pool s)) = n).
  { induction Hr as [|s o s' _ IH _ Hs]; [simpl; apply length_replicate|]. by rewrite (step_length s o s' Hs). }
  unfold spawn_choose. rewrite Hn. by destruct n.
Qed.

(** ** Runs *)

Definition pool_steps {W R} (s : state W R) (ops : list (op W R)) : state W R := foldl (λ s o, default s (step s o)) s ops.

Lemma reach_snoc {W R} (s0 : state W R) ops o :
  reach s0 (pool_steps s0 ops) → allowed (pool_steps s0 ops) o → is_Some (step (pool_steps s0 ops) o) →
  reach s0 (pool_steps s0 (ops ++ [o])).
Proof.
  intros Hr Ha [s' Hs]. unfold pool_steps. rewrite foldl_app. simpl.
  fold (pool_steps s0 ops). rewrite Hs. simpl. by eapply reach_step.
Qed.

Definition spawn_all {W R} (p : nat) (t : Task W R) : list (op W R) := [Choose p t; Spawn p; Spawn p; Spawn p].

(** A closure that gives [v], or panics, and leaves the world as it was. *)
Definition giving (j : nat) (v : option Z) : Task unit Z := mkTask j (λ u, (v, u)).

(** One worker, a closure pushed while it parks, and a task waiting on its handle. *)
Definition parked_spawn : list (op unit Z) := Work 0 :: spawn_all 0 (giving 5 (Some 42%Z)) ++ [Join 5 9%Z].

(** One worker, whose first closure panics. *)
Definition panic_run : list (op unit Z) :=
  spawn_all 0 (giving 5 None) ++ [Work 0; Work 0] ++ spawn_all 0 (giving 6 (Some 42%Z)).

(** Builds a concrete run from its last step back. *)
Ltac pool_run :=
  repeat lazymatch goal with
  | |- reach ?s0 (pool_steps _ []) => exact (reach_refl s0)
  | |- reach ?s0 (pool_steps _ ?ops) =>
      let o := eval cbv in (last ops) in
      let pre := eval cbv in (take (pred (length ops)) ops) in
      lazymatch o with Some ?o =>
        change ops with (pre ++ [o]); apply reach_snoc;
        [|first [exact I | split; vm_compute; reflexivity]|eexists; vm_compute; reflexivity]
      end
  end.

Lemma pool_runs_queued_witness :
  let s := pool_steps (init 1 tt) parked_spawn in
  ∃ k s', k ≤ 6 ∧ worker_steps k s 0 = Some s' ∧ ran s' = [5] ∧ 9%Z ∈ woken s'.
Proof.
  intros s. assert (Hr : reach (init 1 tt) s) by (unfold s, parked_spawn, spawn_all; cbn [app]; pool_run).
  destruct (pool_runs_queued 1 tt s 0 (mkWorker [giving 5 (Some 42%Z)] Parking true) Hr)
    as (k & s' & Hk & Hs & Hran & _ & _ & _ & _ & Hwk); [vm_compute; reflexivity|done| | |].
  - apply Forall_singleton. intros []. by eexists.
  - intros p. assert (Hsp : spawns s = ∅) by (vm_compute; reflexivity). rewrite Hsp. by rewrite lookup_empty.
  - exists k, s'. split; [exact Hk|]. split; [done|]. split; [rewrite Hran; vm_compute; reflexivity|].
    apply (Hwk 5 (JoinHandle.mkState None (Some 9%Z)) 9%Z); [by apply list_elem_of_singleton|vm_compute; reflexivity..].
Defined.

Lemma panicked_worker_strands_witness :
  let s0 := pool_steps (init 1 tt) (take 6 panic_run) in
  let s := pool_steps (init 1 tt) panic_run in
  ∃ w q, workers (pool s) !! 0 = Some w ∧ thread w = Dead ∧ queue w = [] ++ q.
Proof.
  intros s0 s. apply (panicked_worker_strands s0 s 0 (mkWorker [] Dead true)).
  - assert (Hs : s = pool_steps s0 (drop 6 panic_run)) by (vm_compute; reflexivity). rewrite Hs.
    unfold panic_run, spawn_all. cbn [app drop]. pool_run.
  - vm_compute. reflexivity.
  - reflexivity.
Defined.
