(* ===== verification/Fs.v ===== *)
(** * Fs: the file operations of [lion-utility/src/fs/mod.rs]

    Each function is an [async fn] that hands one call of [std::fs] to the blocking pool
    and waits on the join handle.  What a call answers and does to the files is a
    parameter; the call is one step of the worker that makes it, and completing the join
    state with its answer the next.  The join state of a future is named after the future.  Other code uses the same pool: its closures may do anything to the files, and
    may panic. *)

From S2P Require Import Prelude BlockingPool.
Import Pool.

Module Fs.

Section fs.
Context {Path FS A : Type}.

(** A call of [std::fs], one for each function. *)
Inductive Request :=
  | ReadToString (path : Path) | Read (path : Path) | Write (path : Path) (data : list Z)
  | Metadata (path : Path) | RemoveFile (path : Path) | CreateDirAll (path : Path)
  | Rename (from to : Path) | Copy (from to : Path) | Canonicalize (path : Path)
  | CreateDir (path : Path) | HardLink (original link : Path) | ReadDir (path : Path)
  | ReadLink (path : Path) | RemoveDir (path : Path) | RemoveDirAll (path : Path)
  | SymlinkMetadata (path : Path).

(** A future of the module: not polled yet, in its first poll (on thread [p]), waiting on
    the join handle, finished, dropped (after its first poll, or before). *)
Inductive FsFuture :=
  | Unresumed (q : Request) | Spawning (q : Request) (p : nat) | Awaiting (q : Request)
  | Returned (q : Request) (v : A) | Dropped (q : Request) (polled : bool).

Definition read_to_string (path : Path) : FsFuture := Unresumed (ReadToString path).
Definition read (path : Path) : FsFuture := Unresumed (Read path).
Definition write (path : Path) (data : list Z) : FsFuture := Unresumed (Write path data).
Definition metadata (path : Path) : FsFuture := Unresumed (Metadata path).
Definition remove_file (path : Path) : FsFuture := Unresumed (RemoveFile path).
Definition create_dir_all (path : Path) : FsFuture := Unresumed (CreateDirAll path).
Definition rename (from to : Path) : FsFuture := Unresumed (Rename from to).
Definition copy (from to : Path) : FsFuture := Unresumed (Copy from to).
Definition canonicalize (path : Path) : FsFuture := Unresumed (Canonicalize path).
Definition create_dir (path : Path) : FsFuture := Unresumed (CreateDir path).
Definition hard_link (original link : Path) : FsFuture := Unresumed (HardLink original link).
Definition read_dir (path : Path) : FsFuture := Unresumed (ReadDir path).
Definition read_link (path : Path) : FsFuture := Unresumed (ReadLink path).
Definition remove_dir (path : Path) : FsFuture := Unresumed (RemoveDir path).
Definition remove_dir_all (path : Path) : FsFuture := Unresumed (RemoveDirAll path).
Definition symlink_metadata (path : Path) : FsFuture := Unresumed (SymlinkMetadata path).

Definition request (fu : FsFuture) : Request :=
  match fu with Unresumed q | Spawning q _ | Awaiting q | Returned q _ | Dropped q _ => q end.

(** The future was polled. *)
Definition started (fu : FsFuture) : bool :=
  match fu with Unresumed _ => false | Dropped _ b => b | _ => true end.

(** What the threads share: the files, and the calls made for the futures, with their
    answers. *)
Record World := mkWorld { files : FS; calls : list (nat * Request * A) }.

(** The system: the pool and the futures. *)
Record sys := mkSys { pst : Pool.state World A; futs : gmap nat FsFuture }.

Definition init (num_threads : nat) (fs : FS) : sys := mkSys (Pool.init num_threads (mkWorld fs [])) ∅.

Variable perform : Request → FS → A * FS.

Implicit Types (s : sys) (f p i : nat) (q : Request).

(** [move || std::fs::...], and the closure of another user of the pool. *)
Definition call_task f q : Task World A :=
  mkTask f (λ wd, let '(v, fs) := perform q (files wd) in (Some v, mkWorld fs (calls wd ++ [(f, q, v)]))).
Definition other_task (j : nat) (g : FS → option A * FS) : Task World A :=
  mkTask j (λ wd, let '(o, fs) := g (files wd) in (o, mkWorld fs (calls wd))).

(** [.await.unwrap()]: a poll of the join handle. *)
Definition await s f q (wk : Z) : option sys :=
  st ← joins (pst s) !! f;
  p1 ← join_poll (pst s) f wk;
  Some (mkSys p1 (<[f := match (JoinHandle.poll st wk).1 with Some v => Returned q v | None => Awaiting q end]> (futs s))).

(** A future is created, starts its first poll, is polled (or gets to the handle in its
    first poll), is dropped; another closure is spawned; a spawn goes on; a worker
    takes a step; another join handle is polled. *)
Inductive op :=
  | Create f (fu : FsFuture) | Start f p | Poll f (wk : Z) | Drop f
  | Other p (j : nat) (g : FS → option A * FS) | Spawn p | Work i | Join (j : nat) (wk : Z).

Definition step s (o : op) : option sys :=
  match o with
  | Create f fu => Some (mkSys (pst s) (<[f := fu]> (futs s)))
  | Start f p =>
      match futs s !! f with
      | Some (Unresumed q) =>
          p1 ← spawn_choose (pst s) p (call_task f q);
          Some (mkSys p1 (<[f := Spawning q p]> (futs s)))
      | _ => None
      end
  | Poll f wk =>
      match futs s !! f with
      | Some (Spawning q p) => if spawns (pst s) !! p is None then await s f q wk else None
      | Some (Awaiting q) => await s f q wk
      | _ => None
      end
  | Drop f =>
      match futs s !! f with
      | Some (Unresumed q) => Some (mkSys (pst s) (<[f := Dropped q false]> (futs s)))
      | Some (Awaiting q) | Some (Returned q _) => Some (mkSys (pst s) (<[f := Dropped q true]> (futs s)))
      | _ => None
      end
  | Other p j g => p1 ← spawn_choose (pst s) p (other_task j g); Some (mkSys p1 (futs s))
  | Spawn p => p1 ← spawn_step (pst s) p; Some (mkSys p1 (futs s))
  | Work i => p1 ← worker_step (pst s) i; Some (mkSys p1 (futs s))
  | Join j wk => p1 ← join_poll (pst s) j wk; Some (mkSys p1 (futs s))
  end.

(** A future is new when it is created, a thread makes one spawn at a time, a join state
    is new and belongs to its handle. *)
Definition allowed s (o : op) : Prop :=
  match o with
  | Create f fu => futs s !! f = None ∧ joins (pst s) !! f = None ∧ fu = Unresumed (request fu)
  | Start f p => spawns (pst s) !! p = None
  | Other p j _ => spawns (pst s) !! p = None ∧ joins (pst s) !! j = None ∧ futs s !! j = None
  | Join j _ => futs s !! j = None
  | _ => True
  end.

Inductive reach s0 : sys → Prop :=
  | reach_refl : reach s0 s0
  | reach_step s o s' : reach s0 s → allowed s o → step s o = Some s' → reach s0 s'.

(** ** The invariant *)

(** The call of future [f] was made, and answered [v]. *)
Definition called s f q v : Prop := (f, q, v) ∈ calls (world (pst s)).

(** The closures of futures and of others. *)
Definition known s (t : Task World A) : Prop :=
  (∃ q fu, t = call_task (id t) q ∧ futs s !! id t = Some fu ∧ started fu = true ∧ request fu = q) ∨
  (∃ g, t = other_task (id t) g ∧ futs s !! id t = None).

Definition waiting (fu : FsFuture) : bool :=
  match fu with Spawning _ _ | Awaiting _ => true | _ => false end.

(** One call for each future. *)
Lemma calls_once (l : list (nat * Request * A)) f q q' v v' :
  NoDup l.*1.*1 → (f, q, v) ∈ l → (f, q', v') ∈ l → v = v'.
Proof.
  intros Hn [i Hi]%list_elem_of_lookup [j Hj]%list_elem_of_lookup.
  assert (E : i = j); [|by simplify_eq].
  eapply (NoDup_lookup _ _ _ f Hn); by rewrite !list_lookup_fmap, ?Hi, ?Hj.
Qed.

(** What the pool holds for a future. *)
Record fut_ok (st : Pool.state World A) f (fu : FsFuture) : Prop := {
  fo_fresh : is_Some (joins st !! f) → started fu = true;
  fo_result : ∀ js v, joins st !! f = Some js → JoinHandle.result js = Some v → (f, request fu, v) ∈ calls (world st);
  fo_returned : ∀ q v, fu = Returned q v → (f, q, v) ∈ calls (world st);
  fo_place : started fu = true →
    call_task f (request fu) ∈ pending st ∨ ∃ v, (f, request fu, v) ∈ calls (world st);
  fo_waits : ∀ v, waiting fu = true → (f, request fu, v) ∈ calls (world st) →
    (∃ js, joins st !! f = Some js ∧ JoinHandle.result js = Some v) ∨ (f, v) ∈ completing st;
  fo_completing : ∀ v, (f, v) ∈ completing st → (f, request fu, v) ∈ calls (world st);
}.

Record fs_inv s : Prop := {
  fi_pool : pool_inv (pst s);
  fi_ledger : ledger_inv (pst s);
  fi_known : ∀ t, t ∈ pending (pst s) → known s t;
  fi_once : NoDup (calls (world (pst s))).*1.*1;
  fi_called : ∀ f q v, called s f q v → f ∈ ran (pst s) ∧
    ∃ fu, futs s !! f = Some fu ∧ started fu = true ∧ request fu = q;
  fi_futs : ∀ f fu, futs s !! f = Some fu → fut_ok (pst s) f fu;
  fi_spawning : ∀ p sp t fu, spawns (pst s) !! p = Some sp → spawn_task sp = Some t →
    futs s !! id t = Some fu → ∃ q, fu = Spawning q p;
}.

Lemma fs_inv_init n fs : fs_inv (init n fs).
Proof.
  split; simpl.
  - apply pool_inv_init.
  - apply ledger_init.
  - intros t Ht. rewrite pending_init in Ht. by apply not_elem_of_nil in Ht.
  - constructor.
  - by intros f q v ?%not_elem_of_nil.
  - intros f fu. by rewrite lookup_empty.
  - intros p sp t fu. by rewrite lookup_empty.
Qed.

(** A future keeps what it has when the pool keeps it. *)
Lemma fut_ok_ext (st st' : Pool.state World A) f (fu : FsFuture) :
  fut_ok st f fu → joins st' !! f = joins st !! f → calls (world st') = calls (world st) →
  (∀ v, (f, v) ∈ completing st' ↔ (f, v) ∈ completing st) →
  (∀ q, call_task f q ∈ pending st → call_task f q ∈ pending st') → fut_ok st' f fu.
Proof.
  intros [] Ej Ec Em Hp. split; setoid_rewrite Em || idtac; rewrite ?Ej, ?Ec; try done.
  intros Hs. destruct (fo_place0 Hs); auto.
Qed.

(** One future changes, with its join state. *)
Lemma fs_inv_update s (p1 : Pool.state World A) f (fu' : FsFuture) :
  fs_inv s → pool_inv p1 → ledger_inv p1 →
  pending p1 = pending (pst s) → completing p1 = completing (pst s) → ran p1 = ran (pst s) →
  world p1 = world (pst s) → spawns p1 = spawns (pst s) → (∀ j, j ≠ f → joins p1 !! j = joins (pst s) !! j) →
  (∀ fu, futs s !! f = Some fu → (started fu = true → started fu' = true) ∧ request fu' = request fu) →
  (futs s !! f = None → joins (pst s) !! f = None) →
  (∀ p sp t, spawns (pst s) !! p = Some sp → spawn_task sp = Some t → id t = f → ∃ q, fu' = Spawning q p) →
  fut_ok p1 f fu' → fs_inv (mkSys p1 (<[f := fu']> (futs s))).
Proof.
  intros [_ Hl Hk Ho Hc Hf Hsp] Hpi Hl' Ep Em Er Ew Es Ej Hfu Hnone Hspf Hok. split; simpl; [done|done|..].
  - rewrite Ep. intros t Ht. destruct (Hk t Ht) as [(q & fu & Et & Hfut & Hst & Hq)|(g & Et & Hfut)].
    + left. destruct (decide (id t = f)) as [E|Hne].
      * subst f. destruct (Hfu fu Hfut) as [H1 H2]. exists q, fu'. simpl. rewrite lookup_insert_eq.
        split; [done|]. split; [done|]. split; [by apply H1|congruence].
      * exists q, fu. simpl. rewrite lookup_insert_ne; [done|congruence].
    + right. exists g. split; [done|]. simpl. rewrite lookup_insert_ne; [done|]. intros E. rewrite <- E in Hfut.
      apply Hnone in Hfut. destruct (li_joins _ Hl (id t)) as [x Hx]; [|congruence].
      apply elem_of_app. right. by apply list_elem_of_fmap_2.
  - by rewrite Ew.
  - unfold called. simpl. rewrite Ew, Er. intros j q v Hin. destruct (Hc j q v Hin) as (Hr & fu & Hfut & Hst & Hq).
    split; [done|]. destruct (decide (j = f)) as [->|Hne].
    + destruct (Hfu fu Hfut) as [H1 H2]. exists fu'. rewrite lookup_insert_eq. split; [done|]. split; [by apply H1|congruence].
    + exists fu. by rewrite lookup_insert_ne.
  - intros j fu. rewrite lookup_insert. case_decide as E; [by intros [= <-]; subst|]. intros Hfut.
    eapply fut_ok_ext; [by apply Hf| |by rewrite Ew|by rewrite Em|by rewrite Ep]. by apply Ej.
  - rewrite Es. intros p sp t fu Hs Ht. rewrite lookup_insert. case_decide as E; [|by eapply Hsp].
    intros [= <-]. by eapply Hspf.
Qed.

(** A closure arrives: of a future that starts, or of others. *)
Lemma fs_inv_arrives s t (p1 : Pool.state World A) m :
  fs_inv s → arrives (pst s) t p1 → pool_inv p1 → joins (pst s) !! id t = None →
  known (mkSys p1 m) t → (∀ f, f ≠ id t → m !! f = futs s !! f) →
  (∀ fu, m !! id t = Some fu → ∃ q p, fu = Spawning q p ∧ t = call_task (id t) q) →
  (∀ p sp t1 fu, spawns p1 !! p = Some sp → spawn_task sp = Some t1 → m !! id t1 = Some fu → ∃ q, fu = Spawning q p) →
  fs_inv (mkSys p1 m).
Proof.
  intros [_ Hl Hk Ho Hc Hf Hsp] Har Hpi Hj Ht Hm Hfu Hspw. pose proof Har as [Hp Em Hr Hw Ej _].
  assert (Hnp : ∀ t1, t1 ∈ pending (pst s) → id t1 ≠ id t).
  { intros t1 Hin E. destruct (li_joins _ Hl (id t1)) as [x Hx]; [|congruence].
    apply elem_of_app. right. by apply list_elem_of_fmap_2. }
  split; simpl; [done|by eapply arrives_ledger|..].
  - intros t1. rewrite Hp. intros [->|Hin]%elem_of_cons; [done|]. pose proof (Hnp t1 Hin).
    destruct (Hk t1 Hin) as [(q & fu & ? & ? & ?)|(g & ? & ?)].
    + left. exists q, fu. simpl. by rewrite Hm.
    + right. exists g. simpl. by rewrite Hm.
  - by rewrite Hw.
  - unfold called. simpl. rewrite Hw, Hr. intros f q v Hin. destruct (Hc f q v Hin) as (Hran & fu & Hfut & ?).
    split; [done|]. exists fu. rewrite Hm; [done|]. intros ->.
    destruct (li_joins _ Hl (id t)) as [x Hx]; [by apply elem_of_app; left|congruence].
  - intros f fu Hfut. destruct (decide (f = id t)) as [->|Hne].
    + destruct (Hfu fu Hfut) as (q & p & -> & Et). split; simpl; [done|..].
      * intros js v. rewrite Ej, lookup_insert_eq. by intros [= <-].
      * done.
      * intros _. left. rewrite Hp, <- Et. by apply elem_of_cons; left.
      * rewrite Hw. intros v _ Hin. destruct (Hc _ _ _ Hin) as (Hran & _).
        destruct (li_joins _ Hl (id t)) as [x Hx]; [by apply elem_of_app; left|congruence].
      * rewrite Em. intros v Hin. apply (li_completing _ Hl) in Hin.
        destruct (li_joins _ Hl (id t)) as [x Hx]; [by apply elem_of_app; left|congruence].
    + rewrite Hm in Hfut by done. eapply fut_ok_ext; [by apply Hf|by rewrite Ej, lookup_insert_ne|by rewrite Hw|by rewrite Em|].
      intros q Hin. rewrite Hp. by apply elem_of_cons; right.
  - done.
Qed.

Lemma call_task_gives f q wd : ∃ v fs, perform q (files wd) = (v, fs) ∧
  body (call_task f q) wd = (Some v, mkWorld fs (calls wd ++ [(f, q, v)])).
Proof. simpl. destruct (perform q (files wd)) as [v fs]. by exists v, fs. Qed.

(** The closures move, or one of others panics, or one of others runs: the calls stay. *)
Lemma fs_inv_keeps s (p1 : Pool.state World A) :
  fs_inv s → pool_inv p1 → ledger_inv p1 → (∀ j, j ∈ ran (pst s) → j ∈ ran p1) →
  calls (world p1) = calls (world (pst s)) →
  (∀ f fu, futs s !! f = Some fu → joins p1 !! f = joins (pst s) !! f) →
  (∀ f fu v, futs s !! f = Some fu → (f, v) ∈ completing p1 ↔ (f, v) ∈ completing (pst s)) →
  (∀ t, t ∈ pending p1 → t ∈ pending (pst s)) →
  (∀ f fu q, futs s !! f = Some fu → call_task f q ∈ pending (pst s) → call_task f q ∈ pending p1) →
  (∀ p sp t, spawns p1 !! p = Some sp → spawn_task sp = Some t →
     ∃ sp0, spawns (pst s) !! p = Some sp0 ∧ spawn_task sp0 = Some t) →
  fs_inv (mkSys p1 (futs s)).
Proof.
  intros [_ Hl Hk Ho Hc Hf Hsp] Hpi Hl' Hr Ec Ej Em Hp Hp' Hs. split; simpl; [done|done|..].
  - intros t Ht. apply Hk. by apply Hp.
  - by rewrite Ec.
  - unfold called. simpl. rewrite Ec. intros f q v Hin. destruct (Hc f q v Hin) as (? & ?). auto.
  - intros f fu Hfut. eapply fut_ok_ext; [by apply Hf|by eapply Ej|done|intros v; by eapply Em|]. intros q. by eapply Hp'.
  - intros p sp t fu Hq Ht Hfut. destruct (Hs p sp t Hq Ht) as (sp0 & ? & ?). by eapply Hsp.
Qed.

(** The body of the closure of a future runs: the call is made. *)
Lemma fs_inv_ran s (p1 : Pool.state World A) f q fu v fs :
  fs_inv s → pool_inv p1 → ledger_inv p1 → pending (pst s) ≡ₚ call_task f q :: pending p1 →
  futs s !! f = Some fu → started fu = true → request fu = q →
  ran p1 = ran (pst s) ++ [f] → world p1 = mkWorld fs (calls (world (pst s)) ++ [(f, q, v)]) →
  joins p1 = joins (pst s) → completing p1 ≡ₚ (f, v) :: completing (pst s) →
  (∀ p sp t, spawns p1 !! p = Some sp → spawn_task sp = Some t →
     ∃ sp0, spawns (pst s) !! p = Some sp0 ∧ spawn_task sp0 = Some t) →
  fs_inv (mkSys p1 (futs s)).
Proof.
  intros [_ Hl Hk Ho Hc Hf Hsp] Hpi Hl' Hp Hfut Hst Hq Hr Hw Ej Em Hs.
  assert (Hnr : f ∉ ran (pst s)).
  { pose proof (li_once _ Hl) as Hn. apply NoDup_app in Hn as (_ & Hn & _). intros Hin. apply (Hn f Hin).
    change f with (id (call_task f q)). apply list_elem_of_fmap_2. rewrite Hp. by apply elem_of_cons; left. }
  split; simpl; [done|done|..].
  - intros t Ht. apply Hk. rewrite Hp. by apply elem_of_cons; right.
  - rewrite Hw. simpl. rewrite !fmap_app. simpl. apply NoDup_app. split; [done|].
    split; [|apply NoDup_singleton]. intros j Hin ->%list_elem_of_singleton.
    rewrite <- list_fmap_compose in Hin. apply list_elem_of_fmap in Hin as ([[j' q'] v'] & E & Hin). simpl in E. subst j'.
    destruct (Hc f q' v' Hin). done.
  - unfold called. rewrite Hr. simpl. rewrite Hw. simpl. intros j q' v' [Hin|Hin]%elem_of_app.
    + destruct (Hc j q' v' Hin) as (? & ?). split; [by apply elem_of_app; left|done].
    + apply list_elem_of_singleton in Hin as [= -> -> ->]. split; [by apply elem_of_app; right; apply list_elem_of_singleton|by exists fu].
  - assert (Hcalls : ∀ x, x ∈ calls (world (pst s)) → x ∈ calls (world p1)).
    { intros x Hx. rewrite Hw. simpl. by apply elem_of_app; left. }
    intros j fu' Hj. destruct (Hf j fu' Hj). destruct (decide (j = f)) as [->|Hne].
    + simplify_eq. assert (Hnew : (f, request fu, v) ∈ calls (world p1)).
      { rewrite Hw. simpl. apply elem_of_app. right. by apply list_elem_of_singleton. }
      split; rewrite ?Ej; [done|..].
      * intros js v' H1 H2. apply Hcalls. by eapply fo_result0.
      * intros q v' ->. apply Hcalls. by apply fo_returned0.
      * intros _. right. by exists v.
      * intros v' _ Hin. right. rewrite Hw in Hin. simpl in Hin. rewrite Em.
        apply elem_of_app in Hin as [Hin|Hin]; [by destruct (Hc _ _ _ Hin)|].
        apply list_elem_of_singleton in Hin as [= ->]. by apply elem_of_cons; left.
      * intros v'. rewrite Em. intros [[= ->]|Hin]%elem_of_cons; [done|by apply Hcalls, fo_completing0].
    + split; rewrite ?Ej; [done|..].
      * intros js v' H1 H2. apply Hcalls. by eapply fo_result0.
      * intros q' v' H1. apply Hcalls. by apply fo_returned0.
      * intros H1. destruct (fo_place0 H1) as [Hin|[v' Hin]]; [|right; exists v'; by apply Hcalls].
        rewrite Hp in Hin. apply elem_of_cons in Hin as [E|Hin]; [|by left]. by apply (f_equal id) in E.
      * intros v' H1 Hin. rewrite Hw in Hin. simpl in Hin.
        apply elem_of_app in Hin as [Hin|Hin]; [|by apply list_elem_of_singleton in Hin as [= -> _ _]].
        rewrite Em. destruct (fo_waits0 v' H1 Hin); [by left|right; by apply elem_of_cons; right].
      * intros v'. rewrite Em. intros [[= -> _]|Hin]%elem_of_cons; [done|by apply Hcalls, fo_completing0].
  - intros p sp t fu' H1 Ht H2. destruct (Hs p sp t H1 Ht) as (sp0 & ? & ?). by eapply Hsp.
Qed.

(** A join state is completed. *)
Lemma fs_inv_completes s (p1 : Pool.state World A) j v :
  fs_inv s → pool_inv p1 → ledger_inv p1 → pending p1 ≡ₚ pending (pst s) →
  completing (pst s) ≡ₚ (j, v) :: completing p1 → ran p1 = ran (pst s) → world p1 = world (pst s) →
  joins p1 = <[j := JoinHandle.mkState (Some v) None]> (joins (pst s)) →
  (∀ p sp t, spawns p1 !! p = Some sp → spawn_task sp = Some t →
     ∃ sp0, spawns (pst s) !! p = Some sp0 ∧ spawn_task sp0 = Some t) →
  fs_inv (mkSys p1 (futs s)).
Proof.
  intros [_ Hl Hk Ho Hc Hf Hsp] Hpi Hl' Hp Em Hr Hw Ej Hs. split; simpl; [done|done|..].
  - intros t Ht. apply Hk. by rewrite <- Hp.
  - by rewrite Hw.
  - unfold called. simpl. rewrite Hw, Hr. apply Hc.
  - intros f fu Hfut. destruct (Hf f fu Hfut). split; rewrite ?Hw, ?Ej; try done.
    + intros [x Hx]. rewrite lookup_insert in Hx. case_decide as E; [subst j|by apply fo_fresh0; eexists].
      destruct (Hc f (request fu) v) as (_ & fu' & Hfu' & Hst & _); [|by simplify_eq].
      apply fo_completing0. rewrite Em. by apply elem_of_cons; left.
    + intros js v'. rewrite lookup_insert. case_decide as E; [subst j|by apply fo_result0].
      intros [= <-] [= <-]. apply fo_completing0. rewrite Em. by apply elem_of_cons; left.
    + intros H1. destruct (fo_place0 H1) as [Hin|?]; [left; by rewrite Hp|by right].
    + intros v' H1 Hin. rewrite lookup_insert. case_decide as E.
      * subst j. left. eexists. split; [done|]. simpl. f_equal. eapply calls_once; [exact Ho| |exact Hin].
        apply fo_completing0. rewrite Em. by apply elem_of_cons; left.
      * destruct (fo_waits0 v' H1 Hin) as [?|Hx]; [by left|right].
        rewrite Em in Hx. apply elem_of_cons in Hx as [[= -> _]|?]; done.
    + intros v' Hin. apply fo_completing0. rewrite Em. by apply elem_of_cons; right.
  - intros p sp t fu H1 Ht H2. destruct (Hs p sp t H1 Ht) as (sp0 & ? & ?). by eapply Hsp.
Qed.

Lemma other_task_calls j g (wd : World) : calls (body (other_task j g) wd).2 = calls wd.
Proof. simpl. by destruct (g (files wd)). Qed.

Lemma fs_inv_effect s (p1 : Pool.state World A) :
  fs_inv s → effect (pst s) p1 → pool_inv p1 →
  (∀ p sp t, spawns p1 !! p = Some sp → spawn_task sp = Some t →
     ∃ sp0, spawns (pst s) !! p = Some sp0 ∧ spawn_task sp0 = Some t) →
  fs_inv (mkSys p1 (futs s)).
Proof.
  intros H He Hpi Hs. pose proof (effect_ledger _ _ He (fi_ledger _ H)) as Hl'.
  assert (Hother : ∀ j g f fu q, futs s !! j = None → futs s !! f = Some fu →
    call_task f q ∈ other_task j g :: pending p1 → call_task f q ∈ pending p1).
  { intros j g f fu q Hj Hf [E|Hin]%elem_of_cons; [|done]. apply (f_equal id) in E. simpl in E. congruence. }
  destruct He as [Hp Em Hr Hw Ej|t v wd Hp Em Hr Hb Hw Ej|j v Hp Em Hr Hw Ej|t wd Hp Em Hr Hb Hw Ej].
  - apply fs_inv_keeps; [done..|by rewrite Hr|by rewrite Hw|by rewrite Ej|by setoid_rewrite Em|intros t; by rewrite Hp| |done].
    intros f fu q _. by rewrite Hp.
  - destruct (fi_known _ H t) as [(q & fu & Et & Hfut & Hst & Hq)|(g & Et & Hfut)];
      [rewrite Hp; by apply elem_of_cons; left|..]; revert Hfut Hp Hr Hb Em; rewrite Et; intros Hfut Hp Hr Hb Em.
    + destruct (call_task_gives (id t) q (world (pst s))) as (v' & fs & _ & Hb'). rewrite Hb' in Hb. simplify_eq.
      by eapply fs_inv_ran.
    + pose proof (other_task_calls (id t) g (world (pst s))) as Hc. rewrite Hb in Hc. simpl in Hc.
      apply fs_inv_keeps; [done..| |by rewrite Hw|by rewrite Ej| | | |done].
      * intros j Hj. rewrite Hr. by apply elem_of_app; left.
      * intros f fu v' Hf. rewrite Em, elem_of_cons. split; [|by right]. intros [[= E _]|?]; [|done]. congruence.
      * intros t1 Hin. rewrite Hp. by apply elem_of_cons; right.
      * intros f fu q Hf. rewrite Hp. by eapply Hother.
  - by eapply fs_inv_completes.
  - destruct (fi_known _ H t) as [(q & fu & Et & Hfut & Hst & Hq)|(g & Et & Hfut)];
      [rewrite Hp; by apply elem_of_cons; left|..]; revert Hfut Hp Hb; rewrite Et; intros Hfut Hp Hb.
    + destruct (call_task_gives (id t) q (world (pst s))) as (v' & fs & _ & Hb'). by rewrite Hb' in Hb.
    + pose proof (other_task_calls (id t) g (world (pst s))) as Hc. rewrite Hb in Hc. simpl in Hc.
      apply fs_inv_keeps; [done..|by rewrite Hr|by rewrite Hw|by rewrite Ej|by setoid_rewrite Em| | |done].
      * intros t1 Hin. rewrite Hp. by apply elem_of_cons; right.
      * intros f fu q Hf. rewrite Hp. by eapply Hother.
Qed.

(** A poll of a join handle takes nothing but the result. *)
Lemma join_poll_frame (st p1 : Pool.state World A) j wk :
  join_poll st j wk = Some p1 →
  pending p1 = pending st ∧ completing p1 = completing st ∧ ran p1 = ran st ∧ world p1 = world st ∧ spawns p1 = spawns st ∧
  (∀ j', j' ≠ j → joins p1 !! j' = joins st !! j') ∧
  ∃ js, joins st !! j = Some js ∧ joins p1 !! j = Some (JoinHandle.poll js wk).2.
Proof.
  intros Hs. apply bind_Some in Hs as (js & Hj & [= <-]). simpl. split_and!; [done..| |].
  - intros j' Hne. by rewrite lookup_insert_ne.
  - exists js. by rewrite lookup_insert_eq.
Qed.

Lemma fs_inv_await s f q fu wk s' :
  fs_inv s → futs s !! f = Some fu → fu = Awaiting q ∨ (∃ p, fu = Spawning q p ∧ spawns (pst s) !! p = None) →
  await s f q wk = Some s' → fs_inv s'.
Proof.
  intros H Hf Hfu Hs. unfold await in Hs. apply bind_Some in Hs as (js & Hj & Hs).
  apply bind_Some in Hs as (p1 & Hp & [= <-]).
  destruct (join_poll_frame _ _ _ _ Hp) as (Ep & Em & Er & Ew & Es & Ej & js' & Hj0 & Hj').
  rewrite Hj in Hj0. injection Hj0 as <-. pose proof (fi_futs _ H f fu Hf) as [].
  assert (Eq : request fu = q ∧ started fu = true ∧ waiting fu = true) by by destruct Hfu as [->|(p & -> & _)].
  destruct Eq as (Eq & Est & Ewt). apply fs_inv_update; [done| | |done..| | | |].
  - eapply (pool_inv_step (pst s) (Pool.Join f wk)); [apply H|done|done].
  - eapply join_poll_ledger; [done|apply H].
  - rewrite Hf. intros fu' [= <-]. destruct (JoinHandle.poll js wk).1; by rewrite Eq.
  - by rewrite Hf.
  - intros p sp t Hsp Ht <-. destruct (fi_spawning _ H p sp t fu Hsp Ht Hf) as [q' ->].
    destruct Hfu as [?|(p' & [= _ <-] & Hn)]; congruence.
  - unfold JoinHandle.poll in *. destruct (JoinHandle.result js) as [v|] eqn:Ev; simpl in *.
    + assert (Hc : (f, q, v) ∈ calls (world p1)) by (rewrite Ew, <- Eq; by eapply fo_result0).
      split; simpl; [done|..].
      * rewrite Hj'. by intros js1 v1 [= <-].
      * by intros q1 v1 [= -> ->].
      * intros _. right. by exists v.
      * done.
      * by rewrite Em, Ew, <- Eq.
    + split; simpl; [done|..].
      * rewrite Hj'. by intros js1 v1 [= <-].
      * done.
      * intros _. rewrite Ep, Ew. rewrite Eq in fo_place0. by apply fo_place0.
      * rewrite Ew, <- Eq. intros v _ Hin. right. rewrite Em. destruct (fo_waits0 v Ewt Hin) as [(js1 & ? & ?)|?]; [congruence|done].
      * by rewrite Em, Ew, <- Eq.
Qed.

Lemma fs_inv_drop s f fu q :
  fs_inv s → futs s !! f = Some fu → (∀ q p, fu ≠ Spawning q p) → request fu = q →
  fs_inv (mkSys (pst s) (<[f := Dropped q (started fu)]> (futs s))).
Proof.
  intros H Hf Hsp <-. pose proof (fi_futs _ H f fu Hf) as [].
  apply fs_inv_update; [done|apply H|apply H|done..|by rewrite Hf; intros fu' [= <-]|by rewrite Hf| |].
  - intros p sp t Hp Ht <-. destruct (fi_spawning _ H p sp t fu Hp Ht Hf) as [q ->]. by destruct (Hsp q p).
  - by split.
Qed.

Lemma fs_inv_step s o s' : fs_inv s → allowed s o → step s o = Some s' → fs_inv s'.
Proof.
  intros H Ha Hs. destruct o as [f fu|f p|f wk|f|p j g|p|i|j wk]; simpl in Hs.
  - injection Hs as <-. destruct Ha as (Hn & Hj & ->).
    apply fs_inv_update; [done|apply H|apply H|done..|by rewrite Hn|done| |].
    + intros p sp t Hp Ht <-. destruct (li_joins _ (fi_ledger _ H) (id t)) as [x Hx]; [|congruence].
      apply elem_of_app. right. apply list_elem_of_fmap_2, elem_of_pending. right. by exists p, sp.
    + split; simpl; rewrite ?Hj; [by intros [x ?]|done..|]. intros v Hin. apply (li_completing _ (fi_ledger _ H)) in Hin.
      destruct (li_joins _ (fi_ledger _ H) f) as [x Hx]; [by apply elem_of_app; left|congruence].
  - destruct (futs s !! f) as [[q| | | |]|] eqn:Hf; try done. apply bind_Some in Hs as (p1 & Hp & [= <-]).
    simpl in Ha. assert (Hj : joins (pst s) !! f = None).
    { apply eq_None_not_Some. intros Hx. by pose proof (fo_fresh _ _ _ (fi_futs _ H f _ Hf) Hx). }
    assert (Hpi : pool_inv p1).
    { eapply (pool_inv_step (pst s) (Pool.Choose p (call_task f q))); [apply H|done|done]. }
    apply (fs_inv_arrives s (call_task f q)); [done|by eapply choose_arrives|done|done|..].
    + left. exists q, (Spawning q p). simpl. by rewrite lookup_insert_eq.
    + intros f' Hne. by rewrite lookup_insert_ne.
    + simpl. rewrite lookup_insert_eq. intros fu [= <-]. by exists q, p.
    + intros p' sp t fu Hsp Ht Hfu. unfold spawn_choose in Hp. destruct (length _); [done|]. injection Hp as <-.
      simpl in Hsp. rewrite lookup_insert in Hsp. case_decide as E.
      * subst. injection Hsp as <-. injection Ht as <-. simpl in Hfu. rewrite lookup_insert_eq in Hfu. injection Hfu as <-. by exists q.
      * rewrite lookup_insert in Hfu. case_decide as E'; [|by eapply (fi_spawning _ H p')].
        destruct (li_joins _ (fi_ledger _ H) (id t)) as [x Hx]; [|congruence].
        apply elem_of_app. right. apply list_elem_of_fmap_2, elem_of_pending. right. by exists p', sp.
  - destruct (futs s !! f) as [[q|q p|q| |]|] eqn:Hf; try done.
    + destruct (spawns (pst s) !! p) eqn:Hp; [done|]. eapply fs_inv_await; [done|done| |done]. right. by exists p.
    + eapply fs_inv_await; [done|done| |done]. by left.
  - destruct (futs s !! f) as [[q| |q|q v|]|] eqn:Hf; try done; injection Hs as <-;
      by apply (fs_inv_drop s f _ _ H Hf).
  - apply bind_Some in Hs as (p1 & Hp & [= <-]). destruct Ha as (Hpn & Hj & Hf).
    assert (Hpi : pool_inv p1).
    { eapply (pool_inv_step (pst s) (Pool.Choose p (other_task j g))); [apply H|done|done]. }
    apply (fs_inv_arrives s (other_task j g)); [done|by eapply choose_arrives|done|done|..].
    + right. by exists g.
    + done.
    + simpl. by rewrite Hf.
    + intros p' sp t fu Hsp Ht Hfu. unfold spawn_choose in Hp. destruct (length _); [done|]. injection Hp as <-.
      simpl in Hsp. rewrite lookup_insert in Hsp. case_decide as E; [|by eapply (fi_spawning _ H p')].
      injection Hsp as <-. injection Ht as <-. simpl in Hfu. congruence.
  - apply bind_Some in Hs as (p1 & Hp & [= <-]). apply fs_inv_effect; [done|by eapply spawn_effect| |].
    + eapply (pool_inv_step (pst s) (Pool.Spawn p)); [apply H|done|done].
    + intros q sp t. by eapply spawn_step_tasks.
  - apply bind_Some in Hs as (p1 & Hp & [= <-]). apply fs_inv_effect; [done|by eapply worker_effect| |].
    + eapply (pool_inv_step (pst s) (Pool.Work i)); [apply H|done|done].
    + rewrite (worker_step_spawns _ _ _ Hp). intros q sp t. by exists sp.
  - apply bind_Some in Hs as (p1 & Hp & [= <-]). simpl in Ha.
    destruct (join_poll_frame _ _ _ _ Hp) as (Ep & Em & Er & Ew & Es & Ej & _).
    apply fs_inv_keeps; [done| | |by rewrite Er|by rewrite Ew| |by rewrite Em|by rewrite Ep|by rewrite Ep|rewrite Es; intros q sp t; by exists sp].
    + eapply (pool_inv_step (pst s) (Pool.Join j wk)); [apply H|done|done].
    + eapply join_poll_ledger; [done|apply H].
    + intros f fu Hf. apply Ej. congruence.
Qed.

Lemma fs_reach_inv n fs s : reach (init n fs) s → fs_inv s.
Proof. induction 1; [apply fs_inv_init|by eapply fs_inv_step]. Qed.

(** ** What a future gets *)

Lemma worker_steps_reach n fs s k i (p1 : Pool.state World A) :
  reach (init n fs) s → worker_steps k (pst s) i = Some p1 → reach (init n fs) (mkSys p1 (futs s)).
Proof.
  revert s. induction k as [|k IH]; intros s Hr; simpl; [intros [= <-]; by destruct s|].
  intros Hs. apply bind_Some in Hs as (p2 & Hp & Hs). apply (IH (mkSys p2 (futs s))); [|done].
  apply (reach_step _ s (Work i)); [done|exact I|]. simpl. by rewrite Hp.
Qed.

(** An answer in the join state is what the next poll returns. *)
Lemma poll_returns s f q v wk :
  futs s !! f = Some (Awaiting q) → (∃ js, joins (pst s) !! f = Some js ∧ JoinHandle.result js = Some v) →
  ∃ s', step s (Poll f wk) = Some s' ∧ futs s' !! f = Some (Returned q v).
Proof.
  intros Hf (js & Hj & Hr).
  simpl. rewrite Hf. unfold await, join_poll. rewrite Hj. simpl. eexists. split; [done|]. simpl.
  rewrite lookup_insert_eq. unfold JoinHandle.poll. by rewrite Hr.
Qed.

(** A worker that is about to complete the join state of a future does it in its next
    step, which wakes the task that polled, and the next poll returns the answer. *)
Lemma completion_answers s f q v i w t wk :
  futs s !! f = Some (Awaiting q) → workers (pool (pst s)) !! i = Some w → thread w = Completing t v → id t = f →
  ∃ s1, step s (Work i) = Some s1 ∧ (∃ s2, step s1 (Poll f wk) = Some s2 ∧ futs s2 !! f = Some (Returned q v)) ∧
    ∀ js u, joins (pst s) !! f = Some js → JoinHandle.waker js = Some u → u ∈ woken (pst s1).
Proof.
  intros Hf Hw Ht <-. destruct w as [qu th b]. simpl in Ht. subst th.
  destruct (worker_completing (pst s) i qu t v b Hw) as (p1 & Hp & _ & Hres).
  pose proof (f_equal (λ x, x.1.1.1) Hres) as Ej. pose proof (f_equal (λ x, x.1.1.2) Hres) as Ewk.
  cbn [results fst snd] in Ej, Ewk. rewrite deliver_joins in Ej.
  exists (mkSys p1 (futs s)). cbn [step]. rewrite Hp. split; [done|]. split.
  - apply (poll_returns (mkSys p1 (futs s))); [done|]. cbn [pst]. rewrite Ej. eexists. by rewrite lookup_insert_eq.
  - intros js u Hjs Hu. cbn [pst]. rewrite Ewk, deliver_wakes. right. by exists js.
Qed.

(** The closure of a future that is past its first poll is at a worker. *)
Lemma call_at_worker s f fu :
  fs_inv s → futs s !! f = Some fu → started fu = true → (∀ q p, fu ≠ Spawning q p) →
  (∃ v, called s f (request fu) v) ∨
  ∃ i w, workers (pool (pst s)) !! i = Some w ∧ call_task f (request fu) ∈ tasks_of w.
Proof.
  intros H Hf Hst Hns. destruct (fo_place _ _ _ (fi_futs _ H f fu Hf) Hst) as [Hp|Hc]; [|by left].
  right. apply elem_of_pending in Hp as [Hp|(p & sp & Hp & Ht)]; [done|].
  destruct (fi_spawning _ H p sp _ fu Hp Ht Hf) as [q ->]. by destruct (Hns q p).
Qed.

Lemma fs_reach_pool n fs s : reach (init n fs) s → Pool.reach (Pool.init n (mkWorld fs [])) (pst s).
Proof.
  induction 1 as [|s o s' Hr IH Ha Hs]; [apply Pool.reach_refl|]. pose proof (fs_reach_inv n fs s Hr) as H.
  destruct o as [f fu|f p|f wk|f|p j g|p|i|j wk]; cbn [step] in Hs.
  - by injection Hs as <-.
  - destruct (futs s !! f) as [[q| | | |]|] eqn:Hf; try done. apply bind_Some in Hs as (p1 & Hp & [= <-]).
    apply (Pool.reach_step _ (pst s) (Choose p (call_task f q))); [done| |done]. split; [exact Ha|].
    apply eq_None_not_Some. intros Hx. by pose proof (fo_fresh _ _ _ (fi_futs _ H f _ Hf) Hx).
  - assert (Haw : ∀ q, await s f q wk = Some s' → Pool.reach (Pool.init n (mkWorld fs [])) (pst s')).
    { intros q Ha'. unfold await in Ha'. apply bind_Some in Ha' as (js & _ & (p1 & Hp & [= <-])%bind_Some).
      by apply (Pool.reach_step _ (pst s) (Pool.Join f wk)). }
    destruct (futs s !! f) as [[q|q p|q| |]|]; try done; [|by eapply Haw].
    destruct (spawns (pst s) !! p); [done|by eapply Haw].
  - destruct (futs s !! f) as [[q|q p|q|q v|]|]; by simplify_eq.
  - apply bind_Some in Hs as (p1 & Hp & [= <-]). destruct Ha as (Hpn & Hj & _).
    by apply (Pool.reach_step _ (pst s) (Choose p (other_task j g))).
  - apply bind_Some in Hs as (p1 & Hp & [= <-]).
    by apply (Pool.reach_step _ (pst s) (Pool.Spawn p)).
  - apply bind_Some in Hs as (p1 & Hp & [= <-]).
    by apply (Pool.reach_step _ (pst s) (Pool.Work i)).
  - apply bind_Some in Hs as (p1 & Hp & [= <-]).
    by apply (Pool.reach_step _ (pst s) (Pool.Join j wk)).
Qed.

Lemma worker_makes_call n fs s f (fu : FsFuture) i (w : Worker World A) :
  reach (init n fs) s → futs s !! f = Some fu → workers (pool (pst s)) !! i = Some w →
  call_task f (request fu) ∈ tasks_of w → thread w ≠ Dead → Forall returns (tasks_of w) →
  (∀ p, spawns (pst s) !! p ≠ Some (Pushed i)) →
  ∃ k (p1 : Pool.state World A) (v : A), k ≤ 3 * length (queue w) + 3 ∧ worker_steps k (pst s) i = Some p1 ∧
    called (mkSys p1 (futs s)) f (request fu) v ∧
    (∃ js, joins p1 !! f = Some js ∧ JoinHandle.result js = Some v) ∧
    ∀ js wk, joins (pst s) !! f = Some js → JoinHandle.waker js = Some wk → wk ∈ woken p1.
Proof.
  intros Hr Hf Hw Hin Hd Hts Hno. pose proof (fs_reach_inv n fs s Hr) as H.
  destruct (worker_empties (pst s) i w (fi_pool _ H) Hw Hd Hts Hno) as (k & p1 & Hk & Hs & Hres & _).
  pose proof (fs_reach_inv n fs _ (worker_steps_reach n fs s k i p1 Hr Hs)) as H1.
  destruct (empties_outcome n _ _ p1 i w (fs_reach_pool n fs s Hr) Hw Hts Hres) as (_ & _ & Hjs & _ & Hwk).
  apply list_elem_of_split in Hin as (us & vs & Ets). destruct (Hjs us _ vs Ets) as (js & Hj & Hb).
  rewrite Ets in Hts. apply Forall_app in Hts as [_ [Ht _]%Forall_cons].
  assert (is_Some (JoinHandle.result js)) as [v Hv] by (rewrite Hb; apply Ht).
  exists k, p1, v. split; [done|]. split; [done|]. split; [|split; [by exists js|]].
  - eapply (fo_result _ _ _ (fi_futs _ H1 f fu Hf)); [exact Hj|exact Hv].
  - intros js0 wk H0 Hwk0. apply (Hwk f js0 wk); [|done..]. apply elem_of_app. right. rewrite Ets.
    change f with (id (call_task f (request fu))). apply list_elem_of_fmap_2, elem_of_app. right. by apply elem_of_cons; left.
Qed.

(** The call of a future that waits was made: the answer is there, or on its way. *)
Lemma call_answered s f q v :
  fs_inv s → futs s !! f = Some (Awaiting q) → called s f q v →
  (∃ js, joins (pst s) !! f = Some js ∧ JoinHandle.result js = Some v) ∨
  ∃ i w t, workers (pool (pst s)) !! i = Some w ∧ thread w = Completing t v ∧ id t = f.
Proof.
  intros H Hf Hc. destruct (fo_waits _ _ _ (fi_futs _ H f _ Hf) v eq_refl Hc) as [?|Hin]; [by left|right].
  apply elem_of_completing in Hin as (i & w & Hw & Hin). exists i, w.
  unfold completing_of in Hin. destruct (thread w) as [|t|t v'| |]; try by apply not_elem_of_nil in Hin.
  apply list_elem_of_singleton in Hin as [= -> ->]. by exists t.
Qed.

End fs.
Arguments Request : clear implicits.
Arguments FsFuture : clear implicits.
Arguments World : clear implicits.
Arguments sys : clear implicits.
Arguments op : clear implicits.

End Fs.

Import Fs.

Section theorems.
Context {Path FS A : Type} (perform : Request Path → FS → A * FS).
Implicit Types (s : sys Path FS A).

(** C20. A file operation makes its call once.  In every interleaving of polls, drops,
    spawning threads and workers, with other users of the pool whose closures may panic:
    no call is made for a future before its first poll; none is made twice, whether the
    future is kept or dropped; the call is the one the function names; and what the future
    returns is what the call answered. *)
Theorem fs_call_once n fs s :
  reach perform (init n fs) s →
  NoDup (calls (world (pst s))).*1.*1 ∧
  (∀ f q v, called s f q v → ∃ fu, futs s !! f = Some fu ∧ started fu = true ∧ request fu = q) ∧
  (∀ f q v, futs s !! f = Some (Returned q v) → called s f q v).
Proof.
  intros Hr. destruct (fs_reach_inv _ n fs s Hr) as [_ _ _ Ho Hc Hf _]. split; [done|]. split.
  - intros f q v Hin. by destruct (Hc f q v Hin).
  - intros f q v Hfu. by apply (fo_returned _ _ _ _ (Hf f _ Hfu)).
Qed.

(** C19. A file operation gets its answer.  A future that is past its first poll, even one that was
    dropped since, had its call made, or its closure is at a worker.  If that worker is alive,
    if no spawn owes it the unpark and if none of its closures panics, it makes the call within
    three steps for each of its closures (and three more), and wakes the task that polled, whose
    next poll returns the answer.  Where the call of a future that waits was made, the next poll
    returns the answer, or a worker is about to complete the join state: its next step does, and
    wakes the task that polled, whose next poll then returns the answer. *)
Theorem fs_answered n fs s f q fu :
  reach perform (init n fs) s → futs s !! f = Some fu → fu = Awaiting q ∨ fu = Dropped q true →
  ((∃ v, called s f q v) ∨
   ∃ i w, workers (pool (pst s)) !! i = Some w ∧ call_task perform f q ∈ tasks_of w ∧
     (thread w ≠ Dead → Forall returns (tasks_of w) → (∀ p, spawns (pst s) !! p ≠ Some (Pushed i)) →
      ∃ k p1 v, k ≤ 3 * length (queue w) + 3 ∧ worker_steps k (pst s) i = Some p1 ∧
        reach perform (init n fs) (mkSys p1 (futs s)) ∧ called (mkSys p1 (futs s)) f q v ∧
        (∀ js wk, joins (pst s) !! f = Some js → JoinHandle.waker js = Some wk → wk ∈ woken p1) ∧
        ∀ wk, fu = Awaiting q →
          ∃ s', step perform (mkSys p1 (futs s)) (Poll f wk) = Some s' ∧ futs s' !! f = Some (Returned q v))) ∧
  (∀ v wk, fu = Awaiting q → called s f q v →
     (∃ s', step perform s (Poll f wk) = Some s' ∧ futs s' !! f = Some (Returned q v)) ∨
     ∃ i s1, step perform s (Work i) = Some s1 ∧
       (∃ s2, step perform s1 (Poll f wk) = Some s2 ∧ futs s2 !! f = Some (Returned q v)) ∧
       ∀ js u, joins (pst s) !! f = Some js → JoinHandle.waker js = Some u → u ∈ woken (pst s1)).
Proof.
  intros Hr Hf Hfu. pose proof (fs_reach_inv _ n fs s Hr) as H. split.
  - assert (E : request fu = q ∧ started fu = true ∧ ∀ q p, fu ≠ Spawning q p) by by destruct Hfu as [->| ->].
    destruct E as (<- & Hst & Hns). destruct (call_at_worker _ s f fu H Hf Hst Hns) as [?|(i & w & Hw & Hin)]; [by left|].
    right. exists i, w. split; [done|]. split; [done|]. intros Hd Hts Hno.
    destruct (worker_makes_call _ n fs s f fu i w Hr Hf Hw Hin Hd Hts Hno) as (k & p1 & v & Hk & Hs & Hc & Hres & Hwk).
    exists k, p1, v. split; [done|]. split; [done|]. split; [by eapply worker_steps_reach|]. split; [done|]. split; [done|].
    intros wk E. apply poll_returns; [|done]. simpl. by rewrite Hf, E.
  - intros v wk -> Hc. destruct (call_answered _ s f q v H Hf Hc) as [?|(i & w & t & Hw & Ht & Hid)].
    + left. by apply poll_returns.
    + right. exists i. by eapply completion_answers.
Qed.
End theorems.

(** ** Runs *)

(** A system with one file. *)
Definition one_file (q : Request nat) (fs : list Z) : list Z * list Z :=
  match q with
  | Write _ data => ([], data)
  | Read _ => (fs, fs)
  | RemoveFile _ => ([], [])
  | _ => ([], fs)
  end.

Definition fs_steps (s : sys nat (list Z) (list Z)) (ops : list (op nat (list Z) (list Z))) : sys nat (list Z) (list Z) :=
  foldl (λ s o, default s (step one_file s o)) s ops.

Lemma fs_reach_snoc s0 ops o :
  reach one_file s0 (fs_steps s0 ops) → allowed (fs_steps s0 ops) o →
  (if step one_file (fs_steps s0 ops) o is Some _ then true else false) = true →
  reach one_file s0 (fs_steps s0 (ops ++ [o])).
Proof.
  intros Hr Ha Hs. unfold fs_steps. rewrite foldl_app. simpl. fold (fs_steps s0 ops).
  destruct (step one_file (fs_steps s0 ops) o) as [s'|] eqn:E; [|done]. by eapply reach_step.
Qed.

(** One worker: a write that is polled once and dropped, and a read behind it. *)
Definition write_then_read : list (op nat (list Z) (list Z)) :=
  [Create 0 (write 3 [7%Z]); Create 1 (read 3);
   Start 0 0; Spawn 0; Spawn 0; Spawn 0; Poll 0 5%Z; Drop 0;
   Start 1 0; Spawn 0; Spawn 0; Spawn 0; Poll 1 6%Z].

Definition write_then_read_done : list (op nat (list Z) (list Z)) :=
  write_then_read ++ [Work 0; Work 0; Work 0; Work 0; Work 0; Work 0; Poll 1 6%Z].

(** Builds a concrete run from its last step back. *)
Ltac fs_run :=
  repeat lazymatch goal with
  | |- reach _ ?s0 (fs_steps _ []) => exact (reach_refl _ s0)
  | |- reach _ ?s0 (fs_steps _ ?ops) =>
      let o := eval cbv in (last ops) in
      let pre := eval cbv in (take (pred (length ops)) ops) in
      lazymatch o with Some ?o =>
        change ops with (pre ++ [o]); apply fs_reach_snoc;
        [|first [exact I | vm_compute; reflexivity | split_and!; vm_compute; reflexivity]|vm_compute; reflexivity]
      end
  end.

Lemma fs_call_once_witness :
  let s := fs_steps (init 1 []) write_then_read_done in
  futs s !! 0 = Some (Dropped (Write 3 [7%Z]) true) ∧ called s 1 (Read 3) [7%Z] ∧
  NoDup (calls (world (pst s))).*1.*1.
Proof.
  intros s. assert (Hr : reach one_file (init 1 []) s).
  { unfold s, write_then_read_done, write_then_read. cbn [app]. fs_run. }
  destruct (fs_call_once one_file 1 [] s Hr) as (Hn & _ & Hret).
  split; [vm_compute; reflexivity|]. split; [apply Hret; vm_compute; reflexivity|exact Hn].
Defined.

Lemma fs_answered_witness :
  let s := fs_steps (init 1 []) write_then_read in
  ∃ k p1 v, worker_steps k (pst s) 0 = Some p1 ∧ called (mkSys p1 (futs s)) 1 (Read 3) v ∧ 6%Z ∈ woken p1.
Proof.
  intros s. assert (Hr : reach one_file (init 1 []) s).
  { unfold s, write_then_read. cbn [app]. fs_run. }
  destruct (fs_answered one_file 1 [] s 1 (Read 3) (Awaiting (Read 3)) Hr) as [[[v Hc]|(i & w & Hw & Hin & Hgo)] _];
    [vm_compute; reflexivity|by left|..].
  - assert (Hn : calls (world (pst s)) = []) by (vm_compute; reflexivity).
    unfold called in Hc. rewrite Hn in Hc. exact (False_ind _ (not_elem_of_nil _ Hc)).
  - assert (Hi : i = 0 ∧ w = mkWorker [call_task one_file 0 (Write 3 [7%Z]); call_task one_file 1 (Read 3)] Popping true).
    { assert (Hl : workers (pool (pst s)) = [mkWorker [call_task one_file 0 (Write 3 [7%Z]); call_task one_file 1 (Read 3)] Popping true])
        by (vm_compute; reflexivity).
      rewrite Hl in Hw. apply list_lookup_singleton_Some in Hw as [E1 E2]. exact (conj E1 (eq_sym E2)). }
    destruct Hi as [-> ->]. destruct Hgo as (k & p1 & v & _ & Hs & _ & Hc & Hwk).
    + done.
    + by apply Forall_forall; intros t [->| ->%list_elem_of_singleton]%elem_of_cons wd; eexists.
    + intros p. assert (Hsp : spawns (pst s) = ∅) by (vm_compute; reflexivity). rewrite Hsp. by rewrite lookup_empty.
    + destruct Hwk as [Hwk _]. exists k, p1, v. split; [done|]. split; [done|]. eapply Hwk; vm_compute; reflexivity.
Defined.
