(* ===== verification/Interval.v ===== *)
(** * Interval: instants, and the periodic timer of [lion-utility/src/time/interval.rs]

    [Instant] is [lion-reactor/src/types/time.rs].  The ledger of [interval_kernel.rs] owns the next deadline; the future arms one
    [Sleep] per tick.  The addition of [tick_step] panics on overflow when the build
    checks it, and wraps around when it does not: [checks] says which build it is. *)

From S2P Require Import Prelude Reactor Sleep.
Import Sleep.

(** ** Instants and durations

    Both are a number of milliseconds in a [u64].  Adding and subtracting saturate;
    converting a [std::time::Duration] keeps the low 64 bits of its milliseconds. *)

Module Instant.

Definition saturating_add (a b : Z) : Z := Z.min (a + b) u64_max.
Definition saturating_sub (a b : Z) : Z := Z.max 0 (a - b).

Definition from_millis (millis : Z) : Z := millis.
Definition from_secs (secs : Z) : Z :=
  if (u64_max / 1000 <? secs)%Z then u64_max else (secs * 1000)%Z.

(** [as_millis() as u64]: the [u128] is truncated. *)
Definition from_std (as_millis : Z) : Z := wrap64 as_millis.

(** [Instant::now]: milliseconds since the first call; the argument is the
    monotonic clock of the system, in [u128] milliseconds. *)
Definition now (start_elapsed_millis : Z) : Z := wrap64 start_elapsed_millis.

Definition elapsed (now_ self : Z) : Z := saturating_sub now_ self.
Definition add (self duration : Z) : Z := saturating_add self duration.
Definition sub (self duration : Z) : Z := saturating_sub self duration.
Definition add_std (self as_millis : Z) : Z := saturating_add self (from_std as_millis).
Definition sub_std (self as_millis : Z) : Z := saturating_sub self (from_std as_millis).

End Instant.

Section instants.
Import Instant.

(** C38. Arithmetic on instants and durations stays in a machine word.  Sums,
    differences and the conversion of seconds saturate: a sum is exact or the largest instant, a
    difference is exact or zero, seconds convert exactly or to the largest duration, and
    subtracting undoes an addition that did not saturate.  The exception is a
    [std::time::Duration], whose milliseconds [ms] are a [u128]: it is converted to its low
    64 bits, exactly when and only when [ms] fits 64 bits, and the sum or difference
    with it is the one with what is left. *)
Theorem instant_arithmetic_saturates a d ms :
  is_u64 a → is_u64 d → (0 ≤ ms)%Z →
  is_u64 (add a d) ∧ (a ≤ add a d)%Z ∧ (add a d = (a + d)%Z ∨ add a d = u64_max ∧ (u64_max < a + d)%Z) ∧
  is_u64 (sub a d) ∧ (sub a d ≤ a)%Z ∧ (sub a d = (a - d)%Z ∨ sub a d = 0%Z ∧ (a < d)%Z) ∧
  ((a + d ≤ u64_max)%Z → sub (add a d) d = a) ∧
  is_u64 (from_secs a) ∧ from_secs a = Z.min (a * 1000) u64_max ∧
  is_u64 (from_std ms) ∧ (from_std ms = ms ↔ (ms ≤ u64_max)%Z) ∧
  (∃ n, (0 ≤ n)%Z ∧ ms = (from_std ms + n * two64)%Z) ∧
  add_std a ms = Z.min (a + from_std ms) u64_max ∧ sub_std a ms = Z.max 0 (a - from_std ms).
Proof.
  intros Ha Hd Hms. unfold add, sub, add_std, sub_std, saturating_add, saturating_sub, from_secs, from_std.
  assert (Hm : (u64_max / 1000 = 18446744073709551)%Z) by reflexivity. rewrite Hm.
  split; [u64|]. split; [u64|]. split; [destruct (Z.le_gt_cases (a + d) u64_max); [left|right]; u64|].
  split; [u64|]. split; [u64|]. split; [destruct (Z.le_gt_cases d a); [left|right]; u64|].
  split; [u64|]. split; [case_cmp; u64|]. split; [case_cmp; u64|].
  pose proof (wrap64_range ms) as Hw. split; [done|]. split.
  - split; [intros <-; u64|]. intros Hle. apply wrap64_id. u64.
  - split; [|done]. unfold wrap64 in *. exists (ms / two64)%Z. split; [by apply Z.div_pos|].
    rewrite Z.mul_comm, Z.add_comm. by apply Z.div_mod.
Qed.

Lemma instant_arithmetic_saturates_witness :
  sub (add 7 5) 5 = 7%Z ∧ from_secs u64_max = u64_max ∧ (from_std (two64 + 3) ≠ two64 + 3)%Z ∧ add_std 7 (two64 + 3) = 10%Z.
Proof.
  split; [apply (instant_arithmetic_saturates 7 5 0); u64 || (vm_compute; done)|].
  split; [vm_compute; reflexivity|]. split; [|vm_compute; reflexivity].
  assert (H3 : (0 ≤ two64 + 3)%Z) by (vm_compute; done).
  destruct (instant_arithmetic_saturates 7 5 _ ltac:(u64) ltac:(u64) H3)
    as (_ & _ & _ & _ & _ & _ & _ & _ & _ & _ & Hiff & _).
  intros Hx%Hiff. by apply Hx.
Defined.

(** A [std::time::Duration] of 2^64 milliseconds or more is truncated, not
    saturated: adding one to an instant may give that very instant. *)
Theorem std_duration_truncates t :
  is_u64 t → add_std t two64 = t ∧ ∀ ms, (0 ≤ ms < two64)%Z → add_std t ms = add t ms.
Proof.
  intros Ht. unfold add_std, from_std, add, saturating_add. split.
  - assert (wrap64 two64 = 0%Z) as -> by reflexivity. u64.
  - intros ms Hms. by rewrite wrap64_id.
Qed.

Lemma std_duration_truncates_witness : add_std 9 two64 = 9%Z.
Proof. apply (std_duration_truncates 9). u64. Defined.

End instants.

(** ** The interval *)

Module Interval.

(** The ghost fields [first] and [fires] are kept. *)
Record IntervalKernel := mkIvKernel { deadline : Z; period : Z; first : Z; fires : Z }.

Definition iv_wf (k : IntervalKernel) : Prop := deadline k = (first k + fires k * period k)%Z.

Definition new_kernel (start period : Z) : IntervalKernel := mkIvKernel start period start 0.

Definition tick_step (checks : bool) (k : IntervalKernel) : option (Z * IntervalKernel) :=
  let sum := (deadline k + period k)%Z in
  if checks && (u64_max <? sum)%Z then None
  else
    let d := wrap64 sum in
    Some (d, mkIvKernel d (period k) (first k) (fires k + 1)).

Record Interval := mkInterval { sleep : SleepKernel; ikern : IntervalKernel }.

Definition period_ticks (as_millis : Z) : Z := if (as_millis =? 0)%Z then 1%Z else as_millis.

Definition new_at (start as_millis : Z) : Interval :=
  mkInterval (Sleep.new start) (new_kernel start (period_ticks as_millis)).

Definition new (now as_millis : Z) : Interval := new_at (Instant.add now as_millis) as_millis.

Inductive Ticked := TickReady (now : Z) | TickPending | TickPanicked.

(** [raw] is the reading that the sleep falls back to, [now] the reading that is
    returned; assigning the new sleep drops the old one. *)
Definition poll_tick (checks : bool) (iv : Interval) (r : Reactor.Reactor) (w raw now : Z) :
    Ticked * Interval * Reactor.Reactor :=
  let '(res, k', r') := poll (sleep iv) r w raw in
  match res with
  | Ready =>
      match tick_step checks (ikern iv) with
      | Some (next, ik') =>
          let '(_, r'') := drop k' r' in
          (TickReady now, mkInterval (Sleep.new next) ik', r'')
      | None => (TickPanicked, mkInterval k' (ikern iv), r')
      end
  | PendingPoll => (TickPending, mkInterval k' (ikern iv), r')
  | Panicked => (TickPanicked, mkInterval k' (ikern iv), r')
  end.

End Interval.
Import Interval.

(** ** Runs: every poll may find another reactor *)

Record tick_poll := mkPoll { at_reactor : Reactor.Reactor; waker : Z; raw : Z; real : Z }.

Definition reading (p : tick_poll) : Z := poll_now (at_reactor p) (raw p).

(** A panic ends the run. *)
Fixpoint tick_run (checks : bool) (iv : Interval) (ps : list tick_poll) : list Ticked * Interval :=
  match ps with
  | [] => ([], iv)
  | p :: ps' =>
      match poll_tick checks iv (at_reactor p) (waker p) (raw p) (real p) with
      | (TickPanicked, iv', _) => ([TickPanicked], iv')
      | (res, iv', _) => let '(rest, iv2) := tick_run checks iv' ps' in (res :: rest, iv2)
      end
  end.

Definition is_tick_ready (t : Ticked) : bool := match t with TickReady _ => true | _ => false end.
Definition ready_count (ts : list Ticked) : Z := Z.of_nat (length (filter (λ t, is_tick_ready t) ts)).

Section ticks.
Implicit Types (iv : Interval) (k : SleepKernel) (ps : list tick_poll) (d p now : Z).

(** The sleep is armed to the deadline of the ledger, which has not drifted. *)
Definition tick_inv iv (start p n : Z) : Prop :=
  ikern iv = mkIvKernel (start + n * p) p start n ∧ Sleep.deadline (sleep iv) = (start + n * p)%Z.

Lemma poll_outcome k r w raw :
  let '(res, k', _) := poll k r w raw in
  Sleep.deadline k' = Sleep.deadline k ∧ (res = Ready ↔ (Sleep.deadline k ≤ poll_now r raw)%Z).
Proof.
  unfold poll. cbv zeta. unfold poll_step. destruct (Z.leb_spec (Sleep.deadline k) (poll_now r raw)).
  - done.
  - destruct (Reactor.handle_register_timer _ _ _) as [[x|e] r2]; simpl; (split; [done|]); (split; [done|lia]).
Qed.

(** A due sleep does not go to the reactor. *)
Lemma poll_due k r w raw :
  (Sleep.deadline k ≤ poll_now r raw)%Z →
  ∃ k', poll k r w raw = (Ready, k', r) ∧ rid k' = None.
Proof.
  intros Hle. unfold poll. cbv zeta. unfold poll_step.
  destruct (Z.leb_spec (Sleep.deadline k) (poll_now r raw)); [|lia]. by eexists.
Qed.

Lemma poll_tick_due checks iv r w raw now :
  (Sleep.deadline (sleep iv) ≤ poll_now r raw)%Z →
  ∃ k', poll_tick checks iv r w raw now =
    match tick_step checks (ikern iv) with
    | Some (next, ik') => (TickReady now, mkInterval (Sleep.new next) ik', r)
    | None => (TickPanicked, mkInterval k' (ikern iv), r)
    end.
Proof.
  intros Hle. destruct (poll_due (sleep iv) r w raw Hle) as (k' & Hp & Hr). exists k'.
  unfold poll_tick. rewrite Hp. destruct (tick_step _ _) as [[next ik']|]; [|done].
  unfold drop, release. by rewrite Hr.
Qed.

(** One poll of an interval that has room for its next deadline. *)
Lemma poll_tick_inv checks iv q start p n :
  tick_inv iv start p n → (0 ≤ start + (n + 1) * p ≤ u64_max)%Z →
  let '(res, iv', _) := poll_tick checks iv (at_reactor q) (waker q) (raw q) (real q) in
  (is_tick_ready res ↔ (start + n * p ≤ reading q)%Z) ∧
  tick_inv iv' start p (n + if is_tick_ready res then 1 else 0).
Proof.
  intros [Hi Hs] Hb. unfold poll_tick, reading.
  pose proof (poll_outcome (sleep iv) (at_reactor q) (waker q) (raw q)) as Hp.
  destruct (poll _ _ _ _) as [[res k'] r']. destruct Hp as [Hd Hres]. rewrite Hs in Hres, Hd.
  destruct res; simpl.
  - assert (Hsum : (start + n * p + p = start + (n + 1) * p)%Z) by lia.
    unfold tick_step. rewrite Hi. simpl. rewrite Hsum, wrap64_id by u64.
    destruct (Z.ltb_spec u64_max (start + (n + 1) * p)); [lia|]. rewrite andb_false_r. simpl.
    split; [|done]. split; [intros _; by apply Hres|done].
  - split; [split; [done|intros ?%Hres; done]|]. rewrite Z.add_0_r. by split.
  - split; [split; [done|intros ?%Hres; done]|]. rewrite Z.add_0_r. by split.
Qed.

Lemma ready_count_cons t ts :
  ready_count (t :: ts) = ((if is_tick_ready t then 1 else 0) + ready_count ts)%Z.
Proof. unfold ready_count. rewrite filter_cons. destruct (is_tick_ready t); simpl; lia. Qed.

Lemma tick_run_inv checks start p ps : ∀ iv n,
  tick_inv iv start p n → (0 ≤ start)%Z → (0 ≤ n)%Z → (0 ≤ p)%Z →
  (start + (n + Z.of_nat (length ps)) * p ≤ u64_max)%Z →
  let '(outs, iv') := tick_run checks iv ps in
  tick_inv iv' start p (n + ready_count outs) ∧
  ∀ i t q, outs !! i = Some t → ps !! i = Some q →
    (is_tick_ready t ↔ (start + (n + ready_count (take i outs)) * p ≤ reading q)%Z).
Proof.
  induction ps as [|q ps IH]; intros iv n Hiv Hst Hn Hp Hb; simpl in Hb |- *.
  { rewrite Z.add_0_r. split; [done|]. by intros [] ? ?. }
  assert (Hb1 : (0 ≤ start + (n + 1) * p ≤ u64_max)%Z) by nia.
  pose proof (poll_tick_inv checks iv q start p n Hiv Hb1) as Hstep.
  destruct (poll_tick _ _ _ _ _ _) as [[res iv1] r1]. destruct Hstep as [Hready Hiv1].
  assert (Hnext : ∀ b : bool, (start + (n + (if b then 1 else 0) + Z.of_nat (length ps)) * p ≤ u64_max)%Z).
  { intros b. destruct b; nia. }
  assert (Hgo : let '(rest, iv2) := tick_run checks iv1 ps in
    tick_inv iv2 start p (n + ready_count (res :: rest)) ∧
    ∀ i t q', (res :: rest) !! i = Some t → (q :: ps) !! i = Some q' →
      (is_tick_ready t ↔ (start + (n + ready_count (take i (res :: rest))) * p ≤ reading q')%Z)).
  { assert (Hn' : (0 ≤ n + if is_tick_ready res then 1 else 0)%Z) by (destruct (is_tick_ready res); lia).
    specialize (IH iv1 _ Hiv1 Hst Hn' Hp (Hnext (is_tick_ready res))).
    destruct (tick_run checks iv1 ps) as [rest iv2]. destruct IH as [IH1 IH2].
    rewrite ready_count_cons, Z.add_assoc. split; [done|].
    intros [|i] t q'; simpl; [intros [= <-] [= <-]; unfold ready_count; simpl; by rewrite Z.add_0_r|].
    rewrite ready_count_cons, Z.add_assoc. apply IH2. }
  destruct res; [destruct (tick_run checks iv1 ps); exact Hgo..|].
  simpl in Hiv1. rewrite Z.add_0_r in Hiv1. split; [unfold ready_count; simpl; by rewrite Z.add_0_r|].
  intros [|i] t q'; simpl; [|by destruct i]. intros [= <-] [= <-].
  unfold ready_count. simpl. by rewrite Z.add_0_r.
Qed.

End ticks.

(** Ticks do not drift: as long as the deadlines fit in a machine word, whatever
    the reactor and the clocks do between two polls, the deadline after [n] ready
    ticks is exactly [start + n * period], where a zero period counts as one; a poll
    is ready exactly when its reading has reached that deadline, so that late polls
    catch up one tick at a time, and an overflow never panics. *)
Theorem interval_no_drift checks start ms ps :
  is_u64 start → is_u64 ms → (start + Z.of_nat (length ps) * period_ticks ms ≤ u64_max)%Z →
  let '(outs, iv) := tick_run checks (new_at start ms) ps in
  let p := period_ticks ms in
  (0 < p)%Z ∧ iv_wf (ikern iv) ∧
  deadline (ikern iv) = (start + ready_count outs * p)%Z ∧
  Sleep.deadline (sleep iv) = deadline (ikern iv) ∧
  ∀ i t q, outs !! i = Some t → ps !! i = Some q →
    (is_tick_ready t ↔ (start + ready_count (take i outs) * p ≤ reading q)%Z).
Proof.
  intros Hs Hm Hb. assert (Hp : (0 < period_ticks ms)%Z) by (unfold period_ticks; case_cmp; u64).
  pose proof (tick_run_inv checks start (period_ticks ms) ps (new_at start ms) 0) as H.
  destruct (tick_run _ _ _) as [outs iv].
  destruct H as [[Hi Hd] Hr]; [by split; simpl; rewrite Z.add_0_r|u64|lia|lia|lia|].
  split; [done|]. split; [by rewrite Hi|]. rewrite Hi, Hd. simpl.
  split; [lia|]. split; [lia|]. intros i t q Ho Hq. by rewrite (Hr i t q Ho Hq).
Qed.

(** C39. A period that takes the next deadline past the largest instant, as with the
    longest duration: the precondition of the ledger does not hold.  A checked build
    panics at the tick; an unchecked one wraps around to a deadline in the past, and
    the interval is ready again at once, for the same clock reading. *)
Theorem interval_overflow start ms r w raw now :
  is_u64 start → is_u64 ms → (u64_max < start + period_ticks ms)%Z → (start ≤ poll_now r raw)%Z →
  (∃ iv r', poll_tick true (new_at start ms) r w raw now = (TickPanicked, iv, r')) ∧
  ∃ iv r', poll_tick false (new_at start ms) r w raw now = (TickReady now, iv, r') ∧
    (deadline (ikern iv) < start)%Z ∧
    ∃ iv2 r2, poll_tick false iv r' w raw now = (TickReady now, iv2, r2).
Proof.
  intros Hs Hm Hb Hle. set (p := period_ticks ms) in *.
  assert (Hp : (0 < p ≤ u64_max)%Z) by (unfold p, period_ticks; case_cmp; u64).
  assert (Hw : (wrap64 (start + p) = start + p - two64)%Z).
  { unfold wrap64. rewrite Z.mod_eq by done. enough ((start + p) / two64 = 1)%Z by lia.
    symmetry. apply (Z.div_unique _ _ _ (start + p - two64)); u64. }
  destruct (poll_tick_due true (new_at start ms) r w raw now Hle) as (k1 & ->).
  destruct (poll_tick_due false (new_at start ms) r w raw now Hle) as (k2 & ->).
  unfold tick_step. simpl. fold p. destruct (Z.ltb_spec u64_max (start + p)); [|lia].
  rewrite Hw. split; [by eexists _, _|]. eexists _, _. split; [done|]. simpl. split; [u64|].
  edestruct (poll_tick_due false) as (k3 & ->); [|by eexists _, _]. simpl. u64.
Qed.

(** ** Witnesses *)

(** Polled at 3, 14, 14 and 14 with a period of 4 from 5: three ticks to catch up. *)
Definition sample_polls : list tick_poll :=
  (λ c, mkPoll Reactor.new 7 c c) <$> [3; 14; 14; 14; 14]%Z.

Lemma interval_no_drift_witness :
  (tick_run true (new_at 5 4) sample_polls).1 =
    [TickPending; TickReady 14; TickReady 14; TickReady 14; TickPending]%Z ∧
  deadline (ikern (tick_run true (new_at 5 4) sample_polls).2) = 17%Z.
Proof.
  split; [vm_compute; reflexivity|].
  pose proof (interval_no_drift true 5 4 sample_polls ltac:(u64) ltac:(u64) ltac:(by vm_compute)) as H.
  assert (Hc : ready_count (tick_run true (new_at 5 4) sample_polls).1 = 3%Z) by (vm_compute; reflexivity).
  destruct (tick_run true (new_at 5 4) sample_polls) as [outs iv].
  destruct H as (_ & _ & H & _). simpl in *. rewrite H, Hc. reflexivity.
Defined.

Lemma interval_overflow_witness :
  ∃ iv r', poll_tick false (new_at 9 u64_max) Reactor.new 7 9 9 = (TickReady 9, iv, r') ∧
    (deadline (ikern iv) < 9)%Z.
Proof.
  destruct (interval_overflow 9 u64_max Reactor.new 7 9 9) as [_ (iv & r' & Hp & Hd & _)];
    [u64|u64|by vm_compute|by vm_compute|]. by exists iv, r'.
Defined.
