(* ===== verification/Timeout.v ===== *)
(** * Timeout: racing a future against a sleep, [lion-utility/src/time/timeout.rs]

    The wrapped future is any implementation of the class [Future]; [FutureLaws]
    states what the timers of the other clients rely on: a poll leaves every timer
    alone that the future does not hold.  A [Sleep] obeys the laws, and so does a
    [Timeout] around a future that does, so that timeouts nest. *)

From S2P Require Import Prelude Store ReactorLog ResourceSlab Reactor.
From S2P Require Import ReactorSpec Sleep SleepSpec Interval.
Import Reactor.

(** ** The interface *)

Inductive polled (O : Type) := PReady (o : O) | PPending | PPanic.
Arguments PReady {O} o.
Arguments PPending {O}.
Arguments PPanic {O}.

(** [readings] are the clock readings that one poll may take. *)
Class Future (F : Type) := {
  output : Type;
  readings : Type;
  poll : F → Reactor → Z → readings → polled output * F * Reactor;
}.

(** The timer is somebody's: it is live, or it was woken. *)
Definition claimed (t : service) (x : Z) : Prop := ∃ wk d w, held t wk x d w.

Definition timers_ok (t : service) (l : list Z) : Prop := NoDup l ∧ Forall (claimed t) l.

Definition others_kept (t t' : service) (l l' : list Z) : Prop :=
  ∀ wk y d w, held t wk y d w → y ∉ l → held t' wk y d w ∧ y ∉ l'.

Class FutureLaws (F : Type) `{Future F} := {
  holds : F → list Z;
  fut_ok : F → Prop;
  readings_ok : readings → Prop;
  poll_ok f r t w rs :
    simulates r t → service_ok t → fut_ok f → readings_ok rs → timers_ok t (holds f) →
    let '(_, f', r') := poll f r w rs in
    fut_ok f' ∧
    ∃ t', simulates r' t' ∧ service_ok t' ∧ clock t' = clock t ∧
      timers_ok t' (holds f') ∧ others_kept t t' (holds f) (holds f');
}.

(** ** The kernel and the future *)

Module Timeout.

Inductive TimeoutAction := ReadyOk | ReadyElapsed | Pending.

Definition poll_step (fut_ready sleep_ready : bool) : TimeoutAction :=
  if fut_ready then ReadyOk else if sleep_ready then ReadyElapsed else Pending.

Record Timeout (F : Type) := mkTimeout { future : F; sleep : Sleep.SleepKernel }.
Arguments mkTimeout {F} future sleep.
Arguments future {F} _.
Arguments sleep {F} _.

Inductive Elapsed := elapsed.

(** [timeout]: [now] is the reading of [Sleep::for_duration]. *)
Definition new {F} (now duration : Z) (future : F) : Timeout F :=
  mkTimeout future (Sleep.new (Instant.add now duration)).

Section poll.
Context {F : Type} `{Future F}.

(** The second poll, and the decision of the kernel. *)
Definition decide_sleep (f : F) (k : Sleep.SleepKernel) (r : Reactor) (w raw : Z) :
    polled (output + Elapsed) * Timeout F * Reactor :=
  let '(res, k', r') := Sleep.poll k r w raw in
  match res with
  | Sleep.Panicked => (PPanic, mkTimeout f k', r')
  | _ =>
      let sleep_ready := match res with Sleep.Ready => true | _ => false end in
      match poll_step false sleep_ready with
      | ReadyElapsed => (PReady (inr elapsed), mkTimeout f k', r')
      | _ => (PPending, mkTimeout f k', r')
      end
  end.

Definition poll_timeout (to : Timeout F) (r : Reactor) (w : Z) (rs : readings * Z) :
    polled (output + Elapsed) * Timeout F * Reactor :=
  let '(res, f', r1) := poll (future to) r w (fst rs) in
  match res with
  | PReady o => (PReady (inl o), mkTimeout f' (sleep to), r1)
  | PPending => decide_sleep f' (sleep to) r1 w (snd rs)
  | PPanic => (PPanic, mkTimeout f' (sleep to), r1)
  end.

#[global] Instance timeout_future : Future (Timeout F) := {|
  output := output + Elapsed; readings := readings * Z; poll := poll_timeout |}.

End poll.
End Timeout.
Import Timeout.

(** ** A sleep obeys the laws *)

Section sleep.
Implicit Types (k : Sleep.SleepKernel) (r : Reactor) (t : service) (x y d w raw : Z).

#[global] Instance sleep_future : Future Sleep.SleepKernel := {|
  output := unit;
  readings := Z;
  poll k r w raw :=
    let '(res, k', r') := Sleep.poll k r w raw in
    (match res with
     | Sleep.Ready => PReady tt
     | Sleep.PendingPoll => PPending
     | Sleep.Panicked => PPanic
     end, k', r')
|}.

Definition rid_list (o : option Z) : list Z := match o with Some x => [x] | None => [] end.

Lemma elem_of_rid_list x o : x ∈ rid_list o ↔ o = Some x.
Proof. destruct o; simpl; [rewrite list_elem_of_singleton|rewrite elem_of_nil]; naive_solver. Qed.

Lemma claimed_not_io t x : claimed t x → ios t !! x = None.
Proof. intros (wk & d & w & Hh). by eapply held_not_io. Qed.

Lemma claimed_kept t t' l l' x : others_kept t t' l l' → claimed t x → x ∉ l → claimed t' x ∧ x ∉ l'.
Proof. intros Hk (wk & d & w & Hh) Hx. destruct (Hk _ _ _ _ Hh Hx). split; [by exists wk, d, w|done]. Qed.

(** [poll_spec] in the terms of the interface. *)
Lemma sleep_poll_ok k r t w raw :
  simulates r t → service_ok t → is_u64 (Sleep.deadline k) → is_u64 raw →
  timers_ok t (rid_list (Sleep.rid k)) →
  let '(res, k', r') := Sleep.poll k r w raw in
  Sleep.deadline k' = Sleep.deadline k ∧
  ∃ t', simulates r' t' ∧ service_ok t' ∧ clock t' = clock t ∧
    timers_ok t' (rid_list (Sleep.rid k')) ∧
    others_kept t t' (rid_list (Sleep.rid k)) (rid_list (Sleep.rid k')) ∧
    match res with
    | Sleep.Ready => (Sleep.deadline k ≤ Sleep.poll_now r raw)%Z
    | Sleep.PendingPoll => (Sleep.poll_now r raw < Sleep.deadline k)%Z ∧
        ∃ x, Sleep.rid k' = Some x ∧ timers t' !! x = Some (Sleep.deadline k, w)
    | Sleep.Panicked => issued t' = u64_max
    end.
Proof.
  intros Hs Hok Hd Hraw [_ Hcl]. rewrite Forall_forall in Hcl.
  assert (Hio : ∀ x, Sleep.rid k = Some x → ios t !! x = None).
  { intros x Hx. by apply claimed_not_io, Hcl, elem_of_rid_list. }
  pose proof (poll_spec k r t w raw Hs Hok Hraw Hd Hio) as Hp.
  destruct (Sleep.poll k r w raw) as [[res k'] r'].
  destruct Hp as (Hd' & t' & Hs' & Hok' & Hk & Hc & Hother & _ & Hres).
  split; [done|]. exists t'. split; [done|]. split; [done|]. split; [done|]. split; [|split].
  - destruct res; [destruct Hres as [_ ->]|destruct Hres as (_ & x & -> & Hh)|destruct Hres as (_ & -> & _)];
      simpl; split; repeat constructor; try apply not_elem_of_nil.
    by exists [], (Sleep.deadline k), w.
  - intros wk y d w' Hh Hy. rewrite elem_of_rid_list in Hy |- *. split; [by apply Hk|by eapply Hother].
  - destruct res; [by destruct Hres| |by destruct Hres as (_ & _ & _ & ?)].
    destruct Hres as (Hlt & x & Hx & Hh). split; [done|]. exists x. split; [done|].
    destruct (Hh []) as (_ & _ & _ & [?|[_ ?%not_elem_of_nil]]); done.
Qed.

#[global] Program Instance sleep_laws : FutureLaws Sleep.SleepKernel := {|
  holds k := rid_list (Sleep.rid k);
  fut_ok k := is_u64 (Sleep.deadline k);
  readings_ok := is_u64;
|}.
Next Obligation.
  intros k r t w raw Hs Hok Hd Hraw Hcl. simpl.
  pose proof (sleep_poll_ok k r t w raw Hs Hok Hd Hraw Hcl) as Hp.
  destruct (Sleep.poll k r w raw) as [[res k'] r']. destruct Hp as (-> & t' & Hp).
  split; [done|]. exists t'. naive_solver.
Qed.

End sleep.

(** ** A timeout obeys them too *)

Section timeout.
Context {F : Type} `{FutureLaws F}.
Implicit Types (to : Timeout F) (r : Reactor) (t : service) (w : Z) (rs : readings * Z).

Definition to_holds to : list Z := rid_list (Sleep.rid (sleep to)) ++ holds (future to).

Lemma timers_ok_app t l l' :
  timers_ok t (l ++ l') ↔ timers_ok t l ∧ timers_ok t l' ∧ ∀ x, x ∈ l → x ∉ l'.
Proof. unfold timers_ok. rewrite NoDup_app, Forall_app. naive_solver. Qed.

(** What one poll of a part does to the timers of the others. *)
Lemma timers_ok_kept t t' l l' m :
  others_kept t t' l l' → timers_ok t m → (∀ x, x ∈ m → x ∉ l) →
  timers_ok t' m ∧ ∀ x, x ∈ m → x ∉ l'.
Proof.
  intros Hk [Hnd Hcl] Hdisj. rewrite Forall_forall in Hcl.
  assert (Hx : ∀ x, x ∈ m → claimed t' x ∧ x ∉ l').
  { intros x Hx. eapply claimed_kept; [done|by apply Hcl|by apply Hdisj]. }
  split; [split; [done|apply Forall_forall]|]; intros x Hm; by apply Hx.
Qed.

(** One poll of a timeout, with what the outcome means. *)
Lemma timeout_poll_spec to r t w rs :
  simulates r t → service_ok t → fut_ok (future to) → is_u64 (Sleep.deadline (sleep to)) →
  readings_ok (fst rs) → is_u64 (snd rs) → timers_ok t (to_holds to) →
  let '(res, to', r') := poll to r w rs in
  let '(inner, _, r1) := poll (future to) r w (fst rs) in
  fut_ok (future to') ∧ Sleep.deadline (sleep to') = Sleep.deadline (sleep to) ∧
  ∃ t', simulates r' t' ∧ service_ok t' ∧ clock t' = clock t ∧
    timers_ok t' (to_holds to') ∧ others_kept t t' (to_holds to) (to_holds to') ∧
    match inner with
    | PReady o => res = PReady (inl o)
    | PPanic => res = PPanic
    | PPending =>
        match res with
        | PReady a => a = inr elapsed ∧ (Sleep.deadline (sleep to) ≤ Sleep.poll_now r1 (snd rs))%Z
        | PPending => (Sleep.poll_now r1 (snd rs) < Sleep.deadline (sleep to))%Z ∧
            ∃ x, x ∈ to_holds to' ∧ timers t' !! x = Some (Sleep.deadline (sleep to), w)
        | PPanic => issued t' = u64_max
        end
    end.
Proof.
  intros Hs Hok Hf Hd Hrs Hraw Hto. apply timers_ok_app in Hto as (Hsl & Hfu & Hdisj).
  simpl. unfold poll_timeout. pose proof (poll_ok (future to) r t w (fst rs) Hs Hok Hf Hrs Hfu) as Hp.
  destruct (poll (future to) r w (fst rs)) as [[inner f1] r1].
  destruct Hp as (Hf1 & t1 & Hs1 & Hok1 & Hc1 & Hfu1 & Hk1).
  destruct (timers_ok_kept _ _ _ _ _ Hk1 Hsl Hdisj) as [Hsl1 Hdisj1].
  assert (Hkept : others_kept t t1 (to_holds to) (to_holds (mkTimeout f1 (sleep to)))).
  { intros wk y d v Hh. unfold to_holds. rewrite !elem_of_app. intros Hy.
    destruct (Hk1 wk y d v Hh) as [? ?]; [naive_solver|]. naive_solver. }
  destruct inner as [o| |]; [| |]; cycle 1.
  2, 3: simpl; split; [done|]; split; [done|]; exists t1; unfold to_holds at 1; simpl;
    rewrite timers_ok_app; split_and!; try done; naive_solver.
  pose proof (sleep_poll_ok (sleep to) r1 t1 w (snd rs) Hs1 Hok1 Hd Hraw Hsl1) as Hp2.
  unfold decide_sleep. destruct (Sleep.poll (sleep to) r1 w (snd rs)) as [[res k2] r2].
  destruct Hp2 as (Hd2 & t2 & Hs2 & Hok2 & Hc2 & Hsl2 & Hk2 & Hres).
  assert (Hdisj' : ∀ x, x ∈ holds f1 → x ∉ rid_list (Sleep.rid (sleep to))).
  { intros x Hx Hx'. by apply (Hdisj1 x). }
  destruct (timers_ok_kept _ _ _ _ _ Hk2 Hfu1 Hdisj') as [Hfu2 Hdisj2].
  assert (Hall : timers_ok t2 (to_holds (mkTimeout f1 k2)) ∧
                 others_kept t t2 (to_holds to) (to_holds (mkTimeout f1 k2))).
  { split; [unfold to_holds; rewrite timers_ok_app; naive_solver|].
    intros wk y d v Hh Hy. destruct (Hkept wk y d v Hh Hy) as [Hh1 Hy1].
    unfold to_holds in *. rewrite !elem_of_app in *. simpl in *.
    destruct (Hk2 wk y d v Hh1) as [? ?]; naive_solver. }
  destruct Hall as [Hall1 Hall2].
  destruct res; simpl; (split; [done|]); (split; [done|]); exists t2;
    (split; [done|]); (split; [done|]); (split; [congruence|]); (split; [done|]); (split; [done|]).
  - done.
  - destruct Hres as (Hlt & x & Hx & Ht). split; [done|]. exists x. split; [|done].
    unfold to_holds. rewrite elem_of_app, elem_of_rid_list. by left.
  - done.
Qed.

#[global] Program Instance timeout_laws : FutureLaws (Timeout F) := {|
  holds := to_holds;
  fut_ok to := fut_ok (future to) ∧ is_u64 (Sleep.deadline (sleep to));
  readings_ok rs := readings_ok (fst rs) ∧ is_u64 (snd rs);
|}.
Next Obligation.
  intros to r t w rs Hs Hok [Hf Hd] [Hrs Hraw] Hto.
  pose proof (timeout_poll_spec to r t w rs Hs Hok Hf Hd Hrs Hraw Hto) as Hp.
  destruct (poll to r w rs) as [[res to'] r'].
  destruct (poll (future to) r w (fst rs)) as [[inner f1] r1].
  destruct Hp as (Hf' & Hd' & t' & ? & ? & ? & ? & ? & _). rewrite Hd'.
  split; [done|]. by exists t'.
Qed.

End timeout.

(** C24. A timeout suspends only when both of its parts do, and then the reactor holds
    a live timer for its deadline with the waker of this poll; it gives the value of
    the future as soon as that is ready, even when the deadline has passed as well;
    it elapses only when the future is pending and the clock has reached the
    deadline; it panics only when the future does, or the resource ids are used up;
    and it leaves the timers of everybody else alone.  The future is any that obeys
    the laws, a timeout included. *)
Theorem timeout_races {F} `{FutureLaws F} (to : Timeout F) r t w rs :
  simulates r t → service_ok t → fut_ok to → readings_ok rs → timers_ok t (holds to) →
  let '(res, to', r') := poll to r w rs in
  let '(inner, _, r1) := poll (future to) r w (fst rs) in
  let now := Sleep.poll_now r1 (snd rs) in
  let d := Sleep.deadline (sleep to) in
  ∃ t', simulates r' t' ∧ others_kept t t' (holds to) (holds to') ∧
    match res with
    | PReady (inl o) => inner = PReady o
    | PReady (inr _) => inner = PPending ∧ (d ≤ now)%Z
    | PPending => inner = PPending ∧ (now < d)%Z ∧ ∃ x, x ∈ holds to' ∧ timers t' !! x = Some (d, w)
    | PPanic => inner = PPanic ∨ inner = PPending ∧ issued t' = u64_max
    end.
Proof.
  intros Hs Hok [Hf Hd] [Hrs Hraw] Hto.
  pose proof (timeout_poll_spec to r t w rs Hs Hok Hf Hd Hrs Hraw Hto) as Hp.
  destruct (poll to r w rs) as [[res to'] r'].
  destruct (poll (future to) r w (fst rs)) as [[inner f1] r1].
  destruct Hp as (_ & _ & t' & Hs' & _ & _ & _ & Hk & Hres). exists t'. split; [done|]. split; [done|].
  destruct inner as [o| |]; [by subst|..|subst; by left].
  destruct res as [[o|e]| |]; naive_solver.
Qed.

(** A timeout to 80 around a timeout to 50 around a sleep to 60, polled at time 10:
    three timers are armed; at time 55 the inner timeout elapses, and the outer one
    gives that as its value. *)
Definition nested : Timeout (Timeout Sleep.SleepKernel) :=
  Timeout.new 0 80 (Timeout.new 0 50 (Sleep.new 60)).

Definition nested_at (c : Z) : readings (F := Timeout (Timeout Sleep.SleepKernel)) := (c, c, c).

Lemma timeout_races_witness :
  ∃ to' r' t' x, poll nested Reactor.new 7%Z (nested_at 10) = (PPending, to', r') ∧
    timers t' !! x = Some (80, 7)%Z ∧
    (poll to' r' 7%Z (nested_at 55)).1.1 = PReady (inl (inr elapsed)).
Proof.
  pose proof (timeout_races nested Reactor.new service_init 7 (nested_at 10)) as H.
  destruct (poll nested Reactor.new 7%Z (nested_at 10)) as [[res to'] r'] eqn:Hp.
  destruct (poll (future nested) Reactor.new 7%Z (fst (nested_at 10))) as [[inner f1] r1] eqn:Hq.
  destruct H as (t' & _ & _ & Hres).
  - apply simulates_new.
  - apply service_ok_init.
  - vm_compute. split_and!; done.
  - vm_compute. split_and!; done.
  - split; constructor.
  - vm_compute in Hp. injection Hp as <- <- <-. destruct Hres as (_ & _ & x & _ & Hx).
    eexists _, _, t', x. split; [done|]. split; [exact Hx|]. vm_compute. reflexivity.
Defined.
