(* ===== verification/Waiter.v ===== *)
(** * Waiter: the permit counter and FIFO queue under the synchronization primitives

    The kernel of [lion-utility/src/sync/waiter] ([kernel.rs], with the log of
    [proof.rs] and the coupling of [coupling.rs]): a permit count, the queue of
    parked waker ids, and the ghost log of what happened.  [well_formed] is the
    source's invariant; the lemmas give each step's effect on it. *)

From S2P Require Import Prelude UtilityLog.
Import UtilityLog.

Module Waiter.

(** ** The log ([method.rs], [proof.rs], [coupling.rs]) *)

Inductive SyncMethod := Wait | Signal.

Definition SyncLog := list (UtilityEvent SyncMethod unit).
Implicit Types (l : SyncLog) (id w notifier wid : Z).

Definition ev_pass_waker w : UtilityEvent SyncMethod unit := Outbound (PassWaker w).
Definition ev_wake_waker w : UtilityEvent SyncMethod unit := Outbound (WakeWaker w).
Definition ev_cancel_waker w : UtilityEvent SyncMethod unit := Outbound (CancelWaker w).

Inductive WaitOutcome := WReady | WPark.

Definition wait_segment w (out : WaitOutcome) : SyncLog :=
  match out with
  | WReady => call w Wait [] (Finished tt)
  | WPark => call w Wait [ev_pass_waker w] Pending
  end.

Inductive SignalOutcome := SWoke (waiter : Z) | SStored.

Definition signal_segment notifier (out : SignalOutcome) : SyncLog :=
  match out with
  | SWoke waiter => call notifier Signal [ev_wake_waker waiter] (Ongoing tt)
  | SStored => call notifier Signal [] (Ongoing tt)
  end.

Fixpoint remove_first (s : list Z) (x : Z) : list Z :=
  match s with
  | [] => []
  | y :: s' => if (y =? x)%Z then s' else y :: remove_first s' x
  end.

(** The parked ids that a log implies. *)
Definition waiters_step (prev : list Z) (e : UtilityEvent SyncMethod unit) : list Z :=
  match e with
  | Outbound (PassWaker w) => prev ++ [w]
  | Outbound (WakeWaker w) => remove_first prev w
  | Outbound (CancelWaker w) => remove_first prev w
  | _ => prev
  end.
Definition waiters l : list Z := foldl waiters_step [] l.

(** The net number of permits that a log implies. *)
Definition perm_delta (e : UtilityEvent SyncMethod unit) : Z :=
  if is_tick_end_ongoing e then 1
  else if is_wake_waker e then -1
  else if is_tick_end_finished e then -1
  else 0.
Definition available_permits l : Z := foldl (λ n e, n + perm_delta e)%Z 0%Z l.

(** ** The kernel ([kernel.rs]) *)

Inductive WaitAction := Ready | Park (id : Z).
Inductive SignalAction := Woke (id : Z) | Stored.

Record WaiterKernel := mkKernel {
  permit : Z;
  queue : list Z;
  log : SyncLog;
  init : Z;
}.
Implicit Types (k : WaiterKernel).

Definition well_formed k : Prop :=
  utility_inv (log k) ∧ queue k = waiters (log k) ∧
  permit k = (init k + available_permits (log k))%Z.

(** The loop of [find_first], from index [i]. *)
Fixpoint find_first_from (q : list Z) id (i : nat) : option nat :=
  match q with
  | [] => None
  | x :: q' => if (x =? id)%Z then Some i else find_first_from q' id (i + 1)
  end.
Definition find_first (q : list Z) id : option nat := find_first_from q id 0.

Definition new : WaiterKernel := mkKernel 0 [] [] 0.
Definition with_permits (p : Z) : WaiterKernel := mkKernel p [] [] p.

Definition try_acquire_step k : bool * WaiterKernel :=
  if (0 <? permit k)%Z
  then (true, mkKernel (permit k - 1) (queue k) (log k ++ wait_segment 0 WReady) (init k))
  else (false, k).

Definition wait_step k id : WaitAction * WaiterKernel :=
  if (0 <? permit k)%Z
  then (Ready, mkKernel (permit k - 1) (queue k) (log k ++ wait_segment id WReady) (init k))
  else (Park id, mkKernel (permit k) (queue k ++ [id]) (log k ++ wait_segment id WPark) (init k)).

(** [permit + 1] wraps in a release build; the source requires that it does not. *)
Definition signal_step k notifier : SignalAction * WaiterKernel :=
  match queue k with
  | head :: queue' =>
      (Woke head,
       mkKernel (permit k) queue' (log k ++ signal_segment notifier (SWoke head)) (init k))
  | [] =>
      (Stored,
       mkKernel (wrap64 (permit k + 1)) [] (log k ++ signal_segment notifier SStored) (init k))
  end.

Definition remove_step k id : bool * WaiterKernel :=
  match find_first (queue k) id with
  | Some i =>
      (true, mkKernel (permit k) (delete i (queue k)) (log k ++ [ev_cancel_waker id]) (init k))
  | None => (false, k)
  end.

(** ** Runs of the kernel *)

Inductive op := TryAcquire | WaitOp (id : Z) | SignalOp (notifier : Z) | RemoveOp (id : Z).

Definition run_op k (o : op) : WaiterKernel :=
  match o with
  | TryAcquire => snd (try_acquire_step k)
  | WaitOp id => snd (wait_step k id)
  | SignalOp n => snd (signal_step k n)
  | RemoveOp id => snd (remove_step k id)
  end.
Definition run k (os : list op) : WaiterKernel := foldl run_op k os.

(** Who parked, who was woken, who withdrew, in order. *)
Definition parked l : list Z := omap (λ e, match e with Outbound (PassWaker w) => Some w | _ => None end) l.
Definition woken l : list Z := omap (λ e, match e with Outbound (WakeWaker w) => Some w | _ => None end) l.
Definition cancelled l : list Z := omap (λ e, match e with Outbound (CancelWaker w) => Some w | _ => None end) l.

(** The permits that signals could have stored. *)
Definition count_signals (os : list op) : Z :=
  Z.of_nat (length (filter (λ o, match o with SignalOp _ => true | _ => false end = true) os)).

(** ** [remove_first] and [find_first] *)

Lemma find_first_from_spec q id i :
  match find_first_from q id i with
  | Some j => ∃ n, j = i + n ∧ q !! n = Some id ∧ delete n q = remove_first q id
  | None => id ∉ q
  end.
Proof.
  revert i. induction q as [|x q IH]; intros i; simpl; [apply not_elem_of_nil|].
  destruct (Z.eqb_spec x id) as [->|Hne]; [by exists 0; rewrite Nat.add_0_r|].
  specialize (IH (i + 1)). destruct (find_first_from q id (i + 1)) as [j|].
  - destruct IH as (n & -> & Hn & Hd). exists (S n). simpl. split; [lia|]. by rewrite Hd.
  - intros [->|H]%elem_of_cons; by auto.
Qed.

Lemma find_first_Some q id i :
  find_first q id = Some i → q !! i = Some id ∧ delete i q = remove_first q id.
Proof.
  intros H. pose proof (find_first_from_spec q id 0) as Hs. unfold find_first in H.
  rewrite H in Hs. by destruct Hs as (n & -> & ?).
Qed.

Lemma find_first_None q id : find_first q id = None → id ∉ q.
Proof. intros H. pose proof (find_first_from_spec q id 0) as Hs. unfold find_first in H. by rewrite H in Hs. Qed.

Lemma remove_first_notin q id : id ∉ q → remove_first q id = q.
Proof.
  induction q as [|x q IH]; [done|]. intros [Hne Hq]%not_elem_of_cons. simpl.
  destruct (Z.eqb_spec x id); [done|]. by rewrite IH.
Qed.

Lemma elem_of_remove_first q id x : x ∈ remove_first q id → x ∈ q.
Proof.
  induction q as [|y q IH]; simpl; [done|]. case_cmp; rewrite elem_of_cons; [by right|].
  rewrite elem_of_cons. intros [->|H]; [by left|right; by apply IH].
Qed.

(** With distinct elements, removing the first occurrence removes every one. *)
Lemma remove_first_filter q id : NoDup q → remove_first q id = filter (λ x, x ≠ id) q.
Proof.
  induction 1 as [|x q Hx Hq IH]; [done|]. simpl. rewrite filter_cons.
  destruct (Z.eqb_spec x id) as [->|Hne].
  - rewrite decide_False by naive_solver. rewrite <- IH. symmetry. by apply remove_first_notin.
  - rewrite decide_True by done. by rewrite IH.
Qed.

(** ** The log of a step *)

Arguments wait_segment : simpl never.
Arguments signal_segment : simpl never.

Lemma waiters_app l l' : waiters (l ++ l') = foldl waiters_step (waiters l) l'.
Proof. apply foldl_app. Qed.

Lemma available_app l l' :
  available_permits (l ++ l') = foldl (λ n e, n + perm_delta e)%Z (available_permits l) l'.
Proof. apply foldl_app. Qed.

Lemma waiters_wait l w out :
  waiters (l ++ wait_segment w out) =
  match out with WReady => waiters l | WPark => waiters l ++ [w] end.
Proof. rewrite waiters_app. by destruct out. Qed.

Lemma waiters_signal l w out :
  waiters (l ++ signal_segment w out) =
  match out with SWoke x => remove_first (waiters l) x | SStored => waiters l end.
Proof. rewrite waiters_app. by destruct out. Qed.

Lemma waiters_cancel l w : waiters (l ++ [ev_cancel_waker w]) = remove_first (waiters l) w.
Proof. by rewrite waiters_app. Qed.

Lemma available_wait l w out :
  available_permits (l ++ wait_segment w out) =
  (available_permits l - match out with WReady => 1 | WPark => 0 end)%Z.
Proof. rewrite available_app. destruct out; cbv -[Z.add Z.sub available_permits]; lia. Qed.

Lemma available_signal l w out :
  available_permits (l ++ signal_segment w out) =
  (available_permits l + match out with SWoke _ => 0 | SStored => 1 end)%Z.
Proof. rewrite available_app. destruct out; cbv -[Z.add Z.sub available_permits]; lia. Qed.

Lemma available_cancel l w : available_permits (l ++ [ev_cancel_waker w]) = available_permits l.
Proof. rewrite available_app. cbv -[Z.add Z.sub available_permits]. lia. Qed.

Lemma wait_preserves l w out : utility_inv l → utility_inv (l ++ wait_segment w out).
Proof.
  intros Hl. destruct out; apply call_preserves; try done.
  - by repeat constructor.
  - intros _. left. exists (length l + 1). simpl. split; [lia|].
    rewrite lookup_app_r by lia. by replace (_ - _) with 1 by lia.
  - intros j e rt Hj. by apply list_lookup_singleton_Some in Hj as [_ <-].
Qed.

Lemma signal_preserves l w out : utility_inv l → utility_inv (l ++ signal_segment w out).
Proof.
  intros Hl. destruct out; apply call_preserves; try done.
  - by repeat constructor.
  - intros j e rt Hj. by apply list_lookup_singleton_Some in Hj as [_ <-].
Qed.

Lemma cancel_preserves l w : utility_inv l → utility_inv (l ++ [ev_cancel_waker w]).
Proof. intros Hl. by apply utility_inv_push. Qed.

(** ** Every step keeps the kernel well formed *)

(** Beyond the source's invariant: a permit is stored only when nobody waits. *)
Definition idle_permit k : Prop := (0 < permit k)%Z → queue k = [].

Definition kernel_inv k : Prop := well_formed k ∧ is_u64 (permit k) ∧ idle_permit k.

Lemma with_permits_inv p : is_u64 p → kernel_inv (with_permits p).
Proof.
  intros Hp. split; [|by split]. split; [apply utility_inv_nil|].
  split; [done|]. unfold available_permits. simpl. lia.
Qed.

Ltac kernel_step :=
  unfold kernel_inv, well_formed, idle_permit in *; simpl;
  rewrite ?waiters_wait, ?waiters_signal, ?waiters_cancel,
    ?available_wait, ?available_signal, ?available_cancel;
  split_and!; eauto using wait_preserves, signal_preserves, cancel_preserves; try u64.

Lemma try_acquire_inv k : kernel_inv k → kernel_inv (snd (try_acquire_step k)).
Proof.
  intros Hk. unfold try_acquire_step. case_cmp; simpl; [|done].
  destruct Hk as ((Hu & Hq & Hp) & Hb & Hi). kernel_step.
Qed.

Lemma wait_inv k id : kernel_inv k → kernel_inv (snd (wait_step k id)).
Proof.
  intros ((Hu & Hq & Hp) & Hb & Hi). unfold wait_step. case_cmp; simpl; kernel_step.
  by rewrite Hq.
Qed.

Lemma signal_inv k n :
  kernel_inv k → (permit k < u64_max)%Z → kernel_inv (snd (signal_step k n)).
Proof.
  intros ((Hu & Hq & Hp) & Hb & Hi) Hmax. unfold signal_step.
  destruct (queue k) as [|hd q'] eqn:Eq; simpl.
  - rewrite wrap64_id by u64. kernel_step.
  - kernel_step.
    + rewrite <- Hq. simpl. by rewrite Z.eqb_refl.
    + intros Hpos. rewrite Eq in Hi. by specialize (Hi Hpos).
Qed.

Lemma remove_inv k id : kernel_inv k → kernel_inv (snd (remove_step k id)).
Proof.
  intros Hk. unfold remove_step.
  destruct (find_first (queue k) id) as [i|] eqn:Ef; simpl; [|done].
  destruct Hk as ((Hu & Hq & Hp) & Hb & Hi). apply find_first_Some in Ef as [Hl Hd]. kernel_step.
  - by rewrite Hd, Hq.
  - intros Hpos. specialize (Hi Hpos). by rewrite Hi in Hl.
Qed.

(** ** The functional behaviour of the steps *)

Lemma remove_step_spec k id b k' :
  remove_step k id = (b, k') →
  permit k' = permit k ∧ queue k' = remove_first (queue k) id ∧ (b = true ↔ id ∈ queue k).
Proof.
  unfold remove_step. destruct (find_first (queue k) id) as [i|] eqn:Ef; intros [= <- <-]; simpl.
  - apply find_first_Some in Ef as [Hl ->]. split_and!; [done..|].
    split; [|done]. intros _. by eapply list_elem_of_lookup_2.
  - apply find_first_None in Ef. by rewrite remove_first_notin.
Qed.
End Waiter.
