(* ===== verification/WaiterSpec.v ===== *)
(** * WaiterSpec: what the waiter kernel promises

    Every run of the kernel keeps the source's invariant, and its queue is fair:
    wakers are woken in the order in which they parked. *)

From S2P Require Import Prelude UtilityLog Waiter Framework.
Import UtilityLog Waiter.

Section spec.
Implicit Types (k : WaiterKernel) (os : list op) (l : SyncLog).

(** ** Permits *)

Definition op_permits (o : op) : Z := match o with SignalOp _ => 1 | _ => 0 end.

Lemma count_signals_cons o os : count_signals (o :: os) = (op_permits o + count_signals os)%Z.
Proof. unfold count_signals. destruct o; rewrite filter_cons; simpl; lia. Qed.

Lemma run_op_inv k o :
  kernel_inv k → (permit k + op_permits o ≤ u64_max)%Z →
  kernel_inv (run_op k o) ∧ (permit (run_op k o) ≤ permit k + op_permits o)%Z.
Proof.
  intros Hk Hmax. pose proof Hk as (_ & Hb & _). destruct o; simpl in *.
  - split; [by apply try_acquire_inv|]. unfold try_acquire_step. case_cmp; simpl; lia.
  - split; [by apply wait_inv|]. unfold wait_step. case_cmp; simpl; lia.
  - split; [apply signal_inv; [done|lia]|]. unfold signal_step.
    destruct (queue k); simpl; [rewrite wrap64_id by u64|]; lia.
  - split; [by apply remove_inv|]. unfold remove_step. destruct (find_first _ _); simpl; lia.
Qed.

Lemma waiter_run_inv k os :
  kernel_inv k → (permit k + count_signals os ≤ u64_max)%Z → kernel_inv (run k os).
Proof.
  revert k. induction os as [|o os IH]; intros k Hk Hmax; [done|].
  rewrite count_signals_cons in Hmax. assert (0 ≤ count_signals os)%Z by (unfold count_signals; lia).
  destruct (run_op_inv k o) as [Hk' Hp]; [done|lia|]. apply IH; [done|lia].
Qed.

(** ** The order of wake-ups *)

(** What parked and did not withdraw has been woken, or waits, in order. *)
Definition fair (l : SyncLog) (q : list Z) : Prop :=
  woken l ++ q = filter (λ w, w ∉ cancelled l) (parked l).

Lemma parked_app l l' : parked (l ++ l') = parked l ++ parked l'.
Proof. apply omap_app. Qed.
Lemma woken_app l l' : woken (l ++ l') = woken l ++ woken l'.
Proof. apply omap_app. Qed.
Lemma cancelled_app l l' : cancelled (l ++ l') = cancelled l ++ cancelled l'.
Proof. apply omap_app. Qed.

(** Parking a fresh id. *)
Lemma fair_park l q id :
  fair l q → id ∉ cancelled l → fair (l ++ wait_segment id WPark) (q ++ [id]).
Proof.
  unfold fair. intros Hf Hid. rewrite parked_app, woken_app, cancelled_app. simpl.
  rewrite !app_nil_r, filter_app, <- Hf, filter_cons, decide_True by done.
  by rewrite (assoc_L (++)).
Qed.

(** Withdrawing an id that waits. *)
Lemma fair_cancel l q id :
  fair l q → NoDup (parked l) → id ∈ q → fair (l ++ [ev_cancel_waker id]) (remove_first q id).
Proof.
  unfold fair. intros Hf Hnd Hid. rewrite parked_app, woken_app, cancelled_app. simpl.
  rewrite !app_nil_r.
  assert (Hnd' : NoDup (woken l ++ q)) by (rewrite Hf; by apply NoDup_filter).
  apply NoDup_app in Hnd' as (_ & Hdis & Hq).
  trans (filter (λ w, w ≠ id) (woken l ++ q)).
  - rewrite filter_app, remove_first_filter by done. f_equal.
    assert (id ∉ woken l) as Hw by (intros H; by apply (Hdis id)).
    clear -Hw. induction (woken l) as [|x ws IH]; [done|]. apply not_elem_of_cons in Hw as [? ?].
    rewrite filter_cons, decide_True by done. by rewrite <- IH.
  - rewrite Hf, list_filter_filter. apply list_filter_iff. set_solver.
Qed.

Lemma cancelled_parked k o :
  (∀ w, w ∈ cancelled (log k) → w ∈ parked (log k)) →
  (∀ w, w ∈ queue k → w ∈ parked (log k)) →
  (∀ w, w ∈ cancelled (log (run_op k o)) → w ∈ parked (log (run_op k o))) ∧
  (∀ w, w ∈ queue (run_op k o) → w ∈ parked (log (run_op k o))).
Proof.
  intros Hc Hq. destruct o; simpl; unfold try_acquire_step, wait_step, signal_step, remove_step.
  - case_cmp; simpl; [|by split]. rewrite parked_app, cancelled_app. simpl. by rewrite !app_nil_r.
  - case_cmp; simpl; rewrite parked_app, cancelled_app; simpl; rewrite !app_nil_r; [by split|].
    split; set_solver.
  - destruct (queue k) as [|hd q'] eqn:Eq; simpl; rewrite parked_app, cancelled_app; simpl;
      rewrite !app_nil_r; split; set_solver.
  - destruct (find_first (queue k) id) as [i|] eqn:Ef; simpl; [|by split].
    apply find_first_Some in Ef as [Hl ->]. rewrite parked_app, cancelled_app. simpl. rewrite app_nil_r.
    apply list_elem_of_lookup_2 in Hl. split; [set_solver|]. intros w Hw. apply Hq.
    by eapply elem_of_remove_first.
Qed.

Lemma fair_run_op k o :
  fair (log k) (queue k) → NoDup (parked (log (run_op k o))) →
  (∀ w, w ∈ cancelled (log k) → w ∈ parked (log k)) →
  fair (log (run_op k o)) (queue (run_op k o)).
Proof.
  intros Hf. destruct o; simpl; unfold try_acquire_step, wait_step, signal_step, remove_step.
  - case_cmp; simpl; [|done]. intros _ _. revert Hf. unfold fair.
    by rewrite parked_app, woken_app, cancelled_app, !app_nil_r.
  - case_cmp; simpl.
    + intros _ _. revert Hf. unfold fair. by rewrite parked_app, woken_app, cancelled_app, !app_nil_r.
    + rewrite parked_app. intros (_ & Hnd & _)%NoDup_app Hc. apply fair_park; [done|].
      intros Hid%Hc. apply (Hnd id); [done|]. simpl. set_solver.
  - destruct (queue k) as [|hd q'] eqn:Eq; simpl; intros _ _; revert Hf; unfold fair;
      rewrite parked_app, woken_app, cancelled_app, !app_nil_r; [done|].
    simpl. by rewrite <- (assoc_L (++)).
  - destruct (find_first (queue k) id) as [i|] eqn:Ef; simpl; [|done].
    apply find_first_Some in Ef as [Hl ->]. rewrite parked_app, app_nil_r. intros Hnd _.
    apply fair_cancel; [done..|]. by eapply list_elem_of_lookup_2.
Qed.

Lemma parked_run_op k o : parked (log k) `prefix_of` parked (log (run_op k o)).
Proof.
  destruct o; simpl; unfold try_acquire_step, wait_step, signal_step, remove_step;
    repeat step_match; simpl; rewrite ?parked_app; by (apply prefix_app_r || done).
Qed.

Lemma parked_run k os : parked (log k) `prefix_of` parked (log (run k os)).
Proof.
  revert k. induction os as [|o os IH]; intros k; [done|].
  etrans; [apply (parked_run_op k o)|apply IH].
Qed.

Lemma fair_run k os :
  fair (log k) (queue k) →
  (∀ w, w ∈ cancelled (log k) → w ∈ parked (log k)) →
  (∀ w, w ∈ queue k → w ∈ parked (log k)) →
  NoDup (parked (log (run k os))) → fair (log (run k os)) (queue (run k os)).
Proof.
  revert k. induction os as [|o os IH]; intros k Hf Hc Hq Hnd; [done|]. simpl in *.
  destruct (cancelled_parked k o Hc Hq) as [Hc' Hq'].
  apply IH; [|done..]. apply fair_run_op; [done| |done].
  destruct (parked_run (run_op k o) os) as [z Hz]. rewrite Hz in Hnd. by apply NoDup_app in Hnd as [? _].
Qed.

End spec.

(** Every run of the waiter kernel keeps the source's invariant: the log is well formed (a
    poll that suspends has passed its waker), the queue is the sequence of parked ids that the log
    implies, the permit counter is the initial count plus what the log stored and consumed; and a
    permit is only ever stored while nobody waits. *)
Theorem waiter_kernel_inv (p : Z) (os : list op) :
  is_u64 p → (p + count_signals os ≤ u64_max)%Z → kernel_inv (run (with_permits p) os).
Proof. intros Hp Hmax. apply waiter_run_inv; [by apply with_permits_inv|done]. Qed.

Lemma waiter_kernel_inv_witness :
  kernel_inv (run (with_permits 1) [WaitOp 0; WaitOp 1; WaitOp 2; RemoveOp 1; SignalOp 9; TryAcquire]).
Proof. apply waiter_kernel_inv; [u64|vm_compute; discriminate]. Defined.

(** The waiter queue is first-in first-out: when parked ids are distinct, the ids woken so far
    followed by those still queued are exactly the ids that parked and did not withdraw, in the
    order in which they parked. *)
Theorem waiter_kernel_fifo (p : Z) (os : list op) :
  let k := run (with_permits p) os in
  NoDup (parked (log k)) →
  woken (log k) ++ queue k = filter (λ w, w ∉ cancelled (log k)) (parked (log k)).
Proof. intros k Hnd. by apply fair_run; [| |set_solver|]. Qed.

Lemma waiter_kernel_fifo_witness :
  let k := run (with_permits 1) [WaitOp 0; WaitOp 1; WaitOp 2; WaitOp 3; RemoveOp 2; SignalOp 9] in
  woken (log k) ++ queue k = [1; 3]%Z.
Proof.
  assert (H := waiter_kernel_fifo 1
    [WaitOp 0; WaitOp 1; WaitOp 2; WaitOp 3; RemoveOp 2; SignalOp 9]).
  simpl in H. etrans; [apply H|]; [|vm_compute; reflexivity].
  apply (bool_decide_unpack _). vm_compute. exact I.
Defined.

(** ** The kernel as a module ([liveness.rs], [generic/contract.rs])

    The source states the contract of the kernel, a waker that was passed is woken, under an
    environment that assumes just this, [waiter_wake_env].  [kernel_rounds] is the module whose rounds
    contain a signal; there the contract holds of the kernel itself, as long as the waiter does
    not withdraw. *)

Module WaiterContract.
Import Framework.

Definition acceptance_fn (l : list (UtilityEvent SyncMethod unit)) (w : Z) : Prop := ∃ i, l !! i = Some (ev_pass_waker w).

Definition new_wake_waker_since (l_start l : list (UtilityEvent SyncMethod unit)) (w : Z) : Prop :=
  ∃ j, length l_start ≤ j ∧ l !! j = Some (ev_wake_waker w).

Definition passwaker_to_wakewaker_contract (l_start : SyncLog) (utility_assumption : SyncLog → Z → Prop) :
    AsyncContract SyncLog Z :=
  mkContract acceptance_fn (new_wake_waker_since l_start) utility_assumption.

Definition waiter_progress (l l2 : SyncLog) : Prop :=
  l2 = l ∨ (∃ w out, l2 = l ++ wait_segment w out) ∨ (∃ w out, l2 = l ++ signal_segment w out) ∨
  ∃ w, l2 = l ++ [ev_cancel_waker w].

Definition waiter_module_spec : ModuleSpec SyncLog := mkModuleSpec utility_inv waiter_progress.

Definition waiter_wake_env (l_start l : SyncLog) (w : Z) : Prop :=
  length l_start ≤ length l ∧ (acceptance_fn l w → new_wake_waker_since l_start l w).

Definition waiter_contract (l_start : SyncLog) : AsyncContract SyncLog Z :=
  passwaker_to_wakewaker_contract l_start (λ _ _, True).

Section contract.
Implicit Types (k : WaiterKernel) (os : list op) (l : SyncLog) (id : Z).

Lemma waiter_progress_wf : progress_preserves_wf waiter_module_spec.
Proof.
  intros l l' Hl [->|[(w & out & ->)|[(w & out & ->)|(w & ->)]]]; [done|..].
  - by apply wait_preserves.
  - by apply signal_preserves.
  - by apply cancel_preserves.
Qed.

(** An operation of the kernel is a step of the module. *)
Lemma run_op_progress k o : waiter_progress (log k) (log (run_op k o)).
Proof.
  destruct o; simpl; unfold try_acquire_step, wait_step, signal_step, remove_step; repeat step_match; simpl;
    unfold waiter_progress; eauto 10.
Qed.

Lemma run_progress k os : nsteps (progress waiter_module_spec) (length os) (log k) (log (run k os)).
Proof.
  revert k. induction os as [|o os IH]; intros k; [constructor|]. eapply nsteps_l; [apply run_op_progress|apply IH].
Qed.

(** ** Rounds with a signal *)

Definition kernel_round k k' : Prop :=
  ∃ os n, k' = run k (os ++ [SignalOp n]) ∧ (permit k + count_signals (os ++ [SignalOp n]) ≤ u64_max)%Z.
Definition kernel_rounds : ModuleSpec WaiterKernel := mkModuleSpec kernel_inv kernel_round.

Definition kernel_contract k0 : AsyncContract WaiterKernel Z :=
  mkContract (λ k id, id ∈ queue k) (λ k id, new_wake_waker_since (log k0) (log k) id) (λ _ _, True).

(** The waiter does not withdraw: what it parked since [k0], it did not cancel. *)
Definition not_withdrawn k0 k id : Prop :=
  log k0 `prefix_of` log k ∧ id ∉ cancelled (skipn (length (log k0)) (log k)).

Lemma log_run_op k o : log k `prefix_of` log (run_op k o).
Proof.
  destruct o; simpl; unfold try_acquire_step, wait_step, signal_step, remove_step;
    repeat step_match; simpl; by (apply prefix_app_r || done).
Qed.

Lemma log_run k os : log k `prefix_of` log (run k os).
Proof. revert k. induction os as [|o os IH]; intros k; [done|]. etrans; [apply (log_run_op k o)|apply IH]. Qed.

Lemma kernel_round_wf : progress_preserves_wf kernel_rounds.
Proof. intros k k' Hk (os & n & -> & Hp). by apply waiter_run_inv. Qed.

Lemma new_wake_more l0 l l' id : new_wake_waker_since l0 l id → l `prefix_of` l' → new_wake_waker_since l0 l' id.
Proof.
  intros (j & Hj & Hl) [seg ->]. exists j. split; [done|]. rewrite lookup_app_l; [done|]. by eapply lookup_lt_Some.
Qed.

Lemma cancelled_run k0 k os id :
  not_withdrawn k0 (run k os) id → log k0 `prefix_of` log k → not_withdrawn k0 k id.
Proof.
  intros [_ Hc] Hp. split; [done|]. destruct (log_run k os) as [seg Hs]. rewrite Hs in Hc.
  rewrite skipn_app, cancelled_app in Hc. set_solver.
Qed.

(** The waiter moves up by one with a signal, and never back. *)
Definition ahead (q : list Z) id (p : nat) : Prop := ∃ i, i ≤ p ∧ q !! i = Some id.

Lemma remove_first_lookup q x id i :
  q !! i = Some id → x ≠ id → ∃ j, j ≤ i ∧ remove_first q x !! j = Some id.
Proof.
  revert i. induction q as [|y q IH]; intros [|i] Hi Hx; simplify_eq/=.
  - exists 0. split; [lia|]. case_cmp; [congruence|done].
  - case_cmp; [by exists i; split; [lia|]|]. destruct (IH i Hi Hx) as (j & Hj & Hl).
    exists (S j). split; [lia|done].
Qed.

Lemma run_op_ahead k0 k o id p :
  log k0 `prefix_of` log k → ahead (queue k) id p → not_withdrawn k0 (run_op k o) id →
  new_wake_waker_since (log k0) (log (run_op k o)) id ∨
  (ahead (queue (run_op k o)) id p ∧ ∀ n, o = SignalOp n → 0 < p ∧ ahead (queue (run_op k o)) id (p - 1)).
Proof.
  intros Hp (i & Hi & Hl) [_ Hw]. pose proof (prefix_length _ _ Hp) as Hlen.
  destruct o as [|w|n|w]; simpl in *.
  - right. split; [|done]. exists i. split; [done|]. unfold try_acquire_step. by case_cmp.
  - right. split; [|done]. exists i. split; [done|]. unfold wait_step. case_cmp; simpl; [done|by apply lookup_app_l_Some].
  - unfold signal_step in *. destruct (queue k) as [|hd q] eqn:Eq; [done|]. simpl.
    destruct i as [|i]; simplify_eq/=.
    + left. exists (length (log k) + 1). split; [lia|]. rewrite lookup_app_r by lia.
      by replace (_ - _) with 1 by lia.
    + right. split; [exists i; split; [lia|done]|]. intros _ _. split; [lia|]. exists i. split; [lia|done].
  - right. split; [|done]. unfold remove_step in *. destruct (find_first (queue k) w) as [j|] eqn:Ef; simpl in *.
    + apply find_first_Some in Ef as [Hj Hd]. rewrite Hd.
      destruct (remove_first_lookup (queue k) w id i Hl) as (i' & Hi' & Hl').
      * intros ->. apply Hw. rewrite skipn_app, cancelled_app. apply elem_of_app. right.
        replace (length (log k0) - length (log k)) with 0 by lia. simpl. by apply list_elem_of_singleton.
      * exists i'. split; [lia|done].
    + by exists i.
Qed.

Lemma run_ahead k0 k os id p :
  log k0 `prefix_of` log k → ahead (queue k) id p → not_withdrawn k0 (run k os) id →
  new_wake_waker_since (log k0) (log (run k os)) id ∨ ahead (queue (run k os)) id p.
Proof.
  revert k. induction os as [|o os IH]; intros k Hp Ha Hw; [by right|]. simpl in *.
  assert (Hp' : log k0 `prefix_of` log (run_op k o)) by (etrans; [exact Hp|apply log_run_op]).
  destruct (run_op_ahead k0 k o id p Hp Ha) as [Hn|[Ha' _]].
  - by eapply cancelled_run.
  - left. eapply new_wake_more; [exact Hn|apply log_run].
  - by apply IH.
Qed.

Lemma round_ahead k0 k k' id p :
  not_withdrawn k0 k id → not_withdrawn k0 k' id → kernel_round k k' → ahead (queue k) id p →
  new_wake_waker_since (log k0) (log k') id ∨ (0 < p ∧ ahead (queue k') id (p - 1)).
Proof.
  intros [Hp _] Hw (os & n & -> & _) Ha. unfold run in *. rewrite foldl_app in *. simpl in *.
  fold (run k os) in *. set (k1 := run k os) in *.
  assert (Hp1 : log k0 `prefix_of` log k1) by (etrans; [exact Hp|apply log_run]).
  destruct (run_ahead k0 k os id p Hp Ha) as [Hn|Ha1].
  - eapply (cancelled_run k0 k1 [SignalOp n]); [exact Hw|done].
  - left. eapply new_wake_more; [exact Hn|apply (log_run_op k1 (SignalOp n))].
  - destruct (run_op_ahead k0 k1 (SignalOp n) id p Hp1 Ha1 Hw) as [?|[_ Hs]]; [by left|right]. by apply (Hs n).
Qed.

Lemma rounds_ahead k0 k k' id p n :
  nsteps (λ x y, kernel_round x y ∧ not_withdrawn k0 x id ∧ not_withdrawn k0 y id) n k k' →
  ahead (queue k) id p → p < n → new_wake_waker_since (log k0) (log k') id.
Proof.
  intros Hn. revert p. induction Hn as [k|n k k1 k2 (Hr & Hx & Hy) Hn IH]; intros p Ha Hp; [lia|].
  destruct (round_ahead k0 k k1 id p Hx Hy Hr Ha) as [Hw|[Hpos Ha1]].
  - eapply new_wake_more; [exact Hw|]. clear -Hn. induction Hn as [|? ? y ? (Hr & _) _ IH]; [done|].
    destruct Hr as (os & m & -> & _). etrans; [apply log_run|exact IH].
  - apply (IH (p - 1)); [done|lia].
Qed.

(** The source's form: the environment gives the wake at once. *)
Theorem waiter_env_contract l_start :
  bounded_liveness_env_without_arrival waiter_module_spec (waiter_contract l_start) (waiter_wake_env l_start).
Proof.
  split; [apply waiter_progress_wf|]. intros w l _ Ha [_ He]. exists 0. intros l' Hp.
  apply env_progress_n_progress, progress_n_nsteps in Hp. inversion Hp; subst. by apply He.
Qed.

Lemma not_withdrawn_more k0 k k' id seg :
  not_withdrawn k0 k id → log k' = log k ++ seg → cancelled seg = [] → not_withdrawn k0 k' id.
Proof.
  intros [Hl Hc] Hs Hseg. pose proof (prefix_length _ _ Hl). split.
  - rewrite Hs. by etrans; [exact Hl|apply prefix_app_r].
  - rewrite Hs, skipn_app, cancelled_app. replace (length (log k0) - length (log k)) with 0 by lia.
    by rewrite drop_0, Hseg, app_nil_r.
Qed.

Lemma signal_round k id k0 :
  (0 ≤ permit k)%Z → (permit k + 1 ≤ u64_max)%Z → not_withdrawn k0 k id →
  ∃ k', kernel_round k k' ∧ not_withdrawn k0 k' id ∧ (0 ≤ permit k' ≤ permit k + 1)%Z.
Proof.
  intros H0 Hp Hk. exists (run k [SignalOp 0]). split; [by exists [], 0%Z|]. simpl.
  unfold signal_step. destruct (queue k) as [|hd q]; simpl.
  - split; [by eapply not_withdrawn_more|]. rewrite wrap64_id by u64. lia.
  - split; [by eapply not_withdrawn_more|]. lia.
Qed.

(** C18. The waiter kernel keeps the contract that its clients rely on: who is parked, and does
    not withdraw, is woken within as many rounds as it has others before it, and one, where a round is
    any sequence of operations that ends in a signal.  Such rounds are steps of the source's module, and
    can always be taken as long as the permit counter does not overflow. *)
Theorem waiter_bounded_liveness k0 :
  bounded_liveness_env_without_arrival kernel_rounds (kernel_contract k0) (not_withdrawn k0) ∧
  (∀ k i id k', queue k !! i = Some id →
    env_progress_n kernel_round k k' (S i) (not_withdrawn k0) id → new_wake_waker_since (log k0) (log k') id) ∧
  (∀ k k', kernel_round k k' → ∃ n, nsteps (progress waiter_module_spec) n (log k) (log k')) ∧
  (∀ k id n, not_withdrawn k0 k id → (0 ≤ permit k)%Z → (permit k + Z.of_nat n ≤ u64_max)%Z →
    ∃ k', env_progress_n kernel_round k k' n (not_withdrawn k0) id).
Proof.
  assert (Hwake : ∀ k i id k', queue k !! i = Some id →
    env_progress_n kernel_round k k' (S i) (not_withdrawn k0) id → new_wake_waker_since (log k0) (log k') id).
  { intros k i id k' Hi Hk%env_progress_n_nsteps. eapply (rounds_ahead _ _ _ _ i); [exact Hk|by exists i|lia]. }
  split; [split; [apply kernel_round_wf|]|split; [done|split]].
  - intros id k _ [i Hi]%list_elem_of_lookup_1 _. exists (S i). intros k'. by apply Hwake.
  - intros k k' (os & n & -> & _). eexists. apply run_progress.
  - intros k id n. revert k. induction n as [|n IH]; intros k Hk H0 Hn.
    + exists k, [k]. do 3 (split; [done|]). split; [apply valid_trace_cons; by left|].
      intros [|i] x; simpl; [by intros [= <-]|by destruct i].
    + destruct (signal_round k id k0) as (k1 & Hr & Hk1 & Hp); [lia|lia|done|].
      destruct (IH k1 Hk1) as [k' Hk']; [lia|lia|]. exists k'. by eapply env_progress_n_cons.
Qed.

End contract.

(** Two waiters; the first withdraws, and one signal wakes the other. *)
Lemma waiter_bounded_liveness_witness :
  let k0 := run new [WaitOp 4; WaitOp 5] in
  let k1 := run k0 [RemoveOp 4; SignalOp 9] in
  let k2 := run k1 [SignalOp 9] in
  new_wake_waker_since (log k0) (log k2) 5.
Proof.
  intros k0 k1 k2. destruct (waiter_bounded_liveness k0) as (_ & H & _).
  apply (H k0 1 5%Z k2); [reflexivity|]. exists [k0; k1; k2]. do 3 (split; [reflexivity|]). split.
  - apply valid_trace_cons. right. exists k1. split; [done|]. split.
    + by exists [RemoveOp 4], 9%Z.
    + apply valid_trace_cons. right. exists k2. split; [done|]. split; [by exists [], 9%Z|].
      apply valid_trace_cons. by left.
  - intros i x Hx.
    assert (Hall : ∀ y, y ∈ [k0; k1; k2] → not_withdrawn k0 y 5%Z).
    { intros y. rewrite !elem_of_cons, elem_of_nil. intros [->|[->|[->|[]]]];
        (split; [by eexists; vm_compute; reflexivity|apply (bool_decide_unpack _); vm_compute; exact I]). }
    apply Hall. by eapply list_elem_of_lookup_2.
Defined.
End WaiterContract.
