(* ===== verification/WaiterPool.v ===== *)
(** * WaiterPool: the glue between the waiter kernel and the futures that wait

    [Semaphore] and [Notify] wrap the waiter kernel in the same way: a mutex holds
    the kernel, the real wakers of the parked futures with a shared flag each, and
    the counter of waiter ids.  A future owns its flag (an [Arc] to an atomic), the
    pool holds a clone of it while the future is parked.  The flags are a store
    [flags] indexed by location, so that the aliasing is explicit; a future is
    known by the location of its flag.  [V] is the type of the flag values and
    [pending] the value of a future that nothing was delivered to. *)

From S2P Require Import Prelude UtilityLog Waiter.
Import Waiter.

Module WaiterPool.

(** A waker is the task it wakes. *)
Record Pool := mkPool {
  kernel : WaiterKernel;
  wakers : list (Z * nat * Z);
  next_id : Z;
}.

Definition set_kernel (p : Pool) k := mkPool k (wakers p) (next_id p).
Definition set_wakers (p : Pool) ws := mkPool (kernel p) ws (next_id p).

(** The fields of [Acquire] and of [Notified] beside the flag. *)
Record Waiting := mkWaiting { id : Z; parked : bool; completed : bool }.

Definition set_completed (f : Waiting) := mkWaiting (id f) (parked f) true.

Definition flags_of (V : Type) := gmap nat V.

(** [wakers.iter().position(|(wid, _, _)| *wid == id)] *)
Definition position (ws : list (Z * nat * Z)) (wid : Z) : option nat :=
  fst <$> list_find (λ e, e.1.1 = wid) ws.

Section pool.
Context {V : Type}.
Implicit Types (p : Pool) (fl : gmap nat V) (loc : nat) (f : Waiting) (v : V).

(** The delivery loop of [deliver_one] and of [signal_n]: signal the kernel until it wakes an id
    that still has a waker (set its flag, take the waker), or stores a permit. *)
Fixpoint deliver (fuel : nat) (v : V) p fl : option (option Z * Pool * gmap nat V) :=
  match fuel with
  | 0 => None
  | S fuel' =>
      match signal_step (kernel p) 0 with
      | (Woke wid, k) =>
          let p1 := set_kernel p k in
          match position (wakers p1) wid with
          | Some pos =>
              match wakers p1 !! pos with
              | Some (_, flag, waker) =>
                  Some (Some waker, set_wakers p1 (delete pos (wakers p1)), <[flag := v]> fl)
              | None => None
              end
          | None => deliver fuel' v p1 fl
          end
      | (Stored, k) => Some (None, set_kernel p k, fl)
      end
  end.

(** Each round takes an id from the queue, or stores a permit. *)
Definition deliver_fuel p : nat := S (length (queue (kernel p))).

(** The first poll of a future: the kernel decides between ready and parked. *)
Definition first_poll p loc f (waker : Z) : WaitAction * Pool * Waiting :=
  let wid := next_id p in
  match wait_step (kernel p) wid with
  | (Ready, k) =>
      (Ready, mkPool k (wakers p) (wrap64 (wid + 1)), mkWaiting wid (parked f) (completed f))
  | (Park pid, k) =>
      (Park pid, mkPool k (wakers p ++ [(pid, loc, waker)]) (wrap64 (wid + 1)),
       mkWaiting wid true (completed f))
  end.

(** The poll of a parked future: its stored waker is replaced. *)
Definition refresh p f (waker : Z) : Pool :=
  match position (wakers p) (id f) with
  | Some pos => set_wakers p (alter (λ e, (e.1, waker)) pos (wakers p))
  | None => p
  end.

(** The drop of a parked future: leave the queue, and the wakers if it was still queued. *)
Definition withdraw p f : bool * Pool :=
  match remove_step (kernel p) (id f) with
  | (true, k) =>
      let p1 := set_kernel p k in
      (true, match position (wakers p1) (id f) with
             | Some pos => set_wakers p1 (delete pos (wakers p1))
             | None => p1
             end)
  | (false, k) => (false, set_kernel p k)
  end.

(** ** The invariant

    Wakers and queue agree until the pool is closed; every waker belongs to a
    parked future with a pending flag, and every such future has its waker. *)

Context (pending : V).

Record pool_inv (closed : bool) p fl (fs : gmap nat Waiting) : Prop := {
  pi_queue : if closed then wakers p = [] else (λ e, e.1.1) <$> wakers p = queue (kernel p);
  pi_nodup : NoDup (queue (kernel p));
  pi_old : ∀ i, i ∈ queue (kernel p) → (0 ≤ i < next_id p)%Z;
  pi_idle : idle_permit (kernel p);
  pi_fut : ∀ loc f, fs !! loc = Some f → ∃ v, fl !! loc = Some v ∧
    (parked f = false → v = pending) ∧
    (parked f = true → (0 ≤ id f < next_id p)%Z ∧
       (v ≠ pending → id f ∉ queue (kernel p)) ∧
       (v = pending → completed f = false ∧
          (closed = false → ∃ w, (id f, loc, w) ∈ wakers p)));
  pi_ids : ∀ loc loc' f f', fs !! loc = Some f → fs !! loc' = Some f' →
    parked f = true → parked f' = true → id f = id f' → loc = loc';
  pi_wakers : ∀ i loc w, (i, loc, w) ∈ wakers p →
    ∃ f, fs !! loc = Some f ∧ parked f = true ∧ id f = i ∧ fl !! loc = Some pending;
}.

(** The futures that hold an unconsumed delivery of kind [v]. *)
Definition delivered `{!EqDecision V} v fl (fs : gmap nat Waiting) : nat :=
  size (filter (λ '(loc, f), completed f = false ∧ fl !! loc = Some v) fs).

(** ** Counting deliveries *)

Section count.
Context `{!EqDecision V}.

Lemma delivered_at v fl fs loc f :
  fs !! loc = Some f →
  delivered v fl fs = delivered v fl (delete loc fs) +
    if decide (completed f = false ∧ fl !! loc = Some v) then 1 else 0.
Proof.
  intros Hf. unfold delivered. rewrite <- (insert_delete_id fs loc f Hf) at 1.
  case_decide as Hd.
  - rewrite map_filter_insert_True by done. rewrite map_size_insert_None; [lia|].
    apply map_lookup_filter_None. left. apply lookup_delete_eq.
  - rewrite map_filter_insert_False by done. by rewrite delete_delete_eq.
Qed.

Lemma delivered_ext v fl fl' fs :
  (∀ loc, is_Some (fs !! loc) → fl !! loc = fl' !! loc) → delivered v fl fs = delivered v fl' fs.
Proof.
  intros H. unfold delivered. f_equal. apply map_filter_ext. intros loc f Hf. simpl.
  rewrite H; [done|by eexists].
Qed.

Lemma delivered_delete v fl fl' fs loc :
  (∀ l, l ≠ loc → fl !! l = fl' !! l) → delivered v fl (delete loc fs) = delivered v fl' (delete loc fs).
Proof.
  intros Hfl. apply delivered_ext. intros l [x Hl]. apply Hfl. intros ->.
  by rewrite lookup_delete_eq in Hl.
Qed.

(** Removing a future. *)
Lemma delivered_delete_done v fl fs loc f :
  fs !! loc = Some f → completed f = true → delivered v fl (delete loc fs) = delivered v fl fs.
Proof.
  intros Hl Hc. rewrite (delivered_at v fl fs loc f Hl), decide_False; [lia|].
  rewrite Hc. by intros [? _].
Qed.

Lemma delivered_delete_not v fl fs loc :
  fl !! loc ≠ Some v → delivered v fl (delete loc fs) = delivered v fl fs.
Proof.
  intros Hv. destruct (fs !! loc) as [f|] eqn:Hl; [|by rewrite delete_id].
  rewrite (delivered_at v fl fs loc f Hl), decide_False; [lia|]. by intros [_ ?].
Qed.

Lemma delivered_delete_granted v fl fs loc f :
  fs !! loc = Some f → completed f = false → fl !! loc = Some v →
  S (delivered v fl (delete loc fs)) = delivered v fl fs.
Proof. intros Hl Hc Hv. rewrite (delivered_at v fl fs loc f Hl), decide_True by done. lia. Qed.

(** A delivery to the future at [loc]. *)
Lemma delivered_grant v fl fs loc f :
  fs !! loc = Some f → completed f = false → fl !! loc ≠ Some v →
  delivered v (<[loc := v]> fl) fs = S (delivered v fl fs).
Proof.
  intros Hf Hc Hv. rewrite !(delivered_at v _ fs loc f Hf), lookup_insert_eq.
  rewrite decide_True, decide_False by (done || by intros [_ ?]).
  rewrite (delivered_delete v (<[loc := v]> fl) fl); [lia|].
  intros l Hne. by rewrite lookup_insert_ne.
Qed.

(** The future at [loc] consumes its delivery. *)
Lemma delivered_complete v fl fs loc f :
  fs !! loc = Some f → completed f = false → fl !! loc = Some v →
  S (delivered v fl (<[loc := set_completed f]> fs)) = delivered v fl fs.
Proof.
  intros Hf Hc Hv. rewrite (delivered_at v fl fs loc f Hf), decide_True by done.
  rewrite (delivered_at v fl (<[loc := _]> fs) loc (set_completed f)) by apply lookup_insert_eq.
  rewrite decide_False by (by intros [? _]). rewrite delete_insert_eq. lia.
Qed.

(** Nothing was delivered to [loc]. *)
Lemma delivered_insert v fl fl' fs loc g :
  fl' !! loc ≠ Some v → (∀ l, l ≠ loc → fl !! l = fl' !! l) →
  delivered v fl' (<[loc := g]> fs) = delivered v fl (delete loc fs).
Proof.
  intros Hv Hfl. rewrite (delivered_at v fl' (<[loc := g]> fs) loc g) by apply lookup_insert_eq.
  rewrite decide_False by (by intros [_ ?]). rewrite delete_insert_eq, Nat.add_0_r.
  symmetry. by apply delivered_delete.
Qed.
End count.

(** ** Positions *)

Lemma position_Some ws i pos :
  position ws i = Some pos → ∃ loc w, ws !! pos = Some (i, loc, w).
Proof.
  unfold position. intros ([n [[i' loc] w]] & Hf & ->)%fmap_Some.
  apply list_find_Some in Hf as (Hl & Hi & _). simpl in Hi. subst. by exists loc, w.
Qed.

Lemma position_None ws i loc w : position ws i = None → (i, loc, w) ∉ ws.
Proof.
  unfold position. intros Hf%fmap_None Hin. apply list_find_None in Hf.
  rewrite Forall_forall in Hf. by apply Hf in Hin.
Qed.

Lemma position_is_Some ws i loc w : (i, loc, w) ∈ ws → is_Some (position ws i).
Proof.
  intros Hin. destruct (position ws i) eqn:E; [by eexists|].
  by apply (position_None _ _ loc w) in E.
Qed.

(** ** The invariant and the operations *)

Lemma pool_inv_flags c p fl fl' fs :
  (∀ loc, is_Some (fs !! loc) → fl !! loc = fl' !! loc) → pool_inv c p fl fs → pool_inv c p fl' fs.
Proof.
  intros Hext [Hq Hn Ho Hi Hf Hids Hw]. split; [done..| |done|].
  - intros loc f Hl. destruct (Hf loc f Hl) as (v & Hv & Hrest).
    exists v. split; [|done]. by rewrite <- Hext by (by eexists).
  - intros i loc w Hin. destruct (Hw i loc w Hin) as (f & Hl & Hp & Hid & Hv).
    exists f. by rewrite <- Hext by (by eexists).
Qed.

Lemma pool_inv_new c p fl fs loc :
  fs !! loc = None → pool_inv c p fl fs →
  pool_inv c p (<[loc := pending]> fl) (<[loc := mkWaiting 0 false false]> fs).
Proof.
  intros Hnone H.
  assert (H' : pool_inv c p (<[loc := pending]> fl) fs).
  { eapply pool_inv_flags; [|done]. intros l [x Hl]. rewrite lookup_insert_ne; [done|congruence]. }
  destruct H' as [Hq Hn Ho Hi Hf Hids Hw]. split; [done..| | |].
  - intros l f. rewrite lookup_insert_Some. intros [[<- <-]|[Hne Hl]]; [|by apply Hf].
    exists pending. rewrite lookup_insert_eq. done.
  - intros l l' f f'. rewrite !lookup_insert_Some.
    intros [[<- <-]|[Hne Hl]] [[<- <-]|[Hne' Hl']]; simpl; try done. by apply Hids.
  - intros i l w Hin. destruct (Hw i l w Hin) as (f & Hl & Hrest). exists f.
    rewrite lookup_insert_ne; [done|congruence].
Qed.

(** A future that was delivered to, and finishes. *)
Lemma pool_inv_complete c p fl fs loc f v :
  fs !! loc = Some f → fl !! loc = Some v → v ≠ pending → pool_inv c p fl fs →
  pool_inv c p fl (<[loc := set_completed f]> fs).
Proof.
  intros Hl Hv Hne [Hq Hn Ho Hi Hf Hids Hw]. split; [done..| | |].
  - intros l g. rewrite lookup_insert_Some. intros [[<- <-]|[Hne' Hl']]; [|by apply Hf].
    destruct (Hf loc f Hl) as (v' & Hv' & Hun & Hpk). exists v'. split; [done|]. simpl.
    split; [done|]. intros Hp. destruct (Hpk Hp) as (Hlt & Hnq & Hpend). do 2 (split; [done|]).
    intros ->. congruence.
  - intros l l' g g'. rewrite !lookup_insert_Some.
    intros [[<- <-]|[Hn1 Hl1]] [[<- <-]|[Hn2 Hl2]]; simpl; try done; eauto.
  - intros i l w Hin. destruct (Hw i l w Hin) as (g & Hg & Hp & Hid & Hpd).
    exists g. rewrite lookup_insert_ne; [done|]. intros <-. congruence.
Qed.

(** A future that never parked, or that finished, can go. *)
Lemma pool_inv_delete c p fl fs loc f :
  fs !! loc = Some f → parked f = false ∨ completed f = true →
  pool_inv c p fl fs → pool_inv c p fl (delete loc fs).
Proof.
  intros Hl Hidle [Hq Hn Ho Hi Hf Hids Hw]. split; [done..| | |].
  - intros l g [_ Hg]%lookup_delete_Some. by apply Hf.
  - intros l l' g g' [_ Hg]%lookup_delete_Some [_ Hg']%lookup_delete_Some. by apply Hids.
  - intros i l w Hin. destruct (Hw i l w Hin) as (g & Hg & Hp & Hid & Hv). exists g.
    rewrite lookup_delete_ne; [done|]. intros <-. rewrite Hl in Hg. injection Hg as <-.
    destruct (Hf loc f Hl) as (v & Hv' & _ & Hpk). rewrite Hv in Hv'. injection Hv' as <-.
    destruct (Hpk Hp) as (_ & _ & Hpd). destruct (Hpd eq_refl). destruct Hidle; congruence.
Qed.

Lemma pool_inv_close c p fl fs : pool_inv c p fl fs → pool_inv true (set_wakers p []) fl fs.
Proof.
  intros [Hq Hn Ho Hi Hf Hids Hw]. split; try done.
  - intros l f Hl. destruct (Hf l f Hl) as (v & Hv & Hun & Hpk). exists v. split_and!; [done..|].
    intros Hp. destruct (Hpk Hp) as (Hlt & Hnq & Hpend). do 2 (split; [done|]).
    intros Hvp. split; [by apply Hpend|done].
  - intros i l w Hin. by apply elem_of_nil in Hin.
Qed.

Lemma pool_inv_refresh c p fl fs f w : pool_inv c p fl fs → pool_inv c (refresh p f w) fl fs.
Proof.
  intros Hinv. unfold refresh. destruct (position (wakers p) (id f)) as [pos|] eqn:Ep; [|done].
  apply position_Some in Ep as (loc0 & w0 & Hpos).
  assert (Hin : ∀ i loc, (∃ w1, (i, loc, w1) ∈ alter (λ e, (e.1, w)) pos (wakers p)) ↔
                          ∃ w1, (i, loc, w1) ∈ wakers p).
  { intros i loc. split; intros (w1 & [n Hn]%list_elem_of_lookup_1).
    - rewrite list_lookup_alter in Hn. destruct (decide (n = pos)) as [->|Hne].
      + rewrite decide_True, Hpos in Hn by done. simplify_eq/=. exists w0.
        by eapply list_elem_of_lookup_2.
      + rewrite decide_False in Hn by done. exists w1. by eapply list_elem_of_lookup_2.
    - destruct (decide (n = pos)) as [->|Hne].
      + rewrite Hpos in Hn. simplify_eq. exists w. apply list_elem_of_lookup_2 with pos.
        by rewrite list_lookup_alter, decide_True, Hpos by done.
      + exists w1. apply list_elem_of_lookup_2 with n. by rewrite list_lookup_alter, decide_False. }
  destruct Hinv as [Hq Hn Ho Hi Hf Hids Hw]. split; simpl; [|done..| |done|].
  - destruct c; [by rewrite Hq|]. rewrite <- Hq. apply list_eq. intros n.
    rewrite !list_lookup_fmap, list_lookup_alter. case_decide; [subst|done]. by destruct (wakers p !! _).
  - intros l g Hl. destruct (Hf l g Hl) as (v & Hv & Hun & Hpk). exists v. split_and!; [done..|].
    intros Hp. destruct (Hpk Hp) as (Hlt & Hnq & Hpend). do 2 (split; [done|]).
    intros Hvp. destruct (Hpend Hvp) as [? He]. split; [done|]. intros Hc. by apply Hin, He.
  - intros i l w1 H1. destruct (proj1 (Hin i l)) as [w2 H2]; [by eexists|]. by apply (Hw i l w2).
Qed.
End pool.
End WaiterPool.
Import WaiterPool.

(** ** First poll, delivery and withdrawal keep the pool invariant

    The three operations of the pool that call the waiter kernel, with what each
    does to the permit count and to the deliveries not yet consumed. *)

Section ops.
Context {V : Type} `{!EqDecision V} (pending : V).
Implicit Types (p : Pool) (fl : gmap nat V) (fs : gmap nat Waiting) (loc : nat) (f : Waiting) (v : V).

(** ** The first poll *)

Lemma first_poll_spec c p fl fs loc f w a p' f' :
  pool_inv pending c p fl fs → c = false →
  fs !! loc = Some f → parked f = false → completed f = false →
  (0 ≤ next_id p < u64_max)%Z →
  first_poll p loc f w = (a, p', f') →
  next_id p' = (next_id p + 1)%Z ∧
  ((0 < permit (kernel p) ∧ a = Ready ∧ permit (kernel p') = permit (kernel p) - 1 ∧
     parked f' = false ∧ completed f' = false ∧
     ∀ g, parked g = false → pool_inv pending c p' fl (<[loc := g]> fs))%Z ∨
   (permit (kernel p) ≤ 0 ∧ a = Park (next_id p) ∧ permit (kernel p') = permit (kernel p) ∧
     parked f' = true ∧ completed f' = false ∧ pool_inv pending c p' fl (<[loc := f']> fs))%Z).
Proof.
  intros [Hq Hn Ho Hi Hf Hids Hw] -> Hl Hpk Hco Hid. unfold first_poll, wait_step.
  rewrite wrap64_id by u64. simpl in Hq.
  destruct (Z.ltb_spec 0 (permit (kernel p))); simpl; intros [= <- <- <-]; simpl; (split; [done|]).
  - left. split_and!; [done..|]. intros g Hg. split; simpl; try done.
    + intros i Hin%Ho. lia.
    + intros Hpos. apply Hi. lia.
    + intros l h. rewrite lookup_insert_Some. intros [[<- <-]|[Hne Hl']].
      * destruct (Hf loc f Hl) as (v & Hv & Hun & _). exists v. split_and!; [done|auto|congruence].
      * destruct (Hf l h Hl') as (v & Hv & Hun & Hrest). exists v. split_and!; [done..|].
        intros Hp. destruct (Hrest Hp) as (Hlt & Hrest'). split; [lia|done].
    + intros l l' h h'. rewrite !lookup_insert_Some.
      intros [[<- <-]|[Hn1 Hl1]] [[<- <-]|[Hn2 Hl2]]; try congruence. eauto.
    + intros i l x Hin. destruct (Hw i l x Hin) as (h & Hh & Hrest). exists h.
      rewrite lookup_insert_ne; [done|]. intros <-. destruct Hrest. congruence.
  - right. split_and!; [done..|]. split; simpl.
    + by rewrite fmap_app, Hq.
    + apply NoDup_app. split_and!; [done| |apply NoDup_singleton].
      intros i Hin%Ho ->%list_elem_of_singleton. lia.
    + intros i [Hin%Ho | ->%list_elem_of_singleton]%elem_of_app; lia.
    + unfold idle_permit. simpl. lia.
    + intros l h. rewrite lookup_insert_Some. intros [[<- <-]|[Hne Hl']]; simpl.
      * destruct (Hf loc f Hl) as (v & Hv & Hun & _). rewrite (Hun Hpk) in Hv. exists pending.
        split_and!; [done..|]. intros _. split; [lia|]. split; [done|]. intros _. split; [done|].
        intros _. exists w. rewrite elem_of_app, list_elem_of_singleton. by right.
      * destruct (Hf l h Hl') as (v & Hv & Hun & Hrest). exists v. split_and!; [done..|].
        intros Hp. destruct (Hrest Hp) as (Hlt & Hnq & Hpd). split; [lia|]. split.
        -- intros Hv' [Hin|Heq%list_elem_of_singleton]%elem_of_app; [by apply Hnq|lia].
        -- intros Hv'. destruct (Hpd Hv') as [Hc' Hex]. split; [done|]. intros _.
           destruct (Hex eq_refl) as [x Hx]. exists x. rewrite elem_of_app. by left.
    + intros l l' h h'. rewrite !lookup_insert_Some.
      intros [[<- <-]|[Hn1 Hl1]] [[<- <-]|[Hn2 Hl2]]; simpl; try done; [..|by eauto].
      * intros _ Hp' Heq. destruct (Hf l' h' Hl2) as (v & _ & _ & Hrest). apply Hrest in Hp'. lia.
      * intros Hp' _ Heq. destruct (Hf l h Hl1) as (v & _ & _ & Hrest). apply Hrest in Hp'. lia.
    + intros i l x [Hin|Heq%list_elem_of_singleton]%elem_of_app.
      * destruct (Hw i l x Hin) as (h & Hh & Hrest). exists h.
        rewrite lookup_insert_ne; [done|]. intros <-. destruct Hrest. congruence.
      * simplify_eq. eexists. rewrite lookup_insert_eq. split_and!; [done..|].
        destruct (Hf loc f Hl) as (v & Hv & Hun & _). by rewrite (Hun Hpk) in Hv.
Qed.

(** ** Delivery *)

Lemma deliver_closed fuel v p fl fs :
  pool_inv pending true p fl fs → length (queue (kernel p)) < fuel →
  (0 ≤ permit (kernel p) < u64_max)%Z →
  ∃ p', deliver fuel v p fl = Some (None, p', fl) ∧
    pool_inv pending true p' fl fs ∧ next_id p' = next_id p ∧
    permit (kernel p') = (permit (kernel p) + 1)%Z.
Proof.
  revert p. induction fuel as [|fuel IH]; intros p Hinv Hlen Hmax; [lia|].
  pose proof Hinv as [Hq Hn Ho Hi Hf Hids Hw]. simpl in *. unfold signal_step.
  destruct (queue (kernel p)) as [|hd q'] eqn:Eq; simpl.
  - eexists. split; [done|]. rewrite wrap64_id by u64. split_and!; try done.
  - rewrite Hq. simpl. destruct (IH (set_kernel p (mkKernel (permit (kernel p)) q'
      (log (kernel p) ++ signal_segment 0 (SWoke hd)) (init (kernel p))))) as (p' & Hd & Hinv' & Hnx & Hp').
    + split; simpl; try done.
      * by apply NoDup_cons in Hn as [_ ?].
      * intros i Hin. apply Ho. by right.
      * intros Hpos. by rewrite (Hi Hpos) in Eq.
      * intros l f Hl. destruct (Hf l f Hl) as (v' & Hv' & Hun & Hrest). exists v'.
        split_and!; [done..|]. intros Hp. destruct (Hrest Hp) as (Hlt & Hnq & Hpd).
        split; [done|]. split; [|done]. intros Hne Hin. apply Hnq; [done|by right].
    + simpl in *. lia.
    + done.
    + exists p'. by rewrite Hnx, Hp'.
Qed.

(** The waiter that parked first gets the delivery, or the permit is stored. *)
Lemma deliver_open v p fl fs :
  pool_inv pending false p fl fs → v ≠ pending → (0 ≤ permit (kernel p) < u64_max)%Z →
  ∃ o p' fl', deliver (deliver_fuel p) v p fl = Some (o, p', fl') ∧
    pool_inv pending false p' fl' fs ∧ next_id p' = next_id p ∧
    match o with
    | None => queue (kernel p) = [] ∧ fl' = fl ∧ permit (kernel p') = (permit (kernel p) + 1)%Z
    | Some w => ∃ i loc f, wakers p = (i, loc, w) :: wakers p' ∧ fl' = <[loc := v]> fl ∧
        permit (kernel p') = permit (kernel p) ∧
        fs !! loc = Some f ∧ completed f = false ∧ fl !! loc = Some pending ∧
        queue (kernel p) = i :: queue (kernel p')
    end.
Proof.
  intros [Hq Hn Ho Hi Hf Hids Hw] Hne Hmax. unfold deliver_fuel. simpl in *. unfold signal_step.
  destruct (queue (kernel p)) as [|hd q'] eqn:Eq; simpl.
  - eexists None, _, _. split; [done|]. rewrite wrap64_id by u64. split_and!; try done.
  - destruct (wakers p) as [|[[i loc] w] ws] eqn:Ew; simpl in *; [done|]. simplify_eq.
    unfold position. simpl. rewrite decide_True by done. simpl.
    apply NoDup_cons in Hn as [Hhd Hn].
    destruct (Hw hd loc w) as (f & Hl & Hpk & <- & Hv); [by left|].
    destruct (Hf loc f Hl) as (v' & Hv' & _ & Hrest). rewrite Hv in Hv'. injection Hv' as <-.
    destruct (Hrest Hpk) as (Hlt & _ & Hpd). destruct (Hpd eq_refl) as [Hcm _].
    eexists (Some w), _, _. split; [done|]. simpl. split; [|split; [done|by exists (id f), loc, f]].
    split; simpl; try done.
    + intros j Hin. apply Ho. by right.
    + intros Hpos. by rewrite (Hi Hpos) in Eq.
    + intros l h Hl'. destruct (decide (loc = l)) as [<-|Hnl].
      * simplify_eq. exists v. rewrite lookup_insert_eq. split_and!; [done|congruence|].
        intros _. split; [done|]. split; [done|]. by intros ->.
      * destruct (Hf l h Hl') as (v' & Hv' & Hun & Hrest'). exists v'.
        rewrite lookup_insert_ne by done. split_and!; [done..|]. intros Hp.
        destruct (Hrest' Hp) as (Hlt' & Hnq & Hpd'). split; [done|]. split.
        -- intros Hnv Hin. apply Hnq; [done|by right].
        -- intros Hvp. destruct (Hpd' Hvp) as [Hc' Hex]. split; [done|]. intros _.
           destruct (Hex eq_refl) as [x [Heq|Hx]%elem_of_cons]; [|by exists x].
           simplify_eq.
    + intros j l x Hin. destruct (Hw j l x) as (h & Hh & Hp & Hj & Hvl); [by right|].
      exists h. split_and!; try done. rewrite lookup_insert_ne; [done|]. intros <-. simplify_eq.
      apply Hhd. rewrite list_elem_of_fmap. by exists (id f, loc, x).
Qed.

(** ** Withdrawal *)

Lemma filter_position ws i :
  NoDup ((λ e, e.1.1) <$> ws) →
  match position ws i with Some pos => delete pos ws | None => ws end =
  filter (λ e, e.1.1 ≠ i) ws.
Proof.
  induction ws as [|e ws IH]; [done|]. csimpl. intros [He Hn]%NoDup_cons. unfold position. simpl.
  rewrite filter_cons. destruct (decide (e.1.1 = i)) as [Hi|Hi].
  - rewrite decide_False by naive_solver. simpl. symmetry. apply list_filter_id.
    intros x Hx Heq. apply He. rewrite list_elem_of_fmap. exists x. by rewrite Heq.
  - rewrite decide_True by done. rewrite <- IH by done. unfold position.
    by destruct (list_find _ ws) as [[n x]|].
Qed.

Lemma filter_ids ws i :
  NoDup ((λ e : Z * nat * Z, e.1.1) <$> ws) →
  (λ e, e.1.1) <$> filter (λ e, e.1.1 ≠ i) ws = remove_first ((λ e, e.1.1) <$> ws) i.
Proof.
  intros Hn. rewrite remove_first_filter by done. clear Hn.
  induction ws as [|e ws IH]; [done|]. csimpl. rewrite !filter_cons.
  repeat case_decide; csimpl; by rewrite ?IH.
Qed.

(** Withdrawing takes the future's id out of the queue and its entry out of the wakers. *)
Lemma withdraw_unfold c p fl fs f b p' :
  pool_inv pending c p fl fs → withdraw p f = (b, p') →
  wakers p' = filter (λ e, e.1.1 ≠ id f) (wakers p) ∧ next_id p' = next_id p ∧
  permit (kernel p') = permit (kernel p) ∧
  queue (kernel p') = remove_first (queue (kernel p)) (id f) ∧ (b = true ↔ id f ∈ queue (kernel p)).
Proof.
  intros Hinv. destruct (Hinv) as [Hq Hn _ _ _ _ _]. unfold withdraw.
  destruct (remove_step (kernel p) (id f)) as [b0 k] eqn:Er.
  pose proof (remove_step_spec _ _ _ _ Er) as (Hpm & Hqk & Hb). simpl.
  assert (Hnw : NoDup ((λ e, e.1.1) <$> wakers p)).
  { destruct c; [rewrite Hq; constructor|by rewrite Hq]. }
  destruct b0; intros [= <- <-]; simpl.
  - rewrite <- (filter_position _ _ Hnw). by destruct (position (wakers p) (id f)).
  - split; [|done]. symmetry. apply list_filter_id. intros [[i l] w] Hx Heq. simpl in Heq. subst i.
    destruct c; [by rewrite Hq in Hx; apply elem_of_nil in Hx|].
    assert (id f ∈ queue (kernel p)) as Hin by (rewrite <- Hq, list_elem_of_fmap; by exists (id f, l, w)).
    by apply Hb in Hin.
Qed.

Lemma withdraw_spec c p fl fs loc f v b p' :
  pool_inv pending c p fl fs → fs !! loc = Some f → parked f = true → fl !! loc = Some v →
  withdraw p f = (b, p') →
  pool_inv pending c p' fl (delete loc fs) ∧ next_id p' = next_id p ∧
  permit (kernel p') = permit (kernel p) ∧
  (c = false → (b = true ↔ v = pending)) ∧ (b = true → v = pending).
Proof.
  intros Hinv Hl Hpk Hv Hwd.
  destruct (withdraw_unfold _ _ _ _ _ _ _ Hinv Hwd) as (Hws & Hnx & Hpm & Hqk & Hb).
  destruct Hinv as [Hq Hn Ho Hi Hf Hids Hw].
  destruct (Hf loc f Hl) as (v' & Hv' & _ & Hrest). rewrite Hv in Hv'. symmetry in Hv'. simplify_eq.
  destruct (Hrest Hpk) as (_ & Hnq & Hpd).
  assert (Hbv : b = true → v = pending).
  { intros Hb0%Hb. destruct (decide (v = pending)) as [|Hne]; [done|]. by apply Hnq in Hne. }
  assert (Hqs : ∀ i, i ∈ queue (kernel p') → i ∈ queue (kernel p)).
  { intros i. rewrite Hqk. apply elem_of_remove_first. }
  split; [|split_and!; [done..| |done]].
  - split; rewrite ?Hnx.
    + rewrite Hws. destruct c; [by rewrite Hq|]. rewrite Hqk, <- Hq. apply filter_ids. by rewrite Hq.
    + rewrite Hqk, remove_first_filter by done. by apply NoDup_filter.
    + intros i Hin. by apply Ho, Hqs.
    + intros Hpos. rewrite Hpm in Hpos. rewrite Hqk, (Hi Hpos). done.
    + intros l g [Hne Hl']%lookup_delete_Some. destruct (Hf l g Hl') as (v' & Hv' & Hun & Hrest').
      exists v'. split_and!; [done..|]. intros Hp. destruct (Hrest' Hp) as (Hlt & Hnq' & Hpd').
      split; [done|]. split; [intros Hvn Hin'%Hqs; by apply Hnq'|]. intros Hvp.
      destruct (Hpd' Hvp) as [Hc' Hex]. split; [done|]. intros Hc. destruct (Hex Hc) as [w Hin].
      exists w. rewrite Hws, list_elem_of_filter. split; [|done]. simpl. intros Heq.
      apply Hne. symmetry. by eapply Hids.
    + intros l l' g g' [? ?]%lookup_delete_Some [? ?]%lookup_delete_Some. by apply Hids.
    + intros i l w. rewrite Hws, list_elem_of_filter. intros [Hne Hin].
      destruct (Hw i l w Hin) as (g & Hg & Hp & <- & Hvl). exists g. split_and!; try done.
      rewrite lookup_delete_ne; [done|]. intros <-. simplify_eq.
  - intros ->. split; [done|]. intros Hvp. apply Hb. destruct (Hpd Hvp) as [_ Hex].
    destruct (Hex eq_refl) as [w Hin]. rewrite <- Hq, list_elem_of_fmap. by exists (id f, loc, w).
Qed.
End ops.
