(* ===== verification/Semaphore.v ===== *)
(** * Semaphore: the counting semaphore of [lion-utility/src/sync/semaphore.rs]

    The critical sections of the semaphore as functions on [SemaphoreInner] and the
    store of granted flags, and the system of a semaphore with its [Acquire] futures
    and permits as a transition function.  A poll reads the granted flag before it
    takes the lock, so it is two steps, [PollLoad] and [PollLock], between which
    other threads run.  [None] means that an action is not possible: a future that
    completed is not polled again, one that is being polled is not dropped. *)

From S2P Require Import Prelude UtilityLog Waiter WaiterPool.
Import Waiter WaiterPool.

Module Semaphore.

Record SemaphoreInner := mkInner { pool : Pool; closed : bool }.

Definition set_pool (g : SemaphoreInner) p := mkInner p (closed g).

Implicit Types (g : SemaphoreInner) (fl : gmap nat bool) (loc n : nat) (f : Waiting) (waker : Z).

(** [Semaphore::new] *)
Definition new (permits : Z) : SemaphoreInner := mkInner (mkPool (with_permits permits) [] 0) false.

Definition available_permits g : Z := permit (kernel (pool g)).

(** Distribute [n] permits; the wakers to wake, in order. *)
Fixpoint signal_n n g fl : option (list Z * SemaphoreInner * gmap nat bool) :=
  match n with
  | 0 => Some ([], g, fl)
  | S n' =>
      '(o, p, fl1) ← deliver (deliver_fuel (pool g)) true (pool g) fl;
      '(ws, g', fl') ← signal_n n' (set_pool g p) fl1;
      Some (option_list o ++ ws, g', fl')
  end.

(** The drop of a future that was not finished. *)
Definition drop_acquire_inner g fl loc f : option (list Z * SemaphoreInner * gmap nat bool) :=
  if negb (parked f) then Some ([], g, fl)
  else match withdraw (pool g) f with
       | (true, p) => Some ([], set_pool g p, fl)
       | (false, p) =>
           if bool_decide (fl !! loc = Some true) then
             if (permit (kernel p) <? u64_max)%Z then signal_n 1 (set_pool g p) fl
             else Some ([], set_pool g p, fl)
           else Some ([], set_pool g p, fl)
       end.

Inductive PollAcquire := Acquired | AcquireError | Suspended.

(** [granted.load], before the lock. *)
Definition poll_load fl loc : bool := bool_decide (fl !! loc = Some true).

(** The rest of [poll_acquire_inner], under the lock. *)
Definition poll_locked g loc f waker : PollAcquire * SemaphoreInner * Waiting :=
  if closed g then (AcquireError, g, f)
  else if negb (parked f) then
    match first_poll (pool g) loc f waker with
    | (Ready, p, f') => (Acquired, set_pool g p, f')
    | (Park _, p, f') => (Suspended, set_pool g p, f')
    end
  else (Suspended, set_pool g (refresh (pool g) f waker), f).

(** [poll_acquire_inner] without interference. *)
Definition poll_acquire_inner g fl loc f waker : PollAcquire * SemaphoreInner * Waiting :=
  if poll_load fl loc then (Acquired, g, f) else poll_locked g loc f waker.

Definition try_acquire g : bool * SemaphoreInner :=
  if closed g then (false, g)
  else let '(ok, k) := try_acquire_step (kernel (pool g)) in
       (ok, set_pool g (set_kernel (pool g) k)).

(** Every waker is taken out and woken. *)
Definition close g : list Z * SemaphoreInner :=
  (snd <$> wakers (pool g), mkInner (set_wakers (pool g) []) true).

(** ** A semaphore, its futures and its permits *)

(** [held] counts the live [SemaphorePermit]s, [wakes] is every waker woken so far. *)
Record Sys := mkSys {
  inner : SemaphoreInner;
  flags : gmap nat bool;
  acquires : gmap nat Waiting;
  polling : gset nat;
  held : nat;
  wakes : list Z;
}.

Inductive action :=
  | Acquire (loc : nat)
  | PollLoad (loc : nat)
  | PollLock (loc : nat) (waker : Z)
  | DropAcquire (loc : nat)
  | TryAcquire
  | DropPermit
  | ForgetPermit
  | AddPermits (n : nat)
  | Close.

Implicit Types (s : Sys) (a : action).

Definition init_sys (permits : Z) : Sys := mkSys (new permits) ∅ ∅ ∅ 0 [].

Definition release s n (h : nat) : option Sys :=
  '(ws, g, fl) ← signal_n n (inner s) (flags s);
  Some (mkSys g fl (acquires s) (polling s) h (wakes s ++ ws)).

(** [Acquire::drop], then the fields of the future. *)
Definition drop_acquire s loc f : option Sys :=
  '(ws, g, fl) ←
    (if completed f then Some ([], inner s, flags s)
     else drop_acquire_inner (inner s) (flags s) loc f);
  Some (mkSys g (delete loc fl) (delete loc (acquires s)) (polling s) (held s) (wakes s ++ ws)).

(** What [Acquire::poll] does with the result of [poll_acquire_inner]. *)
Definition finish_poll s loc (r : PollAcquire * SemaphoreInner * Waiting) : Sys :=
  match r with
  | (Acquired, g, f) =>
      mkSys g (flags s) (<[loc := set_completed f]> (acquires s)) (polling s ∖ {[loc]})
        (S (held s)) (wakes s)
  | (_, g, f) =>
      mkSys g (flags s) (<[loc := f]> (acquires s)) (polling s ∖ {[loc]}) (held s) (wakes s)
  end.

Definition sys_step s a : option Sys :=
  match a with
  | Acquire loc =>
      if decide (acquires s !! loc = None ∧ flags s !! loc = None)
      then Some (mkSys (inner s) (<[loc := false]> (flags s))
                   (<[loc := mkWaiting 0 false false]> (acquires s)) (polling s) (held s) (wakes s))
      else None
  | PollLoad loc =>
      f ← acquires s !! loc;
      if completed f || bool_decide (loc ∈ polling s) then None
      else if poll_load (flags s) loc
           then Some (finish_poll s loc (Acquired, inner s, f))
           else Some (mkSys (inner s) (flags s) (acquires s) ({[loc]} ∪ polling s) (held s) (wakes s))
  | PollLock loc waker =>
      f ← acquires s !! loc;
      if bool_decide (loc ∈ polling s)
      then Some (finish_poll s loc (poll_locked (inner s) loc f waker))
      else None
  | DropAcquire loc =>
      f ← acquires s !! loc;
      if bool_decide (loc ∈ polling s) then None else drop_acquire s loc f
  | TryAcquire =>
      let '(ok, g) := try_acquire (inner s) in
      Some (mkSys g (flags s) (acquires s) (polling s) (if ok then S (held s) else held s) (wakes s))
  | DropPermit => match held s with 0 => None | S h => release s 1 h end
  | ForgetPermit =>
      match held s with
      | 0 => None
      | S h => Some (mkSys (inner s) (flags s) (acquires s) (polling s) h (wakes s))
      end
  | AddPermits n => release s n (held s)
  | Close =>
      let '(ws, g) := close (inner s) in
      Some (mkSys g (flags s) (acquires s) (polling s) (held s) (wakes s ++ ws))
  end.

Definition sys_run s (acts : list action) : option Sys :=
  foldl (λ o a, s' ← o; sys_step s' a) (Some s) acts.

(** The change of the number of permits in the world. *)
Definition permits_delta a : Z :=
  match a with AddPermits n => Z.of_nat n | ForgetPermit => -1 | _ => 0 end.
Definition permits_added a : Z := match a with AddPermits n => Z.of_nat n | _ => 0 end.
Definition total_permits (n0 : Z) (acts : list action) : Z :=
  foldl (λ t a, t + permits_delta a)%Z n0 acts.
Definition added_permits (acts : list action) : Z :=
  foldl (λ t a, t + permits_added a)%Z 0%Z acts.
End Semaphore.
