(* ===== verification/SemInv.v ===== *)
(** * SemInv: the invariant of the semaphore, and its critical sections

    [sys_inv total s]: the pool invariant of the futures and wakers, and the permit
    count: the stored permits, the grants not yet polled and the permits held add up
    to [total]. *)

From S2P Require Import Prelude UtilityLog Waiter WaiterPool Semaphore.
Import Waiter WaiterPool Semaphore.

Section inv.
Implicit Types (g : SemaphoreInner) (fl : gmap nat bool) (fs : gmap nat Waiting).
Implicit Types (loc n : nat) (f : Waiting) (s : Sys) (total : Z).

Record sem_inv total g fl fs (h : nat) : Prop := {
  si_pool : pool_inv false (closed g) (pool g) fl fs;
  si_permit : (0 ≤ permit (kernel (pool g)))%Z;
  si_next : (0 ≤ next_id (pool g))%Z;
  si_total : (permit (kernel (pool g)) + Z.of_nat (delivered true fl fs) + Z.of_nat h = total)%Z;
}.

Record sys_inv total s : Prop := {
  sy_sem : sem_inv total (inner s) (flags s) (acquires s) (held s);
  sy_polling : ∀ loc, loc ∈ polling s → ∃ f, acquires s !! loc = Some f ∧ completed f = false;
}.

(** ** [signal_n] *)

(** How the flags and the wakers of a pool move when [ws] is woken: a waker stays, or its flag is
    set and it is woken. *)
Record flags_step (p p' : Pool) fl fl' (ws : list Z) : Prop := {
  fs_wakers : ∀ e, e ∈ wakers p' → e ∈ wakers p;
  fs_flags : ∀ loc, fl' !! loc = fl !! loc ∨ fl' !! loc = Some true;
  fs_woken : ∀ i loc w, (i, loc, w) ∈ wakers p →
    ((i, loc, w) ∈ wakers p' ∧ fl' !! loc = fl !! loc) ∨ (fl' !! loc = Some true ∧ w ∈ ws);
}.

Lemma deliver_flags c p fl fs :
  pool_inv false c p fl fs → (0 ≤ permit (kernel p) < u64_max)%Z →
  ∃ o p' fl', deliver (deliver_fuel p) true p fl = Some (o, p', fl') ∧
    pool_inv false c p' fl' fs ∧ next_id p' = next_id p ∧
    (0 ≤ permit (kernel p') ≤ permit (kernel p) + 1)%Z ∧
    (permit (kernel p') + Z.of_nat (delivered true fl' fs) = permit (kernel p) + Z.of_nat (delivered true fl fs) + 1)%Z ∧
    flags_step p p' fl fl' (option_list o).
Proof.
  intros Hinv Hmax. destruct c.
  - destruct (deliver_closed false (deliver_fuel p) true p fl fs) as (p' & Hd & Hinv' & Hnx & Hp);
      [done|unfold deliver_fuel; lia|done|].
    exists None, p', fl. split_and!; [done..|lia|lia|lia|].
    pose proof (pi_queue _ _ _ _ _ Hinv) as Hq. pose proof (pi_queue _ _ _ _ _ Hinv') as Hq'.
    simpl in *. split; [by rewrite Hq, Hq'|by left|]. rewrite Hq. by intros ? ? ? ?%elem_of_nil.
  - destruct (deliver_open false true p fl fs) as (o & p' & fl' & Hd & Hinv' & Hnx & Ho); [done..|].
    exists o, p', fl'. do 3 (split; [done|]). destruct o as [w|].
    + destruct Ho as (i & loc & f & Hws & -> & Hpm & Hl & Hc & Hv & _).
      split_and!; [lia|lia| |split].
      * rewrite (delivered_grant true fl fs loc f) by congruence. lia.
      * intros e He. rewrite Hws. by right.
      * intros l. destruct (decide (l = loc)) as [->|Hne]; [|left; by rewrite lookup_insert_ne].
        right. apply lookup_insert_eq.
      * intros j l x. rewrite Hws. intros [Heq|Hin]%elem_of_cons.
        -- simplify_eq. right. rewrite lookup_insert_eq. split; [done|by left].
        -- left. split; [done|]. rewrite lookup_insert_ne; [done|]. intros <-.
           destruct (pi_wakers _ _ _ _ _ Hinv' j loc x Hin) as (h & _ & _ & _ & Hh).
           by rewrite lookup_insert_eq in Hh.
    + destruct Ho as (Hq & -> & Hpm). split_and!; [lia|lia|lia|].
      assert (Hw : wakers p' = wakers p).
      { revert Hd. unfold deliver_fuel. simpl. unfold signal_step. rewrite Hq. by intros [= <-]. }
      split; [by rewrite Hw|by left|rewrite Hw; by left].
Qed.

Lemma flags_step_refl p fl : flags_step p p fl fl [].
Proof. split; auto. Qed.

Lemma flags_step_trans p p1 p2 fl fl1 fl2 ws ws1 :
  flags_step p p1 fl fl1 ws → flags_step p1 p2 fl1 fl2 ws1 → flags_step p p2 fl fl2 (ws ++ ws1).
Proof.
  intros [Hw Hf Hk] [Hw1 Hf1 Hk1]. split; [by eauto| |].
  - intros loc. destruct (Hf1 loc) as [->|?]; [done|by right].
  - intros i loc w Hin. rewrite elem_of_app. destruct (Hk i loc w Hin) as [[Hin1 <-]|[Ht Hws]].
    + destruct (Hk1 i loc w Hin1) as [?|[? ?]]; auto.
    + right. split; [|by left]. by destruct (Hf1 loc) as [->|?].
Qed.

Lemma signal_n_spec n g fl fs :
  pool_inv false (closed g) (pool g) fl fs →
  (0 ≤ permit (kernel (pool g)))%Z → (permit (kernel (pool g)) + Z.of_nat n ≤ u64_max)%Z →
  ∃ ws g' fl', signal_n n g fl = Some (ws, g', fl') ∧ closed g' = closed g ∧
    pool_inv false (closed g) (pool g') fl' fs ∧ next_id (pool g') = next_id (pool g) ∧
    (0 ≤ permit (kernel (pool g')))%Z ∧
    (permit (kernel (pool g')) + Z.of_nat (delivered true fl' fs) =
     permit (kernel (pool g)) + Z.of_nat (delivered true fl fs) + Z.of_nat n)%Z ∧
    flags_step (pool g) (pool g') fl fl' ws.
Proof.
  revert g fl. induction n as [|n IH]; intros g fl Hinv Hp Hmax.
  - exists [], g, fl. split_and!; try done; [lia|apply flags_step_refl].
  - destruct (deliver_flags _ _ _ _ Hinv) as (o & p' & fl1 & Hd & Hinv1 & Hnx & Hp1 & Hc1 & Hs1); [lia|].
    destruct (IH (set_pool g p') fl1) as (ws & g' & fl' & Hr & Hcl & Hinv' & Hnx' & Hp' & Hc' & Hs');
      [done|simpl; lia|simpl; lia|].
    simpl in *. exists (option_list o ++ ws), g', fl'. rewrite Hd. simpl. rewrite Hr. simpl.
    split_and!; [done..|congruence|done|lia|]; by eapply flags_step_trans.
Qed.

(** ** [drop_acquire_inner] *)

Lemma drop_acquire_spec g fl fs loc f total h :
  sem_inv total g fl fs h → (total ≤ u64_max)%Z →
  fs !! loc = Some f → completed f = false →
  ∃ ws g' fl', drop_acquire_inner g fl loc f = Some (ws, g', fl') ∧
    closed g' = closed g ∧ next_id (pool g') = next_id (pool g) ∧
    sem_inv total g' fl' (delete loc fs) h ∧
    ∀ i l w, l ≠ loc → (i, l, w) ∈ wakers (pool g) →
      ((i, l, w) ∈ wakers (pool g') ∧ fl' !! l = fl !! l) ∨ (fl' !! l = Some true ∧ w ∈ ws).
Proof.
  intros [Hinv Hp Hnx Ht] Hmax Hl Hc.
  destruct (pi_fut _ _ _ _ _ Hinv loc f Hl) as (v & Hv & Hun & _).
  unfold drop_acquire_inner. destruct (parked f) eqn:Hpk; simpl.
  - destruct (withdraw (pool g) f) as [b p'] eqn:Ew.
    destruct (withdraw_spec _ _ _ _ _ _ _ _ _ _ Hinv Hl Hpk Hv Ew) as (Hinv' & Hnx' & Hpm & Hop & Hb).
    assert (Hkeep : ∀ i l w, l ≠ loc → (i, l, w) ∈ wakers (pool g) → (i, l, w) ∈ wakers p').
    { destruct (withdraw_unfold _ _ _ _ _ _ _ _ Hinv Ew) as (-> & _).
      intros i l w Hne Hin. rewrite list_elem_of_filter. split; [simpl|done]. intros ->.
      destruct (pi_wakers _ _ _ _ _ Hinv _ _ _ Hin) as (f' & Hl' & Hpk' & Hid & _).
      apply Hne. by eapply (pi_ids _ _ _ _ _ Hinv). }
    destruct b.
    + assert (Hd := delivered_delete_not true fl fs loc). rewrite Hv, (Hb eq_refl) in Hd.
      specialize (Hd ltac:(done)).
      exists [], (set_pool g p'), fl. split_and!; [done..| |by auto].
      split; simpl; [done|lia|lia|lia].
    + case_bool_decide as Hg.
      * pose proof (delivered_delete_granted true fl fs loc f Hl Hc Hg). destruct (Z.ltb_spec (permit (kernel p')) u64_max); [|lia].
        destruct (signal_n_spec 1 (set_pool g p') fl (delete loc fs))
          as (ws & g' & fl' & Hr & Hcl & Hi' & Hn' & Hp' & Hc' & Hs'); [done|simpl; lia|simpl; lia|].
        exists ws, g', fl'. simpl in *. split_and!; [done..|congruence| |].
        2: { intros i l w Hne Hin. by apply (fs_woken _ _ _ _ _ Hs'), Hkeep. }
        split; [by rewrite Hcl|done|lia|lia].
      * pose proof (delivered_delete_not true fl fs loc Hg).
        exists [], (set_pool g p'), fl. split_and!; [done..| |by auto].
        split; simpl; [done|lia|lia|lia].
  - assert (Hd := delivered_delete_not true fl fs loc). rewrite Hv, (Hun eq_refl) in Hd.
    specialize (Hd ltac:(done)).
    exists [], g, fl. split_and!; [done..| |by auto].
    split; simpl; [|lia|lia|lia]. eapply pool_inv_delete; eauto.
Qed.
End inv.

Section steps.
Implicit Types (g : SemaphoreInner) (fl : gmap nat bool) (fs : gmap nat Waiting).
Implicit Types (loc n : nat) (f : Waiting) (s : Sys) (total : Z).

(** Replacing a future that holds no grant. *)
Lemma delivered_same fl fs loc f f' :
  fs !! loc = Some f → fl !! loc ≠ Some true →
  delivered true fl (<[loc := f']> fs) = delivered true fl fs.
Proof.
  intros Hl Hv. rewrite (delivered_insert true fl fl) by done.
  by apply delivered_delete_not.
Qed.

(** ** [poll_acquire_inner] *)

Lemma poll_locked_spec g fl fs loc f waker total h r g' f' :
  sem_inv total g fl fs h → fs !! loc = Some f → completed f = false →
  (next_id (pool g) < u64_max)%Z →
  poll_locked g loc f waker = (r, g', f') →
  closed g' = closed g ∧ (next_id (pool g') ≤ next_id (pool g) + 1)%Z ∧ completed f' = false ∧
  match r with
  | Acquired => sem_inv total g' fl (<[loc := set_completed f']> fs) (S h)
  | _ => sem_inv total g' fl (<[loc := f']> fs) h
  end.
Proof.
  intros [Hinv Hp Hnx Ht] Hl Hc Hmax. unfold poll_locked.
  destruct (closed g) eqn:Ecl.
  { intros [= <- <- <-]. rewrite insert_id by done. rewrite <- Ecl in Hinv.
    split_and!; [done|lia|done|by split]. }
  destruct (parked f) eqn:Epk; simpl.
  { intros [= <- <- <-]. rewrite insert_id by done.
    assert (Hr : next_id (refresh (pool g) f waker) = next_id (pool g) ∧
      kernel (refresh (pool g) f waker) = kernel (pool g)).
    { unfold refresh. by destruct (position _ _). }
    destruct Hr as [Hrn Hrk]. simpl. rewrite Hrn. split_and!; [done|lia|done|].
    split; simpl; rewrite ?Hrn, ?Hrk; [|lia..]. rewrite Ecl. by apply pool_inv_refresh. }
  destruct (first_poll (pool g) loc f waker) as [[a p'] f1] eqn:Ef.
  destruct (first_poll_spec _ _ _ _ _ _ _ _ _ _ _ Hinv eq_refl Hl Epk Hc (conj Hnx Hmax) Ef)
    as (Hn' & [(Hpos & -> & Hpm & Hpk' & Hc' & Hinv')|(Hle & -> & Hpm & Hpk' & Hc' & Hinv')]);
    intros [= <- <- <-]; simpl; (split; [done|]).
  - split; [lia|]. split; [done|]. destruct (pi_fut _ _ _ _ _ Hinv loc f Hl) as (v & Hv & Hun & _).
    split; simpl; [rewrite Ecl; by apply Hinv'|lia|lia|].
    rewrite (delivered_same fl fs loc f) by (done || (rewrite Hv, Hun; done)). lia.
  - split; [lia|]. split; [done|]. destruct (pi_fut _ _ _ _ _ Hinv loc f Hl) as (v & Hv & Hun & _).
    split; simpl; [by rewrite Ecl|lia|lia|].
    rewrite (delivered_same fl fs loc f) by (done || (rewrite Hv, Hun; done)). lia.
Qed.

(** ** Every action keeps the invariant *)

Lemma release_inv total s n h :
  sys_inv total s → (permit (kernel (pool (inner s))) + Z.of_nat n ≤ u64_max)%Z →
  ∃ s', release s n h = Some s' ∧
    sys_inv (total + Z.of_nat n + Z.of_nat h - Z.of_nat (held s)) s' ∧
    next_id (pool (inner s')) = next_id (pool (inner s)) ∧ closed (inner s') = closed (inner s).
Proof.
  intros [[Hinv Hp Hnx Ht] Hpl] Hmax. unfold release.
  destruct (signal_n_spec n (inner s) (flags s) (acquires s))
    as (ws & g' & fl' & -> & Hcl & Hi' & Hn' & Hp' & Hc' & _); [done..|lia|].
  simpl. eexists. split; [done|]. split; [|by split]. split; [|done].
  split; simpl; [by rewrite Hcl|lia|lia|lia].
Qed.

Lemma drop_inv total s loc f :
  sys_inv total s → (total ≤ u64_max)%Z → acquires s !! loc = Some f → loc ∉ polling s →
  ∃ s', drop_acquire s loc f = Some s' ∧ sys_inv total s' ∧
    next_id (pool (inner s')) = next_id (pool (inner s)) ∧ closed (inner s') = closed (inner s).
Proof.
  intros [Hsem Hpl] Hmax Hl Hnp.
  assert (Hpl' : ∀ l, l ∈ polling s → ∃ f, delete loc (acquires s) !! l = Some f ∧ completed f = false).
  { intros l Hin. destruct (Hpl l Hin) as (f' & Hf' & ?). exists f'.
    rewrite lookup_delete_ne; [done|]. by intros <-. }
  assert (Hfin : ∀ g fl, sem_inv total g fl (delete loc (acquires s)) (held s) →
    sem_inv total g (delete loc fl) (delete loc (acquires s)) (held s)).
  { intros g fl [Hinv Hp Hnx Ht]. assert (Hext : ∀ l, is_Some (delete loc (acquires s) !! l) →
      fl !! l = delete loc fl !! l).
    { intros l [x [Hne _]%lookup_delete_Some]. by rewrite lookup_delete_ne. }
    split; [|done..|]; [by eapply pool_inv_flags|]. by rewrite <- (delivered_ext true fl). }
  unfold drop_acquire. destruct (completed f) eqn:Ec; simpl.
  - eexists. split; [done|]. split; [|done]. split; simpl; [apply Hfin|done].
    destruct Hsem as [Hinv Hp Hnx Ht]. split; [|done..|].
    + eapply pool_inv_delete; eauto.
    + by rewrite (delivered_delete_done true _ _ loc f).
  - destruct (drop_acquire_spec _ _ _ _ _ _ _ Hsem Hmax Hl Ec) as (ws & g' & fl' & -> & Hcl & Hn' & Hs' & _).
    simpl. eexists. split; [done|]. split; [|by split]. split; simpl; [by apply Hfin|done].
Qed.

Lemma finish_inv total s loc f r g f' :
  sys_inv total s → acquires s !! loc = Some f → completed f' = false →
  match r with
  | Acquired => sem_inv total g (flags s) (<[loc := set_completed f']> (acquires s)) (S (held s))
  | _ => sem_inv total g (flags s) (<[loc := f']> (acquires s)) (held s)
  end →
  sys_inv total (finish_poll s loc (r, g, f')).
Proof.
  intros [_ Hpl] Hl Hc Hr.
  assert (Hpl' : ∀ l x, l ∈ polling s ∖ {[loc]} →
    ∃ f1, <[loc := x]> (acquires s) !! l = Some f1 ∧ completed f1 = false).
  { intros l x [Hin Hne]%elem_of_difference. destruct (Hpl l Hin) as (f1 & Hf1 & ?). exists f1.
    rewrite lookup_insert_ne; [done|]. intros ->. by apply Hne, elem_of_singleton. }
  destruct r; simpl; split; simpl; auto.
Qed.

Lemma sem_load_inv total s loc f :
  sys_inv total s → acquires s !! loc = Some f → completed f = false →
  poll_load (flags s) loc = true → sys_inv total (finish_poll s loc (Acquired, inner s, f)).
Proof.
  intros Hs Hl Hc Hld%bool_decide_eq_true. eapply finish_inv; [done..|].
  destruct Hs as [[Hinv Hp Hnx Ht] _]. split; [|done..|].
  - by eapply pool_inv_complete.
  - pose proof (delivered_complete true _ _ _ _ Hl Hc Hld). lia.
Qed.

Lemma sem_step_inv total s a :
  sys_inv total s → (total + permits_added a ≤ u64_max)%Z →
  (next_id (pool (inner s)) < u64_max)%Z →
  ∀ s', sys_step s a = Some s' →
  sys_inv (total + permits_delta a) s' ∧
  (next_id (pool (inner s')) ≤ next_id (pool (inner s)) + 1)%Z ∧
  (a ≠ Close → closed (inner s') = closed (inner s)).
Proof.
  intros Hs Hmax Hnx s'. destruct a as [loc|loc|loc waker|loc| | | |n|]; simpl in *.
  - case_decide as Hg; [|done]. intros [= <-]. simpl. rewrite Z.add_0_r. split; [|split; [lia|done]].
    destruct Hg as [Hg Hgf], Hs as [[Hinv Hp Hnx' Ht] Hpl]. split; simpl.
    + split; [by apply pool_inv_new|done..|].
      rewrite (delivered_insert true (flags s)); [by rewrite delete_id by done|by rewrite lookup_insert_eq|].
      intros l Hne. by rewrite lookup_insert_ne.
    + intros l Hin. destruct (Hpl l Hin) as (f & Hf & ?). exists f.
      rewrite lookup_insert_ne; [done|congruence].
  - destruct (acquires s !! loc) as [f|] eqn:El; simpl; [|done].
    destruct (completed f) eqn:Ec; simpl; [done|]. case_bool_decide as Hin; [done|].
    rewrite Z.add_0_r. destruct (poll_load (flags s) loc) eqn:Eld; intros [= <-]; (split; [|split; [simpl; lia|done]]).
    + by eapply sem_load_inv.
    + destruct Hs as [Hsem Hpl]. split; simpl; [done|]. intros l [->%elem_of_singleton|Hl]%elem_of_union; eauto.
  - destruct (acquires s !! loc) as [f|] eqn:El; simpl; [|done]. case_bool_decide as Hin; [|done].
    rewrite Z.add_0_r. intros [= <-].
    destruct (poll_locked (inner s) loc f waker) as [[r g] f'] eqn:Ep.
    assert (Hc : completed f = false) by (destruct Hs as [_ Hpl]; destruct (Hpl loc Hin); naive_solver).
    destruct (poll_locked_spec _ _ _ _ _ _ _ _ _ _ _ (sy_sem _ _ Hs) El Hc Hnx Ep) as (Hcl & Hn' & Hc' & Hr).
    split; [by eapply finish_inv|]. destruct r; simpl; (split; [lia|done]).
  - destruct (acquires s !! loc) as [f|] eqn:El; simpl; [|done]. case_bool_decide as Hin; [done|].
    rewrite Z.add_0_r. destruct (drop_inv total s loc f) as (s1 & -> & Hs1 & Hn1 & Hc1); [done|lia|done..|].
    intros [= <-]. split; [done|split; [lia|done]].
  - rewrite Z.add_0_r. unfold try_acquire, try_acquire_step. destruct (closed (inner s)) eqn:Ecl.
    { intros [= <-]. simpl. split; [|split; [lia|done]]. by destruct s. }
    destruct Hs as [[Hinv Hp Hnx' Ht] Hpl]. case_cmp; intros [= <-]; simpl; (split; [|split; [lia|done]]);
      (split; [|done]); split; simpl; try lia; rewrite Ecl in *.
    + destruct Hinv as [Hq Hn Ho Hi Hf Hids Hw]. split; simpl; try done. intros Hpos. apply Hi. lia.
    + by destruct (pool (inner s)).
  - destruct (held s) as [|h] eqn:Eh; [done|]. destruct (release_inv total s 1 h) as (s1 & -> & Hs1 & Hn1 & Hc1);
      [done| |].
    { destruct Hs as [[_ Hp _ Ht] _]. lia. }
    intros [= <-]. split; [|split; [lia|done]]. rewrite Eh in Hs1.
    by replace (total + 0)%Z with (total + Z.of_nat 1 + Z.of_nat h - Z.of_nat (S h))%Z by lia.
  - destruct (held s) as [|h] eqn:Eh; [done|]. intros [= <-]. simpl. split; [|split; [lia|done]].
    destruct Hs as [[Hinv Hp Hnx' Ht] Hpl]. split; [|done]. split; simpl; [done..|lia].
  - destruct (release_inv total s n (held s)) as (s1 & -> & Hs1 & Hn1 & Hc1); [done| |].
    { destruct Hs as [[_ Hp _ Ht] _]. lia. }
    intros [= <-]. split; [|split; [lia|done]].
    by replace (total + Z.of_nat n)%Z with (total + Z.of_nat n + Z.of_nat (held s) - Z.of_nat (held s))%Z by lia.
  - intros [= <-]. simpl. rewrite Z.add_0_r. split; [|split; [lia|done]].
    destruct Hs as [[Hinv Hp Hnx' Ht] Hpl]. split; [|done]. split; simpl; [|done..].
    by eapply pool_inv_close.
Qed.
Lemma sem_init_inv total : (0 ≤ total)%Z → sys_inv total (init_sys total).
Proof.
  intros H. split; [split; simpl|]; [split|lia|lia| |]; simpl; try done; try set_solver.
  - constructor.
  - unfold delivered. rewrite map_filter_empty, map_size_empty. lia.
Qed.

End steps.
