(* ===== verification/SemSpec.v ===== *)
(** * SemSpec: what the semaphore promises

    Permits are conserved over every interleaving; a future that waits keeps its
    waker until it is granted a permit or the semaphore is closed, and is woken in
    that very step; the actions of the system never get stuck.  The last property
    shows the interleaving in which a poll with a new waker is not heard. *)

From S2P Require Import Prelude UtilityLog Waiter WaiterPool Semaphore SemInv.
Import Waiter WaiterPool Semaphore.

Section spec.
Implicit Types (loc n : nat) (f : Waiting) (s : Sys) (a : action) (acts : list action) (total : Z).

(** ** Runs *)

Lemma sem_run_None acts : foldl (λ o a, s' ← o; sys_step s' a) None acts = None.
Proof. by induction acts. Qed.

Lemma run_cons s a acts :
  sys_run s (a :: acts) = s' ← sys_step s a; sys_run s' acts.
Proof. unfold sys_run. simpl. destruct (sys_step s a); simpl; [done|apply sem_run_None]. Qed.

Lemma added_cons_gen acts t : foldl (λ t a, t + permits_added a)%Z t acts = (t + added_permits acts)%Z.
Proof.
  unfold added_permits. revert t. induction acts as [|a acts IH]; intros t; simpl; [lia|].
  rewrite IH, (IH (0 + permits_added a)%Z). lia.
Qed.

Lemma added_cons a acts : added_permits (a :: acts) = (permits_added a + added_permits acts)%Z.
Proof. unfold added_permits at 1. simpl. rewrite added_cons_gen. lia. Qed.

Lemma added_nonneg acts : (0 ≤ added_permits acts)%Z.
Proof.
  induction acts as [|a acts IH]; [done|]. rewrite added_cons. destruct a; simpl; lia.
Qed.

Lemma delta_added a : (permits_delta a ≤ permits_added a)%Z.
Proof. destruct a; simpl; lia. Qed.

Lemma sem_run_inv total s acts s' :
  sys_inv total s → (total + added_permits acts ≤ u64_max)%Z →
  (next_id (pool (inner s)) + Z.of_nat (length acts) ≤ u64_max)%Z →
  sys_run s acts = Some s' →
  sys_inv (total_permits total acts) s' ∧
  (next_id (pool (inner s')) ≤ next_id (pool (inner s)) + Z.of_nat (length acts))%Z.
Proof.
  revert total s. induction acts as [|a acts IH]; intros total s Hs Hmax Hnx.
  - intros [= <-]. split; [done|simpl; lia].
  - rewrite run_cons. destruct (sys_step s a) as [s1|] eqn:Ea; simpl; [|done]. intros Hr.
    rewrite added_cons in Hmax. pose proof (added_nonneg acts). pose proof (delta_added a).
    simpl in Hnx. destruct (sem_step_inv total s a Hs ltac:(lia) ltac:(lia) s1 Ea) as (Hs1 & Hn1 & _).
    destruct (IH _ s1 Hs1 ltac:(lia) ltac:(lia) Hr) as [Hs' Hn']. split; [done|lia].
Qed.

(** The hypotheses of a run: the permits fit in 64 bits, and so do the waiter ids. *)
Definition bounded p0 acts : Prop :=
  (0 ≤ p0 ∧ p0 + added_permits acts ≤ u64_max ∧ Z.of_nat (length acts) ≤ u64_max)%Z.

Lemma bounded_inv p0 acts s :
  bounded p0 acts → sys_run (init_sys p0) acts = Some s →
  sys_inv (total_permits p0 acts) s ∧ (next_id (pool (inner s)) ≤ Z.of_nat (length acts))%Z.
Proof.
  intros (Hn & Hadd & Hlen) Hr. eapply sem_run_inv in Hr as [Hs Hnx]; [done|by apply sem_init_inv|done|].
  simpl. lia.
Qed.

(** ** The waker of a future that waits *)

(** [w] is registered for the future at [loc], which waits. *)
Definition waits s loc f w : Prop :=
  acquires s !! loc = Some f ∧ parked f = true ∧ flags s !! loc = Some false ∧
  (id f, loc, w) ∈ wakers (pool (inner s)).

Definition woken_by s s' w : Prop := ∃ ws, wakes s' = wakes s ++ ws ∧ w ∈ ws.

Lemma refresh_keeps c p fl fs loc f f' w w' i :
  pool_inv (V := bool) false c p fl fs → fs !! loc = Some f → parked f = true → id f ≠ id f' →
  i = id f → (i, loc, w) ∈ wakers p → (i, loc, w) ∈ wakers (refresh p f' w').
Proof.
  intros Hinv Hl Hpk Hne -> Hin. unfold refresh.
  destruct (position (wakers p) (id f')) as [pos|] eqn:Ep; [|done].
  apply position_Some in Ep as (l & x & Hpos). simpl.
  apply list_elem_of_lookup_1 in Hin as [k Hk]. apply list_elem_of_lookup_2 with k.
  rewrite list_lookup_alter. case_decide; [|done]. subst. congruence.
Qed.

Lemma refresh_own p f loc w w' :
  NoDup ((λ e, e.1.1) <$> wakers p) →
  (id f, loc, w) ∈ wakers p → (id f, loc, w') ∈ wakers (refresh p f w').
Proof.
  intros Hn Hin. unfold refresh. destruct (position_is_Some _ _ _ _ Hin) as [pos Ep]. rewrite Ep.
  apply position_Some in Ep as (l & x & Hpos). simpl.
  apply list_elem_of_lookup_1 in Hin as [k Hk].
  assert (k = pos) as ->.
  { eapply NoDup_lookup; [done|..]; rewrite list_lookup_fmap; [rewrite Hk|rewrite Hpos]; done. }
  simplify_eq. apply list_elem_of_lookup_2 with pos. by rewrite list_lookup_alter, decide_True, Hk by done.
Qed.

(** What one action does to a future that waits. *)
Definition waiter_after a s s' loc f w : Prop :=
  a = DropAcquire loc ∨
  (∃ w', waits s' loc f w' ∧ (w' = w ∨ a = PollLock loc w')) ∨
  ((flags s' !! loc = Some true ∨ closed (inner s') = true) ∧ woken_by s s' w).

Lemma flags_step_after a s s' loc f w ws :
  flags_step (pool (inner s)) (pool (inner s')) (flags s) (flags s') ws →
  waits s loc f w → acquires s' !! loc = Some f → wakes s' = wakes s ++ ws →
  waiter_after a s s' loc f w.
Proof.
  intros Hstep (Hl & Hpk & Hfl & Hin) Hl' Hws.
  destruct (fs_woken _ _ _ _ _ Hstep _ _ _ Hin) as [[Hin' Heq]|[Ht Hw]].
  - right; left. exists w. split; [|by left]. split_and!; [done..| |done]. by rewrite Heq.
  - right; right. split; [by left|]. by exists ws.
Qed.

Lemma release_after total a s n h s' loc f w :
  sys_inv total s → (permit (kernel (pool (inner s))) + Z.of_nat n ≤ u64_max)%Z →
  release s n h = Some s' → waits s loc f w → waiter_after a s s' loc f w.
Proof.
  intros [[Hinv Hp Hnx Ht] _] Hmax. unfold release.
  destruct (signal_n_spec n (inner s) (flags s) (acquires s))
    as (ws & g' & fl' & -> & _ & _ & _ & _ & _ & Hstep); [done..|].
  intros [= <-] Hwt. eapply flags_step_after; [done..|by destruct Hwt|done].
Qed.

Lemma locked_after total s loc0 f0 waker loc f w :
  sys_inv total s → loc0 ∈ polling s → acquires s !! loc0 = Some f0 → closed (inner s) = false →
  waits s loc f w →
  waiter_after (PollLock loc0 waker) s
    (finish_poll s loc0 (poll_locked (inner s) loc0 f0 waker)) loc f w.
Proof.
  intros [[Hinv Hp Hnx Ht] Hpl] Hin0 Hl0 Hcl (Hl & Hpk & Hfl & Hin). right; left.
  unfold poll_locked. rewrite Hcl. destruct (decide (loc0 = loc)) as [->|Hne].
  - simplify_eq. rewrite Hpk. simpl. exists waker. split; [|by right].
    split_and!; simpl; [by apply lookup_insert_eq|done..|]. eapply refresh_own; [|done].
    rewrite Hcl in Hinv. pose proof (pi_queue _ _ _ _ _ Hinv) as Hq. simpl in Hq. rewrite Hq.
    apply Hinv.
  - exists w. split; [|by left]. destruct (parked f0) eqn:Epk; simpl.
    + split_and!; simpl; [by rewrite lookup_insert_ne|done..|].
      eapply refresh_keeps; [done..| |done|done]. intros Heq. apply Hne.
      symmetry. by eapply (pi_ids _ _ _ _ _ Hinv).
    + unfold first_poll, wait_step. case_cmp; simpl; (split_and!; simpl; [by rewrite lookup_insert_ne|done..|]);
        [done|]. rewrite elem_of_app. by left.
Qed.

Lemma step_after total s a s' loc f w :
  sys_inv total s → (total + permits_added a ≤ u64_max)%Z → closed (inner s) = false →
  sys_step s a = Some s' → waits s loc f w → waiter_after a s s' loc f w.
Proof.
  intros Hs Hmax Hcl Hstep Hwt. pose proof Hwt as (Hl & Hpk & Hfl & Hin).
  pose proof Hs as [[Hinv Hp Hnx Ht] Hpl].
  destruct a as [loc0|loc0|loc0 waker|loc0| | | |n|]; simpl in *.
  - case_decide as Hg; [|done]. simplify_eq. right; left. exists w. split; [|by left].
    destruct Hg as [Hg _]. assert (loc0 ≠ loc) by congruence.
    split_and!; simpl; [by rewrite lookup_insert_ne|done|by rewrite lookup_insert_ne|done].
  - destruct (acquires s !! loc0) as [f0|] eqn:El; simpl in *; [|done].
    destruct (completed f0); simpl in *; [done|]. case_bool_decide; [done|].
    destruct (poll_load (flags s) loc0) eqn:Eld; simplify_eq; right; left; exists w; (split; [|by left]).
    + unfold poll_load in Eld. apply bool_decide_eq_true in Eld.
      split_and!; simpl; [rewrite lookup_insert_ne; congruence|done..].
    + done.
  - destruct (acquires s !! loc0) as [f0|] eqn:El; simpl in *; [|done].
    case_bool_decide; [|done]. simplify_eq. by eapply locked_after.
  - destruct (acquires s !! loc0) as [f0|] eqn:El; simpl in *; [|done].
    case_bool_decide; [done|]. destruct (decide (loc0 = loc)) as [->|Hne]; [by left|].
    unfold drop_acquire in Hstep. destruct (completed f0) eqn:Ec; simpl in *.
    + simplify_eq. right; left. exists w. split; [|by left].
      split_and!; simpl; [by rewrite lookup_delete_ne|done|by rewrite lookup_delete_ne|done].
    + destruct (drop_acquire_spec _ _ _ loc0 f0 _ _ (sy_sem _ _ Hs)) as
        (ws & g' & fl' & Hd & _ & _ & _ & Hkeep); [lia|done..|].
      rewrite Hd in Hstep. simplify_eq/=.
      destruct (Hkeep _ loc w ltac:(congruence) Hin) as [[Hin' Heq]|[Htr Hw]].
      * right; left. exists w. split; [|by left].
        split_and!; simpl; [by rewrite lookup_delete_ne|done| |done].
        by rewrite lookup_delete_ne, Heq by done.
      * right; right. split; [left; simpl; by rewrite lookup_delete_ne|]. by exists ws.
  - destruct (try_acquire (inner s)) as [ok g] eqn:Et. simplify_eq. right; left. exists w.
    split; [|by left]. split_and!; simpl; [done..|]. revert Et. unfold try_acquire, try_acquire_step.
    rewrite Hcl. by case_cmp; intros [= <- <-].
  - destruct (held s) as [|h] eqn:Eh; [done|]. eapply release_after; [done| |done..]. lia.
  - destruct (held s); [done|]. simplify_eq. right; left. exists w. by split; [|left].
  - eapply release_after; [done| |done..]. lia.
  - simplify_eq. right; right. split; [by right|]. eexists. split; [done|].
    rewrite list_elem_of_fmap. by exists (id f, loc, w).
Qed.
End spec.

(** ** No action gets stuck *)

(** The guards of the actions, without the loops they run. *)
Definition enabled (s : Sys) (a : action) : Prop :=
  match a with
  | Acquire loc => acquires s !! loc = None ∧ flags s !! loc = None
  | PollLoad loc => ∃ f, acquires s !! loc = Some f ∧ completed f = false ∧ loc ∉ polling s
  | PollLock loc _ => loc ∈ polling s
  | DropAcquire loc => is_Some (acquires s !! loc) ∧ loc ∉ polling s
  | DropPermit | ForgetPermit => held s ≠ 0
  | TryAcquire | AddPermits _ | Close => True
  end.

Lemma enabled_step total s a :
  sys_inv total s → (total + permits_added a ≤ u64_max)%Z → enabled s a → is_Some (sys_step s a).
Proof.
  intros Hs Hmax Hen. pose proof Hs as [[Hinv Hp Hnx Ht] Hpl]. destruct a; simpl in *.
  - by rewrite decide_True.
  - destruct Hen as (f & -> & Hc & Hin). simpl. rewrite Hc, bool_decide_false by done. simpl.
    by case_match.
  - destruct (Hpl loc Hen) as (f & -> & _). simpl. by rewrite bool_decide_true.
  - destruct Hen as [[f Hf] Hin]. rewrite Hf. simpl. rewrite bool_decide_false by done.
    destruct (drop_inv total s loc f Hs ltac:(lia) Hf Hin) as (s1 & -> & _). done.
  - by destruct (try_acquire (inner s)).
  - destruct (held s) as [|h] eqn:Eh; [done|].
    destruct (release_inv total s 1 h Hs) as (s1 & -> & _); [lia|done].
  - by destruct (held s).
  - destruct (release_inv total s n (held s) Hs) as (s1 & -> & _); [lia|done].
  - done.
Qed.

Lemma total_snoc p0 acts a : total_permits p0 (acts ++ [a]) = (total_permits p0 acts + permits_delta a)%Z.
Proof. unfold total_permits. by rewrite foldl_app. Qed.

Lemma added_app acts acts' : added_permits (acts ++ acts') = (added_permits acts + added_permits acts')%Z.
Proof.
  induction acts as [|a acts IH]; [done|]. simpl. rewrite !added_cons, IH. lia.
Qed.

Lemma total_added p0 acts : (total_permits p0 acts ≤ p0 + added_permits acts)%Z.
Proof.
  induction acts as [|a acts IH] using rev_ind; [unfold added_permits; simpl; lia|].
  rewrite total_snoc, added_app. pose proof (delta_added a).
  replace (added_permits [a]) with (permits_added a) by (unfold added_permits; simpl; lia). lia.
Qed.

(** What a bounded run and its next action give. *)
Lemma bounded_snoc p0 acts a s :
  bounded p0 (acts ++ [a]) → sys_run (init_sys p0) acts = Some s →
  sys_inv (total_permits p0 acts) s ∧ (total_permits p0 acts + permits_added a ≤ u64_max)%Z.
Proof.
  intros (Hn & Hadd & Hlen) Hr. rewrite added_app in Hadd. rewrite length_app in Hlen. simpl in Hlen.
  assert (added_permits [a] = permits_added a) as Ha by (unfold added_permits; simpl; lia).
  assert (0 ≤ permits_added a)%Z by (destruct a; simpl; lia).
  pose proof (total_added p0 acts). split; [|lia].
  eapply bounded_inv; [|done]. split_and!; lia.
Qed.

(** ** Properties *)

(** C13. Permits are conserved: after any interleaving of acquires, polls, drops, releases and
    [close], the stored permits, the permits granted to futures that did not poll them yet and the
    permits held add up to the initial permits plus those added, less those forgotten. *)
Theorem semaphore_permits (p0 : Z) (acts : list action) (s : Sys) :
  bounded p0 acts → sys_run (init_sys p0) acts = Some s →
  (0 ≤ available_permits (inner s) ∧
   available_permits (inner s) + Z.of_nat (delivered true (flags s) (acquires s)) +
     Z.of_nat (held s) = total_permits p0 acts)%Z.
Proof.
  intros Hb Hr. destruct (bounded_inv _ _ _ Hb Hr) as [[[Hinv Hp Hnx Ht] _] _]. by split.
Qed.

(** Two futures on one permit: the second is granted it when the first drops its permit, and
    passes it back when it is dropped unpolled. *)
Definition sample : list action :=
  [Acquire 0; Acquire 1; PollLoad 0; PollLock 0 10; PollLoad 1; PollLock 1 11; DropPermit].

Lemma semaphore_permits_witness :
  ∃ s, sys_run (init_sys 1) sample = Some s ∧ flags s !! 1 = Some true ∧
    (available_permits (inner s) + Z.of_nat (delivered true (flags s) (acquires s)) +
     Z.of_nat (held s) = 1)%Z.
Proof.
  eexists. split; [vm_compute; reflexivity|]. split; [vm_compute; reflexivity|].
  eapply (semaphore_permits 1 sample); [|vm_compute; reflexivity].
  split; [lia|]. split; vm_compute; discriminate.
Defined.

(** No wake-up is lost: in a semaphore that is not closed a parked future without a grant
    keeps a registered waker and there is no permit to be had; and the next action either leaves it
    waiting (with the same waker, or the one it polled with), or is its own drop, or grants it a
    permit or closes the semaphore, and then wakes that waker in the same step. *)
Theorem semaphore_no_lost_wakeup (p0 : Z) (acts : list action) (s : Sys) (loc : nat) (f : Waiting) :
  bounded p0 acts → sys_run (init_sys p0) acts = Some s →
  acquires s !! loc = Some f → parked f = true → flags s !! loc = Some false →
  closed (inner s) = false →
  available_permits (inner s) = 0%Z ∧
  ∃ w, waits s loc f w ∧
    ∀ a s', bounded p0 (acts ++ [a]) → sys_step s a = Some s' → waiter_after a s s' loc f w.
Proof.
  intros Hb Hr Hl Hpk Hfl Hcl. destruct (bounded_inv _ _ _ Hb Hr) as [[[Hinv Hp Hnx Ht] _] _].
  destruct (pi_fut _ _ _ _ _ Hinv loc f Hl) as (v & Hv & _ & Hw). rewrite Hfl in Hv. simplify_eq.
  destruct (Hw Hpk) as (_ & _ & Hpd). destruct (Hpd eq_refl) as [_ Hex].
  destruct (Hex Hcl) as [w Hin]. split.
  - destruct (decide (0 < permit (kernel (pool (inner s))))%Z) as [Hpos|]; [|unfold available_permits; lia].
    exfalso. pose proof (pi_queue _ _ _ _ _ Hinv) as Hq. rewrite Hcl in Hq.
    rewrite (pi_idle _ _ _ _ _ Hinv Hpos) in Hq. apply fmap_nil_inv in Hq. rewrite Hq in Hin.
    by apply elem_of_nil in Hin.
  - exists w. split; [done|]. intros a s' Hb' Hstep.
    destruct (bounded_snoc _ _ _ _ Hb' Hr) as [Hs Hmax]. by eapply step_after.
Qed.

Lemma semaphore_no_lost_wakeup_witness :
  ∃ s f w, sys_run (init_sys 1) (take 6 sample) = Some s ∧ waits s 1 f w ∧
    available_permits (inner s) = 0%Z.
Proof.
  eexists _, _. destruct (semaphore_no_lost_wakeup 1 (take 6 sample)) with (s := 
    default (init_sys 0) (sys_run (init_sys 1) (take 6 sample))) (loc := 1)
    (f := mkWaiting 1 true false) as (Hp & w & Hw & _);
    [split; [lia|split; vm_compute; discriminate]|vm_compute; reflexivity..|].
  exists w. split; [vm_compute; reflexivity|]. by split.
Defined.

(** No action gets stuck: when its guard holds, an action of the semaphore goes through, so the
    delivery loop ends with the fuel that it is given. *)
Theorem semaphore_never_stuck (p0 : Z) (acts : list action) (a : action) (s : Sys) :
  bounded p0 (acts ++ [a]) → sys_run (init_sys p0) acts = Some s → enabled s a →
  ∃ s', sys_step s a = Some s'.
Proof.
  intros Hb Hr Hen. destruct (bounded_snoc _ _ _ _ Hb Hr) as [Hs Hmax].
  by destruct (enabled_step _ _ _ Hs Hmax Hen) as [s' ?]; exists s'.
Qed.

Lemma semaphore_never_stuck_witness :
  ∃ s s', sys_run (init_sys 1) (take 6 sample) = Some s ∧ sys_step s DropPermit = Some s'.
Proof.
  eexists. destruct (semaphore_never_stuck 1 (take 6 sample) DropPermit) with (s :=
    default (init_sys 0) (sys_run (init_sys 1) (take 6 sample))) as [s' Hs'];
    [split; [lia|split; vm_compute; discriminate]|vm_compute; reflexivity|vm_compute; discriminate|].
  exists s'. split; [vm_compute; reflexivity|exact Hs'].
Defined.

(** The granted flag is read before the lock is taken and not again under it: when a permit is
    granted to a parked future between the two, the poll suspends, registers no waker and wakes
    nobody, although the future holds a permit. A future that is then polled with another waker than
    the one it parked with is not woken through it. *)
Theorem stale_poll_unregistered (p0 : Z) (acts : list action) (s : Sys) (loc : nat) (f : Waiting) (w : Z) :
  bounded p0 acts → sys_run (init_sys p0) acts = Some s →
  acquires s !! loc = Some f → parked f = true → loc ∈ polling s → flags s !! loc = Some true →
  closed (inner s) = false →
  ∃ s', sys_step s (PollLock loc w) = Some s' ∧ acquires s' !! loc = Some f ∧ completed f = false ∧
    flags s' !! loc = Some true ∧ wakers (pool (inner s')) = wakers (pool (inner s)) ∧
    wakes s' = wakes s ∧ ∀ x, (id f, loc, x) ∉ wakers (pool (inner s)).
Proof.
  intros Hb Hr Hl Hpk Hin Hfl Hcl. destruct (bounded_inv _ _ _ Hb Hr) as [[[Hinv _ _ _] Hpl] _].
  destruct (Hpl loc Hin) as (f0 & Hf0 & Hc). rewrite Hl in Hf0. injection Hf0 as <-.
  assert (Hno : ∀ x, (id f, loc, x) ∉ wakers (pool (inner s))).
  { intros x Hx. destruct (pi_wakers _ _ _ _ _ Hinv _ _ _ Hx) as (? & _ & _ & _ & Hv). congruence. }
  assert (Hq : position (wakers (pool (inner s))) (id f) = None).
  { destruct (position _ _) as [pos|] eqn:Ep; [|done].
    apply position_Some in Ep as (l & x & Hpos). apply list_elem_of_lookup_2 in Hpos.
    destruct (pi_wakers _ _ _ _ _ Hinv _ _ _ Hpos) as (f1 & Hf1 & Hp1 & Hid & _).
    rewrite (pi_ids _ _ _ _ _ Hinv l loc f1 f Hf1 Hl Hp1 Hpk Hid) in Hpos. by apply Hno in Hpos. }
  simpl. rewrite Hl. simpl. rewrite bool_decide_true by done. unfold poll_locked, refresh.
  rewrite Hcl, Hpk, Hq. simpl. eexists. split; [done|]. simpl. split; [apply lookup_insert_eq|done].
Qed.

(** The future parked with waker 1 and is polled with waker 2: only 1 was woken. *)
Definition race_run : list action := [Acquire 0; PollLoad 0; PollLock 0 1; PollLoad 0; AddPermits 1].

Lemma stale_poll_unregistered_witness :
  ∃ s s', sys_run (init_sys 0) race_run = Some s ∧ sys_step s (PollLock 0 2) = Some s' ∧
    flags s' !! 0 = Some true ∧ wakers (pool (inner s')) = [] ∧ wakes s' = [1]%Z.
Proof.
  eexists. destruct (stale_poll_unregistered 0 race_run) with
    (s := default (init_sys 0) (sys_run (init_sys 0) race_run)) (loc := 0) (w := 2%Z)
    (f := mkWaiting 0 true false) as (s' & Hs' & _ & _ & Hfl & Hw & Hwk & _);
    [split; [lia|split; vm_compute; discriminate]|vm_compute; reflexivity|vm_compute; reflexivity
    |vm_compute; reflexivity|apply (bool_decide_unpack _); vm_compute; exact I
    |vm_compute; reflexivity|vm_compute; reflexivity|].
  exists s'. split; [vm_compute; reflexivity|]. split; [exact Hs'|]. split; [exact Hfl|].
  rewrite Hw, Hwk. split; vm_compute; reflexivity.
Defined.
