(* ===== verification/AsyncMutex.v ===== *)
(** * AsyncMutex: the asynchronous mutex of [lion-utility/src/sync/mutex.rs]

    A mutex is a semaphore with one permit and a data cell.  [Lock] wraps an
    [Acquire]; [LockOwned] calls the same [poll_acquire_inner] and
    [drop_acquire_inner] and marks completion by giving up its [Arc].  A borrowed
    guard holds a [SemaphorePermit]; an owned guard holds none and releases one
    permit when it is dropped ([try_lock_owned] forgets the permit it took).

    [mutex_step] runs these on the semaphore's system.  The data cell is reached
    only through a guard, so that mutual exclusion is a bound on the guards. *)

From S2P Require Import Prelude UtilityLog Waiter WaiterPool Semaphore SemInv.
Import Waiter WaiterPool Semaphore.

Module AsyncMutex.

(** [owned_futs]: the futures that are [LockOwned]; [owned]: the live [OwnedMutexGuard]s.  The
    [held] of the semaphore counts the live [MutexGuard]s. *)
Record Mutex (T : Type) := mkMutex { sem : Sys; owned_futs : gset nat; owned : nat; data : T }.
Arguments mkMutex {T} _ _ _ _.
Arguments sem {T} _.
Arguments owned_futs {T} _.
Arguments owned {T} _.
Arguments data {T} _.

Inductive action (T : Type) :=
  | LockAct (loc : nat)
  | LockOwnedAct (loc : nat)
  | PollLoadAct (loc : nat)
  | PollLockAct (loc : nat) (waker : Z)
  | DropLock (loc : nat)
  | TryLock
  | TryLockOwned
  | DropGuard
  | DropOwnedGuard
  | WriteGuard (value : T).
Arguments LockAct {T} _.
Arguments LockOwnedAct {T} _.
Arguments PollLoadAct {T} _.
Arguments PollLockAct {T} _ _.
Arguments DropLock {T} _.
Arguments TryLock {T}.
Arguments TryLockOwned {T}.
Arguments DropGuard {T}.
Arguments DropOwnedGuard {T}.
Arguments WriteGuard {T} _.

Section ops.
Context {T : Type}.
Implicit Types (m : Mutex T) (s : Sys) (loc : nat).

Definition new (value : T) : Mutex T := mkMutex (init_sys 1) ∅ 0 value.

Definition guards m : nat := held (sem m) + owned m.

(** The permit of a borrowed guard is forgotten, an owned guard takes its place. *)
Definition into_owned (s : Sys) m : option (Mutex T) :=
  s' ← sys_step s ForgetPermit;
  Some (mkMutex s' (owned_futs m) (S (owned m)) (data m)).

(** A poll that acquired makes a guard of the future's kind. *)
Definition after_poll m loc s : option (Mutex T) :=
  if decide (held s = S (held (sem m)) ∧ loc ∈ owned_futs m)
  then into_owned s m
  else Some (mkMutex s (owned_futs m) (owned m) (data m)).

Definition mutex_step m (a : action T) : option (Mutex T) :=
  match a with
  | LockAct loc =>
      s ← sys_step (sem m) (Acquire loc);
      Some (mkMutex s (owned_futs m ∖ {[loc]}) (owned m) (data m))
  | LockOwnedAct loc =>
      s ← sys_step (sem m) (Acquire loc);
      Some (mkMutex s ({[loc]} ∪ owned_futs m) (owned m) (data m))
  | PollLoadAct loc => s ← sys_step (sem m) (PollLoad loc); after_poll m loc s
  | PollLockAct loc waker => s ← sys_step (sem m) (PollLock loc waker); after_poll m loc s
  | DropLock loc =>
      s ← sys_step (sem m) (DropAcquire loc);
      Some (mkMutex s (owned_futs m) (owned m) (data m))
  | TryLock =>
      s ← sys_step (sem m) TryAcquire;
      Some (mkMutex s (owned_futs m) (owned m) (data m))
  | TryLockOwned =>
      s ← sys_step (sem m) TryAcquire;
      if decide (held s = S (held (sem m))) then into_owned s m
      else Some (mkMutex s (owned_futs m) (owned m) (data m))
  | DropGuard =>
      s ← sys_step (sem m) DropPermit;
      Some (mkMutex s (owned_futs m) (owned m) (data m))
  | DropOwnedGuard =>
      match owned m with
      | 0 => None
      | S o => s ← release (sem m) 1 (held (sem m)); Some (mkMutex s (owned_futs m) o (data m))
      end
  | WriteGuard value =>
      if decide (guards m = 0) then None else Some (mkMutex (sem m) (owned_futs m) (owned m) value)
  end.

Definition mutex_run m (acts : list (action T)) : option (Mutex T) :=
  foldl (λ o a, m' ← o; mutex_step m' a) (Some m) acts.

(** ** The invariant *)

(** The permit is stored, granted, or in a guard; the semaphore is never closed. *)
Record mutex_inv m : Prop := {
  mi_sys : ∃ total, sys_inv total (sem m) ∧ (total + Z.of_nat (owned m) = 1)%Z;
  mi_open : closed (inner (sem m)) = false;
}.

Lemma new_inv v : mutex_inv (new v).
Proof. split; [|done]. exists 1%Z. split; [by apply sem_init_inv|done]. Qed.

(** A semaphore action that neither adds, forgets nor closes. *)
Definition plain (a : Semaphore.action) : Prop :=
  permits_delta a = 0%Z ∧ permits_added a = 0%Z ∧ a ≠ Close.

Lemma plain_step m a s :
  mutex_inv m → plain a → (next_id (pool (inner (sem m))) < u64_max)%Z →
  sys_step (sem m) a = Some s →
  (∃ total, sys_inv total s ∧ (total + Z.of_nat (owned m) = 1)%Z) ∧
  closed (inner s) = false ∧ (next_id (pool (inner s)) ≤ next_id (pool (inner (sem m))) + 1)%Z.
Proof.
  intros [(total & Hs & Ht) Hop] (Hd & Had & Hcl) Hnx Hstep.
  destruct (sem_step_inv total (sem m) a Hs ltac:(u64) Hnx s Hstep) as (Hs' & Hn' & Hc').
  rewrite Hd, Z.add_0_r in Hs'. split; [by exists total|]. split; [by rewrite Hc'|done].
Qed.

Lemma into_owned_inv m s m' :
  mutex_inv (mkMutex s (owned_futs m) (owned m) (data m)) → into_owned s m = Some m' →
  mutex_inv m' ∧ next_id (pool (inner (sem m'))) = next_id (pool (inner s)).
Proof.
  intros [(total & Hs & Ht) Hop]. unfold into_owned. simpl in *.
  destruct (held s) as [|h] eqn:Eh; simpl; [done|]. intros [= <-]. split; [|done]. split; simpl; [|done].
  exists (total - 1)%Z. split; [|lia]. destruct Hs as [[Hinv Hp Hnx Hc] Hpl].
  split; [|done]. split; simpl; [done..|lia].
Qed.

Lemma mutex_step_inv m a m' :
  mutex_inv m → (next_id (pool (inner (sem m))) < u64_max)%Z → mutex_step m a = Some m' →
  mutex_inv m' ∧ (next_id (pool (inner (sem m'))) ≤ next_id (pool (inner (sem m))) + 1)%Z.
Proof.
  intros Hm Hnx Hstep.
  assert (Hplain : ∀ b s fo, plain b → sys_step (sem m) b = Some s →
    mutex_inv (mkMutex s fo (owned m) (data m)) ∧
    (next_id (pool (inner s)) ≤ next_id (pool (inner (sem m))) + 1)%Z).
  { intros b s fo Hb Hs. destruct (plain_step m b s Hm Hb Hnx Hs) as (? & ? & ?). by split. }
  assert (Hown : ∀ b s, plain b → sys_step (sem m) b = Some s → into_owned s m = Some m' →
    mutex_inv m' ∧ (next_id (pool (inner (sem m'))) ≤ next_id (pool (inner (sem m))) + 1)%Z).
  { intros b s Hb Hs Ho. destruct (Hplain b s (owned_futs m) Hb Hs) as [H1 H2].
    destruct (into_owned_inv m s m' H1 Ho) as [H3 ->]. by split. }
  assert (Hpoll : ∀ b s loc, plain b → sys_step (sem m) b = Some s → after_poll m loc s = Some m' →
    mutex_inv m' ∧ (next_id (pool (inner (sem m'))) ≤ next_id (pool (inner (sem m))) + 1)%Z).
  { intros b s loc Hb Hs. unfold after_poll. case_decide; [by eapply Hown|].
    intros [= <-]. by eapply Hplain. }
  destruct a as [loc|loc|loc|loc w|loc| | | | |v]; cbn [mutex_step] in Hstep.
  1,2,5,6,8: match type of Hstep with
    (?o ≫= _) = _ => destruct o as [s|] eqn:Es; [|done]
    end; injection Hstep as <-; eapply Hplain; [|exact Es]; by split.
  1,2: match type of Hstep with
    (?o ≫= _) = _ => destruct o as [s|] eqn:Es; [|done]
    end; eapply Hpoll; [|exact Es|exact Hstep]; by split.
  - destruct (sys_step (sem m) TryAcquire) as [s|] eqn:Es; [|done]. cbn [mbind option_bind] in Hstep.
    case_decide; [eapply Hown; [|exact Es|exact Hstep]; by split|].
    injection Hstep as <-. eapply Hplain; [|exact Es]. by split.
  - destruct (owned m) as [|o] eqn:Eo; [done|]. destruct Hm as [(total & Hs & Ht) Hop].
    destruct (release_inv total (sem m) 1 (held (sem m)) Hs) as (s & Hr & Hs' & Hn' & Hc').
    { destruct Hs as [[_ Hp _ Hc] _]. u64. }
    rewrite Hr in Hstep. injection Hstep as <-. split; [|simpl; lia]. split; simpl; [|congruence].
    eexists. split; [exact Hs'|]. lia.
  - case_decide; [done|]. injection Hstep as <-. split; [|simpl; lia]. by destruct Hm.
Qed.

Lemma mutex_run_None (acts : list (action T)) : foldl (λ o a, m' ← o; mutex_step m' a) None acts = None.
Proof. by induction acts. Qed.

Lemma mutex_run_inv m (acts : list (action T)) m' :
  mutex_inv m → (next_id (pool (inner (sem m))) + Z.of_nat (length acts) ≤ u64_max)%Z →
  mutex_run m acts = Some m' → mutex_inv m'.
Proof.
  unfold mutex_run. revert m. induction acts as [|a acts IH]; intros m Hm Hlen.
  - by intros [= <-].
  - simpl in *. destruct (mutex_step m a) as [m1|] eqn:Ea; [|by rewrite mutex_run_None].
    destruct (mutex_step_inv m a m1 Hm) as [Hm1 Hn1]; [lia|done|]. apply IH; [done|lia].
Qed.
End ops.
End AsyncMutex.
Import AsyncMutex.

(** C14. Mutual exclusion: at most one guard of a mutex is alive, borrowed or owned, after any
    interleaving of lock futures, polls from several threads, drops and try-locks. When no guard is
    alive and no lock future holds an unpolled grant, the lock is free: the permit is stored, nobody
    waits for it. The semaphore of a mutex is never closed, so a poll never reaches the code marked
    unreachable. *)
Theorem mutual_exclusion (T : Type) (v : T) (acts : list (action T)) (m : Mutex T) :
  (Z.of_nat (length acts) ≤ u64_max)%Z → mutex_run (new v) acts = Some m →
  guards m ≤ 1 ∧
  (guards m = 0 → delivered true (flags (sem m)) (acquires (sem m)) = 0 →
     available_permits (inner (sem m)) = 1%Z ∧ wakers (pool (inner (sem m))) = []) ∧
  ∀ loc f w, (poll_locked (inner (sem m)) loc f w).1.1 ≠ AcquireError.
Proof.
  intros Hlen Hr. destruct (mutex_run_inv (new v) acts m) as [(total & Hs & Ht) Hop];
    [apply new_inv|simpl; lia|done|].
  destruct Hs as [[Hinv Hp Hnx Hc] _]. unfold guards, available_permits. split_and!; [lia| |].
  - intros Hg Hd. assert (permit (kernel (pool (inner (sem m)))) = 1%Z) as H1 by lia. split; [done|].
    pose proof (pi_queue _ _ _ _ _ Hinv) as Hq. rewrite Hop in Hq.
    rewrite (pi_idle _ _ _ _ _ Hinv) in Hq by (rewrite H1; lia). by apply fmap_nil_inv in Hq.
  - intros loc f w. unfold poll_locked. rewrite Hop. destruct (parked f); simpl; [done|].
    by destruct (first_poll _ _ _ _) as [[[] ?] ?].
Qed.

Lemma mutual_exclusion_witness :
  ∃ m, mutex_run (new 0%Z)
    [LockAct 0; LockOwnedAct 1; PollLoadAct 1; PollLockAct 1 11; PollLoadAct 0; PollLockAct 0 10;
     TryLockOwned; DropOwnedGuard; PollLoadAct 0; WriteGuard 7%Z] = Some m ∧
    guards m = 1 ∧ data m = 7%Z ∧ guards m ≤ 1.
Proof.
  eexists. split; [vm_compute; reflexivity|]. split; [vm_compute; reflexivity|].
  split; [vm_compute; reflexivity|].
  eapply (mutual_exclusion Z 0%Z [LockAct 0; LockOwnedAct 1; PollLoadAct 1; PollLockAct 1 11;
    PollLoadAct 0; PollLockAct 0 10; TryLockOwned; DropOwnedGuard; PollLoadAct 0; WriteGuard 7%Z]);
    [vm_compute; discriminate|vm_compute; reflexivity].
Defined.
