(* ===== verification/Notify.v ===== *)
(** * Notify: [lion-utility/src/sync/notify.rs]

    The notification primitive over the waiter pool, as a transition function like
    that of [Semaphore]: [notify_one] delivers to the first waiter or stores a
    permit, [notify_waiters] delivers to every parked waiter, a [Notified] that is
    dropped with an unpolled [notify_one] delivery forwards it.  The flag of a
    future is an atomic [u8]. *)

From S2P Require Import Prelude UtilityLog Waiter WaiterPool.
Import Waiter WaiterPool.

Module Notify.

Definition PENDING : Z := 0.
Definition NOTIFIED_ONE : Z := 1.
Definition NOTIFIED_ALL : Z := 2.

Implicit Types (p : Pool) (fl : gmap nat Z) (loc : nat) (f : Waiting).

(** [NotifyInner] is the pool. *)
Definition new : Pool := mkPool Waiter.new [] 0.

(** [deliver_one]: the waker to wake, if a waiter was found. *)
Definition deliver_one p fl : option (option Z * Pool * gmap nat Z) :=
  deliver (deliver_fuel p) NOTIFIED_ONE p fl.

(** The loop of [notify_waiters]: the wakers to wake, in order. *)
Fixpoint notify_loop (fuel : nat) p fl : option (list Z * Pool * gmap nat Z) :=
  match fuel with
  | 0 => None
  | S fuel' =>
      match queue (kernel p) with
      | [] => Some ([], p, fl)
      | _ :: _ =>
          match signal_step (kernel p) 0 with
          | (Woke wid, k) =>
              let p1 := set_kernel p k in
              match position (wakers p1) wid with
              | Some pos =>
                  match wakers p1 !! pos with
                  | Some (_, flag, waker) =>
                      '(ws, p', fl') ← notify_loop fuel'
                        (set_wakers p1 (delete pos (wakers p1))) (<[flag := NOTIFIED_ALL]> fl);
                      Some (waker :: ws, p', fl')
                  | None => None
                  end
              | None => notify_loop fuel' p1 fl
              end
          | (Stored, k) => Some ([], set_kernel p k, fl)
          end
      end
  end.

Definition notify_waiters p fl : option (list Z * Pool * gmap nat Z) :=
  notify_loop (S (length (queue (kernel p)))) p fl.

(** The drop of a [Notified]: the waker to wake, if a delivery was forwarded. *)
Definition drop_notified p fl loc f : option (option Z * Pool * gmap nat Z) :=
  if completed f || negb (parked f) then Some (None, p, fl)
  else match withdraw p f with
       | (true, p') => Some (None, p', fl)
       | (false, p') =>
           if bool_decide (fl !! loc = Some NOTIFIED_ONE) then
             if (permit (kernel p') <? u64_max)%Z then deliver_one p' fl
             else Some (None, p', fl)
           else Some (None, p', fl)
       end.

(** [flag.load] before the lock. *)
Definition poll_load fl loc : bool :=
  match fl !! loc with Some v => negb (v =? PENDING)%Z | None => false end.

(** The rest of [Notified::poll], under the lock: whether it is ready. *)
Definition poll_locked p loc f (waker : Z) : bool * Pool * Waiting :=
  if negb (parked f) then
    match first_poll p loc f waker with
    | (Ready, p', f') => (true, p', set_completed f')
    | (Park _, p', f') => (false, p', f')
    end
  else (false, refresh p f waker, f).

(** ** A Notify and its futures *)

(** [consumed] counts the completions that used up a [notify_one]: from a stored permit, or from a
    flag that says so. *)
Record Sys := mkSys {
  inner : Pool;
  flags : gmap nat Z;
  notifieds : gmap nat Waiting;
  polling : gset nat;
  wakes : list Z;
  consumed : nat;
}.

Definition init_sys : Sys := mkSys new ∅ ∅ ∅ [] 0.

Inductive action :=
  | Notified (loc : nat)
  | PollLoad (loc : nat)
  | PollLock (loc : nat) (waker : Z)
  | DropNotified (loc : nat)
  | NotifyOne
  | NotifyWaiters.

Implicit Types (s : Sys) (a : action).

Definition sys_step s a : option Sys :=
  match a with
  | Notified loc =>
      if decide (notifieds s !! loc = None ∧ flags s !! loc = None)
      then Some (mkSys (inner s) (<[loc := PENDING]> (flags s))
                   (<[loc := mkWaiting 0 false false]> (notifieds s)) (polling s) (wakes s) (consumed s))
      else None
  | PollLoad loc =>
      f ← notifieds s !! loc;
      if completed f || bool_decide (loc ∈ polling s) then None
      else if poll_load (flags s) loc
           then Some (mkSys (inner s) (flags s) (<[loc := set_completed f]> (notifieds s)) (polling s)
                        (wakes s)
                        (if decide (flags s !! loc = Some NOTIFIED_ONE) then S (consumed s)
                         else consumed s))
           else Some (mkSys (inner s) (flags s) (notifieds s) ({[loc]} ∪ polling s) (wakes s) (consumed s))
  | PollLock loc waker =>
      f ← notifieds s !! loc;
      if bool_decide (loc ∈ polling s) then
        let '(ready, p, f') := poll_locked (inner s) loc f waker in
        Some (mkSys p (flags s) (<[loc := f']> (notifieds s)) (polling s ∖ {[loc]}) (wakes s)
                (if ready then S (consumed s) else consumed s))
      else None
  | DropNotified loc =>
      f ← notifieds s !! loc;
      if bool_decide (loc ∈ polling s) then None
      else '(o, p, fl) ← drop_notified (inner s) (flags s) loc f;
           Some (mkSys p (delete loc fl) (delete loc (notifieds s)) (polling s)
                   (wakes s ++ option_list o) (consumed s))
  | NotifyOne =>
      '(o, p, fl) ← deliver_one (inner s) (flags s);
      Some (mkSys p fl (notifieds s) (polling s) (wakes s ++ option_list o) (consumed s))
  | NotifyWaiters =>
      '(ws, p, fl) ← notify_waiters (inner s) (flags s);
      Some (mkSys p fl (notifieds s) (polling s) (wakes s ++ ws) (consumed s))
  end.

Definition sys_run s (acts : list action) : option Sys :=
  foldl (λ o a, s' ← o; sys_step s' a) (Some s) acts.

Definition is_notify_one a : bool := match a with NotifyOne => true | _ => false end.
Definition notify_ones (acts : list action) : nat := length (filter (λ a, is_notify_one a = true) acts).

(** ** The invariant *)

(** Every [notify_one] is a stored permit, a delivery not polled yet, or consumed. *)
Record notify_inv (calls : nat) s : Prop := {
  ni_pool : pool_inv PENDING false (inner s) (flags s) (notifieds s);
  ni_permit : (0 ≤ permit (kernel (inner s)))%Z;
  ni_next : (0 ≤ next_id (inner s))%Z;
  ni_calls : (permit (kernel (inner s)) +
    Z.of_nat (delivered NOTIFIED_ONE (flags s) (notifieds s) + consumed s) = Z.of_nat calls)%Z;
  ni_polling : ∀ loc, loc ∈ polling s → ∃ f, notifieds s !! loc = Some f ∧ completed f = false;
}.

Lemma notify_init_inv : notify_inv 0 init_sys.
Proof.
  split; simpl; try lia; [split; simpl; try done; try set_solver|..|set_solver]; [constructor|].
  unfold delivered. by rewrite map_filter_empty, map_size_empty.
Qed.

(** ** [notify_one] *)

Lemma deliver_one_spec p fl fs :
  pool_inv PENDING false p fl fs → (0 ≤ permit (kernel p) < u64_max)%Z →
  ∃ o p' fl', deliver_one p fl = Some (o, p', fl') ∧
    pool_inv PENDING false p' fl' fs ∧ next_id p' = next_id p ∧
    (0 ≤ permit (kernel p') ≤ permit (kernel p) + 1)%Z ∧
    (permit (kernel p') + Z.of_nat (delivered NOTIFIED_ONE fl' fs) =
     permit (kernel p) + Z.of_nat (delivered NOTIFIED_ONE fl fs) + 1)%Z.
Proof.
  intros Hinv Hmax.
  destruct (deliver_open PENDING NOTIFIED_ONE p fl fs) as (o & p' & fl' & Hd & Hinv' & Hnx & Ho); [done..|].
  exists o, p', fl'. do 3 (split; [done|]). destruct o as [w|].
  - destruct Ho as (i & loc & f & _ & -> & -> & Hl & Hc & Hv & _). split; [lia|].
    rewrite (delivered_grant NOTIFIED_ONE fl fs loc f); [lia|done..|by rewrite Hv].
  - destruct Ho as (_ & -> & ->). lia.
Qed.

(** ** [notify_waiters] *)

(** A round of the loop is a delivery of [NOTIFIED_ALL]. *)
Lemma notify_loop_cons fuel p fl fs i q :
  pool_inv PENDING false p fl fs → (0 ≤ permit (kernel p) < u64_max)%Z → queue (kernel p) = i :: q →
  ∃ w p1 loc f, notify_loop (S fuel) p fl =
      ('(ws, p', fl') ← notify_loop fuel p1 (<[loc := NOTIFIED_ALL]> fl); Some (w :: ws, p', fl')) ∧
    pool_inv PENDING false p1 (<[loc := NOTIFIED_ALL]> fl) fs ∧ next_id p1 = next_id p ∧
    permit (kernel p1) = permit (kernel p) ∧ queue (kernel p1) = q ∧
    wakers p = (i, loc, w) :: wakers p1 ∧
    fs !! loc = Some f ∧ completed f = false ∧ fl !! loc = Some PENDING.
Proof.
  intros Hinv Hmax Hq.
  destruct (deliver_open PENDING NOTIFIED_ALL p fl fs) as (o & p' & fl' & Hd & Hinv' & Hnx & Ho); [done..|].
  destruct o as [w|]; [|destruct Ho; congruence].
  destruct Ho as (j & loc & f & Hws & -> & Hpm & Hl & Hc & Hv & Hqj). rewrite Hq in Hqj. simplify_eq.
  exists w, p', loc, f. split; [|done]. simpl. rewrite Hq. revert Hd. unfold deliver_fuel. simpl.
  unfold signal_step. rewrite Hq, Hws. simpl. unfold position. simpl. rewrite decide_True by done. simpl.
  by intros [= <-].
Qed.

Lemma notify_loop_spec fuel p fl fs :
  pool_inv PENDING false p fl fs → (0 ≤ permit (kernel p) < u64_max)%Z →
  length (queue (kernel p)) < fuel →
  ∃ p' fl', notify_loop fuel p fl = Some (snd <$> wakers p, p', fl') ∧
    pool_inv PENDING false p' fl' fs ∧ next_id p' = next_id p ∧
    permit (kernel p') = permit (kernel p) ∧ wakers p' = [] ∧
    delivered NOTIFIED_ONE fl' fs = delivered NOTIFIED_ONE fl fs ∧
    (∀ loc, fl' !! loc =
       if decide (loc ∈ (λ e, e.1.2) <$> wakers p) then Some NOTIFIED_ALL else fl !! loc).
Proof.
  revert p fl. induction fuel as [|fuel IH]; intros p fl Hinv Hmax Hlen; [lia|].
  destruct (queue (kernel p)) as [|i q] eqn:Eq.
  - assert (Hw : wakers p = []).
    { pose proof (pi_queue _ _ _ _ _ Hinv) as Hq. simpl in Hq. rewrite Eq in Hq. by apply fmap_nil_inv in Hq. }
    exists p, fl. simpl. rewrite Eq, Hw. done.
  - destruct (notify_loop_cons fuel p fl fs i q Hinv Hmax Eq)
      as (w & p1 & loc & f & -> & Hinv1 & Hnx1 & Hpm1 & Hq1 & Hws & Hl & Hc & Hv).
    destruct (IH p1 (<[loc := NOTIFIED_ALL]> fl)) as (p' & fl' & -> & Hinv' & Hnx' & Hpm' & Hw' & Hd' & Hf');
      [done|by rewrite Hpm1|rewrite Hq1; simpl in Hlen; lia|].
    exists p', fl'. simpl. rewrite Hws. split_and!; [done..|congruence|congruence|done| |].
    + rewrite Hd'. rewrite !(delivered_at _ _ fs loc f Hl), lookup_insert_eq, Hv.
      rewrite !decide_False by (by intros [_ ?]).
      f_equal. apply delivered_delete. intros l Hne. by rewrite lookup_insert_ne.
    + intros l. rewrite Hf'. csimpl. destruct (decide (l = loc)) as [->|Hne].
      * rewrite lookup_insert_eq. rewrite (decide_True (P := loc ∈ _ :: _)) by by left.
        by case_decide.
      * rewrite lookup_insert_ne by done. repeat case_decide; set_solver.
Qed.

(** ** The drop of a future *)

Lemma drop_notified_spec p fl fs loc f :
  pool_inv PENDING false p fl fs → (0 ≤ permit (kernel p) < u64_max)%Z → fs !! loc = Some f →
  ∃ o p' fl', drop_notified p fl loc f = Some (o, p', fl') ∧
    pool_inv PENDING false p' fl' (delete loc fs) ∧ next_id p' = next_id p ∧
    (0 ≤ permit (kernel p') ≤ permit (kernel p) + 1)%Z ∧
    (permit (kernel p') + Z.of_nat (delivered NOTIFIED_ONE fl' (delete loc fs)) =
     permit (kernel p) + Z.of_nat (delivered NOTIFIED_ONE fl fs))%Z.
Proof.
  intros Hinv Hmax Hl. destruct (pi_fut _ _ _ _ _ Hinv loc f Hl) as (v & Hv & Hun & _).
  unfold drop_notified. destruct (completed f) eqn:Ec; simpl.
  { exists None, p, fl. rewrite (delivered_delete_done _ _ _ loc f) by done. split_and!; try done; try lia.
    eapply pool_inv_delete; eauto. }
  destruct (parked f) eqn:Epk; simpl.
  2: { exists None, p, fl. rewrite (delivered_delete_not _ _ _ loc) by (rewrite Hv, Hun; done).
       split_and!; try done; try lia. eapply pool_inv_delete; eauto. }
  destruct (withdraw p f) as [b p'] eqn:Ew.
  destruct (withdraw_spec _ _ _ _ _ _ _ _ _ _ Hinv Hl Epk Hv Ew) as (Hinv' & Hnx' & Hpm & Hop & Hb).
  destruct b.
  - exists None, p', fl. rewrite (delivered_delete_not _ _ _ loc) by (rewrite Hv, (Hb eq_refl); done).
    split_and!; try done; lia.
  - case_bool_decide as Hone.
    + pose proof (delivered_delete_granted _ _ _ _ _ Hl Ec Hone).
      destruct (Z.ltb_spec (permit (kernel p')) u64_max); [|lia].
      destruct (deliver_one_spec p' fl (delete loc fs)) as (o & p1 & fl1 & Hd & Hi1 & Hn1 & Hp1 & Hc1); [done|lia|].
      exists o, p1, fl1. split_and!; [done..|congruence|lia|lia|lia].
    + exists None, p', fl. rewrite (delivered_delete_not _ _ _ loc) by done. split_and!; try done; lia.
Qed.
End Notify.
