(* ===== verification/NotifySpec.v ===== *)
(** * NotifySpec: what Notify promises

    Every [notify_one] is delivered exactly once, across every interleaving of
    polls and drops; [notify_waiters] reaches every parked waiter and stores
    nothing. *)

From S2P Require Import Prelude UtilityLog Waiter WaiterPool Notify.
Import Waiter WaiterPool Notify.

Section spec.
Implicit Types (p : Pool) (fl : gmap nat Z) (loc : nat) (f : Waiting) (s : Sys) (acts : list action).

Definition calls_of (a : action) : nat := if is_notify_one a then 1 else 0.

(** The counters cannot overflow in [n] more actions. *)
Definition room s (n : nat) : Prop :=
  (permit (kernel (inner s)) + Z.of_nat n ≤ u64_max ∧ next_id (inner s) + Z.of_nat n ≤ u64_max)%Z.

(** ** Polls *)

Lemma notify_load_inv calls s loc f :
  notify_inv calls s → notifieds s !! loc = Some f → completed f = false →
  loc ∉ polling s → poll_load (flags s) loc = true →
  notify_inv calls (mkSys (inner s) (flags s) (<[loc := set_completed f]> (notifieds s)) (polling s)
    (wakes s) (if decide (flags s !! loc = Some NOTIFIED_ONE) then S (consumed s) else consumed s)).
Proof.
  intros [Hinv Hp Hnx Hc Hpl] Hl Hcf Hnp Hld. unfold poll_load in Hld.
  destruct (flags s !! loc) as [v|] eqn:Hv; [|done]. apply negb_true_iff, Z.eqb_neq in Hld.
  split; simpl; [by eapply pool_inv_complete|done..| |].
  - case_decide as Hone.
    + simplify_eq. pose proof (delivered_complete _ _ _ _ _ Hl Hcf Hv). lia.
    + rewrite (delivered_insert _ (flags s)), (delivered_delete_not _ _ _ loc) by (done || congruence). done.
  - intros l Hin. destruct (Hpl l Hin) as (f1 & Hf1 & Hc1). exists f1.
    rewrite lookup_insert_ne; [done|]. by intros ->.
Qed.

Lemma locked_inv calls s loc f waker b p f' :
  notify_inv calls s → room s 1 → notifieds s !! loc = Some f → loc ∈ polling s →
  poll_locked (inner s) loc f waker = (b, p, f') →
  notify_inv calls (mkSys p (flags s) (<[loc := f']> (notifieds s)) (polling s ∖ {[loc]}) (wakes s)
    (if b then S (consumed s) else consumed s)) ∧
  (permit (kernel p) ≤ permit (kernel (inner s)))%Z ∧ (next_id p ≤ next_id (inner s) + 1)%Z.
Proof.
  intros [Hinv Hp Hnx Hc Hpl] [Hr1 Hr2] Hl Hin Hpk.
  assert (Hcf : completed f = false) by (destruct (Hpl loc Hin) as (? & ? & ?); by simplify_eq).
  assert (Hpl' : ∀ l x, l ∈ polling s ∖ {[loc]} →
    ∃ f1, <[loc := x]> (notifieds s) !! l = Some f1 ∧ completed f1 = false).
  { intros l x [Hl1 Hne]%elem_of_difference. destruct (Hpl l Hl1) as (f1 & Hf1 & ?). exists f1.
    rewrite lookup_insert_ne; [done|]. intros ->. by apply Hne, elem_of_singleton. }
  destruct (pi_fut _ _ _ _ _ Hinv loc f Hl) as (v & Hv & Hun & _).
  revert Hpk. unfold poll_locked. destruct (parked f) eqn:Epk; simpl.
  - intros [= <- <- <-]. assert (Hr : next_id (refresh (inner s) f waker) = next_id (inner s) ∧
      kernel (refresh (inner s) f waker) = kernel (inner s)).
    { unfold refresh. by destruct (position _ _). }
    destruct Hr as [Hrn Hrk]. rewrite Hrk, Hrn. split; [|lia].
    split; simpl; rewrite ?Hrk, ?Hrn, ?(insert_id _ _ _ Hl); try done; [by apply pool_inv_refresh|].
    intros l. by rewrite <- (insert_id _ _ _ Hl); apply Hpl'.
  - destruct (first_poll (inner s) loc f waker) as [[a p1] f1] eqn:Ef.
    destruct (first_poll_spec _ _ _ _ _ _ _ _ _ _ _ Hinv eq_refl Hl Epk Hcf ltac:(lia) Ef)
      as (Hn' & [(Hpos & -> & Hpm & Hpk' & Hc' & Hinv')|(Hle & -> & Hpm & Hpk' & Hc' & Hinv')]);
      intros [= <- <- <-]; (split; [|lia]); split; simpl; auto; try lia.
    + rewrite (delivered_insert _ (flags s)), (delivered_delete_not _ _ _ loc)
        by (done || (rewrite Hv, Hun; done)). lia.
    + rewrite (delivered_insert _ (flags s)), (delivered_delete_not _ _ _ loc)
        by (done || (rewrite Hv, Hun; done)). lia.
Qed.

(** ** Every action keeps the invariant *)

Lemma notify_step_inv calls s a s' :
  notify_inv calls s → room s 1 → sys_step s a = Some s' →
  notify_inv (calls + calls_of a) s' ∧
  (permit (kernel (inner s')) ≤ permit (kernel (inner s)) + 1)%Z ∧
  (next_id (inner s') ≤ next_id (inner s) + 1)%Z.
Proof.
  intros Hs [Hr1 Hr2] Hstep. pose proof Hs as [Hinv Hp Hnx Hc Hpl].
  destruct a as [loc|loc|loc waker|loc| |]; unfold calls_of; simpl in *; rewrite ?Nat.add_0_r.
  - case_decide as Hg; [|done]. simplify_eq/=. destruct Hg as [Hg _]. split; [|lia].
    split; simpl; [by apply pool_inv_new|done..| |].
    + rewrite (delivered_insert _ (flags s)), delete_id; [done|done|by rewrite lookup_insert_eq|].
      intros l Hne. by rewrite lookup_insert_ne.
    + intros l Hin. destruct (Hpl l Hin) as (f & Hf & ?). exists f.
      rewrite lookup_insert_ne; [done|congruence].
  - destruct (notifieds s !! loc) as [f|] eqn:El; simpl in *; [|done].
    destruct (completed f) eqn:Ec; simpl in *; [done|]. case_bool_decide as Hin; [done|].
    destruct (poll_load (flags s) loc) eqn:Eld; simplify_eq; (split; [|simpl; lia]).
    + by apply notify_load_inv.
    + split; simpl; [done..|]. intros l [->%elem_of_singleton|Hl]%elem_of_union; eauto.
  - destruct (notifieds s !! loc) as [f|] eqn:El; simpl in *; [|done]. case_bool_decide as Hin; [|done].
    destruct (poll_locked (inner s) loc f waker) as [[b p] f'] eqn:Ep. simplify_eq/=.
    destruct (locked_inv _ _ _ _ _ _ _ _ Hs (conj Hr1 Hr2) El Hin Ep) as (? & ? & ?).
    split; [done|lia].
  - destruct (notifieds s !! loc) as [f|] eqn:El; simpl in *; [|done]. case_bool_decide as Hin; [done|].
    destruct (drop_notified_spec (inner s) (flags s) (notifieds s) loc f)
      as (o & p' & fl' & Hd & Hi' & Hn' & Hp' & Hc'); [done|lia|done|].
    rewrite Hd in Hstep. simplify_eq/=. split; [|split; [|lia]].
    + split; simpl; [|lia|lia| |].
      * eapply pool_inv_flags; [|done]. intros l [x [Hne _]%lookup_delete_Some]. by rewrite lookup_delete_ne.
      * rewrite <- (delivered_delete _ fl' (delete loc fl')); [lia|]. intros l Hne. by rewrite lookup_delete_ne.
      * intros l Hl. destruct (Hpl l Hl) as (f1 & Hf1 & ?). exists f1.
        rewrite lookup_delete_ne; [done|]. by intros <-.
    + lia.
  - destruct (deliver_one_spec (inner s) (flags s) (notifieds s)) as (o & p' & fl' & Hd & Hi' & Hn' & Hp' & Hc');
      [done|lia|].
    rewrite Hd in Hstep. simplify_eq/=. split; [|lia].
    split; simpl; [done|lia|lia|lia|done].
  - destruct (notify_loop_spec (S (length (queue (kernel (inner s))))) (inner s) (flags s) (notifieds s))
      as (p' & fl' & Hd & Hi' & Hn' & Hpm & Hw' & Hc' & _); [done|lia|lia|].
    unfold notify_waiters in Hstep. rewrite Hd in Hstep. simplify_eq/=. split; [|lia].
    split; simpl; [done|lia|lia|by rewrite Hpm, Hc'|done].
Qed.

Lemma notify_run_None acts : foldl (λ o a, s' ← o; sys_step s' a) None acts = None.
Proof. by induction acts. Qed.

Lemma notify_ones_cons a acts : notify_ones (a :: acts) = calls_of a + notify_ones acts.
Proof. unfold notify_ones, calls_of. rewrite filter_cons. by destruct (is_notify_one a). Qed.

Lemma notify_run_inv calls s acts s' :
  notify_inv calls s → room s (length acts) → sys_run s acts = Some s' →
  notify_inv (calls + notify_ones acts) s' ∧
  (permit (kernel (inner s')) ≤ permit (kernel (inner s)) + Z.of_nat (length acts))%Z.
Proof.
  unfold sys_run. revert calls s. induction acts as [|a acts IH]; intros calls s Hs [Hr1 Hr2].
  - intros [= <-]. rewrite Nat.add_0_r. split; [done|simpl; lia].
  - simpl in *. destruct (sys_step s a) as [s1|] eqn:Ea; simpl; [|by rewrite notify_run_None]. intros Hr.
    destruct (notify_step_inv calls s a s1 Hs) as (Hs1 & Hp1 & Hn1); [split; lia|done|].
    destruct (IH _ s1 Hs1) as [Hs' Hp']; [split; lia|done|].
    rewrite notify_ones_cons, Nat.add_assoc. split; [done|lia].
Qed.

Lemma notify_reachable_inv acts s :
  (Z.of_nat (length acts) ≤ u64_max)%Z → sys_run init_sys acts = Some s →
  notify_inv (notify_ones acts) s ∧ (permit (kernel (inner s)) ≤ Z.of_nat (length acts))%Z.
Proof.
  intros Hlen Hr. destruct (notify_run_inv 0 init_sys acts s) as [Hs Hp];
    [apply notify_init_inv|split; simpl; lia|done|]. by split.
Qed.
End spec.

(** C35. Every [notify_one] is delivered exactly once: after any interleaving of polls, drops and
    notifications, each call is either a stored permit, or a delivery to one future that did not
    poll it yet, or was consumed by one completed future; a future dropped before it polled its
    delivery has passed it on. A stored permit means that nobody is parked. *)
Theorem notify_one_exactly_once (acts : list action) (s : Sys) :
  (Z.of_nat (length acts) ≤ u64_max)%Z → sys_run init_sys acts = Some s →
  (Z.of_nat (notify_ones acts) = permit (kernel (inner s)) +
     Z.of_nat (delivered NOTIFIED_ONE (flags s) (notifieds s)) + Z.of_nat (consumed s))%Z ∧
  ((0 < permit (kernel (inner s)))%Z →
     ∀ loc f, notifieds s !! loc = Some f → parked f = true → flags s !! loc ≠ Some PENDING).
Proof.
  intros Hlen Hr. destruct (notify_reachable_inv acts s Hlen Hr) as [[Hinv Hp Hnx Hc Hpl] _].
  split; [lia|]. intros Hpos loc f Hl Hpk Hpd.
  destruct (pi_fut _ _ _ _ _ Hinv loc f Hl) as (v & Hv & _ & Hw). simplify_eq.
  destruct (Hw Hpk) as (_ & _ & Hex). destruct (Hex eq_refl) as [_ Hex']. destruct (Hex' eq_refl) as [w Hin].
  pose proof (pi_queue _ _ _ _ _ Hinv) as Hq. simpl in Hq. rewrite (pi_idle _ _ _ _ _ Hinv Hpos) in Hq.
  apply fmap_nil_inv in Hq. rewrite Hq in Hin. by apply elem_of_nil in Hin.
Qed.

(** Two waiters, one [notify_one]; the first waiter is dropped unpolled, so that the second gets it. *)
Definition forward_run : list action :=
  [Notified 0; Notified 1; PollLoad 0; PollLock 0 10; PollLoad 1; PollLock 1 11; NotifyOne;
   DropNotified 0; PollLoad 1].

Lemma notify_one_exactly_once_witness :
  ∃ s, sys_run init_sys forward_run = Some s ∧ wakes s = [10; 11]%Z ∧ consumed s = 1 ∧
    (1 = permit (kernel (inner s)) + Z.of_nat (delivered NOTIFIED_ONE (flags s) (notifieds s)) +
      Z.of_nat (consumed s))%Z.
Proof.
  eexists. split; [vm_compute; reflexivity|]. split; [vm_compute; reflexivity|].
  split; [vm_compute; reflexivity|].
  apply (notify_one_exactly_once forward_run); [vm_compute; discriminate|vm_compute; reflexivity].
Defined.

(** [notify_waiters] terminates, wakes the waker of every parked future that waits, in the order
    in which they parked, and marks exactly these futures; it stores no permit and leaves no waiter. *)
Theorem notify_waiters_all (acts : list action) (s : Sys) :
  (Z.of_nat (length acts) < u64_max)%Z → sys_run init_sys acts = Some s →
  ∃ s', sys_step s NotifyWaiters = Some s' ∧
    wakes s' = wakes s ++ (snd <$> wakers (inner s)) ∧ wakers (inner s') = [] ∧
    permit (kernel (inner s')) = permit (kernel (inner s)) ∧
    ∀ loc f, notifieds s !! loc = Some f →
      notifieds s' !! loc = Some f ∧
      flags s' !! loc = if decide (parked f = true ∧ flags s !! loc = Some PENDING)
                        then Some NOTIFIED_ALL else flags s !! loc.
Proof.
  intros Hlen Hr. destruct (notify_reachable_inv acts s ltac:(lia) Hr) as [[Hinv Hp Hnx Hc Hpl] Hpm].
  destruct (notify_loop_spec (S (length (queue (kernel (inner s))))) (inner s) (flags s) (notifieds s))
    as (p' & fl' & Hd & Hi' & Hn' & Hpm' & Hw' & Hc' & Hfl); [done|lia|lia|].
  simpl. unfold notify_waiters. rewrite Hd. simpl. eexists. split; [done|]. simpl.
  split_and!; [done..|]. intros loc f Hl. split; [done|]. rewrite Hfl.
  destruct (pi_fut _ _ _ _ _ Hinv loc f Hl) as (v & Hv & _ & Hpk).
  assert (Hiff : loc ∈ (λ e, e.1.2) <$> wakers (inner s) ↔
                 parked f = true ∧ flags s !! loc = Some PENDING).
  { rewrite list_elem_of_fmap. split.
    - intros ([[i l] w] & -> & Hin). simpl in *.
      by destruct (pi_wakers _ _ _ _ _ Hinv _ _ _ Hin) as (f' & ? & ? & ? & ?); simplify_eq.
    - intros [Hp1 Hp2]. rewrite Hv in Hp2. injection Hp2 as ->.
      destruct (Hpk Hp1) as (_ & _ & Hex). destruct (Hex eq_refl) as [_ Hex'].
      destruct (Hex' eq_refl) as [w Hin]. by exists (id f, loc, w). }
  by destruct (decide (loc ∈ _)) as [H|H]; [rewrite decide_True|rewrite decide_False];
    rewrite <- ?Hiff.
Qed.

Lemma notify_waiters_all_witness :
  ∃ s s', sys_run init_sys (take 6 forward_run) = Some s ∧ sys_step s NotifyWaiters = Some s' ∧
    wakes s' = [10; 11]%Z ∧ wakers (inner s') = [].
Proof.
  eexists. destruct (notify_waiters_all (take 6 forward_run)) with
    (s := default init_sys (sys_run init_sys (take 6 forward_run))) as (s' & Hs' & Hw & Hn & _);
    [vm_compute; reflexivity|vm_compute; reflexivity|].
  exists s'. split; [vm_compute; reflexivity|]. split; [exact Hs'|]. split; [|exact Hn].
  rewrite Hw. vm_compute. reflexivity.
Defined.
