(* ===== verification/Channel.v ===== *)
(** * Channel: the data kernel of the channels, [lion-utility/src/sync/channel_kernel.rs]

    The kernel decides when a value enters or leaves the buffer and when a slot is
    reserved.  [sent], [recvd] and [buf] are the ghost fields of the source: how
    many values entered, how many were delivered, and the sequence numbers that are
    buffered.  [ch_wf] is the source's invariant. *)

From S2P Require Import Prelude.

Module Channel.

Record ChannelKernel := mkChannel {
  buffered : Z;
  reserved : Z;
  capacity : Z;
  sent : nat;
  recvd : nat;
  buf : list nat;
}.
Implicit Types (k : ChannelKernel).

(** The third clause of the source says [buf[i] == recvd + i] for every index. *)
Record ch_wf k : Prop := {
  ch_len : buffered k = Z.of_nat (length (buf k));
  ch_sent : sent k = recvd k + length (buf k);
  ch_buf : ∀ i n, buf k !! i = Some n → n = recvd k + i;
  ch_reserved : (0 ≤ reserved k)%Z;
  ch_capacity : (buffered k + reserved k ≤ capacity k)%Z;
  ch_u64 : is_u64 (capacity k);
}.

Definition new (cap : Z) : ChannelKernel := mkChannel 0 0 cap 0 0 [].

Definition has_room k : bool := (wrap64 (buffered k + reserved k) <? capacity k)%Z.

Definition try_push k : bool * ChannelKernel :=
  if has_room k
  then (true, mkChannel (wrap64 (buffered k + 1)) (reserved k) (capacity k) (sent k + 1) (recvd k)
                (buf k ++ [sent k]))
  else (false, k).

Definition pop k : bool * ChannelKernel :=
  if (0 <? buffered k)%Z
  then (true, mkChannel (buffered k - 1) (reserved k) (capacity k) (sent k) (recvd k + 1) (tail (buf k)))
  else (false, k).

Definition reserve k : bool * ChannelKernel :=
  if has_room k
  then (true, mkChannel (buffered k) (wrap64 (reserved k + 1)) (capacity k) (sent k) (recvd k) (buf k))
  else (false, k).

Definition fill k : ChannelKernel :=
  mkChannel (wrap64 (buffered k + 1)) (wrap64 (reserved k - 1)) (capacity k) (sent k + 1) (recvd k)
    (buf k ++ [sent k]).

Definition unreserve k : ChannelKernel :=
  mkChannel (buffered k) (wrap64 (reserved k - 1)) (capacity k) (sent k) (recvd k) (buf k).

(** The free slots. *)
Definition free k : Z := (capacity k - buffered k - reserved k)%Z.

(** ** Every operation keeps the kernel well formed *)

Lemma new_wf cap : is_u64 cap → ch_wf (new cap).
Proof. intros [? ?]. split; simpl; try done; try lia. Qed.

Lemma has_room_free k : ch_wf k → has_room k = (0 <? free k)%Z.
Proof.
  intros [Hl _ _ Hr Hc [? ?]]. unfold has_room, free. rewrite wrap64_id by u64.
  repeat case_cmp; lia.
Qed.

Lemma buf_push k :
  ch_wf k → ∀ i n, (buf k ++ [sent k]) !! i = Some n → n = recvd k + i.
Proof.
  intros [_ Hs Hb _ _ _] i n [Hi|[Hle Hi]]%lookup_app_Some; [by apply Hb|].
  apply list_lookup_singleton_Some in Hi as [Hi <-]. lia.
Qed.

Lemma try_push_spec k b k' :
  ch_wf k → try_push k = (b, k') →
  ch_wf k' ∧ capacity k' = capacity k ∧ reserved k' = reserved k ∧ b = (0 <? free k)%Z ∧
  if b then buffered k' = (buffered k + 1)%Z else k' = k.
Proof.
  intros Hw. unfold try_push. rewrite has_room_free by done.
  destruct (Z.ltb_spec 0 (free k)) as [Hf|Hf]; intros [= <- <-]; [|done].
  pose proof Hw as [Hl Hs Hb Hr Hc [? ?]]. unfold free in Hf. simpl. rewrite wrap64_id by u64.
  split; [|done]. split; simpl; rewrite ?length_app; simpl; try done; try lia. by apply buf_push.
Qed.

Lemma pop_spec k b k' :
  ch_wf k → pop k = (b, k') →
  ch_wf k' ∧ capacity k' = capacity k ∧ reserved k' = reserved k ∧ b = (0 <? buffered k)%Z ∧
  if b then buffered k' = (buffered k - 1)%Z ∧ head (buf k) = Some (recvd k) else k' = k.
Proof.
  intros Hw. unfold pop.
  destruct (Z.ltb_spec 0 (buffered k)) as [Hf|Hf]; intros [= <- <-]; [|done].
  pose proof Hw as [Hl Hs Hb Hr Hc [? ?]]. destruct (buf k) as [|n l] eqn:Eb; simpl in *; [lia|].
  assert (n = recvd k) as -> by (specialize (Hb 0 n eq_refl); lia).
  split; [|done]. split; simpl; try done; rewrite ?Eb; simpl; try lia.
  intros i m Hi. specialize (Hb (S i) m Hi). lia.
Qed.

Lemma reserve_spec k b k' :
  ch_wf k → reserve k = (b, k') →
  ch_wf k' ∧ capacity k' = capacity k ∧ buffered k' = buffered k ∧ b = (0 <? free k)%Z ∧
  if b then reserved k' = (reserved k + 1)%Z else k' = k.
Proof.
  intros Hw. unfold reserve. rewrite has_room_free by done.
  destruct (Z.ltb_spec 0 (free k)) as [Hf|Hf]; intros [= <- <-]; [|done].
  pose proof Hw as [Hl Hs Hb Hr Hc [? ?]]. unfold free in Hf. simpl. rewrite wrap64_id by u64.
  split; [|done]. split; simpl; try done; lia.
Qed.

Lemma fill_spec k :
  ch_wf k → (0 < reserved k)%Z →
  ch_wf (fill k) ∧ buffered (fill k) = (buffered k + 1)%Z ∧ reserved (fill k) = (reserved k - 1)%Z.
Proof.
  intros Hw Hp. pose proof Hw as [Hl Hs Hb Hr Hc [? ?]]. unfold fill. simpl. rewrite !wrap64_id by u64.
  split; [|done]. split; simpl; rewrite ?length_app; simpl; try done; try lia. by apply buf_push.
Qed.

Lemma unreserve_spec k :
  ch_wf k → (0 < reserved k)%Z →
  ch_wf (unreserve k) ∧ reserved (unreserve k) = (reserved k - 1)%Z.
Proof.
  intros Hw Hp. pose proof Hw as [Hl Hs Hb Hr Hc [? ?]]. unfold unreserve. simpl. rewrite !wrap64_id by u64.
  split; [|done]. split; simpl; try done; lia.
Qed.
End Channel.
