(* ===== verification/Mpsc.v ===== *)
(** * Mpsc: the bounded channel of [lion-utility/src/sync/mpsc.rs]

    The channel is a data kernel, a buffer that moves in lockstep with it, a waiter
    kernel for the receiver and one for the senders, all behind one mutex; every
    method is one critical section.  This file translates the methods, the futures
    [Send], [Reserve] and [Recv], and their drops; [sys_step] is a channel with its
    futures and permits, and records the values accepted and received.

    The two loops that a poll can run ([continue] after a stored wake hint) and the
    loop of [wake_one_tx_bounded] have fuel; [None] is a panic or an action whose
    guard does not hold. Wakers are the tasks they wake. *)

From S2P Require Import Prelude UtilityLog Waiter Channel.
Import Waiter.

Module Mpsc.

Record Bounded (T : Type) := mkBounded {
  rx_kernel : WaiterKernel;
  tx_kernel : WaiterKernel;
  ckernel : Channel.ChannelKernel;
  buffer : list T;
  rx_waker : option Z;
  tx_wakers : list (Z * Z);
  sender_count : nat;
  rx_closed : bool;
  rx_next_id : Z;
  tx_next_id : Z;
}.
Arguments mkBounded {T} _ _ _ _ _ _ _ _ _ _.
Arguments rx_kernel {T} _.
Arguments tx_kernel {T} _.
Arguments ckernel {T} _.
Arguments buffer {T} _.
Arguments rx_waker {T} _.
Arguments tx_wakers {T} _.
Arguments sender_count {T} _.
Arguments rx_closed {T} _.
Arguments rx_next_id {T} _.
Arguments tx_next_id {T} _.

(** [Send] holds the value it has not sent yet. *)
Inductive kind (T : Type) := SendFut (value : option T) | ReserveFut.
Arguments SendFut {T} value.
Arguments ReserveFut {T}.

Record TxFut (T : Type) := mkTx { tx_kind : kind T; tx_id : Z; parked : bool; completed : bool }.
Arguments mkTx {T} _ _ _ _.
Arguments tx_kind {T} _.
Arguments tx_id {T} _.
Arguments parked {T} _.
Arguments completed {T} _.

(** [rx_done]: the future returned Ready. *)
Record Recv := mkRecv { rx_id : Z; rx_parked : bool; rx_done : bool }.

Section ops.
Context {T : Type}.
Implicit Types (g : Bounded T) (f : TxFut T) (r : Recv) (v : T) (waker wid : Z).

Definition set_rx g k w : Bounded T := mkBounded k (tx_kernel g) (ckernel g) (buffer g) w (tx_wakers g)
  (sender_count g) (rx_closed g) (rx_next_id g) (tx_next_id g).
Definition set_tx g k ws : Bounded T := mkBounded (rx_kernel g) k (ckernel g) (buffer g) (rx_waker g) ws
  (sender_count g) (rx_closed g) (rx_next_id g) (tx_next_id g).
Definition set_data g c (b : list T) : Bounded T := mkBounded (rx_kernel g) (tx_kernel g) c b (rx_waker g) (tx_wakers g)
  (sender_count g) (rx_closed g) (rx_next_id g) (tx_next_id g).
Definition set_count g n : Bounded T := mkBounded (rx_kernel g) (tx_kernel g) (ckernel g) (buffer g) (rx_waker g)
  (tx_wakers g) n (rx_closed g) (rx_next_id g) (tx_next_id g).
Definition set_rx_next g i : Bounded T := mkBounded (rx_kernel g) (tx_kernel g) (ckernel g) (buffer g) (rx_waker g)
  (tx_wakers g) (sender_count g) (rx_closed g) i (tx_next_id g).
Definition set_tx_next g i : Bounded T := mkBounded (rx_kernel g) (tx_kernel g) (ckernel g) (buffer g) (rx_waker g)
  (tx_wakers g) (sender_count g) (rx_closed g) (rx_next_id g) i.

(** [channel]; the source asserts that the capacity is positive. *)
Definition channel (cap : Z) : Bounded T :=
  mkBounded Waiter.new Waiter.new (Channel.new cap) [] None [] 1 false 0 0.

Definition wake_rx_bounded g : option Z * Bounded T :=
  let '(_, k) := signal_step (rx_kernel g) 0 in (rx_waker g, set_rx g k None).

(** [tx_wakers.iter().position(|(wid, _)| *wid == id)] *)
Definition tx_position (ws : list (Z * Z)) wid : option nat :=
  fst <$> list_find (λ e, e.1 = wid) ws.

Fixpoint wake_tx_loop (fuel : nat) g : option (option Z * Bounded T) :=
  match fuel with
  | 0 => None
  | S fuel' =>
      match queue (tx_kernel g) with
      | [] => Some (None, g)
      | _ :: _ =>
          match signal_step (tx_kernel g) 0 with
          | (Woke wid, k) =>
              match tx_position (tx_wakers g) wid with
              | Some pos =>
                  match tx_wakers g !! pos with
                  | Some (_, waker) => Some (Some waker, set_tx g k (delete pos (tx_wakers g)))
                  | None => None
                  end
              | None => wake_tx_loop fuel' (set_tx g k (tx_wakers g))
              end
          | (Stored, k) => Some (None, set_tx g k (tx_wakers g))
          end
      end
  end.

Definition wake_one_tx_bounded g : option (option Z * Bounded T) :=
  wake_tx_loop (S (length (queue (tx_kernel g)))) g.

Definition remove_tx_waiter g wid : bool * Bounded T :=
  let '(removed, k) := remove_step (tx_kernel g) wid in
  (removed,
   set_tx g k match tx_position (tx_wakers g) wid with
              | Some pos => delete pos (tx_wakers g)
              | None => tx_wakers g
              end).

(** The drop of [Send] and of [Reserve]. *)
Definition drop_tx_waiter g f : option (option Z * Bounded T) :=
  if completed f || negb (parked f) then Some (None, g)
  else match remove_tx_waiter g (tx_id f) with
       | (true, g') => Some (None, g')
       | (false, g') => wake_one_tx_bounded g'
       end.

(** ** Senders *)

(** [Sender::try_send]: whether the value was accepted, the waker to wake. *)
Definition try_send g v : bool * Bounded T * option Z :=
  if rx_closed g then (false, g, None)
  else match Channel.try_push (ckernel g) with
       | (true, c) =>
           let '(w, g') := wake_rx_bounded (set_data g c (buffer g ++ [v])) in (true, g', w)
       | (false, c) => (false, set_data g c (buffer g), None)
       end.

Definition try_reserve g : bool * Bounded T :=
  if rx_closed g then (false, g)
  else let '(ok, c) := Channel.reserve (ckernel g) in (ok, set_data g c (buffer g)).

Definition permit_send g v : option Z * Bounded T :=
  wake_rx_bounded (set_data g (Channel.fill (ckernel g)) (buffer g ++ [v])).

Definition permit_drop g : option (option Z * Bounded T) :=
  wake_one_tx_bounded (set_data g (Channel.unreserve (ckernel g)) (buffer g)).

Inductive tx_result := TxOk | TxErr | TxPending.

(** The end of a poll that found the channel full: [inl] suspends, [inr] continues the loop. *)
Definition park_tx g f waker : (Bounded T * TxFut T) + Bounded T :=
  match (if parked f then tx_position (tx_wakers g) (tx_id f) else None) with
  | Some pos => inl (set_tx g (tx_kernel g) (alter (λ e, (e.1, waker)) pos (tx_wakers g)), f)
  | None =>
      let wid := tx_next_id g in
      let g1 := set_tx_next g (wrap64 (wid + 1)) in
      match wait_step (tx_kernel g1) wid with
      | (Ready, k) => inr (set_tx g1 k (tx_wakers g1))
      | (Park _, k) =>
          inl (set_tx g1 k (tx_wakers g1 ++ [(wid, waker)]), mkTx (tx_kind f) wid true (completed f))
      end
  end.

(** A poll that completed although it may still be parked leaves the queue. *)
Definition leave_tx g f : Bounded T := if parked f then snd (remove_tx_waiter g (tx_id f)) else g.

(** [Send::poll] *)
Fixpoint send_poll (fuel : nat) g f waker : option (tx_result * Bounded T * TxFut T * option Z) :=
  match fuel with
  | 0 => None
  | S fuel' =>
      match tx_kind f with
      | SendFut (Some v) =>
          if rx_closed g
          then Some (TxErr, g, mkTx (SendFut None) (tx_id f) (parked f) (completed f), None)
          else match Channel.try_push (ckernel g) with
               | (true, c) =>
                   let g1 := set_data g c (buffer g ++ [v]) in
                   let '(w, g2) := wake_rx_bounded (leave_tx g1 f) in
                   Some (TxOk, g2, mkTx (SendFut None) (tx_id f) (parked f) true, w)
               | (false, c) =>
                   match park_tx (set_data g c (buffer g)) f waker with
                   | inl (g', f') => Some (TxPending, g', f', None)
                   | inr g' => send_poll fuel' g' f waker
                   end
               end
      | _ => None
      end
  end.

(** [Reserve::poll] *)
Fixpoint reserve_poll (fuel : nat) g f waker : option (tx_result * Bounded T * TxFut T * option Z) :=
  match fuel with
  | 0 => None
  | S fuel' =>
      if rx_closed g then Some (TxErr, g, f, None)
      else match Channel.reserve (ckernel g) with
           | (true, c) =>
               let g1 := leave_tx (set_data g c (buffer g)) f in
               Some (TxOk, g1, mkTx (tx_kind f) (tx_id f) (parked f) true, None)
           | (false, c) =>
               match park_tx (set_data g c (buffer g)) f waker with
               | inl (g', f') => Some (TxPending, g', f', None)
               | inr g' => reserve_poll fuel' g' f waker
               end
           end
  end.

(** Each [continue] uses up one stored permit. *)
Definition poll_tx g f waker : option (tx_result * Bounded T * TxFut T * option Z) :=
  let fuel := S (Z.to_nat (permit (tx_kernel g))) in
  match tx_kind f with
  | SendFut _ => send_poll fuel g f waker
  | ReserveFut => reserve_poll fuel g f waker
  end.

(** [Sender::drop] *)
Definition drop_sender g : option (option Z * Bounded T) :=
  match sender_count g with
  | 0 => None
  | S n =>
      let g1 := set_count g n in
      if decide (n = 0) then let '(w, g2) := wake_rx_bounded g1 in Some (w, g2) else Some (None, g1)
  end.

(** ** The receiver *)

Inductive rx_result := RxValue (v : T) | RxClosed | RxPending.

(** A value is taken out of the buffer and a sender woken. *)
Definition take_value g c : option (T * Bounded T * option Z) :=
  match buffer g with
  | [] => None
  | v :: b => '(w, g') ← wake_one_tx_bounded (set_data g c b); Some (v, g', w)
  end.

(** [Receiver::try_recv] *)
Definition try_recv g : option (option T * Bounded T * option Z) :=
  match Channel.pop (ckernel g) with
  | (true, c) => '(v, g', w) ← take_value g c; Some (Some v, g', w)
  | (false, c) => Some (None, set_data g c (buffer g), None)
  end.

(** [Recv::poll] *)
Fixpoint recv_loop (fuel : nat) g r waker : option (rx_result * Bounded T * Recv * option Z) :=
  match fuel with
  | 0 => None
  | S fuel' =>
      match Channel.pop (ckernel g) with
      | (true, c) =>
          '(v, g', w) ← take_value g c; Some (RxValue v, g', mkRecv (rx_id r) (rx_parked r) true, w)
      | (false, c) =>
          let g0 := set_data g c (buffer g) in
          if decide (sender_count g0 = 0) then
            Some (RxClosed, g0, mkRecv (rx_id r) (rx_parked r) true, None)
          else if rx_parked r then
            Some (RxPending, set_rx g0 (rx_kernel g0) (Some waker), r, None)
          else
            let wid := rx_next_id g0 in
            let g1 := set_rx_next g0 (wrap64 (wid + 1)) in
            match wait_step (rx_kernel g1) wid with
            | (Ready, k) => recv_loop fuel' (set_rx g1 k (rx_waker g1)) r waker
            | (Park _, k) =>
                Some (RxPending, set_rx g1 k (Some waker), mkRecv wid true (rx_done r), None)
            end
      end
  end.

Definition recv_poll g r waker : option (rx_result * Bounded T * Recv * option Z) :=
  recv_loop (S (Z.to_nat (permit (rx_kernel g)))) g r waker.

(** [Recv::drop] *)
Definition drop_recv g r : Bounded T :=
  if rx_parked r then set_rx g (snd (remove_step (rx_kernel g) (rx_id r))) None else g.

(** [Receiver::close]: every waiting sender is woken. *)
Definition close g : list Z * Bounded T :=
  (snd <$> tx_wakers g,
   mkBounded (rx_kernel g) (tx_kernel g) (ckernel g) (buffer g) (rx_waker g) [] (sender_count g) true
     (rx_next_id g) (tx_next_id g)).
End ops.

(** ** A channel, its futures and permits *)

(** [recv] is the live [Recv], there is at most one; [accepted] and [received] are the values sent
    successfully and the values received, in order. *)
Record Sys (T : Type) := mkSys {
  inner : Bounded T;
  txs : gmap nat (TxFut T);
  permits : nat;
  recv : option Recv;
  rx_alive : bool;
  wakes : list Z;
  accepted : list T;
  received : list T;
}.
Arguments mkSys {T} _ _ _ _ _ _ _ _.
Arguments inner {T} _.
Arguments txs {T} _.
Arguments permits {T} _.
Arguments recv {T} _.
Arguments rx_alive {T} _.
Arguments wakes {T} _.
Arguments accepted {T} _.
Arguments received {T} _.

Inductive action (T : Type) :=
  | NewSend (loc : nat) (v : T)
  | NewReserve (loc : nat)
  | PollTx (loc : nat) (waker : Z)
  | DropTx (loc : nat)
  | TrySend (v : T)
  | TryReserve
  | PermitSend (v : T)
  | PermitDrop
  | CloneSender
  | DropSender
  | NewRecv
  | PollRecv (waker : Z)
  | DropRecv
  | TryRecv
  | CloseRx
  | DropRx.
Arguments NewSend {T} _ _.
Arguments NewReserve {T} _.
Arguments PollTx {T} _ _.
Arguments DropTx {T} _.
Arguments TrySend {T} _.
Arguments TryReserve {T}.
Arguments PermitSend {T} _.
Arguments PermitDrop {T}.
Arguments CloneSender {T}.
Arguments DropSender {T}.
Arguments NewRecv {T}.
Arguments PollRecv {T} _.
Arguments DropRecv {T}.
Arguments TryRecv {T}.
Arguments CloseRx {T}.
Arguments DropRx {T}.

Section sys.
Context {T : Type}.
Implicit Types (s : Sys T) (f : TxFut T) (g : Bounded T).

Definition init_sys (cap : Z) : Sys T := mkSys (channel cap) ∅ 0 None true [] [] [].

(** The state after a critical section with result [g] that woke [o]. *)
Definition after s g (o : option Z) : Sys T :=
  mkSys g (txs s) (permits s) (recv s) (rx_alive s) (wakes s ++ option_list o) (accepted s) (received s).
Definition set_txs s m : Sys T := mkSys (inner s) m (permits s) (recv s) (rx_alive s) (wakes s) (accepted s) (received s).
Definition set_permits s n : Sys T := mkSys (inner s) (txs s) n (recv s) (rx_alive s) (wakes s) (accepted s) (received s).
Definition set_recv s r : Sys T := mkSys (inner s) (txs s) (permits s) r (rx_alive s) (wakes s) (accepted s) (received s).
Definition set_alive s b : Sys T := mkSys (inner s) (txs s) (permits s) (recv s) b (wakes s) (accepted s) (received s).
Definition accept s (l : list T) : Sys T := mkSys (inner s) (txs s) (permits s) (recv s) (rx_alive s) (wakes s)
  (accepted s ++ l) (received s).
Definition receive s (l : list T) : Sys T := mkSys (inner s) (txs s) (permits s) (recv s) (rx_alive s) (wakes s)
  (accepted s) (received s ++ l).

(** The value that a [Send] has yet to send. *)
Definition pending_value f : list T := match tx_kind f with SendFut (Some v) => [v] | _ => [] end.

(** What a finished poll of a sender's future leaves behind. *)
Definition finish_tx s (loc : nat) f (x : tx_result * Bounded T * TxFut T * option Z) : Sys T :=
  let '(res, g, f', w) := x in
  let s1 := set_txs (after s g w) (<[loc := f']> (txs s)) in
  match res with
  | TxOk => match tx_kind f with
            | SendFut _ => accept s1 (pending_value f)
            | ReserveFut => set_permits s1 (S (permits s))
            end
  | _ => s1
  end.

Definition new_tx s (loc : nat) (k : kind T) : option (Sys T) :=
  if decide (txs s !! loc = None ∧ sender_count (inner s) ≠ 0)
  then Some (set_txs s (<[loc := mkTx k 0 false false]> (txs s))) else None.

(** The receiver may be used when no [Recv] borrows it. *)
Definition rx_free s : bool := rx_alive s && bool_decide (recv s = None).

Definition close_sys s : Sys T :=
  let '(ws, g) := close (inner s) in
  mkSys g (txs s) (permits s) (recv s) (rx_alive s) (wakes s ++ ws) (accepted s) (received s).

Definition sys_step s (a : action T) : option (Sys T) :=
  match a with
  | NewSend loc v => new_tx s loc (SendFut (Some v))
  | NewReserve loc => new_tx s loc ReserveFut
  | PollTx loc waker =>
      f ← txs s !! loc;
      if completed f then None
      else x ← poll_tx (inner s) f waker; Some (finish_tx s loc f x)
  | DropTx loc =>
      f ← txs s !! loc;
      '(w, g) ← drop_tx_waiter (inner s) f;
      Some (set_txs (after s g w) (delete loc (txs s)))
  | TrySend v =>
      if decide (sender_count (inner s) = 0) then None
      else let '(ok, g, w) := try_send (inner s) v in
           Some (accept (after s g w) (if ok then [v] else []))
  | TryReserve =>
      if decide (sender_count (inner s) = 0) then None
      else let '(ok, g) := try_reserve (inner s) in
           Some (set_permits (after s g None) (if ok then S (permits s) else permits s))
  | PermitSend v =>
      match permits s with
      | 0 => None
      | S n => let '(w, g) := permit_send (inner s) v in Some (accept (set_permits (after s g w) n) [v])
      end
  | PermitDrop =>
      match permits s with
      | 0 => None
      | S n => '(w, g) ← permit_drop (inner s); Some (set_permits (after s g w) n)
      end
  | CloneSender =>
      if decide (sender_count (inner s) = 0) then None
      else Some (after s (set_count (inner s) (S (sender_count (inner s)))) None)
  | DropSender => '(w, g) ← drop_sender (inner s); Some (after s g w)
  | NewRecv => if rx_free s then Some (set_recv s (Some (mkRecv 0 false false))) else None
  | PollRecv waker =>
      r ← recv s;
      if rx_done r then None
      else '(res, g, r', w) ← recv_poll (inner s) r waker;
           Some (receive (set_recv (after s g w) (Some r'))
                   match res with RxValue v => [v] | _ => [] end)
  | DropRecv => r ← recv s; Some (set_recv (after s (drop_recv (inner s) r) None) None)
  | TryRecv =>
      if rx_free s then
        '(o, g, w) ← try_recv (inner s); Some (receive (after s g w) (option_list o))
      else None
  | CloseRx => if rx_free s then Some (close_sys s) else None
  | DropRx => if rx_free s then Some (set_alive (close_sys s) false) else None
  end.

Definition sys_run s (acts : list (action T)) : option (Sys T) :=
  foldl (λ o a, s' ← o; sys_step s' a) (Some s) acts.
End sys.
End Mpsc.
