(* ===== verification/MpscInv.v ===== *)
(** * MpscInv: the senders that wait on a full channel

    [tx_inv] relates the waiter kernel of the senders, their wakers and their
    futures; [hinted] counts the futures that were woken and did not poll yet.  The
    lemmas say what waking one sender, withdrawing, parking and polling do. *)

From S2P Require Import Prelude UtilityLog Waiter Channel Mpsc.
Import Waiter Mpsc.

Section tx.
Context {T : Type}.
Implicit Types (g : Bounded T) (f : TxFut T) (m : gmap nat (TxFut T)) (k : WaiterKernel).
Implicit Types (ws : list (Z * Z)) (c : bool) (loc : nat) (nx w wid : Z).

Record tx_inv c k ws nx m : Prop := {
  ti_queue : if c then ws = [] else ws.*1 = queue k;
  ti_nodup : NoDup (queue k);
  ti_old : ∀ i, i ∈ queue k → (0 ≤ i < nx)%Z;
  ti_permit : permit k = 0%Z;
  ti_next : (0 ≤ nx)%Z;
  ti_fut : ∀ loc f, m !! loc = Some f → parked f = true →
    (0 ≤ tx_id f < nx)%Z ∧ (completed f = true → tx_id f ∉ queue k);
  ti_ids : ∀ loc loc' f f', m !! loc = Some f → m !! loc' = Some f' →
    parked f = true → parked f' = true → tx_id f = tx_id f' → loc = loc';
  ti_wakers : ∀ i w, (i, w) ∈ ws →
    ∃ loc f, m !! loc = Some f ∧ parked f = true ∧ completed f = false ∧ tx_id f = i;
}.

(** Woken, and not polled since. *)
Definition is_hinted ws f : Prop := parked f = true ∧ completed f = false ∧ tx_id f ∉ ws.*1.
Definition hinted ws m : nat := size (filter (λ '(_, f), is_hinted ws f) m).

(** ** Counting *)

Lemma hinted_at ws m loc f :
  m !! loc = Some f →
  hinted ws m = hinted ws (delete loc m) + if decide (is_hinted ws f) then 1 else 0.
Proof.
  intros Hf. unfold hinted. rewrite <- (insert_delete_id m loc f Hf) at 1. case_decide as Hd.
  - rewrite map_filter_insert_True by done. rewrite map_size_insert_None; [lia|].
    apply map_lookup_filter_None. left. apply lookup_delete_eq.
  - rewrite map_filter_insert_False by done. by rewrite delete_delete_eq.
Qed.

Lemma hinted_insert ws m loc f :
  hinted ws (<[loc := f]> m) = hinted ws (delete loc m) + if decide (is_hinted ws f) then 1 else 0.
Proof.
  rewrite (hinted_at ws (<[loc := f]> m) loc f) by apply lookup_insert_eq. by rewrite delete_insert_eq.
Qed.

Lemma hinted_ext ws ws' m :
  (∀ loc f, m !! loc = Some f → parked f = true → tx_id f ∈ ws.*1 ↔ tx_id f ∈ ws'.*1) →
  hinted ws m = hinted ws' m.
Proof.
  intros H. unfold hinted. f_equal. apply map_filter_ext. intros loc f Hl. unfold is_hinted.
  split; intros (Hp & Hc & Hn); (split_and!; [done..|]);
    [by rewrite <- (H loc f Hl Hp)|by rewrite (H loc f Hl Hp)].
Qed.

Lemma ids_lookup ws i : i ∈ ws.*1 ↔ ∃ w, (i, w) ∈ ws.
Proof.
  rewrite list_elem_of_fmap. split; [intros ([j w] & -> & Hin); by exists w|].
  intros [w Hin]. by exists (i, w).
Qed.

Lemma tx_position_Some ws i pos : tx_position ws i = Some pos → ∃ w, ws !! pos = Some (i, w).
Proof.
  unfold tx_position. intros ([n [j w]] & Hf & ->)%fmap_Some.
  apply list_find_Some in Hf as (Hl & Hi & _). simpl in *. subst. by exists w.
Qed.

Lemma tx_position_None ws i : tx_position ws i = None ↔ i ∉ ws.*1.
Proof.
  unfold tx_position. rewrite fmap_None, list_find_None, Forall_forall, ids_lookup. split.
  - intros Hf [w Hin]. by apply (Hf _ Hin).
  - intros Hn [j w] Hin Heq. simpl in Heq. subst. apply Hn. by exists w.
Qed.

Lemma tx_inv_notin c k ws nx m loc f :
  tx_inv c k ws nx m → m !! loc = Some f → parked f = true → completed f = true → tx_id f ∉ ws.*1.
Proof.
  intros Hi Hl Hp Hc [w Hin]%ids_lookup.
  destruct (ti_wakers _ _ _ _ _ Hi _ _ Hin) as (l & f' & Hl' & Hp' & Hc' & Hid).
  rewrite (ti_ids _ _ _ _ _ Hi l loc f' f Hl' Hl Hp' Hp Hid) in Hl'. congruence.
Qed.

(** ** Changing the futures *)

Lemma tx_inv_new c k ws nx m loc f :
  m !! loc = None → parked f = false → tx_inv c k ws nx m → tx_inv c k ws nx (<[loc := f]> m).
Proof.
  intros Hn Hp [Hq Hnd Ho Hpm Hnx Hf Hids Hw]. split; [done..| | |].
  - intros l f'. rewrite lookup_insert_Some. intros [[<- <-]|[_ Hl]]; [congruence|by eapply Hf].
  - intros l l' f1 f2. rewrite !lookup_insert_Some.
    intros [[<- <-]|[_ Hl]] [[<- <-]|[_ Hl']]; try congruence. by eapply Hids.
  - intros i w Hin. destruct (Hw i w Hin) as (l & f1 & Hl & Hrest). exists l, f1.
    rewrite lookup_insert_ne; [done|congruence].
Qed.

Lemma hinted_new ws m loc f : m !! loc = None → parked f = false → hinted ws (<[loc := f]> m) = hinted ws m.
Proof.
  intros Hn Hp. rewrite hinted_insert, delete_id by done. rewrite decide_False; [lia|].
  intros (? & _). congruence.
Qed.

(** A future without a waker changes or goes. *)
Lemma tx_inv_delete c k ws nx m loc f :
  m !! loc = Some f → (parked f = true → tx_id f ∉ ws.*1) → tx_inv c k ws nx m →
  tx_inv c k ws nx (delete loc m).
Proof.
  intros Hl Hno [Hq Hnd Ho Hpm Hnx Hf Hids Hw]. split; [done..| | |].
  - intros l f' [_ Hl']%lookup_delete_Some. by eapply Hf.
  - intros l l' f1 f2 [_ H1]%lookup_delete_Some [_ H2]%lookup_delete_Some. by apply Hids.
  - intros i w Hin. destruct (Hw i w Hin) as (l & f1 & Hl1 & Hp1 & Hc1 & Hid1). exists l, f1.
    rewrite lookup_delete_ne; [done|]. intros <-. simplify_eq. apply Hno; [done|].
    apply ids_lookup. by exists w.
Qed.

Lemma tx_inv_update c k ws nx m loc f f' :
  m !! loc = Some f → (parked f = true → tx_id f ∉ ws.*1) → tx_inv c k ws nx m →
  parked f' = parked f → tx_id f' = tx_id f →
  (parked f = true → completed f' = true → tx_id f ∉ queue k) →
  tx_inv c k ws nx (<[loc := f']> m).
Proof.
  intros Hl Hno Hi Hp Hid Hcq. pose proof (tx_inv_delete _ _ _ _ _ _ _ Hl Hno Hi) as Hd.
  destruct Hi as [Hq Hnd Ho Hpm Hnx Hf Hids Hw]. split; [done..| | |].
  - intros l f1. rewrite lookup_insert_Some. intros [[<- <-]|[_ Hl1]]; [|by eapply Hf].
    rewrite Hp, Hid. intros Hpk. split; [by apply (Hf loc f)|]. intros Hc. by apply Hcq.
  - intros l l' f1 f2. rewrite !lookup_insert_Some.
    intros [[<- <-]|[_ Hl1]] [[<- <-]|[_ Hl2]]; rewrite ?Hp, ?Hid; try done; eauto.
  - intros i w Hin. destruct (ti_wakers _ _ _ _ _ Hd i w Hin) as (l & f1 & Hl1 & Hrest).
    apply lookup_delete_Some in Hl1 as [Hne Hl1]. exists l, f1. by rewrite lookup_insert_ne.
Qed.

Lemma tx_inv_close c k ws nx m : tx_inv c k ws nx m → tx_inv true k [] nx m.
Proof. intros [Hq Hnd Ho Hpm Hnx Hf Hids Hw]. split; try done. by intros i w ?%elem_of_nil. Qed.

(** ** Waking one sender *)

Lemma wake_closed fuel g m :
  tx_inv true (tx_kernel g) (tx_wakers g) (tx_next_id g) m →
  length (queue (tx_kernel g)) < fuel →
  ∃ k', wake_tx_loop fuel g = Some (None, set_tx g k' []) ∧ tx_inv true k' [] (tx_next_id g) m.
Proof.
  revert g. induction fuel as [|fuel IH]; intros g Hi Hlen; [lia|].
  pose proof Hi as [Hq Hnd Ho Hpm Hnx Hf Hids Hw]. simpl in *.
  destruct (queue (tx_kernel g)) as [|hd q] eqn:Eq; simpl.
  - exists (tx_kernel g). split; [destruct g; simpl in *; by subst|]. by rewrite <- Hq.
  - unfold signal_step. rewrite Eq, Hq. simpl.
    destruct (IH (set_tx g (mkKernel (permit (tx_kernel g)) q
      (log (tx_kernel g) ++ signal_segment 0 (SWoke hd)) (init (tx_kernel g))) [])) as (k' & Hr & Hi').
    + split; simpl; try done.
      * by apply NoDup_cons in Hnd as [_ ?].
      * intros i Hin. apply Ho. by right.
      * intros l f Hl Hp. destruct (Hf l f Hl Hp) as [? Hc]. split; [done|].
        intros Hcf Hin. apply Hc; [done|by right].
      * by intros i w ?%elem_of_nil.
    + simpl in *. lia.
    + exists k'. by rewrite Hr.
Qed.

Lemma wake_open g m i w ws' :
  tx_inv false (tx_kernel g) (tx_wakers g) (tx_next_id g) m → tx_wakers g = (i, w) :: ws' →
  ∃ k', wake_one_tx_bounded g = Some (Some w, set_tx g k' ws') ∧
    tx_inv false k' ws' (tx_next_id g) m ∧ hinted ws' m = S (hinted (tx_wakers g) m).
Proof.
  intros Hi Hws. pose proof Hi as [Hq Hnd Ho Hpm Hnx Hf Hids Hw]. simpl in Hq. rewrite Hws in Hq.
  simpl in Hq. unfold wake_one_tx_bounded. rewrite <- Hq in *. simpl. rewrite <- Hq.
  unfold signal_step. rewrite <- Hq, Hws. unfold tx_position. simpl. rewrite decide_True by done. simpl.
  apply NoDup_cons in Hnd as [Hni Hnd]. eexists. split; [done|]. split.
  - split; simpl; try done.
    + intros j Hin. apply Ho. by right.
    + intros l f Hl Hp. destruct (Hf l f Hl Hp) as [? Hc]. split; [done|].
      intros Hcf Hin. apply Hc; [done|by right].
    + intros j x Hin. apply (Hw j x). rewrite Hws. by right.
  - destruct (Hw i w) as (loc & f & Hl & Hp & Hc & Hid); [rewrite Hws; by left|].
    rewrite !(hinted_at _ m loc f Hl), decide_True, decide_False.
    + rewrite (hinted_ext ws' ((i, w) :: ws')); [lia|]. intros l f' [Hne Hl']%lookup_delete_Some Hp'.
      csimpl. rewrite elem_of_cons. split; [by right|]. intros [Heq|]; [|done].
      exfalso. apply Hne. eapply Hids; eauto. congruence.
    + intros (_ & _ & Hn). apply Hn. rewrite Hid. by left.
    + split_and!; [done..|]. by rewrite Hid.
Qed.

(** Both cases. *)
Lemma wake_spec g m c :
  rx_closed g = c → tx_inv c (tx_kernel g) (tx_wakers g) (tx_next_id g) m →
  ∃ o k' ws', wake_one_tx_bounded g = Some (o, set_tx g k' ws') ∧ tx_inv c k' ws' (tx_next_id g) m ∧
    ((tx_wakers g = [] ∧ ws' = [] ∧ o = None) ∨
     (∃ i w, c = false ∧ tx_wakers g = (i, w) :: ws' ∧ o = Some w ∧
        hinted ws' m = S (hinted (tx_wakers g) m))).
Proof.
  intros Hc Hi. destruct c.
  - destruct (wake_closed (S (length (queue (tx_kernel g)))) g m Hi) as (k' & Hr & Hi'); [lia|].
    exists None, k', []. split; [done|]. split; [done|]. left. split; [by apply Hi|done].
  - destruct (tx_wakers g) as [|[i w] ws'] eqn:Ews.
    + exists None, (tx_kernel g), []. split; [|split; [done|by left]].
      pose proof (ti_queue _ _ _ _ _ Hi) as Hq. simpl in Hq. unfold wake_one_tx_bounded. rewrite <- Hq.
      simpl. rewrite <- Hq. destruct g; simpl in *. by subst.
    + rewrite <- Ews in Hi. destruct (wake_open g m i w ws' Hi Ews) as (k' & Hr & Hi' & Hh).
      exists (Some w), k', ws'. split; [done|]. split; [done|]. right. exists i, w. by rewrite <- Ews.
Qed.

(** ** Withdrawing *)

Lemma filter_tx_position ws i :
  NoDup ws.*1 →
  match tx_position ws i with Some pos => delete pos ws | None => ws end = filter (λ e, e.1 ≠ i) ws.
Proof.
  induction ws as [|e ws IH]; [done|]. csimpl. intros [He Hn]%NoDup_cons. unfold tx_position. simpl.
  rewrite filter_cons. destruct (decide (e.1 = i)) as [Hi|Hi].
  - rewrite decide_False by (intros H; by apply H). simpl. symmetry. apply list_filter_id.
    intros x Hx Heq. apply He. rewrite list_elem_of_fmap. exists x. by rewrite Heq.
  - rewrite decide_True by done. rewrite <- IH by done. unfold tx_position.
    by destruct (list_find _ ws) as [[n x]|].
Qed.

Lemma filter_tx_ids ws i : NoDup ws.*1 → (filter (λ e, e.1 ≠ i) ws).*1 = remove_first ws.*1 i.
Proof.
  intros Hn. rewrite remove_first_filter by done. clear Hn.
  induction ws as [|e ws IH]; [done|]. csimpl. rewrite !filter_cons.
  repeat case_decide; csimpl; by rewrite ?IH.
Qed.

Lemma remove_spec c g m loc f :
  tx_inv c (tx_kernel g) (tx_wakers g) (tx_next_id g) m → m !! loc = Some f → parked f = true →
  ∃ b k' ws', remove_tx_waiter g (tx_id f) = (b, set_tx g k' ws') ∧
    tx_inv c k' ws' (tx_next_id g) (delete loc m) ∧
    ws' = filter (λ e, e.1 ≠ tx_id f) (tx_wakers g) ∧
    (∀ f', parked f' = true → tx_id f' = tx_id f → completed f' = true →
       tx_inv c k' ws' (tx_next_id g) (<[loc := f']> m)) ∧
    hinted ws' (delete loc m) = hinted (tx_wakers g) (delete loc m) ∧
    (c = false → (b = true ↔ tx_id f ∈ (tx_wakers g).*1)).
Proof.
  intros Hi Hl Hp. pose proof Hi as [Hq Hnd Ho Hpm Hnx Hf Hids Hw].
  unfold remove_tx_waiter. destruct (remove_step (tx_kernel g) (tx_id f)) as [b k'] eqn:Er.
  destruct (remove_step_spec _ _ _ _ Er) as (Hpm' & Hq' & Hb).
  assert (Hnw : NoDup (tx_wakers g).*1) by (destruct c; [rewrite Hq; constructor|by rewrite Hq]).
  assert (Hnq : tx_id f ∉ queue k').
  { rewrite Hq', remove_first_filter by done. rewrite list_elem_of_filter. by intros [? _]. }
  assert (Hnws : tx_id f ∉ (filter (λ e : Z * Z, e.1 ≠ tx_id f) (tx_wakers g)).*1).
  { rewrite list_elem_of_fmap. intros (e & He & Hin). apply list_elem_of_filter in Hin as [Hne _]. congruence. }
  exists b, k', (filter (λ e, e.1 ≠ tx_id f) (tx_wakers g)).
  split; [by rewrite filter_tx_position|].
  assert (Hdel : tx_inv c k' (filter (λ e, e.1 ≠ tx_id f) (tx_wakers g)) (tx_next_id g) (delete loc m)).
  { split.
    - destruct c; [by rewrite Hq|]. rewrite filter_tx_ids by done. by rewrite Hq', Hq.
    - rewrite Hq', remove_first_filter by done. by apply NoDup_filter.
    - intros i Hin. apply Ho. rewrite Hq' in Hin. by eapply elem_of_remove_first.
    - congruence.
    - done.
    - intros l f' [_ Hl']%lookup_delete_Some Hp'. destruct (Hf l f' Hl' Hp') as [? Hc']. split; [done|].
      intros Hcf Hin. apply Hc'; [done|]. rewrite Hq' in Hin. by eapply elem_of_remove_first.
    - intros l l' f1 f2 [_ H1]%lookup_delete_Some [_ H2]%lookup_delete_Some. by apply Hids.
    - intros i w [Hne Hin]%list_elem_of_filter. destruct (Hw i w Hin) as (l & f1 & Hl1 & Hrest).
      exists l, f1. rewrite lookup_delete_ne; [done|]. intros <-. simplify_eq. destruct Hrest as (_ & _ & <-).
      by apply Hne. }
  split; [done|]. split; [done|]. split; [|split].
  - intros f' Hp' Hid Hc'. rewrite <- insert_delete_eq. destruct Hdel as [Hq1 Hnd1 Ho1 Hpm1 Hnx1 Hf1 Hids1 Hw1].
    split; [done..| | |].
    + intros l f1. rewrite lookup_insert_Some. intros [[<- <-]|[_ Hl1]]; [|by eapply Hf1].
      intros _. rewrite Hid. split; [by apply (Hf loc f)|done].
    + intros l l' f1 f2. rewrite !lookup_insert_Some.
      intros [[<- <-]|[Hne1 Hl1]] [[<- <-]|[Hne2 Hl2]]; rewrite ?Hid; try done.
      * intros _ Hp2 Heq. apply lookup_delete_Some in Hl2 as [_ Hl2]. by eapply Hids.
      * intros Hp1 _ Heq. apply lookup_delete_Some in Hl1 as [_ Hl1]. by eapply Hids.
      * by apply Hids1.
    + intros i w Hin. destruct (Hw1 i w Hin) as (l & f1 & Hl1 & Hrest). exists l, f1.
      pose proof Hl1 as [Hne _]%lookup_delete_Some. by rewrite lookup_insert_ne.
  - apply hinted_ext. intros l f' [Hne Hl']%lookup_delete_Some Hp'. rewrite !ids_lookup.
    split; intros [w Hin]; exists w; [by apply list_elem_of_filter in Hin as [_ ?]|].
    apply list_elem_of_filter. split; [|done]. simpl. intros Heq. apply Hne. symmetry. by eapply Hids.
  - intros ->. by rewrite Hb, <- Hq.
Qed.

(** ** Parking *)

Lemma park_spec g m loc f w :
  rx_closed g = false → tx_inv false (tx_kernel g) (tx_wakers g) (tx_next_id g) m →
  m !! loc = Some f → completed f = false → (tx_next_id g < u64_max)%Z →
  ∃ k' ws' nx' f',
    park_tx g f w = inl (set_tx (set_tx_next g nx') k' ws', f') ∧
    tx_inv false k' ws' nx' (<[loc := f']> m) ∧
    (tx_next_id g ≤ nx' ≤ tx_next_id g + 1)%Z ∧
    tx_kind f' = tx_kind f ∧ parked f' = true ∧ completed f' = false ∧ (tx_id f', w) ∈ ws' ∧
    (∀ i x, (i, x) ∈ tx_wakers g → i ≠ tx_id f ∨ parked f = false → (i, x) ∈ ws').
Proof.
  intros Hcl Hi Hl Hc Hmax. pose proof Hi as [Hq Hnd Ho Hpm Hnx Hf Hids Hw].
  unfold park_tx. destruct (if parked f then tx_position (tx_wakers g) (tx_id f) else None) as [pos|] eqn:Ep.
  - destruct (parked f) eqn:Epk; [|done]. apply tx_position_Some in Ep as [w0 Hpos].
    set (ws' := alter (λ e, (e.1, w)) pos (tx_wakers g)).
    assert (Hids' : ws'.*1 = (tx_wakers g).*1).
    { apply list_eq. intros n. unfold ws'. rewrite !list_lookup_fmap, list_lookup_alter.
      case_decide; [subst|done]. by destruct (tx_wakers g !! _). }
    exists (tx_kernel g), ws', (tx_next_id g), f. split; [by destruct g|]. rewrite (insert_id _ _ _ Hl).
    split_and!; try done; try lia.
    + split; try done; [by rewrite Hids'|]. intros i x Hin.
      assert (i ∈ ws'.*1) as Hin' by (apply ids_lookup; by exists x). rewrite Hids', ids_lookup in Hin'.
      destruct Hin' as [y Hy]. by apply (Hw i y).
    + apply list_elem_of_lookup_2 with pos. unfold ws'. by rewrite list_lookup_alter, decide_True, Hpos.
    + intros i x Hin [Hne|]; [|done]. apply list_elem_of_lookup_1 in Hin as [n Hn].
      apply list_elem_of_lookup_2 with n. unfold ws'. rewrite list_lookup_alter.
      case_decide; [subst; congruence|done].
  - simpl. unfold wait_step. rewrite Hpm. simpl.
    eexists _, _, _, _. split; [done|]. simpl. rewrite wrap64_id by u64.
    assert (Hno : parked f = true → tx_id f ∉ (tx_wakers g).*1).
    { intros Hp. rewrite Hp in Ep. by apply tx_position_None. }
    split_and!; try done; try lia; [| |].
    + pose proof (tx_inv_delete _ _ _ _ _ _ _ Hl Hno Hi) as [Hqd _ _ _ _ Hfd Hidsd Hwd]. simpl in Hq.
      split; simpl.
      * by rewrite fmap_app, Hq.
      * apply NoDup_app. split_and!; [done| |apply NoDup_singleton].
        intros i Hin%Ho ->%list_elem_of_singleton. lia.
      * intros i [Hin%Ho | ->%list_elem_of_singleton]%elem_of_app; lia.
      * done.
      * lia.
      * intros l f1. rewrite lookup_insert_Some. intros [[<- <-]|[_ Hl1]]; simpl.
        -- intros _. split; [lia|congruence].
        -- intros Hp1. destruct (Hf l f1 Hl1 Hp1) as [? Hc1]. split; [lia|].
           intros Hcf [Hin|Heq%list_elem_of_singleton]%elem_of_app; [by apply Hc1|lia].
      * intros l l' f1 f2. rewrite !lookup_insert_Some.
        intros [[<- <-]|[_ Hl1]] [[<- <-]|[_ Hl2]]; simpl; try done; [..|by apply Hids].
        -- intros _ Hp2 Heq. destruct (Hf l' f2 Hl2 Hp2). lia.
        -- intros Hp1 _ Heq. destruct (Hf l f1 Hl1 Hp1). lia.
      * intros i x [Hin|Heq%list_elem_of_singleton]%elem_of_app.
        -- destruct (Hwd i x Hin) as (l & f1 & [Hne Hl1]%lookup_delete_Some & Hrest).
           exists l, f1. by rewrite lookup_insert_ne.
        -- simplify_eq. exists loc. eexists. rewrite lookup_insert_eq. done.
    + rewrite elem_of_app, list_elem_of_singleton. by right.
    + intros i x Hin _. rewrite elem_of_app. by left.
Qed.

(** After parking, everyone else is as before. *)
Lemma parked_hinted ws' m loc f' w : (tx_id f', w) ∈ ws' → hinted ws' (<[loc := f']> m) = hinted ws' (delete loc m).
Proof.
  intros Hin. rewrite hinted_insert, decide_False; [lia|]. intros (_ & _ & Hn). apply Hn, ids_lookup. by exists w.
Qed.
End tx.
