(* ===== verification/MpscStep.v ===== *)
(** * MpscStep: every action keeps the invariant of the channel

    [mpsc_inv]: the data kernel, the buffer and the permits agree, the values
    received and those buffered are the values accepted, a registered receiver
    waits for an empty channel, and when senders wait the free slots are matched by
    senders that were woken.  [kept] says that an action loses no waker. *)

From S2P Require Import Prelude UtilityLog Waiter Channel Mpsc MpscInv.
Import Waiter Mpsc.

Section step.
Context {T : Type}.
Implicit Types (s : Sys T) (g : Bounded T) (f : TxFut T) (m : gmap nat (TxFut T)) (a : action T).
Implicit Types (cap : Z) (np loc : nat).

Definition slack g m : Z := (Channel.free (ckernel g) - Z.of_nat (hinted (tx_wakers g) m))%Z.

(** The part of the invariant that concerns the shared state and the senders' futures; [n] free
    slots may be unmatched. *)
Record chan_inv cap g m np (n : Z) : Prop := {
  ci_wf : Channel.ch_wf (ckernel g);
  ci_cap : Channel.capacity (ckernel g) = cap;
  ci_buf : Channel.buffered (ckernel g) = Z.of_nat (length (buffer g));
  ci_res : Channel.reserved (ckernel g) = Z.of_nat np;
  ci_tx : tx_inv (rx_closed g) (tx_kernel g) (tx_wakers g) (tx_next_id g) m;
  ci_hint : rx_closed g = false → tx_wakers g ≠ [] → (slack g m ≤ n)%Z;
  ci_rx : ∀ w, rx_waker g = Some w → buffer g = [] ∧ sender_count g ≠ 0;
  ci_rxp : (0 ≤ permit (rx_kernel g))%Z;
}.

Record mpsc_inv cap s : Prop := {
  mi_chan : chan_inv cap (inner s) (txs s) (permits s) 0;
  mi_fifo : accepted s = received s ++ buffer (inner s);
  mi_recv : ∀ w, rx_waker (inner s) = Some w →
    ∃ r, recv s = Some r ∧ rx_parked r = true ∧ rx_done r = false;
}.

Definition woken_in s s' (w : Z) : Prop := ∃ l, wakes s' = wakes s ++ l ∧ w ∈ l.

(** The future that an action polls or drops. *)
Definition acts_on a loc : Prop := a = DropTx loc ∨ ∃ w, a = PollTx loc w.

Record kept s a s' : Prop := {
  kp_tx : ∀ i w, (i, w) ∈ tx_wakers (inner s) →
    (∃ loc f, txs s !! loc = Some f ∧ parked f = true ∧ tx_id f = i ∧ acts_on a loc) ∨
    (i, w) ∈ tx_wakers (inner s') ∨ woken_in s s' w;
  kp_rx : ∀ w, rx_waker (inner s) = Some w →
    (∃ w', a = PollRecv w') ∨ a = DropRecv ∨ rx_waker (inner s') = Some w ∨ woken_in s s' w;
  kp_next : (tx_next_id (inner s) ≤ tx_next_id (inner s') ≤ tx_next_id (inner s) + 1)%Z;
}.

(** Waking a sender matches one free slot. *)
Lemma freed_spec cap g m np n :
  chan_inv cap g m np (n + 1) → (0 ≤ n)%Z →
  ∃ o k' ws', wake_one_tx_bounded g = Some (o, set_tx g k' ws') ∧
    chan_inv cap (set_tx g k' ws') m np n ∧
    ∀ i w, (i, w) ∈ tx_wakers g → (i, w) ∈ ws' ∨ w ∈ option_list o.
Proof.
  intros [Hwf Hcap Hbuf Hres Htx Hhint Hrx Hrxp] Hn.
  destruct (wake_spec g m (rx_closed g) eq_refl Htx) as (o & k' & ws' & Hw & Hi & Hcase).
  exists o, k', ws'. split; [done|]. split.
  - split; simpl; try done. intros Hc Hne. destruct Hcase as [(_ & -> & _)|(i & w & _ & Hws & _ & Hh)]; [done|].
    specialize (Hhint Hc). rewrite Hws in Hhint. specialize (Hhint ltac:(done)).
    unfold slack in *. simpl in *. rewrite Hh. rewrite Hws in *. lia.
  - intros i w Hin. destruct Hcase as [(Heq & _ & _)|(j & x & _ & Hws & -> & _)].
    + rewrite Heq in Hin. by apply elem_of_nil in Hin.
    + rewrite Hws in Hin. apply elem_of_cons in Hin as [Heq|?]; [|by left]. simplify_eq. right. by left.
Qed.

Lemma wake_rx_spec g :
  ∃ k, wake_rx_bounded g = (rx_waker g, set_rx g k None) ∧
    ((0 ≤ permit (rx_kernel g))%Z → (0 ≤ permit k)%Z).
Proof.
  unfold wake_rx_bounded, signal_step. destruct (queue (rx_kernel g)); eexists; (split; [done|]); simpl; [|done].
  intros _. apply wrap64_range.
Qed.

(** A value enters the buffer: the receiver is woken. *)
Lemma pushed_spec cap g m np n n' c v :
  chan_inv cap g m np n → Channel.ch_wf c → Channel.capacity c = cap →
  Channel.buffered c = (Channel.buffered (ckernel g) + 1)%Z →
  (Channel.free c - Channel.free (ckernel g) ≤ n' - n)%Z → (0 ≤ Channel.reserved c)%Z →
  ∃ k, wake_rx_bounded (set_data g c (buffer g ++ [v])) = (rx_waker g, set_rx (set_data g c (buffer g ++ [v])) k None) ∧
    chan_inv cap (set_rx (set_data g c (buffer g ++ [v])) k None) m (Z.to_nat (Channel.reserved c)) n'.
Proof.
  intros [Hwf Hcap Hbuf Hres Htx Hhint Hrx Hrxp] Hc Hcc Hb Hf Hr.
  destruct (wake_rx_spec (set_data g c (buffer g ++ [v]))) as (k & Hw & Hk).
  exists k. split; [done|]. split; simpl; try done.
  - rewrite length_app. simpl. lia.
  - lia.
  - intros Hcl Hne. specialize (Hhint Hcl Hne). unfold slack in *. simpl. lia.
  - by apply Hk.
Qed.

Lemma chan_weaken cap g m np n n' : chan_inv cap g m np n → (n ≤ n')%Z → chan_inv cap g m np n'.
Proof. intros [Hwf Hcap Hbuf Hres Htx Hhint Hrx Hrxp] Hn. split; try done. intros. specialize (Hhint ltac:(done) ltac:(done)). lia. Qed.

(** The data kernel changes without a value entering. *)
Lemma chan_data cap g m np n c b np' n' :
  chan_inv cap g m np n → Channel.ch_wf c → Channel.capacity c = cap →
  Channel.buffered c = Z.of_nat (length b) → Channel.reserved c = Z.of_nat np' →
  (Channel.free c - Channel.free (ckernel g) ≤ n' - n)%Z → (buffer g = [] → b = []) →
  chan_inv cap (set_data g c b) m np' n'.
Proof.
  intros [Hwf Hcap Hbuf Hres Htx Hhint Hrx Hrxp] Hc Hcc Hb Hr Hf Hbb. split; simpl; try done.
  - intros Hcl Hne. specialize (Hhint Hcl Hne). unfold slack in *. simpl. lia.
  - intros w Hw. destruct (Hrx w Hw) as [He ?]. split; [by apply Hbb|done].
Qed.

(** A value leaves the buffer: a sender is woken. *)
Lemma take_spec cap g m np n c :
  chan_inv cap g m np n → (0 ≤ n)%Z → Channel.pop (ckernel g) = (true, c) →
  ∃ v b o k' ws', buffer g = v :: b ∧
    take_value g c = Some (v, set_tx (set_data g c b) k' ws', o) ∧
    chan_inv cap (set_tx (set_data g c b) k' ws') m np n ∧
    ∀ i w, (i, w) ∈ tx_wakers g → (i, w) ∈ ws' ∨ w ∈ option_list o.
Proof.
  intros Hi Hn Hp. destruct (Channel.pop_spec _ _ _ (ci_wf _ _ _ _ _ Hi) Hp) as (Hc & Hcap & Hres & Hb & Hbuf & _).
  pose proof Hi as [Hwf Hcap' Hbuf' Hres' _ _ _ _]. unfold take_value.
  destruct (buffer g) as [|v b] eqn:Eb; [simpl in *; symmetry in Hb; apply Z.ltb_lt in Hb; lia|].
  simpl in Hbuf'.
  destruct (freed_spec cap (set_data g c b) m np n) as (o & k' & ws' & Hw & Hi' & Hkp); [|done|].
  - eapply chan_data; [done|done|congruence|lia|congruence| |by rewrite Eb]. unfold Channel.free.
    rewrite Hres, Hcap, Hbuf. lia.
  - exists v, b, o, k', ws'. split; [done|]. rewrite Hw. simpl. done.
Qed.

(** ** The polls *)

(** What a poll or a drop of the future at [loc] does to the others' wakers. *)
Definition others_kept g g' loc m (l : list Z) : Prop :=
  ∀ i w, (i, w) ∈ tx_wakers g →
    (∃ f, m !! loc = Some f ∧ parked f = true ∧ tx_id f = i) ∨ (i, w) ∈ tx_wakers g' ∨ w ∈ l.

Lemma park_tx_ok cap g m np loc f w :
  chan_inv cap g m np 0 → rx_closed g = false → (Channel.free (ckernel g) ≤ 0)%Z →
  m !! loc = Some f → completed f = false → (tx_next_id g < u64_max)%Z →
  ∃ k' ws' nx' f', park_tx g f w = inl (set_tx (set_tx_next g nx') k' ws', f') ∧
    chan_inv cap (set_tx (set_tx_next g nx') k' ws') (<[loc := f']> m) np 0 ∧
    (tx_next_id g ≤ nx' ≤ tx_next_id g + 1)%Z ∧ tx_kind f' = tx_kind f ∧
    parked f' = true ∧ completed f' = false ∧ (tx_id f', w) ∈ ws' ∧
    others_kept g (set_tx (set_tx_next g nx') k' ws') loc m [].
Proof.
  intros [Hwf Hcap Hbuf Hres Htx Hhint Hrx Hrxp] Hcl Hfree Hl Hc Hmax. rewrite Hcl in Htx.
  destruct (park_spec g m loc f w Hcl Htx Hl Hc Hmax)
    as (k' & ws' & nx' & f' & Hpk & Htx' & Hnx' & Hk' & Hp' & Hc' & Hin' & Hkeep).
  exists k', ws', nx', f'. split; [done|]. split; [|split_and!; try done; try lia].
  - split; simpl; try done; [by rewrite Hcl|]. intros _ _. unfold slack. simpl. lia.
  - intros i x Hin. destruct (parked f) eqn:Epk.
    + destruct (decide (i = tx_id f)) as [->|Hne]; [left; by exists f|]. right; left. simpl. apply Hkeep; auto.
    + right; left. simpl. apply Hkeep; auto.
Qed.

(** A poll that completes withdraws the future if it is still parked. *)
Lemma leave_ok cap g m np n loc f f' :
  chan_inv cap g m np n → m !! loc = Some f → completed f = false → rx_closed g = false →
  parked f' = parked f → tx_id f' = tx_id f → completed f' = true →
  ∃ k' ws', leave_tx g f = set_tx g k' ws' ∧
    chan_inv cap (set_tx g k' ws') (<[loc := f']> m) np (n + 1) ∧
    others_kept g (set_tx g k' ws') loc m [].
Proof.
  intros [Hwf Hcap Hbuf Hres Htx Hhint Hrx Hrxp] Hl Hc Hcl Hp' Hid' Hc'. unfold leave_tx.
  assert (Hone : hinted (tx_wakers g) m ≤ hinted (tx_wakers g) (delete loc m) + 1).
  { rewrite (hinted_at _ m loc f Hl). case_decide; lia. }
  destruct (parked f) eqn:Epk.
  - destruct (remove_spec _ g m loc f Htx Hl Epk) as (b & k' & ws' & Hr & _ & Hws & Hupd & Hh & _).
    exists k', ws'. rewrite Hr. split; [done|]. split.
    + split; simpl; try done; [by apply Hupd|]. intros _ Hne.
      assert (tx_wakers g ≠ []) as Hne'.
      { intros Heq. rewrite Heq in Hws. by subst. }
      specialize (Hhint Hcl Hne'). unfold slack in *. simpl.
      rewrite hinted_insert, decide_False by (intros (_ & ? & _); congruence). lia.
    + intros i w Hin. simpl. rewrite Hws, list_elem_of_filter. simpl.
      destruct (decide (i = tx_id f)) as [->|Hne]; [left; by exists f|right; left; by split].
  - exists (tx_kernel g), (tx_wakers g). split; [by destruct g|]. split.
    + split; simpl; try done; [eapply tx_inv_update; eauto; congruence|]. intros _ Hne.
      specialize (Hhint Hcl Hne). unfold slack in *. simpl.
      rewrite hinted_insert, decide_False by (intros (_ & ? & _); congruence). lia.
    + intros i w Hin. right; by left.
Qed.

Lemma leave_data g f c b : leave_tx (set_data g c b) f = set_data (leave_tx g f) c b.
Proof.
  unfold leave_tx, remove_tx_waiter. destruct (parked f); [|done]. simpl.
  by destruct (remove_step _ _).
Qed.

(** The result of a poll by the future at [loc]: what the waker of the receiver became and which
    waker was woken, where the other senders are, and where the future stands. *)
Record poll_ok cap g m np loc f (waker : Z) (res : tx_result) g' f' (o : option Z) np' : Prop := {
  po_chan : chan_inv cap g' (<[loc := f']> m) np' 0;
  po_next : (tx_next_id g ≤ tx_next_id g' ≤ tx_next_id g + 1)%Z;
  po_others : others_kept g g' loc m [];
  po_rx : (rx_waker g' = rx_waker g ∧ o = None) ∨ (rx_waker g' = None ∧ o = rx_waker g);
  po_pending : res = TxPending →
    parked f' = true ∧ completed f' = false ∧ tx_kind f' = tx_kind f ∧
    (tx_id f', waker) ∈ tx_wakers g' ∧ (Channel.free (ckernel g) ≤ 0)%Z;
  po_ok : res = TxOk → completed f' = true ∧ rx_closed g = false;
  po_err : res = TxErr → rx_closed g = true;
}.

Lemma send_poll_ok cap g m np loc f v waker fuel :
  chan_inv cap g m np 0 → m !! loc = Some f → completed f = false →
  tx_kind f = SendFut (Some v) → (tx_next_id g < u64_max)%Z →
  ∃ res g' f' o, send_poll (S fuel) g f waker = Some (res, g', f', o) ∧
    poll_ok cap g m np loc f waker res g' f' o np ∧
    buffer g' = buffer g ++ (if res is TxOk then [v] else []).
Proof.
  intros Hi Hl Hc Hk Hmax. pose proof Hi as [Hwf Hcap Hbuf Hres Htx Hhint Hrx Hrxp].
  simpl. rewrite Hk. destruct (rx_closed g) eqn:Ecl.
  { eexists TxErr, g, _, None. split; [done|]. rewrite app_nil_r. split; [|done].
    split; try done; [|lia|by intros i w Hin; right; left|by left].
    split; try done; [|congruence]. rewrite Ecl. eapply tx_inv_update; [done| |done..|].
    - intros _. pose proof (ti_queue _ _ _ _ _ Htx) as ->. apply not_elem_of_nil.
    - simpl. congruence. }
  destruct (Channel.try_push (ckernel g)) as [[] c] eqn:Ep;
    destruct (Channel.try_push_spec _ _ _ Hwf Ep) as (Hc' & Hcc & Hcr & Hfr & Hcb).
  - rewrite leave_data.
    destruct (leave_ok cap g m np 0 loc f (mkTx (SendFut None) (tx_id f) (parked f) true))
      as (k' & ws' & Hlv & Hi' & Hoth); [done..|].
    destruct (pushed_spec cap (set_tx g k' ws') (<[loc := mkTx (SendFut None) (tx_id f) (parked f) true]> m)
      np (0 + 1) 0 c v Hi' Hc') as (k & Hw & Hi2); [congruence|done| |lia|].
    { simpl. unfold Channel.free. rewrite Hcc, Hcr, Hcb. lia. }
    rewrite Hlv. simpl in Hw |- *. rewrite Hw. eexists TxOk, _, _, _. split; [done|]. split; [|done].
    rewrite Hcr, Hres, Nat2Z.id in Hi2. split; try done; [simpl; lia|by right].
  - subst c. replace (set_data g (ckernel g) (buffer g)) with g by by destruct g.
    symmetry in Hfr. apply Z.ltb_ge in Hfr.
    destruct (park_tx_ok cap g m np loc f waker Hi Ecl Hfr Hl Hc Hmax)
      as (k' & ws' & nx' & f' & -> & Hi' & Hnx' & Hk' & Hp' & Hc1 & Hin' & Hoth).
    eexists TxPending, _, _, None. split; [done|]. rewrite app_nil_r. split; [|done].
    split; try done. by left.
Qed.

Lemma reserve_poll_ok cap g m np loc f waker fuel :
  chan_inv cap g m np 0 → m !! loc = Some f → completed f = false → (tx_next_id g < u64_max)%Z →
  ∃ res g' f' o, reserve_poll (S fuel) g f waker = Some (res, g', f', o) ∧
    poll_ok cap g m np loc f waker res g' f' o (if res is TxOk then S np else np) ∧
    buffer g' = buffer g.
Proof.
  intros Hi Hl Hc Hmax. pose proof Hi as [Hwf Hcap Hbuf Hres Htx Hhint Hrx Hrxp].
  simpl. destruct (rx_closed g) eqn:Ecl.
  { eexists TxErr, g, f, None. split; [done|]. split; [|done]. rewrite <- Ecl in Htx.
    split; rewrite ?insert_id by done; try done; [lia|by intros i w Hin; right; left|by left]. }
  destruct (Channel.reserve (ckernel g)) as [[] c] eqn:Ep;
    destruct (Channel.reserve_spec _ _ _ Hwf Ep) as (Hc' & Hcc & Hcb & Hfr & Hcr).
  - rewrite leave_data.
    destruct (leave_ok cap g m np 0 loc f (mkTx (tx_kind f) (tx_id f) (parked f) true))
      as (k' & ws' & Hlv & Hi' & Hoth); [done..|].
    rewrite Hlv. eexists TxOk, _, _, None. split; [done|]. split; [|done].
    split; try done; [|simpl; lia|by left].
    eapply chan_data; [exact Hi'|done|congruence|simpl; lia|rewrite Hcr; lia| |done].
    simpl. unfold Channel.free. rewrite Hcc, Hcr, Hcb. lia.
  - subst c. replace (set_data g (ckernel g) (buffer g)) with g by by destruct g.
    symmetry in Hfr. apply Z.ltb_ge in Hfr.
    destruct (park_tx_ok cap g m np loc f waker Hi Ecl Hfr Hl Hc Hmax)
      as (k' & ws' & nx' & f' & -> & Hi' & Hnx' & Hk' & Hp' & Hc1 & Hin' & Hoth).
    eexists TxPending, _, _, None. split; [done|]. split; [|done]. split; try done. by left.
Qed.

(** ** The receiver *)

Record recv_ok cap g m np r (waker : Z) (res : rx_result) g' r' (o : option Z) : Prop := {
  ro_chan : chan_inv cap g' m np 0;
  ro_next : tx_next_id g' = tx_next_id g;
  ro_tx : ∀ i w, (i, w) ∈ tx_wakers g → (i, w) ∈ tx_wakers g' ∨ w ∈ option_list o;
  ro_res : match res with
           | RxValue v => buffer g = v :: buffer g' ∧ rx_waker g' = rx_waker g ∧ rx_done r' = true
           | RxClosed => buffer g = [] ∧ buffer g' = [] ∧ sender_count g = 0 ∧
               rx_waker g' = rx_waker g ∧ rx_done r' = true
           | RxPending => buffer g = [] ∧ buffer g' = [] ∧ sender_count g ≠ 0 ∧
               rx_waker g' = Some waker ∧ rx_parked r' = true ∧ rx_done r' = rx_done r
           end;
}.

Lemma recv_loop_ok cap g m np r waker fuel :
  chan_inv cap g m np 0 → Z.to_nat (permit (rx_kernel g)) < fuel →
  ∃ res g' r' o, recv_loop fuel g r waker = Some (res, g', r', o) ∧
    recv_ok cap g m np r waker res g' r' o.
Proof.
  revert g. induction fuel as [|fuel IH]; intros g Hi Hlen; [lia|].
  pose proof Hi as [Hwf Hcap Hbuf Hres Htx Hhint Hrx Hrxp]. simpl.
  destruct (Channel.pop (ckernel g)) as [[] c] eqn:Ep.
  { destruct (take_spec cap g m np 0 c Hi ltac:(lia) Ep) as (v & b & o & k' & ws' & Hb & -> & Hi' & Hkp).
    eexists (RxValue v), _, _, o. split; [done|]. by split. }
  destruct (Channel.pop_spec _ _ _ Hwf Ep) as (_ & _ & _ & Hb0 & ->).
  replace (set_data g (ckernel g) (buffer g)) with g by by destruct g.
  assert (Hb : buffer g = []).
  { apply nil_length_inv. symmetry in Hb0. apply Z.ltb_ge in Hb0. lia. }
  case_decide as Hsc.
  { eexists RxClosed, g, _, None. split; [done|]. split; try done. by left. }
  destruct (rx_parked r) eqn:Erp.
  { eexists RxPending, _, r, None. split; [done|]. split; try done. by left. }
  unfold wait_step. simpl. destruct (Z.ltb_spec 0 (permit (rx_kernel g))) as [Hpos|Hneg].
  - match goal with |- context [recv_loop fuel ?g1 r waker] => destruct (IH g1) as (res & g' & r' & o & Hr & Hok) end.
    + split; try done. simpl. lia.
    + simpl. lia.
    + exists res, g', r', o. split; [done|]. destruct Hok as [H1 H2 H3 H4]. by split.
  - eexists RxPending, _, _, None. split; [done|]. split; try done. by left.
Qed.

(** ** Closing *)

Lemma close_chan cap g m np : chan_inv cap g m np 0 → chan_inv cap (snd (close g)) m np 0.
Proof.
  intros [Hwf Hcap Hbuf Hres Htx Hhint Hrx Hrxp]. split; simpl; try done. by eapply tx_inv_close.
Qed.
End step.
