(* ===== verification/MpscSpec.v ===== *)
(** * MpscSpec: what the bounded channel promises

    Values come out in the order in which they went in, none lost and none twice,
    within the capacity; a receiver and the senders that wait are woken when what
    they wait for happens; no poll loops for ever. *)

From S2P Require Import Prelude UtilityLog Waiter Channel Mpsc MpscInv MpscStep.
Import Waiter Mpsc.

Section spec.
Context {T : Type}.
Implicit Types (s : Sys T) (g : Bounded T) (f : TxFut T) (m : gmap nat (TxFut T)) (a : action T).
Implicit Types (cap : Z) (np loc : nat) (acts : list (action T)).

(** ** Every action *)

Lemma set_data_id g : set_data g (ckernel g) (buffer g) = g.
Proof. by destruct g. Qed.

Definition step_ok cap s a s' : Prop := mpsc_inv cap s' ∧ kept s a s'.

(** An action on the shared state: which wakers stay. *)
Lemma kept_after s a s' l :
  wakes s' = wakes s ++ l →
  (∀ i w, (i, w) ∈ tx_wakers (inner s) → (i, w) ∈ tx_wakers (inner s') ∨ w ∈ l) →
  (∀ w, rx_waker (inner s) = Some w → rx_waker (inner s') = Some w ∨ w ∈ l) →
  (tx_next_id (inner s) ≤ tx_next_id (inner s') ≤ tx_next_id (inner s) + 1)%Z →
  kept s a s'.
Proof.
  intros Hl Htx Hrx Hn. split; [| |done].
  - intros i w Hin. destruct (Htx i w Hin); [auto|]. right; right. by exists l.
  - intros w Hw. destruct (Hrx w Hw); [auto|]. do 3 right. by exists l.
Qed.

(** An action that changes neither the shared state nor the values. *)
Lemma quiet_ok cap s a s' :
  mpsc_inv cap s → inner s' = inner s → wakes s' = wakes s → accepted s' = accepted s →
  received s' = received s →
  chan_inv cap (inner s) (txs s') (permits s') 0 →
  (∀ w, rx_waker (inner s) = Some w → recv s' = recv s) → step_ok cap s a s'.
Proof.
  intros [Hi Hf Hr] Hin Hw Ha Hre Hi' Hrc. split.
  - split; rewrite ?Hin, ?Ha, ?Hre; [done|done|]. intros w Hwk. rewrite (Hrc w Hwk). by eapply Hr.
  - apply (kept_after _ _ _ []); rewrite ?Hin, ?app_nil_r; auto. lia.
Qed.

Lemma new_tx_ok cap s a loc k s' :
  mpsc_inv cap s → new_tx s loc k = Some s' → step_ok cap s a s'.
Proof.
  intros Hs. unfold new_tx. case_decide as Hg; [|done]. intros [= <-]. destruct Hg as [Hg _].
  eapply quiet_ok; simpl; try done. destruct Hs as [[Hwf Hcap Hbuf Hres Htx Hhint Hrx Hrxp] _ _].
  split; try done; [by apply tx_inv_new|]. simpl. unfold slack. by rewrite hinted_new.
Qed.

Lemma poll_tx_ok cap s loc waker f x :
  mpsc_inv cap s → (tx_next_id (inner s) < u64_max)%Z → txs s !! loc = Some f → completed f = false →
  poll_tx (inner s) f waker = Some x → step_ok cap s (PollTx loc waker) (finish_tx s loc f x).
Proof.
  intros [Hi Hf Hr] Hmax Hl Hc Hx.
  assert (Hpoll : ∃ res g' f' o np', x = (res, g', f', o) ∧
    poll_ok cap (inner s) (txs s) (permits s) loc f waker res g' f' o np' ∧
    np' = (match res, tx_kind f with TxOk, ReserveFut => S (permits s) | _, _ => permits s end) ∧
    buffer g' = buffer (inner s) ++ match res, tx_kind f with TxOk, SendFut _ => pending_value f | _, _ => [] end).
  { unfold poll_tx in Hx. destruct (tx_kind f) as [[v|]|] eqn:Ek.
    - destruct (send_poll_ok cap (inner s) (txs s) (permits s) loc f v waker
        (Z.to_nat (permit (tx_kernel (inner s))))) as (res & g' & f' & o & Hp & Hok & Hb); [done..|].
      rewrite Hp in Hx. simplify_eq. exists res, g', f', o, (permits s). split; [done|]. split; [done|].
      unfold pending_value. rewrite Ek. by destruct res.
    - simpl in Hx. by rewrite Ek in Hx.
    - destruct (reserve_poll_ok cap (inner s) (txs s) (permits s) loc f waker
        (Z.to_nat (permit (tx_kernel (inner s))))) as (res & g' & f' & o & Hp & Hok & Hb); [done..|].
      rewrite Hp in Hx. simplify_eq. eexists res, g', f', o, _. split; [done|]. split; [done|].
      rewrite Hb. destruct res; by rewrite app_nil_r. }
  destruct Hpoll as (res & g' & f' & o & np' & -> & [Hi' Hn' Hoth Hrxw _ _ _] & -> & Hb).
  assert (Hinner : inner (finish_tx s loc f (res, g', f', o)) = g' ∧
    txs (finish_tx s loc f (res, g', f', o)) = <[loc := f']> (txs s) ∧
    recv (finish_tx s loc f (res, g', f', o)) = recv s ∧
    wakes (finish_tx s loc f (res, g', f', o)) = wakes s ++ option_list o ∧
    received (finish_tx s loc f (res, g', f', o)) = received s ∧
    permits (finish_tx s loc f (res, g', f', o)) =
      (match res, tx_kind f with TxOk, ReserveFut => S (permits s) | _, _ => permits s end) ∧
    accepted (finish_tx s loc f (res, g', f', o)) =
      accepted s ++ match res, tx_kind f with TxOk, SendFut _ => pending_value f | _, _ => [] end).
  { destruct res; simpl; [destruct (tx_kind f)|..]; simpl; rewrite ?app_nil_r; done. }
  destruct Hinner as (H1 & H2 & H3 & H4 & H5 & H6 & H7). split.
  - split; rewrite ?H1, ?H2, ?H3, ?H5, ?H6, ?H7; [done| |].
    + by rewrite Hf, Hb, (assoc_L (++)).
    + intros w Hw. apply Hr with w. destruct Hrxw as [[<- _]|[Hnone _]]; congruence.
  - split; rewrite ?H1; [| |done].
    + intros i w Hin. destruct (Hoth i w Hin) as [(f1 & Hf1 & Hp & Hid)|[?|Hn]]; [|by auto|by apply elem_of_nil in Hn].
      left. exists loc, f1. split_and!; try done. right. by exists waker.
    + intros w Hw. destruct Hrxw as [[-> _]|[_ Ho]]; [auto|]. do 3 right. exists (option_list o).
      split; [exact H4|]. rewrite Ho, Hw. by left.
Qed.

Lemma drop_tx_ok cap s loc f s' :
  mpsc_inv cap s → txs s !! loc = Some f →
  ('(w, g) ← drop_tx_waiter (inner s) f; Some (set_txs (after s g w) (delete loc (txs s)))) = Some s' →
  step_ok cap s (DropTx loc) s'.
Proof.
  intros [Hi Hf Hr] Hl Hx. pose proof Hi as [Hwf Hcap Hbuf Hres Htx Hhint Hrx Hrxp].
  unfold drop_tx_waiter in Hx. destruct (completed f || negb (parked f)) eqn:Eb; simpl in Hx.
  { simplify_eq. eapply quiet_ok; simpl; try done; [by rewrite app_nil_r|].
    split; try done.
    - eapply tx_inv_delete; [done| |done]. intros Hp. rewrite Hp, orb_false_r in Eb.
      by eapply tx_inv_notin.
    - intros Hc Hne. specialize (Hhint Hc Hne). unfold slack in *.
      rewrite (hinted_at _ _ loc f Hl), decide_False in Hhint; [lia|].
      intros (Hp & Hcf & _). by rewrite Hp, Hcf in Eb. }
  apply orb_false_iff in Eb as [Ec Ep]. apply negb_false_iff in Ep.
  destruct (remove_spec _ (inner s) (txs s) loc f Htx Hl Ep)
    as (b & k' & ws' & Hrm & Hi1 & Hws & _ & Hh & Hb). rewrite Hrm in Hx.
  assert (Hkeep : ∀ i w, (i, w) ∈ tx_wakers (inner s) →
    (∃ loc0 f0, txs s !! loc0 = Some f0 ∧ parked f0 = true ∧ tx_id f0 = i ∧ acts_on (T := T) (DropTx loc) loc0) ∨
    (i, w) ∈ ws').
  { intros i w Hin. destruct (decide (i = tx_id f)) as [->|Hne]; [left; exists loc, f; split_and!; try done; by left|].
    right. rewrite Hws, list_elem_of_filter. by split. }
  assert (Hone : hinted (tx_wakers (inner s)) (txs s) ≤ hinted (tx_wakers (inner s)) (delete loc (txs s)) + 1).
  { rewrite (hinted_at _ _ loc f Hl). case_decide; lia. }
  assert (Hne' : ws' ≠ [] → tx_wakers (inner s) ≠ []).
  { intros Hne Heq. rewrite Heq in Hws. by subst. }
  destruct b.
  - simplify_eq/=. split.
    + split; simpl; try done. split; simpl; try done. intros Hc Hne.
      specialize (Hhint Hc (Hne' Hne)). unfold slack in *. simpl.
      rewrite (hinted_at _ _ loc f Hl), decide_False in Hhint; [lia|].
      intros (_ & _ & Hni). apply Hni. by apply Hb.
    + split; simpl; [|auto|lia]. intros i w Hin. destruct (Hkeep i w Hin); auto.
  - assert (Hmid : chan_inv cap (set_tx (inner s) k' ws') (delete loc (txs s)) (permits s) (0 + 1)).
    { split; simpl; try done. intros Hc Hne. specialize (Hhint Hc (Hne' Hne)).
      unfold slack in *. simpl. lia. }
    destruct (freed_spec cap _ _ _ 0 Hmid) as (o & k2 & ws2 & Hw & Hi2 & Hk2); [lia|].
    rewrite Hw in Hx. simplify_eq/=. split.
    + by split.
    + split; simpl; [|auto|lia]. intros i w Hin. destruct (Hkeep i w Hin) as [?|Hin']; [auto|].
      destruct (Hk2 i w Hin'); [auto|]. right; right. by exists (option_list o).
Qed.

(** A value that enters the buffer, with the permits left. *)
Lemma push_ok cap s a c v np :
  mpsc_inv cap s → Channel.ch_wf c → Channel.capacity c = cap →
  Channel.buffered c = (Channel.buffered (ckernel (inner s)) + 1)%Z →
  (Channel.free c ≤ Channel.free (ckernel (inner s)))%Z → Channel.reserved c = Z.of_nat np →
  let '(w, g) := wake_rx_bounded (set_data (inner s) c (buffer (inner s) ++ [v])) in
  step_ok cap s a (accept (set_permits (after s g w) np) [v]).
Proof.
  intros [Hi Hf Hr] Hc Hcap Hb Hfr Hres.
  destruct (pushed_spec cap (inner s) (txs s) (permits s) 0 0 c v Hi) as (k & -> & Hi'); [done..|lia|lia|].
  rewrite Hres, Nat2Z.id in Hi'. split; [split; simpl; [done| |done]|].
  - by rewrite Hf, (assoc_L (++)).
  - eapply kept_after; simpl; [done|auto|..|lia]. intros w ->. right. by left.
Qed.

Lemma take_ok cap s a c v g o r :
  mpsc_inv cap s → Channel.pop (ckernel (inner s)) = (true, c) → take_value (inner s) c = Some (v, g, o) →
  step_ok cap s a (receive (set_recv (after s g o) r) [v]).
Proof.
  intros [Hi Hf Hr] Hp Ht.
  destruct (take_spec cap (inner s) (txs s) (permits s) 0 c Hi ltac:(lia) Hp)
    as (v' & b & o' & k' & ws' & Hb & Ht' & Hi' & Hk).
  rewrite Ht in Ht'. simplify_eq. split; [split; simpl; [done| |]|].
  - by rewrite Hf, Hb, <- (assoc_L (++)).
  - intros w Hw. destruct (ci_rx _ _ _ _ _ Hi w Hw) as [He _]. by rewrite He in Hb.
  - eapply kept_after; simpl; [done|done|auto|lia].
Qed.

Lemma poll_recv_ok cap s w r s' :
  mpsc_inv cap s → recv s = Some r → rx_done r = false →
  ('(res, g, r', o) ← recv_poll (inner s) r w;
   Some (receive (set_recv (after s g o) (Some r')) match res with RxValue v => [v] | _ => [] end)) = Some s' →
  step_ok cap s (PollRecv w) s'.
Proof.
  intros [Hi Hf Hr] Hrc Hd Hx.
  destruct (recv_loop_ok cap (inner s) (txs s) (permits s) r w
    (S (Z.to_nat (permit (rx_kernel (inner s))))) Hi) as (res & g' & r' & o & Hp & [Hi' Hn Htx Hres]); [lia|].
  unfold recv_poll in Hx. rewrite Hp in Hx. simplify_eq/=. split.
  - split; simpl; [done| |].
    + destruct res; destruct Hres as (Hb & Hrest); rewrite Hf, Hb; [by rewrite <- (assoc_L (++))|..];
        destruct Hrest as (-> & _); by rewrite !app_nil_r.
    + intros x Hxw. destruct res as [v| |]; simpl in *.
      * destruct Hres as (Hb & Hrw & _). rewrite Hrw in Hxw.
        destruct (ci_rx _ _ _ _ _ Hi x Hxw) as [He _]. by rewrite He in Hb.
      * destruct Hres as (_ & _ & Hsc & Hrw & _). rewrite Hrw in Hxw.
        by destruct (ci_rx _ _ _ _ _ Hi x Hxw).
      * destruct Hres as (_ & _ & _ & _ & Hpk & Hdn). exists r'. by rewrite Hdn.
  - split; simpl; [|intros x _; left; by exists w|lia].
    intros i x Hin. destruct (Htx i x Hin); [auto|]. right; right. by exists (option_list o).
Qed.

Lemma close_ok cap s a b : mpsc_inv cap s → step_ok cap s a (set_alive (close_sys s) b).
Proof.
  intros [Hi Hf Hr]. split; [split; simpl; [by apply (close_chan cap (inner s))|done|done]|].
  eapply kept_after; simpl; [done| |auto|lia]. intros i w Hin. right.
  rewrite list_elem_of_fmap. by exists (i, w).
Qed.

Lemma mpsc_step_ok cap s a s' :
  mpsc_inv cap s → (tx_next_id (inner s) < u64_max)%Z → sys_step s a = Some s' → step_ok cap s a s'.
Proof.
  intros Hs Hmax Hx. pose proof Hs as [Hi Hf Hr]. pose proof Hi as [Hwf Hcap Hbuf Hres Htx Hhint Hrx Hrxp].
  destruct a as [loc v|loc|loc w|loc|v| |v| | | | |w| | | |]; cbn [sys_step] in Hx.
  - by eapply new_tx_ok.
  - by eapply new_tx_ok.
  - destruct (txs s !! loc) as [f|] eqn:El; simpl in Hx; [|done]. destruct (completed f) eqn:Ec; [done|].
    destruct (poll_tx (inner s) f w) as [x|] eqn:Ep; simpl in Hx; [|done]. simplify_eq. by apply poll_tx_ok.
  - destruct (txs s !! loc) as [f|] eqn:El; [|done]. by eapply drop_tx_ok.
  - case_decide; [done|]. unfold try_send in Hx.
    destruct (rx_closed (inner s)); [simplify_eq/=; eapply quiet_ok; simpl; rewrite ?app_nil_r; done|].
    destruct (Channel.try_push (ckernel (inner s))) as [[] c] eqn:Ep;
      destruct (Channel.try_push_spec _ _ _ Hwf Ep) as (Hc' & Hcc & Hcr & Hfr & Hcb).
    + pose proof (push_ok cap s (TrySend v) c v (permits s) Hs Hc') as Hpush.
      destruct (wake_rx_bounded _) as [o g]. simplify_eq/=.
      apply Hpush; [congruence|done| |congruence]. unfold Channel.free. rewrite Hcc, Hcr, Hcb. lia.
    + subst c. rewrite set_data_id in Hx. simplify_eq/=. eapply quiet_ok; simpl; rewrite ?app_nil_r; done.
  - case_decide; [done|]. unfold try_reserve in Hx.
    destruct (rx_closed (inner s)); [simplify_eq/=; eapply quiet_ok; simpl; rewrite ?app_nil_r; done|].
    destruct (Channel.reserve (ckernel (inner s))) as [b c] eqn:Ep.
    destruct (Channel.reserve_spec _ _ _ Hwf Ep) as (Hc' & Hcc & Hcb & Hfr & Hcr). simplify_eq. split.
    + split; [simpl|done|done]. destruct (0 <? Channel.free (ckernel (inner s)))%Z; [|subst c; by replace (set_data _ _ _) with (inner s) by by destruct (inner s)].
      eapply chan_data; [exact Hi|done|congruence|lia|lia| |done]. unfold Channel.free. lia.
    + eapply kept_after; simpl; [done|auto|auto|lia].
  - destruct (permits s) as [|n] eqn:En; [done|].
    destruct (Channel.fill_spec (ckernel (inner s)) Hwf) as (Hc' & Hcb & Hcr); [lia|].
    pose proof (push_ok cap s (PermitSend v) (Channel.fill (ckernel (inner s))) v n Hs Hc') as Hpush.
    unfold permit_send in Hx. destruct (wake_rx_bounded _) as [o g]. simplify_eq/=.
    apply Hpush; [done|done| |lia]. unfold Channel.free. simpl in *. lia.
  - destruct (permits s) as [|n] eqn:En; [done|].
    destruct (Channel.unreserve_spec (ckernel (inner s)) Hwf) as (Hc' & Hcr); [lia|].
    assert (Hmid : chan_inv cap (set_data (inner s) (Channel.unreserve (ckernel (inner s))) (buffer (inner s)))
      (txs s) n (0 + 1)).
    { eapply chan_data; [exact Hi|done|done|done|lia| |done]. unfold Channel.free. simpl in *. lia. }
    destruct (freed_spec cap _ _ _ 0 Hmid) as (o & k2 & ws2 & Hw & Hi2 & Hk2); [lia|].
    unfold permit_drop in Hx. rewrite Hw in Hx. simplify_eq/=. split; [by split|].
    eapply kept_after; simpl; [done|done|auto|lia].
  - case_decide; [done|]. simplify_eq. split; [split; simpl; [|done|done]|].
    + split; simpl; try done. intros w Hw. by destruct (Hrx w Hw).
    + eapply kept_after; simpl; [done|auto|auto|lia].
  - unfold drop_sender in Hx. destruct (sender_count (inner s)) as [|n] eqn:En; [done|]. case_decide as Hn0.
    + destruct (wake_rx_spec (set_count (inner s) n)) as (k & Hw & Hk). rewrite Hw in Hx. simplify_eq/=.
      split; [split; simpl; [|done|done]|].
      * split; simpl; try done. by apply Hk.
      * eapply kept_after; simpl; [done|auto|..|lia]. intros w ->. right. by left.
    + simplify_eq/=. split; [split; simpl; [|done|done]|].
      * split; simpl; try done. intros w Hw. by destruct (Hrx w Hw).
      * eapply kept_after; simpl; [done|auto|auto|lia].
  - case_match eqn:Eg; [|done]. simplify_eq. eapply quiet_ok; simpl; try done.
    intros w Hw. destruct (Hr w Hw) as (r & Hrc & _). unfold rx_free in Eg. rewrite Hrc in Eg.
    apply andb_true_iff in Eg as [_ Eg]. by apply bool_decide_eq_true in Eg.
  - destruct (recv s) as [r|] eqn:Er; simpl in Hx; [|done]. destruct (rx_done r) eqn:Ed; [done|].
    by eapply poll_recv_ok.
  - destruct (recv s) as [r|] eqn:Er; simpl in Hx; [|done]. simplify_eq. unfold drop_recv.
    destruct (rx_parked r) eqn:Erp.
    + split; [split; simpl; [|done|done]|].
      * split; simpl; try done. unfold remove_step. by destruct (find_first _ _).
      * split; simpl; [auto|intros w _; right; by left|lia].
    + assert (Hnone : rx_waker (inner s) = None).
      { destruct (rx_waker (inner s)) as [w|] eqn:Ew; [|done].
        destruct (Hr w eq_refl) as (r' & Hr' & Hp & _). congruence. }
      eapply quiet_ok; simpl; rewrite ?app_nil_r; try done. by rewrite Hnone.
  - case_match eqn:Eg; [|done]. unfold try_recv in Hx.
    destruct (Channel.pop (ckernel (inner s))) as [[] c] eqn:Ep.
    + destruct (take_value (inner s) c) as [[[v g] o]|] eqn:Et; simpl in Hx; [|done]. simplify_eq/=.
      pose proof (take_ok _ s TryRecv c v g o (recv s) Hs Ep Et) as Hok. by destruct s.
    + destruct (Channel.pop_spec _ _ _ Hwf Ep) as (_ & _ & _ & _ & ->). simpl in Hx. simplify_eq.
      replace (set_data (inner s) (ckernel (inner s)) (buffer (inner s))) with (inner s)
        by by destruct (inner s).
      eapply quiet_ok; simpl; rewrite ?app_nil_r; done.
  - case_match eqn:Eg; [|done]. simplify_eq. by eapply (close_ok _ s CloseRx (rx_alive s)).
  - case_match eqn:Eg; [|done]. simplify_eq. by apply close_ok.
Qed.

(** ** Runs *)

Lemma mpsc_run_None acts : foldl (λ o a, s' ← o; sys_step s' a) None acts = None.
Proof. by induction acts. Qed.

Lemma mpsc_run_ok cap s acts s' :
  mpsc_inv cap s → (tx_next_id (inner s) + Z.of_nat (length acts) ≤ u64_max)%Z →
  sys_run s acts = Some s' →
  mpsc_inv cap s' ∧ (tx_next_id (inner s') ≤ tx_next_id (inner s) + Z.of_nat (length acts))%Z.
Proof.
  unfold sys_run. revert s. induction acts as [|a acts IH]; intros s Hs Hlen; simpl in *.
  - intros [= <-]. split; [done|lia].
  - destruct (sys_step s a) as [s1|] eqn:Ea; [|by rewrite mpsc_run_None].
    destruct (mpsc_step_ok cap s a s1 Hs ltac:(lia) Ea) as [Hs1 [_ _ Hn]]. intros Hr.
    destruct (IH s1 Hs1) as [? ?]; [lia|done|]. split; [done|lia].
Qed.

Lemma channel_inv cap : (0 < cap < two64)%Z → mpsc_inv cap (init_sys (T:=T) cap).
Proof.
  intros Hc. split; simpl; [|done|done]. split; simpl; try done.
  - apply Channel.new_wf. u64.
  - split; simpl; try done; try set_solver. constructor.
Qed.

(** The capacity is a positive [usize], and the waiter ids of the run fit in 64 bits. *)
Definition run_bounds cap acts : Prop :=
  (0 < cap < two64 ∧ Z.of_nat (length acts) < u64_max)%Z.

Lemma mpsc_reachable cap acts s :
  run_bounds cap acts → sys_run (init_sys cap) acts = Some s →
  mpsc_inv cap s ∧ (tx_next_id (inner s) < u64_max)%Z.
Proof.
  intros [Hc Hlen] Hr. destruct (mpsc_run_ok cap (init_sys cap) acts s) as [Hs Hn];
    [by apply channel_inv|simpl; lia|done|]. simpl in Hn. split; [done|lia].
Qed.

(** The guards of the actions, without the loops they run. *)
Definition mpsc_enabled s a : Prop :=
  match a with
  | NewSend loc _ | NewReserve loc => txs s !! loc = None ∧ sender_count (inner s) ≠ 0
  | PollTx loc _ => ∃ f, txs s !! loc = Some f ∧ completed f = false ∧ tx_kind f ≠ SendFut None
  | DropTx loc => is_Some (txs s !! loc)
  | TrySend _ | TryReserve | CloneSender | DropSender => sender_count (inner s) ≠ 0
  | PermitSend _ | PermitDrop => permits s ≠ 0
  | NewRecv | TryRecv | CloseRx | DropRx => rx_free s = true
  | PollRecv _ => ∃ r, recv s = Some r ∧ rx_done r = false
  | DropRecv => is_Some (recv s)
  end.

Lemma mpsc_enabled_step cap s a :
  mpsc_inv cap s → (tx_next_id (inner s) < u64_max)%Z → mpsc_enabled s a → is_Some (sys_step s a).
Proof.
  intros [Hi Hf Hr] Hmax Hen. pose proof Hi as [Hwf Hcap Hbuf Hres Htx Hhint Hrx Hrxp].
  destruct a as [loc v|loc|loc w|loc|v| |v| | | | |w| | | |]; cbn [sys_step mpsc_enabled] in *.
  - unfold new_tx. by rewrite decide_True.
  - unfold new_tx. by rewrite decide_True.
  - destruct Hen as (f & Hl & Hc & Hk). rewrite Hl. simpl. rewrite Hc. unfold poll_tx.
    destruct (tx_kind f) as [[v|]|] eqn:Ek; [|done|].
    + destruct (send_poll_ok cap (inner s) (txs s) (permits s) loc f v w
        (Z.to_nat (permit (tx_kernel (inner s))))) as (res & g' & f' & o & Hp & _); [done..|].
      by rewrite Hp.
    + destruct (reserve_poll_ok cap (inner s) (txs s) (permits s) loc f w
        (Z.to_nat (permit (tx_kernel (inner s))))) as (res & g' & f' & o & Hp & _); [done..|].
      by rewrite Hp.
  - destruct Hen as [f Hl]. rewrite Hl. simpl. unfold drop_tx_waiter.
    destruct (completed f || negb (parked f)) eqn:Eb; [done|].
    apply orb_false_iff in Eb as [Ec Ep]. apply negb_false_iff in Ep.
    destruct (remove_spec _ (inner s) (txs s) loc f Htx Hl Ep) as (b & k' & ws' & -> & Hi1 & _).
    destruct b; [done|].
    destruct (wake_spec (set_tx (inner s) k' ws') (delete loc (txs s)) (rx_closed (inner s)) eq_refl Hi1)
      as (o & k2 & ws2 & -> & _). done.
  - rewrite decide_False by done. by destruct (try_send (inner s) v) as [[? ?] ?].
  - rewrite decide_False by done. by destruct (try_reserve (inner s)).
  - destruct (permits s); [done|]. by destruct (permit_send (inner s) v).
  - destruct (permits s) as [|n] eqn:En; [done|]. unfold permit_drop.
    destruct (wake_spec (set_data (inner s) (Channel.unreserve (ckernel (inner s))) (buffer (inner s)))
      (txs s) (rx_closed (inner s)) eq_refl Htx) as (o & k2 & ws2 & -> & _). done.
  - by rewrite decide_False.
  - unfold drop_sender. destruct (sender_count (inner s)); [done|].
    case_decide; [|done]. by destruct (wake_rx_bounded _).
  - by rewrite Hen.
  - destruct Hen as (r & Hrc & Hd). rewrite Hrc. simpl. rewrite Hd. unfold recv_poll.
    destruct (recv_loop_ok cap (inner s) (txs s) (permits s) r w
      (S (Z.to_nat (permit (rx_kernel (inner s))))) Hi) as (res & g' & r' & o & -> & _); [lia|done].
  - destruct Hen as [r ->]. done.
  - rewrite Hen. unfold try_recv. destruct (Channel.pop (ckernel (inner s))) as [[] c] eqn:Ep; [|done].
    destruct (take_spec cap (inner s) (txs s) (permits s) 0 c Hi ltac:(lia) Ep)
      as (v & b & o & k' & ws' & _ & -> & _). done.
  - by rewrite Hen.
  - by rewrite Hen.
Qed.
End spec.

(** C15. The channel is a FIFO queue without loss or duplication: after any run of sends, reserves,
    receives, drops and closes, the values received followed by those in the buffer are exactly the
    values accepted, in order; buffered values and reserved slots stay within the capacity; and a
    receive that returns None finds no sender left and every accepted value received. *)
Theorem mpsc_fifo (T : Type) (cap : Z) (acts : list (action T)) (s : Sys T) :
  run_bounds cap acts → sys_run (init_sys cap) acts = Some s →
  accepted s = received s ++ buffer (inner s) ∧
  (Z.of_nat (length (buffer (inner s)) + permits s) ≤ cap)%Z ∧
  ∀ r w g r' o, recv_poll (inner s) r w = Some (RxClosed, g, r', o) →
    sender_count (inner s) = 0 ∧ received s = accepted s.
Proof.
  intros Hb Hr. destruct (mpsc_reachable cap acts s Hb Hr) as [[Hi Hf Hrv] _].
  split; [done|]. split.
  - destruct Hi as [[_ _ _ _ Hc _] Hcap Hbuf Hres _ _ _ _]. lia.
  - intros r w g r' o Hp.
    destruct (recv_loop_ok cap (inner s) (txs s) (permits s) r w
      (S (Z.to_nat (permit (rx_kernel (inner s))))) Hi) as (res & g1 & r1 & o1 & Hp1 & [_ _ _ Hres]); [lia|].
    unfold recv_poll in Hp. rewrite Hp1 in Hp. simplify_eq. destruct Hres as (Hb0 & _ & Hsc & _).
    split; [done|]. by rewrite Hf, Hb0, app_nil_r.
Qed.

(** Capacity one: the second send parks, the receive takes the first value and wakes it. *)
Definition two_sends : list (action nat) :=
  [NewSend 0 5; PollTx 0 10; NewSend 1 6; PollTx 1 11; NewRecv; PollRecv 20; PollTx 1 11].

Lemma mpsc_fifo_witness :
  ∃ s, sys_run (init_sys 1) two_sends = Some s ∧ received s = [5] ∧ wakes s = [11]%Z ∧
    accepted s = received s ++ buffer (inner s) ∧ accepted s = [5; 6].
Proof.
  eexists. split; [vm_compute; reflexivity|]. split; [vm_compute; reflexivity|].
  split; [vm_compute; reflexivity|]. split; [|vm_compute; reflexivity].
  apply (mpsc_fifo nat 1 two_sends); [split; [u64|vm_compute; reflexivity]|vm_compute; reflexivity].
Defined.

(** The receiver misses no wake-up: while it is registered the channel is empty and has senders,
    it is parked in an unfinished receive, and the next action leaves it registered, or is its own
    poll or drop, or wakes it in that step; so an action that makes a value available or drops the
    last sender wakes it. *)
Theorem mpsc_rx_wakeup (T : Type) (cap : Z) (acts : list (action T)) (s : Sys T) (w : Z) :
  run_bounds cap acts → sys_run (init_sys cap) acts = Some s → rx_waker (inner s) = Some w →
  buffer (inner s) = [] ∧ sender_count (inner s) ≠ 0 ∧
  (∃ r, recv s = Some r ∧ rx_parked r = true ∧ rx_done r = false) ∧
  ∀ a s', sys_step s a = Some s' →
    (∃ w', a = PollRecv w') ∨ a = DropRecv ∨
    (rx_waker (inner s') = Some w ∧ buffer (inner s') = [] ∧ sender_count (inner s') ≠ 0) ∨
    woken_in s s' w.
Proof.
  intros Hb Hr Hw. destruct (mpsc_reachable cap acts s Hb Hr) as [Hs Hmax].
  pose proof Hs as [Hi Hf Hrv]. destruct (ci_rx _ _ _ _ _ Hi w Hw) as [He Hsc].
  split; [done|]. split; [done|]. split; [by eapply Hrv|]. intros a s' Hx.
  destruct (mpsc_step_ok cap s a s' Hs Hmax Hx) as [[Hi' _ _] [_ Hk _]].
  destruct (Hk w Hw) as [?|[?|[Hw'|?]]]; auto. do 2 right; left.
  split; [done|]. by eapply ci_rx.
Qed.

Lemma mpsc_rx_wakeup_witness :
  ∃ s s' : Sys nat, sys_run (init_sys 1) [NewRecv; PollRecv 20] = Some s ∧
    sys_step s (TrySend 7) = Some s' ∧ woken_in s s' 20.
Proof.
  set (s := default (init_sys 1) (sys_run (init_sys 1) [NewRecv; PollRecv 20%Z] : option (Sys nat))).
  set (s' := default (init_sys 1) (sys_step s (TrySend 7))).
  exists s, s'. split; [vm_compute; reflexivity|]. split; [vm_compute; reflexivity|].
  destruct (mpsc_rx_wakeup nat 1 [NewRecv; PollRecv 20%Z] s 20) as (_ & _ & _ & H);
    [split; [u64|vm_compute; reflexivity]|vm_compute; reflexivity|vm_compute; reflexivity|].
  destruct (H (TrySend 7) s') as [[w' Hw]|[Hw|[[Hw _]|Hw]]]; [vm_compute; reflexivity| | | |exact Hw].
  - discriminate Hw.
  - discriminate Hw.
  - vm_compute in Hw. discriminate Hw.
Defined.

(** No sender waits for a slot that is free: in an open channel with waiting senders, the free
    slots are at most the senders that were woken and did not poll yet. A waiting sender is a parked
    future, its poll found the channel full and registered the waker it was polled with, and the next
    action leaves that waker registered, or is the future's own poll or drop, or wakes it. *)
Theorem mpsc_tx_wakeup (T : Type) (cap : Z) (acts : list (action T)) (s : Sys T) :
  run_bounds cap acts → sys_run (init_sys cap) acts = Some s →
  (rx_closed (inner s) = false → tx_wakers (inner s) ≠ [] →
    (cap - Z.of_nat (length (buffer (inner s))) - Z.of_nat (permits s) ≤
     Z.of_nat (hinted (tx_wakers (inner s)) (txs s)))%Z) ∧
  (∀ i w, (i, w) ∈ tx_wakers (inner s) →
    (∃ loc f, txs s !! loc = Some f ∧ parked f = true ∧ completed f = false ∧ tx_id f = i) ∧
    ∀ a s', sys_step s a = Some s' →
      (∃ loc f, txs s !! loc = Some f ∧ parked f = true ∧ tx_id f = i ∧ acts_on a loc) ∨
      (i, w) ∈ tx_wakers (inner s') ∨ woken_in s s' w) ∧
  (∀ loc f w g f' o, txs s !! loc = Some f → completed f = false →
    poll_tx (inner s) f w = Some (TxPending, g, f', o) →
    (tx_id f', w) ∈ tx_wakers g ∧
    (cap = Z.of_nat (length (buffer (inner s)) + permits s))%Z).
Proof.
  intros Hb Hr. destruct (mpsc_reachable cap acts s Hb Hr) as [Hs Hmax].
  pose proof Hs as [Hi Hf Hrv]. pose proof Hi as [Hwf Hcap Hbuf Hres Htx Hhint Hrx Hrxp].
  split; [|split].
  - intros Hcl Hne. specialize (Hhint Hcl Hne). unfold slack, Channel.free in Hhint. lia.
  - intros i w Hin. split; [by eapply ti_wakers|]. intros a s' Hx.
    destruct (mpsc_step_ok cap s a s' Hs Hmax Hx) as [_ [Hk _ _]]. by apply Hk.
  - intros loc f w g f' o Hl Hc Hp. pose proof (Channel.ch_capacity _ Hwf) as Hfull.
    assert (Hpend : parked f' = true ∧ completed f' = false ∧ tx_kind f' = tx_kind f ∧
      (tx_id f', w) ∈ tx_wakers g ∧ (Channel.free (ckernel (inner s)) ≤ 0)%Z).
    { unfold poll_tx in Hp. destruct (tx_kind f) as [[v|]|] eqn:Ek; [|by simpl in Hp; rewrite Ek in Hp|].
      - destruct (send_poll_ok cap (inner s) (txs s) (permits s) loc f v w
          (Z.to_nat (permit (tx_kernel (inner s))))) as (res & g1 & f1 & o1 & Hp1 & Hok & _); [done..|].
        rewrite Hp1 in Hp. simplify_eq. rewrite <- Ek. by apply (po_pending _ _ _ _ _ _ _ _ _ _ _ _ Hok).
      - destruct (reserve_poll_ok cap (inner s) (txs s) (permits s) loc f w
          (Z.to_nat (permit (tx_kernel (inner s))))) as (res & g1 & f1 & o1 & Hp1 & Hok & _); [done..|].
        rewrite Hp1 in Hp. simplify_eq. rewrite <- Ek. by apply (po_pending _ _ _ _ _ _ _ _ _ _ _ _ Hok). }
    destruct Hpend as (_ & _ & _ & ? & Hfr). unfold Channel.free in Hfr. split; [done|lia].
Qed.

Lemma mpsc_tx_wakeup_witness :
  ∃ s s' : Sys nat, sys_run (init_sys 1) (take 4 two_sends) = Some s ∧
    sys_step s TryRecv = Some s' ∧ woken_in s s' 11.
Proof.
  set (s := default (init_sys 1) (sys_run (init_sys 1) (take 4 two_sends))).
  set (s' := default (init_sys 1) (sys_step s TryRecv)).
  exists s, s'. split; [vm_compute; reflexivity|]. split; [vm_compute; reflexivity|].
  destruct (mpsc_tx_wakeup nat 1 (take 4 two_sends) s) as (_ & H & _);
    [split; [u64|vm_compute; reflexivity]|vm_compute; reflexivity|].
  destruct (H 0%Z 11%Z) as [_ H1]; [vm_compute; by left|].
  destruct (H1 TryRecv s') as [(loc & f & _ & _ & _ & [Hw|[w' Hw]])|[Hw|Hw]];
    [vm_compute; reflexivity| | | |exact Hw].
  - discriminate Hw.
  - discriminate Hw.
  - vm_compute in Hw. by apply elem_of_nil in Hw.
Defined.

(** No operation of the channel loops for ever or panics: when its guard holds, an action goes
    through with the fuel it is given, stored wake hints included. *)
Theorem mpsc_never_stuck (T : Type) (cap : Z) (acts : list (action T)) (s : Sys T) (a : action T) :
  run_bounds cap acts → sys_run (init_sys cap) acts = Some s → mpsc_enabled s a →
  ∃ s', sys_step s a = Some s'.
Proof.
  intros Hb Hr Hen. destruct (mpsc_reachable cap acts s Hb Hr) as [Hs Hmax].
  destruct (mpsc_enabled_step cap s a Hs Hmax Hen) as [s' Hs']. by exists s'.
Qed.

(** Two values sent and taken leave two stored hints; the receive goes round the loop and parks. *)
Definition hints_run : list (action nat) := [TrySend 1; TryRecv; TrySend 2; TryRecv; NewRecv].

Lemma mpsc_never_stuck_witness :
  ∃ s s', sys_run (init_sys 1) hints_run = Some s ∧ permit (rx_kernel (inner s)) = 2%Z ∧
    sys_step s (PollRecv 20) = Some s'.
Proof.
  set (s := default (init_sys 1) (sys_run (init_sys 1) hints_run)).
  destruct (mpsc_never_stuck nat 1 hints_run s (PollRecv 20)) as [s' Hs'];
    [split; [u64|vm_compute; reflexivity]|vm_compute; reflexivity
    |eexists; split; vm_compute; reflexivity|].
  exists s, s'. split; [vm_compute; reflexivity|]. split; [vm_compute; reflexivity|exact Hs'].
Defined.
