(* ===== verification/Unbounded.v ===== *)
(** * Unbounded: the unbounded channel of [lion-utility/src/sync/mpsc.rs]

    The channel kernel with the largest capacity, a buffer that moves in lockstep
    with it, and a waiter kernel for the receiver, behind one mutex.  A send ignores
    the kernel's answer; the theorems bound the run so that it is never a refusal. *)

From S2P Require Import Prelude UtilityLog Waiter Channel.
Import Waiter.

Module Unbounded.

Record UnboundedInner (T : Type) := mkInner {
  rx_kernel : WaiterKernel;
  ckernel : Channel.ChannelKernel;
  buffer : list T;
  rx_waker : option Z;
  sender_count : nat;
  rx_closed : bool;
  rx_next_id : Z;
}.
Arguments mkInner {T} _ _ _ _ _ _ _.
Arguments rx_kernel {T} _.
Arguments ckernel {T} _.
Arguments buffer {T} _.
Arguments rx_waker {T} _.
Arguments sender_count {T} _.
Arguments rx_closed {T} _.
Arguments rx_next_id {T} _.

(** [rx_done]: the future returned Ready. *)
Record UnboundedRecv := mkRecv { rx_id : Z; rx_parked : bool; rx_done : bool }.

Section ops.
Context {T : Type}.
Implicit Types (g : UnboundedInner T) (r : UnboundedRecv) (v : T) (waker : Z).

Definition set_rx g k w : UnboundedInner T :=
  mkInner k (ckernel g) (buffer g) w (sender_count g) (rx_closed g) (rx_next_id g).
Definition set_data g c b : UnboundedInner T :=
  mkInner (rx_kernel g) c b (rx_waker g) (sender_count g) (rx_closed g) (rx_next_id g).
Definition set_count g n : UnboundedInner T :=
  mkInner (rx_kernel g) (ckernel g) (buffer g) (rx_waker g) n (rx_closed g) (rx_next_id g).
Definition set_next g i : UnboundedInner T :=
  mkInner (rx_kernel g) (ckernel g) (buffer g) (rx_waker g) (sender_count g) (rx_closed g) i.

Definition unbounded_channel : UnboundedInner T :=
  mkInner Waiter.new (Channel.new u64_max) [] None 1 false 0.

Definition wake_rx_unbounded g : option Z * UnboundedInner T :=
  let '(_, k) := signal_step (rx_kernel g) 0 in (rx_waker g, set_rx g k None).

(** [UnboundedSender::send]: whether the value was accepted, and the waker to wake. *)
Definition send g v : bool * UnboundedInner T * option Z :=
  if rx_closed g then (false, g, None)
  else
    let '(_, c) := Channel.try_push (ckernel g) in
    let '(w, g') := wake_rx_unbounded (set_data g c (buffer g ++ [v])) in
    (true, g', w).

(** [UnboundedSender::drop] *)
Definition drop_sender g : option (option Z * UnboundedInner T) :=
  match sender_count g with
  | 0 => None
  | S n =>
      let g1 := set_count g n in
      if decide (n = 0) then Some (wake_rx_unbounded g1) else Some (None, g1)
  end.

(** [UnboundedReceiver::try_recv]; the outer option is the [unwrap]. *)
Definition try_recv g : option (option T * UnboundedInner T) :=
  match Channel.pop (ckernel g) with
  | (true, c) => match buffer g with v :: b => Some (Some v, set_data g c b) | [] => None end
  | (false, c) => Some (None, set_data g c (buffer g))
  end.

Inductive rx_result := RxValue (v : T) | RxClosed | RxPending.

(** [UnboundedRecv::poll] *)
Fixpoint recv_loop (fuel : nat) g r waker : option (rx_result * UnboundedInner T * UnboundedRecv) :=
  match fuel with
  | 0 => None
  | S fuel' =>
      '(o, g0) ← try_recv g;
      match o with
      | Some v => Some (RxValue v, g0, mkRecv (rx_id r) (rx_parked r) true)
      | None =>
          if decide (sender_count g0 = 0) then Some (RxClosed, g0, mkRecv (rx_id r) (rx_parked r) true)
          else if rx_parked r then Some (RxPending, set_rx g0 (rx_kernel g0) (Some waker), r)
          else
            let wid := rx_next_id g0 in
            let g1 := set_next g0 (wrap64 (wid + 1)) in
            match wait_step (rx_kernel g1) wid with
            | (Ready, k) => recv_loop fuel' (set_rx g1 k (rx_waker g1)) r waker
            | (Park _, k) => Some (RxPending, set_rx g1 k (Some waker), mkRecv wid true (rx_done r))
            end
      end
  end.

(** Each [continue] uses up one stored hint. *)
Definition recv_poll g r waker : option (rx_result * UnboundedInner T * UnboundedRecv) :=
  recv_loop (S (Z.to_nat (permit (rx_kernel g)))) g r waker.

(** [UnboundedRecv::drop] *)
Definition drop_recv g r : UnboundedInner T :=
  if rx_parked r then set_rx g (snd (remove_step (rx_kernel g) (rx_id r))) None else g.

(** [UnboundedReceiver::close], also its drop. *)
Definition close g : UnboundedInner T :=
  mkInner (rx_kernel g) (ckernel g) (buffer g) (rx_waker g) (sender_count g) true (rx_next_id g).

End ops.

(** ** A channel with its receive *)

(** [accepted] and [received] are the values sent successfully and the values
    received, in order. *)
Record Sys (T : Type) := mkSys {
  inner : UnboundedInner T;
  recv : option UnboundedRecv;
  rx_alive : bool;
  wakes : list Z;
  accepted : list T;
  received : list T;
}.
Arguments mkSys {T} _ _ _ _ _ _.
Arguments inner {T} _.
Arguments recv {T} _.
Arguments rx_alive {T} _.
Arguments wakes {T} _.
Arguments accepted {T} _.
Arguments received {T} _.

Inductive action (T : Type) :=
  | Send (v : T) | CloneSender | DropSender | NewRecv | PollRecv (waker : Z) | DropRecv
  | TryRecv | CloseRx | DropRx.
Arguments Send {T} _.
Arguments CloneSender {T}.
Arguments DropSender {T}.
Arguments NewRecv {T}.
Arguments PollRecv {T} _.
Arguments DropRecv {T}.
Arguments TryRecv {T}.
Arguments CloseRx {T}.
Arguments DropRx {T}.

Section sys.
Context {T : Type}.
Implicit Types (s : Sys T) (g : UnboundedInner T).

Definition init_sys : Sys T := mkSys unbounded_channel None true [] [] [].

(** The receiver may be used when no receive borrows it. *)
Definition rx_free s : bool := rx_alive s && bool_decide (recv s = None).

Definition sys_step s (a : action T) : option (Sys T) :=
  match a with
  | Send v =>
      if decide (sender_count (inner s) = 0) then None
      else let '(ok, g, w) := send (inner s) v in
           Some (mkSys g (recv s) (rx_alive s) (wakes s ++ option_list w)
                   (accepted s ++ if ok then [v] else []) (received s))
  | CloneSender =>
      if decide (sender_count (inner s) = 0) then None
      else Some (mkSys (set_count (inner s) (S (sender_count (inner s)))) (recv s) (rx_alive s)
                   (wakes s) (accepted s) (received s))
  | DropSender =>
      '(w, g) ← drop_sender (inner s);
      Some (mkSys g (recv s) (rx_alive s) (wakes s ++ option_list w) (accepted s) (received s))
  | NewRecv =>
      if rx_free s then
        Some (mkSys (inner s) (Some (mkRecv 0 false false)) true (wakes s) (accepted s) (received s))
      else None
  | PollRecv waker =>
      r ← recv s;
      if rx_done r then None
      else '(res, g, r') ← recv_poll (inner s) r waker;
           Some (mkSys g (Some r') (rx_alive s) (wakes s) (accepted s)
                   (received s ++ match res with RxValue v => [v] | _ => [] end))
  | DropRecv =>
      r ← recv s;
      Some (mkSys (drop_recv (inner s) r) None (rx_alive s) (wakes s) (accepted s) (received s))
  | TryRecv =>
      if rx_free s then
        '(o, g) ← try_recv (inner s);
        Some (mkSys g (recv s) (rx_alive s) (wakes s) (accepted s) (received s ++ option_list o))
      else None
  | CloseRx =>
      if rx_free s then
        Some (mkSys (close (inner s)) (recv s) true (wakes s) (accepted s) (received s))
      else None
  | DropRx =>
      if rx_free s then
        Some (mkSys (close (inner s)) (recv s) false (wakes s) (accepted s) (received s))
      else None
  end.

Definition sys_run s (acts : list (action T)) : option (Sys T) :=
  foldl (λ o a, s' ← o; sys_step s' a) (Some s) acts.

(** The guard of an action. *)
Definition enabled s (a : action T) : Prop :=
  match a with
  | Send _ | CloneSender | DropSender => sender_count (inner s) ≠ 0
  | NewRecv | TryRecv | CloseRx | DropRx => rx_free s = true
  | PollRecv _ => ∃ r, recv s = Some r ∧ rx_done r = false
  | DropRecv => is_Some (recv s)
  end.
End sys.
End Unbounded.
Import Unbounded.

(** ** The invariant *)

Section inv.
Context {T : Type}.
Implicit Types (s : Sys T) (g : UnboundedInner T) (r : UnboundedRecv) (a : action T).

Record inner_inv g : Prop := {
  ui_wf : Channel.ch_wf (ckernel g);
  ui_cap : Channel.capacity (ckernel g) = u64_max ∧ Channel.reserved (ckernel g) = 0%Z;
  ui_buf : Channel.buffered (ckernel g) = Z.of_nat (length (buffer g));
  ui_rx : ∀ w, rx_waker g = Some w → buffer g = [] ∧ sender_count g ≠ 0;
  ui_permit : (0 ≤ permit (rx_kernel g))%Z;
}.

Record unbounded_inv s : Prop := {
  us_inner : inner_inv (inner s);
  us_fifo : accepted s = received s ++ buffer (inner s);
  us_recv : ∀ w, rx_waker (inner s) = Some w →
    ∃ r, recv s = Some r ∧ rx_parked r = true ∧ rx_done r = false;
}.

Definition woken_in s s' (w : Z) : Prop := ∃ l, wakes s' = wakes s ++ l ∧ w ∈ l.

(** A registered receiver stays so, polls, leaves, or is woken. *)
Definition rx_kept s a s' : Prop :=
  ∀ w, rx_waker (inner s) = Some w →
    (∃ w', a = PollRecv w') ∨ a = DropRecv ∨ rx_waker (inner s') = Some w ∨ woken_in s s' w.

Lemma signal_permit k n : (0 ≤ permit k)%Z → (0 ≤ permit (snd (signal_step k n)))%Z.
Proof.
  intros Hp. unfold signal_step. destruct (queue k); simpl; [|done].
  apply (wrap64_range (permit k + 1)).
Qed.

Lemma unbounded_wake_rx_spec g :
  wake_rx_unbounded g = (rx_waker g, set_rx g (snd (signal_step (rx_kernel g) 0)) None).
Proof. unfold wake_rx_unbounded. by destruct (signal_step _ _). Qed.

(** A woken receiver is not registered any more. *)
Lemma inner_inv_woken g k :
  Channel.ch_wf (ckernel g) →
  (Channel.capacity (ckernel g) = u64_max ∧ Channel.reserved (ckernel g) = 0%Z) →
  Channel.buffered (ckernel g) = Z.of_nat (length (buffer g)) →
  (0 ≤ permit k)%Z → inner_inv (set_rx g k None).
Proof. intros. by split. Qed.

Lemma unbounded_try_recv_spec g :
  inner_inv g →
  ∃ o g', try_recv g = Some (o, g') ∧ inner_inv g' ∧ rx_kernel g' = rx_kernel g ∧
    rx_waker g' = rx_waker g ∧ sender_count g' = sender_count g ∧ rx_closed g' = rx_closed g ∧
    match o with Some v => buffer g = v :: buffer g' | None => buffer g = [] ∧ g' = g end.
Proof.
  intros [Hwf [Hcap Hres] Hbuf Hrx Hp]. unfold try_recv.
  destruct (Channel.pop (ckernel g)) as [b c] eqn:Ep.
  destruct (Channel.pop_spec _ _ _ Hwf Ep) as (Hwf' & Hcap' & Hres' & Hb & Hc).
  destruct b.
  - symmetry in Hb. apply Z.ltb_lt in Hb. destruct (buffer g) as [|v b] eqn:Eb; simpl in *; [lia|].
    eexists (Some v), _. split; [done|]. split; [|done]. split; simpl.
    + done.
    + split; congruence.
    + lia.
    + intros w Hw. by destruct (Hrx w Hw).
    + done.
  - symmetry in Hb. apply Z.ltb_ge in Hb. subst c. exists None, g.
    assert (buffer g = []) by (apply nil_length_inv; lia).
    split; [by destruct g|]. by split.
Qed.

Lemma recv_loop_spec r waker fuel : ∀ g,
  inner_inv g → Z.to_nat (permit (rx_kernel g)) < fuel →
  ∃ res g' r', recv_loop fuel g r waker = Some (res, g', r') ∧ inner_inv g' ∧
    match res with
    | RxValue v => buffer g = v :: buffer g' ∧ rx_waker g' = rx_waker g
    | RxClosed => buffer g = [] ∧ buffer g' = [] ∧ sender_count g = 0 ∧ rx_waker g' = rx_waker g
    | RxPending => buffer g = [] ∧ buffer g' = [] ∧ sender_count g ≠ 0 ∧ rx_waker g' = Some waker ∧
        rx_parked r' = true ∧ rx_done r' = rx_done r
    end.
Proof.
  induction fuel as [|fuel IH]; intros g Hi Hlen; [lia|].
  destruct (unbounded_try_recv_spec g Hi) as (o & g0 & Ht & Hi0 & _ & Hw0 & _ & _ & Ho). simpl. rewrite Ht.
  cbn [mbind option_bind]. destruct o as [v|]; [by eexists (RxValue v), g0, _|].
  destruct Ho as [Hb ->]. case_decide as Hsc; [by eexists RxClosed, g, _|].
  pose proof Hi as [Hwf Hcap Hbuf Hrx Hp].
  destruct (rx_parked r) eqn:Erp; [by eexists RxPending, _, r|].
  unfold wait_step. simpl. destruct (Z.ltb_spec 0 (permit (rx_kernel g))) as [Hpos|Hneg].
  - match goal with |- context [recv_loop fuel ?g1 r waker] =>
      destruct (IH g1) as (res & g' & r' & Hr & Hi' & Hres) end.
    + split; try done. simpl. lia.
    + simpl. lia.
    + by exists res, g', r'.
  - by eexists RxPending, _, _.
Qed.

(** ** Every action *)

Lemma step_enabled s a s' : sys_step s a = Some s' → enabled s a.
Proof.
  destruct a as [v| | | |w| | | |]; simpl; unfold drop_sender.
  - by case_decide.
  - by case_decide.
  - by destruct (sender_count (inner s)).
  - by destruct (rx_free s).
  - destruct (recv s) as [r|]; simpl; [|done]. destruct (rx_done r) eqn:Ed; [done|]. by exists r.
  - by destruct (recv s).
  - by destruct (rx_free s).
  - by destruct (rx_free s).
  - by destruct (rx_free s).
Qed.

Lemma kept_quiet s a s' :
  rx_waker (inner s') = rx_waker (inner s) → rx_kept s a s'.
Proof. intros H w Hw. do 2 right; left. congruence. Qed.

Lemma kept_woken s a s' :
  wakes s' = wakes s ++ option_list (rx_waker (inner s)) → rx_kept s a s'.
Proof.
  intros H w Hw. do 3 right. exists (option_list (rx_waker (inner s))). split; [done|].
  rewrite Hw. by left.
Qed.

Lemma rx_free_recv s : rx_free s = true → recv s = None.
Proof. unfold rx_free. intros [_ H]%andb_prop. by apply bool_decide_eq_true in H. Qed.

Lemma free_unregistered s w : unbounded_inv s → recv s = None → rx_waker (inner s) = Some w → False.
Proof. intros [_ _ Hr] Hn Hw. destruct (Hr w Hw) as (r & Hs & _). congruence. Qed.

Lemma unbounded_send_ok s v :
  unbounded_inv s → (Z.of_nat (length (accepted s)) < u64_max)%Z → sender_count (inner s) ≠ 0 →
  ∃ s', sys_step s (Send v) = Some s' ∧ unbounded_inv s' ∧ rx_kept s (Send v) s' ∧
    accepted s' = accepted s ++ if rx_closed (inner s) then [] else [v].
Proof.
  intros [[Hwf [Hcap Hres] Hbuf Hrx Hp] Hf Hr] Hlen Hsc. simpl. rewrite decide_False by done. unfold send.
  destruct (rx_closed (inner s)) eqn:Ecl.
  { eexists. split; [done|]. split; [|split; [by apply kept_quiet|done]].
    split; simpl; rewrite ?app_nil_r; try done. }
  destruct (Channel.try_push (ckernel (inner s))) as [b c] eqn:Ep.
  destruct (Channel.try_push_spec _ _ _ Hwf Ep) as (Hwf' & Hcap' & Hres' & Hb & Hc).
  assert (b = true) as ->.
  { rewrite Hb. apply Z.ltb_lt. unfold Channel.free. rewrite Hcap, Hres, Hbuf.
    rewrite Hf, length_app in Hlen. lia. }
  rewrite unbounded_wake_rx_spec. eexists. split; [done|]. split; [|split; [by apply kept_woken|done]].
  split; simpl.
  - apply inner_inv_woken; simpl; [done|by rewrite Hcap', Hres'| |by apply signal_permit].
    rewrite Hc, Hbuf, length_app. simpl. lia.
  - by rewrite Hf, (assoc_L (++)).
  - done.
Qed.

Lemma unbounded_drop_sender_ok s :
  unbounded_inv s → sender_count (inner s) ≠ 0 →
  ∃ s', sys_step s DropSender = Some s' ∧ unbounded_inv s' ∧ rx_kept s DropSender s' ∧
    accepted s' = accepted s.
Proof.
  intros [[Hwf Hcap Hbuf Hrx Hp] Hf Hr] Hsc. simpl. unfold drop_sender.
  destruct (sender_count (inner s)) as [|n] eqn:En; [done|]. case_decide as Hn.
  - rewrite unbounded_wake_rx_spec. eexists. split; [done|]. split; [|split; [by apply kept_woken|done]].
    split; simpl; [|done|done]. apply inner_inv_woken; simpl; [done..|by apply signal_permit].
  - eexists. split; [done|]. split; [|split; [by apply kept_quiet|done]].
    split; simpl; [|done|done]. split; simpl; try done.
    intros w Hw. destruct (Hrx w Hw). split; [done|lia].
Qed.

Lemma unbounded_poll_recv_ok s r waker :
  unbounded_inv s → recv s = Some r → rx_done r = false →
  ∃ s', sys_step s (PollRecv waker) = Some s' ∧ unbounded_inv s' ∧ rx_kept s (PollRecv waker) s' ∧
    accepted s' = accepted s.
Proof.
  intros [Hi Hf Hr] Hrc Hd. simpl. rewrite Hrc. simpl. rewrite Hd. unfold recv_poll.
  destruct (recv_loop_spec r waker (S (Z.to_nat (permit (rx_kernel (inner s))))) (inner s) Hi)
    as (res & g' & r' & -> & Hi' & Hres); [lia|].
  assert (Hnone : ∀ v, buffer (inner s) = v :: buffer g' → rx_waker (inner s) = None).
  { intros v Hb. apply eq_None_not_Some. intros [w Hw]. destruct (ui_rx _ Hi w Hw). congruence. }
  eexists. split; [done|]. split; [|split; [intros w _; left; by eexists|done]].
  split; simpl; [done| |].
  - rewrite Hf. destruct res as [v| |].
    + destruct Hres as [-> _]. by rewrite <- (assoc_L (++)).
    + destruct Hres as (-> & -> & _). by rewrite !app_nil_r.
    + destruct Hres as (-> & -> & _). by rewrite !app_nil_r.
  - intros w Hw. destruct res as [v| |].
    + destruct Hres as [Hb Hrw]. rewrite Hrw, (Hnone v Hb) in Hw. done.
    + destruct Hres as (_ & _ & Hs0 & Hrw). rewrite Hrw in Hw. by destruct (ui_rx _ Hi w Hw).
    + destruct Hres as (_ & _ & _ & _ & Hpk & Hdn). exists r'. by rewrite Hdn.
Qed.

Lemma unbounded_step_ok s a :
  unbounded_inv s → (Z.of_nat (length (accepted s)) < u64_max)%Z → enabled s a →
  ∃ s', sys_step s a = Some s' ∧ unbounded_inv s' ∧ rx_kept s a s' ∧
    length (accepted s') ≤ S (length (accepted s)).
Proof.
  intros Hs Hlen Hen. pose proof Hs as [Hi Hf Hr]. destruct a as [v| | | |w| | | |]; simpl in Hen.
  - destruct (unbounded_send_ok s v Hs Hlen Hen) as (s' & ? & ? & ? & Ha). exists s'. split_and!; try done.
    rewrite Ha, length_app. destruct (rx_closed (inner s)); simpl; lia.
  - simpl. rewrite decide_False by done. eexists. split; [done|]. split_and!; [|by apply kept_quiet|simpl; lia].
    split; [|done|done]. destruct Hi as [Hwf Hcap Hbuf Hrx Hp]. split; simpl; try done.
    intros x Hx. by destruct (Hrx x Hx).
  - destruct (unbounded_drop_sender_ok s Hs Hen) as (s' & ? & ? & ? & Ha). exists s'. split_and!; try done. rewrite Ha. lia.
  - simpl. rewrite Hen. eexists. split; [done|]. split_and!; [|by apply kept_quiet|simpl; lia].
    split; [done|done|]. intros x Hx. destruct (free_unregistered s x Hs (rx_free_recv _ Hen) Hx).
  - destruct Hen as (r & Hrc & Hd). destruct (unbounded_poll_recv_ok s r w Hs Hrc Hd) as (s' & ? & ? & ? & Ha).
    exists s'. split_and!; try done. rewrite Ha. lia.
  - simpl. destruct Hen as [r Hrc]. rewrite Hrc. simpl. eexists. split; [done|].
    split; [|split; [intros x _; right; by left|simpl; lia]].
    unfold drop_recv. destruct (rx_parked r) eqn:Ep.
    + split; simpl; [|done|done]. destruct Hi as [Hwf Hcap Hbuf Hrx Hp]. apply inner_inv_woken; try done.
      unfold remove_step. by destruct (find_first _ _).
    + split; simpl; [done|done|]. intros x Hx. destruct (Hr x Hx) as (r' & Hr' & Hpk & _). congruence.
  - simpl. rewrite Hen. destruct (unbounded_try_recv_spec (inner s) Hi) as (o & g' & -> & Hi' & _ & Hw' & _ & _ & Ho).
    eexists. split; [done|]. split_and!; [|by apply kept_quiet|simpl; lia]. split; simpl; [done| |].
    + rewrite Hf. destruct o as [v|]; simpl; [by rewrite Ho, <- (assoc_L (++))|].
      destruct Ho as [_ ->]. by rewrite app_nil_r.
    + rewrite Hw'. done.
  - simpl. rewrite Hen. eexists. split; [done|]. split_and!; [|by apply kept_quiet|simpl; lia].
    split; [|done|done]. by destruct Hi.
  - simpl. rewrite Hen. eexists. split; [done|]. split_and!; [|by apply kept_quiet|simpl; lia].
    split; [|done|done]. by destruct Hi.
Qed.

Lemma unbounded_init_inv : unbounded_inv init_sys.
Proof. split; [|done|done]. split; simpl; try done. Qed.

Lemma unbounded_run_inv acts : ∀ s s',
  unbounded_inv s → (Z.of_nat (length (accepted s) + length acts) ≤ u64_max)%Z →
  sys_run s acts = Some s' →
  unbounded_inv s' ∧ length (accepted s') ≤ length (accepted s) + length acts.
Proof.
  unfold sys_run. induction acts as [|a acts IH]; intros s s' Hs Hlen; [intros [= <-]; split; [done|lia]|].
  simpl in *. destruct (sys_step s a) as [s1|] eqn:Ea; simpl.
  2: { intros Hn. exfalso. revert Hn. clear. by induction acts. }
  destruct (unbounded_step_ok s a Hs) as (s2 & Hs2 & Hi2 & _ & Hl2); [lia|by eapply step_enabled|].
  assert (s2 = s1) as -> by congruence. intros Hr. destruct (IH s1 s' Hi2 ltac:(lia) Hr). split; [done|lia].
Qed.

End inv.

(** The unbounded channel is a FIFO queue without loss or duplication, after any
    run of sends, receives, drops and closes: the values received and then those in
    the buffer are exactly the values accepted, in order; every action whose guard
    holds goes through; a send is refused only after the receiver closed; and a
    receive that returns None finds no sender left and every accepted value
    received. *)
Theorem unbounded_fifo (T : Type) (acts : list (action T)) (s : Sys T) :
  (Z.of_nat (length acts) < u64_max)%Z → sys_run init_sys acts = Some s →
  accepted s = received s ++ buffer (inner s) ∧
  (∀ a, enabled s a → is_Some (sys_step s a)) ∧
  (∀ v s', sys_step s (Send v) = Some s' →
     accepted s' = accepted s ++ if rx_closed (inner s) then [] else [v]) ∧
  (∀ r w g r', recv_poll (inner s) r w = Some (RxClosed, g, r') →
     sender_count (inner s) = 0 ∧ received s = accepted s).
Proof.
  intros Hlen Hr. destruct (unbounded_run_inv acts init_sys s unbounded_init_inv) as [Hs Hl]; [simpl; lia|done|].
  simpl in Hl. split; [apply Hs|]. split; [|split].
  - intros a Ha. destruct (unbounded_step_ok s a Hs ltac:(lia) Ha) as (s' & -> & _). done.
  - intros v s' Hv. pose proof (step_enabled _ _ _ Hv) as Hen.
    destruct (unbounded_send_ok s v Hs ltac:(lia) Hen) as (s2 & Hv2 & _ & _ & Ha). congruence.
  - intros r w g r' Hp. unfold recv_poll in Hp.
    destruct (recv_loop_spec r w (S (Z.to_nat (permit (rx_kernel (inner s))))) (inner s))
      as (res & g1 & r1 & Hp1 & _ & Hres); [apply Hs|lia|].
    rewrite Hp1 in Hp. simplify_eq. destruct Hres as (Hb & _ & Hsc & _). split; [done|].
    by rewrite (us_fifo _ Hs), Hb, app_nil_r.
Qed.

(** C2. The receiver of the unbounded channel misses no wake-up: while it is
    registered the buffer is empty, there are senders, and it is parked in an
    unfinished receive; the next action leaves it registered, or is its own poll or
    drop, or wakes it in that step. *)
Theorem unbounded_rx_wakeup (T : Type) (acts : list (action T)) (s : Sys T) (w : Z) :
  (Z.of_nat (length acts) < u64_max)%Z → sys_run init_sys acts = Some s →
  rx_waker (inner s) = Some w →
  buffer (inner s) = [] ∧ sender_count (inner s) ≠ 0 ∧
  (∃ r, recv s = Some r ∧ rx_parked r = true ∧ rx_done r = false) ∧
  ∀ a s', sys_step s a = Some s' →
    (∃ w', a = PollRecv w') ∨ a = DropRecv ∨
    (rx_waker (inner s') = Some w ∧ buffer (inner s') = [] ∧ sender_count (inner s') ≠ 0) ∨
    woken_in s s' w.
Proof.
  intros Hlen Hr Hw. destruct (unbounded_run_inv acts init_sys s unbounded_init_inv) as [Hs Hl]; [simpl; lia|done|].
  simpl in Hl. destruct (ui_rx _ (us_inner _ Hs) w Hw) as [Hb Hsc].
  split; [done|]. split; [done|]. split; [by eapply us_recv|]. intros a s' Ha.
  destruct (unbounded_step_ok s a Hs ltac:(lia) (step_enabled _ _ _ Ha)) as (s2 & Ha2 & Hs2 & Hk & _).
  assert (s2 = s') as -> by congruence. destruct (Hk w Hw) as [?|[?|[Hw'|?]]]; auto. do 2 right; left. split; [done|].
  by apply (ui_rx _ (us_inner _ Hs2) w).
Qed.

(** ** Witnesses *)

(** Two sends leave two stored hints; the third receive goes round the loop twice and
    parks, and the next send wakes it. *)
Definition sample_run : list (action nat) :=
  [Send 4; Send 5; TryRecv; TryRecv; NewRecv; PollRecv 20%Z].

Lemma unbounded_fifo_witness :
  ∃ s, sys_run init_sys sample_run = Some s ∧ received s = [4; 5] ∧
    accepted s = received s ++ buffer (inner s) ∧ is_Some (sys_step s DropRecv).
Proof.
  set (s := default init_sys (sys_run init_sys sample_run)).
  destruct (unbounded_fifo nat sample_run s) as (Hf & Hen & _);
    [vm_compute; reflexivity|vm_compute; reflexivity|].
  exists s. split; [vm_compute; reflexivity|]. split; [vm_compute; reflexivity|]. split; [exact Hf|].
  apply Hen. eexists. vm_compute. reflexivity.
Defined.

Lemma unbounded_rx_wakeup_witness :
  ∃ s s' : Sys nat, sys_run init_sys sample_run = Some s ∧ sys_step s (Send 6) = Some s' ∧ woken_in s s' 20.
Proof.
  set (s := default init_sys (sys_run init_sys sample_run)).
  set (s' := default init_sys (sys_step s (Send 6))).
  exists s, s'. split; [vm_compute; reflexivity|]. split; [vm_compute; reflexivity|].
  destruct (unbounded_rx_wakeup nat sample_run s 20) as (_ & _ & _ & H);
    [vm_compute; reflexivity|vm_compute; reflexivity|vm_compute; reflexivity|].
  destruct (H (Send 6) s') as [[w' Hw]|[Hw|[[Hw _]|Hw]]]; [vm_compute; reflexivity| | | |exact Hw].
  - discriminate Hw.
  - discriminate Hw.
  - vm_compute in Hw. discriminate Hw.
Defined.
