(* ===== verification/Oneshot.v ===== *)
(** * Oneshot: the one-value channel of [lion-utility/src/sync/oneshot.rs]

    [OneshotKernel] decides every transition of the value, a waiter kernel routes the
    wake of the one receiver.  A send consumes the sender, whose drop is a second
    critical section that another thread may run before: the two are separate
    actions here. *)

From S2P Require Import Prelude UtilityLog Waiter.
Import Waiter.

Module Oneshot.

(** ** The kernel ([oneshot_kernel.rs]) *)

Inductive OState := Empty | Full | Taken | Closed.

Inductive RecvDecision := RReady | RClosed | RPark.

Record OneshotKernel := mkKernel { st : OState; sent : nat; delivered : nat }.

Record ok_wf (k : OneshotKernel) : Prop := {
  ok_sent : sent k ≤ 1;
  ok_delivered : delivered k ≤ sent k;
  ok_empty : st k = Empty → sent k = 0 ∧ delivered k = 0;
  ok_full : st k = Full → sent k = 1 ∧ delivered k = 0;
  ok_taken : st k = Taken → sent k = 1 ∧ delivered k = 1;
  ok_closed : st k = Closed → sent k = 0 ∧ delivered k = 0;
}.

Definition new : OneshotKernel := mkKernel Empty 0 0.

Definition send_step k : bool * OneshotKernel :=
  match st k with
  | Empty => (true, mkKernel Full (sent k + 1) (delivered k))
  | _ => (false, k)
  end.

Definition recv_step k : RecvDecision * OneshotKernel :=
  match st k with
  | Full => (RReady, mkKernel Taken (sent k) (delivered k + 1))
  | Empty => (RPark, k)
  | _ => (RClosed, k)
  end.

Definition close_step k : OneshotKernel :=
  match st k with
  | Empty => mkKernel Closed (sent k) (delivered k)
  | _ => k
  end.

(** ** The channel ([oneshot.rs]) *)

Record OneshotInner (T : Type) := mkInner {
  okernel : OneshotKernel;
  wkernel : WaiterKernel;
  value : option T;
  rx_waker : option (Z * Z);
  rx_dropped : bool;
  next_id : Z;
}.
Arguments mkInner {T} _ _ _ _ _ _.
Arguments okernel {T} _.
Arguments wkernel {T} _.
Arguments value {T} _.
Arguments rx_waker {T} _.
Arguments rx_dropped {T} _.
Arguments next_id {T} _.

Record Receiver := mkReceiver { id : Z; parked : bool }.

Section ops.
Context {T : Type}.
Implicit Types (g : OneshotInner T) (r : Receiver) (v : T) (waker : Z).

Definition set_okernel g k : OneshotInner T :=
  mkInner k (wkernel g) (value g) (rx_waker g) (rx_dropped g) (next_id g).
Definition set_value g o : OneshotInner T :=
  mkInner (okernel g) (wkernel g) o (rx_waker g) (rx_dropped g) (next_id g).
Definition set_wake g k w : OneshotInner T :=
  mkInner (okernel g) k (value g) w (rx_dropped g) (next_id g).

Definition channel : OneshotInner T := mkInner new Waiter.new None None false 0.

(** The receiver's entry, if it has this id. *)
Definition has_waker g i : bool :=
  match rx_waker g with Some (wid, _) => (wid =? i)%Z | None => false end.

Definition deliver g : option Z * OneshotInner T :=
  match signal_step (wkernel g) 0 with
  | (Woke i, k) =>
      if has_waker g i then (snd <$> rx_waker g, set_wake g k None)
      else (None, set_wake g k (rx_waker g))
  | (Stored, k) => (None, set_wake g k (rx_waker g))
  end.

Definition withdraw_rx g i : OneshotInner T :=
  let '(_, k) := remove_step (wkernel g) i in
  set_wake g k (if has_waker g i then None else rx_waker g).

(** [Sender::send], before the drop of the sender. *)
Definition send g v : bool * OneshotInner T * option Z :=
  if rx_dropped g then (false, g, None)
  else match send_step (okernel g) with
       | (true, k) => let '(w, g') := deliver (set_value (set_okernel g k) (Some v)) in (true, g', w)
       | (false, k) => (false, set_okernel g k, None)
       end.

(** [Sender::drop] *)
Definition drop_sender g : option Z * OneshotInner T := deliver (set_okernel g (close_step (okernel g))).

Definition leave_rx g r : OneshotInner T := if parked r then withdraw_rx g (id r) else g.

Inductive rx_result := RxValue (v : T) | RxErr | RxPending.

(** [Receiver::poll] *)
Fixpoint poll_loop (fuel : nat) g r waker : option (rx_result * OneshotInner T * Receiver) :=
  match fuel with
  | 0 => None
  | S fuel' =>
      let '(d, k) := recv_step (okernel g) in
      let g0 := set_okernel g k in
      match d with
      | RReady =>
          let g1 := leave_rx g0 r in
          v ← value g1; Some (RxValue v, set_value g1 None, mkReceiver (id r) false)
      | RClosed => Some (RxErr, leave_rx g0 r, mkReceiver (id r) false)
      | RPark =>
          if parked r then
            let w := match rx_waker g0 with
                     | Some (wid, w0) => Some (wid, if (wid =? id r)%Z then waker else w0)
                     | None => None
                     end in
            Some (RxPending, set_wake g0 (wkernel g0) w, r)
          else
            let i := next_id g0 in
            let g1 := mkInner (okernel g0) (wkernel g0) (value g0) (rx_waker g0) (rx_dropped g0) (wrap64 (i + 1)) in
            match wait_step (wkernel g1) i with
            | (Ready, k1) => poll_loop fuel' (set_wake g1 k1 (rx_waker g1)) r waker
            | (Park _, k1) => Some (RxPending, set_wake g1 k1 (Some (i, waker)), mkReceiver i true)
            end
      end
  end.

(** Each [continue] uses up one stored signal. *)
Definition poll g r waker : option (rx_result * OneshotInner T * Receiver) :=
  poll_loop (S (Z.to_nat (permit (wkernel g)))) g r waker.

(** [Receiver::drop] *)
Definition drop_receiver g r : OneshotInner T :=
  leave_rx (mkInner (okernel g) (wkernel g) (value g) (rx_waker g) true (next_id g)) r.

End ops.

(** ** A channel with its two ends *)

(** The sender is there, or has sent and is about to be dropped, or is gone. *)
Inductive Sender := Alive | Sent | Gone.

(** [accepted] is the value that a send accepted, [outcomes] what the polls of the
    receiver returned. *)
Record Sys (T : Type) := mkSys {
  inner : OneshotInner T;
  sender : Sender;
  receiver : option Receiver;
  wakes : list Z;
  accepted : option T;
  outcomes : list (option T);
}.
Arguments mkSys {T} _ _ _ _ _ _.
Arguments inner {T} _.
Arguments sender {T} _.
Arguments receiver {T} _.
Arguments wakes {T} _.
Arguments accepted {T} _.
Arguments outcomes {T} _.

Inductive action (T : Type) := Send (v : T) | DropSender | PollRx (waker : Z) | DropRx.
Arguments Send {T} _.
Arguments DropSender {T}.
Arguments PollRx {T} _.
Arguments DropRx {T}.

Section sys.
Context {T : Type}.
Implicit Types (s : Sys T).

Definition init_sys : Sys T := mkSys channel Alive (Some (mkReceiver 0 false)) [] None [].

(** The polls that returned Ready. *)
Definition outcome (res : rx_result (T := T)) : list (option T) :=
  match res with RxValue v => [Some v] | RxErr => [None] | RxPending => [] end.

Definition sys_step s (a : action T) : option (Sys T) :=
  match a with
  | Send v =>
      match sender s with
      | Alive =>
          let '(ok, g, w) := send (inner s) v in
          Some (mkSys g Sent (receiver s) (wakes s ++ option_list w)
                  (if ok then Some v else accepted s) (outcomes s))
      | _ => None
      end
  | DropSender =>
      match sender s with
      | Gone => None
      | _ =>
          let '(w, g) := drop_sender (inner s) in
          Some (mkSys g Gone (receiver s) (wakes s ++ option_list w) (accepted s) (outcomes s))
      end
  | PollRx waker =>
      r ← receiver s;
      '(res, g, r') ← poll (inner s) r waker;
      Some (mkSys g (sender s) (Some r') (wakes s) (accepted s) (outcomes s ++ outcome res))
  | DropRx =>
      r ← receiver s;
      Some (mkSys (drop_receiver (inner s) r) (sender s) None (wakes s) (accepted s) (outcomes s))
  end.

Definition sys_run s (acts : list (action T)) : option (Sys T) :=
  foldl (λ o a, s' ← o; sys_step s' a) (Some s) acts.

(** The guard of an action. *)
Definition enabled s (a : action T) : Prop :=
  match a with
  | Send _ => sender s = Alive
  | DropSender => sender s ≠ Gone
  | PollRx _ | DropRx => is_Some (receiver s)
  end.
End sys.
End Oneshot.
Import Oneshot.

(** ** The invariant *)

Section inv.
Context {T : Type}.
Implicit Types (s : Sys T) (g : OneshotInner T) (r : Receiver) (v : T) (k : OneshotKernel).

(** The value, where it is, and what the polls returned. *)
Definition data_inv k (val acc : option T) (out : list (option T)) : Prop :=
  match st k with
  | Empty => val = None ∧ acc = None ∧ out = []
  | Full => is_Some val ∧ val = acc ∧ out = []
  | Taken => val = None ∧ ∃ v n, acc = Some v ∧ out = Some v :: replicate n None
  | Closed => val = None ∧ acc = None ∧ ∃ n, out = replicate n None
  end.

(** The sender is past its send unless the kernel is empty; a refused send has found
    the receiver gone. *)
Definition sender_inv k (x : Sender) (rx : option Receiver) : Prop :=
  match x with
  | Alive => st k = Empty
  | Sent => st k = Full ∨ st k = Taken ∨ st k = Empty ∧ rx = None
  | Gone => st k ≠ Empty
  end.

(** The receiver is registered and queued, or neither. *)
Definition wake_inv g (rx : option Receiver) : Prop :=
  match rx_waker g with
  | Some (i, _) => queue (wkernel g) = [i] ∧ rx = Some (mkReceiver i true) ∧ st (okernel g) = Empty
  | None => queue (wkernel g) = [] ∧ ∀ r, rx = Some r → parked r = true → st (okernel g) ≠ Empty
  end.

Record one_inv s : Prop := {
  oi_kernel : ok_wf (okernel (inner s));
  oi_data : data_inv (okernel (inner s)) (value (inner s)) (accepted s) (outcomes s);
  oi_sender : sender_inv (okernel (inner s)) (sender s) (receiver s);
  oi_wake : wake_inv (inner s) (receiver s);
  oi_dropped : rx_dropped (inner s) = bool_decide (receiver s = None);
  oi_permit : st (okernel (inner s)) = Empty → is_Some (receiver s) → permit (wkernel (inner s)) = 0%Z;
}.

Definition woken_in s s' (w : Z) : Prop := ∃ l, wakes s' = wakes s ++ l ∧ w ∈ l.

Lemma kernel_steps_wf k :
  ok_wf k → ok_wf (snd (send_step k)) ∧ ok_wf (snd (recv_step k)) ∧ ok_wf (close_step k).
Proof.
  intros []. unfold send_step, recv_step, close_step.
  destruct (st k) eqn:E; simpl; (split; [|split]); split; simpl; rewrite ?E; naive_solver lia.
Qed.

(** The kernel's queue is the registered receiver. *)
Definition queued g : Prop :=
  queue (wkernel g) = match rx_waker g with Some (i, _) => [i] | None => [] end.

Lemma wake_queued g rx : wake_inv g rx → queued g.
Proof. unfold wake_inv, queued. destruct (rx_waker g) as [[i w]|]; naive_solver. Qed.

(** A delivery empties the queue, and wakes the receiver that was registered. *)
Lemma deliver_spec g :
  queued g → ∃ wk, deliver g = (snd <$> rx_waker g, set_wake g wk None) ∧ queue wk = [].
Proof.
  unfold queued, deliver, signal_step, has_waker. intros ->.
  destruct (rx_waker g) as [[i w]|]; [rewrite Z.eqb_refl|]; by eexists.
Qed.

(** Withdrawing leaves neither an entry nor a waiter. *)
Lemma oneshot_leave_spec g r :
  wake_inv g (Some r) →
  ∃ wk, leave_rx g r = set_wake g wk None ∧ queue wk = [] ∧ permit wk = permit (wkernel g).
Proof.
  unfold wake_inv, leave_rx, withdraw_rx, has_waker. destruct (rx_waker g) as [[i w]|] eqn:Ew.
  - intros (Hq & [= ->] & _). simpl. destruct (remove_step (wkernel g) i) as [b wk] eqn:Er.
    destruct (remove_step_spec _ _ _ _ Er) as (Hp & Hk & _). rewrite Z.eqb_refl. exists wk.
    split; [done|]. split; [|done]. rewrite Hk, Hq. simpl. by rewrite Z.eqb_refl.
  - intros [Hq _]. destruct (parked r).
    + destruct (remove_step (wkernel g) (id r)) as [b wk] eqn:Er.
      destruct (remove_step_spec _ _ _ _ Er) as (Hp & Hk & _). exists wk.
      split; [done|]. split; [|done]. by rewrite Hk, Hq.
    + exists (wkernel g). split; [|done]. destruct g; simpl in *. by subst.
Qed.

(** The wake part once nobody is registered. *)
Lemma wake_inv_none g wk rx :
  queue wk = [] → (∀ r, rx = Some r → parked r = true → st (okernel g) ≠ Empty) →
  wake_inv (set_wake g wk None) rx.
Proof. by split. Qed.

(** ** The sender *)

Lemma oneshot_send_ok s v :
  one_inv s → sender s = Alive →
  ∃ s', sys_step s (Send v) = Some s' ∧ one_inv s' ∧
    wakes s' = wakes s ++ option_list (snd <$> rx_waker (inner s)) ∧
    accepted s' = match receiver s with Some _ => Some v | None => None end.
Proof.
  intros [Hk Hd Hs Hw Hdr Hp] Ha. simpl. rewrite Ha in Hs |- *. simpl in Hs. unfold send. rewrite Hdr.
  unfold data_inv in Hd. rewrite Hs in Hd. destruct Hd as (Hv & Hacc & Hout).
  case_bool_decide as Hr.
  { eexists. split; [done|]. rewrite Hr in *. split; [|split; [|done]].
    - split; simpl; try done; [unfold data_inv; by rewrite Hs|unfold sender_inv; by auto].
    - simpl. unfold wake_inv in Hw. destruct (rx_waker (inner s)) as [[i w]|]; [|done].
      by destruct Hw as (_ & ? & _). }
  unfold send_step. rewrite Hs.
  destruct (deliver_spec (set_value (set_okernel (inner s)
    (mkKernel Full (sent (okernel (inner s)) + 1) (delivered (okernel (inner s))))) (Some v)))
    as (k & -> & Hq); [by apply (wake_queued _ _ Hw)|].
  eexists. split; [done|]. destruct (receiver s) as [r|] eqn:Er; [|done].
  split; [|done]. split; simpl; try done.
  - destruct (kernel_steps_wf _ Hk) as (Hk1 & _). unfold send_step in Hk1. by rewrite Hs in Hk1.
  - by left.
Qed.

Lemma oneshot_drop_sender_ok s :
  one_inv s → sender s ≠ Gone →
  ∃ s', sys_step s DropSender = Some s' ∧ one_inv s' ∧
    wakes s' = wakes s ++ option_list (snd <$> rx_waker (inner s)) ∧ accepted s' = accepted s.
Proof.
  intros [Hk Hd Hs Hw Hdr Hp] Ha. simpl. unfold drop_sender.
  destruct (deliver_spec (set_okernel (inner s) (close_step (okernel (inner s)))))
    as (k & -> & Hq); [by apply (wake_queued _ _ Hw)|].
  assert (Hne : st (close_step (okernel (inner s))) ≠ Empty).
  { unfold close_step. destruct (st (okernel (inner s))) eqn:E; simpl; congruence. }
  eexists. split; [by destruct (sender s)|]. split; [|by split]. split; simpl.
  - by apply kernel_steps_wf.
  - unfold data_inv, close_step in *. destruct (st (okernel (inner s))) eqn:E; simpl; rewrite ?E; try done.
    destruct Hd as (? & ? & ->). split; [done|]. split; [done|]. by exists 0.
  - done.
  - split; [done|]. simpl. intros _ _ _. exact Hne.
  - done.
  - intros H. by destruct Hne.
Qed.

(** ** The receiver *)

(** What one poll adds to the outcomes. *)
Definition poll_outcome s : list (option T) :=
  match st (okernel (inner s)) with
  | Full => [accepted s]
  | Empty => []
  | _ => [None]
  end.

Lemma poll_done_ok s r wk val k out :
  one_inv s → receiver s = Some r → queue wk = [] → st k ≠ Empty → ok_wf k →
  data_inv k val (accepted s) out →
  sender_inv k (sender s) (Some (mkReceiver (id r) false)) →
  one_inv (mkSys (set_value (set_wake (set_okernel (inner s) k) wk None) val) (sender s)
             (Some (mkReceiver (id r) false)) (wakes s) (accepted s) out).
Proof.
  intros [Hk Hd Hs Hw Hdr Hp] Hr Hq Hne Hwf Hdata Hsend. split; simpl; try done.
  rewrite Hdr, Hr. by repeat case_bool_decide.
Qed.

Lemma poll_ok s r waker :
  one_inv s → receiver s = Some r →
  ∃ s', sys_step s (PollRx waker) = Some s' ∧ one_inv s' ∧ accepted s' = accepted s ∧
    outcomes s' = outcomes s ++ poll_outcome s ∧
    (st (okernel (inner s)) = Empty → ∃ i, rx_waker (inner s') = Some (i, waker)).
Proof.
  intros Hinv Hr. pose proof Hinv as [Hk Hd Hs Hw Hdr Hp]. simpl. rewrite Hr. cbn [mbind option_bind].
  unfold poll, poll_outcome. cbn [poll_loop]. rewrite Hr in Hw, Hs.
  pose proof (proj1 (proj2 (kernel_steps_wf _ Hk))) as Hk1. unfold recv_step in *.
  assert (Hdone : st (okernel (inner s)) = Taken ∨ st (okernel (inner s)) = Closed →
    one_inv (mkSys (leave_rx (inner s) r) (sender s) (Some (mkReceiver (id r) false)) (wakes s) (accepted s)
               (outcomes s ++ [None]))).
  { intros E. destruct (oneshot_leave_spec _ _ Hw) as (wk & -> & Hq & _).
    apply (poll_done_ok s r wk (value (inner s)) (okernel (inner s))); try done.
    - by destruct E as [-> | ->].
    - unfold data_inv in *. destruct E as [E|E]; rewrite E in Hd |- *.
      + destruct Hd as (? & v & n & ? & ->). split; [done|]. exists v, (n + 1).
        by rewrite replicate_add, app_comm_cons.
      + destruct Hd as (? & ? & n & ->). split; [done|]. split; [done|]. exists (n + 1). by rewrite replicate_add.
    - unfold sender_inv in *. destruct (sender s); naive_solver. }
  unfold data_inv in Hd. destruct (st (okernel (inner s))) eqn:E; cbn [set_okernel okernel] in *.
  - (* nothing yet: the receiver waits *)
    destruct Hd as (Hv & Hacc & Hout). specialize (Hp eq_refl ltac:(by eexists)).
    replace (set_okernel (inner s) (okernel (inner s))) with (inner s) by by destruct (inner s).
    destruct (parked r) eqn:Ep.
    + unfold wake_inv in Hw. destruct (rx_waker (inner s)) as [[i w]|] eqn:Ew.
      2: { destruct Hw as [_ Hw]. by destruct (Hw r eq_refl Ep). }
      destruct Hw as (Hq & [= ->] & _). simpl. rewrite Z.eqb_refl.
      eexists. split; [done|]. split; [|split; [done|split; [done|intros _; by exists i]]].
      split; simpl; try done; [by rewrite Hout, app_nil_r; unfold data_inv; rewrite E|by rewrite Hdr, Hr].
    + unfold wait_step. simpl. rewrite Hp. simpl.
      eexists. split; [done|]. split; [|split; [done|split; [done|intros _; by eexists]]].
      assert (Hq : queue (wkernel (inner s)) = []).
      { unfold wake_inv in Hw. destruct (rx_waker (inner s)) as [[i w]|]; [|by destruct Hw].
        destruct Hw as (_ & [= ->] & _). done. }
      split; simpl; try done.
      * by rewrite Hout, app_nil_r; unfold data_inv; rewrite E.
      * unfold sender_inv in *. destruct (sender s); naive_solver.
      * split; [by rewrite Hq|done].
      * by rewrite Hdr, Hr.
  - (* the value is there *)
    destruct Hd as ([v Hv] & Hacc & Hout).
    assert (Hw1 : wake_inv (set_okernel (inner s) (mkKernel Taken (sent (okernel (inner s)))
      (delivered (okernel (inner s)) + 1))) (Some r)).
    { unfold wake_inv in *. simpl. destruct (rx_waker (inner s)) as [[i w]|].
      - destruct Hw as (_ & _ & Hw). congruence.
      - by destruct Hw. }
    destruct (oneshot_leave_spec _ _ Hw1) as (wk & Hlv & Hq & _). rewrite Hlv.
    simpl. rewrite Hv. cbn [mbind option_bind]. eexists. split; [done|].
    split; [|split; [done|split; [by rewrite <- Hacc, Hv|done]]]. simpl.
    apply (poll_done_ok s r wk None _ _ Hinv Hr Hq); [done|done| |].
    + unfold data_inv. simpl. split; [done|]. exists v, 0. by rewrite <- Hacc, Hv, Hout.
    + unfold sender_inv in *. simpl. destruct (sender s) in Hs |- *; [congruence|by right; left|done].
  - replace (set_okernel (inner s) (okernel (inner s))) with (inner s) by by destruct (inner s).
    eexists. split; [done|]. split; [apply Hdone; by left|done].
  - replace (set_okernel (inner s) (okernel (inner s))) with (inner s) by by destruct (inner s).
    eexists. split; [done|]. split; [apply Hdone; by right|done].
Qed.

Lemma drop_rx_ok s r :
  one_inv s → receiver s = Some r →
  ∃ s', sys_step s DropRx = Some s' ∧ one_inv s' ∧ accepted s' = accepted s.
Proof.
  intros [Hk Hd Hs Hw Hdr Hp] Hr. simpl. rewrite Hr. simpl. eexists. split; [done|]. split; [|done].
  unfold drop_receiver. rewrite Hr in Hw, Hs.
  set (g := mkInner _ _ _ _ _ _). destruct (oneshot_leave_spec g r) as (wk & -> & Hq & _); [exact Hw|].
  split; simpl; try done.
  unfold sender_inv in *. destruct (sender s); [done| |done]. naive_solver.
Qed.

(** ** Every action *)

Lemma oneshot_enabled s a s' : sys_step s a = Some s' → enabled s a.
Proof.
  destruct a as [v| |w|]; simpl; [by destruct (sender s)|by destruct (sender s)|..];
    (destruct (receiver s); simpl; [by eexists|done]).
Qed.

Lemma oneshot_step_ok s a :
  one_inv s → enabled s a → ∃ s', sys_step s a = Some s' ∧ one_inv s'.
Proof.
  intros Hs Ha. destruct a as [v| |w|]; simpl in Ha.
  - destruct (oneshot_send_ok s v Hs Ha) as (s' & ? & ? & _). by exists s'.
  - destruct (oneshot_drop_sender_ok s Hs Ha) as (s' & ? & ? & _). by exists s'.
  - destruct Ha as [r Hr]. destruct (poll_ok s r w Hs Hr) as (s' & ? & ? & _). by exists s'.
  - destruct Ha as [r Hr]. destruct (drop_rx_ok s r Hs Hr) as (s' & ? & ? & _). by exists s'.
Qed.

Lemma oneshot_init_inv : one_inv init_sys.
Proof. split; simpl; try done; split; simpl; try done; try lia. by intros r [= <-]. Qed.

Lemma oneshot_run_inv acts s : sys_run init_sys acts = Some s → one_inv s.
Proof.
  unfold sys_run. generalize oneshot_init_inv. generalize (init_sys (T := T)).
  induction acts as [|a acts IH]; intros s0 H0; simpl; [by intros [= <-]|].
  destruct (sys_step s0 a) as [s1|] eqn:Ea; simpl.
  - apply IH. destruct (oneshot_step_ok s0 a H0 (oneshot_enabled _ _ _ Ea)) as (s2 & Ha2 & H2). congruence.
  - intros Hn. exfalso. revert Hn. clear. by induction acts.
Qed.

End inv.

(** The oneshot channel hands over at most one value, the one it accepted: after any
    run of sends, polls and drops, every action whose guard holds goes through; the
    polls that were ready gave first the accepted value and then only errors, or only
    errors, which they do only when the sender is gone without a value; a send is
    accepted exactly when the receiver is still there; and the first poll after that
    gives the value. *)
Theorem oneshot_delivery (T : Type) (acts : list (action T)) (s : Sys T) :
  sys_run init_sys acts = Some s →
  (∀ a, enabled s a → is_Some (sys_step s a)) ∧
  (outcomes s = [] ∨
   (∃ v n, accepted s = Some v ∧ outcomes s = Some v :: replicate n None) ∨
   (accepted s = None ∧ sender s = Gone ∧ ∃ n, outcomes s = replicate n None)) ∧
  (∀ v s', sys_step s (Send v) = Some s' →
     accepted s' = match receiver s with Some _ => Some v | None => None end) ∧
  (∀ w s', sys_step s (PollRx w) = Some s' → outcomes s = [] →
     outcomes s' = match accepted s, sender s with
                   | Some v, _ => [Some v]
                   | None, Gone => [None]
                   | None, _ => []
                   end).
Proof.
  intros Hrun. pose proof (oneshot_run_inv acts s Hrun) as Hs. pose proof Hs as [Hk Hd Hsd Hw Hdr Hp].
  unfold data_inv in Hd. split; [|split; [|split]].
  - intros a Ha. destruct (oneshot_step_ok s a Hs Ha) as (s' & -> & _). done.
  - destruct (st (okernel (inner s))) eqn:E; [naive_solver..|]. destruct Hd as (_ & Hacc & n & Hout).
    unfold sender_inv in Hsd. rewrite E in Hsd. destruct (sender s); [done|naive_solver|].
    right; right. split; [done|]. split; [done|]. by exists n.
  - intros v s' Hv. destruct (oneshot_send_ok s v Hs (oneshot_enabled _ _ _ Hv)) as (s2 & Hv2 & _ & _ & Ha). congruence.
  - intros w s' Hv Hout. destruct (oneshot_enabled _ _ _ Hv) as [r Hr].
    destruct (poll_ok s r w Hs Hr) as (s2 & Hv2 & _ & _ & Ho & _).
    assert (s2 = s') as -> by congruence. rewrite Ho, Hout. simpl. unfold poll_outcome, sender_inv in *.
    destruct (st (okernel (inner s))) eqn:E.
    + destruct Hd as (_ & -> & _). destruct (sender s); [done|done|done].
    + destruct Hd as ([v Hv1] & Hacc & _). by rewrite <- Hacc, Hv1.
    + destruct Hd as (_ & v & n & _ & Hout'). congruence.
    + destruct Hd as (_ & -> & _). destruct (sender s); [done|naive_solver|done].
Qed.

(** The receiver of a oneshot misses no wake-up: a poll that is pending registers the
    waker of that poll; while a waker is registered nothing was accepted and the sender
    is there; the send and the drop of the sender wake it in their own step. *)
Theorem oneshot_rx_wakeup (T : Type) (acts : list (action T)) (s : Sys T) :
  sys_run init_sys acts = Some s →
  (∀ w s', sys_step s (PollRx w) = Some s' → outcomes s' = outcomes s →
     ∃ i, rx_waker (inner s') = Some (i, w)) ∧
  (∀ i w, rx_waker (inner s) = Some (i, w) →
     accepted s = None ∧ sender s = Alive ∧ is_Some (receiver s) ∧
     ∀ a s', sys_step s a = Some s' →
       match a with
       | Send _ | DropSender => woken_in s s' w
       | PollRx w' => rx_waker (inner s') = Some (i, w')
       | DropRx => True
       end).
Proof.
  intros Hrun. pose proof (oneshot_run_inv acts s Hrun) as Hs. pose proof Hs as [Hk Hd Hsd Hw Hdr Hp].
  assert (Hpoll : ∀ w s', sys_step s (PollRx w) = Some s' →
    st (okernel (inner s)) = Empty ∨ outcomes s' ≠ outcomes s).
  { intros w s' Ha. destruct (oneshot_enabled _ _ _ Ha) as [r Hr].
    destruct (poll_ok s r w Hs Hr) as (s2 & Ha2 & _ & _ & Ho & _).
    assert (s2 = s') as -> by congruence. unfold poll_outcome in Ho.
    destruct (st (okernel (inner s))); [by left|..]; right; rewrite Ho;
      intros Hn; apply (f_equal length) in Hn; rewrite length_app in Hn; simpl in Hn; lia. }
  assert (Hreg : ∀ w s', sys_step s (PollRx w) = Some s' → st (okernel (inner s)) = Empty →
    ∃ i, rx_waker (inner s') = Some (i, w)).
  { intros w s' Ha E. destruct (oneshot_enabled _ _ _ Ha) as [r Hr].
    destruct (poll_ok s r w Hs Hr) as (s2 & Ha2 & _ & _ & _ & Hreg). assert (s2 = s') as -> by congruence.
    by apply Hreg. }
  split.
  - intros w s' Ha Ho. destruct (Hpoll w s' Ha) as [E|?]; [by apply Hreg|done].
  - intros i w Hiw. unfold wake_inv in Hw. rewrite Hiw in Hw. destruct Hw as (Hq & Hr & E).
    unfold data_inv in Hd. rewrite E in Hd. destruct Hd as (_ & Hacc & _).
    unfold sender_inv in Hsd. rewrite E, Hr in Hsd.
    split; [done|]. split; [by destruct (sender s); naive_solver|]. split; [by rewrite Hr|].
    assert (Hwk : ∀ s', wakes s' = wakes s ++ option_list (snd <$> rx_waker (inner s)) → woken_in s s' w).
    { intros s' Hs'. rewrite Hiw in Hs'. exists [w]. split; [done|by left]. }
    intros [v| |w'|] s' Ha; [..|done].
    + destruct (oneshot_send_ok s v Hs (oneshot_enabled _ _ _ Ha)) as (s2 & Ha2 & _ & Hw2 & _).
      assert (s2 = s') as -> by congruence. by apply Hwk.
    + destruct (oneshot_drop_sender_ok s Hs (oneshot_enabled _ _ _ Ha)) as (s2 & Ha2 & _ & Hw2 & _).
      assert (s2 = s') as -> by congruence. by apply Hwk.
    + simpl in Ha. rewrite Hr in Ha. simpl in Ha. unfold poll in Ha. cbn [poll_loop] in Ha.
      unfold recv_step in Ha. rewrite E in Ha. simpl in Ha. rewrite Hiw, Z.eqb_refl in Ha.
      by injection Ha as <-.
Qed.

(** ** Witnesses *)

(** The receiver waits, is polled again with another waker, and the send wakes that. *)
Definition sample_run : list (action nat) := [PollRx 20; PollRx 21].

Lemma oneshot_delivery_witness :
  ∃ s : Sys nat, sys_run init_sys (sample_run ++ [Send 5]) = Some s ∧ accepted s = Some 5 ∧
    ∀ w s', sys_step s (PollRx w) = Some s' → outcomes s' = [Some 5].
Proof.
  set (s := default init_sys (sys_run init_sys (sample_run ++ [Send 5]))).
  destruct (oneshot_delivery nat (sample_run ++ [Send 5]) s) as (_ & _ & _ & H); [vm_compute; reflexivity|].
  exists s. split; [vm_compute; reflexivity|]. split; [vm_compute; reflexivity|].
  intros w s' Hs'. rewrite (H w s' Hs'); [vm_compute; reflexivity|vm_compute; reflexivity].
Defined.

Lemma oneshot_rx_wakeup_witness :
  ∃ s s' : Sys nat, sys_run init_sys sample_run = Some s ∧ sys_step s (Send 5) = Some s' ∧ woken_in s s' 21.
Proof.
  set (s := default init_sys (sys_run init_sys sample_run)).
  set (s' := default init_sys (sys_step s (Send 5))).
  exists s, s'. split; [vm_compute; reflexivity|]. split; [vm_compute; reflexivity|].
  destruct (oneshot_rx_wakeup nat sample_run s) as [_ H]; [vm_compute; reflexivity|].
  destruct (H 0%Z 21%Z) as (_ & _ & _ & H1); [vm_compute; reflexivity|].
  apply (H1 (Send 5) s'). vm_compute. reflexivity.
Defined.
