(* ===== verification/Multi.v ===== *)
(** * Multi: runtimes on several threads

    The facade of [lion/src/lib.rs] and [lion/src/multi.rs]: a [MultiRuntime] is one runtime
    on the thread that makes it and one on each of its worker threads, [MultiHandle] hands
    spawns to them in turn, and a worker runs until it is told to shut down through a
    oneshot channel, which is the main future of its [block_on].  [block_in_place] and
    [runtime::Handle::block_on] nest a runtime of a new thread in one that waits. *)

From S2P Require Import Prelude Store Slab TidLedger ExecLog Tls Executor Waiter Oneshot Runtime.
Import Runtime.

Module Multi.

(** [MultiHandleInner]: the runtimes, and the counter, a [usize]. *)
Record MultiHandle := mkHandle { handles : list nat; next : Z }.

(** Where a worker's loop in [block_on] is. *)
Inductive pc := Polling | Ticking | Exited.

(** A worker thread, its runtime, and the channel of which it holds the receiver. *)
Record worker := mkWorker {
  worker_thread : nat;
  worker_runtime : nat;
  shutdown_channel : Oneshot.Sys unit;
  worker_pc : pc;
}.

Record MultiRuntime := mkMulti {
  main_runtime : nat;
  workers : list worker;
  handle : MultiHandle;
}.

(** [RuntimeInstance] *)
Inductive RuntimeInstance := Single (rt : nat) | Many (rt : MultiRuntime).

(** [RuntimeInstance::handle] *)
Definition instance_handle (i : RuntimeInstance) : option nat :=
  match i with
  | Single rt => Some rt
  | Many rt => handles (handle rt) !! 0
  end.

(** The answers of a constructor: [io::Result], or a panic. *)
Inductive built (A : Type) := Built (x : A) | IoError | Panicked.
Arguments Built {A} _.
Arguments IoError {A}.
Arguments Panicked {A}.

Section multi.
Context {F W : Type} `{!Executor.Env F W}.
Implicit Types (p : process F W) (h : MultiHandle) (m : MultiRuntime) (f : F).

(** ** Spawning in turn *)

(** The index that [fetch_add] selects; the counter wraps. *)
Definition select h : nat * MultiHandle :=
  (Z.to_nat (next h mod Z.of_nat (length (handles h))), mkHandle (handles h) (wrap64 (next h + 1))).

(** [MultiHandle::spawn]; [None]: no handles, or an index out of range. *)
Definition spawn p h f : option (process F W * MultiHandle) :=
  let '(idx, h') := select h in
  r ← handles h !! idx; Some (handle_spawn p r f, h').

(** ** Construction *)

(** The workers' threads start one after the other, each with the answer of [Reactor::new]
    on it; [None]: [expect] panics because the worker's runtime could not be made. *)
Fixpoint start_workers p (ths : list (nat * option W)) : option (process F W * list worker) :=
  match ths with
  | [] => Some (p, [])
  | (th, reactor) :: ths' =>
      match with_config p th reactor default_config with
      | (None, _) => None
      | (Some r, p1) =>
          '(p2, ws) ← start_workers p1 ths';
          Some (p2, mkWorker th r Oneshot.init_sys Polling :: ws)
      end
  end.

(** [MultiRuntime::new] on the thread [th]; the first [num_threads - 1] of [ths] become
    the workers. *)
Definition new p (num_threads : nat) (th : nat) (reactor : option W) (ths : list (nat * option W)) :
    built MultiRuntime * process F W :=
  if 1 <=? num_threads then
    match with_config p th reactor default_config with
    | (None, p1) => (IoError, p1)
    | (Some r, p1) =>
        match start_workers p1 (take (num_threads - 1) ths) with
        | None => (Panicked, p1)
        | Some (p2, ws) => (Built (mkMulti r ws (mkHandle (r :: (worker_runtime <$> ws)) 0)), p2)
        end
    end
  else (Panicked, p).

(** [Builder::build] *)
Definition build p (num_threads : nat) (th : nat) (reactor : option W) (ths : list (nat * option W)) :
    built RuntimeInstance * process F W :=
  if num_threads <=? 1 then
    match with_config p th reactor default_config with
    | (None, p1) => (IoError, p1)
    | (Some r, p1) => (Built (Single r), p1)
    end
  else
    match new p num_threads th reactor ths with
    | (Built m, p1) => (Built (Many m), p1)
    | (IoError, p1) => (IoError, p1)
    | (Panicked, p1) => (Panicked, p1)
    end.

(** ** The workers *)

(** A poll of the main future sets the current task and clears it. *)
Definition poll_locals p th : process F W :=
  let t := thread p th in
  set_thread p th (mkThread (current_handle t) (cross_thread_ctx t) (current_reactor t)
    (Tls.clear_current_task (Tls.set_current_task (locals t) u64_max))).

(** One step of the loop of [block_on] in a worker: the receiver is polled with the waker
    of the main future; a result ends the loop, and the runtime is dropped; otherwise
    there is a tick.  [None]: a panic. *)
Definition worker_step p (w : worker) : option (process F W * worker) :=
  match worker_pc w with
  | Exited => None
  | Polling =>
      c ← Oneshot.sys_step (shutdown_channel w) (Oneshot.PollRx u64_max);
      let p1 := poll_locals p (worker_thread w) in
      if length (Oneshot.outcomes (shutdown_channel w)) <? length (Oneshot.outcomes c)
      then Some (drop p1 (worker_thread w) (worker_runtime w),
                 mkWorker (worker_thread w) (worker_runtime w) c Exited)
      else Some (p1, mkWorker (worker_thread w) (worker_runtime w) c Ticking)
  | Ticking =>
      p1 ← step p (RunTick (worker_thread w) (worker_runtime w));
      Some (p1, mkWorker (worker_thread w) (worker_runtime w) (shutdown_channel w) Polling)
  end.

(** The waker of the worker's main future. *)
Definition main_waker (w : worker) : ExecutorWaker :=
  mkWaker u64_max Tls.Task false (worker_runtime w) (worker_thread w).

(** [tx.send(())] on thread [th], with the drop of the sender; each waker that the channel
    gives back is used. *)
Definition shut_down p th (w : worker) : option (process F W * worker) :=
  c1 ← Oneshot.sys_step (shutdown_channel w) (Oneshot.Send tt);
  c2 ← Oneshot.sys_step c1 Oneshot.DropSender;
  let woken := list.drop (length (Oneshot.wakes (shutdown_channel w))) (Oneshot.wakes c2) in
  Some (foldl (λ p _, wake p th (main_waker w)) p woken,
        mkWorker (worker_thread w) (worker_runtime w) c2 (worker_pc w)).

(** [MultiRuntime::drop], up to the joins. *)
Fixpoint shut_down_all p th (ws : list worker) : option (process F W * list worker) :=
  match ws with
  | [] => Some (p, [])
  | w :: ws' =>
      '(p1, w1) ← shut_down p th w;
      '(p2, ws2) ← shut_down_all p1 th ws';
      Some (p2, w1 :: ws2)
  end.

(** ** Turns *)

(** The indices of [k] consecutive spawns. *)
Fixpoint turns (k : nat) h : list nat :=
  match k with 0 => [] | S k' => let '(i, h') := select h in i :: turns k' h' end.

Definition after_turns (k : nat) h : MultiHandle := Nat.iter k (λ h, (select h).2) h.

Lemma turns_lookup k h i :
  (0 ≤ next h)%Z → (next h + Z.of_nat k ≤ two64)%Z → i < k →
  turns k h !! i = Some (Z.to_nat ((next h + Z.of_nat i) mod Z.of_nat (length (handles h)))).
Proof.
  revert h i. induction k as [|k IH]; intros h i Hn Hk Hi; [lia|]. simpl. destruct i as [|i].
  - simpl. by rewrite Z.add_0_r.
  - simpl. destruct (decide (k = 0)) as [->|Hk0]; [lia|].
    assert (Hw : wrap64 (next h + 1) = (next h + 1)%Z) by (apply wrap64_id; unfold is_u64, two64 in *; lia).
    rewrite IH; simpl; rewrite ?Hw; [|lia..]. do 3 f_equal. lia.
Qed.

Lemma turns_length k h : length (turns k h) = k.
Proof. revert h. induction k as [|k IH]; intros h; simpl; [done|]. by rewrite IH. Qed.

Lemma select_range h : handles h ≠ [] → (select h).1 < length (handles h).
Proof.
  intros Hne. simpl. assert (0 < length (handles h)) by (destruct (handles h); simpl; [done|lia]).
  pose proof (Z.mod_pos_bound (next h) (Z.of_nat (length (handles h))) ltac:(lia)). lia.
Qed.

Lemma mod_shift_inj (c n a b : Z) :
  (0 ≤ a < n)%Z → (0 ≤ b < n)%Z → ((c + a) mod n = (c + b) mod n)%Z → a = b.
Proof.
  intros Ha Hb Hm. pose proof (Z.div_mod (c + a) n ltac:(lia)). pose proof (Z.div_mod (c + b) n ltac:(lia)).
  set (q1 := ((c + a) / n)%Z) in *. set (q2 := ((c + b) / n)%Z) in *.
  assert (Hd : (a - b = n * (q1 - q2))%Z) by lia. assert ((q1 - q2 = 0)%Z); [|lia].
  destruct (Z.lt_trichotomy (q1 - q2) 0) as [?|[?|?]]; [|done|]; nia.
Qed.

(** Spawns go round.  A spawn through a handle that has runtimes never panics, and as
    many spawns in a row as there are runtimes give one to each, as long as the counter
    does not wrap in between. *)
Theorem spawns_go_round h :
  handles h ≠ [] → (0 ≤ next h)%Z →
  (∀ p f, is_Some (spawn p h f)) ∧
  ((next h + Z.of_nat (length (handles h)) ≤ two64)%Z →
   turns (length (handles h)) h ≡ₚ seq 0 (length (handles h))).
Proof.
  intros Hne Hn. set (n := length (handles h)).
  assert (Hpos : 0 < n) by (unfold n; destruct (handles h); simpl; [done|lia]). split.
  - intros p f. unfold spawn. pose proof (select_range h Hne) as Hs. destruct (select h) as [i h']. simpl in Hs.
    destruct (lookup_lt_is_Some_2 (handles h) i Hs) as [r ->]. by eexists.
  - intros Hw.
    assert (Hlk : ∀ i, i < n → turns n h !! i = Some (Z.to_nat ((next h + Z.of_nat i) mod Z.of_nat n)))
      by (intros; by apply turns_lookup).
    assert (Hnd : NoDup (turns n h)).
    { apply NoDup_alt. intros i j x Hi Hj.
      assert (i < n ∧ j < n) as [Hin Hjn].
      { apply lookup_lt_Some in Hi, Hj. by rewrite turns_length in *. }
      rewrite Hlk in Hi, Hj by done. simplify_eq.
      apply Z2Nat.inj in Hi; [|apply Z.mod_pos_bound; lia..].
      apply Nat2Z.inj, (mod_shift_inj (next h) (Z.of_nat n)); [lia..|done]. }
    apply submseteq_length_Permutation.
    + apply NoDup_submseteq; [done|]. intros x [i Hi]%list_elem_of_lookup.
      pose proof (lookup_lt_Some _ _ _ Hi) as Hlt. rewrite turns_length in Hlt. rewrite Hlk in Hi by done.
      injection Hi as <-. apply elem_of_seq.
      pose proof (Z.mod_pos_bound (next h + Z.of_nat i) (Z.of_nat n) ltac:(lia)). lia.
    + by rewrite length_seq, turns_length.
Qed.

(** ** Shutting down *)

Definition set_pc (w : worker) (x : pc) : worker :=
  mkWorker (worker_thread w) (worker_runtime w) (shutdown_channel w) x.

(** A worker that nobody told to stop; while it ticks, its waker is registered. *)
Record running (w : worker) : Prop := {
  rn_channel : one_inv (shutdown_channel w);
  rn_sender : Oneshot.sender (shutdown_channel w) = Oneshot.Alive;
  rn_receiver : is_Some (Oneshot.receiver (shutdown_channel w));
  rn_pc : worker_pc w ≠ Exited;
  rn_waiting : worker_pc w = Ticking → is_Some (Oneshot.rx_waker (Oneshot.inner (shutdown_channel w)));
}.

Lemma new_running th r : running (mkWorker th r Oneshot.init_sys Polling).
Proof. split; simpl; [apply oneshot_init_inv|done|by eexists|done|done]. Qed.

(** The workers that [new] starts: each is running, and has a runtime of its own. *)
Lemma start_workers_running p ths p' ws :
  start_workers p ths = Some (p', ws) →
  Forall running ws ∧ worker_runtime <$> ws = seq (next_runtime p) (length ws).
Proof.
  revert p p' ws. induction ths as [|[th reactor] ths IH]; intros p p' ws; simpl; [by intros [= <- <-]|].
  destruct reactor as [w|]; [|done]. unfold with_config. set (p1 := mkProcess _ _ _ _).
  intros ([p2 ws2] & Hws & [= <- <-])%bind_Some. destruct (IH p1 p2 ws2 Hws) as [Hr Hs].
  split; [constructor; [apply new_running|done]|]. simpl. f_equal. exact Hs.
Qed.

Lemma new_workers p n th reactor ths m p' :
  new p n th reactor ths = (Built m, p') → Forall running (workers m) ∧ NoDup (worker_runtime <$> workers m).
Proof.
  unfold new. destruct (1 <=? n); [|done]. destruct (with_config p th reactor default_config) as [[r|] p1]; [|done].
  destruct (start_workers p1 _) as [[p2 ws]|] eqn:E; [|done]. intros [= <- <-]. simpl.
  destruct (start_workers_running _ _ _ _ E) as [Hr ->]. split; [done|apply NoDup_seq].
Qed.

(** A poll of the receiver leaves the two ends of the channel as they are. *)
Lemma poll_ends {T} (c c' : Oneshot.Sys T) wk :
  Oneshot.sys_step c (Oneshot.PollRx wk) = Some c' →
  Oneshot.sender c' = Oneshot.sender c ∧ is_Some (Oneshot.receiver c').
Proof.
  simpl. destruct (Oneshot.receiver c) as [r|]; simpl; [|done].
  destruct (Oneshot.poll (Oneshot.inner c) r wk) as [[[res g] r']|]; simpl; [|done].
  intros [= <-]. split; [done|by eexists].
Qed.

Lemma running_step p w p' w' : running w → worker_step p w = Some (p', w') → running w'.
Proof.
  intros [Hi Hs [r Hr] Hp _]. unfold worker_step. destruct (worker_pc w) eqn:Epc; [| |done].
  - destruct (poll_ok _ r u64_max Hi Hr) as (c & Hc & Hi' & _ & Ho & Hreg). rewrite Hc. cbn [mbind option_bind].
    destruct (poll_ends _ _ _ Hc) as [Hs' Hr'].
    unfold poll_outcome in Ho. pose proof (oi_sender _ Hi) as Hse. rewrite Hs in Hse. simpl in Hse.
    rewrite Hse, app_nil_r in Ho. rewrite Ho, Nat.ltb_irrefl. intros [= <- <-].
    split; simpl; [done|by rewrite Hs'|done|done|]. intros _. destruct (Hreg Hse) as [i ->]. by eexists.
  - intros (p1 & _ & [= <- <-])%bind_Some. by split.
Qed.

(** A shut down channel, and the wakers it gave back. *)
Lemma shut_down_channel (c : Oneshot.Sys unit) :
  one_inv c → Oneshot.sender c = Oneshot.Alive → is_Some (Oneshot.receiver c) →
  ∃ c1 c2, Oneshot.sys_step c (Oneshot.Send tt) = Some c1 ∧ Oneshot.sys_step c1 Oneshot.DropSender = Some c2 ∧
    one_inv c2 ∧ is_Some (Oneshot.receiver c2) ∧ Oneshot.st (Oneshot.okernel (Oneshot.inner c2)) ≠ Oneshot.Empty ∧
    list.drop (length (Oneshot.wakes c)) (Oneshot.wakes c2) = option_list (snd <$> Oneshot.rx_waker (Oneshot.inner c)).
Proof.
  intros Hi Hs [r Hr]. destruct (oneshot_send_ok c tt Hi Hs) as (c1 & H1 & Hi1 & Hw1 & Ha1).
  rewrite Hr in Ha1.
  assert (Hr1 : Oneshot.receiver c1 = Some r).
  { simpl in H1. rewrite Hs in H1. destruct (Oneshot.send (Oneshot.inner c) tt) as [[ok g] w]. by injection H1 as <-. }
  assert (Hs1 : Oneshot.sender c1 = Oneshot.Sent).
  { simpl in H1. rewrite Hs in H1. destruct (Oneshot.send (Oneshot.inner c) tt) as [[ok g] w]. by injection H1 as <-. }
  assert (Hst1 : Oneshot.st (Oneshot.okernel (Oneshot.inner c1)) ≠ Oneshot.Empty).
  { intros E. pose proof (oi_data _ Hi1) as Hd. unfold data_inv in Hd. rewrite E in Hd. naive_solver. }
  destruct (oneshot_drop_sender_ok c1 Hi1 ltac:(congruence)) as (c2 & H2 & Hi2 & Hw2 & _).
  assert (Hn1 : Oneshot.rx_waker (Oneshot.inner c1) = None).
  { pose proof (oi_wake _ Hi1) as Hk. unfold wake_inv in Hk.
    destruct (Oneshot.rx_waker (Oneshot.inner c1)) as [[i k]|] in Hk |- *; [|done]. by destruct Hk as (_ & _ & ?). }
  exists c1, c2. split; [done|]. split; [done|]. split; [done|]. split; [|split].
  - simpl in H2. rewrite Hs1 in H2. destruct (Oneshot.drop_sender (Oneshot.inner c1)). injection H2 as <-. by eexists.
  - pose proof (oi_sender _ Hi2) as Hse.
    assert (Hg : Oneshot.sender c2 = Oneshot.Gone).
    { simpl in H2. rewrite Hs1 in H2. destruct (Oneshot.drop_sender (Oneshot.inner c1)). by injection H2 as <-. }
    rewrite Hg in Hse. exact Hse.
  - rewrite Hw2, Hw1, Hn1. simpl. rewrite app_nil_r.
    apply drop_app_length.
Qed.

(** A worker that was told: a tick that it may be in ends as it would have, and its next poll of the
    main future is its end, at which its runtime is dropped. *)
Definition told (w : worker) : Prop :=
  (∀ p p', worker_pc w = Ticking → step p (RunTick (worker_thread w) (worker_runtime w)) = Some p' →
     worker_step p w = Some (p', set_pc w Polling)) ∧
  ∀ p, ∃ p' w', worker_step p (set_pc w Polling) = Some (p', w') ∧ worker_pc w' = Exited ∧
    runtimes p' !! worker_runtime w = None.

(** Telling worker [w] from thread [th]: if the worker is in a tick, it is interrupted. *)
Definition told_from th (p p' : process F W) (w w' : worker) : Prop :=
  worker_thread w' = worker_thread w ∧ worker_runtime w' = worker_runtime w ∧ worker_pc w' = worker_pc w ∧
  told w' ∧
  ∀ sh, worker_pc w = Ticking → th ≠ worker_thread w → shared p !! worker_runtime w = Some sh →
    shared p' !! worker_runtime w = Some (mkShared (cross_queue sh ++ [u64_max]) true).

Lemma wake_shared p th wk r : r ≠ queue wk → shared (wake p th wk) !! r = shared p !! r.
Proof.
  intros Hne. unfold wake. destruct (th =? executor_thread_id wk); [done|].
  destruct (shared p !! queue wk); [|done]. simpl. by rewrite lookup_insert_ne.
Qed.

Lemma shut_down_tells p th w :
  running w →
  ∃ p1 w1, shut_down p th w = Some (p1, w1) ∧ told_from th p p1 w w1 ∧
    ∀ r, r ≠ worker_runtime w → shared p1 !! r = shared p !! r.
Proof.
  intros [Hi Hs Hr Hp Hwait].
  destruct (shut_down_channel _ Hi Hs Hr) as (c1 & c2 & H1 & H2 & Hi2 & [r2 Hr2] & Hst & Hwk).
  unfold shut_down. rewrite H1. cbn [mbind option_bind]. rewrite H2. cbn [mbind option_bind]. rewrite Hwk.
  eexists _, _. split; [done|]. split; [do 3 (split; [done|]); split; [split|]|].
  - intros p2 p3 Hpc Hst2. simpl in Hpc. unfold worker_step. simpl worker_pc. rewrite Hpc.
    cbn [worker_thread worker_runtime] in Hst2 |- *. by rewrite Hst2.
  - intros p2. destruct (poll_ok c2 r2 u64_max Hi2 Hr2) as (c3 & H3 & _ & _ & Ho & _).
    unfold worker_step, set_pc. cbn [worker_pc shutdown_channel worker_thread worker_runtime]. rewrite H3. cbn [mbind option_bind].
    assert (Hlt : length (Oneshot.outcomes c2) < length (Oneshot.outcomes c3)).
    { rewrite Ho, length_app. unfold poll_outcome. destruct (Oneshot.st _); [done|simpl; lia..]. }
    rewrite (proj2 (Nat.ltb_lt _ _) Hlt). eexists _, _. split; [done|]. split; [done|].
    simpl. by rewrite lookup_delete_eq.
  - intros sh Hpc Hth Hsh. destruct (Hwait Hpc) as [[i k] ->]. simpl. unfold wake, main_waker. cbn [executor_thread_id queue].
    rewrite (proj2 (Nat.eqb_neq _ _) Hth), Hsh. simpl. by rewrite lookup_insert_eq.
  - intros r Hne. destruct (Oneshot.rx_waker _) as [x|]; simpl; [|done]. by apply wake_shared.
Qed.

Lemma shut_down_all_tells p th ws :
  Forall running ws → NoDup (worker_runtime <$> ws) →
  ∃ p1 ws1, shut_down_all p th ws = Some (p1, ws1) ∧ Forall2 (told_from th p p1) ws ws1 ∧
    ∀ r, r ∉ worker_runtime <$> ws → shared p1 !! r = shared p !! r.
Proof.
  revert p. induction ws as [|w ws IH]; intros p Hrun Hnd; [by exists p, []|].
  apply Forall_cons in Hrun as [Hw Hrun]. apply NoDup_cons in Hnd as [Hni Hnd].
  destruct (shut_down_tells p th w Hw) as (p1 & w1 & H1 & (Ht & Hr & Hpc & Htold & Hint) & Hsh1).
  destruct (IH p1 Hrun Hnd) as (p2 & ws2 & H2 & Hall & Hsh2).
  exists p2, (w1 :: ws2). cbn [shut_down_all]. rewrite H1. cbn [mbind option_bind]. rewrite H2.
  split; [done|]. split.
  - constructor.
    + split_and!; try done. intros sh Hp Hth Hsh. rewrite Hsh2 by done. by apply Hint.
    + apply Forall2_same_length_lookup. split; [by eapply Forall2_length|]. intros i w' w2 Hi Hi2.
      destruct (Forall2_lookup_lr _ _ _ _ _ _ Hall Hi Hi2) as (? & ? & ? & ? & Hint2). split_and!; try done.
      intros sh Hp Hth Hsh. apply Hint2; [done..|]. rewrite Hsh1; [done|]. intros E. apply Hni. rewrite <- E.
      apply list_elem_of_fmap. exists w'. split; [done|]. by eapply list_elem_of_lookup_2.
  - intros r Hr'. apply not_elem_of_cons in Hr' as [Hne Hr']. by rewrite Hsh2, Hsh1.
Qed.

(** C26. Dropping a [MultiRuntime] ends its workers.  The workers that its constructor starts are
    running, each with a runtime of its own, and none of them ends before the drop, whatever it runs.  The
    loop of the drop goes through, from any state of the process, and tells each worker of
    the list: a worker that is in a tick, where it may sleep in its reactor, is interrupted; and
    wherever a worker is, it ends at its next poll of the main future, after the tick that
    it may be in, and drops its runtime. *)
Theorem shutdown_ends_workers p th ws :
  (∀ p0 n th0 reactor ths m p', new p0 n th0 reactor ths = (Built m, p') →
     Forall running (workers m) ∧ NoDup (worker_runtime <$> workers m)) ∧
  (∀ w p0 p' w', running w → worker_step p0 w = Some (p', w') → running w' ∧ worker_runtime w' = worker_runtime w) ∧
  (Forall running ws → NoDup (worker_runtime <$> ws) →
   ∃ p1 ws1, shut_down_all p th ws = Some (p1, ws1) ∧ Forall2 (told_from th p p1) ws ws1).
Proof.
  split; [exact new_workers|]. split.
  - intros w p0 p' w' Hw Hs. split; [by eapply running_step|]. unfold worker_step in Hs.
    destruct (worker_pc w); [| |done].
    + apply bind_Some in Hs as (c & _ & Hs). destruct (_ <? _); by injection Hs as _ <-.
    + by apply bind_Some in Hs as (p1 & _ & [= _ <-]).
  - intros Hrun Hnd. destruct (shut_down_all_tells p th ws Hrun Hnd) as (p1 & ws1 & ? & ? & _). by exists p1, ws1.
Qed.

(** ** Blocking in place *)

(** A step that the thread [th] does not make. *)
Definition elsewhere (th : nat) (o : op (F := F) (W := W)) : Prop :=
  match o with
  | Create th' _ _ | Drop th' _ | PollMain th' _ _ | RunTick th' _ | SpawnHere th' _ | WakeBy th' _ => th' ≠ th
  | HandleSpawn _ _ => True
  end.

(** Steps one after the other; [None]: a panic. *)
Fixpoint exec p (os : list op) : option (process F W) :=
  match os with [] => Some p | o :: os' => p1 ← step p o; exec p1 os' end.

Fixpoint all_allowed p (os : list op) : Prop :=
  match os with
  | [] => True
  | o :: os' => allowed p o ∧ match step p o with Some p1 => all_allowed p1 os' | None => True end
  end.

(** [runtime::Handle::block_on] on the thread [th]: a new runtime, what happens until its future is
    ready, and its drop.  [None]: [unwrap] panics, or the future does. *)
Definition handle_block_on p th (reactor : option W) (during : nat → list op) : option (process F W) :=
  match with_config p th reactor default_config with
  | (None, _) => None
  | (Some r, p1) => p2 ← exec p1 (during r); Some (drop p2 th r)
  end.

(** [task::block_in_place]: the closure on a new thread; [None]: [join().unwrap()] panics. *)
Definition block_in_place p (f : process F W → nat → option (process F W)) : option (process F W) :=
  f p (fresh (dom (threads p))).

(** The runtimes of [p] that [keep] live on, on their threads. *)
Definition live_on p p' (keep : nat → Prop) : Prop :=
  ∀ r rt, runtimes p !! r = Some rt → keep r → ∃ rt1, runtimes p' !! r = Some rt1 ∧ home rt1 = home rt.

Lemma live_on_refl p keep : live_on p p keep.
Proof. intros r rt Hr _. eauto. Qed.

Lemma live_on_insert p x rx rx' ths sh n keep :
  runtimes p !! x = Some rx → home rx' = home rx → live_on p (mkProcess ths (<[x := rx']> (runtimes p)) sh n) keep.
Proof.
  intros Hx Hh r rt Hr _. simpl. destruct (decide (x = r)) as [->|Hne].
  - rewrite lookup_insert_eq. simplify_eq. eauto.
  - rewrite lookup_insert_ne by done. eauto.
Qed.

Lemma all_allowed_cons p o os p1 : allowed p o → step p o = Some p1 → all_allowed p1 os → all_allowed p (o :: os).
Proof. intros Ha Hs Has. simpl. split; [done|]. by rewrite Hs. Qed.

(** What stays as it is in a step of another thread: the locals of [th], and the runtimes
    that it does not drop. *)
Lemma elsewhere_step th p o p' :
  pinv p → allowed p o → elsewhere th o → step p o = Some p' →
  thread p' th = thread p th ∧ live_on p p' (λ r, ∀ th', o ≠ Drop th' r).
Proof.
  intros Hi Ha He Hs.
  assert (Hspawn : ∀ x f keep, thread (handle_spawn p x f) th = thread p th ∧ live_on p (handle_spawn p x f) keep).
  { intros x f keep. unfold handle_spawn. destruct (runtimes p !! x) as [rx|] eqn:Ex; [|by split; [|apply live_on_refl]].
    destruct (shared p !! x); [|by split; [|apply live_on_refl]]. split; [done|]. by eapply live_on_insert. }
  assert (Hsave : ∀ th' x s keep, th' ≠ th → (∃ rt, runtimes p !! x = Some rt ∧ home rt = th') →
    thread (save p th' x s) th = thread p th ∧ live_on p (save p th' x s) keep).
  { intros th' x s keep Hne (rt & Hr & Hh). unfold save. rewrite thread_insert, decide_False by done. split; [done|].
    eapply live_on_insert; [done|]. by rewrite Hr. }
  destruct o as [th' reactor config|th' x|th' x f|th' x|x f|th' f|th' wk]; simpl in Ha, He, Hs.
  - injection Hs as <-. destruct reactor as [w|]; [|by split; [|apply live_on_refl]]. simpl.
    rewrite thread_insert, decide_False by done. split; [done|]. intros r rt Hr _. exists rt. simpl.
    destruct (pi_ctx _ Hi _ _ Hr) as (Hlt & _). rewrite lookup_insert_ne by lia. done.
  - injection Hs as <-. unfold drop. rewrite thread_insert, decide_False by done. split; [done|].
    intros r rt Hr Hk. exists rt. simpl. rewrite lookup_delete_ne; [done|]. intros ->. by apply (Hk th').
  - apply bind_Some in Hs as (s & _ & [= <-]). by apply Hsave.
  - apply bind_Some in Hs as (s & _ & [= <-]). by apply Hsave.
  - injection Hs as <-. apply Hspawn.
  - unfold spawn_here in Hs. apply bind_Some in Hs as (x & _ & [= <-]). apply Hspawn.
  - injection Hs as <-. unfold wake. destruct (th' =? executor_thread_id wk).
    + unfold set_thread. rewrite thread_insert, decide_False by done. split; [done|]. intros r rt Hr _. eauto.
    + destruct (shared p !! queue wk); [|by split; [|apply live_on_refl]]. split; [done|]. intros r rt Hr _. eauto.
Qed.

Lemma exec_elsewhere th os p p' :
  preach p → all_allowed p os → Forall (elsewhere th) os → exec p os = Some p' →
  preach p' ∧ thread p' th = thread p th ∧ live_on p p' (λ r, ∀ th', Drop th' r ∉ os).
Proof.
  revert p. induction os as [|o os IH]; intros p Hp Ha He Hs; simpl in *.
  - injection Hs as <-. split; [done|]. split; [done|apply live_on_refl].
  - destruct Ha as [Ha Has]. apply bind_Some in Hs as (p1 & Hs1 & Hs). rewrite Hs1 in Has.
    apply Forall_cons in He as [He Hes].
    destruct (elsewhere_step th p o p1 (preach_inv _ Hp) Ha He Hs1) as [Ht1 Hl1].
    destruct (IH p1 ltac:(by eapply p_step) Has Hes Hs) as (Hp' & Ht2 & Hl2). split; [done|].
    split; [by rewrite Ht2|]. intros r rt Hr Hk.
    destruct (Hl1 r rt Hr) as (rt1 & Hr1 & Hh1); [intros th' ->; apply (Hk th'); by apply elem_of_cons; left|].
    destruct (Hl2 r rt1 Hr1) as (rt2 & Hr2 & Hh2); [intros th' Hin; apply (Hk th'); by apply elem_of_cons; right|].
    exists rt2. split; [done|congruence].
Qed.

(** C23. [Handle::block_on] inside of [block_in_place] leaves the runtime around it alone.  The
    thread that calls it waits; whatever the others do until the nested future is
    ready, ticks of the nested runtime, spawns, wakes and other runtimes included, the
    locals of the calling thread stay as they are, its runtime is alive in a state of an
    executor, and spawns and wakers there are still its own; the nested runtime is gone. *)
Theorem block_in_place_isolates p r rt reactor during p' :
  preach p → runtimes p !! r = Some rt →
  all_allowed (with_config p (fresh (dom (threads p))) (Some reactor) default_config).2 (during (next_runtime p)) →
  Forall (elsewhere (home rt)) (during (next_runtime p)) →
  (∀ th', Drop th' r ∉ during (next_runtime p) ∧ Drop th' (next_runtime p) ∉ during (next_runtime p)) →
  block_in_place p (λ q th, handle_block_on q th (Some reactor) during) = Some p' →
  preach p' ∧ thread p' (home rt) = thread p (home rt) ∧ runtimes p' !! next_runtime p = None ∧
  (∃ rt', runtimes p' !! r = Some rt' ∧ home rt' = home rt) ∧
  (∀ tid src d, create_waker p' (home rt) tid src d = Some (mkWaker tid src d r (home rt))) ∧
  ∀ f, spawn_here p' (home rt) f = Some (handle_spawn p' r f).
Proof.
  intros Hp Hr Ha He Hd. unfold block_in_place, handle_block_on. set (th := fresh (dom (threads p))) in *.
  set (r' := next_runtime p) in *. pose proof (preach_inv _ Hp) as Hi.
  destruct (pi_ctx _ Hi _ _ Hr) as (Hlt & Hh & Hc & _).
  assert (Hnone : threads p !! th = None) by apply not_elem_of_dom, is_fresh.
  assert (Hfree : ∀ x rx, runtimes p !! x = Some rx → home rx ≠ th).
  { intros x rx Hx Hhx. destruct (pi_ctx _ Hi _ _ Hx) as (_ & Hcx & _). unfold thread in Hcx. rewrite Hhx, Hnone in Hcx. done. }
  assert (Hne : th ≠ home rt) by (intros E; by apply (Hfree r rt)).
  set (p1 := (with_config p th (Some reactor) default_config).2) in *.
  assert (Hcr : allowed p (Create th (Some reactor) default_config)) by (split; [simpl; lia|done]).
  assert (Hp1 : preach p1) by by apply (p_step p (Create th (Some reactor) default_config)).
  destruct (elsewhere_step (home rt) p (Create th (Some reactor) default_config) p1 Hi Hcr Hne eq_refl) as [Ht1 Hl1].
  change (with_config p th (Some reactor) default_config) with (Some r', p1). cbv beta iota.
  intros Hs. apply bind_Some in Hs as (p2 & Hs & [= <-]).
  destruct (exec_elsewhere (home rt) (during r') p1 p2 Hp1 Ha He Hs) as (Hp2 & Ht2 & Hl2).
  destruct (Hl1 r rt Hr) as (rt1 & Hr1 & Hh1); [done|].
  destruct (Hl2 r rt1 Hr1) as (rt2 & Hr2 & Hh2); [intros th'; apply Hd|].
  destruct (Hl2 r' (mkRuntime (Executor.new_on (locals (thread p th)) reactor (event_interval default_config)) th)) as (rx & Hrx & Hhx);
    [unfold p1; simpl; by rewrite lookup_insert_eq|intros th'; apply Hd|]. simpl in Hhx.
  assert (Hdr : allowed p2 (Drop th r')) by by exists rx.
  destruct (elsewhere_step (home rt) p2 (Drop th r') (drop p2 th r') (preach_inv _ Hp2) Hdr Hne eq_refl) as [Ht3 Hl3].
  assert (Ht : thread (drop p2 th r') (home rt) = thread p (home rt)) by by rewrite Ht3, Ht2.
  split; [by apply (p_step p2 (Drop th r'))|]. split; [done|]. split; [simpl; by rewrite lookup_delete_eq|]. split.
  - destruct (Hl3 r rt2 Hr2) as (rt3 & Hr3 & Hh3); [intros th' [= _ E]; lia|]. exists rt3. split; [done|congruence].
  - unfold create_waker, spawn_here. rewrite Ht, Hc, Hh. done.
Qed.

End multi.

(** ** Witnesses: a runtime of three threads over futures that never finish *)

Definition sample_multi : MultiRuntime * process unit (list Z) :=
  match new (init : process unit (list Z)) 3 0 (Some []) [(1, Some []); (2, Some [])] with
  | (Built m, p) => (m, p)
  | (_, p) => (mkMulti 0 [] (mkHandle [] 0), p)
  end.

Lemma spawns_go_round_witness :
  turns 3 (mkHandle (handles (handle sample_multi.1)) 7) ≡ₚ [0; 1; 2].
Proof.
  apply (spawns_go_round (W := list Z) (F := unit) (mkHandle (handles (handle sample_multi.1)) 7)).
  - vm_compute. discriminate.
  - vm_compute. discriminate.
  - vm_compute. discriminate.
Defined.

(** Both workers have polled their main future, and the first has made its tick. *)
Definition work (x : process unit (list Z) * list worker) (i : nat) : process unit (list Z) * list worker :=
  match x.2 !! i ≫= worker_step x.1 with Some (p, w) => (p, <[i := w]> x.2) | None => x end.
Definition working : process unit (list Z) * list worker :=
  foldl work (sample_multi.2, workers sample_multi.1) [0; 1; 0].

Lemma working_running : Forall running working.2 ∧ NoDup (worker_runtime <$> working.2).
Proof.
  assert (Hw : ∀ x i, Forall running x.2 → NoDup (worker_runtime <$> x.2) →
    Forall running (work x i).2 ∧ NoDup (worker_runtime <$> (work x i).2)).
  { intros [p ws] i Hr Hn. unfold work. simpl. destruct (ws !! i) as [w|] eqn:Ei; simpl; [|done].
    destruct (worker_step p w) as [[p' w']|] eqn:Es; simpl; [|done].
    pose proof (Forall_lookup_1 _ _ _ _ Hr Ei) as Hwr. pose proof (running_step _ _ _ _ Hwr Es) as Hwr'.
    split; [by apply Forall_insert|]. rewrite list_fmap_insert, list_insert_id; [done|].
    rewrite list_lookup_fmap, Ei. simpl. f_equal. unfold worker_step in Es. destruct (worker_pc w); [| |done].
    - apply bind_Some in Es as (c & _ & Es). destruct (_ <? _); by injection Es as _ <-.
    - by apply bind_Some in Es as (p1 & _ & [= _ <-]). }
  destruct (new_workers (init : process unit (list Z)) 3 0 (Some []) [(1, Some []); (2, Some [])] sample_multi.1 sample_multi.2)
    as [Hr Hn]; [vm_compute; reflexivity|].
  unfold working. cbn [foldl]. set (x0 := (sample_multi.2, workers sample_multi.1)).
  destruct (Hw x0 0 Hr Hn) as [Hr1 Hn1]. destruct (Hw _ 1 Hr1 Hn1) as [Hr2 Hn2]. by apply Hw.
Qed.

(** The second worker is in its tick, and is interrupted; the first ends at its next poll. *)
Lemma shutdown_ends_workers_witness :
  ∃ p1 w1 w2, shut_down_all working.1 0 working.2 = Some (p1, [w1; w2]) ∧
    shared p1 !! 2 = Some (mkShared [u64_max] true) ∧
    ∀ p2 : process unit (list Z), ∃ p3 w3, worker_step p2 w1 = Some (p3, w3) ∧ worker_pc w3 = Exited.
Proof.
  destruct (shutdown_ends_workers working.1 0 working.2) as (_ & _ & Hall).
  destruct (Hall (proj1 working_running) (proj2 working_running)) as (p1 & ws1 & H1 & Htold).
  assert (Hws : working.2 = [mkWorker 1 1 (shutdown_channel (default (mkWorker 0 0 Oneshot.init_sys Exited) (working.2 !! 0))) Polling;
    mkWorker 2 2 (shutdown_channel (default (mkWorker 0 0 Oneshot.init_sys Exited) (working.2 !! 1))) Ticking]) by (vm_compute; reflexivity).
  rewrite Hws in Htold. apply Forall2_cons_inv_l in Htold as (w1 & ws & T1 & Htold & ->).
  apply Forall2_cons_inv_l in Htold as (w2 & ws' & T2 & Htold & ->). apply Forall2_nil_inv_l in Htold as ->.
  exists p1, w1, w2. split; [exact H1|]. destruct T2 as (_ & _ & _ & _ & Hint). destruct T1 as (_ & _ & Hpc & [_ Hend] & _). split.
  - apply (Hint (mkShared [] false)); [reflexivity|vm_compute; discriminate|vm_compute; reflexivity].
  - intros p2. destruct (Hend p2) as (p3 & w3 & Hs & He & _). exists p3, w3. split; [|exact He].
    rewrite <- Hs. f_equal. destruct w1. simpl in Hpc. by subst.
Defined.

(** The nested future is polled once, wakes a task of the outer runtime and lets its own
    runtime tick. *)
Definition nested_steps (r : nat) : list (op (F := unit) (W := list Z)) :=
  [PollMain 2 r tt; WakeBy 2 (mkWaker 1 Tls.Task false 2 0); RunTick 2 r].

Definition nested_end : sample_process :=
  default sample (block_in_place sample (λ q th, handle_block_on q th (Some []) nested_steps)).

Lemma block_in_place_isolates_witness :
  runtimes nested_end !! 3 = None ∧ spawn_here nested_end 0 tt = Some (handle_spawn nested_end 2 tt).
Proof.
  destruct (block_in_place_isolates sample 2 (sample_runtime 2) [] nested_steps nested_end) as (_ & _ & H1 & _ & _ & H2).
  - apply sample_reach.
  - vm_compute. reflexivity.
  - eapply all_allowed_cons; [eexists; split; [vm_compute; reflexivity|reflexivity]|vm_compute; reflexivity|].
    eapply all_allowed_cons; [split; [vm_compute; discriminate|vm_compute; reflexivity]|vm_compute; reflexivity|].
    eapply all_allowed_cons; [eexists; split; [vm_compute; reflexivity|reflexivity]|vm_compute; reflexivity|exact I].
  - do 3 (apply Forall_cons_2; [vm_compute; discriminate|]). apply Forall_nil_2.
  - intros th'. split; intros Hin; do 3 (apply elem_of_cons in Hin as [Hin|Hin]; [discriminate|]); exact (not_elem_of_nil _ Hin).
  - vm_compute. reflexivity.
  - split; [exact H1|exact (H2 tt)].
Defined.

End Multi.
