(* ===== verification/Macro.v ===== *)
(** * Macro: the attributes [main] and [test], and the builder they use

    [lion-macro/src/lib.rs] parses the arguments of the attribute and rewrites an [async]
    function into one that builds a runtime and blocks on the body; the builder is the one
    of [lion/src/lib.rs], whose [build] is [Multi.build].  Tokens are those that [syn]
    cuts: identifiers that are no keywords, literals with their value, and the two signs
    of the grammar.  The parts of a function are opaque pieces of source, of type [S]. *)

From stdpp Require Import strings.
From Stdlib Require Import Wf_nat.
From S2P Require Import Prelude Executor Runtime Multi.

Module Macro.

(** ** The arguments *)

Inductive Token :=
  | Ident (s : string) | LitStr (s : string) | LitInt (n : Z) | EqSign | Comma | OtherToken.

Inductive Error :=
  | ExpectedIdent | ExpectedEq | ExpectedStr | ExpectedInt | IntRange | ExpectedComma
  | UnknownAttribute (s : string) | BadItem | NotAsync.

Record MainArgs := mkArgs { flavor : option string; worker_threads : option Z }.

(** [base10_parse::<usize>]. *)
Definition parse_usize (n : Z) : option Z := if (0 <=? n)%Z && (n <=? u64_max)%Z then Some n else None.

(** The loop of [MainArgs::parse]. *)
Fixpoint parse_args (ts : list Token) (a : MainArgs) : Error + MainArgs :=
  match ts with
  | [] => inr a
  | Ident i :: ts1 =>
      match ts1 with
      | EqSign :: ts2 =>
          if decide (i = "flavor") then
            match ts2 with
            | LitStr s :: ts3 =>
                let a1 := mkArgs (Some s) (worker_threads a) in
                match ts3 with
                | [] => inr a1
                | Comma :: ts4 => parse_args ts4 a1
                | _ => inl ExpectedComma
                end
            | _ => inl ExpectedStr
            end
          else if decide (i = "worker_threads") then
            match ts2 with
            | LitInt n :: ts3 =>
                match parse_usize n with
                | Some k =>
                    let a1 := mkArgs (flavor a) (Some k) in
                    match ts3 with
                    | [] => inr a1
                    | Comma :: ts4 => parse_args ts4 a1
                    | _ => inl ExpectedComma
                    end
                | None => inl IntRange
                end
            | _ => inl ExpectedInt
            end
          else inl (UnknownAttribute i)
      | _ => inl ExpectedEq
      end
  | _ => inl ExpectedIdent
  end.

Definition parse (ts : list Token) : Error + MainArgs := parse_args ts (mkArgs None None).

(** ** The builder *)

Record Builder := mkBuilder { num_threads : nat }.

Definition new_current_thread : Builder := mkBuilder 1.

(** [parallelism] is what the system says of itself. *)
Definition new_multi_thread (parallelism : option nat) : Builder := mkBuilder (default 4 parallelism).

Definition enable_all (b : Builder) : Builder := b.
Definition enable_io (b : Builder) : Builder := b.
Definition enable_time (b : Builder) : Builder := b.
Definition thread_name (b : Builder) (name : string) : Builder := b.
Definition set_worker_threads (b : Builder) (n : nat) : Builder := mkBuilder n.

(** ** The functions *)

Section item.
Context {S : Type}.

(** The parts of [syn::ItemFn] and its signature. *)
Record ItemFn := mkItem {
  attrs : list S; vis : S;
  constness : bool; asyncness : bool; unsafety : bool; abi : option S;
  name : S; generics : S; where_clause : option S; inputs : S; output : S;
  block : S;
}.

(** The function an attribute leaves: its parts, and the runtime that its body builds to
    block on [async #body]. *)
Record Expansion := mkExpansion { fn : ItemFn; runtime : Builder; body : S }.

(** [quote!], with the attributes in front. *)
Definition quoted (front : list S) (input : ItemFn) : Expansion :=
  mkExpansion
    (mkItem (front ++ attrs input) (vis input) false false false None
      (name input) (generics input) None (inputs input) (output input) (block input))
    (enable_all new_current_thread) (block input).

Definition expand (front : list S) (attr : list Token) (item : option ItemFn) : Error + Expansion :=
  match parse attr with
  | inl e => inl e
  | inr _args =>
      match item with
      | None => inl BadItem
      | Some input => if asyncness input then inr (quoted front input) else inl NotAsync
      end
  end.

Definition main (attr : list Token) (item : option ItemFn) : Error + Expansion := expand [] attr item.

(** [core_test] is the attribute [#[::core::prelude::v1::test]]. *)
Definition test (core_test : S) (attr : list Token) (item : option ItemFn) : Error + Expansion :=
  expand [core_test] attr item.

End item.
Arguments ItemFn : clear implicits.
Arguments Expansion : clear implicits.

(** ** The grammar of the arguments *)

Inductive Setting := Flavor (s : string) | WorkerThreads (n : Z).

Definition print_setting (x : Setting) : list Token :=
  match x with
  | Flavor s => [Ident "flavor"; EqSign; LitStr s]
  | WorkerThreads n => [Ident "worker_threads"; EqSign; LitInt n]
  end.

(** Settings with commas between them, and maybe one after the last. *)
Fixpoint print (xs : list Setting) (trailing : bool) : list Token :=
  match xs with
  | [] => []
  | x :: xs' =>
      print_setting x ++
      (if xs' is [] then (if trailing then [Comma] else []) else Comma :: print xs' trailing)
  end.

Definition valid (x : Setting) : Prop := match x with Flavor _ => True | WorkerThreads n => (0 ≤ n ≤ u64_max)%Z end.

Definition apply_setting (a : MainArgs) (x : Setting) : MainArgs :=
  match x with
  | Flavor s => mkArgs (Some s) (worker_threads a)
  | WorkerThreads n => mkArgs (flavor a) (Some n)
  end.

Lemma parse_usize_valid n : (0 ≤ n ≤ u64_max)%Z → parse_usize n = Some n.
Proof.
  intros [H1 H2]. unfold parse_usize. apply Z.leb_le in H1, H2. by rewrite H1, H2.
Qed.

Lemma parse_usize_some n k : parse_usize n = Some k → k = n ∧ (0 ≤ n ≤ u64_max)%Z.
Proof.
  unfold parse_usize. destruct (Z.leb_spec 0 n), (Z.leb_spec n u64_max); simpl; intros [= <-]; done.
Qed.

Lemma parse_print xs trailing a :
  Forall valid xs → parse_args (print xs trailing) a = inr (foldl apply_setting a xs).
Proof.
  revert a. induction xs as [|x xs IH]; intros a Hv; [done|]. apply Forall_cons in Hv as [Hx Hv].
  destruct x as [s|n]; cbn [print print_setting app parse_args].
  - rewrite decide_True by done. destruct xs as [|y xs]; [by destruct trailing|]. by rewrite IH.
  - rewrite decide_False, decide_True by done. rewrite parse_usize_valid by done.
    destruct xs as [|y xs]; [by destruct trailing|]. by rewrite IH.
Qed.

Lemma parse_sound ts a b :
  parse_args ts a = inr b → ∃ xs trailing, ts = print xs trailing ∧ Forall valid xs ∧ b = foldl apply_setting a xs.
Proof.
  revert a. induction ts as [ts IH] using (induction_ltof1 _ (@length Token)); unfold ltof in IH. intros a H.
  assert (Hstep : ∀ x ts3 a1, ts = print_setting x ++ ts3 → valid x → a1 = apply_setting a x →
    match ts3 with [] => inr a1 | Comma :: ts4 => parse_args ts4 a1 | _ => inl ExpectedComma end = inr b →
    ∃ xs trailing, ts = print xs trailing ∧ Forall valid xs ∧ b = foldl apply_setting a xs).
  { intros x ts3 a1 -> Hx -> H3. destruct ts3 as [|[| | | | |] ts4]; try done.
    - injection H3 as <-. exists [x], false. split; [done|]. split; [by apply Forall_singleton|done].
    - destruct (IH ts4) with (a := apply_setting a x) as (xs & tr & -> & Hxs & ->);
        [rewrite length_app; simpl; lia|done|].
      destruct xs as [|y xs].
      + exists [x], true. split; [done|]. split; [by apply Forall_singleton|done].
      + exists (x :: y :: xs), tr. split; [done|]. split; [by constructor|done]. }
  destruct ts as [|[i| | | | |] ts1]; simpl in H; try done.
  - injection H as <-. by exists [], false.
  - destruct ts1 as [|[| | | | |] ts2]; try done. destruct (decide (i = "flavor")) as [->|Hn].
    + destruct ts2 as [|[| s| | | |] ts3]; try done. by eapply (Hstep (Flavor s) ts3).
    + destruct (decide (i = "worker_threads")) as [->|?]; [|done].
      destruct ts2 as [|[| |n| | |] ts3]; try done. destruct (parse_usize n) as [k|] eqn:Ek; [|done].
      apply parse_usize_some in Ek as [-> Hn']. by eapply (Hstep (WorkerThreads n) ts3).
Qed.

(** C40. The arguments that the attributes accept are those of the grammar.  A list of
    tokens is accepted when it is a sequence of settings, in any order and number, with
    commas between them and maybe one after the last, whose numbers fit; of two settings of the same name the
    last one counts, and what is printed is what is parsed. *)
Theorem main_args_grammar ts b :
  parse ts = inr b ↔ ∃ xs trailing, ts = print xs trailing ∧ Forall valid xs ∧
    b = foldl apply_setting (mkArgs None None) xs.
Proof.
  split; [apply parse_sound|]. intros (xs & tr & -> & Hv & ->). by apply parse_print.
Qed.

(** The arguments do not matter: what is accepted expands as if there were no argument, to
    a function of the same name, type and visibility, without its other qualifiers, whose
    runtime has the thread that calls it and no other, whatever flavour and
    number of workers were asked for. *)
Theorem main_arguments_ignored {F W S} `{!Executor.Env F W} (front : list S) attr item e :
  expand front attr item = inr e →
  expand front [] item = inr e ∧
  (∃ input, item = Some input ∧ asyncness input = true ∧ name (fn e) = name input ∧ vis (fn e) = vis input ∧
     inputs (fn e) = inputs input ∧ output (fn e) = output input ∧ generics (fn e) = generics input ∧
     attrs (fn e) = front ++ attrs input ∧ body e = block input ∧
     asyncness (fn e) = false ∧ unsafety (fn e) = false ∧ abi (fn e) = None ∧ where_clause (fn e) = None) ∧
  ∀ (p : Runtime.process F W) th reactor ths,
    Multi.build p (num_threads (runtime e)) th reactor ths =
    match Runtime.with_config p th reactor Runtime.default_config with
    | (None, p1) => (Multi.IoError, p1)
    | (Some r, p1) => (Multi.Built (Multi.Single r), p1)
    end.
Proof.
  unfold expand. destruct (parse attr) as [?|args]; [done|]. destruct item as [input|]; [|done].
  simpl. destruct (asyncness input) eqn:Ea; [|done]. intros [= <-]. split; [done|].
  split; [by exists input|done].
Qed.

End Macro.
