(* ===== verification/DrainPool.v ===== *)
(** * DrainPool: the waiters of watch and broadcast

    [sync/watch.rs] and [sync/broadcast.rs] keep the parked receivers in the same way:
    the waiter kernel, the wakers by waiter id, and the counter of ids, under the
    mutex of the channel.  A wake always drains the whole queue.  [drain_inv] says
    that the queue and the wakers are the same ids, and that no permit is stored;
    [ids] are the ids of the parked futures. *)

From S2P Require Import Prelude UtilityLog Waiter.
Import Waiter.

Module DrainPool.

Record Drain := mkDrain {
  rx_kernel : WaiterKernel;
  waiters : list (Z * Z);
  next_id : Z;
}.
Implicit Types (d : Drain) (wid waker : Z).

Definition empty_pool : Drain := mkDrain Waiter.new [] 0.

(** [waiters.iter().position(|(wid, _)| *wid == id)] *)
Definition position (ws : list (Z * Z)) wid : option nat := fst <$> list_find (λ e, e.1 = wid) ws.

(** [wake_all]: the wakers it took, in order. *)
Fixpoint wake_loop (fuel : nat) d (out : list Z) : option (list Z * Drain) :=
  match fuel with
  | 0 => None
  | S fuel' =>
      match queue (rx_kernel d) with
      | [] => Some (out, d)
      | _ :: _ =>
          match signal_step (rx_kernel d) 0 with
          | (Woke wid, k) =>
              match position (waiters d) wid with
              | Some pos =>
                  match waiters d !! pos with
                  | Some (_, w) =>
                      wake_loop fuel' (mkDrain k (delete pos (waiters d)) (next_id d)) (out ++ [w])
                  | None => None
                  end
              | None => wake_loop fuel' (mkDrain k (waiters d) (next_id d)) out
              end
          | (Stored, k) => Some (out, mkDrain k (waiters d) (next_id d))
          end
      end
  end.
Definition wake_all d : option (list Z * Drain) := wake_loop (S (length (queue (rx_kernel d)))) d [].

(** A poll that finds nothing: a fresh id, and the kernel parks it or is ready. *)
Definition enqueue d waker : WaitAction * Drain :=
  let wid := next_id d in
  match wait_step (rx_kernel d) wid with
  | (Ready, k) => (Ready, mkDrain k (waiters d) (wrap64 (wid + 1)))
  | (Park i, k) => (Park i, mkDrain k (waiters d ++ [(wid, waker)]) (wrap64 (wid + 1)))
  end.

(** A later poll stores its own waker. *)
Definition refresh d wid waker : Drain :=
  match position (waiters d) wid with
  | Some pos => mkDrain (rx_kernel d) (alter (λ e, (e.1, waker)) pos (waiters d)) (next_id d)
  | None => d
  end.

Definition remove_waker (ws : list (Z * Z)) wid : list (Z * Z) :=
  match position ws wid with Some pos => delete pos ws | None => ws end.

(** The drop of [watch::Changed] looks at the kernel's answer, that of
    [broadcast::Recv] does not. *)
Definition withdraw_if d wid : Drain :=
  match remove_step (rx_kernel d) wid with
  | (true, k) => mkDrain k (remove_waker (waiters d) wid) (next_id d)
  | (false, k) => mkDrain k (waiters d) (next_id d)
  end.
Definition withdraw d wid : Drain :=
  let '(_, k) := remove_step (rx_kernel d) wid in
  mkDrain k (remove_waker (waiters d) wid) (next_id d).

(** ** The invariant *)

Record drain_inv d (ids : gmap nat Z) : Prop := {
  di_queue : (waiters d).*1 = queue (rx_kernel d);
  di_nodup : NoDup (queue (rx_kernel d));
  di_permit : permit (rx_kernel d) = 0%Z;
  di_next : (0 ≤ next_id d)%Z;
  di_ids : ∀ l i, ids !! l = Some i → (0 ≤ i < next_id d)%Z;
  di_inj : ∀ l l' i, ids !! l = Some i → ids !! l' = Some i → l = l';
  di_waiters : ∀ i w, (i, w) ∈ waiters d → ∃ l, ids !! l = Some i;
}.

Section lemmas.
Implicit Types (ids : gmap nat Z) (l : nat) (ws : list (Z * Z)).

Lemma drain_inv_init : drain_inv empty_pool ∅.
Proof.
  split; simpl; try done; [apply NoDup_nil_2|..]; intros *; rewrite ?lookup_empty; try done.
  by intros ?%elem_of_nil.
Qed.

Lemma position_nodup ws n i w : NoDup ws.*1 → ws !! n = Some (i, w) → position ws i = Some n.
Proof.
  intros Hnd Hn. unfold position. destruct (list_find (λ e, e.1 = i) ws) as [[m e]|] eqn:Ef; simpl.
  - apply list_find_Some in Ef as (Hm & He & _). f_equal.
    eapply (NoDup_lookup ws.*1); [done| |]; rewrite list_lookup_fmap; [by rewrite Hm|by rewrite Hn; simpl; rewrite He].
  - apply list_find_None in Ef. rewrite Forall_forall in Ef. by destruct (Ef (i, w) (list_elem_of_lookup_2 _ _ _ Hn)).
Qed.

Lemma position_spec ws i :
  match position ws i with
  | Some n => ∃ w, ws !! n = Some (i, w)
  | None => i ∉ ws.*1
  end.
Proof.
  unfold position. destruct (list_find (λ e, e.1 = i) ws) as [[n e]|] eqn:Ef; simpl.
  - apply list_find_Some in Ef as (Hn & He & _). exists e.2. by rewrite Hn, <- He, <- surjective_pairing.
  - apply list_find_None in Ef. rewrite Forall_forall in Ef. intros (e & -> & He)%list_elem_of_fmap.
    by apply (Ef e).
Qed.

Lemma remove_waker_filter ws i : NoDup ws.*1 → remove_waker ws i = filter (λ e, e.1 ≠ i) ws.
Proof.
  unfold remove_waker, position. induction ws as [|e ws IH]; [done|]. csimpl. intros [He Hn]%NoDup_cons.
  rewrite filter_cons. destruct (decide (e.1 = i)) as [Hi|Hi].
  - rewrite decide_False by naive_solver. simpl. symmetry. apply list_filter_id.
    intros x Hx Heq. apply He. rewrite list_elem_of_fmap. exists x. by rewrite Heq.
  - rewrite decide_True by done. rewrite <- IH by done.
    by destruct (list_find _ ws) as [[n x]|].
Qed.

Lemma remove_waker_ids ws i : NoDup ws.*1 → (remove_waker ws i).*1 = remove_first ws.*1 i.
Proof.
  intros Hn. rewrite remove_waker_filter, remove_first_filter by done. clear Hn.
  induction ws as [|e ws IH]; [done|]. csimpl. rewrite !filter_cons. repeat case_decide; csimpl; by rewrite ?IH.
Qed.

(** Waking drains the queue and takes every waker, in order. *)
Lemma wake_loop_spec fuel : ∀ d ids out,
  drain_inv d ids → length (queue (rx_kernel d)) < fuel →
  ∃ d', wake_loop fuel d out = Some (out ++ (waiters d).*2, d') ∧
    drain_inv d' ids ∧ waiters d' = [] ∧ next_id d' = next_id d.
Proof.
  induction fuel as [|fuel IH]; intros d ids out Hi Hlen; [lia|].
  pose proof Hi as [Hq Hn Hp Hx Hids Hinj Hw]. simpl.
  destruct (queue (rx_kernel d)) as [|i q] eqn:Eq.
  { apply fmap_nil_inv in Hq. exists d. rewrite Hq, app_nil_r. by split. }
  destruct (waiters d) as [|[j w] ws] eqn:Ews; simplify_eq/=.
  unfold signal_step. rewrite Eq. unfold position. simpl. rewrite decide_True by done. simpl.
  apply NoDup_cons in Hn as [Hni Hn].
  edestruct (IH (mkDrain (mkKernel (permit (rx_kernel d)) (ws.*1)
    (log (rx_kernel d) ++ signal_segment 0 (SWoke i)) (init (rx_kernel d))) ws (next_id d)) ids (out ++ [w]))
    as (d' & Hr & Hd').
  - split; simpl; try done. intros i' w' Hin. apply (Hw i' w'). by right.
  - simpl in *. rewrite length_fmap in *. lia.
  - exists d'. rewrite Hr. simpl. by rewrite <- (assoc_L (++)).
Qed.

Lemma wake_all_spec d ids :
  drain_inv d ids →
  ∃ d', wake_all d = Some ((waiters d).*2, d') ∧ drain_inv d' ids ∧ waiters d' = [] ∧
    next_id d' = next_id d.
Proof. intros Hi. apply (wake_loop_spec _ d ids []); [done|lia]. Qed.

(** The kernel parks every fresh id. *)
Lemma enqueue_spec d ids l waker :
  drain_inv d ids → (next_id d < u64_max)%Z → ids !! l = None →
  ∃ d', enqueue d waker = (Park (next_id d), d') ∧ drain_inv d' (<[l := next_id d]> ids) ∧
    waiters d' = waiters d ++ [(next_id d, waker)] ∧ next_id d' = (next_id d + 1)%Z.
Proof.
  intros [Hq Hn Hp Hx Hids Hinj Hw] Hmax Hl. unfold enqueue, wait_step. rewrite Hp. simpl.
  rewrite wrap64_id by u64. eexists. split; [done|]. split; [|done].
  assert (Hold : ∀ i, i ∈ queue (rx_kernel d) → (i < next_id d)%Z).
  { intros i. rewrite <- Hq. intros ([j w] & -> & Hin)%list_elem_of_fmap.
    destruct (Hw j w Hin) as [l' Hl']. simpl. apply Hids in Hl'. lia. }
  split; simpl; try done.
  - by rewrite fmap_app, Hq.
  - apply NoDup_app. split_and!; [done| |apply NoDup_singleton].
    intros i Hin%Hold ->%list_elem_of_singleton. lia.
  - lia.
  - intros l' i. rewrite lookup_insert_Some. intros [[_ <-]|[_ H%Hids]]; lia.
  - intros l1 l2 i. rewrite !lookup_insert_Some.
    intros [[<- <-]|[_ H1]] [[<- ?]|[_ H2]]; try done; [by apply Hids in H2; lia|by apply Hids in H1; lia|].
    by eapply Hinj.
  - intros i w [Hin|Hin%list_elem_of_singleton]%elem_of_app.
    + destruct (Hw i w Hin) as [l' Hl']. exists l'. rewrite lookup_insert_ne; congruence.
    + simplify_eq. exists l. by rewrite lookup_insert_eq.
Qed.

(** Storing another waker changes that waker and nothing else. *)
Lemma refresh_spec d ids i waker :
  drain_inv d ids →
  let d' := refresh d i waker in
  drain_inv d' ids ∧ next_id d' = next_id d ∧ (waiters d').*1 = (waiters d).*1 ∧
  (∀ j w, j ≠ i → (j, w) ∈ waiters d' ↔ (j, w) ∈ waiters d) ∧
  (∀ w, (i, w) ∈ waiters d → (i, waker) ∈ waiters d').
Proof.
  intros Hi. pose proof Hi as [Hq Hn Hp Hx Hids Hinj Hw]. unfold refresh. pose proof (position_spec (waiters d) i) as Hpos.
  destruct (position (waiters d) i) as [n|]; cbv zeta.
  2: { split_and!; try done. intros w Hin. destruct Hpos. rewrite list_elem_of_fmap. by exists (i, w). }
  destruct Hpos as [w0 Hw0].
  assert (Halt : (alter (λ e, (e.1, waker)) n (waiters d)).*1 = (waiters d).*1).
  { apply list_eq. intros m. rewrite !list_lookup_fmap, list_lookup_alter. case_decide; [|done].
    subst. by rewrite Hw0. }
  assert (Hoth : ∀ j w, j ≠ i → (j, w) ∈ alter (λ e, (e.1, waker)) n (waiters d) ↔ (j, w) ∈ waiters d).
  { intros j w Hne. rewrite !list_elem_of_lookup. split; intros [m Hm]; exists m; revert Hm;
      rewrite list_lookup_alter; case_decide; try done; subst; rewrite Hw0; simpl; congruence. }
  assert (Hme : (i, waker) ∈ alter (λ e, (e.1, waker)) n (waiters d)).
  { apply list_elem_of_lookup. exists n. rewrite list_lookup_alter, decide_True by done. by rewrite Hw0. }
  split_and!; try done. split; simpl; try done; [by rewrite Halt|].
  intros j w Hin. destruct (decide (j = i)) as [->|Hne].
  - apply (Hw i w0). by eapply list_elem_of_lookup_2.
  - apply (Hw j w). by apply Hoth.
Qed.

(** Both withdrawals take out the id and its waker. *)
Lemma drain_withdraw_spec d ids l i :
  drain_inv d ids → ids !! l = Some i →
  drain_inv (withdraw d i) (delete l ids) ∧ next_id (withdraw d i) = next_id d ∧
  waiters (withdraw d i) = filter (λ e, e.1 ≠ i) (waiters d) ∧ withdraw_if d i = withdraw d i.
Proof.
  intros [Hq Hn Hp Hx Hids Hinj Hw] Hl. unfold withdraw, withdraw_if.
  destruct (remove_step (rx_kernel d) i) as [b k] eqn:Er.
  destruct (remove_step_spec _ _ _ _ Er) as (Hpk & Hqk & Hb).
  assert (Hnw : NoDup (waiters d).*1) by by rewrite Hq.
  assert (Hfil : remove_waker (waiters d) i = filter (λ e, e.1 ≠ i) (waiters d)) by by apply remove_waker_filter.
  split; [split; simpl|split; [done|split; [done|]]].
  - by rewrite remove_waker_ids, Hqk, Hq.
  - rewrite Hqk, remove_first_filter by done. by apply NoDup_filter.
  - by rewrite Hpk.
  - done.
  - intros l' j [_ H]%lookup_delete_Some. by eapply Hids.
  - intros l1 l2 j [_ H1]%lookup_delete_Some [_ H2]%lookup_delete_Some. by eapply Hinj.
  - intros j w. rewrite Hfil, list_elem_of_filter. simpl. intros [Hne Hin]. destruct (Hw j w Hin) as [l' Hl'].
    exists l'. rewrite lookup_delete_ne; [done|]. congruence.
  - destruct b; [done|]. f_equal. rewrite Hfil. symmetry. apply list_filter_id.
    intros [j w] Hin Hj. simpl in Hj. subst. assert (i ∈ queue (rx_kernel d)); [|naive_solver].
    rewrite <- Hq, list_elem_of_fmap. by exists (i, w).
Qed.

(** A future that is not queued leaves. *)
Lemma drain_inv_forget d ids l :
  drain_inv d ids → (∀ i, ids !! l = Some i → i ∉ (waiters d).*1) → drain_inv d (delete l ids).
Proof.
  intros [Hq Hn Hp Hx Hids Hinj Hw] Hl. split; try done.
  - intros l' j [_ H]%lookup_delete_Some. by eapply Hids.
  - intros l1 l2 j [_ H1]%lookup_delete_Some [_ H2]%lookup_delete_Some. by eapply Hinj.
  - intros j w Hin. destruct (Hw j w Hin) as [l' Hl']. exists l'. rewrite lookup_delete_ne; [done|].
    intros ->. apply (Hl j Hl'). rewrite list_elem_of_fmap. by exists (j, w).
Qed.

End lemmas.
(** ** The futures that wait in a pool

    [F] is the type of the futures of a channel, [pk] whether a future is parked and
    [fid] its id. *)

Section futures.
Context {F : Type} {fid : F → Z} {pk : F → bool}.
Implicit Types (fs : gmap nat F) (r : nat) (f : F).

Definition parked_ids fs : gmap nat Z := omap (λ f, if pk f then Some (fid f) else None) fs.

Lemma parked_ids_insert fs r f :
  parked_ids (<[r := f]> fs) =
  if pk f then <[r := fid f]> (parked_ids fs) else delete r (parked_ids fs).
Proof.
  apply map_eq. intros r'. unfold parked_ids. rewrite lookup_omap, lookup_insert.
  destruct (decide (r = r')) as [<-|Hne]; simpl.
  - destruct (pk f); [by rewrite lookup_insert_eq|by rewrite lookup_delete_eq].
  - destruct (pk f); [rewrite lookup_insert_ne by done|rewrite lookup_delete_ne by done];
      by rewrite lookup_omap.
Qed.

Lemma parked_ids_delete fs r : parked_ids (delete r fs) = delete r (parked_ids fs).
Proof. unfold parked_ids. by rewrite omap_delete. Qed.

Lemma parked_ids_lookup fs r f :
  fs !! r = Some f → parked_ids fs !! r = if pk f then Some (fid f) else None.
Proof. intros H. unfold parked_ids. rewrite lookup_omap, H. done. Qed.

Lemma parked_ids_inv fs r i :
  parked_ids fs !! r = Some i → ∃ f, fs !! r = Some f ∧ pk f = true ∧ fid f = i.
Proof.
  unfold parked_ids. rewrite lookup_omap. destruct (fs !! r) as [f|]; simpl; [|done].
  destruct (pk f) eqn:Hp; [|done]. intros [= <-]. by exists f.
Qed.

(** Changing a future but not its id. *)
Lemma parked_ids_same fs r f f' :
  fs !! r = Some f → pk f' = pk f → fid f' = fid f → parked_ids (<[r := f']> fs) = parked_ids fs.
Proof.
  intros H Hp Hid. rewrite parked_ids_insert, Hp, Hid. pose proof (parked_ids_lookup _ _ _ H) as Hl.
  destruct (pk f); [by apply insert_id|by apply delete_id].
Qed.

Lemma parked_ids_unparked fs r f :
  (∀ f0, fs !! r = Some f0 → pk f0 = false) → pk f = false → parked_ids (<[r := f]> fs) = parked_ids fs.
Proof.
  intros H Hp. rewrite parked_ids_insert, Hp. apply delete_id. unfold parked_ids. rewrite lookup_omap.
  destruct (fs !! r) as [f0|]; simpl; [by rewrite (H f0)|done].
Qed.

(** The future of another receiver has another id. *)
Lemma other_id d fs r r' f f' :
  drain_inv d (parked_ids fs) → fs !! r = Some f → fs !! r' = Some f' → r ≠ r' →
  pk f = true → pk f' = true → fid f ≠ fid f'.
Proof.
  intros Hd Hf Hf' Hne Hp Hp' Heq. apply Hne. eapply (di_inj _ _ Hd).
  - by rewrite (parked_ids_lookup _ _ _ Hf), Hp.
  - by rewrite (parked_ids_lookup _ _ _ Hf'), Hp', Heq.
Qed.

(** A future that is dropped leaves the pool, and nobody else does. *)
Definition leave d f : Drain := if pk f then withdraw d (fid f) else d.

Lemma leave_spec d fs r f :
  drain_inv d (parked_ids fs) → fs !! r = Some f →
  drain_inv (leave d f) (delete r (parked_ids fs)) ∧ next_id (leave d f) = next_id d ∧
  (∀ i w, (pk f = true → i ≠ fid f) → (i, w) ∈ waiters (leave d f) ↔ (i, w) ∈ waiters d) ∧
  (pk f = true → withdraw_if d (fid f) = withdraw d (fid f)).
Proof.
  intros Hd Hf. pose proof (parked_ids_lookup _ _ _ Hf) as Hl. unfold leave. destruct (pk f) eqn:Ep.
  - destruct (drain_withdraw_spec _ _ r (fid f) Hd Hl) as (Hp & Hn & Hw & Hif).
    split; [done|]. split; [done|]. split; [|done]. intros i w Hi. specialize (Hi eq_refl).
    rewrite Hw, list_elem_of_filter. simpl. naive_solver.
  - split; [by rewrite delete_id|]. by split_and!.
Qed.

Lemma leave_others d fs r f r' f' :
  drain_inv d (parked_ids fs) → fs !! r = Some f → fs !! r' = Some f' → r ≠ r' → pk f' = true →
  fid f' ∈ (waiters d).*1 ↔ fid f' ∈ (waiters (leave d f)).*1.
Proof.
  intros Hd Hf Hf' Hne Hp'. destruct (leave_spec d fs r f Hd Hf) as (_ & _ & Hw & _).
  rewrite !list_elem_of_fmap. split; intros ([i w] & Hi & Hin); exists (i, w); (split; [done|]);
    simpl in Hi; subst i; apply Hw; try done; intros Hp; symmetry; by eapply other_id.
Qed.

(** A poll that suspends: the future [f'] is in the pool with the new waker, and
    everybody else stays. *)
Record suspended d d' fs r f f' (waker : Z) : Prop := {
  su_inv : drain_inv d' (parked_ids (<[r := f']> fs));
  su_parked : pk f' = true;
  su_waker : (fid f', waker) ∈ waiters d';
  su_next : (next_id d ≤ next_id d' ≤ next_id d + 1)%Z;
  su_others : ∀ i w, i ≠ fid f' → (i, w) ∈ waiters d' ↔ (i, w) ∈ waiters d;
  su_mine : ∀ w, (fid f', w) ∈ waiters d → pk f = true ∧ fid f' = fid f;
  su_ids : ∀ r' f0, r' ≠ r → fs !! r' = Some f0 → pk f0 = true → fid f0 ≠ fid f';
}.

Lemma refresh_suspended d fs r f waker :
  drain_inv d (parked_ids fs) → fs !! r = Some f → pk f = true → fid f ∈ (waiters d).*1 →
  suspended d (refresh d (fid f) waker) fs r f f waker.
Proof.
  intros Hd Hf Hp Hin. destruct (refresh_spec d _ (fid f) waker Hd) as (Hd' & Hn' & _ & Hoth & Hme).
  split; try done; try lia.
  - by rewrite (parked_ids_same _ r f).
  - apply list_elem_of_fmap in Hin as ([i w] & Hi & Hin). simpl in Hi. subst i. by apply (Hme w).
  - intros r' f0 Hne Hf0 Hp0. by eapply (other_id d fs r' r).
Qed.

Lemma enqueue_suspended d fs r f f' waker :
  drain_inv d (parked_ids fs) → fs !! r = Some f → pk f = false → (next_id d < u64_max)%Z →
  fid f' = next_id d → pk f' = true →
  ∃ d', enqueue d waker = (Park (next_id d), d') ∧ suspended d d' fs r f f' waker.
Proof.
  intros Hd Hf Hp Hmax Hid Hp'. pose proof (parked_ids_lookup _ _ _ Hf) as Hl. rewrite Hp in Hl.
  destruct (enqueue_spec d _ r waker Hd Hmax Hl) as (d' & He & Hd' & Hw' & Hn'). exists d'. split; [done|].
  split; rewrite ?Hid; try done; try lia.
  - by rewrite parked_ids_insert, Hp', Hid.
  - rewrite Hw', elem_of_app, list_elem_of_singleton. by right.
  - intros i w Hne. rewrite Hw', elem_of_app, list_elem_of_singleton.
    split; [intros [?|[= ? ?]]; [done|by destruct Hne]|by left].
  - intros w Hin. destruct (di_waiters _ _ Hd _ w Hin) as [l Hl']. apply (di_ids _ _ Hd) in Hl'. lia.
  - intros r' f0 Hne Hf0 Hp0. pose proof (parked_ids_lookup _ _ _ Hf0) as Hl0. rewrite Hp0 in Hl0.
    apply (di_ids _ _ Hd) in Hl0. lia.
Qed.

(** The ids of the others are queued as before. *)
Lemma suspended_others d d' fs r f f' waker r' f0 :
  suspended d d' fs r f f' waker → r' ≠ r → fs !! r' = Some f0 → pk f0 = true →
  fid f0 ∈ (waiters d).*1 ↔ fid f0 ∈ (waiters d').*1.
Proof.
  intros Hs Hne Hf0 Hp0. pose proof (su_ids _ _ _ _ _ _ _ Hs r' f0 Hne Hf0 Hp0) as Hi.
  rewrite !list_elem_of_fmap. split; intros ([i w] & Hiw & Hin'); exists (i, w); (split; [done|]);
    simpl in Hiw; subst i; by apply (su_others _ _ _ _ _ _ _ Hs).
Qed.

(** Who is queued is a future that is parked. *)
Lemma waiter_future d fs i w :
  drain_inv d (parked_ids fs) → (i, w) ∈ waiters d → ∃ r f, fs !! r = Some f ∧ pk f = true ∧ fid f = i.
Proof. intros Hd Hin. destruct (di_waiters _ _ Hd i w Hin) as [r Hr]. exists r. by apply parked_ids_inv. Qed.

End futures.
Arguments parked_ids {F} fid pk fs.
Arguments leave {F} fid pk d f.
Arguments suspended {F} fid pk d d' fs r f f' waker.
End DrainPool.
