(* ===== verification/Watch.v ===== *)
(** * Watch: the value with a version of [lion-utility/src/sync/watch.rs]

    One shared value, a version that counts the publications ([watch_kernel.rs]), and
    the pool of the receivers that wait for a change.  [wait_for] is an async function:
    it takes the lock to test the predicate, waits for a change, and takes the lock
    again to borrow the value; between two locks other threads may run, so that each
    is an action of its own. *)

From S2P Require Import Prelude UtilityLog Waiter DrainPool.
Import Waiter DrainPool.

Module Watch.

(** ** The kernel ([watch_kernel.rs]) *)

Record WatchKernel := mkKernel { version : Z; vsent : nat }.

Definition w_wf (k : WatchKernel) : Prop := version k = (1 + Z.of_nat (vsent k))%Z.

Definition new : WatchKernel := mkKernel 1 0.
Definition send_step k : WatchKernel := mkKernel (wrap64 (version k + 1)) (vsent k + 1).
Definition changed_step k (seen : Z) : bool := negb (version k =? seen)%Z.

(** ** The channel ([watch.rs]) *)

Record WatchInner (T : Type) := mkInner {
  pool : Drain;
  value : T;
  wkern : WatchKernel;
  tx_dropped : bool;
}.
Arguments mkInner {T} _ _ _ _.
Arguments pool {T} _.
Arguments value {T} _.
Arguments wkern {T} _.
Arguments tx_dropped {T} _.

(** Where a future of a receiver is.  A [Changed] is always in [PhChanged]; a
    [wait_for] tests its predicate, waits, and borrows. *)
Inductive phase := PhCheck | PhChanged | PhTake.

Record Fut (T : Type) := mkFut {
  fut_id : Z;
  parked : bool;
  finished : bool;
  pred : option (T → bool);
  ph : phase;
}.
Arguments mkFut {T} _ _ _ _ _.
Arguments fut_id {T} _.
Arguments parked {T} _.
Arguments finished {T} _.
Arguments pred {T} _.
Arguments ph {T} _.

Section ops.
Context {T : Type}.
Implicit Types (g : WatchInner T) (f : Fut T) (v : T) (seen waker : Z).

Definition set_pool g d : WatchInner T := mkInner d (value g) (wkern g) (tx_dropped g).

Definition channel (init : T) : WatchInner T := mkInner empty_pool init new false.

(** The critical section of [send], [send_replace] and [send_modify]. *)
Definition publish g v : option (list Z * WatchInner T) :=
  '(ws, d) ← wake_all (pool g);
  Some (ws, mkInner d v (send_step (wkern g)) (tx_dropped g)).

Definition send g v : option (list Z * WatchInner T) := publish g v.
Definition send_replace g v : option (T * list Z * WatchInner T) :=
  '(ws, g') ← publish g v; Some (value g, ws, g').
Definition send_modify g (h : T → T) : option (list Z * WatchInner T) := publish g (h (value g)).

Definition subscribe g : Z := version (wkern g).

(** [Sender::drop] *)
Definition drop_sender g : option (list Z * WatchInner T) :=
  '(ws, d) ← wake_all (pool g);
  Some (ws, mkInner d (value g) (wkern g) true).

(** [Receiver::has_changed]; [None] is [RecvError]. *)
Definition has_changed g seen : option bool :=
  if tx_dropped g && (version (wkern g) =? seen)%Z then None
  else Some (negb (version (wkern g) =? seen)%Z).

Inductive poll_result := COk | CErr | CPending.

(** [Changed::poll]; the last component is the version the receiver has seen. *)
Fixpoint changed_loop (fuel : nat) g f seen waker : option (poll_result * WatchInner T * Fut T * Z) :=
  match fuel with
  | 0 => None
  | S fuel' =>
      if negb (version (wkern g) =? seen)%Z then Some (COk, g, f, version (wkern g))
      else if tx_dropped g then Some (CErr, g, f, seen)
      else if parked f then Some (CPending, set_pool g (refresh (pool g) (fut_id f) waker), f, seen)
      else
        match enqueue (pool g) waker with
        | (Ready, d) => changed_loop fuel' (set_pool g d) f seen waker
        | (Park _, d) =>
            Some (CPending, set_pool g d,
                  mkFut (next_id (pool g)) true (finished f) (pred f) (ph f), seen)
        end
  end.
Definition changed_poll g f seen waker : option (poll_result * WatchInner T * Fut T * Z) :=
  changed_loop (S (Z.to_nat (permit (rx_kernel (pool g))))) g f seen waker.

(** [Changed::drop] *)
Definition drop_changed g f : WatchInner T :=
  if parked f then set_pool g (withdraw_if (pool g) (fut_id f)) else g.

(** [wait_for], the test under the first lock: matched, closed, or wait. *)
Inductive check_result := Matched | CheckErr | MustWait.
Definition wait_check g (p : T → bool) : check_result :=
  if p (value g) then Matched else if tx_dropped g then CheckErr else MustWait.

End ops.

(** ** A channel, its receivers and their futures *)

(** A receiver has at most one future, which borrows it; both have the same index.
    [published] are all the values so far, the first one included. *)
Record Sys (T : Type) := mkSys {
  inner : WatchInner T;
  tx_alive : bool;
  receivers : gmap nat Z;
  futs : gmap nat (Fut T);
  wakes : list Z;
  published : list T;
}.
Arguments mkSys {T} _ _ _ _ _ _.
Arguments inner {T} _.
Arguments tx_alive {T} _.
Arguments receivers {T} _.
Arguments futs {T} _.
Arguments wakes {T} _.
Arguments published {T} _.

Inductive action (T : Type) :=
  | Send (v : T) | SendModify (h : T → T) | DropSender
  | Subscribe (r : nat) | CloneRx (r r' : nat) | DropRx (r : nat) | BorrowAndUpdate (r : nat)
  | NewChanged (r : nat) | NewWaitFor (r : nat) (p : T → bool)
  | PollChanged (r : nat) (waker : Z) | WaitCheck (r : nat) | WaitTake (r : nat) | DropFut (r : nat).
Arguments Send {T} _.
Arguments SendModify {T} _.
Arguments DropSender {T}.
Arguments Subscribe {T} _.
Arguments CloneRx {T} _ _.
Arguments DropRx {T} _.
Arguments BorrowAndUpdate {T} _.
Arguments NewChanged {T} _.
Arguments NewWaitFor {T} _ _.
Arguments PollChanged {T} _ _.
Arguments WaitCheck {T} _.
Arguments WaitTake {T} _.
Arguments DropFut {T} _.

(** What an action returned to its caller. *)
Inductive outcome (T : Type) := Nothing | Changed (res : poll_result) | Failed | Borrowed (v : T).
Arguments Nothing {T}.
Arguments Changed {T} _.
Arguments Failed {T}.
Arguments Borrowed {T} _.

Section sys.
Context {T : Type}.
Implicit Types (s : Sys T) (g : WatchInner T) (f : Fut T) (r : nat).

Definition init_sys (v : T) (r : nat) : Sys T := mkSys (channel v) true {[r := 1%Z]} ∅ [] [v].

Definition set_rx s m : Sys T := mkSys (inner s) (tx_alive s) m (futs s) (wakes s) (published s).
Definition set_futs s m : Sys T := mkSys (inner s) (tx_alive s) (receivers s) m (wakes s) (published s).

Definition finish f : Fut T := mkFut (fut_id f) (parked f) true (pred f) (ph f).

(** The receiver is there, and no future borrows it. *)
Definition free s r : option Z := match futs s !! r with None => receivers s !! r | Some _ => None end.

(** A poll of the change that a future waits for. *)
Definition poll_step s r f seen waker : option (outcome T * Sys T) :=
  '(res, g, f', seen') ← changed_poll (inner s) f seen waker;
  let s1 := mkSys g (tx_alive s) (<[r := seen']> (receivers s)) (futs s) (wakes s) (published s) in
  let left_ := mkSys (drop_changed g f') (tx_alive s) (<[r := seen']> (receivers s)) (futs s) (wakes s) (published s) in
  Some match res, pred f' with
       | CPending, _ => (Changed CPending, set_futs s1 (<[r := f']> (futs s)))
       | _, None => (Changed res, set_futs s1 (<[r := finish f']> (futs s)))
       | COk, Some p => (Nothing, set_futs left_ (<[r := mkFut 0 false false (Some p) PhCheck]> (futs s)))
       | CErr, Some p => (Failed, set_futs left_ (<[r := mkFut 0 false true (Some p) PhCheck]> (futs s)))
       end.

Definition check_step s r f p : outcome T * Sys T :=
  match wait_check (inner s) p with
  | Matched => (Nothing, set_futs s (<[r := mkFut 0 false false (Some p) PhTake]> (futs s)))
  | CheckErr => (Failed, set_futs s (<[r := finish f]> (futs s)))
  | MustWait => (Nothing, set_futs s (<[r := mkFut 0 false false (Some p) PhChanged]> (futs s)))
  end.

Definition sys_step s (a : action T) : option (outcome T * Sys T) :=
  match a with
  | Send v =>
      if tx_alive s then
        '(ws, g) ← send (inner s) v;
        Some (Nothing, mkSys g true (receivers s) (futs s) (wakes s ++ ws) (published s ++ [v]))
      else None
  | SendModify h =>
      if tx_alive s then
        '(ws, g) ← send_modify (inner s) h;
        Some (Nothing, mkSys g true (receivers s) (futs s) (wakes s ++ ws) (published s ++ [h (value (inner s))]))
      else None
  | DropSender =>
      if tx_alive s then
        '(ws, g) ← drop_sender (inner s);
        Some (Nothing, mkSys g false (receivers s) (futs s) (wakes s ++ ws) (published s))
      else None
  | Subscribe r =>
      if tx_alive s then
        match receivers s !! r with
        | None => Some (Nothing, set_rx s (<[r := subscribe (inner s)]> (receivers s)))
        | Some _ => None
        end
      else None
  | CloneRx r r' =>
      seen ← free s r;
      match receivers s !! r' with
      | None => Some (Nothing, set_rx s (<[r' := seen]> (receivers s)))
      | Some _ => None
      end
  | DropRx r => _ ← free s r; Some (Nothing, set_rx s (delete r (receivers s)))
  | BorrowAndUpdate r =>
      _ ← free s r;
      Some (Borrowed (value (inner s)), set_rx s (<[r := version (wkern (inner s))]> (receivers s)))
  | NewChanged r =>
      _ ← free s r; Some (Nothing, set_futs s (<[r := mkFut 0 false false None PhChanged]> (futs s)))
  | NewWaitFor r p =>
      _ ← free s r; Some (Nothing, set_futs s (<[r := mkFut 0 false false (Some p) PhCheck]> (futs s)))
  | PollChanged r waker =>
      f ← futs s !! r; seen ← receivers s !! r;
      match finished f, ph f with
      | false, PhChanged => poll_step s r f seen waker
      | _, _ => None
      end
  | WaitCheck r =>
      f ← futs s !! r; p ← pred f;
      match finished f, ph f with
      | false, PhCheck => Some (check_step s r f p)
      | _, _ => None
      end
  | WaitTake r =>
      f ← futs s !! r;
      match finished f, ph f with
      | false, PhTake =>
          Some (Borrowed (value (inner s)),
                set_futs (set_rx s (<[r := version (wkern (inner s))]> (receivers s))) (<[r := finish f]> (futs s)))
      | _, _ => None
      end
  | DropFut r =>
      f ← futs s !! r;
      Some (Nothing, mkSys (drop_changed (inner s) f) (tx_alive s) (receivers s) (delete r (futs s))
                       (wakes s) (published s))
  end.

Fixpoint sys_run s (acts : list (action T)) : option (list (outcome T) * Sys T) :=
  match acts with
  | [] => Some ([], s)
  | a :: acts' =>
      '(o, s1) ← sys_step s a; '(os, s2) ← sys_run s1 acts'; Some (o :: os, s2)
  end.

(** The guard of an action. *)
Definition enabled s (a : action T) : Prop :=
  match a with
  | Send _ | SendModify _ | DropSender => tx_alive s = true
  | Subscribe r => tx_alive s = true ∧ receivers s !! r = None
  | CloneRx r r' => is_Some (free s r) ∧ receivers s !! r' = None
  | DropRx r | BorrowAndUpdate r | NewChanged r | NewWaitFor r _ => is_Some (free s r)
  | PollChanged r _ => ∃ f, futs s !! r = Some f ∧ finished f = false ∧ ph f = PhChanged
  | WaitCheck r => ∃ f, futs s !! r = Some f ∧ finished f = false ∧ ph f = PhCheck
  | WaitTake r => ∃ f, futs s !! r = Some f ∧ finished f = false ∧ ph f = PhTake
  | DropFut r => is_Some (futs s !! r)
  end.
End sys.
End Watch.
