(* ===== verification/WatchSpec.v ===== *)
(** * WatchSpec: what the watch channel promises

    Versions count publications, a waiting receiver is woken by every publication
    and by the drop of the sender, and a poll says whether there was a change.  The
    value that [wait_for] returns need not satisfy its predicate. *)

From S2P Require Import Prelude UtilityLog Waiter DrainPool Watch.
Import Waiter DrainPool Watch.

Section inv.
Context {T : Type}.
Implicit Types (s : Sys T) (g : WatchInner T) (f : Fut T) (fs : gmap nat (Fut T)) (r : nat).
Implicit Types (seen waker : Z) (a : action T).

(** A queued future waits: its receiver has seen the version, and the sender lives;
    a parked one that is not queued has something to see, or is done. *)
Definition fut_ok g f seen : Prop :=
  (parked f = true → ph f = PhChanged) ∧
  (ph f ≠ PhChanged → is_Some (pred f)) ∧
  (parked f = true →
    if decide (fut_id f ∈ (waiters (pool g)).*1)
    then seen = version (wkern g) ∧ tx_dropped g = false ∧ finished f = false
    else finished f = true ∨ seen ≠ version (wkern g) ∨ tx_dropped g = true).

Record watch_inv s : Prop := {
  wi_pool : drain_inv (pool (inner s)) (parked_ids fut_id parked (futs s));
  wi_version : version (wkern (inner s)) = Z.of_nat (length (published s));
  wi_kernel : w_wf (wkern (inner s));
  wi_value : last (published s) = Some (value (inner s));
  wi_dropped : tx_dropped (inner s) = negb (tx_alive s);
  wi_seen : ∀ r seen, receivers s !! r = Some seen → (1 ≤ seen ≤ version (wkern (inner s)))%Z;
  wi_futs : ∀ r f, futs s !! r = Some f →
    ∃ seen, receivers s !! r = Some seen ∧ fut_ok (inner s) f seen;
}.

Definition woken_in s s' (w : Z) : Prop := ∃ l, wakes s' = wakes s ++ l ∧ w ∈ l.

(** Only its own future takes out a waker without waking it. *)
Definition kept s a s' : Prop :=
  ∀ i w, (i, w) ∈ waiters (pool (inner s)) →
    (∃ r f, futs s !! r = Some f ∧ parked f = true ∧ fut_id f = i ∧
       (a = DropFut r ∨ ∃ w', a = PollChanged r w')) ∨
    (i, w) ∈ waiters (pool (inner s')) ∨ woken_in s s' w.

(** The counters grow by at most one. *)
Definition counters s s' : Prop :=
  (version (wkern (inner s')) ≤ version (wkern (inner s)) + 1)%Z ∧
  (next_id (pool (inner s')) ≤ next_id (pool (inner s)) + 1)%Z.

Definition room s (n : nat) : Prop :=
  (version (wkern (inner s)) + Z.of_nat n ≤ u64_max)%Z ∧
  (next_id (pool (inner s)) + Z.of_nat n ≤ u64_max)%Z.

Lemma unparked_fut_ok g f seen :
  parked f = false → (ph f ≠ PhChanged → is_Some (pred f)) → fut_ok g f seen.
Proof. intros Hp Hph. split; [congruence|]. split; [done|congruence]. Qed.

(** A future is as good in another state, if its id is queued in both or in neither. *)
Lemma watch_fut_ok_ext g g' f seen :
  fut_ok g f seen → version (wkern g') = version (wkern g) → tx_dropped g' = tx_dropped g →
  (parked f = true → fut_id f ∈ (waiters (pool g)).*1 ↔ fut_id f ∈ (waiters (pool g')).*1) →
  fut_ok g' f seen.
Proof.
  intros (H1 & H2 & H3) Hv Hd Hq. split; [done|]. split; [done|]. intros Hp. rewrite Hv, Hd.
  specialize (H3 Hp). specialize (Hq Hp). repeat case_decide; naive_solver.
Qed.

(** ** Publications *)

Lemma watch_woken_all_kept s a s' :
  wakes s' = wakes s ++ (waiters (pool (inner s))).*2 → kept s a s'.
Proof.
  intros Hw i w Hin. do 2 right. eexists. split; [exact Hw|]. rewrite list_elem_of_fmap. by exists (i, w).
Qed.

(** After a wake of all, a parked future has something to see. *)
Lemma watch_fut_ok_woken g g' f seen :
  fut_ok g f seen → waiters (pool g') = [] →
  (seen = version (wkern g) → tx_dropped g = false → seen ≠ version (wkern g') ∨ tx_dropped g' = true) →
  (seen ≠ version (wkern g) → seen ≠ version (wkern g')) →
  (tx_dropped g = true → tx_dropped g' = true) → fut_ok g' f seen.
Proof.
  intros (H1 & H2 & H3) Hw Hnew Hold Hd. split; [done|]. split; [done|]. intros Hp.
  rewrite decide_False by (rewrite Hw; apply not_elem_of_nil). specialize (H3 Hp). case_decide; naive_solver.
Qed.

Lemma publish_ok s v :
  watch_inv s → room s 1 → tx_alive s = true →
  ∃ ws g, publish (inner s) v = Some (ws, g) ∧
    let s' := mkSys g true (receivers s) (futs s) (wakes s ++ ws) (published s ++ [v]) in
    watch_inv s' ∧ ws = (waiters (pool (inner s))).*2 ∧ waiters (pool g) = [] ∧ counters s s'.
Proof.
  intros [Hp Hv Hk Hl Hd Hsn Hf] [Hr1 Hr2] Ha. unfold publish.
  destruct (wake_all_spec _ _ Hp) as (d & -> & Hp' & Hw' & Hn'). cbn [mbind option_bind].
  eexists _, _. split; [done|]. cbv zeta.
  assert (Hver : wrap64 (version (wkern (inner s)) + 1) = (version (wkern (inner s)) + 1)%Z).
  { apply wrap64_id. u64. }
  split; [|split; [done|split; [done|split; simpl; rewrite ?Hver; lia]]].
  rewrite Ha in Hd. split; simpl; rewrite ?Hver.
  - done.
  - rewrite length_app. simpl. lia.
  - unfold w_wf in *. simpl. lia.
  - by rewrite last_snoc.
  - done.
  - intros r seen Hr. specialize (Hsn r seen Hr). lia.
  - intros r f Hrf. destruct (Hf r f Hrf) as (seen & Hr & Hok). exists seen. split; [done|].
    specialize (Hsn r seen Hr). eapply watch_fut_ok_woken; [exact Hok|..]; simpl; rewrite ?Hver; try done.
    + intros -> _. left. lia.
    + intros _. lia.
Qed.

Lemma watch_drop_sender_ok s :
  watch_inv s → tx_alive s = true →
  ∃ ws g, drop_sender (inner s) = Some (ws, g) ∧
    let s' := mkSys g false (receivers s) (futs s) (wakes s ++ ws) (published s) in
    watch_inv s' ∧ ws = (waiters (pool (inner s))).*2 ∧ waiters (pool g) = [] ∧ counters s s'.
Proof.
  intros [Hp Hv Hk Hl Hd Hsn Hf] Ha. unfold drop_sender.
  destruct (wake_all_spec _ _ Hp) as (d & -> & Hp' & Hw' & Hn'). cbn [mbind option_bind].
  eexists _, _. split; [done|]. cbv zeta. split; [|split; [done|split; [done|split; simpl; lia]]].
  split; simpl; try done. intros r f Hrf. destruct (Hf r f Hrf) as (seen & Hr & Hok). exists seen.
  split; [done|]. eapply watch_fut_ok_woken; [exact Hok|..]; simpl; try done. intros _ _. by right.
Qed.

(** ** Polls *)

(** Dropping a future of a receiver is leaving the pool. *)
Lemma drop_changed_eq s r f :
  watch_inv s → futs s !! r = Some f →
  drop_changed (inner s) f = set_pool (inner s) (leave fut_id parked (pool (inner s)) f).
Proof.
  intros Hs Hf. destruct (leave_spec _ _ r f (wi_pool _ Hs) Hf) as (_ & _ & _ & Hif).
  unfold drop_changed, leave in *. destruct (parked f); [by rewrite Hif|by destruct (inner s)].
Qed.

(** The futures of the others keep their places when one leaves. *)
Lemma drop_changed_others s r f r' f' seen :
  watch_inv s → futs s !! r = Some f → futs s !! r' = Some f' → r ≠ r' →
  fut_ok (inner s) f' seen → fut_ok (drop_changed (inner s) f) f' seen.
Proof.
  intros Hs Hf Hf' Hne Hok. rewrite (drop_changed_eq s r f Hs Hf).
  eapply watch_fut_ok_ext; [exact Hok|done|done|]. intros Hp'. simpl. by eapply leave_others; [apply Hs|..].
Qed.

(** What a poll finds. *)
Lemma changed_poll_spec s r f seen waker :
  watch_inv s → room s 1 → futs s !! r = Some f → receivers s !! r = Some seen →
  finished f = false → ph f = PhChanged →
  if decide (seen = version (wkern (inner s))) then
    if tx_dropped (inner s) then changed_poll (inner s) f seen waker = Some (CErr, inner s, f, seen)
    else ∃ d f', changed_poll (inner s) f seen waker = Some (CPending, set_pool (inner s) d, f', seen) ∧
      suspended fut_id parked (pool (inner s)) d (futs s) r f f' waker ∧
      finished f' = false ∧ ph f' = PhChanged
  else changed_poll (inner s) f seen waker = Some (COk, inner s, f, version (wkern (inner s))).
Proof.
  intros Hs [_ Hr2] Hf Hr Hfin Hph. pose proof Hs as [Hp Hv Hk Hl Hd Hsn Hfs].
  unfold changed_poll. simpl. case_decide as Hseen.
  2: { destruct (Z.eqb_spec (version (wkern (inner s))) seen); [congruence|]. done. }
  subst seen. rewrite Z.eqb_refl. simpl. destruct (tx_dropped (inner s)) eqn:Ed; [done|].
  destruct (Hfs r f Hf) as (seen & Hr' & _ & _ & Hq). rewrite Hr in Hr'. injection Hr' as <-.
  destruct (parked f) eqn:Epk.
  - eexists _, f. split; [done|]. split; [|done]. apply refresh_suspended; try done.
    specialize (Hq eq_refl). case_decide as Hin; [done|]. destruct Hq as [?|[?|?]]; congruence.
  - destruct (enqueue_suspended (pool (inner s)) (futs s) r f
      (mkFut (next_id (pool (inner s))) true (finished f) (pred f) (ph f)) waker Hp) as (d & -> & Hsu);
      try done; [lia|]. by eexists d, _.
Qed.

(** A receiver whose future is not parked changes, and its future with it. *)
Lemma unparked_ok s r seen f :
  watch_inv s → (∀ f0, futs s !! r = Some f0 → parked f0 = false) → parked f = false →
  (ph f ≠ PhChanged → is_Some (pred f)) → (1 ≤ seen ≤ version (wkern (inner s)))%Z →
  watch_inv (set_futs (set_rx s (<[r := seen]> (receivers s))) (<[r := f]> (futs s))).
Proof.
  intros [Hp Hv Hk Hl Hd Hsn Hf] H0 Hpk Hph Hseen. split; simpl; try done.
  - by rewrite parked_ids_unparked.
  - intros r' x. rewrite lookup_insert_Some. intros [[<- <-]|[_ Hr']]; [done|by eapply Hsn].
  - intros r' f'. rewrite !lookup_insert_Some. intros [[<- <-]|[Hne Hr']].
    + exists seen. rewrite lookup_insert_eq. split; [done|]. by apply unparked_fut_ok.
    + rewrite lookup_insert_ne by done. by eapply Hf.
Qed.

(** The future of a receiver that stays. *)
Lemma set_fut_ok s r seen f :
  watch_inv s → receivers s !! r = Some seen → (∀ f0, futs s !! r = Some f0 → parked f0 = false) →
  parked f = false → (ph f ≠ PhChanged → is_Some (pred f)) →
  watch_inv (set_futs s (<[r := f]> (futs s))).
Proof.
  intros Hs Hr H0 Hpk Hph. pose proof (unparked_ok s r seen f Hs H0 Hpk Hph (wi_seen _ Hs _ _ Hr)) as H.
  unfold set_rx in H. rewrite insert_id in H by done. by destruct s.
Qed.

(** A receiver without a future appears, changes or goes. *)
Lemma watch_set_rx_ok s r o :
  watch_inv s → futs s !! r = None →
  match o with Some seen => (1 ≤ seen ≤ version (wkern (inner s)))%Z | None => True end →
  watch_inv (set_rx s (partial_alter (λ _, o) r (receivers s))).
Proof.
  intros [Hp Hv Hk Hl Hd Hsn Hf] H0 Ho. split; simpl; try done.
  - intros r' x. destruct (decide (r = r')) as [<-|Hne].
    + rewrite lookup_partial_alter_eq. by intros ->.
    + rewrite lookup_partial_alter_ne by done. apply Hsn.
  - intros r' f' Hr'. rewrite lookup_partial_alter_ne by congruence. by eapply Hf.
Qed.

Lemma quiet_kept s a s' : pool (inner s') = pool (inner s) → kept s a s'.
Proof. intros Hp i w Hin. right; left. by rewrite Hp. Qed.

Lemma quiet_counters s s' : inner s' = inner s → counters s s'.
Proof. intros H. unfold counters. rewrite H. split; lia. Qed.

Lemma watch_free_spec s r seen : free s r = Some seen → futs s !! r = None ∧ receivers s !! r = Some seen.
Proof. unfold free. by destruct (futs s !! r). Qed.

(** The future of [r] leaves the pool, and is replaced by one that is not parked. *)
Lemma watch_leave_ok s r f f' seen :
  watch_inv s → futs s !! r = Some f → parked f' = false → (ph f' ≠ PhChanged → is_Some (pred f')) →
  (1 ≤ seen ≤ version (wkern (inner s)))%Z →
  watch_inv (mkSys (drop_changed (inner s) f) (tx_alive s) (<[r := seen]> (receivers s))
               (<[r := f']> (futs s)) (wakes s) (published s)).
Proof.
  intros Hs Hf Hpk Hph Hseen. pose proof Hs as [Hp Hv Hk Hl Hd Hsn Hfs].
  destruct (leave_spec _ _ r f Hp Hf) as (Hp' & _).
  split; simpl; rewrite ?(drop_changed_eq s r f Hs Hf); try done.
  - by rewrite parked_ids_insert, Hpk.
  - intros r' x. rewrite lookup_insert_Some. intros [[<- <-]|[_ Hr']]; [done|by eapply Hsn].
  - intros r' f0. rewrite !lookup_insert_Some. intros [[<- <-]|[Hne Hr']].
    + exists seen. rewrite lookup_insert_eq. split; [done|]. by apply unparked_fut_ok.
    + rewrite lookup_insert_ne by done. destruct (Hfs r' f0 Hr') as (x & Hx & Hok). exists x.
      split; [done|]. rewrite <- (drop_changed_eq s r f Hs Hf). by eapply drop_changed_others.
Qed.

Lemma leave_kept s r f a s' :
  watch_inv s → futs s !! r = Some f → (a = DropFut r ∨ ∃ w', a = PollChanged r w') →
  pool (inner s') = pool (drop_changed (inner s) f) → kept s a s'.
Proof.
  intros Hs Hf Ha Hp i w Hin. destruct (leave_spec _ _ r f (wi_pool _ Hs) Hf) as (_ & _ & Hw & _).
  destruct (decide (parked f = true ∧ fut_id f = i)) as [[Hpk Hi]|Hn].
  - left. by exists r, f.
  - right; left. rewrite Hp, (drop_changed_eq s r f Hs Hf). apply Hw; [|done]. intros Hpk ->. by apply Hn.
Qed.

(** A future that is done stays where it is. *)
Lemma watch_finish_ok s r f seen seen' :
  watch_inv s → futs s !! r = Some f → receivers s !! r = Some seen →
  (seen ≠ version (wkern (inner s)) ∨ tx_dropped (inner s) = true) →
  (1 ≤ seen' ≤ version (wkern (inner s)))%Z →
  watch_inv (mkSys (inner s) (tx_alive s) (<[r := seen']> (receivers s)) (<[r := finish f]> (futs s))
               (wakes s) (published s)).
Proof.
  intros Hs Hf Hr Hdone Hseen. pose proof Hs as [Hp Hv Hk Hl Hd Hsn Hfs]. split; simpl; try done.
  - by rewrite (parked_ids_same _ r f).
  - intros r' x. rewrite lookup_insert_Some. intros [[<- <-]|[_ Hr']]; [done|by eapply Hsn].
  - intros r' f0. rewrite !lookup_insert_Some. intros [[<- <-]|[Hne Hr']].
    + exists seen'. rewrite lookup_insert_eq. split; [done|].
      destruct (Hfs r f Hf) as (x & Hx & H1 & H2 & H3). rewrite Hr in Hx. injection Hx as <-.
      split; [done|]. split; [done|]. intros Hpk. simpl in Hpk |- *. specialize (H3 Hpk).
      case_decide; [|by left]. destruct H3 as (? & ? & _), Hdone; congruence.
    + rewrite lookup_insert_ne by done. by eapply Hfs.
Qed.

(** A poll that waits. *)
Lemma watch_pending_ok s r f f' d seen waker :
  watch_inv s → receivers s !! r = Some seen → seen = version (wkern (inner s)) →
  tx_dropped (inner s) = false → suspended fut_id parked (pool (inner s)) d (futs s) r f f' waker →
  finished f' = false → ph f' = PhChanged →
  watch_inv (mkSys (set_pool (inner s) d) (tx_alive s) (<[r := seen]> (receivers s))
               (<[r := f']> (futs s)) (wakes s) (published s)).
Proof.
  intros [Hp Hv Hk Hl Hd Hsn Hfs] Hr Hseen Hdr Hsu Hfin Hph.
  rewrite (insert_id (receivers s)) by done. split; simpl; try done; [apply Hsu|].
  intros r' f0. rewrite lookup_insert_Some. intros [[<- <-]|[Hne Hr']].
  - exists seen. split; [done|]. split; [done|]. split; [congruence|]. intros _. simpl.
    rewrite decide_True; [by split|]. rewrite list_elem_of_fmap. exists (fut_id f', waker).
    split; [done|apply Hsu].
  - destruct (Hfs r' f0 Hr') as (x & Hx & Hok). exists x. split; [done|].
    eapply watch_fut_ok_ext; [exact Hok|done|done|]. intros Hp0. by eapply suspended_others.
Qed.

(** What a poll of a change answers, and what the receiver has then seen. *)
Definition poll_answer s r f seen waker (o : outcome T) s' : Prop :=
  if decide (seen = version (wkern (inner s))) then
    if tx_dropped (inner s)
    then o = (match pred f with None => Changed CErr | Some _ => Failed end) ∧ receivers s' !! r = Some seen
    else o = Changed CPending ∧ receivers s' !! r = Some seen ∧
         ∃ i, (i, waker) ∈ waiters (pool (inner s'))
  else o = (match pred f with None => Changed COk | Some _ => Nothing end) ∧
       receivers s' !! r = Some (version (wkern (inner s))).

Lemma poll_ready_ok s r f seen seen' res waker :
  watch_inv s → futs s !! r = Some f → receivers s !! r = Some seen →
  (seen ≠ version (wkern (inner s)) ∨ tx_dropped (inner s) = true) →
  (1 ≤ seen' ≤ version (wkern (inner s)))%Z → res ≠ CPending →
  changed_poll (inner s) f seen waker = Some (res, inner s, f, seen') →
  ∃ s', poll_step s r f seen waker =
      Some (match pred f with None => Changed res | Some _ => match res with COk => Nothing | _ => Failed end end, s') ∧
    watch_inv s' ∧ kept s (PollChanged r waker) s' ∧ counters s s' ∧ receivers s' !! r = Some seen'.
Proof.
  intros Hs Hf Hr Hdone Hseen Hres Hpoll. unfold poll_step. rewrite Hpoll. cbn [mbind option_bind].
  pose proof (watch_finish_ok s r f seen seen' Hs Hf Hr Hdone Hseen) as Hfin.
  destruct (leave_spec _ _ r f (wi_pool _ Hs) Hf) as (_ & Hn & _).
  assert (Hcnt : ∀ x, inner x = drop_changed (inner s) f → counters s x).
  { intros x Hx. unfold counters. rewrite Hx, (drop_changed_eq s r f Hs Hf). simpl. rewrite Hn. split; lia. }
  assert (Hleave : ∀ b p x, (x ≠ PhChanged → is_Some p) →
    watch_inv (mkSys (drop_changed (inner s) f) (tx_alive s) (<[r := seen']> (receivers s))
      (<[r := mkFut 0 false b p x]> (futs s)) (wakes s) (published s))).
  { intros b p x Hpx. by eapply watch_leave_ok. }
  assert (Hkept : ∀ x, pool (inner x) = pool (drop_changed (inner s) f) → kept s (PollChanged r waker) x).
  { intros x Hx. eapply leave_kept; [done|done|right; by eexists|done]. }
  destruct res; [|..|done]; destruct (pred f) as [p|]; eexists; (split; [done|]);
    (split; [first [exact Hfin|by apply Hleave]|]);
    (split; [first [by apply quiet_kept|by apply Hkept]|]);
    (split; [first [by apply quiet_counters|by apply Hcnt]|]); apply lookup_insert_eq.
Qed.

Lemma poll_changed_ok s r f waker :
  watch_inv s → room s 1 → futs s !! r = Some f → finished f = false → ph f = PhChanged →
  ∃ seen o s', receivers s !! r = Some seen ∧ sys_step s (PollChanged r waker) = Some (o, s') ∧
    watch_inv s' ∧ kept s (PollChanged r waker) s' ∧ counters s s' ∧ poll_answer s r f seen waker o s'.
Proof.
  intros Hs Hroom Hf Hfin Hph. destruct (wi_futs _ Hs r f Hf) as (seen & Hr & _).
  pose proof (wi_seen _ Hs r seen Hr) as Hsn.
  pose proof (changed_poll_spec s r f seen waker Hs Hroom Hf Hr Hfin Hph) as Hp.
  exists seen. simpl. rewrite Hf, Hr. simpl. rewrite Hfin, Hph. unfold poll_answer.
  destruct (decide (seen = version (wkern (inner s)))) as [Heq|Hne].
  - destruct (tx_dropped (inner s)) eqn:Ed.
    + destruct (poll_ready_ok s r f seen seen CErr waker) as (s' & Hst & ? & ? & ? & ?); auto.
      eexists _, s'. by rewrite Hst.
    + destruct Hp as (d & f' & Hpoll & Hsu & Hf' & Hph').
      pose proof Hsu as [Hdr Hpk Hin Hnx Hoth Hme Hids].
      unfold poll_step. rewrite Hpoll. cbn [mbind option_bind].
      eexists _, _. split; [done|]. split; [done|]. split; [by apply (watch_pending_ok s r f f' d seen waker)|].
      split; [|split; [split; simpl; lia|split; [by destruct (pred f')|split; [apply lookup_insert_eq|by exists (fut_id f')]]]].
      intros i w Hin'. destruct (decide (i = fut_id f')) as [->|Hi].
      * destruct (Hme w Hin') as [Hpk0 Hid0]. left. exists r, f. split_and!; try done. right. by eexists.
      * right; left. simpl. by apply Hoth.
  - destruct (poll_ready_ok s r f seen (version (wkern (inner s))) COk waker) as (s' & Hst & ? & ? & ? & ?);
      auto; [lia|]. eexists _, s'. rewrite Hst. split_and!; try done.
Qed.

(** ** Every action *)

Definition step_ok s a : Prop :=
  ∃ o s', sys_step s a = Some (o, s') ∧ watch_inv s' ∧ kept s a s' ∧ counters s s'.

Lemma watch_quiet_ok s a o s' :
  sys_step s a = Some (o, s') → inner s' = inner s → watch_inv s' → step_ok s a.
Proof.
  intros Ha Hin Hs'. exists o, s'. split_and!; [done|done|apply quiet_kept; by rewrite Hin|by apply quiet_counters].
Qed.

Lemma version_pos s : watch_inv s → (1 ≤ version (wkern (inner s)))%Z.
Proof. intros Hs. pose proof (wi_kernel _ Hs) as Hk. unfold w_wf in Hk. lia. Qed.

Lemma watch_receiver_step_ok s a :
  watch_inv s → enabled s a →
  match a with
  | Subscribe _ | CloneRx _ _ | DropRx _ | BorrowAndUpdate _ | NewChanged _ | NewWaitFor _ _ => step_ok s a
  | _ => True
  end.
Proof.
  intros Hs Hen. pose proof (version_pos s Hs) as Hv.
  assert (Hno : ∀ r, receivers s !! r = None → futs s !! r = None).
  { intros r Hr. apply eq_None_not_Some. intros [f Hf]. destruct (wi_futs _ Hs r f Hf) as (x & ? & _). congruence. }
  assert (Hun : ∀ r, futs s !! r = None → ∀ f0, futs s !! r = Some f0 → parked f0 = false) by (intros; congruence).
  destruct a as [v|h| |r|r r'|r|r|r|r p|r w|r|r|r]; try done; simpl in Hen.
  - destruct Hen as [Ha Hr]. eapply watch_quiet_ok; simpl; [by rewrite Ha, Hr|done|].
    apply (watch_set_rx_ok s r (Some _)); auto. simpl. unfold subscribe. lia.
  - destruct Hen as [[x Hx] Hr']. pose proof (watch_free_spec _ _ _ Hx) as [_ Hr].
    eapply watch_quiet_ok; simpl; [by rewrite Hx; simpl; rewrite Hr'|done|].
    apply (watch_set_rx_ok s r' (Some _)); auto. by apply (wi_seen _ Hs r).
  - destruct Hen as [x Hx]. pose proof (watch_free_spec _ _ _ Hx) as [H0 _].
    eapply watch_quiet_ok; simpl; [by rewrite Hx|done|]. by apply (watch_set_rx_ok s r None).
  - destruct Hen as [x Hx]. pose proof (watch_free_spec _ _ _ Hx) as [H0 _].
    eapply watch_quiet_ok; simpl; [by rewrite Hx|done|]. apply (watch_set_rx_ok s r (Some _)); [done|done|]. simpl. lia.
  - destruct Hen as [x Hx]. pose proof (watch_free_spec _ _ _ Hx) as [H0 Hr].
    eapply watch_quiet_ok; simpl; [by rewrite Hx|done|]. apply (set_fut_ok s r x); simpl; try done; by apply Hun.
  - destruct Hen as [x Hx]. pose proof (watch_free_spec _ _ _ Hx) as [H0 Hr].
    eapply watch_quiet_ok; simpl; [by rewrite Hx|done|]. apply (set_fut_ok s r x); simpl; try done; by apply Hun.
Qed.

Lemma wait_step_ok s a :
  watch_inv s → enabled s a →
  match a with WaitCheck _ | WaitTake _ => step_ok s a | _ => True end.
Proof.
  intros Hs Hen. pose proof (version_pos s Hs) as Hv.
  destruct a as [v|h| |r|r r'|r|r|r|r p|r w|r|r|r]; try done; simpl in Hen;
    destruct Hen as (f & Hf & Hfin & Hph); destruct (wi_futs _ Hs r f Hf) as (x & Hr & H1 & H2 & _).
  - assert (Hpk : ∀ f0, futs s !! r = Some f0 → parked f0 = false).
    { intros f0 Hf0. rewrite Hf in Hf0. injection Hf0 as <-. destruct (parked f); [|done].
      rewrite H1 in Hph by done. done. }
    destruct (H2 ltac:(congruence)) as [p Hp].
    assert (Hst : sys_step s (WaitCheck r) = Some (check_step s r f p)).
    { simpl. rewrite Hf. simpl. rewrite Hp. simpl. by rewrite Hfin, Hph. }
    unfold check_step in Hst. destruct (wait_check (inner s) p); (eapply watch_quiet_ok; [exact Hst|done|]);
      (eapply set_fut_ok; [done|exact Hr|done|..]); try done.
    simpl. by apply Hpk.
  - assert (Hpk : ∀ f0, futs s !! r = Some f0 → parked f0 = false).
    { intros f0 Hf0. rewrite Hf in Hf0. injection Hf0 as <-. destruct (parked f); [|done].
      rewrite H1 in Hph by done. done. }
    eapply watch_quiet_ok; simpl; [rewrite Hf; simpl; rewrite Hfin, Hph; done|done|].
    apply unparked_ok; try done. exact (Hpk f Hf).
Qed.

Lemma drop_fut_ok s r : watch_inv s → is_Some (futs s !! r) → step_ok s (DropFut r).
Proof.
  intros Hs [f Hf]. pose proof Hs as [Hp Hv Hk Hl Hd Hsn Hfs].
  destruct (leave_spec _ _ r f Hp Hf) as (Hp' & Hn' & _).
  eexists _, _. split; [simpl; rewrite Hf; done|]. split; [|split].
  - split; simpl; rewrite ?(drop_changed_eq s r f Hs Hf); try done.
    + by rewrite parked_ids_delete.
    + intros r' f0 [Hne Hr']%lookup_delete_Some. destruct (Hfs r' f0 Hr') as (x & Hx & Hok). exists x.
      split; [done|]. rewrite <- (drop_changed_eq s r f Hs Hf). by eapply drop_changed_others.
  - eapply leave_kept; [done|done|by left|done].
  - unfold counters. simpl. rewrite (drop_changed_eq s r f Hs Hf). simpl. rewrite Hn'. split; lia.
Qed.

Lemma watch_step_ok s a : watch_inv s → room s 1 → enabled s a → step_ok s a.
Proof.
  intros Hs Hroom Hen. pose proof (watch_receiver_step_ok s a Hs Hen) as Hrx. pose proof (wait_step_ok s a Hs Hen) as Hwt.
  destruct a as [v|h| |r|r r'|r|r|r|r p|r w|r|r|r]; try done; simpl in Hen.
  - destruct (publish_ok s v Hs Hroom Hen) as (ws & g & Hp & Hs' & -> & _ & Hc).
    eexists _, _. split; [simpl; rewrite Hen; unfold send; rewrite Hp; done|].
    split; [exact Hs'|]. split; [by apply watch_woken_all_kept|exact Hc].
  - destruct (publish_ok s (h (value (inner s))) Hs Hroom Hen) as (ws & g & Hp & Hs' & -> & _ & Hc).
    eexists _, _. split; [simpl; rewrite Hen; unfold send_modify; rewrite Hp; done|].
    split; [exact Hs'|]. split; [by apply watch_woken_all_kept|exact Hc].
  - destruct (watch_drop_sender_ok s Hs Hen) as (ws & g & Hp & Hs' & -> & _ & Hc).
    eexists _, _. split; [simpl; rewrite Hen, Hp; done|].
    split; [exact Hs'|]. split; [by apply watch_woken_all_kept|exact Hc].
  - destruct Hen as (f & Hf & Hfin & Hph).
    destruct (poll_changed_ok s r f w Hs Hroom Hf Hfin Hph) as (seen & o & s' & _ & ? & ? & ? & ? & _).
    by exists o, s'.
  - by apply drop_fut_ok.
Qed.

Lemma watch_enabled s a o s' : watch_inv s → sys_step s a = Some (o, s') → enabled s a.
Proof.
  intros Hs. destruct a as [v|h| |r|r r'|r|r|r|r p|r w|r|r|r]; simpl; unfold free.
  - by destruct (tx_alive s).
  - by destruct (tx_alive s).
  - by destruct (tx_alive s).
  - destruct (tx_alive s), (receivers s !! r); by try done.
  - destruct (futs s !! r), (receivers s !! r), (receivers s !! r'); simpl; by try done; eauto.
  - destruct (futs s !! r), (receivers s !! r); simpl; by try done; eauto.
  - destruct (futs s !! r), (receivers s !! r); simpl; by try done; eauto.
  - destruct (futs s !! r), (receivers s !! r); simpl; by try done; eauto.
  - destruct (futs s !! r), (receivers s !! r); simpl; by try done; eauto.
  - destruct (futs s !! r) as [f|], (receivers s !! r); simpl; try done.
    destruct (finished f) eqn:E1, (ph f) eqn:E2; try done. by exists f.
  - destruct (futs s !! r) as [f|]; simpl; [|done]. destruct (pred f); simpl; [|done].
    destruct (finished f) eqn:E1, (ph f) eqn:E2; try done. by exists f.
  - destruct (futs s !! r) as [f|]; simpl; [|done].
    destruct (finished f) eqn:E1, (ph f) eqn:E2; try done. by exists f.
  - by destruct (futs s !! r).
Qed.

Lemma watch_init_inv v r : watch_inv (init_sys v r).
Proof.
  split; simpl; try done.
  - unfold parked_ids. rewrite omap_empty. apply drain_inv_init.
  - intros r' x [<- <-]%lookup_singleton_Some. lia.
Qed.

Lemma watch_run_inv acts : ∀ s os s',
  watch_inv s → room s (length acts) → sys_run s acts = Some (os, s') → watch_inv s' ∧
  (version (wkern (inner s')) ≤ version (wkern (inner s)) + Z.of_nat (length acts))%Z ∧
  (next_id (pool (inner s')) ≤ next_id (pool (inner s)) + Z.of_nat (length acts))%Z.
Proof.
  induction acts as [|a acts IH]; intros s os s' Hs [H1 H2]; simpl in *.
  { intros [= <- <-]. split; [done|lia]. }
  intros Hr. apply bind_Some in Hr as ([o s1] & Ha & Hr). apply bind_Some in Hr as ([os2 s2] & Hr & Hx).
  injection Hx as <- <-.
  destruct (watch_step_ok s a Hs) as (o' & s1' & Ha' & Hs1 & _ & Hc1 & Hc2); [split; lia|by eapply watch_enabled|].
  assert (s1' = s1) as -> by congruence.
  destruct (IH s1 os2 s2 Hs1) as (? & ? & ?); [split; lia|done|]. split; [done|lia].
Qed.

Lemma watch_reachable v r acts os s :
  (Z.of_nat (length acts) + 2 ≤ u64_max)%Z → sys_run (init_sys v r) acts = Some (os, s) →
  watch_inv s ∧ room s 1.
Proof.
  intros Hlen Hr. destruct (watch_run_inv acts _ os s (watch_init_inv v r)) as (Hs & H1 & H2); [|done|].
  - split; simpl; lia.
  - split; [done|]. simpl in *. split; lia.
Qed.

End inv.

(** Versions say what a receiver has missed, after any run of publications, borrows,
    polls, drops and closes: the version is the number of values published, the first
    one included, and the shared value is the last of them; every action whose guard
    holds goes through; a poll of a change is ready exactly when the receiver has not
    seen the last publication, and has then seen it; it fails only when the sender is
    gone with nothing left to see; else it suspends with the waker of this poll
    registered. *)
Theorem watch_versions (T : Type) (v : T) r acts os (s : Sys T) :
  (Z.of_nat (length acts) + 2 ≤ u64_max)%Z → sys_run (init_sys v r) acts = Some (os, s) →
  version (wkern (inner s)) = Z.of_nat (length (published s)) ∧
  last (published s) = Some (value (inner s)) ∧
  (∀ a, enabled s a → is_Some (sys_step s a)) ∧
  ∀ r' f w, futs s !! r' = Some f → finished f = false → ph f = PhChanged →
    ∃ seen o s', receivers s !! r' = Some seen ∧ (seen ≤ version (wkern (inner s)))%Z ∧
      sys_step s (PollChanged r' w) = Some (o, s') ∧ poll_answer s r' f seen w o s'.
Proof.
  intros Hlen Hr. destruct (watch_reachable v r acts os s Hlen Hr) as [Hs Hroom].
  split; [apply Hs|]. split; [apply Hs|]. split.
  - intros a Ha. destruct (watch_step_ok s a Hs Hroom Ha) as (o & s' & -> & _). done.
  - intros r' f w Hf Hfin Hph.
    destruct (poll_changed_ok s r' f w Hs Hroom Hf Hfin Hph) as (seen & o & s' & Hsn & Ha & _ & _ & _ & Hans).
    exists seen, o, s'. split; [done|]. split; [by apply (wi_seen _ Hs r')|]. by split.
Qed.

(** A receiver that waits misses no change: a registered waker belongs to an
    unfinished future that has seen everything, with the sender alive; every
    publication and the drop of the sender wake all the registered wakers and leave
    none; and any other step leaves a waker registered, unless its own future is polled
    or dropped. *)
Theorem watch_wakeup (T : Type) (v : T) r acts os (s : Sys T) i w :
  (Z.of_nat (length acts) + 2 ≤ u64_max)%Z → sys_run (init_sys v r) acts = Some (os, s) →
  (i, w) ∈ waiters (pool (inner s)) →
  (∃ r' f, futs s !! r' = Some f ∧ parked f = true ∧ fut_id f = i ∧ finished f = false ∧
     receivers s !! r' = Some (version (wkern (inner s))) ∧ tx_alive s = true) ∧
  ∀ a o s', sys_step s a = Some (o, s') →
    match a with
    | Send _ | SendModify _ | DropSender => woken_in s s' w ∧ waiters (pool (inner s')) = []
    | _ => (∃ r' f, futs s !! r' = Some f ∧ parked f = true ∧ fut_id f = i ∧
              (a = DropFut r' ∨ ∃ w', a = PollChanged r' w')) ∨
           (i, w) ∈ waiters (pool (inner s')) ∨ woken_in s s' w
    end.
Proof.
  intros Hlen Hr Hin. destruct (watch_reachable v r acts os s Hlen Hr) as [Hs Hroom]. split.
  - destruct (waiter_future _ _ i w (wi_pool _ Hs) Hin) as (r' & f & Hf & Hp & <-). exists r', f.
    destruct (wi_futs _ Hs r' f Hf) as (seen & Hsn & _ & _ & Hq). specialize (Hq Hp).
    rewrite decide_True in Hq by (rewrite list_elem_of_fmap; by exists (fut_id f, w)).
    destruct Hq as (-> & Hd & Hfin). rewrite (wi_dropped _ Hs) in Hd. apply negb_false_iff in Hd. by split_and!.
  - intros a o s' Ha. pose proof (watch_enabled s a o s' Hs Ha) as Hen.
    assert (Hall : ∀ s2, wakes s2 = wakes s ++ (waiters (pool (inner s))).*2 → woken_in s s2 w).
    { intros s2 Hw. eexists. split; [exact Hw|]. rewrite list_elem_of_fmap. by exists (i, w). }
    destruct (watch_step_ok s a Hs Hroom Hen) as (o2 & s2 & Ha2 & _ & Hk & _).
    assert (s2 = s') as -> by congruence. specialize (Hk i w Hin).
    destruct a; try done; simpl in Hen.
    + destruct (publish_ok s v0 Hs Hroom Hen) as (ws & g & Hp & _ & -> & Hw & _).
      simpl in Ha. unfold send in Ha. rewrite Hen, Hp in Ha. injection Ha as <- <-. split; [by apply Hall|done].
    + destruct (publish_ok s (h (value (inner s))) Hs Hroom Hen) as (ws & g & Hp & _ & -> & Hw & _).
      simpl in Ha. unfold send_modify in Ha. rewrite Hen, Hp in Ha. injection Ha as <- <-. split; [by apply Hall|done].
    + destruct (watch_drop_sender_ok s Hs Hen) as (ws & g & Hp & _ & -> & Hw & _).
      simpl in Ha. rewrite Hen, Hp in Ha. injection Ha as <- <-. split; [by apply Hall|done].
Qed.

(** [wait_for] may return a value that its predicate rejects: it releases the lock
    after the test and takes it again to borrow, and another thread may publish in
    between.  Here the predicate asks for 5, the value is 5 when it is tested, and 6 is
    what the caller gets. *)
Theorem watch_wait_for_race :
  ∃ (p : Z → bool) acts os s s' v,
    sys_run (init_sys 0%Z 0) acts = Some (os, s) ∧
    sys_step s (WaitTake 0) = Some (Borrowed v, s') ∧ p v = false.
Proof.
  exists (λ x, x =? 5)%Z, [Send 5%Z; NewWaitFor 0 (λ x, x =? 5)%Z; WaitCheck 0; Send 6%Z].
  eexists _, _, _, _. split; [vm_compute; reflexivity|]. split; vm_compute; reflexivity.
Qed.

(** ** Witnesses *)

(** Two receivers wait, and a publication wakes both. *)
Definition sample_acts : list (action nat) :=
  [Subscribe 1; NewChanged 0; NewChanged 1; PollChanged 0 20; PollChanged 1 21].

Definition sample_state : Sys nat :=
  match sys_run (init_sys 3 0) sample_acts with Some (_, s) => s | None => init_sys 3 0 end.

Lemma watch_versions_witness :
  ∃ o s', sys_step sample_state (PollChanged 0 22) = Some (o, s') ∧ o = Changed CPending.
Proof.
  destruct (watch_versions nat 3 0 sample_acts
    (match sys_run (init_sys 3 0) sample_acts with Some (os, _) => os | None => [] end) sample_state)
    as (_ & _ & _ & H); [vm_compute; discriminate|vm_compute; reflexivity|].
  destruct (H 0 (mkFut 0 true false None PhChanged) 22%Z) as (seen & o & s' & Hsn & _ & Ha & Hans);
    [vm_compute; reflexivity|done|done|].
  exists o, s'. split; [exact Ha|]. unfold poll_answer in Hans.
  vm_compute in Hsn. injection Hsn as <-. destruct Hans as [Ho _]. exact Ho.
Defined.

Lemma watch_wakeup_witness :
  ∃ o s', sys_step sample_state (Send 4) = Some (o, s') ∧ woken_in sample_state s' 21.
Proof.
  destruct (watch_wakeup nat 3 0 sample_acts
    (match sys_run (init_sys 3 0) sample_acts with Some (os, _) => os | None => [] end) sample_state 1 21)
    as [_ H]; [vm_compute; discriminate|vm_compute; reflexivity|vm_compute; right; by left|].
  destruct (sys_step sample_state (Send 4)) as [[o s']|] eqn:Hs; [|vm_compute in Hs; discriminate Hs].
  exists o, s'. split; [done|]. by destruct (H (Send 4) o s' Hs).
Defined.
