(* ===== verification/Broadcast.v ===== *)
(** * Broadcast: the ring of [lion-utility/src/sync/broadcast.rs]

    A ring of the latest values with sequence numbers ([broadcast_kernel.rs] decides
    from the window), receivers with a cursor each, and the pool of the receives that
    wait.  The handles of the channel are counted, as [Arc::strong_count] does. *)

From S2P Require Import Prelude UtilityLog Waiter DrainPool.
Import Waiter DrainPool.

Module Broadcast.

(** ** The kernel ([broadcast_kernel.rs]) *)

Inductive BRecv := Lagged (skipped new_cursor : Z) | BReady (seq : Z) | BPark.

Record BroadcastKernel := mkKernel { next_seq : Z; buffered : Z; capacity : Z }.

Definition b_wf (k : BroadcastKernel) : Prop :=
  (buffered k ≤ capacity k)%Z ∧ (buffered k ≤ next_seq k)%Z.

Definition new (cap : Z) : BroadcastKernel := mkKernel 0 0 cap.

Definition send_step k : Z * BroadcastKernel :=
  (next_seq k,
   mkKernel (wrap64 (next_seq k + 1))
     (if (buffered k <? capacity k)%Z then buffered k + 1 else buffered k)%Z (capacity k)).

Definition recv_step k (cursor : Z) : BRecv :=
  let oldest := (next_seq k - buffered k)%Z in
  if (cursor <? oldest)%Z then Lagged (oldest - cursor) oldest
  else if (cursor <? next_seq k)%Z then BReady cursor
  else BPark.

(** ** The channel ([broadcast.rs]) *)

Record BroadcastInner (T : Type) := mkInner {
  pool : Drain;
  bkern : BroadcastKernel;
  buffer : list (T * Z);
  closed : bool;
  sender_count : nat;
}.
Arguments mkInner {T} _ _ _ _ _.
Arguments pool {T} _.
Arguments bkern {T} _.
Arguments buffer {T} _.
Arguments closed {T} _.
Arguments sender_count {T} _.

(** [finished]: the future returned Ready. *)
Record Recv := mkRecv { fut_id : Z; parked : bool; finished : bool }.

Section ops.
Context {T : Type}.
Implicit Types (g : BroadcastInner T) (f : Recv) (v : T) (cursor waker : Z).

Definition set_pool g d : BroadcastInner T :=
  mkInner d (bkern g) (buffer g) (closed g) (sender_count g).

(** [channel]; the source asserts that the capacity is positive. *)
Definition channel (cap : Z) : BroadcastInner T := mkInner empty_pool (new cap) [] false 1.

(** [Sender::send]; [handles] is [Arc::strong_count]. *)
Definition send g (handles : nat) v : option (option nat * list Z * BroadcastInner T) :=
  if closed g then Some (None, [], g)
  else
    let '(seq, k) := send_step (bkern g) in
    let b := if (Z.of_nat (length (buffer g)) =? capacity k)%Z then tail (buffer g) else buffer g in
    '(ws, d) ← wake_all (pool g);
    Some (Some (handles - 1), ws, mkInner d k (b ++ [(v, seq)]) (closed g) (sender_count g)).

(** [Sender::drop] *)
Definition drop_sender g : option (list Z * BroadcastInner T) :=
  match sender_count g with
  | 0 => None
  | S 0 =>
      '(ws, d) ← wake_all (pool g);
      Some (ws, mkInner d (bkern g) (buffer g) true 0)
  | S n => Some ([], mkInner (pool g) (bkern g) (buffer g) (closed g) n)
  end.

(** The value of a slot; the [unwrap] panics when the ring does not have it. *)
Definition slot_value (b : list (T * Z)) (seq : Z) : option T :=
  (λ x, x.2.1) <$> list_find (λ e, e.2 = seq) b.

Inductive recv_result := RValue (v : T) | RLagged (skipped : Z) | RClosed | RPending.

(** [Receiver::try_recv]: the result and the new cursor. *)
Definition try_recv g cursor : option (recv_result * Z) :=
  match recv_step (bkern g) cursor with
  | Lagged skipped new_cursor => Some (RLagged skipped, new_cursor)
  | BReady seq => v ← slot_value (buffer g) seq; Some (RValue v, wrap64 (seq + 1))
  | BPark => Some (RClosed, cursor)
  end.

(** [Recv::poll] *)
Fixpoint recv_loop (fuel : nat) g f cursor waker : option (recv_result * BroadcastInner T * Recv * Z) :=
  match fuel with
  | 0 => None
  | S fuel' =>
      match recv_step (bkern g) cursor with
      | Lagged skipped new_cursor => Some (RLagged skipped, g, f, new_cursor)
      | BReady seq => v ← slot_value (buffer g) seq; Some (RValue v, g, f, wrap64 (seq + 1))
      | BPark =>
          if closed g then Some (RClosed, g, f, cursor)
          else if parked f then Some (RPending, set_pool g (refresh (pool g) (fut_id f) waker), f, cursor)
          else
            match enqueue (pool g) waker with
            | (Ready, d) =>
                recv_loop fuel' (set_pool g d) (mkRecv (next_id (pool g)) false (finished f)) cursor waker
            | (Park _, d) =>
                Some (RPending, set_pool g d, mkRecv (next_id (pool g)) true (finished f), cursor)
            end
      end
  end.
Definition recv_poll g f cursor waker : option (recv_result * BroadcastInner T * Recv * Z) :=
  recv_loop (S (Z.to_nat (permit (rx_kernel (pool g))))) g f cursor waker.

(** [Recv::drop] *)
Definition drop_recv g f : BroadcastInner T :=
  if parked f then set_pool g (withdraw (pool g) (fut_id f)) else g.

End ops.
Arguments recv_result T : clear implicits.

(** ** A channel, its receivers and their receives *)

(** A receiver has at most one receive, which borrows it; both have the same index.
    [sent] are all the values sent. *)
Record Sys (T : Type) := mkSys {
  inner : BroadcastInner T;
  receivers : gmap nat Z;
  futs : gmap nat Recv;
  wakes : list Z;
  sent : list T;
}.
Arguments mkSys {T} _ _ _ _ _.
Arguments inner {T} _.
Arguments receivers {T} _.
Arguments futs {T} _.
Arguments wakes {T} _.
Arguments sent {T} _.

Inductive action (T : Type) :=
  | Send (v : T) | CloneSender | DropSender
  | Subscribe (r : nat) | Resubscribe (r r' : nat) | CloneRx (r r' : nat) | DropRx (r : nat)
  | TryRecv (r : nat) | NewRecv (r : nat) | PollRecv (r : nat) (waker : Z) | DropRecv (r : nat).
Arguments Send {T} _.
Arguments CloneSender {T}.
Arguments DropSender {T}.
Arguments Subscribe {T} _.
Arguments Resubscribe {T} _ _.
Arguments CloneRx {T} _ _.
Arguments DropRx {T} _.
Arguments TryRecv {T} _.
Arguments NewRecv {T} _.
Arguments PollRecv {T} _ _.
Arguments DropRecv {T} _.

(** What an action returned to its caller. *)
Inductive outcome (T : Type) := Nothing | SentTo (receivers : option nat) | Got (res : recv_result T).
Arguments Nothing {T}.
Arguments SentTo {T} _.
Arguments Got {T} _.

Section sys.
Context {T : Type}.
Implicit Types (s : Sys T) (r : nat).

Definition init_sys (cap : Z) (r : nat) : Sys T := mkSys (channel cap) {[r := 0%Z]} ∅ [] [].

(** [Arc::strong_count]: the senders and the receivers hold the channel. *)
Definition handles s : nat := sender_count (inner s) + size (receivers s).

Definition set_inner s g : Sys T := mkSys g (receivers s) (futs s) (wakes s) (sent s).
Definition set_rx s m : Sys T := mkSys (inner s) m (futs s) (wakes s) (sent s).
Definition set_futs s m : Sys T := mkSys (inner s) (receivers s) m (wakes s) (sent s).

(** The receiver is there, and no receive borrows it. *)
Definition free s r : option Z := match futs s !! r with None => receivers s !! r | Some _ => None end.

(** A new receiver with this cursor. *)
Definition add_rx s r cursor : option (outcome T * Sys T) :=
  match receivers s !! r with
  | None => Some (Nothing, set_rx s (<[r := cursor]> (receivers s)))
  | Some _ => None
  end.

Definition sys_step s (a : action T) : option (outcome T * Sys T) :=
  match a with
  | Send v =>
      if decide (sender_count (inner s) = 0) then None
      else '(n, ws, g) ← send (inner s) (handles s) v;
           Some (SentTo n, mkSys g (receivers s) (futs s) (wakes s ++ ws)
                             (sent s ++ match n with Some _ => [v] | None => [] end))
  | CloneSender =>
      if decide (sender_count (inner s) = 0) then None
      else let g := inner s in
           Some (Nothing, set_inner s (mkInner (pool g) (bkern g) (buffer g) (closed g) (S (sender_count g))))
  | DropSender =>
      '(ws, g) ← drop_sender (inner s);
      Some (Nothing, mkSys g (receivers s) (futs s) (wakes s ++ ws) (sent s))
  | Subscribe r =>
      if decide (sender_count (inner s) = 0) then None else add_rx s r (next_seq (bkern (inner s)))
  | Resubscribe r r' => _ ← free s r; add_rx s r' (next_seq (bkern (inner s)))
  | CloneRx r r' => c ← free s r; add_rx s r' c
  | DropRx r => _ ← free s r; Some (Nothing, set_rx s (delete r (receivers s)))
  | TryRecv r =>
      c ← free s r;
      '(res, c') ← try_recv (inner s) c; Some (Got res, set_rx s (<[r := c']> (receivers s)))
  | NewRecv r => _ ← free s r; Some (Nothing, set_futs s (<[r := mkRecv 0 false false]> (futs s)))
  | PollRecv r waker =>
      f ← futs s !! r; c ← receivers s !! r;
      if finished f then None
      else '(res, g, f', c') ← recv_poll (inner s) f c waker;
           let f'' := match res with RPending => f' | _ => mkRecv (fut_id f') (parked f') true end in
           Some (Got res, mkSys g (<[r := c']> (receivers s)) (<[r := f'']> (futs s)) (wakes s) (sent s))
  | DropRecv r =>
      f ← futs s !! r;
      Some (Nothing, mkSys (drop_recv (inner s) f) (receivers s) (delete r (futs s)) (wakes s) (sent s))
  end.

Fixpoint sys_run s (acts : list (action T)) : option (list (outcome T) * Sys T) :=
  match acts with
  | [] => Some ([], s)
  | a :: acts' =>
      '(o, s1) ← sys_step s a; '(os, s2) ← sys_run s1 acts'; Some (o :: os, s2)
  end.

(** The guard of an action. *)
Definition enabled s (a : action T) : Prop :=
  match a with
  | Send _ | CloneSender | DropSender => sender_count (inner s) ≠ 0
  | Subscribe r => sender_count (inner s) ≠ 0 ∧ receivers s !! r = None
  | Resubscribe r r' | CloneRx r r' => is_Some (free s r) ∧ receivers s !! r' = None
  | DropRx r | TryRecv r | NewRecv r => is_Some (free s r)
  | PollRecv r _ => ∃ f, futs s !! r = Some f ∧ finished f = false
  | DropRecv r => is_Some (futs s !! r)
  end.
End sys.
End Broadcast.
