(* ===== verification/BroadcastSpec.v ===== *)
(** * BroadcastSpec: what the broadcast channel promises

    Every receiver gets the values sent since it was created, in order, or is told
    exactly how many it missed; a waiting receive is woken by every send and by the
    drop of the last sender. *)

From S2P Require Import Prelude UtilityLog Waiter DrainPool Broadcast.
Import Waiter DrainPool Broadcast.

(** ** The ring *)

Section ring.
Context {T : Type}.
Implicit Types (l : list T) (v : T) (n k : nat).

(** The values from number [n] on, with their numbers. *)
Definition ring n l : list (T * Z) := imap (λ i v, (v, Z.of_nat (n + i))) (drop n l).

Lemma ring_snoc n l v : n ≤ length l → ring n (l ++ [v]) = ring n l ++ [(v, Z.of_nat (length l))].
Proof.
  intros Hn. unfold ring. rewrite drop_app_le by done. rewrite imap_app. simpl. do 3 f_equal.
  rewrite length_drop. lia.
Qed.

Lemma ring_tail n l : n < length l → tail (ring n l) = ring (S n) l.
Proof.
  intros Hn. unfold ring. destruct (lookup_lt_is_Some_2 l n Hn) as [v Hv].
  rewrite (drop_S l v n Hv). simpl. apply imap_ext. intros i x _. simpl. do 2 f_equal. lia.
Qed.

Lemma ring_length n l : length (ring n l) = length l - n.
Proof. unfold ring. by rewrite length_imap, length_drop. Qed.

Lemma slot_ring n l k v : n ≤ k → l !! k = Some v → slot_value (ring n l) (Z.of_nat k) = Some v.
Proof.
  intros Hn Hk. unfold slot_value.
  assert (Hr : ∀ i, ring n l !! i = (λ x, (x, Z.of_nat (n + i))) <$> l !! (n + i)).
  { intros i. unfold ring. by rewrite list_lookup_imap, lookup_drop. }
  assert (Hf : list_find (λ e, e.2 = Z.of_nat k) (ring n l) = Some (k - n, (v, Z.of_nat k))).
  { apply list_find_Some. split.
    - rewrite Hr. replace (n + (k - n)) with k by lia. by rewrite Hk.
    - split; [done|]. intros j y Hy Hj. rewrite Hr in Hy. destruct (l !! (n + j)); simplify_eq/=. lia. }
  by rewrite Hf.
Qed.

End ring.

Section inv.
Context {T : Type}.
Implicit Types (s : Sys T) (g : BroadcastInner T) (f : Recv) (r : nat) (c waker : Z) (a : action T).

(** The number of the oldest value in the ring. *)
Definition oldest (cap : Z) s : Z := (Z.of_nat (length (sent s)) - Z.min cap (Z.of_nat (length (sent s))))%Z.

(** A queued receive waits: its receiver has seen everything and there are senders. *)
Definition fut_ok g f c : Prop :=
  parked f = true →
    if decide (fut_id f ∈ (waiters (pool g)).*1)
    then c = next_seq (bkern g) ∧ closed g = false ∧ finished f = false
    else finished f = true ∨ c ≠ next_seq (bkern g) ∨ closed g = true.

Record broadcast_inv (cap : Z) s : Prop := {
  bi_pool : drain_inv (pool (inner s)) (parked_ids fut_id parked (futs s));
  bi_cap : capacity (bkern (inner s)) = cap ∧ (0 < cap)%Z;
  bi_next : next_seq (bkern (inner s)) = Z.of_nat (length (sent s));
  bi_buffered : buffered (bkern (inner s)) = Z.min cap (Z.of_nat (length (sent s)));
  bi_ring : buffer (inner s) = ring (Z.to_nat (oldest cap s)) (sent s);
  bi_closed : closed (inner s) = bool_decide (sender_count (inner s) = 0);
  bi_cursor : ∀ r c, receivers s !! r = Some c → (0 ≤ c ≤ next_seq (bkern (inner s)))%Z;
  bi_futs : ∀ r f, futs s !! r = Some f → ∃ c, receivers s !! r = Some c ∧ fut_ok (inner s) f c;
}.

Definition woken_in s s' (w : Z) : Prop := ∃ l, wakes s' = wakes s ++ l ∧ w ∈ l.

(** Only its own receive takes out a waker without waking it. *)
Definition kept s a s' : Prop :=
  ∀ i w, (i, w) ∈ waiters (pool (inner s)) →
    (∃ r f, futs s !! r = Some f ∧ parked f = true ∧ fut_id f = i ∧
       (a = DropRecv r ∨ ∃ w', a = PollRecv r w')) ∨
    (i, w) ∈ waiters (pool (inner s')) ∨ woken_in s s' w.

Definition counters s s' : Prop :=
  (next_seq (bkern (inner s')) ≤ next_seq (bkern (inner s)) + 1)%Z ∧
  (next_id (pool (inner s')) ≤ next_id (pool (inner s)) + 1)%Z.

Definition room s (n : nat) : Prop :=
  (next_seq (bkern (inner s)) + Z.of_nat n ≤ u64_max)%Z ∧
  (next_id (pool (inner s)) + Z.of_nat n ≤ u64_max)%Z.

Lemma broadcast_fut_ok_ext g g' f c :
  fut_ok g f c → next_seq (bkern g') = next_seq (bkern g) → closed g' = closed g →
  (parked f = true → fut_id f ∈ (waiters (pool g)).*1 ↔ fut_id f ∈ (waiters (pool g')).*1) →
  fut_ok g' f c.
Proof.
  intros H Hv Hd Hq Hp. rewrite Hv, Hd. specialize (H Hp). specialize (Hq Hp).
  repeat case_decide; naive_solver.
Qed.

(** After a wake of all, a parked receive has something to see. *)
Lemma broadcast_fut_ok_woken g g' f c :
  fut_ok g f c → waiters (pool g') = [] → (c ≤ next_seq (bkern g))%Z →
  (next_seq (bkern g) < next_seq (bkern g') ∨ next_seq (bkern g') = next_seq (bkern g) ∧ closed g' = true)%Z →
  fut_ok g' f c.
Proof.
  intros H Hw Hc Hnew Hp. rewrite decide_False by (rewrite Hw; apply not_elem_of_nil).
  specialize (H Hp). destruct Hnew as [Hnew|[_ Hcl]]; [|by do 2 right]. right; left. lia.
Qed.

Lemma broadcast_woken_all_kept s a s' :
  wakes s' = wakes s ++ (waiters (pool (inner s))).*2 → kept s a s'.
Proof.
  intros Hw i w Hin. do 2 right. eexists. split; [exact Hw|]. rewrite list_elem_of_fmap. by exists (i, w).
Qed.

(** ** Senders *)

Lemma broadcast_send_ok cap s v :
  broadcast_inv cap s → room s 1 → sender_count (inner s) ≠ 0 →
  ∃ s', sys_step s (Send v) = Some (SentTo (Some (handles s - 1)), s') ∧ broadcast_inv cap s' ∧
    wakes s' = wakes s ++ (waiters (pool (inner s))).*2 ∧ waiters (pool (inner s')) = [] ∧
    counters s s' ∧ sent s' = sent s ++ [v].
Proof.
  intros [Hp [Hcap Hpos] Hn Hb Hrg Hcl Hcu Hf] [Hr1 Hr2] Hsc. simpl. rewrite decide_False by done.
  unfold send. rewrite Hcl, bool_decide_eq_false_2 by done. simpl.
  destruct (wake_all_spec _ _ Hp) as (d & -> & Hp' & Hw' & Hn'). cbn [mbind option_bind].
  assert (Hseq : wrap64 (next_seq (bkern (inner s)) + 1) = (next_seq (bkern (inner s)) + 1)%Z).
  { apply wrap64_id. u64. }
  eexists. split; [done|]. split; [|split; [done|split; [done|split; [split; simpl; rewrite ?Hseq; lia|done]]]].
  assert (Hlen : length (buffer (inner s)) = Z.to_nat (Z.min cap (Z.of_nat (length (sent s))))).
  { rewrite Hrg, ring_length. unfold oldest. lia. }
  split; simpl; rewrite ?Hseq; try done.
  - rewrite Hn, length_app. simpl. lia.
  - rewrite Hb, Hcap, length_app. simpl. case_cmp; lia.
  - rewrite Hcap, Hn. unfold oldest in *. simpl. rewrite length_app. simpl.
    destruct (Z.eqb_spec (Z.of_nat (length (buffer (inner s)))) cap) as [He|He].
    + rewrite Hrg, ring_tail by lia. rewrite <- ring_snoc by lia. f_equal. lia.
    + rewrite Hrg, <- ring_snoc by lia. f_equal. lia.
  - by rewrite bool_decide_eq_false_2.
  - intros r c Hr. specialize (Hcu r c Hr). lia.
  - intros r f Hrf. destruct (Hf r f Hrf) as (c & Hr & Hok). exists c. split; [done|].
    specialize (Hcu r c Hr). eapply broadcast_fut_ok_woken; [exact Hok|done|lia|]. simpl. left. lia.
Qed.

Lemma broadcast_drop_sender_ok cap s :
  broadcast_inv cap s → sender_count (inner s) ≠ 0 →
  ∃ s', sys_step s DropSender = Some (Nothing, s') ∧ broadcast_inv cap s' ∧ kept s DropSender s' ∧
    counters s s' ∧
    (sender_count (inner s) = 1 → wakes s' = wakes s ++ (waiters (pool (inner s))).*2 ∧ waiters (pool (inner s')) = []).
Proof.
  intros [Hp [Hcap Hpos] Hn Hb Hrg Hcl Hcu Hf] Hsc. simpl. unfold drop_sender.
  destruct (sender_count (inner s)) as [|[|n]] eqn:En; [done|..].
  - destruct (wake_all_spec _ _ Hp) as (d & -> & Hp' & Hw' & Hn'). cbn [mbind option_bind].
    eexists. split; [done|]. split; [|split; [by apply broadcast_woken_all_kept|split; [split; simpl; lia|done]]].
    split; simpl; try done. intros r f Hrf. destruct (Hf r f Hrf) as (c & Hr & Hok). exists c. split; [done|].
    specialize (Hcu r c Hr). eapply broadcast_fut_ok_woken; [exact Hok|done|lia|]. by right.
  - eexists. split; [done|]. split; [split; simpl; try done|]. split; [|split; [split; simpl; lia|done]].
    intros i w Hin. right; by left.
Qed.

(** ** Receives *)

(** What a receive that does not wait gives, and the new cursor. *)
Definition expected cap s c : option (recv_result T * Z) :=
  if (c <? oldest cap s)%Z then Some (RLagged (oldest cap s - c), oldest cap s)
  else (λ v, (RValue v, (c + 1)%Z)) <$> sent s !! Z.to_nat c.

Lemma recv_step_spec cap s c :
  broadcast_inv cap s → (0 ≤ c ≤ next_seq (bkern (inner s)))%Z →
  match recv_step (bkern (inner s)) c with
  | Lagged n c' => expected cap s c = Some (RLagged n, c') ∧ (0 ≤ c' ≤ next_seq (bkern (inner s)))%Z ∧
      c ≠ next_seq (bkern (inner s))
  | BReady q => ∃ v, expected cap s c = Some (RValue v, (c + 1)%Z) ∧ q = c ∧
      slot_value (buffer (inner s)) q = Some v ∧ (c < next_seq (bkern (inner s)))%Z
  | BPark => expected cap s c = None ∧ c = next_seq (bkern (inner s))
  end.
Proof.
  intros [Hp [Hcap Hpos] Hn Hb Hrg Hcl Hcu Hf] Hc. unfold recv_step, expected. rewrite Hb, Hn. fold (oldest cap s).
  destruct (Z.ltb_spec c (oldest cap s)) as [Hlt|Hge].
  - unfold oldest in *. split; [done|]. lia.
  - destruct (Z.ltb_spec c (Z.of_nat (length (sent s)))) as [Hl|Hl].
    + destruct (lookup_lt_is_Some_2 (sent s) (Z.to_nat c)) as [v Hv]; [lia|]. exists v. rewrite Hv.
      split; [done|]. split; [done|]. split; [|lia]. rewrite Hrg.
      assert (Hz : c = Z.of_nat (Z.to_nat c)) by lia. rewrite Hz at 1. apply slot_ring; [lia|done].
    + rewrite lookup_ge_None_2 by lia. split; [done|lia].
Qed.

Lemma broadcast_try_recv_spec cap s c :
  broadcast_inv cap s → room s 0 → (0 ≤ c ≤ next_seq (bkern (inner s)))%Z →
  ∃ res c', try_recv (inner s) c = Some (res, c') ∧ (0 ≤ c' ≤ next_seq (bkern (inner s)))%Z ∧
    match expected cap s c with
    | Some x => (res, c') = x
    | None => res = RClosed ∧ c' = c
    end.
Proof.
  intros Hs [Hr _] Hc. pose proof (recv_step_spec cap s c Hs Hc) as Hst. unfold try_recv.
  destruct (recv_step (bkern (inner s)) c) as [n c'|q|].
  - destruct Hst as (-> & ? & _). by eexists _, _.
  - destruct Hst as (v & -> & -> & -> & Hlt). simpl. rewrite wrap64_id by u64.
    eexists _, _. split; [done|]. split; [lia|done].
  - destruct Hst as (-> & _). by eexists _, _.
Qed.

Lemma recv_poll_spec cap s r f c waker :
  broadcast_inv cap s → room s 1 → futs s !! r = Some f → receivers s !! r = Some c → finished f = false →
  ∃ res g f' c', recv_poll (inner s) f c waker = Some (res, g, f', c') ∧
    match expected cap s c with
    | Some x => (res, c') = x ∧ g = inner s ∧ f' = f ∧ c ≠ next_seq (bkern (inner s)) ∧
        (0 ≤ c' ≤ next_seq (bkern (inner s)))%Z
    | None =>
        c' = c ∧ c = next_seq (bkern (inner s)) ∧
        if closed (inner s) then res = RClosed ∧ g = inner s ∧ f' = f
        else res = RPending ∧ finished f' = false ∧ g = set_pool (inner s) (pool g) ∧
             suspended fut_id parked (pool (inner s)) (pool g) (futs s) r f f' waker
    end.
Proof.
  intros Hs [Hr1 Hr2] Hf Hr Hfin. pose proof (bi_cursor _ _ Hs r c Hr) as Hc.
  pose proof (recv_step_spec cap s c Hs Hc) as Hst. unfold recv_poll. simpl.
  destruct (recv_step (bkern (inner s)) c) as [n c'|q|].
  - destruct Hst as (-> & ? & ?). by eexists _, _, _, _.
  - destruct Hst as (v & -> & -> & -> & Hlt). simpl. rewrite wrap64_id by u64.
    eexists _, _, _, _. split; [done|]. split; [done|]. split; [done|]. split; [done|]. lia.
  - destruct Hst as (-> & Heq). destruct (closed (inner s)) eqn:Ecl; [by eexists _, _, _, _|].
    destruct (parked f) eqn:Ep.
    + eexists _, _, f, c. split; [done|]. split; [done|]. split; [done|]. split; [done|]. split; [done|].
      split; [done|]. simpl. apply refresh_suspended; [apply Hs|done|done|].
      destruct (bi_futs _ _ Hs r f Hf) as (c0 & Hr0 & Hok). specialize (Hok Ep).
      rewrite Hr in Hr0. injection Hr0 as <-. case_decide as Hin; [done|].
      destruct Hok as [?|[?|?]]; congruence.
    + destruct (enqueue_suspended (pool (inner s)) (futs s) r f
        (mkRecv (next_id (pool (inner s))) true (finished f)) waker (bi_pool _ _ Hs)) as (d & -> & Hsu);
        try done; [lia|]. eexists _, _, _, c. split; [done|]. by split_and!.
Qed.

(** ** Every action *)

Lemma broadcast_free_spec s r c : free s r = Some c → futs s !! r = None ∧ receivers s !! r = Some c.
Proof. unfold free. by destruct (futs s !! r). Qed.

(** A receiver without a receive appears, changes or goes. *)
Lemma broadcast_set_rx_ok cap s r o :
  broadcast_inv cap s → futs s !! r = None →
  match o with Some c => (0 ≤ c ≤ next_seq (bkern (inner s)))%Z | None => True end →
  broadcast_inv cap (set_rx s (partial_alter (λ _, o) r (receivers s))).
Proof.
  intros [Hp Hcap Hn Hb Hrg Hcl Hcu Hf] H0 Ho. split; simpl; try done.
  - intros r' x. destruct (decide (r = r')) as [<-|Hne].
    + rewrite lookup_partial_alter_eq. by intros ->.
    + rewrite lookup_partial_alter_ne by done. apply Hcu.
  - intros r' f' Hr'. rewrite lookup_partial_alter_ne by congruence. by eapply Hf.
Qed.

Definition step_ok cap s a : Prop :=
  ∃ o s', sys_step s a = Some (o, s') ∧ broadcast_inv cap s' ∧ kept s a s' ∧ counters s s'.

Lemma broadcast_quiet_ok cap s a o s' :
  sys_step s a = Some (o, s') → pool (inner s') = pool (inner s) → bkern (inner s') = bkern (inner s) →
  broadcast_inv cap s' → step_ok cap s a.
Proof.
  intros Ha Hin Hk Hs'. exists o, s'. split; [done|]. split; [done|]. split.
  - intros i w Hi. right; left. by rewrite Hin.
  - unfold counters. rewrite Hin, Hk. split; lia.
Qed.

Lemma add_rx_step cap s a r c :
  broadcast_inv cap s → receivers s !! r = None → (0 ≤ c ≤ next_seq (bkern (inner s)))%Z →
  sys_step s a = add_rx s r c → step_ok cap s a.
Proof.
  intros Hs Hr Hc Ha. unfold add_rx in Ha. rewrite Hr in Ha. eapply broadcast_quiet_ok; [exact Ha|done|done|].
  apply (broadcast_set_rx_ok cap s r (Some c)); [done| |done]. apply eq_None_not_Some. intros [f Hf].
  destruct (bi_futs _ _ Hs r f Hf) as (x & ? & _). congruence.
Qed.

Lemma broadcast_receiver_step_ok cap s a :
  broadcast_inv cap s → room s 1 → enabled s a →
  match a with
  | Subscribe _ | Resubscribe _ _ | CloneRx _ _ | DropRx _ | TryRecv _ | NewRecv _ | CloneSender => step_ok cap s a
  | _ => True
  end.
Proof.
  intros Hs Hroom Hen. pose proof Hs as [Hp Hcap Hn Hb Hrg Hcl Hcu Hf].
  destruct a as [v| | |r|r r'|r r'|r|r|r|r w|r]; try done; simpl in Hen.
  - eapply broadcast_quiet_ok; [simpl; by rewrite decide_False|done|done|]. split; simpl; try done.
    rewrite Hcl. by rewrite !bool_decide_eq_false_2.
  - destruct Hen as [Hsc Hr]. eapply (add_rx_step cap s _ r); [done|done| |simpl; by rewrite decide_False]. lia.
  - destruct Hen as [[x Hx] Hr']. eapply (add_rx_step cap s _ r'); [done|done| |simpl; by rewrite Hx]. lia.
  - destruct Hen as [[x Hx] Hr']. pose proof (broadcast_free_spec _ _ _ Hx) as [_ Hr].
    eapply (add_rx_step cap s _ r'); [done|done| |simpl; by rewrite Hx]. by eapply Hcu.
  - destruct Hen as [x Hx]. pose proof (broadcast_free_spec _ _ _ Hx) as [H0 _].
    eapply broadcast_quiet_ok; [simpl; by rewrite Hx|done|done|]. by apply (broadcast_set_rx_ok cap s r None).
  - destruct Hen as [x Hx]. pose proof (broadcast_free_spec _ _ _ Hx) as [H0 Hr].
    destruct (broadcast_try_recv_spec cap s x Hs) as (res & c' & Ht & Hc' & _); [destruct Hroom; split; lia|by eapply Hcu|].
    eapply broadcast_quiet_ok; [simpl; rewrite Hx; simpl; by rewrite Ht|done|done|]. by apply (broadcast_set_rx_ok cap s r (Some c')).
  - destruct Hen as [x Hx]. pose proof (broadcast_free_spec _ _ _ Hx) as [H0 Hr].
    eapply broadcast_quiet_ok; [simpl; by rewrite Hx|done|done|]. split; simpl; try done.
    + rewrite parked_ids_unparked; [done|congruence|done].
    + intros r' f'. rewrite lookup_insert_Some. intros [[<- <-]|[_ Hr']]; [by exists x|by eapply Hf].
Qed.

(** What a poll answers; a poll that waits has registered its waker. *)
Definition poll_answer cap s r c waker (o : outcome T) s' : Prop :=
  match expected cap s c with
  | Some (res, c') => o = Got res ∧ receivers s' !! r = Some c'
  | None =>
      receivers s' !! r = Some c ∧
      if closed (inner s) then o = Got RClosed
      else o = Got RPending ∧ ∃ i, (i, waker) ∈ waiters (pool (inner s'))
  end.

(** The receive of [r] is done, and the receiver moves to [c']. *)
Lemma broadcast_finish_ok cap s r f c c' :
  broadcast_inv cap s → futs s !! r = Some f → receivers s !! r = Some c →
  (c ≠ next_seq (bkern (inner s)) ∨ closed (inner s) = true) →
  (0 ≤ c' ≤ next_seq (bkern (inner s)))%Z →
  broadcast_inv cap (mkSys (inner s) (<[r := c']> (receivers s))
    (<[r := mkRecv (fut_id f) (parked f) true]> (futs s)) (wakes s) (sent s)).
Proof.
  intros [Hp Hcap Hn Hb Hrg Hcl Hcu Hf] Hrf Hr Hdone Hc'. split; simpl; try done.
  - by rewrite (parked_ids_same _ r f).
  - intros r' x. rewrite lookup_insert_Some. intros [[<- <-]|[_ Hr']]; [done|by eapply Hcu].
  - intros r' f0. rewrite !lookup_insert_Some. intros [[<- <-]|[Hne Hr']].
    + exists c'. rewrite lookup_insert_eq. split; [done|].
      destruct (Hf r f Hrf) as (x & Hx & Hok). rewrite Hr in Hx. injection Hx as <-.
      intros Hpk. simpl in Hpk |- *. specialize (Hok Hpk). case_decide; [|by left].
      destruct Hok as (? & ? & _), Hdone; congruence.
    + rewrite lookup_insert_ne by done. by eapply Hf.
Qed.

Lemma broadcast_pending_ok cap s r f f' d c waker :
  broadcast_inv cap s → receivers s !! r = Some c → c = next_seq (bkern (inner s)) →
  closed (inner s) = false → suspended fut_id parked (pool (inner s)) d (futs s) r f f' waker →
  finished f' = false →
  broadcast_inv cap (mkSys (set_pool (inner s) d) (<[r := c]> (receivers s))
                       (<[r := f']> (futs s)) (wakes s) (sent s)).
Proof.
  intros [Hp Hcap Hn Hb Hrg Hcl Hcu Hf] Hr Hc Hdr Hsu Hfin.
  rewrite (insert_id (receivers s)) by done. split; simpl; try done; [apply Hsu|].
  intros r' f0. rewrite lookup_insert_Some. intros [[<- <-]|[Hne Hr']].
  - exists c. split; [done|]. intros _. simpl.
    rewrite decide_True; [by split|]. rewrite list_elem_of_fmap. exists (fut_id f', waker).
    split; [done|apply Hsu].
  - destruct (Hf r' f0 Hr') as (x & Hx & Hok). exists x. split; [done|].
    eapply broadcast_fut_ok_ext; [exact Hok|done|done|]. intros Hp0. by eapply suspended_others.
Qed.

Lemma broadcast_poll_recv_ok cap s r f waker :
  broadcast_inv cap s → room s 1 → futs s !! r = Some f → finished f = false →
  ∃ c o s', receivers s !! r = Some c ∧ sys_step s (PollRecv r waker) = Some (o, s') ∧
    broadcast_inv cap s' ∧ kept s (PollRecv r waker) s' ∧ counters s s' ∧ poll_answer cap s r c waker o s'.
Proof.
  intros Hs Hroom Hf Hfin. destruct (bi_futs _ _ Hs r f Hf) as (c & Hr & _).
  destruct (recv_poll_spec cap s r f c waker Hs Hroom Hf Hr Hfin) as (res & g & f' & c' & Hp & Hres).
  exists c. simpl. rewrite Hf, Hr. simpl. rewrite Hfin, Hp. cbn [mbind option_bind].
  eexists _, _. split; [done|]. split; [done|]. unfold poll_answer.
  pose proof (bi_cursor _ _ Hs r c Hr) as Hc.
  assert (Hstay : ∀ x, inner x = inner s → kept s (PollRecv r waker) x ∧ counters s x).
  { intros x Hx. split; [intros i w Hi; right; left; by rewrite Hx|]. unfold counters. rewrite Hx. split; lia. }
  destruct (expected cap s c) as [[res0 c0]|] eqn:Ee.
  - destruct Hres as ([= -> ->] & -> & -> & Hne & Hc').
    assert (Hnp : res0 ≠ RPending).
    { unfold expected in Ee. revert Ee. case_cmp; [by intros [= <- _]|]. by destruct (sent s !! _); intros [= <- _]. }
    assert (Hinv := broadcast_finish_ok cap s r f c c0 Hs Hf Hr (or_introl Hne) Hc').
    destruct res0; try done; (split; [exact Hinv|]); (split; [by apply Hstay|]); (split; [by apply Hstay|]);
      simpl; by rewrite lookup_insert_eq.
  - destruct Hres as (-> & Heq & Hres). destruct (closed (inner s)) eqn:Ecl.
    + destruct Hres as (-> & -> & ->).
      assert (Hinv := broadcast_finish_ok cap s r f c c Hs Hf Hr (or_intror Ecl) Hc).
      split; [exact Hinv|]. split; [by apply Hstay|]. split; [by apply Hstay|]. simpl. by rewrite lookup_insert_eq.
    + destruct Hres as (-> & Hf' & -> & Hsu). split; [by apply (broadcast_pending_ok cap s r f f' _ c waker)|].
      split; [|split; [pose proof (su_next _ _ _ _ _ _ _ Hsu) as Hn; simpl in Hn; split; simpl; lia|]].
      * intros i w Hin. destruct (decide (i = fut_id f')) as [->|Hi].
        -- destruct (su_mine _ _ _ _ _ _ _ Hsu w Hin) as [Hpk0 Hid0]. left. exists r, f.
           split_and!; try done. right. by eexists.
        -- right; left. simpl. by apply (su_others _ _ _ _ _ _ _ Hsu).
      * simpl. rewrite lookup_insert_eq. split; [done|]. split; [done|]. exists (fut_id f'). apply Hsu.
Qed.

Lemma drop_recv_ok cap s r : broadcast_inv cap s → is_Some (futs s !! r) → step_ok cap s (DropRecv r).
Proof.
  intros Hs [f Hf]. pose proof Hs as [Hp Hcap Hn Hb Hrg Hcl Hcu Hfs].
  destruct (leave_spec _ _ r f Hp Hf) as (Hp' & Hn' & Hw' & _).
  assert (He : drop_recv (inner s) f = set_pool (inner s) (leave fut_id parked (pool (inner s)) f)).
  { unfold drop_recv, leave. destruct (parked f); [done|by destruct (inner s)]. }
  eexists _, _. split; [simpl; by rewrite Hf|]. split; [|split].
  - split; simpl; rewrite ?He; try done; [by rewrite parked_ids_delete|].
    intros r' f0 [Hne Hr']%lookup_delete_Some. destruct (Hfs r' f0 Hr') as (x & Hx & Hok). exists x.
    split; [done|]. eapply broadcast_fut_ok_ext; [exact Hok|done|done|]. intros Hp0. simpl. by eapply leave_others.
  - intros i w Hin. destruct (decide (parked f = true ∧ fut_id f = i)) as [[Hpk Hi]|Hn0].
    + left. exists r, f. split_and!; try done. by left.
    + right; left. simpl. rewrite He. apply Hw'; [|done]. intros Hpk ->. by apply Hn0.
  - unfold counters. simpl. rewrite He. simpl. rewrite Hn'. split; lia.
Qed.

Lemma broadcast_step_ok cap s a : broadcast_inv cap s → room s 1 → enabled s a → step_ok cap s a.
Proof.
  intros Hs Hroom Hen. pose proof (broadcast_receiver_step_ok cap s a Hs Hroom Hen) as Hrx.
  destruct a as [v| | |r|r r'|r r'|r|r|r|r w|r]; try done; simpl in Hen.
  - destruct (broadcast_send_ok cap s v Hs Hroom Hen) as (s' & ? & ? & ? & _ & ? & _).
    eexists _, s'. split_and!; [done|done|by apply broadcast_woken_all_kept|done].
  - destruct (broadcast_drop_sender_ok cap s Hs Hen) as (s' & ? & ? & ? & ? & _). by eexists _, s'.
  - destruct Hen as (f & Hf & Hfin).
    destruct (broadcast_poll_recv_ok cap s r f w Hs Hroom Hf Hfin) as (c & o & s' & _ & ? & ? & ? & ? & _). by exists o, s'.
  - by apply drop_recv_ok.
Qed.

Lemma broadcast_enabled s a o s' : sys_step s a = Some (o, s') → enabled s a.
Proof.
  destruct a as [v| | |r|r r'|r r'|r|r|r|r w|r]; simpl; unfold free, add_rx, drop_sender.
  - by case_decide.
  - by case_decide.
  - by destruct (sender_count (inner s)) as [|[|n]].
  - case_decide; [done|]. by destruct (receivers s !! r).
  - destruct (futs s !! r), (receivers s !! r), (receivers s !! r'); simpl; by try done; eauto.
  - destruct (futs s !! r), (receivers s !! r), (receivers s !! r'); simpl; by try done; eauto.
  - destruct (futs s !! r), (receivers s !! r); simpl; by try done; eauto.
  - destruct (futs s !! r), (receivers s !! r); simpl; by try done; eauto.
  - destruct (futs s !! r), (receivers s !! r); simpl; by try done; eauto.
  - destruct (futs s !! r) as [f|]; simpl; [|done]. destruct (receivers s !! r); simpl; [|done].
    destruct (finished f) eqn:E; [done|]. by exists f.
  - by destruct (futs s !! r).
Qed.

Lemma broadcast_init_inv cap r : (0 < cap ≤ u64_max)%Z → broadcast_inv cap (init_sys cap r).
Proof.
  intros Hc. split; simpl; try done; try lia.
  - unfold parked_ids. rewrite omap_empty. apply drain_inv_init.
  - unfold ring. by rewrite drop_nil.
  - intros r' x [<- <-]%lookup_singleton_Some. lia.
Qed.

Lemma broadcast_run_inv cap acts : ∀ s os s',
  broadcast_inv cap s → room s (length acts) → sys_run s acts = Some (os, s') → broadcast_inv cap s' ∧
  (next_seq (bkern (inner s')) ≤ next_seq (bkern (inner s)) + Z.of_nat (length acts))%Z ∧
  (next_id (pool (inner s')) ≤ next_id (pool (inner s)) + Z.of_nat (length acts))%Z.
Proof.
  induction acts as [|a acts IH]; intros s os s' Hs [H1 H2]; simpl in *.
  { intros [= <- <-]. split; [done|lia]. }
  intros Hr. apply bind_Some in Hr as ([o s1] & Ha & Hr). apply bind_Some in Hr as ([os2 s2] & Hr & Hx).
  injection Hx as <- <-.
  destruct (broadcast_step_ok cap s a Hs) as (o' & s1' & Ha' & Hs1 & _ & Hc1 & Hc2);
    [split; lia|by eapply broadcast_enabled|].
  assert (s1' = s1) as -> by congruence.
  destruct (IH s1 os2 s2 Hs1) as (? & ? & ?); [split; lia|done|]. split; [done|lia].
Qed.

Lemma broadcast_reachable cap r acts os s :
  (0 < cap ≤ u64_max)%Z → (Z.of_nat (length acts) < u64_max)%Z →
  sys_run (init_sys cap r) acts = Some (os, s) → broadcast_inv cap s ∧ room s 1.
Proof.
  intros Hc Hlen Hr.
  destruct (broadcast_run_inv cap acts _ os s (broadcast_init_inv cap r Hc)) as (Hs & H1 & H2); [|done|].
  - split; simpl; lia.
  - split; [done|]. simpl in *. split; lia.
Qed.

End inv.

(** C16. Delivery is in order and lag is exact, after any run of sends, receives, drops
    and clones: every action whose guard holds goes through; a receive gives the value
    with the number of the receiver's cursor and moves the cursor by one, unless that
    number left the ring, of the latest [cap] values: then it gives exactly how many
    values were missed and moves to the oldest in the ring; at the end it is closed
    once no sender is left, and else suspends with its waker registered.  A send is
    always accepted.  [try_recv] answers Closed at the end even while senders live. *)
Theorem broadcast_delivery (T : Type) cap r acts os (s : Sys T) :
  (0 < cap ≤ u64_max)%Z → (Z.of_nat (length acts) < u64_max)%Z →
  sys_run (init_sys cap r) acts = Some (os, s) →
  (∀ a, enabled s a → is_Some (sys_step s a)) ∧
  (∀ v, sender_count (inner s) ≠ 0 →
     ∃ s', sys_step s (Send v) = Some (SentTo (Some (handles s - 1)), s') ∧ sent s' = sent s ++ [v]) ∧
  (∀ r' f w, futs s !! r' = Some f → finished f = false →
     ∃ c o s', receivers s !! r' = Some c ∧ (0 ≤ c ≤ Z.of_nat (length (sent s)))%Z ∧
       sys_step s (PollRecv r' w) = Some (o, s') ∧ poll_answer cap s r' c w o s') ∧
  (∀ r' c, free s r' = Some c →
     ∃ res c' s', sys_step s (TryRecv r') = Some (Got res, s') ∧ receivers s' !! r' = Some c' ∧
       match expected cap s c with Some x => (res, c') = x | None => res = RClosed ∧ c' = c end).
Proof.
  intros Hcap Hlen Hr. destruct (broadcast_reachable cap r acts os s Hcap Hlen Hr) as [Hs Hroom].
  split; [|split; [|split]].
  - intros a Ha. destruct (broadcast_step_ok cap s a Hs Hroom Ha) as (o & s' & -> & _). done.
  - intros v Hsc. destruct (broadcast_send_ok cap s v Hs Hroom Hsc) as (s' & ? & _ & _ & _ & _ & ?). by exists s'.
  - intros r' f w Hf Hfin.
    destruct (broadcast_poll_recv_ok cap s r' f w Hs Hroom Hf Hfin) as (c & o & s' & Hc & Ha & _ & _ & _ & Hans).
    exists c, o, s'. split; [done|]. rewrite <- (bi_next _ _ Hs). split; [by apply (bi_cursor _ _ Hs r')|done].
  - intros r' c Hf. destruct (broadcast_free_spec _ _ _ Hf) as [_ Hc].
    destruct (broadcast_try_recv_spec cap s c Hs) as (res & c' & Ht & _ & Hres);
      [destruct Hroom; split; lia|by apply (bi_cursor _ _ Hs r')|].
    eexists res, c', _. split; [simpl; rewrite Hf; simpl; rewrite Ht; done|]. split; [apply lookup_insert_eq|done].
Qed.

(** A receive that waits misses no value: a registered waker belongs to an unfinished
    receive whose receiver has seen everything, while there are senders; every send, and
    the drop of the last sender, wakes all the registered wakers and leaves none; and any
    other step leaves a waker registered, unless its own receive is polled or dropped. *)
Theorem broadcast_wakeup (T : Type) cap r acts os (s : Sys T) i w :
  (0 < cap ≤ u64_max)%Z → (Z.of_nat (length acts) < u64_max)%Z →
  sys_run (init_sys cap r) acts = Some (os, s) → (i, w) ∈ waiters (pool (inner s)) →
  (∃ r' f, futs s !! r' = Some f ∧ parked f = true ∧ fut_id f = i ∧ finished f = false ∧
     receivers s !! r' = Some (Z.of_nat (length (sent s))) ∧ sender_count (inner s) ≠ 0) ∧
  ∀ a o s', sys_step s a = Some (o, s') →
    (∃ r' f, futs s !! r' = Some f ∧ parked f = true ∧ fut_id f = i ∧
       (a = DropRecv r' ∨ ∃ w', a = PollRecv r' w')) ∨
    (i, w) ∈ waiters (pool (inner s')) ∧ (∀ v, a ≠ Send v) ∧ sender_count (inner s') ≠ 0 ∨
    woken_in s s' w.
Proof.
  intros Hcap Hlen Hr Hin. destruct (broadcast_reachable cap r acts os s Hcap Hlen Hr) as [Hs Hroom]. split.
  - destruct (waiter_future _ _ i w (bi_pool _ _ Hs) Hin) as (r' & f & Hf & Hp & <-). exists r', f.
    destruct (bi_futs _ _ Hs r' f Hf) as (c & Hc & Hok). specialize (Hok Hp).
    rewrite decide_True in Hok by (rewrite list_elem_of_fmap; by exists (fut_id f, w)).
    destruct Hok as (-> & Hd & Hfin). rewrite (bi_closed _ _ Hs) in Hd. apply bool_decide_eq_false in Hd.
    rewrite (bi_next _ _ Hs) in Hc. by split_and!.
  - intros a o s' Ha. pose proof (broadcast_enabled s a o s' Ha) as Hen.
    destruct (broadcast_step_ok cap s a Hs Hroom Hen) as (o2 & s2 & Ha2 & Hs2 & Hk & _).
    assert (s2 = s') as -> by congruence. destruct (Hk i w Hin) as [?|[Hin'|?]]; [by left|..|by right; right].
    right; left. split; [done|]. split.
    + intros v ->. destruct (broadcast_send_ok cap s v Hs Hroom Hen) as (s2 & Ha3 & _ & _ & Hemp & _).
      assert (s2 = s') as -> by congruence. rewrite Hemp in Hin'. by apply elem_of_nil in Hin'.
    + intros H0. destruct (waiter_future _ _ i w (bi_pool _ _ Hs2) Hin') as (r' & f & Hf & Hp & <-).
      destruct (bi_futs _ _ Hs2 r' f Hf) as (c & Hc & Hok). specialize (Hok Hp).
      rewrite decide_True in Hok by (rewrite list_elem_of_fmap; by exists (fut_id f, w)).
      destruct Hok as (_ & Hd & _). rewrite (bi_closed _ _ Hs2) in Hd. by apply bool_decide_eq_false in Hd.
Qed.

(** C3. What a send returns, and [receiver_count] with it, counts every handle but one:
    with two senders and one receiver it says two receivers. *)
Theorem broadcast_counts_senders :
  ∃ acts os (s s' : Sys nat),
    sys_run (init_sys 4 0) acts = Some (os, s) ∧ size (receivers s) = 1 ∧
    sys_step s (Send 7) = Some (SentTo (Some 2), s').
Proof.
  exists [CloneSender]. eexists _, _, _. split; [vm_compute; reflexivity|].
  split; vm_compute; reflexivity.
Qed.

(** ** Witnesses *)

(** Capacity two: a receiver that missed one of three values is told so, and then gets
    the second. *)
Definition sample_acts : list (action nat) := [Subscribe 1; Send 5; Send 6; Send 7; NewRecv 0; NewRecv 1].
Definition sample_state : Sys nat :=
  match sys_run (init_sys 2 0) sample_acts with Some (_, s) => s | None => init_sys 2 0 end.

Lemma broadcast_delivery_witness :
  ∃ o s', sys_step sample_state (PollRecv 0 20) = Some (o, s') ∧ o = Got (RLagged 1) ∧
    receivers s' !! 0 = Some 1%Z.
Proof.
  destruct (broadcast_delivery nat 2 0 sample_acts
    (match sys_run (init_sys 2 0) sample_acts with Some (os, _) => os | None => [] end) sample_state)
    as (_ & _ & H & _); [u64|vm_compute; reflexivity|vm_compute; reflexivity|].
  destruct (H 0 (mkRecv 0 false false) 20%Z) as (c & o & s' & Hc & _ & Ha & Hans);
    [vm_compute; reflexivity|done|].
  exists o, s'. split; [exact Ha|]. vm_compute in Hc. injection Hc as <-. exact Hans.
Defined.

Definition waiting_acts : list (action nat) := [NewRecv 0; PollRecv 0 20].
Definition waiting_state : Sys nat :=
  match sys_run (init_sys 2 0) waiting_acts with Some (_, s) => s | None => init_sys 2 0 end.

Lemma broadcast_wakeup_witness :
  ∃ o s', sys_step waiting_state (Send 5) = Some (o, s') ∧ woken_in waiting_state s' 20.
Proof.
  destruct (broadcast_wakeup nat 2 0 waiting_acts
    (match sys_run (init_sys 2 0) waiting_acts with Some (os, _) => os | None => [] end) waiting_state 0 20)
    as [_ H]; [u64|vm_compute; reflexivity|vm_compute; reflexivity|vm_compute; by left|].
  destruct (sys_step waiting_state (Send 5)) as [[o s']|] eqn:Hs; [|vm_compute in Hs; discriminate Hs].
  exists o, s'. split; [done|].
  destruct (H (Send 5) o s' Hs) as [(r & f & _ & _ & _ & [Hx|[w Hx]])|[(_ & Hx & _)|Hw]];
    [discriminate Hx|discriminate Hx|by destruct (Hx 5)|exact Hw].
Defined.
